(* ===== verification/_CoqProject ===== *)
-Q . S2P
Prelude.v
Error.v
Header.v
Pod.v
Shm.v
Ring.v
Spec.v
Fs.v
Create.v
Hostile.v
RingProps.v
Loan.v
LoanInv.v
LoanOps.v
LoanClient.v
LoanProps.v
LoanProcs.v
LoanHazards.v
Status.v
StatusProps.v
StatusExample.v
StatusTorn.v
Notify.v
NotifyProps.v
Handshake.v
NotifyHazards.v
Witnesses.v
Weak.v
WeakInv.v
WeakSteps.v
WeakExec.v
WeakProps.v
WeakRefine.v
WeakCalls.v
Client.v
Loom.v
WeakProgress.v
Wakeup.v
Pool.v
PoolInv.v
PoolSteps.v
PoolProps.v
Handles.v
Crash.v
CreateRace.v
DoubleFetch.v
HostilePeer.v
Examples.v
Exhaustion.v
Fuzz.v
FuzzProps.v
Format.v
