(* ===== verification/Prelude.v ===== *)
(** A verification of shm-rings: a single-producer, multi-consumer broadcast
    ring over a shared memory-mapped file, with zero-copy loans, eventfd
    wakeups and file-backed status records.

    * The program and its parts

    A ring is a file: a 256-byte header page ([src/src/header.rs]) followed by
    a power-of-two array of fixed-size records.  [src/src/ring.rs] creates or
    opens such a file, maps it, and gives each process a handle
    ([SpmcRingBuffer<T>]).  The producer writes the slot of [write_idx] and then
    publishes the next [write_idx]; every reader has its own cursor in the
    header and consumes every record (broadcast); a push is refused while the
    slowest participating reader is a full capacity behind.  The words of the
    header are the only synchronisation between processes.  [src/src/loan.rs]
    adds loans, which view a slot in place and hold the reader's cursor back;
    [src/src/notify.rs] adds blocking pops on an eventfd; [src/src/status.rs] is
    a separate facility, one record in one file; [src/src/loom_ring.rs] is the
    crate's own double of the ring's accesses for exhaustive exploration.

    * Files

    - [Prelude]: bytes and little-endian words, machine integers, the two
      compilation profiles ([Profile]: whether arithmetic overflow panics), the
      outcome monad ([Ret], [Panic], [Ub]) and its state monad with their
      notation ([let!]), tactics and the hint database [shm].
    - [Error]: [ShmRingError] of [src/src/error.rs].
    - [Header]: [RingHeader] with every method of [src/src/header.rs]; its
      [repr(C)] layout as bytes ([header_bytes], [header_of_bytes]).
    - [Pod]: the record type [T], a parameter; class [Pod] and laws [PodLaws]
      for the traits of the crate zerocopy.
    - [Shm]: the mapping ([shm]: header and slot bytes) and the handle
      ([SpmcRingBuffer]); [St] is the mapping seen from one handle.
    - [Ring]: [slot_ptr], [try_push], [try_pop], [peek], [len], [is_empty],
      [slowest_lag], [total_written], [capacity], [path], [check_reader] of
      [src/src/ring.rs]; the layout invariant [layout_ok] and memory safety.
    - [Spec]: the abstract broadcast log, the representation relation [rep], and
      the refinement of each operation.
    - [Fs], [Create]: the file system and mapping calls (classes [Os],
      [Memmap2], [Memmap2Laws]), and [create_new], [create_new_with_readers],
      [open_existing] of [src/src/ring.rs].
    - [Hostile]: what those constructors accept and should not.
    - [RingProps]: the ring's theorems for arbitrary runs.
    - [Loan], [LoanInv], [LoanOps], [LoanClient], [LoanProps], [LoanHazards]:
      [claim], [commit], [abort], [drop], [deref] of [src/src/loan.rs], the
      invariant of a handle with open loans, the client programs that hold
      loans, what they are guaranteed, and what they are not; [LoanProcs]:
      several processes, each with a handle and loans of its own.
    - [Handles]: one process creates the ring, others open its file at any
      time, and all use it through their handles.
    - [Crash]: a producer killed inside [try_push], and who opens the file next.
    - [CreateRace]: [create_new_with_readers] and [open_existing] of
      [src/src/ring.rs] interleaved, the header written byte by byte.
    - [DoubleFetch]: [open_existing] of a file that changes under it.
    - [HostilePeer]: the calls of a program, with a process that rewrites the
      mapping before each of their accesses.
    - [Examples]: the programs in the documentation of [src/src/lib.rs],
      [src/src/loan.rs] and [src/src/status.rs].
    - [Exhaustion]: the ring at message [2^64 - 1].
    - [Status], [StatusProps], [StatusExample]: [create], [read], [update],
      [cleanup] of [src/src/status.rs] over the file system of [Fs];
      [StatusTorn]: a reader that runs while the writer writes, byte by byte.
    - [Notify], [NotifyProps]: the eventfd calls and the blocking operations of
      [src/src/notify.rs]; [Handshake]: producer and blocked consumers as a
      step relation; [NotifyHazards]: sharing one eventfd.
    - [Witnesses]: theorems of [Header], [Ring], [Create], [Hostile] applied.
    - [Weak], [WeakInv], [WeakSteps], [WeakProps], [WeakRefine]: the ring of
      [src/src/loom_ring.rs] at the granularity of single accesses, under
      release/acquire memory, with race detection, and the queries [len] and
      [slowest_lag] of [src/src/ring.rs]; its refinement of the log of [Spec].
      [lstep] leaves the clients as free as [LoomRing] does: its [try_pop] does
      not look at [loan_depth], and any open loan may be aborted.  [careful] is
      the executions in which no reader dereferences a loan its own cursor has
      passed, [gated] the clients that pop only with no loan open and abort
      only their newest one.  [WeakExec] runs schedules of it.
    - [WeakCalls], [Client], [Loom]: the contract a call of that ring keeps, the
      proof rule for programs that share a ring, and the four bounded programs
      of [src/src/loom_ring.rs] proved with it (Modules [Fanout], [Boundary],
      [LoanPin], [Notified]).
    - [WeakProgress]: how many accesses a call has left; [Wakeup]:
      [push_notified] and [pop_blocking] as programs of that ring.
    - [Pool], [PoolInv], [PoolSteps], [PoolProps]: any number of threads that
      share one handle and claim for one reader id ([src/src/loan.rs]), with
      [Relaxed] read-modify-writes, under release/acquire memory.
    - [Fuzz], [FuzzProps]: the two fuzz targets of [src/fuzz/fuzz_targets/].
    - [Format]: the [Display] texts of [ShmRingError], what the [Debug]
      implementations read, and the descriptor accessors.

    * What the theorems show

    - The ring is a broadcast log.  Any sequence of operations of a mapped ring
      gives exactly the answers of the abstract log, without panic or undefined
      behaviour ([ring_refines_broadcast_log]); readers get prefixes of the
      stream ([reader_fifo]); no slot is overwritten before the slowest reader
      passed it ([no_overwrite_before_slowest_read]); pushes are refused exactly
      at a full lag and accepted again after it is consumed; a peeked pointer
      stays valid until its reader pops ([peek_pointer_stays_valid]).
    - Processes.  Any number of processes that open the file and operate
      through handles of their own see that one log
      ([processes_share_one_log]).  A producer that dies at any point of a
      push, its slot half written, leaves the record in the log or not at all,
      for whoever opens the file then; [total_written] is one short exactly if
      the kill came between the publish and the count
      ([killed_push_is_atomic]).  A file opened while it is created gives a
      typed error or a handle that stays inside it ([open_during_create]), but
      any ring can be opened half made, its pops failing and its messages lost
      ([half_made_ring_opens]).  A ring of one slot is created but never opens
      ([capacity_one_cannot_be_opened]): the theorems about rings that are
      opened ask for two.
    - The documented programs run: every assertion of theirs holds
      ([doc_examples_run], [status_example_run]).
    - The memory-ordering argument.  In every interleaving of single accesses
      under release/acquire memory the producer never passes the capacity
      boundary and whoever a signal wakes sees the message ([WeakProps]); every
      execution is a run of the broadcast log ([weak_refines_broadcast_log]),
      and every access keeps the contract its callers rely on
      ([steps_keep_contract]); the calls are wait-free ([calls_wait_free]).  In
      every [careful] execution there is no data race ([no_data_race]) and slot
      reads return the published records ([reads_deliver_the_stream]); the
      clients of [gated] stay careful and their loans pinned
      ([open_loan_pins_its_slot]); a client that pops past its loan and then
      reads it races ([ungated_pop_races]).  From the contract alone, none of
      the four loom programs fails an assertion ([fanout_passes],
      [boundary_passes], [loan_pin_passes], [notified_passes]), the main
      thread's load of [total_written] after the join included: it is a counter
      with its own [fetch_add] ([count_push]) and [Relaxed] load
      ([loom_total_written]).
    - Shared handles.  Threads of one handle that claim for the same reader,
      hand loans to one another, lend them by reference, commit or drop them, or
      abort the newest one unread, get distinct, pinned records without a race
      ([shared_loans_exclusive], [shared_loans_no_data_race]), are kept from popping past their own loans
      ([shared_gate_refuses_holder]) and leave the claim loop when left alone
      ([claim_alone_completes]); an [abort] after a read can make them race
      (a run, [aborted_loan_reads_race]).
    - Memory safety against the file.  With any words in the header, no
      operation leaves the mapping ([hostile_header_memory_safe]), nor does any
      call while another process rewrites header and slots between its accesses
      ([hostile_peer_memory_safe]); opening a
      file whose contents change meanwhile is safe with overflow checks and not
      without ([open_under_attack]); [open_existing] accepts only sound files
      whose size computation does not wrap, and each unfit file has its typed
      error ([open_existing_rejects], which also says when a mask of [u64::MAX]
      or a size of [2^64] panics or is compared wrapped); a created ring of two
      or more slots opens.
    - Layout.  Header fields are at their documented offsets, header and bytes
      determine each other, [validate] is decided exactly.
    - Loans.  For every program that aborts only a reader's newest loan, open
      loans keep viewing their record ([open_loans_stay_pinned]), also when
      several processes hold loans of their own readers
      ([loans_pinned_across_processes]); commit is first-in first-out; claim's
      loop ends; with no loan open and the pipeline not ahead, a zero-copy pop
      is a pop.  The discipline is needed: on any ring an abort of an older
      loan has the younger one issued twice and un-pinned
      ([abort_unpins_younger_loan]).
    - Wakeups.  A sole consumer of an eventfd never sleeps on an available
      message; a blocked pop returns the record pushed meanwhile.  Access by
      access, under release/acquire memory, the notified stream reaches every
      reader as a prefix, no parked reader is forgotten
      ([notified_stream_delivered]), and no interleaving is a dead end
      ([notified_stream_completes]).
    - Status files.  Round trip, agreeing gates, and updates confined to files
      that held a status of the same type; a read that overlaps updates returns
      bytes of the values written ([concurrent_read_mixes]), and any mixture of
      two consecutive ones occurs ([every_mixture_is_read]).
    - Formatting.  The error texts tell errors apart ([display_distinguishes]),
      and [Debug] changes nothing ([debug_only_looks]).
    - Fuzz targets.  The protocol target returns on every input
      ([fuzz_ring_returns]); the constructor target panics exactly on the
      inputs that make it create a one-slot ring ([fuzz_open_verdict]).
    - Limits.  Behaviours that the documentation rules out or does not mention,
      some for every ring, others on concrete runs: see [Hostile], [LoanHazards], [NotifyHazards],
      and the last theorems of [StatusProps], [NotifyProps], [WeakProps] and
      [PoolProps].

    * Conventions

    [u64] and [usize] are [Z] on 64-bit targets.  Rust's checked operators
    ([add64], [sub64], [mul64]) panic with overflow checks and wrap without; the
    theorems hold in both profiles unless they name one.  An access outside the
    mapping or misaligned is [Ub].  Theorems about running a ring bound the
    stream by [2^64] records, since [write_idx + 1] is a checked addition; the
    bound is the code's own ([index_space_exhausted]).
    Record types, operating system faults, other processes' interference,
    memmap2, eventfd, poll and the clock are parameters, with named laws where
    the code relies on documented behaviour; each has an instance at which the
    theorems are applied.

    Fuel: [claim_loop] runs over a list of attempts (what happens between its
    loads and its exchange) and ends at the first exchange that is neither
    spurious nor contended ([claim_terminates]); the blocking loops of [Notify]
    take a number of rounds, and three rounds are enough once the message is
    there ([pop_blocking_wakes_with_record]).  [Weak], [Pool] and the loom
    programs are step relations and need no fuel; the fuzz loops recur on the
    input.

    * What is not modelled

    [Ring], [Loan], [Handles] and [Notify] run whole calls one after the
    other, in any order; interleaving inside a call is the subject of [Weak]
    (one thread per reader), [Wakeup] (the notified ring), [Pool] (many
    threads on one reader; the other participants of the backpressure scan
    are arbitrary numbers), [Handshake] (notification, whole calls),
    [StatusTorn] (status files, one writer), [Crash] (a push that stops
    anywhere) and [CreateRace] (one creator, one opener that does nothing
    but open; its loads are single steps and the system raises no faults).
    Calls other than a push store at most one shared word, so a process
    killed in them is one that stopped before or after; a creator that dies
    is one of [CreateRace] that takes no more steps. In both memory models a
    word is modified in the order its writes are executed, and indices are
    unbounded integers. [Weak] keeps the gate of a reader as the list of its
    open loans, since nothing in [LoomRing] reads it; [Pool]
    lends an open loan by reference but does not let a borrower lend it on.
    The temporary directory of the fuzz targets is a path parameter, and so
    is the text of an [io::Error]. [Debug] is modelled up to the fields it
    reports, not the layout of the text. [src/src/lib.rs] holds
    documentation (its program is in [Examples]), lints and re-exports; the
    example of [src/src/notify.rs] starts a thread, and is covered by the
    theorems of [Wakeup]; the [Send] and [Sync] implementations are markers
    whose justification is what [Weak] and [Pool] prove; benchmarks and
    tests are left out.

    * Plan

    Exclusivity (without the order of reads) when loans are aborted by several
    threads in any order that never reissues an open index; completion of the
    notified stream under a fair scheduler, where [notified_stream_completes]
    gives an execution from every state. *)

From stdpp Require Export base numbers list gmap strings option.
From coqutil Require Byte Word.LittleEndianList Z.BitOps.
From Stdlib Require Export ZArith Lia.

Set Default Goal Selector "!".
Open Scope Z_scope.

(** ** Bytes

    A mapping is a list of bytes; multi-byte words are little-endian, the
    byte order of the targets the crate names (x86-64, aarch64). *)

Abbreviation byte := Init.Byte.byte.

Definition le_bytes (n : nat) (v : Z) : list byte := LittleEndianList.le_split n v.
Definition le_word (bs : list byte) : Z := LittleEndianList.le_combine bs.
#[global] Opaque le_bytes le_word.

(** ** Machine integers

    [u64] and [usize] (64-bit targets) are [Z]; the arithmetic operators of
    Rust panic on overflow when the crate is compiled with overflow checks
    (the [dev] profile) and wrap when it is not (the [release] profile). *)

Definition u64_MAX : Z := 2 ^ 64 - 1.
Definition u64 (z : Z) : Prop := 0 <= z < 2 ^ 64.
Definition u32 (z : Z) : Prop := 0 <= z < 2 ^ 32.
Definition wrap64 (z : Z) : Z := z mod 2 ^ 64.

Class Profile := overflow_checks : bool.
Definition dev_profile : Profile := true.
Definition release_profile : Profile := false.

(** ** Outcomes and the state monad

    A call returns a value, panics, or has undefined behaviour (an access
    outside the mapping or a misaligned one). *)

Inductive outcome (A : Type) :=
  | Ret (a : A)
  | Panic
  | Ub.
Arguments Ret {A} a.
Arguments Panic {A}.
Arguments Ub {A}.

Inductive result (E A : Type) :=
  | Ok (a : A)
  | Err (e : E).
Arguments Ok {E A} a.
Arguments Err {E A} e.

Definition M (S A : Type) : Type := S -> outcome (A * S).

Definition ret {S A} (a : A) : M S A := fun s => Ret (a, s).

Definition bind {S A B} (m : M S A) (k : A -> M S B) : M S B := fun s =>
  match m s with
  | Ret (a, s') => k a s'
  | Panic => Panic
  | Ub => Ub
  end.

(** The [?] operator: an [Err] is returned at once, the state kept. *)
Definition bind_ok {S E A B} (m : M S (result E A)) (k : A -> M S (result E B)) :
    M S (result E B) :=
  bind m (fun r => match r with Ok a => k a | Err e => ret (Err e) end).

Definition panic {S A} : M S A := fun _ => Panic.
Definition ub {S A} : M S A := fun _ => Ub.
Definition get {S} : M S S := fun s => Ret (s, s).
Definition modify {S} (f : S -> S) : M S unit := fun s => Ret (tt, f s).
Definition lift {S A} (o : outcome A) : M S A := fun s =>
  match o with Ret a => Ret (a, s) | Panic => Panic | Ub => Ub end.

Declare Scope shm_scope.
Delimit Scope shm_scope with shm.
Notation "'let!' x ':=' m 'in' k" := (bind m (fun x => k))
  (at level 10, x pattern, m at level 200, k at level 200) : shm_scope.
Notation "'let?' x ':=' m 'in' k" := (bind_ok m (fun x => k))
  (at level 10, x pattern, m at level 200, k at level 200) : shm_scope.
Notation "m ';!' k" := (bind m (fun _ => k))
  (at level 199, k at level 200, right associativity) : shm_scope.
Open Scope shm_scope.

(** Rust's [assert!]. *)
Definition assert_ {S} (b : bool) : M S unit := if b then ret tt else panic.

Definition arith {S} `{Profile} (z : Z) : M S Z :=
  if (0 <=? z) && (z <? 2 ^ 64) then ret z
  else if overflow_checks then panic else ret (wrap64 z).
Definition add64 {S} `{Profile} (a b : Z) : M S Z := arith (a + b).
Definition sub64 {S} `{Profile} (a b : Z) : M S Z := arith (a - b).
Definition mul64 {S} `{Profile} (a b : Z) : M S Z := arith (a * b).

(** [uN::is_power_of_two] is [count_ones() == 1]. *)
Fixpoint popcount (p : positive) : Z :=
  match p with
  | xH => 1
  | xO p => popcount p
  | xI p => 1 + popcount p
  end.
Definition count_ones (z : Z) : Z := match z with Zpos p => popcount p | _ => 0 end.
Definition is_power_of_two (z : Z) : bool := count_ones z =? 1.

(** [slice[i]] and [slice[i] = v]: a panic out of range. *)
Definition index {A} (l : list A) (i : Z) : outcome A :=
  if i <? 0 then Panic
  else match l !! Z.to_nat i with Some a => Ret a | None => Panic end.
Definition index_set {A} (l : list A) (i : Z) (a : A) : outcome (list A) :=
  if (0 <=? i) && (i <? Z.of_nat (length l)) then Ret (<[Z.to_nat i := a]> l) else Panic.

(** ** Reasoning about the monad

    [wp m Q s]: from [s], [m] returns (it neither panics nor has undefined
    behaviour) and its result and final state satisfy [Q].  [no_ub m s]:
    [m] may return or panic, but has no undefined behaviour. *)

Definition wp {S A} (m : M S A) (Q : A -> S -> Prop) (s : S) : Prop :=
  match m s with Ret (a, s') => Q a s' | Panic => False | Ub => False end.

Definition no_ub {S A} (m : M S A) (Q : A -> S -> Prop) (s : S) : Prop :=
  match m s with Ret (a, s') => Q a s' | Panic => True | Ub => False end.

Section wp_rules.
Context {S : Type}.
Implicit Types s : S.

Lemma wp_ret {A} (a : A) Q s : Q a s -> wp (ret a) Q s.
Proof. done. Qed.

Lemma wp_bind {A B} (m : M S A) (k : A -> M S B) Q s :
  wp m (fun a s' => wp (k a) Q s') s -> wp (bind m k) Q s.
Proof. unfold wp, bind. by destruct (m s) as [[a s']| |]. Qed.

Lemma wp_bind_inv {A B} (m : M S A) (k : A -> M S B) Q s :
  wp (bind m k) Q s -> wp m (fun a s' => wp (k a) Q s') s.
Proof. unfold wp, bind. by destruct (m s) as [[a s']| |]. Qed.

Lemma wp_bind_ok {E A B} (m : M S (result E A)) (k : A -> M S (result E B)) Q s :
  wp m (fun r s' => match r with Ok a => wp (k a) Q s' | Err e => Q (Err e) s' end) s ->
  wp (bind_ok m k) Q s.
Proof.
  intros H. unfold bind_ok. apply wp_bind. revert H. unfold wp.
  destruct (m s) as [[[a|e] s']| |]; done.
Qed.

Lemma wp_mono {A} (m : M S A) (Q Q' : A -> S -> Prop) s :
  wp m Q s -> (forall a s', Q a s' -> Q' a s') -> wp m Q' s.
Proof. unfold wp. destruct (m s) as [[a s']| |]; auto. Qed.

Lemma wp_get Q s : Q s s -> wp get Q s.
Proof. done. Qed.

Lemma wp_modify f Q s : Q tt (f s) -> wp (modify f) Q s.
Proof. done. Qed.

Lemma wp_lift {A} (o : outcome A) a Q s : o = Ret a -> Q a s -> wp (lift o) Q s.
Proof. by intros ->. Qed.

Lemma wp_assert (b : bool) Q s : b = true -> Q tt s -> wp (assert_ b) Q s.
Proof. by intros ->. Qed.

Lemma wp_run {A} (m : M S A) Q s :
  wp m Q s -> exists a s', m s = Ret (a, s') /\ Q a s'.
Proof. unfold wp. destruct (m s) as [[a s']| |]; [eauto|done..]. Qed.

Lemma wp_of_run {A} (m : M S A) (Q : A -> S -> Prop) s a s' :
  m s = Ret (a, s') -> Q a s' -> wp m Q s.
Proof. unfold wp. by intros ->. Qed.

Lemma wp_conj {A} (m : M S A) (Q Q' : A -> S -> Prop) s :
  wp m Q s -> wp m Q' s -> wp m (fun a s' => Q a s' /\ Q' a s') s.
Proof. unfold wp. destruct (m s) as [[a s']| |]; auto. Qed.

Lemma no_ub_ret {A} (a : A) Q s : Q a s -> no_ub (ret a) Q s.
Proof. done. Qed.

Lemma no_ub_panic {A} (Q : A -> S -> Prop) s : no_ub panic Q s.
Proof. done. Qed.

Lemma no_ub_bind {A B} (m : M S A) (k : A -> M S B) Q s :
  no_ub m (fun a s' => no_ub (k a) Q s') s -> no_ub (bind m k) Q s.
Proof. unfold no_ub, bind. by destruct (m s) as [[a s']| |]. Qed.

Lemma no_ub_bind_ok {E A B} (m : M S (result E A)) (k : A -> M S (result E B)) Q s :
  no_ub m (fun r s' => match r with Ok a => no_ub (k a) Q s' | Err e => Q (Err e) s' end) s ->
  no_ub (bind_ok m k) Q s.
Proof.
  intros H. unfold bind_ok. apply no_ub_bind. revert H. unfold no_ub.
  destruct (m s) as [[[a|e] s']| |]; done.
Qed.

Lemma no_ub_mono {A} (m : M S A) (Q Q' : A -> S -> Prop) s :
  no_ub m Q s -> (forall a s', Q a s' -> Q' a s') -> no_ub m Q' s.
Proof. unfold no_ub. destruct (m s) as [[a s']| |]; auto. Qed.

Lemma no_ub_get Q s : Q s s -> no_ub get Q s.
Proof. done. Qed.

Lemma no_ub_modify f Q s : Q tt (f s) -> no_ub (modify f) Q s.
Proof. done. Qed.

Lemma no_ub_lift {A} (o : outcome A) Q s :
  o <> Ub -> (forall a, o = Ret a -> Q a s) -> no_ub (lift o) Q s.
Proof. unfold no_ub, lift. destruct o; auto. Qed.

Lemma wp_no_ub {A} (m : M S A) Q s : wp m Q s -> no_ub m Q s.
Proof. unfold wp, no_ub. by destruct (m s) as [[a s']| |]. Qed.

Section arith.
Context `{Profile}.

Lemma wp_arith z Q s : u64 z -> Q z s -> wp (arith z) Q s.
Proof.
  unfold u64, arith. intros [? ?] HQ.
  destruct (Z.leb_spec 0 z), (Z.ltb_spec z (2 ^ 64)); first [lia|done].
Qed.

Lemma no_ub_arith z (Q : Z -> S -> Prop) s :
  (u64 z -> Q z s) -> Q (wrap64 z) s -> no_ub (arith z) Q s.
Proof.
  unfold u64, arith. intros H1 H2.
  destruct (Z.leb_spec 0 z), (Z.ltb_spec z (2 ^ 64)); simpl;
    [apply H1; lia|destruct overflow_checks; done..].
Qed.
End arith.
End wp_rules.

(** Running a program step by step: rewriting with these computes the bind
    whose first action has a known result. *)
Section run.
Context {S : Type}.

Lemma bind_run {A B} (m : M S A) (k : A -> M S B) s a s' :
  m s = Ret (a, s') -> bind m k s = k a s'.
Proof. unfold bind. by intros ->. Qed.

Lemma bind_ok_run {E A B} (m : M S (result E A)) (k : A -> M S (result E B)) s a s' :
  m s = Ret (Ok a, s') -> bind_ok m k s = k a s'.
Proof. unfold bind_ok, bind. by intros ->. Qed.

Lemma bind_err_run {E A B} (m : M S (result E A)) (k : A -> M S (result E B)) s e s' :
  m s = Ret (Err e, s') -> bind_ok m k s = Ret (Err e, s').
Proof. unfold bind_ok, bind. by intros ->. Qed.

Lemma bind_inv {A B} (m : M S A) (k : A -> M S B) s b s'' :
  bind m k s = Ret (b, s'') -> exists a s', m s = Ret (a, s') /\ k a s' = Ret (b, s'').
Proof. unfold bind. destruct (m s) as [[a s']| |]; [eauto|done..]. Qed.

Lemma bind_ok_inv {E A B} (m : M S (result E A)) (k : A -> M S (result E B)) s b s'' :
  bind_ok m k s = Ret (Ok b, s'') ->
  exists a s', m s = Ret (Ok a, s') /\ k a s' = Ret (Ok b, s'').
Proof.
  unfold bind_ok. intros (r & s' & Em & Ek)%bind_inv. destruct r as [a|e]; [eauto|done].
Qed.

Lemma lift_inv {A} (o : outcome A) a (s s' : S) :
  lift o s = Ret (a, s') -> o = Ret a /\ s' = s.
Proof. unfold lift. destruct o; intros E; by simplify_eq. Qed.

Lemma assert_inv (b : bool) (s s' : S) u : assert_ b s = Ret (u, s') -> b = true /\ s' = s.
Proof. unfold assert_, ret. destruct b; intros E; by simplify_eq. Qed.

Lemma arith_inv `{Profile} z a (s s' : S) :
  arith z s = Ret (a, s') ->
  s' = s /\ u64 a /\ (u64 z /\ a = z \/ ~ u64 z /\ overflow_checks = false /\ a = wrap64 z).
Proof.
  unfold arith, u64. destruct (Z.leb_spec 0 z), (Z.ltb_spec z (2 ^ 64)); simpl.
  2-4: destruct overflow_checks; [done|].
  all: intros E; injection E as <- <-; split; [done|].
  1: (split; [lia|left; lia]).
  all: (split; [apply Z.mod_pos_bound; lia|right; split; [lia|done]]).
Qed.

Lemma lift_run {A} (o : outcome A) a (s : S) : o = Ret a -> lift o s = Ret (a, s).
Proof. by intros ->. Qed.

Lemma arith_run `{Profile} z (s : S) : u64 z -> arith z s = Ret (z, s).
Proof.
  intros [? ?]. unfold arith.
  destruct (Z.leb_spec 0 z), (Z.ltb_spec z (2 ^ 64)); first [lia|done].
Qed.

Lemma arith_overflows `{Profile} z (s : S) : ~ u64 z -> overflow_checks = true -> arith z s = Panic.
Proof.
  intros Hz Ho. unfold arith. rewrite Ho. unfold u64 in Hz.
  by destruct (Z.leb_spec 0 z), (Z.ltb_spec z (2 ^ 64)); first [lia|done].
Qed.

Lemma arith_unchecked `{Profile} z (s : S) : overflow_checks = false -> arith z s = Ret (wrap64 z, s).
Proof.
  intros Ho. unfold arith. rewrite Ho.
  destruct (Z.leb_spec 0 z), (Z.ltb_spec z (2 ^ 64)); try done. cbn.
  unfold ret, wrap64. by rewrite Z.mod_small.
Qed.
End run.

Create HintDb shm.
#[export] Hint Resolve wp_ret wp_get wp_modify : shm.

(** Steps through the binds of a monadic program. *)
Ltac wp_step :=
  lazymatch goal with
  | |- wp (bind _ _) _ _ => apply wp_bind
  | |- wp (bind_ok _ _) _ _ => apply wp_bind_ok
  | |- wp (ret _) _ _ => apply wp_ret
  | |- wp get _ _ => apply wp_get
  | |- wp (modify _) _ _ => apply wp_modify
  | |- no_ub (bind _ _) _ _ => apply no_ub_bind
  | |- no_ub (bind_ok _ _) _ _ => apply no_ub_bind_ok
  | |- no_ub (ret _) _ _ => apply no_ub_ret
  | |- no_ub get _ _ => apply no_ub_get
  | |- no_ub panic _ _ => apply no_ub_panic
  | |- no_ub (modify _) _ _ => apply no_ub_modify
  end.
Ltac wp_steps := repeat (wp_step; cbn beta iota zeta).

(** ** Facts on integers *)

Lemma wrap64_small z : u64 z -> wrap64 z = z.
Proof. apply Z.mod_small. Qed.

Lemma wrap64_range z : u64 (wrap64 z).
Proof. apply Z.mod_pos_bound. lia. Qed.
#[export] Hint Resolve wrap64_range : shm.

Lemma popcount_pos p : 1 <= popcount p.
Proof. induction p; simpl; lia. Qed.

Lemma popcount_one p : popcount p = 1 <-> exists k, 0 <= k /\ Zpos p = 2 ^ k.
Proof.
  split.
  - induction p as [p IH|p IH|]; simpl; intros H.
    + pose proof (popcount_pos p). lia.
    + destruct (IH H) as [k [Hk E]]. exists (k + 1). split; [lia|].
      rewrite Z.pow_add_r by lia. rewrite Pos2Z.inj_xO, E. lia.
    + exists 0. split; [lia|done].
  - intros [k [Hk E]]. revert p E. pattern k. apply natlike_ind; [|clear k Hk|done].
    + intros p E. change (2 ^ 0) with 1 in E. by injection E as ->.
    + intros k Hk IH p E. rewrite Z.pow_succ_r in E by done.
      destruct p as [p|p|]; [lia| |lia]. simpl. apply IH. lia.
Qed.

Lemma is_power_of_two_spec z :
  is_power_of_two z = true <-> exists k, 0 <= k /\ z = 2 ^ k.
Proof.
  unfold is_power_of_two, count_ones. destruct z as [|p|p].
  - split; [done|]. intros [k [Hk E]]. pose proof (Z.pow_pos_nonneg 2 k). lia.
  - rewrite Z.eqb_eq. apply popcount_one.
  - split; [done|]. intros [k [Hk E]]. pose proof (Z.pow_pos_nonneg 2 k). lia.
Qed.

(** Masking by [2^k - 1] is reduction modulo [2^k]. *)
Lemma land_mask a k : 0 <= k -> Z.land a (2 ^ k - 1) = a mod 2 ^ k.
Proof.
  intros Hk. rewrite <- (Z.land_ones a k Hk). f_equal.
  rewrite Z.ones_equiv. lia.
Qed.

Lemma land_mask_range a k : 0 <= k -> 0 <= Z.land a (2 ^ k - 1) < 2 ^ k.
Proof. intros Hk. rewrite land_mask by done. apply Z.mod_pos_bound. lia. Qed.

(** Two indices less than [n] apart share a residue only when equal. *)
Lemma mod_window_inj a b n : 0 < n -> a - n < b < a + n -> a mod n = b mod n -> a = b.
Proof.
  intros Hn Hw He.
  pose proof (Z.div_mod a n ltac:(lia)). pose proof (Z.div_mod b n ltac:(lia)).
  assert (a / n = b / n) by nia. nia.
Qed.

Lemma le_bytes_length n v : length (le_bytes n v) = n.
Proof. exact (LittleEndianList.length_le_split n v). Qed.

Lemma le_word_bytes n v : 0 <= v < 2 ^ (Z.of_nat n * 8) -> le_word (le_bytes n v) = v.
Proof.
  intros H. transitivity (v mod 2 ^ (Z.of_nat n * 8)); [|by apply Z.mod_small].
  exact (LittleEndianList.le_combine_split n v).
Qed.

Lemma le_bytes_word bs : le_bytes (length bs) (le_word bs) = bs.
Proof. exact (LittleEndianList.split_le_combine bs). Qed.

Lemma le_word_range bs : 0 <= le_word bs < 2 ^ (8 * Z.of_nat (length bs)).
Proof. exact (LittleEndianList.le_combine_bound bs). Qed.

Lemma le_word_cons b bs : le_word (b :: bs) = coqutil.Byte.byte.unsigned b + 256 * le_word bs.
Proof.
  change (le_word (b :: bs))
    with (Z.lor (coqutil.Byte.byte.unsigned b) (Z.shiftl (le_word bs) 8)).
  pose proof (coqutil.Byte.byte.unsigned_range b) as Hb. rewrite coqutil.Z.BitOps.or_to_plus, Z.shiftl_mul_pow2 by
    first [lia|by rewrite <- (Z.mod_small _ _ Hb), <- Z.land_ones, <- Z.land_assoc,
      (Z.land_comm (Z.ones 8)), Z.land_ones, Z.shiftl_mul_pow2, Z_mod_mult, Z.land_0_r by lia].
  lia.
Qed.

(** A word some of whose bytes are still 0 is at most the word. *)
Lemma le_word_mono bs bs' :
  Forall2 (fun b b' => b = Byte.x00 \/ b = b') bs bs' -> le_word bs <= le_word bs'.
Proof.
  induction 1 as [|b b' bs bs' Hb _ IH]; [done|]. rewrite !le_word_cons.
  pose proof (coqutil.Byte.byte.unsigned_range b'). destruct Hb as [->| ->]; [|lia].
  change (coqutil.Byte.byte.unsigned Byte.x00) with 0. lia.
Qed.

(** ** Facts on slices *)

Lemma index_ret {A} (l : list A) i a :
  index l i = Ret a <-> 0 <= i /\ l !! Z.to_nat i = Some a.
Proof.
  unfold index. destruct (Z.ltb_spec i 0); [split; [done|lia]|].
  destruct (l !! Z.to_nat i); naive_solver.
Qed.

Lemma index_not_ub {A} (l : list A) i : index l i <> Ub.
Proof. unfold index. destruct (i <? 0); [done|]. by destruct (l !! Z.to_nat i). Qed.

Lemma index_set_ret {A} (l : list A) i a :
  0 <= i < Z.of_nat (length l) -> index_set l i a = Ret (<[Z.to_nat i := a]> l).
Proof.
  intros H. unfold index_set.
  destruct (Z.leb_spec 0 i), (Z.ltb_spec i (Z.of_nat (length l))); first [lia|done].
Qed.

Lemma index_set_not_ub {A} (l : list A) i a : index_set l i a <> Ub.
Proof. unfold index_set. by destruct (_ && _). Qed.

Lemma index_set_inv {A} (l l' : list A) i a :
  index_set l i a = Ret l' ->
  0 <= i < Z.of_nat (length l) /\ l' = <[Z.to_nat i := a]> l.
Proof.
  unfold index_set.
  destruct (Z.leb_spec 0 i), (Z.ltb_spec i (Z.of_nat (length l))); simpl; intros E;
    simplify_eq; split; [lia|done].
Qed.

(** [fold(init, min)] over a list. *)
Lemma fold_min_le_init l m : foldl Z.min m l <= m.
Proof. revert m. induction l as [|x l IH]; intros m; simpl; [lia|]. specialize (IH (m `min` x)). lia. Qed.

Lemma fold_min_le l m x : x ∈ l -> foldl Z.min m l <= x.
Proof.
  intros Hx. revert m. induction Hx as [x l|x y l _ IH]; intros m; simpl; [|apply IH].
  pose proof (fold_min_le_init l (m `min` x)). lia.
Qed.

Lemma fold_min_in l m : foldl Z.min m l = m \/ foldl Z.min m l ∈ l.
Proof.
  revert m. induction l as [|x l IH]; intros m; simpl; [by left|].
  destruct (IH (m `min` x)) as [E|E]; [|by right; right].
  rewrite E. destruct (Z.min_spec m x) as [[_ ->]|[_ ->]]; [by left|by right; left].
Qed.

Lemma fold_min_glb l m b : b <= m -> (forall x, x ∈ l -> b <= x) -> b <= foldl Z.min m l.
Proof. intros Hm Hl. destruct (fold_min_in l m) as [->|E]; auto. Qed.

Lemma elem_of_take_lookup {A} (l : list A) n x :
  x ∈ take n l <-> exists i, (i < n)%nat /\ l !! i = Some x.
Proof.
  rewrite list_elem_of_lookup. split.
  - intros [i Hi]. apply lookup_take_Some in Hi as [? ?]. eauto.
  - intros [i [? ?]]. exists i. by apply lookup_take_Some.
Qed.
