(* ===== verification/Error.v ===== *)
(** Error: the error vocabulary of [src/src/error.rs].

    [ShmRingError] has the constructors of the Rust enum in their order; an
    [io::Error] is kept as its [ErrorKind], the only part of it the crate
    inspects ([create_new_with_readers] and the eventfd calls match on
    [kind()]). *)

From stdpp Require Import base strings.
From Stdlib Require Import ZArith.
Open Scope Z_scope.

(** [std::io::ErrorKind], with the kinds the crate tests by name. *)
Module ErrorKind.
Inductive t :=
  | NotFound
  | PermissionDenied
  | AlreadyExists
  | WouldBlock
  | Interrupted
  | InvalidInput
  | Other (os_error : Z).
End ErrorKind.

#[export] Instance ErrorKind_eq_dec : EqDecision ErrorKind.t.
Proof. solve_decision. Defined.

Inductive ShmRingError :=
  | InvalidCapacity (got : Z)
  | AlreadyExists
  | FileTooShort (expected got : Z)
  | HeaderCorruption (field : string) (expected got : Z)
  | VersionMismatch (expected got : Z)
  | Io (e : ErrorKind.t)
  | InvalidReaderId (id max : Z)
  | LoanOutstanding (reader_id : Z)
  | LoanNotAtCursor (loan_index cursor : Z).

#[export] Instance ShmRingError_eq_dec : EqDecision ShmRingError.
Proof. solve_decision. Defined.
