(* ===== verification/Header.v ===== *)
(** Header: the on-disk control block of [src/src/header.rs].

    [RingHeader] is the [repr(C)] struct with its fields in order (padding
    included, so that a header is exactly its 256 bytes); each method is one
    definition.  Atomic loads and stores take the [Ordering] argument of the
    source; one thread at a time the ordering does not change the value, and
    the ordering arguments are what the concurrent model reads off. *)

From S2P Require Import Prelude.
From S2P Require Import Error.
Set Default Goal Selector "!".

(** [std::sync::atomic::Ordering], as far as the crate uses it. *)
Inductive Ordering := Relaxed | Acquire | Release.

#[export] Instance Ordering_eq_dec : EqDecision Ordering.
Proof. solve_decision. Defined.

(** ** Constants *)

Definition MAGIC : Z := 0x52494E4753504D43.
Definition VERSION : Z := 1.
Definition MAX_READERS : Z := 8.
Definition HEADER_SIZE : Z := 256.

(** ** The struct *)

Record RingHeader := mkHeader {
  h_magic : Z;
  h_version : Z;
  h_num_readers : Z;
  h_pad1 : Z;
  h_write_idx : Z;
  h_read_indices : list Z;
  h_capacity_mask : Z;
  h_total_written : Z;
  h_pad_to_256 : list Z;
}.

(** What the Rust types of the fields say. *)
Record header_ok (h : RingHeader) : Prop := mkHeaderOk {
  ok_magic : u64 (h_magic h);
  ok_version : u32 (h_version h);
  ok_num_readers : u32 (h_num_readers h);
  ok_pad1 : u64 (h_pad1 h);
  ok_write_idx : u64 (h_write_idx h);
  ok_read_indices : Forall u64 (h_read_indices h);
  ok_read_indices_len : length (h_read_indices h) = 8%nat;
  ok_capacity_mask : u64 (h_capacity_mask h);
  ok_total_written : u64 (h_total_written h);
  ok_pad : Forall u64 (h_pad_to_256 h);
  ok_pad_len : length (h_pad_to_256 h) = 18%nat;
}.

(** ** Layout: [repr(C, align(64))]

    The C layout rule: each field at the next offset that is a multiple of
    its alignment, the size rounded up to the struct's alignment. *)

Definition align_up (off align : Z) : Z := (off + align - 1) / align * align.

(** Fields as (name, size, alignment). *)
Definition header_fields : list (string * Z * Z) :=
  [ ("magic", 8, 8); ("version", 4, 4); ("num_readers", 4, 4); ("_pad1", 8, 8);
    ("write_idx", 8, 8); ("read_indices", 8 * MAX_READERS, 8); ("capacity_mask", 8, 8);
    ("total_written", 8, 8); ("_pad_to_256", 8 * 18, 8) ]%string.

Fixpoint layout_from (off : Z) (fs : list (string * Z * Z)) : list (string * Z) * Z :=
  match fs with
  | [] => ([], off)
  | (name, size, align) :: fs =>
      let o := align_up off align in
      let '(l, fin) := layout_from (o + size) fs in
      ((name, o) :: l, fin)
  end.

Definition header_layout : list (string * Z) := (layout_from 0 header_fields).1.
Definition sizeof_RingHeader : Z := align_up (layout_from 0 header_fields).2 64.

Definition offset_of (field : string) : option Z :=
  (fun ip => ip.2.2) <$> list_find (fun p => p.1 = field) header_layout.

(** ** The header as bytes, and the cast of the mapping's base pointer *)

Definition header_bytes (h : RingHeader) : list byte :=
  le_bytes 8 (h_magic h) ++ le_bytes 4 (h_version h) ++ le_bytes 4 (h_num_readers h) ++
  le_bytes 8 (h_pad1 h) ++ le_bytes 8 (h_write_idx h) ++
  (h_read_indices h ≫= le_bytes 8) ++
  le_bytes 8 (h_capacity_mask h) ++ le_bytes 8 (h_total_written h) ++
  (h_pad_to_256 h ≫= le_bytes 8).

Definition word_at (bs : list byte) (off n : nat) : Z := le_word (take n (drop off bs)).
Definition words_at (bs : list byte) (off count : nat) : list Z :=
  (fun i => word_at bs (off + 8 * i) 8) <$> seq 0 count.

(** [mmap.as_ptr().cast::<RingHeader>()], read through. *)
Definition header_of_bytes (bs : list byte) : RingHeader := {|
  h_magic := word_at bs 0 8;
  h_version := word_at bs 8 4;
  h_num_readers := word_at bs 12 4;
  h_pad1 := word_at bs 16 8;
  h_write_idx := word_at bs 24 8;
  h_read_indices := words_at bs 32 8;
  h_capacity_mask := word_at bs 96 8;
  h_total_written := word_at bs 104 8;
  h_pad_to_256 := words_at bs 112 18;
|}.

(** ** Methods *)

Definition with_write_idx (h : RingHeader) (v : Z) : RingHeader :=
  mkHeader (h_magic h) (h_version h) (h_num_readers h) (h_pad1 h) v
    (h_read_indices h) (h_capacity_mask h) (h_total_written h) (h_pad_to_256 h).
Definition with_read_indices (h : RingHeader) (v : list Z) : RingHeader :=
  mkHeader (h_magic h) (h_version h) (h_num_readers h) (h_pad1 h) (h_write_idx h)
    v (h_capacity_mask h) (h_total_written h) (h_pad_to_256 h).
Definition with_total_written (h : RingHeader) (v : Z) : RingHeader :=
  mkHeader (h_magic h) (h_version h) (h_num_readers h) (h_pad1 h) (h_write_idx h)
    (h_read_indices h) (h_capacity_mask h) v (h_pad_to_256 h).

(** [RingHeader::new]: panics unless [1 <= num_readers <= MAX_READERS]. *)
Definition new (capacity_mask num_readers : Z) : outcome RingHeader :=
  if (1 <=? num_readers) && (num_readers <=? MAX_READERS) then
    Ret {| h_magic := MAGIC; h_version := VERSION; h_num_readers := num_readers;
           h_pad1 := 0; h_write_idx := 0; h_read_indices := replicate 8 0;
           h_capacity_mask := capacity_mask; h_total_written := 0;
           h_pad_to_256 := replicate 18 0 |}
  else Panic.

(** [RingHeader::validate]; [mask + 1] is a checked addition. *)
Definition validate `{Profile} (h : RingHeader) : outcome (result ShmRingError unit) :=
  let magic := h_magic h in
  if negb (magic =? MAGIC) then Ret (Err (HeaderCorruption "magic" MAGIC magic)) else
  let version := h_version h in
  if negb (version =? VERSION) then Ret (Err (VersionMismatch VERSION version)) else
  let mask := h_capacity_mask h in
  let bad := Ret (Err (HeaderCorruption "capacity_mask" 0 mask)) in
  if mask =? 0 then bad else
  match add64 mask 1 tt with
  | Ret (m1, _) => if is_power_of_two m1 then Ret (Ok tt) else bad
  | Panic => Panic
  | Ub => Ub
  end.

Definition write_idx (h : RingHeader) (ord : Ordering) : Z := h_write_idx h.
Definition set_write_idx (h : RingHeader) (v : Z) (ord : Ordering) : RingHeader :=
  with_write_idx h v.
Definition read_idx (h : RingHeader) (i : Z) (ord : Ordering) : outcome Z :=
  index (h_read_indices h) i.
Definition set_read_idx (h : RingHeader) (i v : Z) (ord : Ordering) : outcome RingHeader :=
  match index_set (h_read_indices h) i v with
  | Ret l => Ret (with_read_indices h l)
  | Panic => Panic
  | Ub => Ub
  end.

(** [read_indices[..num_readers]] panics when [num_readers > MAX_READERS]. *)
Definition slowest_read_idx (h : RingHeader) (num_readers : Z) (ord : Ordering) : outcome Z :=
  if num_readers <=? Z.of_nat (length (h_read_indices h)) then
    Ret (foldl Z.min u64_MAX (take (Z.to_nat num_readers) (h_read_indices h)))
  else Panic.

Definition capacity_mask (h : RingHeader) (ord : Ordering) : Z := h_capacity_mask h.
Definition total_written (h : RingHeader) (ord : Ordering) : Z := h_total_written h.
(** [fetch_add] wraps in every profile. *)
Definition bump_total_written (h : RingHeader) (ord : Ordering) : RingHeader :=
  with_total_written h (wrap64 (h_total_written h + 1)).
Definition num_readers (h : RingHeader) (ord : Ordering) : Z := h_num_readers h.

(** ** Lemmas on words inside a byte list *)

Lemma take_drop_app {A} (l : list A) off n m k :
  k = (off + n)%nat -> take n (drop off l) ++ take m (drop k l) = take (n + m) (drop off l).
Proof. intros ->. by rewrite <- drop_drop, take_take_drop. Qed.

Lemma word_at_bytes bs off n :
  (off + n <= length bs)%nat -> le_bytes n (word_at bs off n) = take n (drop off bs).
Proof.
  intros H. unfold word_at.
  rewrite <- (le_bytes_word (take n (drop off bs))) at 2. f_equal.
  rewrite length_take, length_drop. lia.
Qed.

Lemma word_at_here n v rest :
  0 <= v < 2 ^ (Z.of_nat n * 8) -> word_at (le_bytes n v ++ rest) 0 n = v.
Proof.
  intros H. unfold word_at. rewrite drop_0, take_app_length'; [|by rewrite le_bytes_length].
  by apply le_word_bytes.
Qed.

Lemma word_at_skip a b off n :
  (length a <= off)%nat -> word_at (a ++ b) off n = word_at b (off - length a) n.
Proof. intros H. unfold word_at. by rewrite drop_app_ge. Qed.

Lemma words_at_skip a b off n :
  (length a <= off)%nat -> words_at (a ++ b) off n = words_at b (off - length a) n.
Proof.
  intros H. unfold words_at. apply list_fmap_ext. intros i x _.
  rewrite word_at_skip by lia. f_equal. lia.
Qed.

Lemma words_length (l : list Z) : length (l ≫= le_bytes 8) = (8 * length l)%nat.
Proof.
  induction l as [|x l IH]; [done|]. rewrite bind_cons, length_app, le_bytes_length, IH. simpl. lia.
Qed.

Lemma words_at_S bs off n :
  words_at bs off (S n) = word_at bs off 8 :: words_at bs (off + 8) n.
Proof.
  unfold words_at. simpl. f_equal; [f_equal; lia|].
  rewrite <- (fmap_S_seq 0 n), <- list_fmap_compose. apply list_fmap_ext.
  intros i x _. simpl. f_equal. lia.
Qed.

Lemma words_at_here l n rest :
  Forall u64 l -> length l = n -> words_at ((l ≫= le_bytes 8) ++ rest) 0 n = l.
Proof.
  intros Hl <-. induction Hl as [|x l Hx _ IH]; [done|].
  simpl length. rewrite words_at_S, bind_cons, <- app_assoc. f_equal; [by apply word_at_here|].
  rewrite words_at_skip by (rewrite le_bytes_length; lia).
  by rewrite le_bytes_length.
Qed.

Lemma words_at_bytes bs off n :
  (off + 8 * n <= length bs)%nat ->
  (words_at bs off n ≫= le_bytes 8) = take (8 * n) (drop off bs).
Proof.
  revert off. induction n as [|n IH]; intros off H; [by rewrite take_0|].
  rewrite words_at_S, bind_cons, IH, word_at_bytes by lia.
  rewrite take_drop_app by lia. f_equal. lia.
Qed.

Lemma word_at_range bs off n : 0 <= word_at bs off n < 2 ^ (8 * Z.of_nat n).
Proof.
  unfold word_at. pose proof (le_word_range (take n (drop off bs))) as [H1 H2].
  split; [done|]. eapply Z.lt_le_trans; [done|]. apply Z.pow_le_mono_r; [lia|].
  rewrite length_take. lia.
Qed.

Lemma words_at_length bs off n : length (words_at bs off n) = n.
Proof. unfold words_at. by rewrite length_fmap, length_seq. Qed.

Lemma words_at_range bs off n : Forall u64 (words_at bs off n).
Proof.
  unfold words_at. apply Forall_fmap, Forall_true. intros i. apply (word_at_range _ _ 8).
Qed.

Lemma header_bytes_length h :
  header_ok h -> length (header_bytes h) = 256%nat.
Proof.
  intros []. unfold header_bytes.
  rewrite !length_app, !le_bytes_length, !words_length. lia.
Qed.

Lemma header_of_bytes_ok bs : header_ok (header_of_bytes bs).
Proof.
  split; cbn [header_of_bytes h_magic h_version h_num_readers h_pad1 h_write_idx
    h_read_indices h_capacity_mask h_total_written h_pad_to_256];
    first [exact (word_at_range _ _ 8)|exact (word_at_range _ _ 4)
      |apply words_at_range|apply words_at_length].
Qed.

(** Moves a word read past the words in front of it. *)
Ltac skip_words :=
  repeat first
    [ rewrite word_at_skip by (rewrite ?le_bytes_length, ?words_length; lia)
    | rewrite words_at_skip by (rewrite ?le_bytes_length, ?words_length; lia) ];
  rewrite ?le_bytes_length, ?words_length.

(** Each header update keeps the field types. *)
Lemma set_write_idx_ok h v ord : header_ok h -> u64 v -> header_ok (set_write_idx h v ord).
Proof. intros [] ?. by split. Qed.

Lemma bump_total_written_ok h ord : header_ok h -> header_ok (bump_total_written h ord).
Proof. intros [] . split; try done. apply wrap64_range. Qed.

Lemma set_read_idx_inv h h' i v ord :
  set_read_idx h i v ord = Ret h' ->
  0 <= i < Z.of_nat (length (h_read_indices h)) /\
  h' = with_read_indices h (<[Z.to_nat i := v]> (h_read_indices h)).
Proof.
  unfold set_read_idx. destruct (index_set _ _ _) as [l| |] eqn:E; [|done..].
  apply index_set_inv in E as [? ->]. naive_solver.
Qed.

Lemma set_read_idx_ok h h' i v ord :
  header_ok h -> u64 v -> set_read_idx h i v ord = Ret h' -> header_ok h'.
Proof.
  intros [] Hv E. apply set_read_idx_inv in E as [_ ->]. split; try done; simpl.
  - by apply Forall_insert.
  - by rewrite length_insert.
Qed.

Lemma set_read_idx_not_ub h i v ord : set_read_idx h i v ord <> Ub.
Proof.
  unfold set_read_idx. pose proof (index_set_not_ub (h_read_indices h) i v).
  by destruct (index_set _ _ _).
Qed.

Lemma slowest_read_idx_not_ub h n ord : slowest_read_idx h n ord <> Ub.
Proof. unfold slowest_read_idx. by destruct (_ <=? _). Qed.

#[export] Hint Resolve set_write_idx_ok bump_total_written_ok set_read_idx_ok : shm.
#[export] Hint Resolve set_read_idx_not_ub slowest_read_idx_not_ub index_not_ub : shm.

(** ** Theorems *)

(** Reading back the 256 bytes of a header (whatever follows them in the
    mapping) gives the header: the cast and the struct agree. *)
Lemma header_of_header_bytes h rest :
  header_ok h -> header_of_bytes (header_bytes h ++ rest) = h.
Proof.
  destruct h as [mg ve nr p1 wi ri cm tw pd]. intros []. simpl in *.
  unfold header_of_bytes, header_bytes. simpl. rewrite <- !app_assoc.
  f_equal; skip_words; rewrite ?ok_read_indices_len0;
    first [by apply word_at_here|idtac].
  - by apply words_at_here.
  - by apply words_at_here.
Qed.

(** Every 256 bytes are the bytes of the header they are read as: no bit
    pattern is lost or rejected by the cast. *)
Lemma header_bytes_of_bytes bs :
  (256 <= length bs)%nat -> header_bytes (header_of_bytes bs) = take 256 bs.
Proof.
  intros H. unfold header_bytes, header_of_bytes. cbn [h_magic h_version h_num_readers h_pad1
    h_write_idx h_read_indices h_capacity_mask h_total_written h_pad_to_256].
  rewrite !word_at_bytes, !words_at_bytes by lia.
  change (8 * 18)%nat with 144%nat. change (8 * 8)%nat with 64%nat.
  by rewrite (take_drop_app bs 104 8 144), (take_drop_app bs 96 8 152),
    (take_drop_app bs 32 64 160), (take_drop_app bs 24 8 224), (take_drop_app bs 16 8 232),
    (take_drop_app bs 12 4 240), (take_drop_app bs 8 4 244), (take_drop_app bs 0 8 248), drop_0.
Qed.

(** The header page and its bytes determine each other: a header read back
    from the bytes it was stored as is that header, whatever follows it in
    the mapping, and any 256 bytes at all are the bytes of the header they
    are read as (no pattern is lost or rejected by the cast). *)
Theorem header_byte_roundtrip :
  (forall h rest, header_ok h -> header_of_bytes (header_bytes h ++ rest) = h) /\
  (forall bs, (256 <= length bs)%nat ->
     header_ok (header_of_bytes bs) /\ header_bytes (header_of_bytes bs) = take 256 bs).
Proof.
  split; [apply header_of_header_bytes|]. intros bs Hl.
  split; [apply header_of_bytes_ok|by apply header_bytes_of_bytes].
Qed.

(** C36: The compile-time assertions on the struct's layout, tied to the bytes:
    [repr(C)] puts each field at its documented offset, the word stored there
    is the field's value, and the struct fills the header region exactly. *)
Theorem header_layout_pinned h :
  header_ok h ->
  Forall (fun '(name, off, n, v) =>
      offset_of name = Some (Z.of_nat off) /\ word_at (header_bytes h) off n = v)
    [ ("magic", 0%nat, 8%nat, h_magic h); ("version", 8%nat, 4%nat, h_version h);
      ("num_readers", 12%nat, 4%nat, h_num_readers h);
      ("write_idx", 24%nat, 8%nat, h_write_idx h);
      ("capacity_mask", 96%nat, 8%nat, h_capacity_mask h);
      ("total_written", 104%nat, 8%nat, h_total_written h) ]%string /\
  offset_of "read_indices" = Some 32 /\
  (forall i, (i < 8)%nat ->
     h_read_indices h !! i = Some (word_at (header_bytes h) (32 + 8 * i) 8)) /\
  sizeof_RingHeader = HEADER_SIZE /\ Z.of_nat (length (header_bytes h)) = HEADER_SIZE.
Proof.
  intros Hok. pose proof (header_of_header_bytes h [] Hok) as E.
  rewrite app_nil_r in E.
  split; [|split; [reflexivity|split; [|split; [reflexivity|]]]].
  - repeat apply Forall_cons_2; [..|apply Forall_nil_2]; (split; [reflexivity|]).
    + exact (f_equal h_magic E).
    + exact (f_equal h_version E).
    + exact (f_equal h_num_readers E).
    + exact (f_equal h_write_idx E).
    + exact (f_equal h_capacity_mask E).
    + exact (f_equal h_total_written E).
  - intros i Hi. rewrite <- E at 1. cbn [header_of_bytes h_read_indices]. unfold words_at.
    by rewrite list_lookup_fmap, lookup_seq_lt by done.
  - by rewrite header_bytes_length.
Qed.

Section validate.
Context `{Profile}.

(** The masks [validate] lets through are exactly [2^k - 1], [1 <= k < 64]. *)
Lemma add64_mask_pow2 mask :
  u64 mask -> mask <> 0 ->
  (exists m1, add64 mask 1 tt = Ret (m1, tt) /\ is_power_of_two m1 = true) <->
  exists k, 1 <= k < 64 /\ mask = 2 ^ k - 1.
Proof.
  unfold u64, add64, arith. intros Hm H0. split.
  - intros (m1 & E & Hp). apply is_power_of_two_spec in Hp as (k & Hk & ->).
    destruct (Z.leb_spec 0 (mask + 1)), (Z.ltb_spec (mask + 1) (2 ^ 64));
      [|assert (mask + 1 = 2 ^ 64) as E1 by lia; rewrite E1 in E|lia|lia].
    + simpl in E. injection E as E. exists k. split; [|lia].
      assert (k <> 0) by (intros ->; lia). split; [lia|].
      apply (Z.pow_lt_mono_r_iff 2); lia.
    + pose proof (Z.pow_pos_nonneg 2 k). destruct overflow_checks; [done|].
      assert (E2 : Ret (0, tt) = Ret (2 ^ k, tt)) by exact E. injection E2. lia.
  - intros (k & Hk & ->). exists (2 ^ k).
    assert (2 ^ k < 2 ^ 64) by (apply Z.pow_lt_mono_r; lia).
    replace (2 ^ k - 1 + 1) with (2 ^ k) by lia.
    destruct (Z.leb_spec 0 (2 ^ k)), (Z.ltb_spec (2 ^ k) (2 ^ 64)); [|lia..].
    split; [done|]. apply is_power_of_two_spec. exists k. split; [lia|done].
Qed.

(** [validate] accepts exactly the headers with this build's magic and
    version and a mask [2^k - 1] with [1 <= k < 64]: a capacity-1 ring
    (mask 0) is rejected. *)
Lemma validate_ok_iff h :
  header_ok h ->
  validate h = Ret (Ok tt) <->
  h_magic h = MAGIC /\ h_version h = VERSION /\
  exists k, 1 <= k < 64 /\ h_capacity_mask h = 2 ^ k - 1.
Proof.
  intros Hok. unfold validate.
  destruct (Z.eqb_spec (h_magic h) MAGIC) as [->|?]; simpl; [|naive_solver].
  destruct (Z.eqb_spec (h_version h) VERSION) as [->|?]; simpl; [|naive_solver].
  destruct (Z.eqb_spec (h_capacity_mask h) 0) as [E0|E0].
  { split; [done|]. intros (_ & _ & k & Hk & E).
    assert (2 ^ 1 <= 2 ^ k) by (apply Z.pow_le_mono_r; lia). lia. }
  rewrite <- (add64_mask_pow2 _ (ok_capacity_mask _ Hok) E0).
  destruct (add64 _ _ _) as [[m1 []]| |]; [|naive_solver..].
  destruct (is_power_of_two m1) eqn:Hp; naive_solver congruence.
Qed.

(** [validate] answers with a typed result on every header, hostile ones
    included, except that a mask of [u64::MAX] overflows [mask + 1] when the
    crate is built with overflow checks. *)
Lemma validate_panics_iff h :
  header_ok h ->
  validate h <> Ub /\
  (validate h = Panic <->
    overflow_checks = true /\ h_magic h = MAGIC /\ h_version h = VERSION /\
    h_capacity_mask h = u64_MAX).
Proof.
  intros Hok. pose proof (ok_capacity_mask _ Hok) as Hm. unfold u64 in Hm.
  unfold validate, u64_MAX.
  destruct (Z.eqb_spec (h_magic h) MAGIC) as [->|?]; simpl; [|naive_solver].
  destruct (Z.eqb_spec (h_version h) VERSION) as [->|?]; simpl; [|naive_solver].
  destruct (Z.eqb_spec (h_capacity_mask h) 0) as [E0|E0]; [naive_solver lia|].
  unfold add64, arith.
  destruct (Z.leb_spec 0 (h_capacity_mask h + 1)); [|lia].
  destruct (Z.ltb_spec (h_capacity_mask h + 1) (2 ^ 64)); simpl.
  - destruct (is_power_of_two _); naive_solver lia.
  - assert (h_capacity_mask h = 2 ^ 64 - 1) as -> by lia.
    destruct overflow_checks; simpl; naive_solver.
Qed.

(** [validate] decides: it accepts exactly the headers with this build's
    magic and version and a mask [2^k - 1], [1 <= k < 64]; every other header
    gets a typed error, except that a mask of [u64::MAX] overflows [mask + 1]
    and panics when the crate is built with overflow checks. *)
Theorem validate_decides h :
  header_ok h ->
  (validate h = Ret (Ok tt) <->
    h_magic h = MAGIC /\ h_version h = VERSION /\
    exists k, 1 <= k < 64 /\ h_capacity_mask h = 2 ^ k - 1) /\
  validate h <> Ub /\
  (validate h = Panic <->
    overflow_checks = true /\ h_magic h = MAGIC /\ h_version h = VERSION /\
    h_capacity_mask h = u64_MAX).
Proof. intros Hok. split; [by apply validate_ok_iff|by apply validate_panics_iff]. Qed.
End validate.
