(* ===== verification/Pod.v ===== *)
(** Pod: what the ring and the status file ask of a record type.

    [SpmcRingBuffer<T>] needs [T: Copy + zerocopy::FromBytes +
    zerocopy::Immutable] and moves records as [size_of::<T>()] raw bytes;
    [PodStatus] types are plain old data under the same contract.  The traits
    come from outside the repository, so the record type is a parameter: the
    class [Pod] holds its size, alignment and byte representation, and
    [PodLaws] what the language and the traits guarantee of them.  The
    clients' theorems are proved against the interface; [u64] and byte arrays
    implement it. *)

From S2P Require Import Prelude.
Set Default Goal Selector "!".

Class Pod (T : Type) := {
  size_of : Z;
  align_of : Z;
  to_bytes : T -> list byte;
  from_bytes : list byte -> T;
  (** the values of the Rust type, when [T] is a larger type *)
  pod_ok : T -> Prop;
}.
Arguments size_of T {_}.
Arguments align_of T {_}.

Class PodLaws (T : Type) `{Pod T} := {
  size_of_range : 0 <= size_of T < 2 ^ 63;
  align_of_pow2 : exists k, 0 <= k /\ align_of T = 2 ^ k;
  (** the size of a Rust type is a multiple of its alignment *)
  size_of_align : size_of T mod align_of T = 0;
  to_bytes_length v : length (to_bytes v) = Z.to_nat (size_of T);
  (** a bitwise copy out of a slot is the value copied in *)
  from_to_bytes v : pod_ok v -> from_bytes (to_bytes v) = v;
  (** [FromBytes]: every bit pattern is a value *)
  from_bytes_ok bs : length bs = Z.to_nat (size_of T) -> pod_ok (from_bytes bs);
}.

(** ** [u64] *)

#[export] Instance u64_pod : Pod Z := {
  size_of := 8;
  align_of := 8;
  to_bytes := le_bytes 8;
  from_bytes := le_word;
  pod_ok := u64;
}.

#[export] Instance u64_pod_laws : PodLaws Z.
Proof.
  split; cbn [size_of align_of to_bytes from_bytes pod_ok u64_pod].
  - lia.
  - by exists 3.
  - done.
  - intros v. apply le_bytes_length.
  - intros v Hv. by apply (le_word_bytes 8).
  - intros bs Hl. pose proof (le_word_range bs) as Hr. rewrite Hl in Hr. exact Hr.
Qed.

(** ** [[u8; N]] *)

Definition bytes_pod (n : Z) : Pod (list byte) := {|
  size_of := n;
  align_of := 1;
  to_bytes bs := take (Z.to_nat n) (bs ++ replicate (Z.to_nat n) Byte.x00);
  from_bytes := id;
  pod_ok bs := length bs = Z.to_nat n;
|}.

Lemma bytes_pod_laws n : 0 <= n < 2 ^ 63 -> @PodLaws (list byte) (bytes_pod n).
Proof.
  intros Hn. split; cbn [size_of align_of to_bytes from_bytes pod_ok bytes_pod].
  - done.
  - by exists 0.
  - apply Z.mod_1_r.
  - intros v. rewrite length_take, length_app, length_replicate. lia.
  - intros v Hv. by apply take_app_length'.
  - done.
Qed.

Section pod.
Context {T : Type} `{PodLaws T}.

Lemma align_of_pos : 0 < align_of T.
Proof. destruct align_of_pow2 as (k & Hk & ->). by apply Z.pow_pos_nonneg. Qed.

(** An alignment of at most 64 divides every multiple of 64. *)
Lemma align_of_64 : align_of T <= 64 -> 64 mod align_of T = 0.
Proof.
  destruct align_of_pow2 as (k & Hk & ->). intros Hle.
  assert (k <= 6).
  { apply (Z.pow_le_mono_r_iff 2); [lia..|]. exact Hle. }
  replace 64 with (2 ^ (6 - k) * 2 ^ k) by (rewrite <- Z.pow_add_r by lia; by replace (6 - k + k) with 6 by lia).
  apply Z_mod_mult.
Qed.
End pod.
