(* ===== verification/Shm.v ===== *)
(** Shm: the mapped ring file and a handle to it.

    The mapping is the file's bytes: the 256-byte header, seen as a
    [RingHeader], and the slot bytes behind it.  A handle
    ([SpmcRingBuffer<T>] of [src/src/ring.rs]) adds the cached capacity, the
    path and the handle-local loan bookkeeping.  [St] is the mapping as one
    handle sees it; every handle of a file shares the [shm] part. *)

From S2P Require Import Prelude.
From S2P Require Import Header.
From S2P Require Import Pod.
Set Default Goal Selector "!".

Record Shm := mkShm {
  hdr : RingHeader;
  data : list byte;
}.

(** The mapping, byte by byte. *)
Definition shm_bytes (m : Shm) : list byte := header_bytes (hdr m) ++ data m.
Definition shm_of_bytes (bs : list byte) : Shm := mkShm (header_of_bytes bs) (drop 256 bs).
Definition mapping_len (m : Shm) : Z := HEADER_SIZE + Z.of_nat (length (data m)).

(** [SpmcRingBuffer]: [mmap] and [header] are the [shm] part of [St]. *)
Record SpmcRingBuffer := mkRing {
  r_capacity : Z;
  r_path : string;
  claim_base : list Z;
  loan_depth : list Z;
}.

Record St := mkSt {
  shm : Shm;
  ring : SpmcRingBuffer;
}.

Definition with_hdr (s : St) (h : RingHeader) : St := mkSt (mkShm h (data (shm s))) (ring s).
Definition with_shm (s : St) (m : Shm) : St := mkSt m (ring s).
Definition with_claim_base (s : St) (l : list Z) : St :=
  mkSt (shm s) (mkRing (r_capacity (ring s)) (r_path (ring s)) l (loan_depth (ring s))).
Definition with_loan_depth (s : St) (l : list Z) : St :=
  mkSt (shm s) (mkRing (r_capacity (ring s)) (r_path (ring s)) (claim_base (ring s)) l).

(** [mmap.as_ptr().byte_add(off)], [read_volatile] and [write_volatile] on the
    mapping: a pointer may go one past the end; an access must be aligned and
    inside the mapping. *)

Definition splice (l : list byte) (off : nat) (bs : list byte) : list byte :=
  take off l ++ bs ++ drop (off + length bs) l.

Definition byte_add (off : Z) : M St Z := fun s =>
  if off <=? mapping_len (shm s) then Ret (off, s) else Ub.

Definition accessible (m : Shm) (off size align : Z) : bool :=
  (0 <=? off) && (off + size <=? mapping_len m) && (off mod align =? 0).

Section access.
Context {T : Type} `{Pod T}.

Definition bytes_at (m : Shm) (off : Z) : list byte :=
  take (Z.to_nat (size_of T)) (drop (Z.to_nat off) (shm_bytes m)).

Definition read_volatile (off : Z) : M St T := fun s =>
  if accessible (shm s) off (size_of T) (align_of T)
  then Ret (from_bytes (bytes_at (shm s) off), s) else Ub.

Definition write_volatile (off : Z) (v : T) : M St unit := fun s =>
  if accessible (shm s) off (size_of T) (align_of T)
  then Ret (tt, with_shm s
         (shm_of_bytes (splice (shm_bytes (shm s)) (Z.to_nat off) (to_bytes v))))
  else Ub.
End access.
Arguments bytes_at T {_} m off.

(** ** Lemmas *)

Lemma shm_bytes_length m :
  header_ok (hdr m) -> Z.of_nat (length (shm_bytes m)) = mapping_len m.
Proof.
  intros Hok. unfold shm_bytes, mapping_len, HEADER_SIZE.
  rewrite length_app, header_bytes_length by done. lia.
Qed.

(** The mapping and its bytes determine each other. *)
Lemma shm_of_shm_bytes m : header_ok (hdr m) -> shm_of_bytes (shm_bytes m) = m.
Proof.
  intros Hok. unfold shm_of_bytes, shm_bytes. destruct m as [h d]; simpl in *.
  rewrite header_of_header_bytes by done. f_equal.
  apply drop_app_length'. by rewrite header_bytes_length.
Qed.

Lemma shm_bytes_of_bytes bs :
  (256 <= length bs)%nat -> shm_bytes (shm_of_bytes bs) = bs.
Proof.
  intros Hl. unfold shm_bytes, shm_of_bytes; simpl.
  rewrite header_bytes_of_bytes by done. apply take_drop.
Qed.

Lemma splice_length l off bs :
  (off + length bs <= length l)%nat -> length (splice l off bs) = length l.
Proof.
  intros H. unfold splice. rewrite !length_app, length_take, length_drop. lia.
Qed.

Lemma splice_at l off bs n :
  (off <= length l)%nat -> length bs = n -> take n (drop off (splice l off bs)) = bs.
Proof.
  intros H <-. unfold splice. rewrite drop_app_length' by (rewrite length_take; lia).
  by apply take_app_length.
Qed.

Lemma splice_before l off bs o n :
  (o + n <= off)%nat -> (off <= length l)%nat ->
  take n (drop o (splice l off bs)) = take n (drop o l).
Proof.
  intros H1 H2. unfold splice. rewrite drop_app_le by (rewrite length_take; lia).
  rewrite take_app_le by (rewrite length_drop, length_take; lia).
  rewrite !take_drop_commute, take_take. by replace ((o + n) `min` off)%nat with (o + n)%nat by lia.
Qed.

Lemma splice_after l off bs o n :
  (off + length bs <= o)%nat -> (off <= length l)%nat ->
  take n (drop o (splice l off bs)) = take n (drop o l).
Proof.
  intros H1 H2. unfold splice. f_equal.
  rewrite drop_app_ge by (rewrite length_take; lia).
  rewrite drop_app_ge by (rewrite length_take; lia).
  rewrite drop_drop. f_equal. rewrite length_take. lia.
Qed.

(** A write behind the header leaves the header alone. *)
Lemma splice_app_data m off bs :
  header_ok (hdr m) -> (256 <= off)%nat ->
  shm_of_bytes (splice (shm_bytes m) off bs) =
    mkShm (hdr m) (splice (data m) (off - 256) bs).
Proof.
  intros Hok Ho. assert (Hl : length (header_bytes (hdr m)) = 256%nat)
    by by apply header_bytes_length.
  assert (E : splice (shm_bytes m) off bs = header_bytes (hdr m) ++ splice (data m) (off - 256) bs).
  { unfold splice, shm_bytes. rewrite take_app_ge by lia. rewrite drop_app_ge by lia.
    rewrite Hl, <- app_assoc. do 4 f_equal. lia. }
  rewrite E. exact (shm_of_shm_bytes (mkShm (hdr m) _) Hok).
Qed.

Lemma wp_byte_add off Q s : off <= mapping_len (shm s) -> Q off s -> wp (byte_add off) Q s.
Proof. unfold byte_add, wp. intros H. by destruct (Z.leb_spec off (mapping_len (shm s))); [|lia]. Qed.

Lemma accessible_true m off size align :
  0 <= off -> off + size <= mapping_len m -> off mod align = 0 ->
  accessible m off size align = true.
Proof.
  intros. unfold accessible. apply andb_true_intro; split; [apply andb_true_intro; split|].
  - by apply Z.leb_le.
  - by apply Z.leb_le.
  - by apply Z.eqb_eq.
Qed.
