(* ===== verification/Ring.v ===== *)
(** Ring: the operations of a mapped ring, [impl SpmcRingBuffer<T>] of
    [src/src/ring.rs] from [slot_ptr] to [check_reader].

    Each method is one definition in the state monad over [St], its atomic
    accesses in the order of the source.  Arithmetic that the source writes
    with the checked operators is checked here; masked and [wrapping_*]
    arithmetic wraps. *)

From S2P Require Import Prelude.
From S2P Require Import Error.
From S2P Require Import Header.
From S2P Require Import Pod.
From S2P Require Import Shm.
Set Default Goal Selector "!".

Definition DATA_OFFSET : Z := HEADER_SIZE.

Section ring.
  Context `{Profile} {T : Type} `{Pod T}.

(** [hdr()]: the header through the base pointer. *)
Definition hdr_ : M St RingHeader := fun s => Ret (hdr (shm s), s).
Definition put_hdr (h : RingHeader) : M St unit := fun s => Ret (tt, with_hdr s h).

Definition slot_ptr (idx : Z) : M St Z :=
  let! s := get in
  let! mask := sub64 (r_capacity (ring s)) 1 in
  let slot := Z.land idx mask in
  let! o := mul64 slot (size_of T) in
  let! offset := add64 DATA_OFFSET o in
  byte_add offset.

Definition try_push (value : T) : M St bool :=
  let! hdr := hdr_ in
  let w := write_idx hdr Relaxed in
  let num_readers := num_readers hdr Acquire in
  let! min_read := lift (slowest_read_idx hdr num_readers Acquire) in
  let! lag := sub64 w min_read in
  let! s := get in
  if r_capacity (ring s) <=? lag then ret false else
  let! slot := slot_ptr w in
  write_volatile slot value ;!
  let! w1 := add64 w 1 in
  let! hdr := hdr_ in
  put_hdr (set_write_idx hdr w1 Release) ;!
  let! hdr := hdr_ in
  put_hdr (bump_total_written hdr Relaxed) ;!
  ret true.

Definition check_reader (reader_id : Z) : M St (result ShmRingError unit) :=
  let! hdr := hdr_ in
  let num_readers := num_readers hdr Acquire in
  if num_readers <=? reader_id then
    let! max := sub64 num_readers 1 in
    ret (Err (InvalidReaderId reader_id max))
  else ret (Ok tt).

Definition try_pop (reader_id : Z) : M St (result ShmRingError (option T)) :=
  let? _ := check_reader reader_id in
  let! s := get in
  let! depth := lift (index (loan_depth (ring s)) reader_id) in
  if negb (depth =? 0) then ret (Err (LoanOutstanding reader_id)) else
  let! hdr := hdr_ in
  let w := write_idx hdr Acquire in
  let! r := lift (read_idx hdr reader_id Acquire) in
  if r =? w then ret (Ok None) else
  let! slot := slot_ptr r in
  let! value := read_volatile slot in
  let! r1 := add64 r 1 in
  let! hdr := lift (set_read_idx hdr reader_id r1 Release) in
  put_hdr hdr ;!
  ret (Ok (Some value)).

(** [peek] hands out the slot's address. *)
Definition peek (reader_id : Z) : M St (result ShmRingError (option Z)) :=
  let? _ := check_reader reader_id in
  let! hdr := hdr_ in
  let w := write_idx hdr Acquire in
  let! r := lift (read_idx hdr reader_id Acquire) in
  if r =? w then ret (Ok None) else
  let! p := slot_ptr r in
  ret (Ok (Some p)).

Definition reader_count : M St Z :=
  let! hdr := hdr_ in ret (num_readers hdr Relaxed).

Definition len (reader_id : Z) : M St (result ShmRingError Z) :=
  let? _ := check_reader reader_id in
  let! hdr := hdr_ in
  let w := write_idx hdr Acquire in
  let! r := lift (read_idx hdr reader_id Acquire) in
  ret (Ok (wrap64 (w - r))).

Definition is_empty (reader_id : Z) : M St (result ShmRingError bool) :=
  let? n := len reader_id in ret (Ok (n =? 0)).

Definition total_written_ : M St Z :=
  let! hdr := hdr_ in ret (total_written hdr Acquire).

Definition slowest_lag : M St Z :=
  let! hdr := hdr_ in
  let num_readers := num_readers hdr Acquire in
  let! min_read := lift (slowest_read_idx hdr num_readers Acquire) in
  ret (wrap64 (write_idx hdr Acquire - min_read)).

Definition capacity : M St Z := let! s := get in ret (r_capacity (ring s)).
Definition path : M St string := let! s := get in ret (r_path (ring s)).

(** ** The layout invariant

    What the constructors establish and no operation, nor any other process
    writing to the header, can break: the handle's cached capacity is a power
    of two and the slots it spans lie inside the mapping. *)

Record layout_ok (s : St) : Prop := mkLayoutOk {
  lo_hdr : header_ok (hdr (shm s));
  lo_capacity : exists k, 0 <= k /\ r_capacity (ring s) = 2 ^ k;
  lo_size : 0 < size_of T;
  lo_align : align_of T <= 64;
  lo_fits : HEADER_SIZE + r_capacity (ring s) * size_of T <= mapping_len (shm s);
  lo_len : mapping_len (shm s) < 2 ^ 64;
  lo_claim_base : Forall u64 (claim_base (ring s)) /\ length (claim_base (ring s)) = 8%nat;
  lo_loan_depth : Forall u64 (loan_depth (ring s)) /\ length (loan_depth (ring s)) = 8%nat;
}.

(** The offset of slot [idx] in the mapping. *)
Definition slot_off (s : St) (idx : Z) : Z :=
  DATA_OFFSET + idx mod r_capacity (ring s) * size_of T.

(** The record the slot of index [idx] holds. *)
Definition slot_value (s : St) (idx : Z) : T :=
  from_bytes (bytes_at T (shm s) (slot_off s idx)).

End ring.
Arguments layout_ok T {_} s.
Arguments slot_off T {_} s idx.
Arguments slot_ptr {_} T {_} idx.
Arguments peek {_} T {_} reader_id.

(** ** Addresses and slots *)

Section slots.
Context `{Profile} {T : Type} `{Pod T} `{!PodLaws T}.
Implicit Types (s : St) (v : T).

Lemma capacity_pos s : layout_ok T s -> 0 < r_capacity (ring s).
Proof. intros Hs. destruct (lo_capacity s Hs) as (k & Hk & ->). by apply Z.pow_pos_nonneg. Qed.

(** Every slot address, whatever the index, is inside the mapping, behind
    the header and aligned for [T]. *)
Lemma slot_off_bounds s idx :
  layout_ok T s ->
  DATA_OFFSET <= slot_off T s idx /\
  slot_off T s idx + size_of T <= mapping_len (shm s) /\
  slot_off T s idx mod align_of T = 0.
Proof.
  intros Hs. pose proof (capacity_pos s Hs). pose proof (lo_size s Hs).
  pose proof (lo_fits s Hs) as Hfit.
  pose proof (Z.mod_pos_bound idx (r_capacity (ring s)) ltac:(done)) as Hm.
  unfold slot_off. set (m := idx mod r_capacity (ring s)) in *.
  split; [|split].
  - nia.
  - unfold DATA_OFFSET. assert ((m + 1) * size_of T <= r_capacity (ring s) * size_of T) by nia. lia.
  - pose proof align_of_pos (T := T) as Ha.
    pose proof (align_of_64 (T := T) (lo_align s Hs)) as H64.
    apply Z.mod_divide in H64; [|lia].
    pose proof (size_of_align (T := T)) as Hsz. apply Z.mod_divide in Hsz; [|lia].
    apply Z.mod_divide; [lia|]. apply Z.divide_add_r.
    + unfold DATA_OFFSET, HEADER_SIZE. change 256 with (4 * 64). by apply Z.divide_mul_r.
    + by apply Z.divide_mul_r.
Qed.

Lemma slot_accessible s idx :
  layout_ok T s -> accessible (shm s) (slot_off T s idx) (size_of T) (align_of T) = true.
Proof.
  intros Hs. pose proof (slot_off_bounds s idx Hs) as (H1 & H2 & H3).
  unfold DATA_OFFSET, HEADER_SIZE in H1. apply accessible_true; [lia|done|done].
Qed.

Lemma slot_ptr_run s idx : layout_ok T s -> slot_ptr T idx s = Ret (slot_off T s idx, s).
Proof.
  intros Hs. destruct (slot_off_bounds s idx Hs) as (H1 & H2 & _).
  pose proof (capacity_pos s Hs). pose proof (lo_size s Hs). pose proof (lo_len s Hs).
  pose proof (lo_fits s Hs). unfold DATA_OFFSET, HEADER_SIZE in *.
  destruct (lo_capacity s Hs) as (k & Hk & Ek).
  enough (W : wp (slot_ptr T idx) (fun a s' => a = slot_off T s idx /\ s' = s) s).
  { apply wp_run in W as (a & s' & E & -> & ->). exact E. }
  unfold slot_ptr. wp_steps. apply wp_arith; [unfold u64; nia|]. wp_steps.
  rewrite Ek, land_mask, <- Ek by done.
  pose proof (Z.mod_pos_bound idx (r_capacity (ring s)) ltac:(done)).
  unfold slot_off in *. apply wp_arith; [unfold u64; nia|]. wp_steps.
  apply wp_arith; [unfold u64, DATA_OFFSET, HEADER_SIZE; nia|].
  apply wp_byte_add; [nia|]. done.
Qed.

(** Two slots of different residues occupy disjoint bytes. *)
Lemma slot_off_disjoint s i j :
  layout_ok T s -> i mod r_capacity (ring s) <> j mod r_capacity (ring s) ->
  slot_off T s i + size_of T <= slot_off T s j \/ slot_off T s j + size_of T <= slot_off T s i.
Proof.
  intros Hs Hne. pose proof (lo_size s Hs). unfold slot_off.
  destruct (Z.lt_trichotomy (i mod r_capacity (ring s)) (j mod r_capacity (ring s)))
    as [?|[?|?]]; [left; nia|done|right; nia].
Qed.

(** The state after the bytes of slot [idx] became [bs], and after record [v]
    was stored there. *)
Definition slot_put s idx (bs : list byte) : St :=
  with_shm s (mkShm (hdr (shm s)) (splice (data (shm s)) (Z.to_nat (slot_off T s idx) - 256) bs)).
Definition slot_set s idx v : St := slot_put s idx (to_bytes v).

Lemma write_volatile_run s idx v :
  layout_ok T s -> write_volatile (slot_off T s idx) v s = Ret (tt, slot_set s idx v).
Proof.
  intros Hs. unfold write_volatile. rewrite slot_accessible by done.
  destruct (slot_off_bounds s idx Hs) as (H1 & _). unfold DATA_OFFSET, HEADER_SIZE in H1.
  rewrite splice_app_data; [done|apply Hs|lia].
Qed.

Lemma read_volatile_run s idx :
  layout_ok T s -> read_volatile (slot_off T s idx) s = Ret (slot_value s idx, s).
Proof. intros Hs. unfold read_volatile. by rewrite slot_accessible. Qed.

Lemma to_bytes_size v : Z.of_nat (length (to_bytes v)) = size_of T.
Proof. pose proof (size_of_range (T := T)). rewrite to_bytes_length. lia. Qed.

Lemma slot_put_bytes s idx bs :
  layout_ok T s -> Z.of_nat (length bs) = size_of T ->
  shm_bytes (shm (slot_put s idx bs)) = splice (shm_bytes (shm s)) (Z.to_nat (slot_off T s idx)) bs.
Proof.
  intros Hs Hbs. destruct (slot_off_bounds s idx Hs) as (H1 & H2 & _).
  unfold DATA_OFFSET, HEADER_SIZE in H1. pose proof (shm_bytes_length _ (lo_hdr s Hs)) as Hl.
  unfold slot_put; cbn [with_shm shm]. rewrite <- splice_app_data by (first [apply Hs|lia]).
  apply shm_bytes_of_bytes. rewrite splice_length; lia.
Qed.

Lemma slot_put_len s idx bs :
  layout_ok T s -> Z.of_nat (length bs) = size_of T ->
  mapping_len (shm (slot_put s idx bs)) = mapping_len (shm s).
Proof.
  intros Hs Hbs. destruct (slot_off_bounds s idx Hs) as (H1 & H2 & _).
  unfold DATA_OFFSET, HEADER_SIZE, mapping_len in *. cbn [slot_put with_shm shm data].
  do 2 f_equal. unfold HEADER_SIZE in *. rewrite splice_length; lia.
Qed.

Lemma slot_put_layout s idx bs :
  layout_ok T s -> Z.of_nat (length bs) = size_of T -> layout_ok T (slot_put s idx bs).
Proof. intros Hs Hbs. pose proof (slot_put_len s idx bs Hs Hbs) as E. destruct Hs. split; rewrite ?E; done. Qed.

Lemma slot_value_put_ne s i j bs :
  layout_ok T s -> Z.of_nat (length bs) = size_of T ->
  j mod r_capacity (ring s) <> i mod r_capacity (ring s) ->
  slot_value (slot_put s i bs) j = slot_value s j.
Proof.
  intros Hs Hbs Hm. destruct (slot_off_bounds s i Hs) as (Hi & Hi' & _).
  destruct (slot_off_bounds s j Hs) as (Hj & _ & _). unfold DATA_OFFSET, HEADER_SIZE in *.
  unfold slot_value, bytes_at. rewrite slot_put_bytes by done.
  change (slot_off T (slot_put s i bs) j) with (slot_off T s j).
  pose proof (shm_bytes_length _ (lo_hdr s Hs)). f_equal.
  destruct (slot_off_disjoint s i j Hs ltac:(congruence)); [apply splice_after|apply splice_before]; lia.
Qed.

Lemma slot_value_put_eq s i j bs :
  layout_ok T s -> Z.of_nat (length bs) = size_of T ->
  j mod r_capacity (ring s) = i mod r_capacity (ring s) -> slot_value (slot_put s i bs) j = from_bytes bs.
Proof.
  intros Hs Hbs Hm. destruct (slot_off_bounds s i Hs) as (H1 & H2 & _).
  unfold slot_value, bytes_at. rewrite slot_put_bytes by done.
  unfold slot_off at 1. cbn [slot_put with_shm ring]. rewrite Hm. fold (slot_off T s i).
  pose proof (shm_bytes_length _ (lo_hdr s Hs)). rewrite splice_at; [done|lia|lia].
Qed.

Lemma slot_set_len s idx v :
  layout_ok T s -> mapping_len (shm (slot_set s idx v)) = mapping_len (shm s).
Proof. intros Hs. apply slot_put_len; [done|apply to_bytes_size]. Qed.

Lemma slot_set_layout s idx v : layout_ok T s -> layout_ok T (slot_set s idx v).
Proof. intros Hs. apply slot_put_layout; [done|apply to_bytes_size]. Qed.

Lemma slot_value_set_eq s i j v :
  layout_ok T s -> pod_ok v ->
  j mod r_capacity (ring s) = i mod r_capacity (ring s) -> slot_value (slot_set s i v) j = v.
Proof.
  intros Hs Hv Hm. unfold slot_set. rewrite slot_value_put_eq by (first [done|apply to_bytes_size]).
  by apply from_to_bytes.
Qed.

Lemma slot_value_set_ne s i j v :
  layout_ok T s -> j mod r_capacity (ring s) <> i mod r_capacity (ring s) ->
  slot_value (slot_set s i v) j = slot_value s j.
Proof. intros Hs. apply slot_value_put_ne; [done|apply to_bytes_size]. Qed.

(** Header updates do not move or change the slots. *)
Lemma slot_value_hdr s h idx :
  layout_ok T s -> header_ok h -> slot_value (with_hdr s h) idx = slot_value s idx.
Proof.
  intros Hs Hh. destruct (slot_off_bounds s idx Hs) as (H1 & _ & _).
  unfold DATA_OFFSET, HEADER_SIZE in H1.
  unfold slot_value, bytes_at, shm_bytes, with_hdr; cbn [shm hdr data].
  change (slot_off T (mkSt _ (ring s)) idx) with (slot_off T s idx).
  do 2 f_equal. rewrite !drop_app_ge; rewrite ?header_bytes_length; try done; try lia; apply Hs.
Qed.

Lemma layout_ok_hdr s h : layout_ok T s -> header_ok h -> layout_ok T (with_hdr s h).
Proof. intros [] Hh. by split. Qed.
End slots.

(** ** Memory safety *)

Section safety.
Context `{Profile} {T : Type} `{Pod T} `{!PodLaws T}.
Implicit Types (s : St) (v : T).

Lemma no_ub_slot_ptr idx (Q : Z -> St -> Prop) s :
  layout_ok T s -> Q (slot_off T s idx) s -> no_ub (slot_ptr T idx) Q s.
Proof. intros Hs HQ. unfold no_ub. by rewrite slot_ptr_run. Qed.

Lemma no_ub_write_volatile idx v (Q : unit -> St -> Prop) s :
  layout_ok T s -> Q tt (slot_set s idx v) -> no_ub (write_volatile (slot_off T s idx) v) Q s.
Proof. intros Hs HQ. unfold no_ub. by rewrite write_volatile_run. Qed.

Lemma no_ub_read_volatile idx (Q : T -> St -> Prop) s :
  layout_ok T s -> Q (slot_value s idx) s -> no_ub (read_volatile (slot_off T s idx)) Q s.
Proof. intros Hs HQ. unfold no_ub. by rewrite read_volatile_run. Qed.

Lemma no_ub_check_reader i (Q : result ShmRingError unit -> St -> Prop) s :
  (i < h_num_readers (hdr (shm s)) -> Q (Ok tt) s) -> (forall e, Q (Err e) s) ->
  no_ub (check_reader i) Q s.
Proof.
  intros H1 H2. unfold check_reader. wp_steps. unfold no_ub at 1, hdr_.
  destruct (Z.leb_spec (num_readers (hdr (shm s)) Acquire) i); [|by apply H1].
  wp_steps. apply no_ub_arith; intros; apply H2.
Qed.

Lemma arith_result z (Q : Z -> St -> Prop) s :
  (forall z', u64 z' -> Q z' s) -> no_ub (arith z) Q s.
Proof. intros HQ. apply no_ub_arith; [apply HQ|apply HQ, wrap64_range]. Qed.

Lemma no_ub_try_push s v :
  layout_ok T s -> no_ub (try_push v) (fun _ s' => layout_ok T s' /\ ring s' = ring s) s.
Proof.
  intros Hs. unfold try_push. wp_steps. unfold no_ub at 1, hdr_.
  wp_steps. apply no_ub_lift; [apply slowest_read_idx_not_ub|intros m _].
  wp_steps. apply arith_result. intros lag _. wp_steps.
  destruct (_ <=? _); [by apply no_ub_ret|]. wp_steps. apply no_ub_slot_ptr; [done|].
  wp_steps. apply no_ub_write_volatile; [done|].
  wp_steps. apply arith_result. intros w1 Hw1. wp_steps.
  unfold no_ub, hdr_, put_hdr. wp_steps. split; [|done].
  pose proof (slot_set_layout s (write_idx (hdr (shm s)) Relaxed) v Hs) as Hs'.
  apply layout_ok_hdr; [apply layout_ok_hdr; [done|]|].
  all: repeat first [apply bump_total_written_ok|apply set_write_idx_ok|apply lo_hdr|done].
Qed.

Ltac read_hdr := unfold no_ub at 1, hdr_; wp_steps.

Lemma no_ub_try_pop s i :
  layout_ok T s -> no_ub (try_pop i) (fun _ s' => layout_ok T s' /\ ring s' = ring s) s.
Proof.
  intros Hs. unfold try_pop. wp_steps. apply no_ub_check_reader; [intros _|done].
  wp_steps. apply no_ub_lift; [apply index_not_ub|intros d _]. wp_steps.
  destruct (negb _); [by apply no_ub_ret|]. wp_steps. read_hdr.
  apply no_ub_lift; [apply index_not_ub|intros r _]. wp_steps.
  destruct (r =? _); [by apply no_ub_ret|]. wp_steps. apply no_ub_slot_ptr; [done|].
  wp_steps. apply no_ub_read_volatile; [done|]. wp_steps.
  apply arith_result. intros r1 Hr1. wp_steps.
  apply no_ub_lift; [apply set_read_idx_not_ub|intros h Hh]. wp_steps.
  unfold no_ub, put_hdr. split; [|done]. apply layout_ok_hdr; [done|].
  by apply set_read_idx_ok in Hh; [|apply Hs|].
Qed.

Lemma no_ub_peek s i : layout_ok T s -> no_ub (peek T i) (fun _ s' => s' = s) s.
Proof.
  intros Hs. unfold peek. wp_steps. apply no_ub_check_reader; [intros _|done].
  wp_steps. read_hdr. apply no_ub_lift; [apply index_not_ub|intros r _]. wp_steps.
  destruct (r =? _); [by apply no_ub_ret|]. wp_steps. by apply no_ub_slot_ptr.
Qed.

Lemma no_ub_len s i : no_ub (len i) (fun _ s' => s' = s) s.
Proof.
  unfold len. wp_steps. apply no_ub_check_reader; [intros _|done].
  wp_steps. read_hdr. by apply no_ub_lift; [apply index_not_ub|].
Qed.

Lemma no_ub_is_empty s i : no_ub (is_empty i) (fun _ s' => s' = s) s.
Proof.
  unfold is_empty. wp_steps. eapply no_ub_mono; [apply no_ub_len|].
  intros [n|e] s' ->; done.
Qed.

Lemma no_ub_slowest_lag s : no_ub slowest_lag (fun _ s' => s' = s) s.
Proof.
  unfold slowest_lag. wp_steps. read_hdr.
  by apply no_ub_lift; [apply slowest_read_idx_not_ub|].
Qed.

(** No header a peer process writes can make an operation of a mapped ring
    reach outside the mapping: with the layout fixed at open, and any
    header words whatever put in the shared page beforehand, each operation
    either returns or panics, keeps the layout, and a pop or push never
    touches the handle's own fields. *)
Theorem hostile_header_memory_safe s h v i :
  layout_ok T s -> header_ok h ->
  let s0 := with_hdr s h in
  no_ub (try_push v) (fun _ s' => layout_ok T s' /\ ring s' = ring s) s0 /\
  no_ub (try_pop (T := T) i) (fun _ s' => layout_ok T s' /\ ring s' = ring s) s0 /\
  no_ub (peek T i) (fun _ s' => s' = s0) s0 /\
  no_ub (len i) (fun _ s' => s' = s0) s0 /\
  no_ub (is_empty i) (fun _ s' => s' = s0) s0 /\
  no_ub slowest_lag (fun _ s' => s' = s0) s0.
Proof.
  intros Hs Hh s0. pose proof (layout_ok_hdr s h Hs Hh) as Hs0.
  split; [exact (no_ub_try_push s0 v Hs0)|split; [exact (no_ub_try_pop s0 i Hs0)|]].
  split; [by apply no_ub_peek|].
  auto using no_ub_len, no_ub_is_empty, no_ub_slowest_lag.
Qed.
End safety.

(** ** Functional behaviour *)

Section functional.
Context `{Profile} {T : Type} `{Pod T} `{!PodLaws T}.
Implicit Types (s : St) (v : T).

(** The cursors of the participating readers, and the slowest of them. *)
Definition participants s : list Z :=
  take (Z.to_nat (h_num_readers (hdr (shm s)))) (h_read_indices (hdr (shm s))).
Definition slowest s : Z := foldl Z.min u64_MAX (participants s).

(** The protocol invariant: between one and eight participants, none ahead
    of the producer, none more than [capacity] behind it. *)
Record proto_ok s : Prop := mkProtoOk {
  po_readers : 1 <= h_num_readers (hdr (shm s)) <= MAX_READERS;
  po_window c : c ∈ participants s ->
    h_write_idx (hdr (shm s)) - r_capacity (ring s) <= c <= h_write_idx (hdr (shm s));
}.

Lemma participants_lookup s i :
  header_ok (hdr (shm s)) -> 1 <= h_num_readers (hdr (shm s)) <= MAX_READERS ->
  0 <= i < h_num_readers (hdr (shm s)) ->
  exists c, h_read_indices (hdr (shm s)) !! Z.to_nat i = Some c /\ c ∈ participants s /\ u64 c.
Proof.
  intros Hok Hn Hi. unfold MAX_READERS in Hn. pose proof (ok_read_indices_len _ Hok).
  destruct (lookup_lt_is_Some_2 (h_read_indices (hdr (shm s))) (Z.to_nat i)) as [c Hc]; [lia|].
  exists c. split; [done|split].
  - apply elem_of_take_lookup. exists (Z.to_nat i). split; [lia|done].
  - eapply Forall_lookup_1; [apply Hok|done].
Qed.

Lemma slowest_in s :
  header_ok (hdr (shm s)) -> 1 <= h_num_readers (hdr (shm s)) <= MAX_READERS ->
  slowest s ∈ participants s.
Proof.
  intros Hok Hn. destruct (participants_lookup s 0 Hok Hn) as (c & _ & Hc & Hu); [lia|].
  unfold slowest. destruct (fold_min_in (participants s) u64_MAX) as [E|E]; [|done].
  pose proof (fold_min_le _ u64_MAX c Hc). unfold u64, u64_MAX in *.
  replace (foldl Z.min (2 ^ 64 - 1) (participants s)) with c by lia. done.
Qed.

Lemma slowest_le s c : c ∈ participants s -> slowest s <= c.
Proof. apply fold_min_le. Qed.

Lemma slowest_window s :
  header_ok (hdr (shm s)) -> proto_ok s ->
  0 <= h_write_idx (hdr (shm s)) - slowest s <= r_capacity (ring s).
Proof.
  intros Hok [Hn Hw]. specialize (Hw _ (slowest_in s Hok Hn)). lia.
Qed.

Lemma slowest_read_idx_run s ord :
  header_ok (hdr (shm s)) -> h_num_readers (hdr (shm s)) <= MAX_READERS ->
  slowest_read_idx (hdr (shm s)) (num_readers (hdr (shm s)) ord) ord = Ret (slowest s).
Proof.
  intros Hok Hn. unfold MAX_READERS in Hn. unfold slowest_read_idx, num_readers.
  rewrite (ok_read_indices_len _ Hok).
  by destruct (Z.leb_spec (h_num_readers (hdr (shm s))) (Z.of_nat 8)); [|lia].
Qed.

(** The state after a successful push: the record in its slot, [write_idx]
    and [total_written] one up. *)
Definition pushed s v : St :=
  with_hdr (slot_set s (h_write_idx (hdr (shm s))) v)
    (bump_total_written (set_write_idx (hdr (shm s)) (h_write_idx (hdr (shm s)) + 1) Release)
       Relaxed).

Lemma try_push_run s v :
  layout_ok T s -> proto_ok s -> u64 (h_write_idx (hdr (shm s)) + 1) ->
  try_push v s =
    if r_capacity (ring s) <=? h_write_idx (hdr (shm s)) - slowest s
    then Ret (false, s) else Ret (true, pushed s v).
Proof.
  intros Hs Hp Hw. pose proof (lo_hdr s Hs) as Hok. pose proof (slowest_window s Hok Hp) as Hwin.
  pose proof (capacity_pos s Hs). unfold u64 in Hw.
  pose proof (lo_fits s Hs). pose proof (lo_len s Hs). pose proof (lo_size s Hs).
  unfold HEADER_SIZE in *. unfold try_push.
  erewrite bind_run by reflexivity. cbn beta zeta.
  erewrite bind_run by (apply lift_run, slowest_read_idx_run; [done|apply Hp]).
  erewrite bind_run by (apply arith_run; unfold u64, write_idx; nia).
  erewrite bind_run by reflexivity. unfold write_idx at 1. destruct (_ <=? _); [done|].
  erewrite bind_run by (by apply slot_ptr_run).
  erewrite bind_run by (by apply write_volatile_run).
  by erewrite bind_run by (by apply arith_run).
Qed.

Lemma check_reader_run s i :
  1 <= h_num_readers (hdr (shm s)) <= MAX_READERS ->
  check_reader i s =
    Ret (if h_num_readers (hdr (shm s)) <=? i
         then Err (InvalidReaderId i (h_num_readers (hdr (shm s)) - 1)) else Ok tt, s).
Proof.
  intros Hn. unfold MAX_READERS in Hn. unfold check_reader.
  erewrite bind_run by reflexivity. cbn zeta. unfold num_readers.
  destruct (_ <=? _); [|done].
  by erewrite bind_run by (apply arith_run; unfold u64; lia).
Qed.

(** The state after reader [i] consumed the record at its cursor [c]. *)
Definition advanced s (i c : Z) : St :=
  with_hdr s (with_read_indices (hdr (shm s))
    (<[Z.to_nat i := c + 1]> (h_read_indices (hdr (shm s))))).

Lemma set_read_idx_run s i (v : Z) ord :
  header_ok (hdr (shm s)) -> 0 <= i < MAX_READERS ->
  set_read_idx (hdr (shm s)) i v ord =
    Ret (with_read_indices (hdr (shm s)) (<[Z.to_nat i := v]> (h_read_indices (hdr (shm s))))).
Proof.
  intros Hok Hi. unfold MAX_READERS in Hi. unfold set_read_idx.
  rewrite index_set_ret; [done|]. rewrite (ok_read_indices_len _ Hok). lia.
Qed.

Lemma try_pop_run s i c d :
  layout_ok T s -> proto_ok s -> u64 (c + 1) ->
  0 <= i < h_num_readers (hdr (shm s)) ->
  h_read_indices (hdr (shm s)) !! Z.to_nat i = Some c ->
  loan_depth (ring s) !! Z.to_nat i = Some d ->
  try_pop i s =
    if negb (d =? 0) then Ret (Err (LoanOutstanding i), s)
    else if c =? h_write_idx (hdr (shm s)) then Ret (Ok None, s)
    else Ret (Ok (Some (slot_value s c)), advanced s i c).
Proof.
  intros Hs Hp Hc Hi Hcur Hd. pose proof (po_readers s Hp) as Hn. unfold try_pop.
  erewrite bind_ok_run.
  2: { rewrite check_reader_run by done.
       by destruct (Z.leb_spec (h_num_readers (hdr (shm s))) i); [lia|]. }
  erewrite bind_run by reflexivity.
  erewrite bind_run by (apply lift_run, index_ret; split; [lia|done]).
  destruct (negb _); [done|]. erewrite bind_run by reflexivity. cbn zeta.
  erewrite bind_run by (apply lift_run, index_ret; split; [lia|done]).
  unfold write_idx. destruct (c =? _); [done|].
  erewrite bind_run by (by apply slot_ptr_run).
  erewrite bind_run by (by apply read_volatile_run).
  erewrite bind_run by (by apply arith_run).
  by erewrite bind_run by (apply lift_run, set_read_idx_run; [apply Hs|lia]).
Qed.

Lemma try_pop_bad_reader s i :
  1 <= h_num_readers (hdr (shm s)) <= MAX_READERS -> h_num_readers (hdr (shm s)) <= i ->
  try_pop i s = Ret (Err (InvalidReaderId i (h_num_readers (hdr (shm s)) - 1)) :
    result ShmRingError (option T), s).
Proof.
  intros Hn Hi. unfold try_pop. eapply bind_err_run. rewrite check_reader_run by done.
  by destruct (Z.leb_spec (h_num_readers (hdr (shm s))) i); [|lia].
Qed.

Lemma peek_run s i c :
  layout_ok T s -> proto_ok s -> 0 <= i < h_num_readers (hdr (shm s)) ->
  h_read_indices (hdr (shm s)) !! Z.to_nat i = Some c ->
  peek T i s =
    Ret (Ok (if c =? h_write_idx (hdr (shm s)) then None else Some (slot_off T s c)), s).
Proof.
  intros Hs Hp Hi Hcur. unfold peek. erewrite bind_ok_run.
  2: { rewrite check_reader_run by apply Hp.
       by destruct (Z.leb_spec (h_num_readers (hdr (shm s))) i); [lia|]. }
  erewrite bind_run by reflexivity. cbn zeta.
  erewrite bind_run by (apply lift_run, index_ret; split; [lia|done]).
  unfold write_idx. destruct (c =? _); [done|].
  by erewrite bind_run by (by apply slot_ptr_run).
Qed.

Lemma len_run s i c :
  layout_ok T s -> proto_ok s -> 0 <= i < h_num_readers (hdr (shm s)) ->
  h_read_indices (hdr (shm s)) !! Z.to_nat i = Some c ->
  len i s = Ret (Ok (h_write_idx (hdr (shm s)) - c), s).
Proof.
  intros Hs Hp Hi Hcur.
  assert (Hw : u64 (h_write_idx (hdr (shm s)) - c)).
  { destruct (participants_lookup s i (lo_hdr s Hs) (po_readers s Hp) Hi) as (c' & Hc' & Hin & Hu).
    simplify_eq. pose proof (po_window s Hp _ Hin).
    pose proof (ok_write_idx _ (lo_hdr s Hs)). unfold u64 in *. lia. }
  unfold len. erewrite bind_ok_run.
  2: { rewrite check_reader_run by apply Hp.
       by destruct (Z.leb_spec (h_num_readers (hdr (shm s))) i); [lia|]. }
  erewrite bind_run by reflexivity. cbn zeta.
  erewrite bind_run by (apply lift_run, index_ret; split; [lia|done]).
  unfold write_idx, ret. by rewrite wrap64_small.
Qed.

Lemma slowest_lag_run s :
  layout_ok T s -> proto_ok s ->
  slowest_lag s = Ret (h_write_idx (hdr (shm s)) - slowest s, s).
Proof.
  intros Hs Hp. pose proof (slowest_window s (lo_hdr s Hs) Hp).
  pose proof (ok_write_idx _ (lo_hdr s Hs)). pose proof (slowest_in s (lo_hdr s Hs) (po_readers s Hp)).
  assert (0 <= slowest s).
  { apply fold_min_glb; [unfold u64_MAX; lia|]. intros x Hx.
    apply elem_of_take_lookup in Hx as (j & _ & Hj).
    pose proof (Forall_lookup_1 _ _ _ _ (ok_read_indices _ (lo_hdr s Hs)) Hj) as Hu. apply Hu. }
  unfold slowest_lag. erewrite bind_run by reflexivity. cbn zeta.
  erewrite bind_run by (apply lift_run, slowest_read_idx_run; [apply Hs|apply Hp]).
  unfold write_idx, ret, u64 in *. rewrite wrap64_small; [done|unfold u64; lia].
Qed.
End functional.
