(* ===== verification/Spec.v ===== *)
(** Spec: the broadcast log the ring promises, and the refinement.

    Abstractly a ring is the list of every record ever accepted ([log]) with
    one cursor per reader into it: a push appends unless the slowest
    participant is a full capacity behind, a pop returns the record under the
    reader's own cursor and moves only that cursor.  [rep] relates a mapped
    ring to such a log; [exec] runs the operations of [Ring], [spec_exec] the
    abstract ones, and the refinement theorems say that any sequence of
    operations gives the same answers. *)

From S2P Require Import Prelude.
From S2P Require Import Error.
From S2P Require Import Header.
From S2P Require Import Pod.
From S2P Require Import Shm.
From S2P Require Import Ring.
Set Default Goal Selector "!".

(** ** The abstract machine *)

Record spec (T : Type) := mkSpec {
  log : list T;
  cursors : list Z;
  n_readers : Z;
  cap : Z;
  gates : list Z;
}.
Arguments mkSpec {T}.
Arguments log {T}.
Arguments cursors {T}.
Arguments n_readers {T}.
Arguments cap {T}.
Arguments gates {T}.

(** The operations of the public interface, and their answers. *)
Inductive op (T : Type) :=
  | OPush (v : T)
  | OPop (reader_id : Z)
  | OPeek (reader_id : Z)
  | OLen (reader_id : Z)
  | OIsEmpty (reader_id : Z)
  | OSlowestLag
  | OTotalWritten
  | OReaderCount
  | OCapacity.
Arguments OPush {T}.
Arguments OPop {T}.
Arguments OPeek {T}.
Arguments OLen {T}.
Arguments OIsEmpty {T}.
Arguments OSlowestLag {T}.
Arguments OTotalWritten {T}.
Arguments OReaderCount {T}.
Arguments OCapacity {T}.

Inductive resp (T : Type) :=
  | RPush (accepted : bool)
  | RRecord (r : result ShmRingError (option T))
  | RLen (r : result ShmRingError Z)
  | REmpty (r : result ShmRingError bool)
  | RNum (n : Z).
Arguments RPush {T}.
Arguments RRecord {T}.
Arguments RLen {T}.
Arguments REmpty {T}.
Arguments RNum {T}.

Section spec_machine.
Context {T : Type}.
Implicit Types sp : spec T.

Definition produced sp : Z := Z.of_nat (length (log sp)).
Definition spec_slowest sp : Z :=
  foldl Z.min u64_MAX (take (Z.to_nat (n_readers sp)) (cursors sp)).

Definition spec_check sp (i : Z) : result ShmRingError Z :=
  if n_readers sp <=? i then Err (InvalidReaderId i (n_readers sp - 1))
  else Ok (cursors sp !!! Z.to_nat i).

Definition spec_push (v : T) sp : bool * spec T :=
  if cap sp <=? produced sp - spec_slowest sp then (false, sp)
  else (true, mkSpec (log sp ++ [v]) (cursors sp) (n_readers sp) (cap sp) (gates sp)).

(** The record under a cursor: [None] when the reader has caught up. *)
Definition spec_peek (i : Z) sp : result ShmRingError (option T) :=
  match spec_check sp i with
  | Err e => Err e
  | Ok c => Ok (log sp !! Z.to_nat c)
  end.

Definition spec_pop (i : Z) sp : result ShmRingError (option T) * spec T :=
  match spec_check sp i with
  | Err e => (Err e, sp)
  | Ok c =>
      if negb (gates sp !!! Z.to_nat i =? 0) then (Err (LoanOutstanding i), sp) else
      match log sp !! Z.to_nat c with
      | None => (Ok None, sp)
      | Some v =>
          (Ok (Some v),
           mkSpec (log sp) (<[Z.to_nat i := c + 1]> (cursors sp)) (n_readers sp) (cap sp)
             (gates sp))
      end
  end.

Definition spec_len (i : Z) sp : result ShmRingError Z :=
  match spec_check sp i with Err e => Err e | Ok c => Ok (produced sp - c) end.

Definition spec_exec (o : op T) sp : resp T * spec T :=
  match o with
  | OPush v => let '(b, sp') := spec_push v sp in (RPush b, sp')
  | OPop i => let '(r, sp') := spec_pop i sp in (RRecord r, sp')
  | OPeek i => (RRecord (spec_peek i sp), sp)
  | OLen i => (RLen (spec_len i sp), sp)
  | OIsEmpty i =>
      (REmpty (match spec_len i sp with Err e => Err e | Ok n => Ok (n =? 0) end), sp)
  | OSlowestLag => (RNum (produced sp - spec_slowest sp), sp)
  | OTotalWritten => (RNum (produced sp), sp)
  | OReaderCount => (RNum (n_readers sp), sp)
  | OCapacity => (RNum (cap sp), sp)
  end.

Fixpoint spec_run (os : list (op T)) sp : list (resp T) * spec T :=
  match os with
  | [] => ([], sp)
  | o :: os =>
      let '(r, sp') := spec_exec o sp in
      let '(rs, sp'') := spec_run os sp' in (r :: rs, sp'')
  end.

(** Reader ids are unsigned. *)
Definition id_ok (o : op T) : Prop :=
  match o with OPop i | OPeek i | OLen i | OIsEmpty i => 0 <= i | _ => True end.
End spec_machine.

(** ** The operations on the mapped ring *)

Section impl.
Context `{Profile} {T : Type} `{Pod T}.

(** A client that reads through the pointer [peek] returns. *)
Definition peek_read (i : Z) : M St (result ShmRingError (option T)) :=
  let? p := peek T i in
  match p with
  | None => ret (Ok None)
  | Some off => let! v := read_volatile off in ret (Ok (Some v))
  end.

Definition exec (o : op T) : M St (resp T) :=
  match o with
  | OPush v => let! b := try_push v in ret (RPush b)
  | OPop i => let! r := try_pop i in ret (RRecord r)
  | OPeek i => let! r := peek_read i in ret (RRecord r)
  | OLen i => let! r := len i in ret (RLen r)
  | OIsEmpty i => let! r := is_empty i in ret (REmpty r)
  | OSlowestLag => let! n := slowest_lag in ret (RNum n)
  | OTotalWritten => let! n := total_written_ in ret (RNum n)
  | OReaderCount => let! n := reader_count in ret (RNum n)
  | OCapacity => let! n := capacity in ret (RNum n)
  end.

Fixpoint run (os : list (op T)) : M St (list (resp T)) :=
  match os with
  | [] => ret []
  | o :: os => let! r := exec o in let! rs := run os in ret (r :: rs)
  end.

(** Arguments a Rust caller can pass. *)
Definition op_ok (o : op T) : Prop :=
  match o with
  | OPush v => pod_ok v
  | OPop i | OPeek i | OLen i | OIsEmpty i => 0 <= i
  | _ => True
  end.

(** ** The abstraction relation *)

Record rep (s : St) (sp : spec T) : Prop := mkRep {
  rep_layout : layout_ok T s;
  rep_readers : h_num_readers (hdr (shm s)) = n_readers sp;
  rep_readers_range : 1 <= n_readers sp <= MAX_READERS;
  rep_write_idx : h_write_idx (hdr (shm s)) = produced sp;
  rep_cursors : h_read_indices (hdr (shm s)) = cursors sp;
  rep_total : h_total_written (hdr (shm s)) = produced sp;
  rep_cap : r_capacity (ring s) = cap sp;
  rep_gates : loan_depth (ring s) = gates sp;
  rep_window i c : 0 <= i < n_readers sp -> cursors sp !! Z.to_nat i = Some c ->
    produced sp - cap sp <= c <= produced sp;
  rep_slots j v : 0 <= j -> produced sp - cap sp <= j -> log sp !! Z.to_nat j = Some v ->
    slot_value s j = v;
  rep_log_ok : Forall pod_ok (log sp);
}.
End impl.

(** ** One operation *)

Section refinement.
Context `{Profile} {T : Type} `{Pod T} `{!PodLaws T}.
Implicit Types (s : St) (sp : spec T).

Lemma rep_slowest s sp : rep s sp -> slowest s = spec_slowest sp.
Proof. intros R. unfold slowest, participants, spec_slowest. by rewrite (rep_readers _ _ R), (rep_cursors _ _ R). Qed.

Lemma rep_proto s sp : rep s sp -> proto_ok s.
Proof.
  intros R. split; [rewrite (rep_readers _ _ R); apply R|].
  intros c Hc. unfold participants in Hc. rewrite (rep_readers _ _ R), (rep_cursors _ _ R) in Hc.
  apply elem_of_take_lookup in Hc as (j & Hj & Hc).
  rewrite (rep_write_idx _ _ R), (rep_cap _ _ R).
  apply (rep_window _ _ R (Z.of_nat j)); [lia|by rewrite Nat2Z.id].
Qed.

Lemma rep_cursor s sp i :
  rep s sp -> 0 <= i < n_readers sp ->
  exists c, cursors sp !! Z.to_nat i = Some c /\ cursors sp !!! Z.to_nat i = c /\
    0 <= c <= produced sp /\ produced sp - cap sp <= c.
Proof.
  intros R Hi. pose proof (rep_layout _ _ R) as Hs.
  destruct (participants_lookup s i (lo_hdr s Hs)) as (c & Hc & _ & Hu);
    [rewrite (rep_readers _ _ R); apply R|by rewrite (rep_readers _ _ R)|].
  rewrite (rep_cursors _ _ R) in Hc. exists c. split; [done|].
  split; [by apply list_lookup_total_correct|].
  destruct (rep_window _ _ R i c Hi Hc). unfold u64 in Hu. lia.
Qed.

Lemma rep_gate s sp i :
  rep s sp -> 0 <= i < n_readers sp ->
  exists d, loan_depth (ring s) !! Z.to_nat i = Some d /\ gates sp !!! Z.to_nat i = d.
Proof.
  intros R Hi. pose proof (rep_readers_range _ _ R) as Hn. unfold MAX_READERS in Hn.
  pose proof (rep_gates _ _ R) as Hg. destruct (lo_loan_depth s (rep_layout _ _ R)) as [_ Hl].
  destruct (lookup_lt_is_Some_2 (loan_depth (ring s)) (Z.to_nat i)) as [d Hd]; [lia|].
  exists d. split; [done|]. rewrite <- Hg. by apply list_lookup_total_correct.
Qed.

(** A push that the slowest reader leaves room for extends the log. *)
Lemma rep_pushed s sp v :
  rep s sp -> pod_ok v -> u64 (produced sp + 1) -> produced sp - spec_slowest sp < cap sp ->
  rep (pushed s v) (mkSpec (log sp ++ [v]) (cursors sp) (n_readers sp) (cap sp) (gates sp)).
Proof.
  intros R Hv Hw Hroom. pose proof (rep_layout _ _ R) as Hs. pose proof (lo_hdr s Hs) as Hh.
  pose proof (rep_write_idx _ _ R) as Ew. pose proof (rep_cap _ _ R) as Ec.
  assert (Hh' : header_ok (bump_total_written
    (set_write_idx (hdr (shm s)) (h_write_idx (hdr (shm s)) + 1) Release) Relaxed))
    by (apply bump_total_written_ok, set_write_idx_ok; [done|by rewrite Ew]).
  pose proof (slot_set_layout s (h_write_idx (hdr (shm s))) v Hs) as Hss.
  assert (El : produced (mkSpec (log sp ++ [v]) (cursors sp) (n_readers sp) (cap sp) (gates sp))
    = produced sp + 1) by (unfold produced; cbn [log]; rewrite length_app; simpl; lia).
  split; cbn [log cursors n_readers cap gates]; rewrite ?El.
  - unfold pushed. by apply layout_ok_hdr.
  - apply R.
  - apply R.
  - cbn. by rewrite Ew.
  - apply R.
  - cbn. rewrite (rep_total _ _ R). by apply wrap64_small.
  - done.
  - apply R.
  - intros i c Hi Hc. destruct (rep_window _ _ R i c Hi Hc).
    assert (spec_slowest sp <= c); [|lia].
    apply fold_min_le, elem_of_take_lookup. exists (Z.to_nat i). split; [lia|done].
  - intros j x Hj0 Hj Hx. unfold pushed. rewrite slot_value_hdr by done. rewrite Ew.
    apply lookup_app_Some in Hx as [Hx|[Hge Hx]].
    + pose proof (lookup_lt_Some _ _ _ Hx).
      rewrite slot_value_set_ne; [apply R; [done|lia|done]|done|]. rewrite Ec.
      intros E. apply mod_window_inj in E; unfold produced in *; lia.
    + assert (j = produced sp) as -> by (apply list_lookup_singleton_Some in Hx as [? _]; unfold produced; lia).
      rewrite slot_value_set_eq by done.
      by apply list_lookup_singleton_Some in Hx as [_ ->].
  - apply Forall_app; split; [apply R|by repeat constructor].
Qed.

Lemma rep_advanced s sp i c :
  rep s sp -> 0 <= i < n_readers sp -> cursors sp !! Z.to_nat i = Some c -> c < produced sp ->
  rep (advanced s i c)
    (mkSpec (log sp) (<[Z.to_nat i := c + 1]> (cursors sp)) (n_readers sp) (cap sp) (gates sp)).
Proof.
  intros R Hi Hc Hlt. pose proof (rep_layout _ _ R) as Hs. pose proof (lo_hdr s Hs) as Hh.
  destruct (rep_cursor s sp i R Hi) as (c' & Hc' & _ & Hr & Hw). simplify_eq.
  pose proof (ok_write_idx _ Hh) as Hu. rewrite (rep_write_idx _ _ R) in Hu. unfold u64 in Hu.
  assert (Hh' : header_ok (with_read_indices (hdr (shm s))
    (<[Z.to_nat i := c + 1]> (h_read_indices (hdr (shm s)))))).
  { eapply (set_read_idx_ok _ _ i (c + 1) Release); [done|unfold u64; lia|].
    apply set_read_idx_run; [done|]. pose proof (rep_readers_range _ _ R). lia. }
  split; cbn [log cursors n_readers cap gates]; try apply R.
  - by apply layout_ok_hdr.
  - cbn. by rewrite (rep_cursors _ _ R).
  - intros k c' Hk Hc2. change (produced _) with (produced sp).
    destruct (decide (k = i)) as [->|Hne].
    + rewrite list_lookup_insert_eq in Hc2 by (by eapply lookup_lt_Some). simplify_eq. lia.
    + rewrite list_lookup_insert_ne in Hc2 by lia. by apply (rep_window _ _ R k).
  - intros j v Hj Hj' Hv. unfold advanced. rewrite slot_value_hdr by done. by apply R.
Qed.

(** The record under a cursor, in the log and in the mapping. *)
Lemma rep_under_cursor s sp c :
  rep s sp -> 0 <= c <= produced sp -> produced sp - cap sp <= c ->
  log sp !! Z.to_nat c =
    if c =? h_write_idx (hdr (shm s)) then None else Some (slot_value s c).
Proof.
  intros R Hc Hw. rewrite (rep_write_idx _ _ R). unfold produced in *.
  destruct (Z.eqb_spec c (Z.of_nat (length (log sp)))) as [->|Hne].
  - apply lookup_ge_None. lia.
  - destruct (lookup_lt_is_Some_2 (log sp) (Z.to_nat c)) as [v Hv]; [lia|].
    rewrite Hv. f_equal. symmetry. apply (rep_slots _ _ R); [lia|unfold produced; lia|done].
Qed.

Lemma spec_check_ok sp i c :
  0 <= i < n_readers sp -> cursors sp !!! Z.to_nat i = c -> spec_check sp i = Ok c.
Proof.
  intros Hi <-. unfold spec_check. by destruct (Z.leb_spec (n_readers sp) i); [lia|].
Qed.

Lemma spec_check_err sp i :
  n_readers sp <= i -> spec_check sp i = Err (InvalidReaderId i (n_readers sp - 1)).
Proof. intros Hi. unfold spec_check. by destruct (Z.leb_spec (n_readers sp) i); [|lia]. Qed.

Lemma push_refines s sp v :
  rep s sp -> pod_ok v -> u64 (produced sp + 1) ->
  exists s', try_push v s = Ret ((spec_push v sp).1, s') /\ rep s' (spec_push v sp).2.
Proof.
  intros R Hv Hw. pose proof (rep_layout _ _ R) as Hs. pose proof (rep_proto _ _ R) as Hp.
  rewrite try_push_run by (first [done|by rewrite (rep_write_idx _ _ R)]).
  rewrite (rep_slowest _ _ R), (rep_write_idx _ _ R), (rep_cap _ _ R). unfold spec_push.
  destruct (Z.leb_spec (cap sp) (produced sp - spec_slowest sp)); [by eauto|].
  eexists. split; [done|]. by apply rep_pushed.
Qed.

Lemma pop_refines s sp i :
  rep s sp -> 0 <= i -> u64 (produced sp + 1) ->
  exists s', try_pop i s = Ret ((spec_pop i sp).1, s') /\ rep s' (spec_pop i sp).2.
Proof.
  intros R Hi Hw. pose proof (rep_layout _ _ R) as Hs. pose proof (rep_proto _ _ R) as Hp.
  unfold spec_pop. destruct (Z.lt_ge_cases i (n_readers sp)) as [Hlt|Hge].
  - destruct (rep_cursor s sp i R) as (c & Hc & Hct & Hr & Hcw); [lia|].
    destruct (rep_gate s sp i R) as (d & Hd & Hdt); [lia|].
    rewrite (spec_check_ok _ _ c), Hdt by (first [lia|done]).
    rewrite (try_pop_run s i c d);
      [|first [done|unfold u64 in *; lia|rewrite (rep_readers _ _ R); lia
              |by rewrite (rep_cursors _ _ R)]..].
    destruct (negb _); [by eauto|]. rewrite (rep_under_cursor s sp c R) by done.
    destruct (Z.eqb_spec c (h_write_idx (hdr (shm s)))) as [E|E]; [by eauto|].
    rewrite (rep_write_idx _ _ R) in E. eexists. split; [done|]. apply rep_advanced; [done|lia|done|lia].
  - rewrite spec_check_err by done. exists s. split; [|done].
    rewrite try_pop_bad_reader by (rewrite (rep_readers _ _ R); first [apply R|lia]).
    by rewrite (rep_readers _ _ R).
Qed.

Lemma peek_refines s sp i :
  rep s sp -> 0 <= i -> peek_read i s = Ret (spec_peek i sp, s).
Proof.
  intros R Hi. pose proof (rep_layout _ _ R) as Hs. pose proof (rep_proto _ _ R) as Hp.
  unfold peek_read, spec_peek. destruct (Z.lt_ge_cases i (n_readers sp)) as [Hlt|Hge].
  - destruct (rep_cursor s sp i R) as (c & Hc & Hct & Hr & Hcw); [lia|].
    rewrite (spec_check_ok _ _ c) by (first [lia|done]).
    erewrite bind_ok_run.
    2: { apply (peek_run s i c); [done|done|rewrite (rep_readers _ _ R); lia|].
         by rewrite (rep_cursors _ _ R). }
    rewrite (rep_under_cursor s sp c R) by done. destruct (_ =? _); [done|].
    by erewrite bind_run by (by apply read_volatile_run).
  - rewrite spec_check_err by done. eapply bind_err_run. unfold peek. eapply bind_err_run.
    rewrite check_reader_run, (rep_readers _ _ R) by (rewrite (rep_readers _ _ R); apply R).
    by destruct (Z.leb_spec (n_readers sp) i); [|lia].
Qed.

Lemma len_refines s sp i :
  rep s sp -> 0 <= i -> len i s = Ret (spec_len i sp, s).
Proof.
  intros R Hi. pose proof (rep_layout _ _ R) as Hs. pose proof (rep_proto _ _ R) as Hp.
  unfold spec_len. destruct (Z.lt_ge_cases i (n_readers sp)) as [Hlt|Hge].
  - destruct (rep_cursor s sp i R) as (c & Hc & Hct & _); [lia|].
    rewrite (spec_check_ok _ _ c) by (first [lia|done]).
    rewrite (len_run s i c), (rep_write_idx _ _ R); [done..|rewrite (rep_readers _ _ R); lia|].
    by rewrite (rep_cursors _ _ R).
  - rewrite spec_check_err by done. unfold len. eapply bind_err_run.
    rewrite check_reader_run, (rep_readers _ _ R) by (rewrite (rep_readers _ _ R); apply R).
    by destruct (Z.leb_spec (n_readers sp) i); [|lia].
Qed.
End refinement.

(** ** Sequences of operations *)

Section traces.
Context `{Profile} {T : Type} `{Pod T} `{!PodLaws T}.
Implicit Types (s : St) (sp : spec T) (os : list (op T)) (rs : list (resp T)).

(** What one answered operation says was accepted, and what it says reader
    [i] was given. *)
Definition accepted (o : op T) (r : resp T) : list T :=
  match o, r with OPush v, RPush true => [v] | _, _ => [] end.
Definition received (i : Z) (o : op T) (r : resp T) : list T :=
  match o, r with
  | OPop j, RRecord (Ok (Some v)) => if decide (j = i) then [v] else []
  | _, _ => []
  end.

Definition pushes os rs : list T := mjoin (zip_with accepted os rs).
Definition pops (i : Z) os rs : list T := mjoin (zip_with (received i) os rs).

Lemma exec_refines s sp o :
  rep s sp -> op_ok o -> u64 (produced sp + 1) ->
  exists s', exec o s = Ret ((spec_exec o sp).1, s') /\ rep s' (spec_exec o sp).2.
Proof.
  intros R Ho Hw. pose proof (rep_layout _ _ R) as Hs. pose proof (rep_proto _ _ R) as Hp.
  destruct o as [v|i|i|i|i| | | |]; simpl in Ho |- *.
  - destruct (push_refines s sp v R Ho Hw) as (s' & E & R'). exists s'.
    rewrite (bind_run _ _ _ _ _ E). by destruct (spec_push v sp).
  - destruct (pop_refines s sp i R Ho Hw) as (s' & E & R'). exists s'.
    rewrite (bind_run _ _ _ _ _ E). by destruct (spec_pop i sp).
  - exists s. by rewrite (bind_run _ _ _ _ _ (peek_refines s sp i R Ho)).
  - exists s. by rewrite (bind_run _ _ _ _ _ (len_refines s sp i R Ho)).
  - exists s. split; [|done]. pose proof (len_refines s sp i R Ho) as E.
    unfold is_empty. destruct (spec_len i sp) as [n|e].
    + erewrite bind_run; [|by erewrite bind_ok_run]. done.
    + erewrite bind_run; [|by eapply bind_err_run]. done.
  - exists s. rewrite (bind_run _ _ _ _ _ (slowest_lag_run s Hs Hp)).
    by rewrite (rep_slowest _ _ R), (rep_write_idx _ _ R).
  - exists s. erewrite bind_run by reflexivity. unfold total_written.
    by rewrite (rep_total _ _ R).
  - exists s. erewrite bind_run by reflexivity. unfold num_readers.
    by rewrite (rep_readers _ _ R).
  - exists s. erewrite bind_run by reflexivity. by rewrite (rep_cap _ _ R).
Qed.

Lemma spec_exec_produced sp o : produced (spec_exec o sp).2 <= produced sp + 1.
Proof.
  destruct o as [v|i|i|i|i| | | |]; simpl; try lia.
  - unfold spec_push. destruct (_ <=? _); simpl; [lia|].
    unfold produced; simpl. rewrite length_app. simpl. lia.
  - unfold spec_pop. destruct (spec_check sp i); simpl; [|lia].
    destruct (negb _); simpl; [lia|]. destruct (log sp !! _); unfold produced; simpl; lia.
Qed.

Lemma run_refines os s sp :
  rep s sp -> Forall op_ok os -> produced sp + Z.of_nat (length os) < 2 ^ 64 ->
  exists s', run os s = Ret ((spec_run os sp).1, s') /\ rep s' (spec_run os sp).2.
Proof.
  intros R Hos. revert s sp R. induction Hos as [|o os Ho _ IH]; intros s sp R Hw; [by exists s|].
  cbn [length] in Hw. assert (0 <= produced sp) by (unfold produced; lia).
  destruct (exec_refines s sp o R Ho) as (s1 & E1 & R1); [unfold u64; lia|].
  pose proof (spec_exec_produced sp o) as Hle. cbn [run spec_run].
  destruct (spec_exec o sp) as [r sp1]; simpl in *.
  destruct (IH s1 sp1 R1) as (s2 & E2 & R2); [lia|]. exists s2.
  destruct (spec_run os sp1) as [rs sp2]; simpl in *.
  by rewrite (bind_run _ _ _ _ _ E1), (bind_run _ _ _ _ _ E2).
Qed.

Lemma spec_exec_log sp o :
  log (spec_exec o sp).2 = log sp ++ accepted o (spec_exec o sp).1.
Proof.
  destruct o as [v|i|i|i|i| | | |]; simpl; rewrite ?app_nil_r; try done.
  - unfold spec_push. destruct (_ <=? _); simpl; [by rewrite app_nil_r|done].
  - unfold spec_pop. destruct (spec_check sp i); simpl; rewrite ?app_nil_r; [|done].
    destruct (negb _); simpl; rewrite ?app_nil_r; [done|].
    by destruct (log sp !! _); simpl; rewrite ?app_nil_r.
Qed.

(** The log of the abstract machine is what was accepted, in order. *)
Lemma spec_run_log os sp :
  log (spec_run os sp).2 = log sp ++ pushes os (spec_run os sp).1.
Proof.
  revert sp. induction os as [|o os IH]; intros sp; simpl; [by rewrite app_nil_r|].
  pose proof (spec_exec_log sp o) as El. destruct (spec_exec o sp) as [r sp1]; simpl in El.
  specialize (IH sp1). destruct (spec_run os sp1) as [rs sp2]; simpl in *.
  rewrite IH, El. unfold pushes; simpl. by rewrite app_assoc.
Qed.

(** Cursors of well-formed abstract states are positions. *)
Definition cursors_ok sp : Prop :=
  n_readers sp <= Z.of_nat (length (cursors sp)) /\ Forall (fun c => 0 <= c) (cursors sp).
Definition cursor sp (i : Z) : nat := Z.to_nat (cursors sp !!! Z.to_nat i).

Lemma spec_pop_ok sp i c v :
  cursors_ok sp -> 0 <= i -> spec_check sp i = Ok c -> log sp !! Z.to_nat c = Some v ->
  (Z.to_nat i < length (cursors sp))%nat /\ 0 <= c /\ cursors sp !!! Z.to_nat i = c.
Proof.
  intros [Hn Hpos] Hi Hc Hv. unfold spec_check in Hc.
  destruct (Z.leb_spec (n_readers sp) i); simplify_eq. split; [lia|split; [|done]].
  eapply Forall_lookup_1; [exact Hpos|]. apply list_lookup_lookup_total_lt. lia.
Qed.

Lemma spec_exec_cursors sp o :
  cursors_ok sp -> id_ok o ->
  n_readers (spec_exec o sp).2 = n_readers sp /\ cursors_ok (spec_exec o sp).2.
Proof.
  intros Hc Ho. destruct o as [v|i|i|i|i| | | |]; simpl in Ho |- *; try done.
  - unfold spec_push. by destruct (_ <=? _).
  - unfold spec_pop. destruct (spec_check sp i) as [c|] eqn:Ec; [|done].
    destruct (negb _); [done|]. destruct (log sp !! _) eqn:Ev; [|done].
    destruct (spec_pop_ok _ _ _ _ Hc Ho Ec Ev) as (? & ? & _).
    split; [done|split; cbn [n_readers cursors snd]].
    + rewrite length_insert. apply Hc.
    + apply Forall_insert; [apply Hc|lia].
Qed.

(** One operation hands reader [i] exactly the part of the log its cursor
    moves over. *)
Lemma spec_exec_received sp o i L :
  cursors_ok sp -> id_ok o -> 0 <= i ->
  log sp `prefix_of` L ->
  drop (cursor sp i) L =
    received i o (spec_exec o sp).1 ++ drop (cursor (spec_exec o sp).2 i) L.
Proof.
  intros Hc Ho Hi [rest ->]. destruct o as [v|j|j|j|j| | | |]; simpl in Ho |- *; try done.
  - unfold spec_push. by destruct (_ <=? _).
  - unfold spec_pop. destruct (spec_check sp j) as [c|] eqn:Ec; [|done].
    destruct (negb _); [done|]. destruct (log sp !! _) as [v|] eqn:Ev; [|done]. simpl.
    destruct (spec_pop_ok _ _ _ _ Hc Ho Ec Ev) as (Hl & Hc0 & Et). unfold cursor; cbn [cursors].
    case_decide as E; simpl; [subst j|by rewrite list_lookup_total_insert_ne by lia].
    rewrite Et, list_lookup_total_insert_eq by done.
    replace (Z.to_nat (c + 1)) with (S (Z.to_nat c)) by lia.
    apply drop_S. by apply lookup_app_l_Some.
Qed.

Lemma spec_run_received i os sp :
  cursors_ok sp -> Forall id_ok os -> 0 <= i ->
  let '(rs, sp') := spec_run os sp in
  drop (cursor sp i) (log sp') = pops i os rs ++ drop (cursor sp' i) (log sp').
Proof.
  intros Hc Hos Hi. revert sp Hc.
  induction Hos as [|o os Ho _ IH]; intros sp Hc; [done|].
  destruct (spec_exec_cursors sp o Hc Ho) as [_ Hc1].
  assert (Hp : log sp `prefix_of` log (spec_run os (spec_exec o sp).2).2).
  { rewrite spec_run_log, spec_exec_log, <- app_assoc. by eexists. }
  pose proof (spec_exec_received sp o i _ Hc Ho Hi Hp) as Er. simpl.
  destruct (spec_exec o sp) as [r sp1]; simpl in *. specialize (IH sp1 Hc1).
  destruct (spec_run os sp1) as [rs sp2]; simpl in *. rewrite Er, IH.
  unfold pops; simpl. by rewrite app_assoc.
Qed.

Lemma op_ok_id os : Forall op_ok os -> Forall (id_ok (T := T)) os.
Proof. apply Forall_impl. by intros []. Qed.

Lemma spec_run_fifo i os sp :
  cursors_ok sp -> Forall op_ok os -> 0 <= i ->
  pops i os (spec_run os sp).1 `prefix_of` drop (cursor sp i) (log (spec_run os sp).2).
Proof.
  intros Hc Hos Hi. pose proof (spec_run_received i os sp Hc (op_ok_id os Hos) Hi) as E.
  destruct (spec_run os sp) as [rs sp']; simpl in *. by eexists.
Qed.

Lemma rep_cursors_ok s sp : rep s sp -> cursors_ok sp.
Proof.
  intros R. pose proof (lo_hdr s (rep_layout _ _ R)) as Hh.
  pose proof (rep_readers_range _ _ R) as Hn. unfold MAX_READERS in Hn. split.
  - rewrite <- (rep_cursors _ _ R), (ok_read_indices_len _ Hh). lia.
  - rewrite <- (rep_cursors _ _ R). apply Forall_lookup. intros k c Hk.
    apply (Forall_lookup_1 _ _ _ _ (ok_read_indices _ Hh) Hk).
Qed.
End traces.
