(* ===== verification/Fs.v ===== *)
(** Fs: the file system calls and the mapping the crate makes.

    The file system is a finite map from paths to file contents.  The
    standard library's calls ([OpenOptions::open], [set_len], [metadata],
    [exists], [remove_file]) are modelled as documented; the faults the
    operating system may raise on them, and what other processes do between
    two calls, are parameters ([Os]).  [memmap2] is outside the repository:
    its two mapping constructors and [flush] are the parameters of [Memmap2],
    and the crate relies on the documented fact that a mapping of a whole
    file holds exactly its bytes ([Memmap2Laws]). *)

From S2P Require Import Prelude.
From S2P Require Import Error.
Set Default Goal Selector "!".

Abbreviation files := (gmap string (list byte)).

Class Os := {
  (** faults of [open(2)], [fstat(2)], [ftruncate(2)] and [unlink(2)] other
      than those the file system state implies *)
  open_fault : string -> option ErrorKind.t;
  metadata_fault : string -> option ErrorKind.t;
  set_len_fault : Z -> option ErrorKind.t;
  remove_fault : string -> option ErrorKind.t;
  (** what other processes do between two calls *)
  others : files -> files;
}.

Class Memmap2 := {
  map_mut : list byte -> result ErrorKind.t (list byte);
  map : list byte -> result ErrorKind.t (list byte);
  flush : list byte -> option ErrorKind.t;
}.

Class Memmap2Laws `{Memmap2} := {
  map_mut_contents c m : map_mut c = Ok m -> m = c;
  map_contents c m : map c = Ok m -> m = c;
}.

(** A well-behaved system: no faults, no interference, mappings succeed. *)
Definition quiet_os : Os := {|
  open_fault _ := None; metadata_fault _ := None; set_len_fault _ := None;
  remove_fault _ := None; others fs := fs |}.
Definition plain_memmap2 : Memmap2 := {|
  map_mut c := Ok c; map c := Ok c; flush _ := None |}.

Lemma plain_memmap2_laws : @Memmap2Laws plain_memmap2.
Proof. split; intros c m E; by simplify_eq/=. Qed.

Section calls.
Context `{Os} `{Memmap2}.

Definition io {A} (f : option ErrorKind.t) (k : M files (result ErrorKind.t A)) :
    M files (result ErrorKind.t A) :=
  match f with Some e => ret (Err e) | None => k end.

Definition path_exists (p : string) : M files bool := fun fs =>
  Ret (bool_decide (is_Some (fs !! p)), fs).

Definition interference : M files unit := modify others.

(** [OpenOptions::new().read(true).write(true).create_new(true)] *)
Definition open_create_new (p : string) : M files (result ErrorKind.t unit) :=
  io (open_fault p) (fun fs =>
    match fs !! p with
    | Some _ => Ret (Err ErrorKind.AlreadyExists, fs)
    | None => Ret (Ok tt, <[p := []]> fs)
    end).

(** [OpenOptions::new().read(true).write(true)], and [File::open] *)
Definition open_rw (p : string) : M files (result ErrorKind.t unit) :=
  io (open_fault p) (fun fs =>
    match fs !! p with
    | Some _ => Ret (Ok tt, fs)
    | None => Ret (Err ErrorKind.NotFound, fs)
    end).

(** [.create(true).truncate(true)] *)
Definition open_truncate (p : string) : M files (result ErrorKind.t unit) :=
  io (open_fault p) (fun fs => Ret (Ok tt, <[p := []]> fs)).

(** The contents behind an open descriptor. *)
Definition contents (p : string) : M files (list byte) := fun fs => Ret (default [] (fs !! p), fs).
Definition put_contents (p : string) (bs : list byte) : M files unit :=
  modify (fun fs => <[p := bs]> fs).

Definition metadata_len (p : string) : M files (result ErrorKind.t Z) :=
  io (metadata_fault p) (
    let! c := contents p in ret (Ok (Z.of_nat (length c)))).

(** [File::set_len]: a length past [i64::MAX] is [InvalidInput]; otherwise
    the file is cut or zero-extended. *)
Definition set_len (p : string) (len : Z) : M files (result ErrorKind.t unit) :=
  if 2 ^ 63 <=? len then ret (Err ErrorKind.InvalidInput) else
  io (set_len_fault len) (
    let! c := contents p in
    let n := Z.to_nat len in
    put_contents p (take n c ++ replicate (n - length c) Byte.x00) ;!
    ret (Ok tt)).

Definition mmap_mut (p : string) : M files (result ErrorKind.t (list byte)) :=
  let! c := contents p in ret (map_mut c).
Definition mmap_ro (p : string) : M files (result ErrorKind.t (list byte)) :=
  let! c := contents p in ret (map c).

Definition remove_file (p : string) : M files (result ErrorKind.t unit) :=
  io (remove_fault p) (fun fs =>
    match fs !! p with
    | Some _ => Ret (Ok tt, delete p fs)
    | None => Ret (Err ErrorKind.NotFound, fs)
    end).
End calls.

(** [?] on an [io::Result] in a function that returns [ShmRingError]. *)
Definition from_io {S A} (m : M S (result ErrorKind.t A)) : M S (result ShmRingError A) :=
  let! r := m in ret (match r with Ok a => Ok a | Err e => Err (Io e) end).

Lemma from_io_ok {S A} (m : M S (result ErrorKind.t A)) s a s' :
  m s = Ret (Ok a, s') -> from_io m s = Ret (Ok a, s').
Proof. unfold from_io, bind. by intros ->. Qed.

Lemma from_io_err {S A} (m : M S (result ErrorKind.t A)) s e s' :
  m s = Ret (Err e, s') -> from_io m s = Ret (Err (Io e), s').
Proof. unfold from_io, bind. by intros ->. Qed.
