(* ===== verification/Create.v ===== *)
(** Create: the two constructors of [src/src/ring.rs],
    [create_new_with_readers] (and [create_new]) and [open_existing]. *)

From S2P Require Import Prelude.
From S2P Require Import Error.
From S2P Require Import Header.
From S2P Require Import Pod.
From S2P Require Import Shm.
From S2P Require Import Fs.
From S2P Require Import Ring.
From S2P Require Import Spec.
Set Default Goal Selector "!".

Section create.
  Context `{Profile} `{Os} `{Memmap2} (T : Type) `{Pod T}.

Definition fresh_ring (capacity : Z) (path : string) : SpmcRingBuffer :=
  mkRing capacity path (replicate 8 0) (replicate 8 0).

Definition create_new_with_readers (path : string) (capacity num_readers : Z) :
    M files (result ShmRingError St) :=
  if (capacity =? 0) || negb (is_power_of_two capacity)
  then ret (Err (InvalidCapacity capacity)) else
  assert_ ((1 <=? num_readers) && (num_readers <=? MAX_READERS)) ;!
  assert_ (align_of T <=? 64) ;!
  assert_ (0 <? size_of T) ;!
  let! ex := path_exists path in
  if (ex : bool) then ret (Err AlreadyExists) else
  interference ;!
  let! opened := open_create_new path in
  match opened with
  | Err ErrorKind.AlreadyExists => ret (Err AlreadyExists)
  | Err e => ret (Err (Io e))
  | Ok _ =>
    let! slots := mul64 capacity (size_of T) in
    let! len := add64 HEADER_SIZE slots in
    let? _ := from_io (set_len path len) in
    let? mmap := from_io (mmap_mut path) in
    let! mask := sub64 capacity 1 in
    let! h := lift (new mask num_readers) in
    if Z.of_nat (length mmap) <? sizeof_RingHeader then ub else
    let m := mkShm h (drop 256 mmap) in
    put_contents path (shm_bytes m) ;!
    ret (Ok (mkSt m (fresh_ring capacity path)))
  end.

Definition create_new (path : string) (capacity : Z) : M files (result ShmRingError St) :=
  create_new_with_readers path capacity MAX_READERS.

Definition open_existing (path : string) : M files (result ShmRingError St) :=
  assert_ (align_of T <=? 64) ;!
  assert_ (0 <? size_of T) ;!
  let? _ := from_io (open_rw path) in
  let? file_len := from_io (metadata_len path) in
  if file_len <? HEADER_SIZE then ret (Err (FileTooShort HEADER_SIZE file_len)) else
  let? mmap := from_io (mmap_mut path) in
  let hdr := header_of_bytes mmap in
  let? _ := lift (validate hdr) in
  let mask := capacity_mask hdr Acquire in
  let! capacity := add64 mask 1 in
  let! slots := mul64 capacity (size_of T) in
  let! expected := add64 HEADER_SIZE slots in
  if file_len <? expected then ret (Err (FileTooShort expected file_len)) else
  ret (Ok (mkSt (shm_of_bytes mmap) (fresh_ring capacity path))).

End create.

(** ** A fresh ring *)

Section fresh.
Context {T : Type} `{Pod T} `{!PodLaws T}.

Definition fresh_header (mask num_readers : Z) : RingHeader :=
  mkHeader MAGIC VERSION num_readers 0 0 (replicate 8 0) mask 0 (replicate 18 0).

Definition fresh_st (path : string) (capacity num_readers : Z) : St :=
  mkSt (mkShm (fresh_header (capacity - 1) num_readers)
          (replicate (Z.to_nat (capacity * size_of T)) Byte.x00))
    (fresh_ring capacity path).

(** What the arguments of a successful creation satisfy. *)
Record create_args (capacity num_readers : Z) : Prop := mkCreateArgs {
  ca_capacity : exists k, 0 <= k /\ capacity = 2 ^ k;
  ca_readers : 1 <= num_readers <= MAX_READERS;
  ca_align : align_of T <= 64;
  ca_size : 0 < size_of T;
  ca_fits : HEADER_SIZE + capacity * size_of T < 2 ^ 63;
}.

Lemma create_args_pos capacity n : create_args capacity n -> 1 <= capacity < 2 ^ 63.
Proof.
  intros []. destruct ca_capacity0 as (k & Hk & ->). unfold HEADER_SIZE in *.
  pose proof (Z.pow_pos_nonneg 2 k). nia.
Qed.

Lemma fresh_header_ok mask n :
  u64 mask -> 1 <= n <= MAX_READERS -> header_ok (fresh_header mask n).
Proof.
  unfold MAX_READERS. intros Hm Hn. assert (H0 : u64 0) by (unfold u64; lia).
  split; cbn [fresh_header h_magic h_version h_num_readers h_pad1 h_write_idx h_read_indices
    h_capacity_mask h_total_written h_pad_to_256];
    first [done|by apply Forall_replicate|unfold u64, u32, MAGIC, VERSION; lia].
Qed.

Lemma fresh_len path capacity n :
  create_args capacity n ->
  mapping_len (shm (fresh_st path capacity n)) = HEADER_SIZE + capacity * size_of T.
Proof.
  intros Ha. pose proof (create_args_pos _ _ Ha). pose proof (ca_size _ _ Ha).
  unfold mapping_len, fresh_st; cbn [shm data]. rewrite length_replicate. nia.
Qed.

Lemma fresh_layout path capacity n :
  create_args capacity n -> layout_ok T (fresh_st path capacity n).
Proof.
  intros Ha. pose proof (create_args_pos _ _ Ha). pose proof (ca_fits _ _ Ha).
  split; rewrite ?fresh_len by done; try apply Ha.
  - apply fresh_header_ok; [unfold u64; lia|apply Ha].
  - cbn [ring fresh_st fresh_ring r_capacity]. lia.
  - lia.
  - split; [|done]. apply Forall_replicate. unfold u64; lia.
  - split; [|done]. apply Forall_replicate. unfold u64; lia.
Qed.

(** A fresh ring is the empty log with every cursor at its start. *)
Definition empty_log (capacity num_readers : Z) : spec T :=
  mkSpec [] (replicate 8 0) num_readers capacity (replicate 8 0).

Lemma fresh_rep path capacity n :
  create_args capacity n -> rep (fresh_st path capacity n) (empty_log capacity n).
Proof.
  intros Ha. pose proof (create_args_pos _ _ Ha).
  split; try done; try apply Ha.
  - by apply fresh_layout.
  - intros i c _ Hc. apply lookup_replicate_1 in Hc as [-> _].
    unfold produced, empty_log; simpl. lia.
Qed.
End fresh.
Arguments fresh_st T {_} path capacity num_readers.
Arguments empty_log T capacity num_readers : clear implicits.
Arguments create_args T {_} capacity num_readers.

(** ** Creation *)

(** Runs the argument checks of a creation with good arguments. *)
Ltac pass_checks Ha :=
  pose proof (create_args_pos _ _ Ha);
  pose proof (ca_readers _ _ Ha); pose proof (ca_size _ _ Ha); pose proof (ca_align _ _ Ha);
  let k := fresh "k" in let Hk := fresh "Hk" in let Ek := fresh "Ek" in
  destruct (ca_capacity _ _ Ha) as (k & Hk & Ek); unfold create_new_with_readers;
  rewrite (proj2 (is_power_of_two_spec _)) by (exists k; split; [exact Hk|exact Ek]);
  rewrite (proj2 (Z.eqb_neq _ 0)) by lia; cbn [negb orb];
  rewrite (proj2 (Z.leb_le 1 _)), !(proj2 (Z.leb_le _ _)), (proj2 (Z.ltb_lt 0 _)) by lia;
  do 3 (erewrite bind_run by reflexivity).

Section create_props.
Context `{Profile} `{Os} `{Memmap2} {T : Type} `{Pod T} `{!PodLaws T}.
Implicit Types fs : files.

(** The operating system raises no fault on [path] and maps files. *)
Record quiet (path : string) : Prop := mkQuiet {
  q_open : open_fault path = None;
  q_metadata : metadata_fault path = None;
  q_set_len n : set_len_fault n = None;
  q_map c : exists m, map_mut c = Ok m;
}.

Lemma open_create_new_run path fs :
  quiet path -> fs !! path = None ->
  open_create_new path fs = Ret (Ok tt, <[path := []]> fs).
Proof. intros Hq Hn. unfold open_create_new, io. by rewrite (q_open _ Hq), Hn. Qed.

Lemma path_exists_run path fs : path_exists path fs = Ret (bool_decide (is_Some (fs !! path)), fs).
Proof. done. Qed.

Lemma path_free_run path fs : fs !! path = None -> path_exists path fs = Ret (false, fs).
Proof.
  intros Hn. rewrite path_exists_run, bool_decide_eq_false_2; [done|].
  rewrite Hn. by intros [? ?].
Qed.

Lemma open_create_new_taken path fs :
  quiet path -> is_Some (fs !! path) ->
  open_create_new path fs = Ret (Err ErrorKind.AlreadyExists, fs).
Proof. intros Hq [c Hc]. unfold open_create_new, io. by rewrite (q_open _ Hq), Hc. Qed.

Lemma set_len_run path len fs :
  quiet path -> 0 <= len < 2 ^ 63 ->
  set_len path len (<[path := []]> fs) =
    Ret (Ok tt, <[path := replicate (Z.to_nat len) Byte.x00]> fs).
Proof.
  intros Hq Hl. unfold set_len, io. destruct (Z.leb_spec (2 ^ 63) len); [lia|].
  rewrite (q_set_len _ Hq). unfold bind, contents, put_contents, modify.
  rewrite lookup_insert_eq. simpl. rewrite insert_insert_eq, take_nil, Nat.sub_0_r. done.
Qed.

Context `{!Memmap2Laws}.

Lemma mmap_mut_run path c fs :
  quiet path -> fs !! path = Some c -> mmap_mut path fs = Ret (Ok c, fs).
Proof.
  intros Hq Hc. unfold mmap_mut, bind, contents, ret. rewrite Hc. simpl.
  destruct (q_map _ Hq c) as [m E]. by rewrite E, (map_mut_contents c m E).
Qed.

(** Creation on a free path: the file holds the initial header and zeroed
    slots, and the handle is the fresh ring over it. *)
Lemma create_run path capacity n fs :
  quiet path -> create_args T capacity n ->
  fs !! path = None -> others fs !! path = None ->
  create_new_with_readers T path capacity n fs =
    Ret (Ok (fresh_st T path capacity n),
         <[path := shm_bytes (shm (fresh_st T path capacity n))]> (others fs)).
Proof.
  intros Hq Ha Hn Ho. pose proof (ca_fits _ _ Ha) as Hf.
  assert (Hn1 : (1 <=? n) && (n <=? MAX_READERS) = true).
  { pose proof (ca_readers _ _ Ha). apply andb_true_intro. split; apply Z.leb_le; lia. }
  pass_checks Ha.
  erewrite bind_run by (by apply path_free_run).
  cbn beta iota.
  erewrite bind_run by reflexivity.
  erewrite bind_run by (by apply open_create_new_run). cbn beta iota.
  unfold HEADER_SIZE in *.
  erewrite bind_run by (apply arith_run; unfold u64; nia).
  erewrite bind_run by (apply arith_run; unfold u64; nia).
  erewrite bind_ok_run by (apply from_io_ok, set_len_run; [done|nia]).
  erewrite bind_ok_run by (apply from_io_ok, mmap_mut_run; [done|by rewrite lookup_insert_eq]).
  erewrite bind_run by (apply arith_run; unfold u64; lia).
  erewrite bind_run by (apply lift_run; unfold new; by rewrite Hn1).
  rewrite length_replicate. change sizeof_RingHeader with 256.
  destruct (Z.ltb_spec (Z.of_nat (Z.to_nat (256 + capacity * size_of T))) 256); [nia|].
  unfold bind, put_contents, modify, ret.
  rewrite insert_insert_eq, drop_replicate.
  replace (Z.to_nat (256 + capacity * size_of T) - 256)%nat
    with (Z.to_nat (capacity * size_of T)) by nia. done.
Qed.

(** ** Opening *)

Lemma open_rw_run path c fs :
  quiet path -> fs !! path = Some c -> open_rw path fs = Ret (Ok tt, fs).
Proof. intros Hq Hc. unfold open_rw, io. by rewrite (q_open _ Hq), Hc. Qed.

Lemma metadata_len_run path c fs :
  quiet path -> fs !! path = Some c ->
  metadata_len path fs = Ret (Ok (Z.of_nat (length c)), fs).
Proof.
  intros Hq Hc. unfold metadata_len, io. rewrite (q_metadata _ Hq).
  unfold bind, contents, ret. by rewrite Hc.
Qed.

(** The header of a mapping whose capacity is the one the handle caches. *)
Definition header_valid (h : RingHeader) (capacity : Z) : Prop :=
  h_magic h = MAGIC /\ h_version h = VERSION /\ h_capacity_mask h = capacity - 1 /\ 2 <= capacity.

(** A file holding a mapping in use, with the rings' own header and room for
    its slots, opens as that very mapping under a fresh handle. *)
Lemma open_run path s fs :
  quiet path -> layout_ok T s -> mapping_len (shm s) < 2 ^ 63 ->
  header_valid (hdr (shm s)) (r_capacity (ring s)) ->
  fs !! path = Some (shm_bytes (shm s)) ->
  open_existing T path fs =
    Ret (Ok (mkSt (shm s) (fresh_ring (r_capacity (ring s)) path)), fs).
Proof.
  intros Hq Hs Hlen (Hm & Hv & Hmask & Hc2) Hf. pose proof (lo_hdr s Hs) as Hh.
  pose proof (shm_bytes_length _ Hh) as Hl. pose proof (lo_fits s Hs) as Hfit.
  pose proof (lo_size s Hs) as Hsz. unfold HEADER_SIZE in *.
  destruct (lo_capacity s Hs) as (k & Hk & Ek).
  assert (Hval : validate (hdr (shm s)) = Ret (Ok tt)).
  { apply validate_ok_iff; [done|]. split; [done|split; [done|]]. exists k.
    split; [|by rewrite Hmask, Ek]. pose proof (ok_capacity_mask _ Hh) as Hu. unfold u64 in Hu.
    split; [|apply (Z.pow_lt_mono_r_iff 2); lia].
    destruct (Z.le_gt_cases k 0); [replace k with 0 in Ek by lia; lia|lia]. }
  unfold open_existing.
  destruct (Z.leb_spec (align_of T) 64); [|pose proof (lo_align s Hs); lia].
  destruct (Z.ltb_spec 0 (size_of T)); [|lia].
  do 2 (erewrite bind_run by reflexivity).
  erewrite bind_ok_run by (by eapply from_io_ok, open_rw_run).
  erewrite bind_ok_run by (by eapply from_io_ok, metadata_len_run).
  rewrite Hl. unfold HEADER_SIZE. destruct (Z.ltb_spec (mapping_len (shm s)) 256); [lia|].
  erewrite bind_ok_run by (by eapply from_io_ok, mmap_mut_run). cbn zeta.
  change (header_of_bytes (shm_bytes (shm s))) with (hdr (shm_of_bytes (shm_bytes (shm s)))).
  rewrite shm_of_shm_bytes by done.
  erewrite bind_ok_run by (by apply lift_run). unfold capacity_mask. rewrite Hmask.
  erewrite bind_run by (apply arith_run; unfold u64; nia).
  replace (r_capacity (ring s) - 1 + 1) with (r_capacity (ring s)) by lia.
  erewrite bind_run by (apply arith_run; unfold u64; nia).
  erewrite bind_run by (apply arith_run; unfold u64; nia).
  by destruct (Z.ltb_spec (mapping_len (shm s)) (256 + r_capacity (ring s) * size_of T)); [lia|].
Qed.

Lemma create_exists path capacity n fs :
  create_args T capacity n -> is_Some (fs !! path) ->
  create_new_with_readers T path capacity n fs = Ret (Err AlreadyExists, fs).
Proof.
  intros Ha Hf. pass_checks Ha.
  by erewrite bind_run by (by rewrite path_exists_run, bool_decide_eq_true_2).
Qed.

(** C28: A ring this crate creates (with two slots or more) opens cleanly, as the
    same mapping and an equal handle, and cannot be created again; and it
    is the empty log of its readers. *)
Theorem create_then_open path capacity n fs :
  quiet path -> create_args T capacity n -> 2 <= capacity ->
  fs !! path = None -> others fs !! path = None ->
  exists fs', let s := fresh_st T path capacity n in
    create_new_with_readers T path capacity n fs = Ret (Ok s, fs') /\
    open_existing T path fs' = Ret (Ok s, fs') /\
    create_new_with_readers T path capacity n fs' = Ret (Err AlreadyExists, fs') /\
    rep s (empty_log T capacity n).
Proof.
  intros Hq Ha Hc2 Hn Ho. eexists. cbn zeta. split; [by apply create_run|split; [|split]].
  - pose proof (create_args_pos _ _ Ha). pose proof (ca_fits _ _ Ha).
    apply (open_run path (fresh_st T path capacity n)); try done.
    + by apply fresh_layout.
    + by rewrite fresh_len.
    + by rewrite lookup_insert_eq.
  - apply create_exists; [done|]. rewrite lookup_insert_eq. by eexists.
  - by apply fresh_rep.
Qed.

(** Creation is exclusive and checks its arguments first: an unusable
    capacity is refused before anything is touched, an existing path
    whatever it holds is refused and left as it is, and a path that another
    process creates between the existence check and the open is refused
    too. *)
Theorem create_refuses path capacity n fs :
  ((capacity = 0 \/ is_power_of_two capacity = false) ->
    create_new_with_readers T path capacity n fs = Ret (Err (InvalidCapacity capacity), fs)) /\
  (create_args T capacity n -> is_Some (fs !! path) ->
    create_new_with_readers T path capacity n fs = Ret (Err AlreadyExists, fs)) /\
  (quiet path -> create_args T capacity n -> fs !! path = None -> is_Some (others fs !! path) ->
    create_new_with_readers T path capacity n fs = Ret (Err AlreadyExists, others fs)).
Proof.
  split; [|split; [by apply create_exists|]].
  - intros Hc. unfold create_new_with_readers.
    destruct Hc as [E0|E0]; rewrite E0; [done|]. by destruct (capacity =? 0).
  - intros Hq Ha Hf [c Hc]. pass_checks Ha.
    erewrite bind_run by (by apply path_free_run). cbn beta iota.
    erewrite bind_run by reflexivity.
    erewrite bind_run by (apply open_create_new_taken; [done|by exists c]). done.
Qed.
End create_props.

(** ** What opening guarantees *)

Section open_props.
Context `{Profile} `{Os} `{Memmap2} `{!Memmap2Laws} {T : Type} `{Pod T} `{!PodLaws T}.
Implicit Types fs : files.

Lemma from_io_inv {S A} (m : M S (result ErrorKind.t A)) s a s' :
  from_io m s = Ret (Ok a, s') -> m s = Ret (Ok a, s').
Proof. unfold from_io, bind, ret. destruct (m s) as [[[a0|e] s0]| |]; intros E; by simplify_eq. Qed.

Lemma open_rw_inv path fs u fs' :
  open_rw path fs = Ret (Ok u, fs') -> fs' = fs /\ exists c, fs !! path = Some c.
Proof.
  unfold open_rw, io. destruct (open_fault path); [done|].
  destruct (fs !! path); intros E; simplify_eq. eauto.
Qed.

Lemma metadata_len_inv path fs n fs' c :
  fs !! path = Some c -> metadata_len path fs = Ret (Ok n, fs') ->
  fs' = fs /\ n = Z.of_nat (length c).
Proof.
  unfold metadata_len, io, bind, contents, ret. intros Hc. destruct (metadata_fault path); [done|].
  rewrite Hc. simpl. intros E. by injection E as <- <-.
Qed.

Lemma mmap_mut_inv path fs m fs' c :
  fs !! path = Some c -> mmap_mut path fs = Ret (Ok m, fs') -> fs' = fs /\ m = c.
Proof.
  unfold mmap_mut, bind, contents, ret. intros Hc. rewrite Hc. intros E.
  injection E as E <-. split; [done|]. by apply map_mut_contents.
Qed.

(** A multiplication or addition that went through without wrapping. *)
Lemma arith_exact z a fs fs' :
  arith z fs = Ret (a, fs') -> overflow_checks = true \/ u64 z -> fs' = fs /\ a = z /\ u64 z.
Proof.
  intros (-> & Hu & [[? ->]|(? & E & ?)])%arith_inv Hz; [done|].
  destruct Hz; [congruence|done].
Qed.

Lemma capacity_nonneg_size mask k : mask = 2 ^ k - 1 -> 1 <= k -> 0 <= size_of T ->
  0 <= (mask + 1) * size_of T /\ mask + 1 = 2 ^ k /\ 2 <= 2 ^ k.
Proof.
  intros -> Hk Hs. assert (2 ^ 1 <= 2 ^ k) by (apply Z.pow_le_mono_r; lia). nia.
Qed.

(** C27: Opening accepts a file only with its own header and room for every slot
    that header implies, changes nothing, and hands out the file's bytes as
    the mapping: the handle satisfies the layout invariant, so no later
    operation leaves the mapping.  This needs the size computation not to
    wrap: always so with overflow checks, otherwise when
    [256 + capacity * size_of::<T>()] is below [2^64]. *)
Theorem open_existing_sound path fs fs' s :
  (forall c, fs !! path = Some c -> Z.of_nat (length c) < 2 ^ 64) ->
  open_existing T path fs = Ret (Ok s, fs') ->
  overflow_checks = true \/
    HEADER_SIZE + (h_capacity_mask (hdr (shm s)) + 1) * size_of T < 2 ^ 64 ->
  fs' = fs /\ fs !! path = Some (shm_bytes (shm s)) /\
  header_valid (hdr (shm s)) (r_capacity (ring s)) /\ layout_ok T s /\
  loan_depth (ring s) = replicate 8 0 /\ claim_base (ring s) = replicate 8 0.
Proof.
  intros Hlen E Hof. unfold open_existing, HEADER_SIZE in *.
  apply bind_inv in E as (? & ? & (Ha%Z.leb_le & ->)%assert_inv & E).
  apply bind_inv in E as (? & ? & (Hsz%Z.ltb_lt & ->)%assert_inv & E).
  apply bind_ok_inv in E as (? & ? & (-> & c & Hc)%from_io_inv%open_rw_inv & E).
  apply bind_ok_inv in E as (n & ? & Em%from_io_inv & E).
  apply (metadata_len_inv _ _ _ _ _ Hc) in Em as [-> ->].
  destruct (Z.ltb_spec (Z.of_nat (length c)) 256) as [|Hn]; [done|].
  apply bind_ok_inv in E as (m & ? & Em%from_io_inv & E).
  apply (mmap_mut_inv _ _ _ _ _ Hc) in Em as [-> ->]. cbn zeta in E.
  apply bind_ok_inv in E as ([] & ? & [Ev ->]%lift_inv & E).
  pose proof (header_of_bytes_ok c) as Hh.
  apply (validate_ok_iff _ Hh) in Ev as (Hmg & Hve & k & Hk & Hmk).
  destruct (capacity_nonneg_size _ k Hmk) as (Hp & Hp2 & H2k); [lia..|].
  assert (H264 : 2 ^ k < 2 ^ 64) by (apply Z.pow_lt_mono_r; lia).
  apply bind_inv in E as (cap & ? & Ec & E). apply arith_exact in Ec as (-> & -> & Hu);
    [|right; unfold capacity_mask, u64; lia].
  apply bind_inv in E as (slots & ? & Es & E). apply bind_inv in E as (ex & ? & Ee & E).
  destruct (Z.ltb_spec (Z.of_nat (length c)) ex) as [|Hex]; [done|]. injection E as <- <-.
  cbn [shm hdr shm_of_bytes ring fresh_ring r_capacity loan_depth claim_base] in *.
  unfold capacity_mask in *.
  apply arith_exact in Es as (-> & -> & _); [|destruct Hof; [by left|right; unfold u64; lia]].
  apply arith_exact in Ee as (-> & -> & _); [|destruct Hof; [by left|right; unfold u64; lia]].
  specialize (Hlen c Hc). rewrite Hc, shm_bytes_of_bytes by lia.
  change (word_at c 96 8) with (h_capacity_mask (header_of_bytes c)).
  split_and!; try done.
  - unfold header_valid. split_and!; [done|done|lia|lia].
  - unfold HEADER_SIZE in *.
    split; unfold mapping_len, HEADER_SIZE; cbn [shm shm_of_bytes hdr data ring fresh_ring
      r_capacity claim_base loan_depth]; rewrite ?length_drop; try done; try lia.
    + exists k. lia.
    + split; [|done]. apply Forall_replicate. unfold u64; lia.
    + split; [|done]. apply Forall_replicate. unfold u64; lia.
Qed.

(** Opening, up to the look at the header. *)
Lemma open_to_header path c fs :
  quiet path -> align_of T <= 64 -> 0 < size_of T -> fs !! path = Some c ->
  open_existing T path fs =
    (if Z.of_nat (length c) <? HEADER_SIZE
     then ret (Err (FileTooShort HEADER_SIZE (Z.of_nat (length c))))
     else
       let? _ := lift (validate (header_of_bytes c)) in
       let! cap := add64 (capacity_mask (header_of_bytes c) Acquire) 1 in
       let! slots := mul64 cap (size_of T) in
       let! expected := add64 HEADER_SIZE slots in
       if Z.of_nat (length c) <? expected
       then ret (Err (FileTooShort expected (Z.of_nat (length c))))
       else ret (Ok (mkSt (shm_of_bytes c) (fresh_ring cap path)))) fs.
Proof.
  intros Hq Ha Hsz Hc. unfold open_existing.
  rewrite (proj2 (Z.leb_le _ _) Ha), (proj2 (Z.ltb_lt _ _) Hsz).
  do 2 (erewrite bind_run by reflexivity).
  erewrite bind_ok_run by (by eapply from_io_ok, open_rw_run).
  erewrite bind_ok_run by (by eapply from_io_ok, metadata_len_run).
  destruct (_ <? HEADER_SIZE); [done|].
  by erewrite bind_ok_run by (by eapply from_io_ok, mmap_mut_run).
Qed.

(** The size computation past [u64]. *)
Lemma size_overflows {A} cap (k : Z -> M files A) fs :
  0 <= cap -> 2 ^ 64 <= HEADER_SIZE + cap * size_of T ->
  (let! slots := mul64 cap (size_of T) in let! expected := add64 HEADER_SIZE slots in k expected) fs =
    if overflow_checks then Panic else k (wrap64 (HEADER_SIZE + cap * size_of T)) fs.
Proof.
  intros Hc Hover. pose proof (size_of_range (T := T)). unfold mul64, add64. destruct overflow_checks eqn:Ho.
  - destruct (Z.lt_ge_cases (cap * size_of T) (2 ^ 64)) as [Hlt|Hge].
    + erewrite bind_run by (apply arith_run; unfold u64; nia).
      unfold bind at 1. by rewrite arith_overflows by (first [done|unfold u64; lia]).
    + unfold bind at 1. by rewrite arith_overflows by (first [done|unfold u64; lia]).
  - do 2 (erewrite bind_run by (by apply arith_unchecked)). f_equal. unfold wrap64.
    by rewrite Zplus_mod_idemp_r.
Qed.

Lemma open_rejects path fs :
  quiet path -> align_of T <= 64 -> 0 < size_of T ->
  (fs !! path = None -> open_existing T path fs = Ret (Err (Io ErrorKind.NotFound), fs)) /\
  (forall c, fs !! path = Some c ->
    let h := header_of_bytes c in
    let n := Z.of_nat (length c) in
    (n < HEADER_SIZE -> open_existing T path fs = Ret (Err (FileTooShort HEADER_SIZE n), fs)) /\
    (HEADER_SIZE <= n ->
      (h_magic h <> MAGIC ->
        open_existing T path fs = Ret (Err (HeaderCorruption "magic" MAGIC (h_magic h)), fs)) /\
      (h_magic h = MAGIC -> h_version h <> VERSION ->
        open_existing T path fs = Ret (Err (VersionMismatch VERSION (h_version h)), fs)) /\
      (h_magic h = MAGIC -> h_version h = VERSION ->
        h_capacity_mask h = 0 \/
          u64 (h_capacity_mask h + 1) /\ is_power_of_two (h_capacity_mask h + 1) = false ->
        open_existing T path fs =
          Ret (Err (HeaderCorruption "capacity_mask" 0 (h_capacity_mask h)), fs)) /\
      (h_magic h = MAGIC -> h_version h = VERSION -> h_capacity_mask h = u64_MAX ->
        open_existing T path fs = if overflow_checks then Panic
          else Ret (Err (HeaderCorruption "capacity_mask" 0 u64_MAX), fs)) /\
      (validate h = Ret (Ok tt) ->
        let expected := HEADER_SIZE + (h_capacity_mask h + 1) * size_of T in
        (n < expected -> expected < 2 ^ 64 ->
          open_existing T path fs = Ret (Err (FileTooShort expected n), fs)) /\
        (2 ^ 64 <= expected -> overflow_checks = true -> open_existing T path fs = Panic) /\
        (2 ^ 64 <= expected -> overflow_checks = false -> n < wrap64 expected ->
          open_existing T path fs = Ret (Err (FileTooShort (wrap64 expected) n), fs))))).
Proof.
  intros Hq Ha Hsz. split.
  { intros Hn. unfold open_existing.
    rewrite (proj2 (Z.leb_le _ _) Ha), (proj2 (Z.ltb_lt _ _) Hsz).
    do 2 (erewrite bind_run by reflexivity). eapply bind_err_run, from_io_err.
    unfold open_rw, io. by rewrite (q_open _ Hq), Hn. }
  intros c Hc h n. rewrite (open_to_header path c fs) by done. fold h n.
  split; [intros Hn; by rewrite (proj2 (Z.ltb_lt _ _) Hn)|].
  intros Hn. rewrite (proj2 (Z.ltb_ge _ _) Hn). split_and!.
  - intros E%Z.eqb_neq. apply bind_err_run with (s' := fs), lift_run. unfold validate. by rewrite E.
  - intros E1%Z.eqb_eq E2%Z.eqb_neq. apply bind_err_run with (s' := fs), lift_run.
    unfold validate. by rewrite E1, E2.
  - intros E1%Z.eqb_eq E2%Z.eqb_eq E3. apply bind_err_run with (s' := fs), lift_run.
    unfold validate. rewrite E1, E2. cbn [negb]. destruct E3 as [->|[Hu Hp]]; [done|].
    destruct (_ =? 0); [done|]. unfold add64. by rewrite arith_run, Hp by done.
  - intros E1%Z.eqb_eq E2%Z.eqb_eq E3. unfold validate. rewrite E1, E2, E3. cbn [negb].
    change (u64_MAX =? 0) with false. cbv iota. unfold add64. destruct overflow_checks eqn:Ho.
    + unfold bind_ok at 1, bind at 1, lift.
      by rewrite (arith_overflows (u64_MAX + 1)) by (first [done|unfold u64, u64_MAX; lia]).
    + apply bind_err_run with (s' := fs), lift_run. by rewrite arith_unchecked.
  - intros Hv expected. pose proof (header_of_bytes_ok c) as Hh.
    apply (validate_ok_iff _ Hh) in Hv as Hv'. destruct Hv' as (_ & _ & k & Hk & Em).
    destruct (capacity_nonneg_size _ k Em) as (Hp & Hp2 & H2k); [lia..|].
    unfold HEADER_SIZE in *. fold h in Hp, Hp2.
    erewrite bind_ok_run by (by apply lift_run). unfold capacity_mask.
    assert (2 ^ k <= 2 ^ 63) by (apply Z.pow_le_mono_r; lia).
    assert (Hm : u64 (h_capacity_mask h + 1)) by (unfold u64; lia). split_and!.
    + intros He1 He2. subst expected. erewrite bind_run by (by apply arith_run).
      erewrite bind_run by (apply arith_run; unfold u64; nia).
      erewrite bind_run by (apply arith_run; unfold u64; nia).
      by rewrite (proj2 (Z.ltb_lt _ _) He1).
    + intros He Ho. erewrite bind_run by (by apply arith_run). pose proof (fun f => size_overflows (A := result ShmRingError St) (h_capacity_mask h + 1) f fs) as Es.
      unfold HEADER_SIZE in Es. rewrite Es by (first [lia|done]). by rewrite Ho.
    + intros He Ho Hlt. erewrite bind_run by (by apply arith_run). pose proof (fun f => size_overflows (A := result ShmRingError St) (h_capacity_mask h + 1) f fs) as Es.
      unfold HEADER_SIZE in Es. rewrite Es by (first [lia|done]). rewrite Ho.
      fold expected. by rewrite (proj2 (Z.ltb_lt _ _) Hlt).
Qed.

(** C35: Every way a file can be unfit is reported with the typed error that
    says what was found, and the file is left alone; except that, with overflow
    checks, a mask of [u64::MAX] and a size past [u64] panic instead (without
    them the first is a bad mask, and the second wraps before it is compared
    with the length). *)
Theorem open_existing_rejects path fs :
  quiet path -> align_of T <= 64 -> 0 < size_of T ->
  (fs !! path = None -> open_existing T path fs = Ret (Err (Io ErrorKind.NotFound), fs)) /\
  (forall c, fs !! path = Some c ->
    let h := header_of_bytes c in
    let n := Z.of_nat (length c) in
    (n < HEADER_SIZE -> open_existing T path fs = Ret (Err (FileTooShort HEADER_SIZE n), fs)) /\
    (HEADER_SIZE <= n ->
      (h_magic h <> MAGIC ->
        open_existing T path fs = Ret (Err (HeaderCorruption "magic" MAGIC (h_magic h)), fs)) /\
      (h_magic h = MAGIC -> h_version h <> VERSION ->
        open_existing T path fs = Ret (Err (VersionMismatch VERSION (h_version h)), fs)) /\
      (h_magic h = MAGIC -> h_version h = VERSION ->
        h_capacity_mask h = 0 \/
          u64 (h_capacity_mask h + 1) /\ is_power_of_two (h_capacity_mask h + 1) = false ->
        open_existing T path fs =
          Ret (Err (HeaderCorruption "capacity_mask" 0 (h_capacity_mask h)), fs)) /\
      (h_magic h = MAGIC -> h_version h = VERSION -> h_capacity_mask h = u64_MAX ->
        open_existing T path fs = if overflow_checks then Panic
          else Ret (Err (HeaderCorruption "capacity_mask" 0 u64_MAX), fs)) /\
      (validate h = Ret (Ok tt) ->
        let expected := HEADER_SIZE + (h_capacity_mask h + 1) * size_of T in
        (n < expected -> expected < 2 ^ 64 ->
          open_existing T path fs = Ret (Err (FileTooShort expected n), fs)) /\
        (2 ^ 64 <= expected -> overflow_checks = true -> open_existing T path fs = Panic) /\
        (2 ^ 64 <= expected -> overflow_checks = false -> n < wrap64 expected ->
          open_existing T path fs = Ret (Err (FileTooShort (wrap64 expected) n), fs))))).
Proof. apply open_rejects. Qed.
End open_props.

(** ** An example

    A ring of four [u64] slots for two readers, used by the witnesses. *)

Lemma args_4_2 : create_args Z 4 2.
Proof.
  split; [by exists 2|..]; vm_compute; first [reflexivity|discriminate|split; discriminate].
Qed.
