(* ===== verification/Hostile.v ===== *)
(** Hostile: where the constructors' checks stop short.

    Five behaviours of the constructors that their documentation rules out:
    a capacity-1 ring that can be created and never opened; a slot array size
    that wraps in an unchecked build, so that a 256-byte file passes for a
    ring of [2^61] slots; a participant count no check looks at; cursors no
    check compares with [write_idx]; and a creation that fails half-way and
    leaves its path taken. *)

From S2P Require Import Prelude.
From S2P Require Import Error.
From S2P Require Import Header.
From S2P Require Import Pod.
From S2P Require Import Shm.
From S2P Require Import Fs.
From S2P Require Import Ring.
From S2P Require Import Spec.
From S2P Require Import Create.
Set Default Goal Selector "!".

Section capacity_one.
Context `{Profile} `{Os} `{Memmap2} `{!Memmap2Laws} {T : Type} `{Pod T} `{!PodLaws T}.

(** The mask of a one-slot ring is the one [validate] calls corrupt. *)
Lemma open_capacity_one path n (fs : files) :
  quiet path -> create_args T 1 n -> fs !! path = Some (shm_bytes (shm (fresh_st T path 1 n))) ->
  open_existing T path fs = Ret (Err (HeaderCorruption "capacity_mask" 0 0), fs).
Proof.
  intros Hq Ha Hf. pose proof (fresh_layout path 1 n Ha) as Hs. pose proof (lo_hdr _ Hs) as Hh.
  destruct (open_rejects path fs Hq (ca_align _ _ Ha) (ca_size _ _ Ha)) as [_ Hr].
  destruct (Hr _ Hf) as [_ Hr2]. clear Hr.
  assert (E : header_of_bytes (shm_bytes (shm (fresh_st T path 1 n))) = fresh_header 0 n).
  { unfold shm_bytes. by rewrite header_of_header_bytes. }
  rewrite E in Hr2. destruct Hr2 as (_ & _ & Hm & _).
  - rewrite shm_bytes_length by done. unfold mapping_len. lia.
  - apply Hm; [done|done|by left].
Qed.

(** [create_new] accepts capacity 1 (it is a power of two) and writes a ring
    whose mask is 0, which [open_existing] then rejects as corrupt: a ring
    just created cannot be opened. *)
Theorem capacity_one_cannot_be_opened path n (fs : files) :
  quiet path -> create_args T 1 n -> fs !! path = None -> others fs !! path = None ->
  exists s fs',
    create_new_with_readers T path 1 n fs = Ret (Ok s, fs') /\
    open_existing T path fs' = Ret (Err (HeaderCorruption "capacity_mask" 0 0), fs').
Proof.
  intros Hq Ha Hn Ho. eexists _, _. split; [by apply create_run|].
  apply (open_capacity_one path n); [done|done|by rewrite lookup_insert_eq].
Qed.
End capacity_one.

(** ** An unchecked build *)

Section release.
#[local] Existing Instance release_profile.
#[local] Existing Instance quiet_os.
#[local] Existing Instance plain_memmap2.
#[local] Existing Instance plain_memmap2_laws.

(** C40: With wrapping arithmetic, [capacity * size_of::<u64>()] is 0 for
    [2^61] slots: the file gets 256 bytes, both constructors accept it, and
    the very first push writes outside the mapping. *)
Theorem wrapped_size_unsound path :
  exists s fs',
    create_new_with_readers Z path (2 ^ 61) 1 (∅ : files) = Ret (Ok s, fs') /\
    open_existing Z path fs' = Ret (Ok s, fs') /\
    r_capacity (ring s) = 2 ^ 61 /\ mapping_len (shm s) = HEADER_SIZE /\
    forall v, try_push (T := Z) v s = Ub.
Proof.
  set (s := mkSt (mkShm (fresh_header (2 ^ 61 - 1) 1) []) (fresh_ring (2 ^ 61) path)).
  set (c := replicate 256 Byte.x00 : list byte).
  assert (Hh : header_ok (fresh_header (2 ^ 61 - 1) 1)).
  { apply fresh_header_ok; [unfold u64; lia|unfold MAX_READERS; lia]. }
  assert (Hq : quiet path) by (split; try done; intros x; by exists x).
  exists s, (<[path := shm_bytes (shm s)]> ∅). split_and!; [| |done|done|done].
  - unfold create_new_with_readers.
    change ((2 ^ 61 =? 0) || negb (is_power_of_two (2 ^ 61))) with false. cbn match.
    do 3 (erewrite bind_run by reflexivity).
    erewrite bind_run by (by apply path_free_run). cbn match.
    erewrite bind_run by reflexivity.
    erewrite bind_run by (by apply open_create_new_run). cbn match.
    do 2 (erewrite bind_run by reflexivity).
    erewrite bind_ok_run by (apply from_io_ok, (set_len_run path 256); [done|lia]).
    erewrite bind_ok_run by (apply from_io_ok, (mmap_mut_run path c); [done|by rewrite lookup_insert_eq]).
    do 2 (erewrite bind_run by reflexivity).
    change (Z.of_nat (length c) <? sizeof_RingHeader) with false. cbn match.
    unfold bind, put_contents, modify, ret. by rewrite insert_insert_eq.
  - rewrite (open_to_header path (shm_bytes (shm s))) by (by rewrite ?lookup_insert_eq).
    assert (E : header_of_bytes (shm_bytes (shm s)) = fresh_header (2 ^ 61 - 1) 1).
    { unfold shm_bytes. by rewrite header_of_header_bytes. }
    rewrite shm_bytes_length, E by done. change (mapping_len (shm s) <? HEADER_SIZE) with false.
    cbn match. erewrite bind_ok_run by reflexivity. do 3 (erewrite bind_run by reflexivity).
    change (mapping_len (shm s) <? _) with false. cbn match. unfold ret.
    by rewrite shm_of_shm_bytes.
Qed.
End release.

(** ** The participant count *)

Section num_readers.
Context `{Profile} `{Os} `{Memmap2} `{!Memmap2Laws} {T : Type} `{Pod T} `{!PodLaws T}.

(** No check looks at [num_readers]: a file whose count is past
    [MAX_READERS] opens, and then every push panics in the cursor scan and
    every pop by a reader past the cursor array panics too. *)
Theorem corrupt_num_readers_accepted path s (fs : files) :
  quiet path -> layout_ok T s -> mapping_len (shm s) < 2 ^ 63 ->
  header_valid (hdr (shm s)) (r_capacity (ring s)) ->
  fs !! path = Some (shm_bytes (shm s)) ->
  MAX_READERS < h_num_readers (hdr (shm s)) ->
  exists s', open_existing T path fs = Ret (Ok s', fs) /\ shm s' = shm s /\
    (forall v : T, try_push v s' = Panic) /\
    (forall i, MAX_READERS <= i < h_num_readers (hdr (shm s)) -> try_pop (T := T) i s' = Panic).
Proof.
  unfold MAX_READERS. intros Hq Hs Hl Hv Hf Hn. pose proof (lo_hdr s Hs) as Hh.
  eexists. split; [by apply open_run|]. split; [done|]. split.
  - intros v. unfold try_push. erewrite bind_run by reflexivity. cbn zeta.
    unfold bind, lift, slowest_read_idx. cbn [shm]. rewrite (ok_read_indices_len _ Hh).
    unfold num_readers. by destruct (Z.leb_spec (h_num_readers (hdr (shm s))) (Z.of_nat 8)); [lia|].
  - intros i Hi. unfold try_pop. erewrite bind_ok_run.
    2: { unfold check_reader. erewrite bind_run by reflexivity. cbn zeta. unfold num_readers.
         cbn [shm]. by destruct (Z.leb_spec (h_num_readers (hdr (shm s))) i); [lia|]. }
    erewrite bind_run by reflexivity. unfold bind, lift, index. cbn [ring fresh_ring loan_depth].
    destruct (Z.ltb_spec i 0); [lia|].
    by rewrite (proj2 (lookup_ge_None _ _)) by (rewrite length_replicate; lia).
Qed.

(** Once every participant's cursor is past [write_idx] (by up to [2^64] less
    the capacity), the unsigned lag of [try_push] underflows: a checked build
    panics on every push, an unchecked one refuses every push and stays as it
    is. *)
Theorem poisoned_cursors_stop_producer s (v : T) :
  layout_ok T s -> h_num_readers (hdr (shm s)) <= MAX_READERS ->
  h_write_idx (hdr (shm s)) < slowest s ->
  slowest s - h_write_idx (hdr (shm s)) <= 2 ^ 64 - r_capacity (ring s) ->
  try_push v s = if overflow_checks then Panic else Ret (false, s).
Proof.
  intros Hs Hn Hlt Hlag. destruct (lo_capacity s Hs) as (k & Hk & Ek).
  pose proof (Z.pow_pos_nonneg 2 k). unfold try_push.
  erewrite bind_run by reflexivity. cbn beta zeta.
  erewrite bind_run by (apply lift_run, slowest_read_idx_run; [apply Hs|done]).
  unfold bind at 1, sub64, arith, write_idx.
  rewrite (proj2 (Z.leb_gt 0 _)) by lia. cbn [andb].
  destruct overflow_checks; [done|]. cbn beta iota. unfold ret at 1. cbn beta iota.
  erewrite bind_run by reflexivity. set (w := h_write_idx _) in *.
  assert (E : wrap64 (w - slowest s) = w - slowest s + 2 ^ 64).
  { unfold wrap64. symmetry. apply (Z.mod_unique _ _ (-1)); lia. }
  rewrite E. by rewrite (proj2 (Z.leb_le _ _)) by lia.
Qed.
End num_readers.

Section stub.
Context `{Profile} `{Os} `{Memmap2} {T : Type} `{Pod T} `{!PodLaws T}.

(** A creation whose [set_len] fails returns the error but leaves the empty
    file behind: its own path is then taken. *)
Theorem failed_create_leaves_stub path capacity n e (fs : files) :
  open_fault path = None -> (forall len, set_len_fault len = Some e) ->
  create_args T capacity n -> fs !! path = None -> others fs !! path = None ->
  let fs' := <[path := []]> (others fs) in
  create_new_with_readers T path capacity n fs = Ret (Err (Io e), fs') /\
  create_new_with_readers T path capacity n fs' = Ret (Err AlreadyExists, fs').
Proof.
  intros Ho Hl Ha Hn Hn' fs'. pose proof (ca_fits _ _ Ha) as Hf. split.
  - pass_checks Ha. erewrite bind_run by (by apply path_free_run). cbn match.
    erewrite bind_run by reflexivity.
    assert (E : open_create_new path (others fs) = Ret (Ok tt, fs'))
      by (unfold open_create_new, io; by rewrite Ho, Hn').
    erewrite bind_run by exact E. cbn match. unfold HEADER_SIZE in *.
    erewrite bind_run by (apply arith_run; unfold u64; nia).
    erewrite bind_run by (apply arith_run; unfold u64; nia).
    eapply bind_err_run, from_io_err. unfold set_len, io.
    destruct (Z.leb_spec (2 ^ 63) (256 + capacity * size_of T)); [nia|]. by rewrite Hl.
  - apply create_exists; [done|]. unfold fs'. rewrite lookup_insert_eq. by eexists.
Qed.
End stub.
