(* ===== verification/RingProps.v ===== *)
(** RingProps: what the ring promises, for every sequence of operations.

    The theorems about a mapped ring in use, from the refinement of [Spec]:
    broadcast semantics, per-reader order, no overwrite before the slowest
    read, exact backpressure and recovery, and slot addressing. *)

From S2P Require Import Prelude.
From S2P Require Import Error.
From S2P Require Import Header.
From S2P Require Import Pod.
From S2P Require Import Shm.
From S2P Require Import Ring.
From S2P Require Import Spec.
From S2P Require Import Fs.
From S2P Require Import Create.
Set Default Goal Selector "!".

Section props.
Context `{Profile} {T : Type} `{Pod T} `{!PodLaws T}.
Implicit Types (s : St) (sp : spec T) (os : list (op T)).

(** A run of any operations on a ring that represents [sp]. *)
Lemma run_rep os s sp :
  rep s sp -> Forall op_ok os -> produced sp + Z.of_nat (length os) < 2 ^ 64 ->
  exists rs s', run os s = Ret (rs, s') /\ rs = (spec_run os sp).1 /\
    rep s' (spec_run os sp).2.
Proof. intros R Ho Hw. destruct (run_refines os s sp R Ho Hw) as (s' & E & R'). eauto. Qed.

(** C1: The ring implements the broadcast log: from a ring that represents a
    log, every sequence of pushes, pops, peeks and queries (any reader ids,
    valid or not) returns the answers the abstract log gives, with no panic
    and no undefined behaviour, and the ring still represents the log
    afterwards; the bound is on the number of messages ever written. *)
Theorem ring_refines_broadcast_log os s sp :
  rep s sp -> Forall op_ok os -> produced sp + Z.of_nat (length os) < 2 ^ 64 ->
  exists s', run os s = Ret ((spec_run os sp).1, s') /\ rep s' (spec_run os sp).2.
Proof. apply run_refines. Qed.

(** C4: Per-reader FIFO: over any run, what reader [i] is given is a prefix of
    the stream (what was in the log, then what was accepted, in order) from
    the reader's cursor on: no gap, no duplicate, no stale or foreign
    record, whatever the other readers do. *)
Theorem reader_fifo os s sp i :
  rep s sp -> Forall op_ok os -> produced sp + Z.of_nat (length os) < 2 ^ 64 -> 0 <= i ->
  exists rs s', run os s = Ret (rs, s') /\
    pops i os rs `prefix_of` drop (cursor sp i) (log sp ++ pushes os rs).
Proof.
  intros R Ho Hw Hi. destruct (run_rep os s sp R Ho Hw) as (rs & s' & E & -> & R').
  eexists _, _. split; [exact E|]. rewrite <- spec_run_log.
  apply spec_run_fifo; [by eapply rep_cursors_ok|done|done].
Qed.

(** C3: No overwrite before the slowest read: after any run, every index between
    a participant's cursor and the producer still holds, in the mapping,
    the record that was accepted at that index. *)
Theorem no_overwrite_before_slowest_read os s sp :
  rep s sp -> Forall op_ok os -> produced sp + Z.of_nat (length os) < 2 ^ 64 ->
  exists rs s', run os s = Ret (rs, s') /\
    forall i c j, 0 <= i < h_num_readers (hdr (shm s')) ->
      h_read_indices (hdr (shm s')) !! Z.to_nat i = Some c ->
      c <= j < h_write_idx (hdr (shm s')) ->
      (log sp ++ pushes os rs) !! Z.to_nat j = Some (slot_value s' j).
Proof.
  intros R Ho Hw. destruct (run_rep os s sp R Ho Hw) as (rs & s' & E & -> & R').
  eexists _, _. split; [exact E|]. rewrite <- spec_run_log. intros i c j Hi Hc Hj.
  rewrite (rep_readers _ _ R') in Hi. rewrite (rep_cursors _ _ R') in Hc.
  rewrite (rep_write_idx _ _ R') in Hj.
  destruct (rep_cursor _ _ _ R' Hi) as (c' & Hc' & _ & Hr & Hwin). simplify_eq.
  rewrite (rep_under_cursor s' _ j R') by lia. rewrite (rep_write_idx _ _ R').
  by destruct (Z.eqb_spec j (produced (spec_run os sp).2)); [lia|].
Qed.

(** An operation that is not a pop by reader [i] leaves its cursor. *)
Definition pops_of (i : Z) (o : op T) : bool := match o with OPop j => j =? i | _ => false end.

Lemma spec_exec_same_cursor i sp o :
  0 <= i -> op_ok o -> pops_of i o = false -> cursors (spec_exec o sp).2 !! Z.to_nat i = cursors sp !! Z.to_nat i.
Proof.
  intros Hi Ho Hn. destruct o as [v|j|j|j|j| | | |]; simpl in Ho, Hn |- *; try done.
  - unfold spec_push. by destruct (_ <=? _).
  - apply Z.eqb_neq in Hn. unfold spec_pop. destruct (spec_check sp j); [|done].
    destruct (negb _); [done|]. destruct (log sp !! _); [|done]. cbn [cursors snd].
    rewrite list_lookup_insert_ne by lia. done.
Qed.

Lemma spec_run_same_cursor i os sp :
  0 <= i -> Forall op_ok os -> forallb (fun o => negb (pops_of i o)) os = true ->
  cursors (spec_run os sp).2 !! Z.to_nat i = cursors sp !! Z.to_nat i.
Proof.
  intros Hi Ho. revert sp. induction Ho as [|o os Ho _ IH]; intros sp Hn; [done|].
  simpl in Hn. apply andb_prop in Hn as [Ho1 Hn]. apply negb_true_iff in Ho1. simpl.
  pose proof (spec_exec_same_cursor i sp o Hi Ho Ho1) as E. destruct (spec_exec o sp) as [r sp1].
  specialize (IH sp1 Hn). destruct (spec_run os sp1) as [rs sp2]. simpl in *. by rewrite IH.
Qed.

Lemma spec_exec_shape sp o :
  n_readers (spec_exec o sp).2 = n_readers sp /\ cap (spec_exec o sp).2 = cap sp.
Proof.
  destruct o; simpl; try done.
  - unfold spec_push. by destruct (_ <=? _).
  - unfold spec_pop. destruct (spec_check sp _); [|done]. destruct (negb _); [done|]. by destruct (log sp !! _).
Qed.

Lemma spec_run_shape os sp :
  n_readers (spec_run os sp).2 = n_readers sp /\ cap (spec_run os sp).2 = cap sp.
Proof.
  revert sp. induction os as [|o os IH]; intros sp; simpl; [done|].
  pose proof (spec_exec_shape sp o) as E. destruct (spec_exec o sp) as [r sp1].
  specialize (IH sp1). destruct (spec_run os sp1) as [rs sp2]. simpl in *. destruct E, IH. split; congruence.
Qed.

(** A reader's record, across a run in which it does not pop. *)
Lemma record_stays os s sp s' i c v :
  rep s sp -> rep s' (spec_run os sp).2 -> Forall op_ok os -> 0 <= i < n_readers sp ->
  forallb (fun o => negb (pops_of i o)) os = true ->
  cursors sp !! Z.to_nat i = Some c -> log sp !! Z.to_nat c = Some v ->
  h_read_indices (hdr (shm s')) !! Z.to_nat i = Some c /\ c <> h_write_idx (hdr (shm s')) /\
  slot_off T s' c = slot_off T s c /\ slot_value s' c = v.
Proof.
  intros R R' Ho Hi Hn Hc Hv. pose proof (spec_run_same_cursor i os sp ltac:(lia) Ho Hn) as Ec.
  destruct (spec_run_shape os sp) as [En Ecap]. rewrite Hc in Ec.
  destruct (rep_cursor s' _ i R') as (c' & Hc' & _ & Hr' & Hwin'); [lia|].
  assert (c' = c) as -> by congruence.
  assert (Hv' : log (spec_run os sp).2 !! Z.to_nat c = Some v)
    by (rewrite spec_run_log; by apply lookup_app_l_Some).
  rewrite (rep_under_cursor s' _ c R') in Hv' by done.
  destruct (Z.eqb_spec c (h_write_idx (hdr (shm s')))) as [|Hne]; [done|]. simplify_eq.
  split_and!; [by rewrite (rep_cursors _ _ R')|done| |done].
  unfold slot_off. by rewrite (rep_cap _ _ R'), (rep_cap _ _ R), Ecap.
Qed.

(** C21: The pointer [peek] hands out stays valid until that reader pops:
    whatever the producer and the other readers do in between, reading
    through it stays inside the mapping and gives the record under the
    reader's cursor, the one its next pop returns. *)
Theorem peek_pointer_stays_valid os s sp i p :
  rep s sp -> Forall op_ok os -> produced sp + Z.of_nat (length os) < 2 ^ 64 -> 0 <= i ->
  peek T i s = Ret (Ok (Some p), s) -> forallb (fun o => negb (pops_of i o)) os = true ->
  exists rs s' v, run os s = Ret (rs, s') /\ log sp !! cursor sp i = Some v /\
    read_volatile p s' = Ret (v, s') /\ peek T i s' = Ret (Ok (Some p), s').
Proof.
  intros R Ho Hw Hi Hpeek Hn. destruct (run_rep os s sp R Ho Hw) as (rs & s' & E & -> & R').
  destruct (Z.lt_ge_cases i (n_readers sp)) as [Hlt|Hge].
  2: { unfold peek in Hpeek. erewrite bind_err_run in Hpeek; [done|].
       rewrite check_reader_run by apply (rep_proto _ _ R). rewrite (rep_readers _ _ R).
       by destruct (Z.leb_spec (n_readers sp) i); [|lia]. }
  destruct (rep_cursor s sp i R ltac:(lia)) as (c & Hc & Ht & Hr & Hwin).
  rewrite (peek_run s i c) in Hpeek by
    (first [apply R|by eapply rep_proto|rewrite (rep_readers _ _ R); lia|by rewrite (rep_cursors _ _ R)]).
  rewrite (rep_write_idx _ _ R) in Hpeek.
  destruct (Z.eqb_spec c (produced sp)) as [|Hne]; [done|]. injection Hpeek as <-.
  destruct (lookup_lt_is_Some_2 (log sp) (Z.to_nat c)) as [v Hv]; [unfold produced in *; lia|].
  destruct (record_stays os s sp s' i c v R R' Ho ltac:(lia) Hn Hc Hv) as (Hc' & Hne' & Eo & Ev).
  eexists _, s', v. split; [exact E|]. split; [unfold cursor; by rewrite Ht|]. rewrite <- Eo. split.
  - rewrite read_volatile_run by apply R'. by rewrite Ev.
  - rewrite (peek_run s' i c) by
      (first [apply R'|by eapply rep_proto|done|rewrite (rep_readers _ _ R'), (proj1 (spec_run_shape os sp)); lia]).
    by rewrite (proj2 (Z.eqb_neq _ _) Hne').
Qed.

Lemma push_backpressure s sp v :
  rep s sp -> pod_ok v -> u64 (produced sp + 1) ->
  exists lag b s', slowest_lag s = Ret (lag, s) /\ 0 <= lag <= r_capacity (ring s) /\
    try_push v s = Ret (b, s') /\ (b = false <-> lag = r_capacity (ring s)) /\
    (b = false -> s' = s) /\
    (b = true -> slowest_lag s' = Ret (lag + 1, s') /\
      h_total_written (hdr (shm s')) = h_total_written (hdr (shm s)) + 1).
Proof.
  intros R Hv Hw. pose proof (rep_layout _ _ R) as Hs. pose proof (rep_proto _ _ R) as Hp.
  pose proof (slowest_window s (lo_hdr s Hs) Hp) as Hwin.
  destruct (push_refines s sp v R Hv Hw) as (s' & E & R').
  exists (h_write_idx (hdr (shm s)) - slowest s), (spec_push v sp).1, s'.
  split; [by apply slowest_lag_run|]. split; [done|]. split; [done|].
  rewrite (rep_write_idx _ _ R), (rep_slowest _ _ R), (rep_cap _ _ R) in *.
  rewrite try_push_run in E by (first [done|by rewrite (rep_write_idx _ _ R)]).
  rewrite (rep_write_idx _ _ R), (rep_slowest _ _ R), (rep_cap _ _ R) in E.
  unfold spec_push in *.
  destruct (Z.leb_spec (cap sp) (produced sp - spec_slowest sp)); cbn [fst snd] in *; simplify_eq.
  - split; [split; [lia|done]|done].
  - split; [split; [done|lia]|split; [done|intros _]].
    rewrite (slowest_lag_run _ (rep_layout _ _ R') (rep_proto _ _ R')).
    rewrite (rep_write_idx _ _ R'), (rep_slowest _ _ R'), (rep_total _ _ R'), (rep_total _ _ R).
    unfold produced, spec_slowest; cbn [log n_readers cursors]. rewrite length_app. simpl.
    split; [do 2 f_equal; lia|lia].
Qed.

(** C25: Backpressure is exact: the slowest participant never lags by more than
    the capacity; a push is refused exactly when that lag is the capacity,
    and a refused push writes nothing at all; an accepted one raises the
    lag and [total_written] by one. *)
Theorem backpressure_exact s sp v :
  rep s sp -> pod_ok v -> u64 (produced sp + 1) ->
  exists lag b s', slowest_lag s = Ret (lag, s) /\ 0 <= lag <= r_capacity (ring s) /\
    try_push v s = Ret (b, s') /\ (b = false <-> lag = r_capacity (ring s)) /\
    (b = false -> s' = s) /\
    (b = true -> slowest_lag s' = Ret (lag + 1, s') /\
      h_total_written (hdr (shm s')) = h_total_written (hdr (shm s)) + 1).
Proof. apply push_backpressure. Qed.

(** [slot_ptr] for any index whatever: an address behind the header, aligned,
    with the whole record inside the mapping; two indices less than a
    capacity apart get disjoint slots. *)
Theorem slot_addressing s :
  layout_ok T s ->
  (forall idx, exists off, slot_ptr T idx s = Ret (off, s) /\
    HEADER_SIZE <= off /\ off + size_of T <= mapping_len (shm s) /\ off mod align_of T = 0) /\
  (forall i j oi oj, slot_ptr T i s = Ret (oi, s) -> slot_ptr T j s = Ret (oj, s) ->
    i <> j -> Z.abs (i - j) < r_capacity (ring s) ->
    oi + size_of T <= oj \/ oj + size_of T <= oi).
Proof.
  intros Hs. split.
  - intros idx. destruct (slot_off_bounds s idx Hs) as (H1 & H2 & H3).
    exists (slot_off T s idx). by rewrite slot_ptr_run.
  - intros i j oi oj. rewrite !slot_ptr_run by done. intros [= <-] [= <-] Hne Hd.
    apply slot_off_disjoint; [done|]. intros E. pose proof (capacity_pos s Hs).
    apply mod_window_inj in E; lia.
Qed.

(** ** Recovery *)

(** Pops keep the log and the ring's shape, and never move a cursor back. *)
Definition popped_from sp sp' : Prop :=
  log sp' = log sp /\ n_readers sp' = n_readers sp /\ cap sp' = cap sp /\ gates sp' = gates sp.

Lemma spec_pop_step sp i c :
  0 <= i < n_readers sp -> cursors sp !! Z.to_nat i = Some c -> 0 <= c ->
  gates sp !!! Z.to_nat i = 0 ->
  popped_from sp (spec_pop i sp).2 /\
  cursors (spec_pop i sp).2 =
    (if c <? produced sp then <[Z.to_nat i := c + 1]> (cursors sp) else cursors sp).
Proof.
  intros Hi Hc H0c Hg. unfold spec_pop.
  rewrite (spec_check_ok sp i c), Hg by (first [done|by apply list_lookup_total_correct]).
  cbn [negb Z.eqb]. unfold produced.
  destruct (log sp !! Z.to_nat c) as [x|] eqn:E.
  - apply lookup_lt_Some in E. by rewrite (proj2 (Z.ltb_lt _ _)) by lia.
  - apply lookup_ge_None in E. by rewrite (proj2 (Z.ltb_ge _ _)) by lia.
Qed.

Lemma spec_pop_cursor sp i ci j c :
  0 <= i < n_readers sp -> cursors sp !! Z.to_nat i = Some ci -> 0 <= ci ->
  gates sp !!! Z.to_nat i = 0 -> cursors sp !! j = Some c ->
  exists c1, cursors (spec_pop i sp).2 !! j = Some c1 /\ c <= c1 /\
    (Z.of_nat j = i -> Z.min (c + 1) (produced sp) <= c1).
Proof.
  intros Hi Hci Hz0 Hg Hc. destruct (spec_pop_step sp i ci Hi Hci Hz0 Hg) as [_ ->].
  destruct (Z.ltb_spec ci (produced sp)).
  - destruct (decide (Z.to_nat i = j)) as [<-|Hne].
    + rewrite list_lookup_insert_eq by (by eapply lookup_lt_Some). simplify_eq.
      eexists. split; [done|lia].
    + rewrite list_lookup_insert_ne by done. exists c. split; [done|split; [lia|]]. intros <-. lia.
  - exists c. split; [done|split; [lia|]]. intros <-. rewrite Nat2Z.id in Hci. simplify_eq. lia.
Qed.

Lemma spec_pops_advance rds sp :
  Forall (fun i => 0 <= i < n_readers sp) rds ->
  (forall i, 0 <= i < n_readers sp -> gates sp !!! Z.to_nat i = 0) -> cursors_ok sp ->
  let sp' := (spec_run (OPop <$> rds) sp).2 in
  popped_from sp sp' /\
  forall j c, cursors sp !! j = Some c ->
    exists c', cursors sp' !! j = Some c' /\ c <= c' /\
      (Z.of_nat j ∈ rds -> Z.min (c + 1) (produced sp) <= c').
Proof.
  revert sp. induction rds as [|i rds IH]; intros sp His Hg Hok; cbn zeta.
  { split; [done|]. intros j c Hc. exists c. split; [done|split; [lia|]]. intros Hin; inversion Hin. }
  apply Forall_cons_1 in His as [Hi His]. pose proof Hok as [Hl Hpos].
  destruct (lookup_lt_is_Some_2 (cursors sp) (Z.to_nat i)) as [ci Hci]; [lia|].
  assert (Hz0 : 0 <= ci) by exact (Forall_lookup_1 _ _ _ _ Hpos Hci).
  destruct (spec_pop_step sp i ci Hi Hci Hz0 (Hg i Hi)) as [(El & En & Ec & Eg) _].
  pose proof (fun j c => spec_pop_cursor sp i ci j c Hi Hci Hz0 (Hg i Hi)) as Hstep.
  destruct (spec_exec_cursors sp (OPop i) Hok (proj1 Hi)) as [_ Hok1].
  cbn [fmap list_fmap spec_run spec_exec] in *. destruct (spec_pop i sp) as [r sp1]; cbn [snd] in *.
  specialize (IH sp1). rewrite En, Eg in IH.
  destruct (IH His Hg Hok1) as [(El2 & En2 & Ec2 & Eg2) Hcur].
  destruct (spec_run (OPop <$> rds) sp1) as [rs sp2]; cbn [snd] in *.
  split; [unfold popped_from; split_and!; congruence|]. intros j c Hc.
  assert (Ep : produced sp1 = produced sp) by (unfold produced; by rewrite El).
  destruct (Hstep j c Hc) as (c1 & Hc1 & Hle & Hown).
  destruct (Hcur j c1 Hc1) as (c2 & Hc2 & Hle2 & Hin).
  exists c2. split; [done|split; [lia|]].
  rewrite elem_of_cons. intros [E|Hin']; [specialize (Hown E)|specialize (Hin Hin')]; lia.
Qed.

(** A full ring stalls and recovers exactly when its readers advance: with no
    open loan, a push is refused with no effect, and once each participant
    has popped once the next push is accepted. *)
Theorem backpressure_recovers s sp v :
  rep s sp -> pod_ok v -> produced sp + MAX_READERS < 2 ^ 64 ->
  loan_depth (ring s) = replicate 8 0 ->
  slowest_lag s = Ret (r_capacity (ring s), s) ->
  exists s1 rs s2 s3,
    try_push v s = Ret (false, s1) /\ s1 = s /\
    run (OPop <$> seqZ 0 (h_num_readers (hdr (shm s)))) s = Ret (rs, s2) /\
    try_push v s2 = Ret (true, s3).
Proof.
  intros R Hv Hw Hz Hlag. pose proof (rep_readers_range _ _ R) as Hn. unfold MAX_READERS in *.
  assert (Hp0 : 0 <= produced sp) by (unfold produced; lia).
  assert (Hu : u64 (produced sp + 1)) by (unfold u64; lia).
  destruct (push_backpressure s sp v R Hv Hu) as (lag & b & s1 & El & _ & Ep & [_ Hb] & Hsame & _).
  rewrite Hlag in El. injection El as <-. specialize (Hb eq_refl) as ->.
  rewrite (rep_readers _ _ R). set (os := OPop <$> seqZ 0 (n_readers sp)).
  assert (Hos : Forall op_ok os).
  { apply Forall_fmap, Forall_seqZ. intros i Hi. simpl. lia. }
  destruct (run_refines os s sp R Hos) as (s2 & E2 & R2).
  { unfold os. rewrite length_fmap, length_seqZ. lia. }
  destruct (spec_pops_advance (seqZ 0 (n_readers sp)) sp) as [(El & En & Ec & Eg) Hadv].
  { apply Forall_seqZ. intros i Hi. lia. }
  { intros i Hi. rewrite <- (rep_gates _ _ R), Hz. apply lookup_total_replicate_2. lia. }
  { by eapply rep_cursors_ok. }
  fold os in El, En, Ec, Eg, Hadv. set (sp2 := (spec_run os sp).2) in *.
  assert (Ep2 : produced sp2 = produced sp) by (unfold produced; by rewrite El).
  destruct (push_refines s2 sp2 v R2 Hv) as (s3 & E3 & _); [by rewrite Ep2|].
  exists s1, (spec_run os sp).1, s2, s3. split; [done|]. split; [by apply Hsame|]. split; [done|].
  rewrite E3. unfold spec_push. rewrite Ep2, Ec. destruct (Z.leb_spec (cap sp) (produced sp - spec_slowest sp2)); [|done].
  exfalso. pose proof (slowest_in s2 (lo_hdr _ (rep_layout _ _ R2)) (po_readers _ (rep_proto _ _ R2))) as Hin.
  rewrite (rep_slowest _ _ R2) in Hin. unfold participants in Hin.
  rewrite (rep_readers _ _ R2), (rep_cursors _ _ R2), En in Hin.
  apply elem_of_take_lookup in Hin as (j & Hj & Hcj).
  destruct (rep_cursor s sp (Z.of_nat j) R) as (c & Hc & _ & Hr & Hwin); [lia|].
  rewrite Nat2Z.id in Hc. destruct (Hadv j c Hc) as (c' & Hc' & _ & Hmin). simplify_eq.
  specialize (Hmin ltac:(apply elem_of_seqZ; lia)).
  pose proof (capacity_pos s (rep_layout _ _ R)) as Hcap. rewrite (rep_cap _ _ R) in Hcap. lia.
Qed.
End props.

(** ** Witnesses

    A fresh ring of four [u64] slots and two readers. *)

Definition demo : St := fresh_st Z "demo.ring" 4 2.
Definition demo_ops : list (op Z) :=
  [OPush 7; OPush 8; OPop 0; OPush 9; OPush 10; OPush 11; OPop 1; OPush 12; OPeek 0; OPop 0;
   OLen 1; OPop 5; OSlowestLag].

Lemma demo_rep : rep demo (empty_log Z 4 2).
Proof. apply fresh_rep, args_4_2. Qed.

Lemma demo_ops_ok : Forall op_ok demo_ops.
Proof. repeat constructor; simpl; unfold u64; lia. Qed.

Lemma ring_refines_broadcast_log_witness :
  exists s', run (H := dev_profile) demo_ops demo =
    Ret ([RPush true; RPush true; RRecord (Ok (Some 7)); RPush true; RPush true; RPush false;
          RRecord (Ok (Some 7)); RPush true; RRecord (Ok (Some 8)); RRecord (Ok (Some 8));
          RLen (Ok 4); RRecord (Err (InvalidReaderId 5 1)); RNum 4], s').
Proof.
  destruct (ring_refines_broadcast_log (H := dev_profile) demo_ops demo (empty_log Z 4 2) demo_rep
    demo_ops_ok) as (s' & E & _); [vm_compute; reflexivity|]. exists s'. exact E.
Defined.

Lemma reader_fifo_witness :
  exists rs s', run (H := dev_profile) demo_ops demo = Ret (rs, s') /\
    pops 0 demo_ops rs `prefix_of` pushes demo_ops rs.
Proof.
  apply (reader_fifo (H := dev_profile) demo_ops demo (empty_log Z 4 2) 0 demo_rep demo_ops_ok);
    vm_compute; first [reflexivity|discriminate].
Defined.

Lemma no_overwrite_before_slowest_read_witness :
  exists rs s', run (H := release_profile) demo_ops demo = Ret (rs, s') /\
    forall i c j, 0 <= i < h_num_readers (hdr (shm s')) ->
      h_read_indices (hdr (shm s')) !! Z.to_nat i = Some c ->
      c <= j < h_write_idx (hdr (shm s')) ->
      pushes demo_ops rs !! Z.to_nat j = Some (slot_value s' j).
Proof.
  apply (no_overwrite_before_slowest_read (H := release_profile) demo_ops demo (empty_log Z 4 2)
    demo_rep demo_ops_ok). vm_compute; reflexivity.
Defined.

Lemma backpressure_exact_witness :
  exists lag b s', slowest_lag demo = Ret (lag, demo) /\ 0 <= lag <= 4 /\
    try_push (H := dev_profile) 5 demo = Ret (b, s') /\ (b = false <-> lag = 4).
Proof.
  destruct (backpressure_exact (H := dev_profile) demo (empty_log Z 4 2) 5 demo_rep)
    as (lag & b & s' & H1 & H2 & H3 & H4 & _); [unfold pod_ok, u64_pod, u64; lia|vm_compute; split; congruence|].
  by exists lag, b, s'.
Defined.

Lemma slot_addressing_witness :
  exists off, slot_ptr (H := dev_profile) Z 1000003 demo = Ret (off, demo) /\
    HEADER_SIZE <= off /\ off + 8 <= 288 /\ off mod 8 = 0.
Proof. apply (slot_addressing (H := dev_profile) demo (rep_layout _ _ demo_rep)). Defined.

(** Four pushes fill the ring; the fifth waits for both readers. *)
Lemma backpressure_recovers_witness :
  exists s rs s2 s3,
    run (H := dev_profile) (OPush <$> [1; 2; 3; 4]) demo =
      Ret ([RPush true; RPush true; RPush true; RPush true], s) /\
    try_push (H := dev_profile) 5 s = Ret (false, s) /\
    run (T := Z) (H := dev_profile) [OPop 0; OPop 1] s = Ret (rs, s2) /\
    try_push (H := dev_profile) 5 s2 = Ret (true, s3).
Proof.
  destruct (run_refines (H := dev_profile) (OPush <$> [1; 2; 3; 4]) demo (empty_log Z 4 2) demo_rep)
    as (s & E & R).
  { repeat constructor; simpl; unfold u64; lia. }
  { vm_compute; reflexivity. }
  destruct (backpressure_recovers (H := dev_profile) s _ 5 R) as (s1 & rs & s2 & s3 & H1 & -> & H2 & H3).
  - simpl; unfold u64; lia.
  - vm_compute; reflexivity.
  - rewrite (rep_gates _ _ R). vm_compute; reflexivity.
  - rewrite (slowest_lag_run _ (rep_layout _ _ R) (rep_proto _ _ R)).
    rewrite (rep_write_idx _ _ R), (rep_slowest _ _ R), (rep_cap _ _ R). vm_compute; reflexivity.
  - rewrite (rep_readers _ _ R) in H2. exists s, rs, s2, s3.
    split; [exact E|split; [exact H1|split; [exact H2|exact H3]]].
Defined.

(** A record is peeked; the producer pushes twice and reader 1 pops. *)
Lemma peek_pointer_stays_valid_witness :
  exists s rs s',
    run (H := dev_profile) [OPush 10] demo = Ret ([RPush true], s) /\
    peek (H := dev_profile) Z 0 s = Ret (Ok (Some 256), s) /\
    run (H := dev_profile) [OPush 11; OPop 1; OPush 12] s = Ret (rs, s') /\
    exists v, read_volatile (T := Z) 256 s' = Ret (v, s').
Proof.
  destruct (run_refines (H := dev_profile) [OPush 10] demo (empty_log Z 4 2) demo_rep) as (s & E & R).
  { repeat constructor; simpl; unfold u64; lia. }
  { vm_compute; reflexivity. }
  assert (Hp : peek (H := dev_profile) Z 0 s = Ret (Ok (Some 256), s)).
  { assert (Hx : match run (H := dev_profile) (T := Z) [OPush 10] demo with
      Ret (_, x) => peek (H := dev_profile) Z 0 x = Ret (Ok (Some 256), x) | _ => True end)
      by (vm_compute; reflexivity).
    rewrite E in Hx. exact Hx. }
  destruct (peek_pointer_stays_valid (H := dev_profile) [OPush 11; OPop 1; OPush 12] s _ 0 256 R)
    as (rs & s' & v & E' & _ & Hv & _).
  - repeat constructor; simpl; unfold u64; lia.
  - vm_compute; reflexivity.
  - lia.
  - exact Hp.
  - reflexivity.
  - exists s, rs, s'. split; [exact E|split; [exact Hp|split; [exact E'|exists v; exact Hv]]].
Defined.
