(* ===== verification/Loan.v ===== *)
(** Loan: zero-copy loans, [src/src/loan.rs].

    A [Loan] borrows the handle that issued it, so the handle's state is the
    [ring] part of [St] and the loan itself keeps the reader, the stream index,
    the slot's address in the mapping and the [resolved] flag.  [claim]'s
    compare-and-swap loop runs against a list of attempts: what other threads
    of the process and other processes do between the loads and the exchange,
    and whether a weak exchange fails spuriously. *)

From S2P Require Import Prelude.
From S2P Require Import Error.
From S2P Require Import Header.
From S2P Require Import Pod.
From S2P Require Import Shm.
From S2P Require Import Ring.
From S2P Require Import Spec.
Set Default Goal Selector "!".

Record Loan := mkLoan {
  l_reader_id : Z;
  l_index : Z;
  l_ptr : Z;
  l_resolved : bool;
}.

Record attempt := mkAttempt {
  interference : St -> St;
  spurious : bool;
}.
Definition clean : attempt := mkAttempt id false.
Definition spurious_failure : attempt := mkAttempt id true.

Section loan.
Context `{Profile} (T : Type) `{Pod T}.

(** The atomics of the handle: [fetch_add] and [fetch_sub] wrap. *)
Definition depth_fetch_add (i d : Z) : M St unit :=
  let! s := get in
  let! n := lift (index (loan_depth (ring s)) i) in
  let! l := lift (index_set (loan_depth (ring s)) i (wrap64 (n + d))) in
  modify (fun s => with_loan_depth s l).

Definition claim_base_load (i : Z) : M St Z :=
  let! s := get in lift (index (claim_base (ring s)) i).

Definition claim_base_cas_weak (spurious : bool) (i old new : Z) : M St bool :=
  let! b := claim_base_load i in
  if spurious || negb (b =? old) then ret false else
  let! s := get in
  let! l := lift (index_set (claim_base (ring s)) i new) in
  modify (fun s => with_claim_base s l) ;!
  ret true.

Definition claim_base_fetch_min (i v : Z) : M St unit :=
  let! b := claim_base_load i in
  let! s := get in
  let! l := lift (index_set (claim_base (ring s)) i (Z.min b v)) in
  modify (fun s => with_claim_base s l).

(** The loop of [claim]; [None] when the attempts run out. *)
Fixpoint claim_loop (attempts : list attempt) (reader_id : Z) : M St (option (option Loan)) :=
  match attempts with
  | [] => ret None
  | a :: attempts =>
      let! hdr := hdr_ in
      let w := write_idx hdr Acquire in
      let! cursor := lift (read_idx hdr reader_id Acquire) in
      let! base := claim_base_load reader_id in
      let idx := Z.max base cursor in
      if w <=? idx then ret (Some None) else
      let! new := add64 idx 1 in
      modify (interference a) ;!
      let! swapped := claim_base_cas_weak (spurious a) reader_id base new in
      if (swapped : bool) then
        let! ptr := slot_ptr T idx in
        ret (Some (Some (mkLoan reader_id idx ptr false)))
      else claim_loop attempts reader_id
  end.

Definition claim (attempts : list attempt) (reader_id : Z) :
    M St (option (result ShmRingError (option Loan))) :=
  let! checked := check_reader reader_id in
  match checked with
  | Err e => ret (Some (Err e))
  | Ok _ =>
      depth_fetch_add reader_id 1 ;!
      let! loan := claim_loop attempts reader_id in
      match loan with
      | None => ret None
      | Some None => depth_fetch_add reader_id (-1) ;! ret (Some (Ok None))
      | Some (Some l) => ret (Some (Ok (Some l)))
      end
  end.

Definition resolve (l : Loan) : M St Loan :=
  depth_fetch_add (l_reader_id l) (-1) ;!
  ret (mkLoan (l_reader_id l) (l_index l) (l_ptr l) true).

(** [commit(&mut self)]: the loan stays with the caller. *)
Definition commit (l : Loan) : M St (result ShmRingError unit * Loan) :=
  if l_resolved l then ret (Ok tt, l) else
  let! hdr := hdr_ in
  let! cursor := lift (read_idx hdr (l_reader_id l) Acquire) in
  if negb (cursor =? l_index l) then ret (Err (LoanNotAtCursor (l_index l) cursor), l) else
  let! i1 := add64 (l_index l) 1 in
  let! hdr := lift (set_read_idx hdr (l_reader_id l) i1 Release) in
  put_hdr hdr ;!
  let! l := resolve l in
  ret (Ok tt, l).

Definition drop_ (l : Loan) : M St unit :=
  if l_resolved l then ret tt else
  let! hdr := hdr_ in
  let! cursor := lift (read_idx hdr (l_reader_id l) Acquire) in
  (if cursor =? l_index l then
     let! i1 := add64 (l_index l) 1 in
     let! hdr := lift (set_read_idx hdr (l_reader_id l) i1 Release) in
     put_hdr hdr
   else ret tt) ;!
  resolve l ;! ret tt.

(** [abort(mut self)]: rewinds the claim pipeline, then the value is dropped. *)
Definition abort (l : Loan) : M St unit :=
  let! l :=
    (if negb (l_resolved l) then
       claim_base_fetch_min (l_reader_id l) (l_index l) ;! resolve l
     else ret l) in
  drop_ l.

(** [index], [reader_id], [as_bytes] and the [Deref] of a loan. *)
Definition loan_index (l : Loan) : Z := l_index l.
Definition loan_reader_id (l : Loan) : Z := l_reader_id l.

Definition as_bytes (l : Loan) : M St (list byte) := fun s =>
  if accessible (shm s) (l_ptr l) (size_of T) 1
  then Ret (bytes_at T (shm s) (l_ptr l), s) else Ub.

Definition deref (l : Loan) : M St T := read_volatile (l_ptr l).

End loan.
