(* ===== verification/LoanInv.v ===== *)
(** LoanInv: the invariant of a handle with open loans.

    [loans_ok s sp L]: the mapping represents the log [sp], and [L] are the
    unresolved loans the handle has issued: each views the slot of an index
    between its reader's cursor and the claim pipeline's head, no two view
    the same index of the same reader, and the loan gate of each reader counts
    its loans.  The lemmas say how the primitive updates of [Loan] (raising the
    gate, releasing it, advancing a cursor, rewinding the pipeline) act on it. *)

From S2P Require Import Prelude.
From S2P Require Import Error.
From S2P Require Import Header.
From S2P Require Import Pod.
From S2P Require Import Shm.
From S2P Require Import Ring.
From S2P Require Import Spec.
From S2P Require Import Loan.
Set Default Goal Selector "!".

#[export] Instance Loan_eq_dec : EqDecision Loan.
Proof. solve_decision. Defined.

Definition position (l : Loan) : Z * Z := (l_reader_id l, l_index l).

Definition loans_of (i : Z) (L : list Loan) : list Loan := filter (fun l => l_reader_id l = i) L.
Definition live_count (i : Z) (L : list Loan) : Z := Z.of_nat (length (loans_of i L)).

Definition base (s : St) (i : Z) : Z := claim_base (ring s) !!! Z.to_nat i.
Definition depth (s : St) (i : Z) : Z := loan_depth (ring s) !!! Z.to_nat i.

Section inv.
Context {T : Type} `{Pod T}.

Definition cur (sp : spec T) (i : Z) : Z := cursors sp !!! Z.to_nat i.
Definition with_gates (sp : spec T) (g : list Z) : spec T :=
  mkSpec (log sp) (cursors sp) (n_readers sp) (cap sp) g.

Record loan_ok (s : St) (sp : spec T) (l : Loan) : Prop := mkLoanOk {
  l_live : l_resolved l = false;
  l_reader : 0 <= l_reader_id l < n_readers sp;
  l_slot : l_ptr l = slot_off T s (l_index l);
  l_pinned : cur sp (l_reader_id l) <= l_index l < base s (l_reader_id l);
}.

Record loans_ok (s : St) (sp : spec T) (L : list Loan) : Prop := mkLoansOk {
  lk_rep : rep s sp;
  lk_base i : 0 <= i < MAX_READERS -> 0 <= base s i <= produced sp;
  lk_live l : l ∈ L -> loan_ok s sp l;
  lk_nodup : NoDup (position <$> L);
  lk_depth i : 0 <= i < MAX_READERS -> depth s i = live_count i L;
}.
End inv.

(** The order in which loans are held does not matter. *)
#[export] Instance loans_of_perm i : Proper ((≡ₚ) ==> (≡ₚ)) (loans_of i).
Proof. unfold loans_of. intros L L' E. by rewrite E. Qed.

#[export] Instance live_count_perm i : Proper ((≡ₚ) ==> (=)) (live_count i).
Proof. unfold live_count. intros L L' E. by rewrite E. Qed.

#[export] Instance loans_ok_perm {T} `{Pod T} s sp :
  Proper ((≡ₚ) ==> (iff)) (loans_ok (T := T) s sp).
Proof.
  intros L L' E. split; intros [R Hb Hl Hn Hd].
  - split; [done|done|intros l; rewrite <- E; apply Hl|by rewrite <- E|].
    intros i Hi. rewrite <- E. by apply Hd.
  - split; [done|done|intros l; rewrite E; apply Hl|by rewrite E|].
    intros i Hi. rewrite E. by apply Hd.
Qed.

Lemma live_count_cons i l L :
  live_count i (l :: L) = (if decide (l_reader_id l = i) then 1 else 0) + live_count i L.
Proof.
  unfold live_count, loans_of. rewrite filter_cons.
  destruct (decide (l_reader_id l = i)); simpl; lia.
Qed.

Lemma live_count_zero i L l : live_count i L = 0 -> l ∈ L -> l_reader_id l <> i.
Proof.
  unfold live_count, loans_of. intros E Hl Hi.
  assert (Hin : l ∈ filter (fun l => l_reader_id l = i) L) by by apply list_elem_of_filter.
  destruct (filter _ L); [by apply not_elem_of_nil in Hin|simpl in E; lia].
Qed.

(** Distinct integers in an interval are no more than its length. *)
Lemma nodup_interval (l : list Z) a n :
  NoDup l -> (forall x, x ∈ l -> a <= x < a + n) -> Z.of_nat (length l) <= Z.max 0 n.
Proof.
  intros Hnd Hl. transitivity (Z.of_nat (length (seqZ a n))).
  - apply inj_le, submseteq_length, NoDup_submseteq; [done|].
    intros x Hx. apply elem_of_seqZ. by apply Hl.
  - rewrite length_seqZ. lia.
Qed.

Section lemmas.
Context `{Profile} {T : Type} `{Pod T} `{!PodLaws T}.
Implicit Types (s : St) (sp : spec T) (L : list Loan).

(** ** Handle-local updates keep the ring's meaning *)

Lemma rep_loan_depth s sp g :
  rep s sp -> Forall u64 g -> length g = 8%nat -> rep (with_loan_depth s g) (with_gates sp g).
Proof.
  intros R Hg Hl. pose proof (rep_layout _ _ R) as [].
  split; try apply R; [by split|done].
Qed.

Lemma rep_claim_base s sp b :
  rep s sp -> Forall u64 b -> length b = 8%nat -> rep (with_claim_base s b) sp.
Proof.
  intros R Hb Hl. pose proof (rep_layout _ _ R) as []. split; try apply R. by split.
Qed.

Lemma loans_readers s sp L : loans_ok s sp L -> 1 <= n_readers sp <= MAX_READERS.
Proof. intros K. apply (lk_rep _ _ _ K). Qed.

Lemma depth_lookup s sp L i :
  loans_ok s sp L -> 0 <= i < MAX_READERS ->
  loan_depth (ring s) !! Z.to_nat i = Some (live_count i L).
Proof.
  intros K Hi. rewrite <- (lk_depth _ _ _ K i Hi). unfold depth, MAX_READERS in *.
  apply list_lookup_lookup_total_lt.
  rewrite (proj2 (lo_loan_depth s (rep_layout _ _ (lk_rep _ _ _ K)))). lia.
Qed.

Lemma base_lookup s sp L i :
  loans_ok s sp L -> 0 <= i < MAX_READERS -> claim_base (ring s) !! Z.to_nat i = Some (base s i).
Proof.
  intros K Hi. unfold base, MAX_READERS in *. apply list_lookup_lookup_total_lt.
  rewrite (proj2 (lo_claim_base s (rep_layout _ _ (lk_rep _ _ _ K)))). lia.
Qed.

Lemma cur_lookup s sp L i :
  loans_ok s sp L -> 0 <= i < n_readers sp ->
  cursors sp !! Z.to_nat i = Some (cur sp i) /\
  0 <= cur sp i <= produced sp /\ produced sp - cap sp <= cur sp i.
Proof.
  intros K Hi. destruct (rep_cursor s sp i (lk_rep _ _ _ K) Hi) as (c & Hc & Et & Hr & Hw).
  unfold cur. by rewrite Et.
Qed.

Lemma produced_u64 s sp L : loans_ok s sp L -> u64 (produced sp).
Proof.
  intros K. rewrite <- (rep_write_idx _ _ (lk_rep _ _ _ K)).
  apply (ok_write_idx _ (lo_hdr s (rep_layout _ _ (lk_rep _ _ _ K)))).
Qed.

Lemma cap_bounds s sp L : loans_ok s sp L -> 0 < cap sp < u64_MAX.
Proof.
  intros K. pose proof (lk_rep _ _ _ K) as R. pose proof (rep_layout _ _ R) as Hs.
  rewrite <- (rep_cap _ _ R). pose proof (capacity_pos s Hs). pose proof (lo_fits s Hs).
  pose proof (lo_size s Hs). pose proof (lo_len s Hs). unfold HEADER_SIZE, u64_MAX in *. nia.
Qed.

(** Backpressure bounds the pipeline: a reader never has more open loans
    than the ring has slots. *)
Lemma live_count_cap s sp L i : loans_ok s sp L -> 0 <= live_count i L <= cap sp.
Proof.
  intros K. pose proof (cap_bounds _ _ _ K). split; [unfold live_count; lia|].
  unfold live_count. rewrite <- (length_fmap l_index).
  etransitivity; [apply (nodup_interval _ (produced sp - cap sp) (cap sp))|lia].
  - apply (NoDup_fmap_1 (fun x => (i, x))). rewrite <- list_fmap_compose.
    replace ((fun x => (i, x)) ∘ l_index <$> loans_of i L) with (position <$> loans_of i L).
    + eapply sublist_NoDup; [|apply fmap_sublist, sublist_filter]. apply (lk_nodup _ _ _ K).
    + apply list_fmap_ext. intros j l Hl. apply list_elem_of_lookup_2 in Hl.
      apply list_elem_of_filter in Hl as [<- _]. done.
  - intros x Hx. apply list_elem_of_fmap in Hx as (l & -> & Hl).
    apply list_elem_of_filter in Hl as [_ Hl].
    pose proof (lk_live _ _ _ K l Hl) as [_ Hr _ Hp]. pose proof (loans_readers _ _ _ K).
    destruct (cur_lookup _ _ _ _ K Hr) as (_ & Hc & Hw).
    pose proof (lk_base _ _ _ K (l_reader_id l)). unfold MAX_READERS in *. lia.
Qed.

(** ** The gate *)

Lemma depth_fetch_add_run s i n d :
  0 <= i -> loan_depth (ring s) !! Z.to_nat i = Some n ->
  depth_fetch_add i d s =
    Ret (tt, with_loan_depth s (<[Z.to_nat i := wrap64 (n + d)]> (loan_depth (ring s)))).
Proof.
  intros Hi Hn. pose proof (lookup_lt_Some _ _ _ Hn). unfold depth_fetch_add.
  erewrite bind_run by reflexivity. erewrite bind_run by (by apply lift_run, index_ret).
  by erewrite bind_run by (apply lift_run, index_set_ret; lia).
Qed.

(** The state with the gate of reader [i] at [n]. *)
Definition gate_set s (i n : Z) : St :=
  with_loan_depth s (<[Z.to_nat i := n]> (loan_depth (ring s))).

Lemma rep_gate_set s sp i n :
  rep s sp -> u64 n ->
  rep (gate_set s i n) (with_gates sp (<[Z.to_nat i := n]> (loan_depth (ring s)))).
Proof.
  intros R Hn. pose proof (rep_layout _ _ R) as Hs. destruct (lo_loan_depth s Hs) as [Hd Hl].
  apply rep_loan_depth; [done|by apply Forall_insert|by rewrite length_insert].
Qed.

Lemma depth_gate_set s i j n :
  layout_ok T s -> 0 <= i < MAX_READERS -> 0 <= j ->
  depth (gate_set s i n) j = if decide (i = j) then n else depth s j.
Proof.
  intros Hs Hi Hj. unfold depth, gate_set, MAX_READERS in *. cbn [ring with_loan_depth loan_depth].
  destruct (decide (i = j)) as [->|Hne].
  - apply list_lookup_total_insert_eq. rewrite (proj2 (lo_loan_depth s Hs)). lia.
  - apply list_lookup_total_insert_ne. lia.
Qed.

Definition resolved (l : Loan) : Loan := mkLoan (l_reader_id l) (l_index l) (l_ptr l) true.

Lemma resolve_run s l n :
  0 <= l_reader_id l -> u64 n ->
  loan_depth (ring s) !! Z.to_nat (l_reader_id l) = Some (1 + n) ->
  resolve l s = Ret (resolved l, gate_set s (l_reader_id l) n).
Proof.
  intros Hr Hn Hd. unfold resolve. erewrite bind_run by (by apply depth_fetch_add_run).
  replace (1 + n + -1) with n by lia. by rewrite wrap64_small.
Qed.

(** The gate of the reader of an open loan counts it. *)
Lemma gate_of s sp l L :
  loans_ok s sp (l :: L) ->
  let n := live_count (l_reader_id l) L in
  0 <= l_reader_id l < n_readers sp /\ 0 <= l_reader_id l < MAX_READERS /\ u64 n /\
  loan_depth (ring s) !! Z.to_nat (l_reader_id l) = Some (1 + n).
Proof.
  intros K n. pose proof (lk_live _ _ _ K l ltac:(by left)) as Hl.
  pose proof (l_reader _ _ _ Hl) as Hr. pose proof (loans_readers _ _ _ K) as Hn.
  pose proof (live_count_cap _ _ _ (l_reader_id l) K) as Hcap. pose proof (cap_bounds _ _ _ K) as Hcb.
  rewrite live_count_cons, decide_True in Hcap by done. fold n in Hcap.
  split; [done|split; [lia|split; [unfold u64, u64_MAX, n, live_count in *; lia|]]].
  rewrite (depth_lookup s sp (l :: L)) by (first [done|lia]).
  by rewrite live_count_cons, decide_True.
Qed.

(** No other open loan of its reader views the index of a loan. *)
Lemma distinct_index s sp l L l' :
  loans_ok s sp (l :: L) -> l' ∈ L -> l_reader_id l' = l_reader_id l -> l_index l' <> l_index l.
Proof.
  intros K Hl' Er Ei. pose proof (lk_nodup _ _ _ K) as Hn. rewrite fmap_cons in Hn.
  apply NoDup_cons_1_1 in Hn. apply Hn, list_elem_of_fmap. exists l'. split; [|done].
  unfold position. by rewrite Er, Ei.
Qed.

(** Releasing the gate of a loan takes it out of the invariant. *)
Lemma resolved_ok s sp l L :
  loans_ok s sp (l :: L) ->
  let n := live_count (l_reader_id l) L in
  loans_ok (gate_set s (l_reader_id l) n)
    (with_gates sp (<[Z.to_nat (l_reader_id l) := n]> (loan_depth (ring s)))) L.
Proof.
  intros K n. destruct (gate_of _ _ _ _ K) as (Hr & Hr8 & Hu & _). fold n in Hu.
  pose proof (lk_rep _ _ _ K) as R. pose proof (rep_layout _ _ R) as Hs. split.
  - by apply rep_gate_set.
  - apply (lk_base _ _ _ K).
  - intros l' Hl'. destruct (lk_live _ _ _ K l') as []; [by right|by split].
  - pose proof (lk_nodup _ _ _ K) as Hnd. by apply NoDup_cons_1_2 in Hnd.
  - intros j Hj. rewrite depth_gate_set by (first [done|lia]).
    destruct (decide (l_reader_id l = j)) as [<-|Hne]; [done|].
    rewrite (lk_depth _ _ _ K j Hj), live_count_cons. by rewrite decide_False.
Qed.

(** ** The cursor *)

(** Advancing the cursor of a reader past an index none of its loans views. *)
Lemma loans_ok_advanced s sp i L :
  loans_ok s sp L -> 0 <= i < n_readers sp -> cur sp i < produced sp ->
  (forall l, l ∈ L -> l_reader_id l = i -> l_index l <> cur sp i) ->
  loans_ok (advanced s i (cur sp i))
    (mkSpec (log sp) (<[Z.to_nat i := cur sp i + 1]> (cursors sp)) (n_readers sp) (cap sp) (gates sp))
    L.
Proof.
  intros K Hi Hlt Hfree. pose proof (lk_rep _ _ _ K) as R.
  destruct (cur_lookup _ _ _ _ K Hi) as (Hc & Hr & _). split; try apply K.
  - by apply rep_advanced.
  - intros l Hl. destruct (lk_live _ _ _ K l Hl) as [H1 H2 H3 H4].
    split; [done|done|done|]. unfold cur in *; cbn [cursors].
    destruct (decide (l_reader_id l = i)) as [E|Hne].
    + rewrite E in *. rewrite list_lookup_total_insert_eq by (by eapply lookup_lt_Some).
      specialize (Hfree l Hl E). split; [lia|apply H4].
    + rewrite list_lookup_total_insert_ne by lia. done.
Qed.

(** ** The claim pipeline *)

Definition base_set s (i b : Z) : St :=
  with_claim_base s (<[Z.to_nat i := b]> (claim_base (ring s))).

Lemma base_base_set s i j b :
  layout_ok T s -> 0 <= i < MAX_READERS -> 0 <= j ->
  base (base_set s i b) j = if decide (i = j) then b else base s j.
Proof.
  intros Hs Hi Hj. unfold base, base_set, MAX_READERS in *. cbn [ring with_claim_base claim_base].
  destruct (decide (i = j)) as [->|Hne].
  - apply list_lookup_total_insert_eq. rewrite (proj2 (lo_claim_base s Hs)). lia.
  - apply list_lookup_total_insert_ne. lia.
Qed.

(** Moving the pipeline head of a reader, all its loans staying below. *)
Lemma loans_ok_base_set s sp i b L :
  loans_ok s sp L -> 0 <= i < MAX_READERS -> 0 <= b <= produced sp ->
  (forall l, l ∈ L -> l_reader_id l = i -> l_index l < b) ->
  loans_ok (base_set s i b) sp L.
Proof.
  intros K Hi Hb Hbelow. pose proof (lk_rep _ _ _ K) as R. pose proof (rep_layout _ _ R) as Hs.
  pose proof (produced_u64 _ _ _ K) as Hu. destruct (lo_claim_base s Hs) as [Hcb Hl]. split.
  - apply rep_claim_base; [done| |by rewrite length_insert].
    apply Forall_insert; [done|]. unfold u64 in *. lia.
  - intros j Hj. rewrite base_base_set by (first [done|lia]).
    destruct (decide (i = j)); [lia|]. by apply (lk_base _ _ _ K).
  - intros l Hin. destruct (lk_live _ _ _ K l Hin) as [H1 H2 H3 H4]. split; [done..|].
    rewrite base_base_set by (first [done|lia]).
    destruct (decide (i = l_reader_id l)); [|done]. split; [apply H4|by apply Hbelow].
  - apply (lk_nodup _ _ _ K).
  - apply (lk_depth _ _ _ K).
Qed.
End lemmas.
