(* ===== verification/LoanOps.v ===== *)
(** LoanOps: what each operation of [Loan] does, in states satisfying the
    invariant of [LoanInv]. *)

From S2P Require Import Prelude.
From S2P Require Import Error.
From S2P Require Import Header.
From S2P Require Import Pod.
From S2P Require Import Shm.
From S2P Require Import Ring.
From S2P Require Import Spec.
From S2P Require Import Loan.
From S2P Require Import LoanInv.
Set Default Goal Selector "!".

Section ops.
Context `{Profile} {T : Type} `{Pod T} `{!PodLaws T}.
Implicit Types (s : St) (sp : spec T) (L : list Loan).

Lemma base_set_layout s i b : layout_ok T s -> u64 b -> layout_ok T (base_set s i b).
Proof.
  intros Hs Hb. destruct (lo_claim_base s Hs). split; try apply Hs. cbn.
  split; [by apply Forall_insert|by rewrite length_insert].
Qed.

Lemma gate_set_id s i n : loan_depth (ring s) !! Z.to_nat i = Some n -> gate_set s i n = s.
Proof.
  intros Hn. unfold gate_set, with_loan_depth. rewrite list_insert_id by done.
  by destruct s as [m []].
Qed.

Lemma gate_set_twice s i m n : gate_set (gate_set s i m) i n = gate_set s i n.
Proof.
  unfold gate_set, with_loan_depth; cbn [ring shm loan_depth r_capacity r_path claim_base].
  by rewrite list_insert_insert_eq.
Qed.

(** ** Claiming *)

Lemma claim_base_cas_weak_run s i b new (spurious : bool) :
  0 <= i -> claim_base (ring s) !! Z.to_nat i = Some b ->
  claim_base_cas_weak spurious i b new s =
    if spurious then Ret (false, s) else Ret (true, base_set s i new).
Proof.
  intros Hi Hb. pose proof (lookup_lt_Some _ _ _ Hb). unfold claim_base_cas_weak, claim_base_load.
  erewrite bind_run by (erewrite bind_run by reflexivity; by apply lift_run, index_ret).
  rewrite Z.eqb_refl. destruct spurious; [done|]. cbn [orb negb].
  erewrite bind_run by reflexivity.
  by erewrite bind_run by (apply lift_run, index_set_ret; lia).
Qed.

(** The claim loop ends at the first attempt whose exchange is not made to
    fail, and its result does not depend on how many failed before. *)
Lemma claim_loop_run s i b c n rest :
  layout_ok T s -> 0 <= i ->
  h_read_indices (hdr (shm s)) !! Z.to_nat i = Some c ->
  claim_base (ring s) !! Z.to_nat i = Some b ->
  claim_loop T (replicate n spurious_failure ++ clean :: rest) i s =
    let idx := Z.max b c in
    if h_write_idx (hdr (shm s)) <=? idx then Ret (Some None, s)
    else Ret (Some (Some (mkLoan i idx (slot_off T s idx) false)), base_set s i (idx + 1)).
Proof.
  intros Hs Hi Hc Hb. pose proof (ok_write_idx _ (lo_hdr s Hs)) as Hw.
  pose proof (Forall_lookup_1 _ _ _ _ (ok_read_indices _ (lo_hdr s Hs)) Hc) as Hu.
  unfold u64 in Hw, Hu. cbn zeta.
  assert (Hstep : forall a rest', interference a = id ->
    claim_loop T (a :: rest') i s =
      if h_write_idx (hdr (shm s)) <=? Z.max b c then Ret (Some None, s) else
      if spurious a then claim_loop T rest' i s else
      Ret (Some (Some (mkLoan i (Z.max b c) (slot_off T s (Z.max b c)) false)),
           base_set s i (Z.max b c + 1))).
  { intros a rest' Ha. cbn [claim_loop]. erewrite bind_run by reflexivity. cbn zeta.
    erewrite bind_run by (by apply lift_run, index_ret).
    erewrite bind_run by (unfold claim_base_load; erewrite bind_run by reflexivity;
      by apply lift_run, index_ret).
    unfold write_idx. destruct (Z.leb_spec (h_write_idx (hdr (shm s))) (Z.max b c)); [done|].
    erewrite bind_run by (apply arith_run; unfold u64; lia).
    rewrite Ha. erewrite bind_run by reflexivity.
    destruct (spurious a) eqn:Esp.
    - by erewrite bind_run by (by apply claim_base_cas_weak_run with (spurious := true)).
    - erewrite bind_run by (by apply claim_base_cas_weak_run with (spurious := false)). cbn match.
      by erewrite bind_run by (apply slot_ptr_run, base_set_layout; [done|unfold u64; lia]). }
  induction n as [|n IH]; cbn [replicate app].
  - rewrite Hstep by done. by destruct (_ <=? _).
  - rewrite Hstep by done. cbn [spurious spurious_failure]. rewrite IH.
    by destruct (_ <=? _).
Qed.

Lemma claim_bad_reader s i attempts :
  1 <= h_num_readers (hdr (shm s)) <= MAX_READERS -> h_num_readers (hdr (shm s)) <= i ->
  claim T attempts i s =
    Ret (Some (Err (InvalidReaderId i (h_num_readers (hdr (shm s)) - 1))), s).
Proof.
  intros Hn Hi. unfold claim. erewrite bind_run by (by apply check_reader_run).
  by destruct (Z.leb_spec (h_num_readers (hdr (shm s))) i); [|lia].
Qed.

(** The state after a claim of reader [i] at [idx]. *)
Definition claimed s L (i idx : Z) : St :=
  base_set (gate_set s i (live_count i L + 1)) i (idx + 1).

(** The index the next claim of reader [i] is for. *)
Definition claim_index s sp (i : Z) : Z := Z.max (base s i) (cur sp i).

Lemma claim_run s sp L i n rest :
  loans_ok s sp L -> 0 <= i < n_readers sp ->
  let idx := claim_index s sp i in
  claim T (replicate n spurious_failure ++ clean :: rest) i s =
    if produced sp <=? idx then Ret (Some (Ok None), s)
    else Ret (Some (Ok (Some (mkLoan i idx (slot_off T s idx) false))), claimed s L i idx).
Proof.
  intros K Hi idx. pose proof (lk_rep _ _ _ K) as R. pose proof (rep_layout _ _ R) as Hs.
  pose proof (loans_readers _ _ _ K) as Hn. assert (Hi8 : 0 <= i < MAX_READERS) by lia.
  pose proof (live_count_cap _ _ _ i K). pose proof (cap_bounds _ _ _ K).
  assert (Hu : forall z, 0 <= z <= live_count i L + 1 -> wrap64 z = z)
    by (intros; apply wrap64_small; unfold u64, u64_MAX in *; lia).
  unfold claim. erewrite bind_run.
  2: { rewrite check_reader_run by (rewrite (rep_readers _ _ R); apply R).
       rewrite (rep_readers _ _ R). by destruct (Z.leb_spec (n_readers sp) i); [lia|]. }
  cbn match.
  erewrite bind_run by (apply depth_fetch_add_run; [lia|by eapply depth_lookup]).
  rewrite Hu by lia. fold (gate_set s i (live_count i L + 1)).
  set (s1 := gate_set s i (live_count i L + 1)).
  assert (Hs1 : layout_ok T s1).
  { eapply rep_layout, rep_gate_set; [done|unfold u64, u64_MAX in *; lia]. }
  assert (Ec : h_read_indices (hdr (shm s1)) !! Z.to_nat i = Some (cur sp i)).
  { change (hdr (shm s1)) with (hdr (shm s)). rewrite (rep_cursors _ _ R). by eapply cur_lookup. }
  assert (Eb : claim_base (ring s1) !! Z.to_nat i = Some (base s i))
    by exact (base_lookup s sp L i K Hi8).
  pose proof (claim_loop_run s1 i _ _ n rest Hs1 (proj1 Hi) Ec Eb) as Hloop. cbn zeta in Hloop.
  change (hdr (shm s1)) with (hdr (shm s)) in Hloop. rewrite (rep_write_idx _ _ R) in Hloop.
  change (Z.max (base s i) (cur sp i)) with idx in Hloop. destruct (produced sp <=? idx).
  - erewrite bind_run by exact Hloop. cbn match.
    assert (Ed : loan_depth (ring s1) !! Z.to_nat i = Some (live_count i L + 1)).
    { apply list_lookup_insert_eq. by eapply lookup_lt_Some, depth_lookup. }
    erewrite bind_run by (apply depth_fetch_add_run; [lia|exact Ed]).
    replace (live_count i L + 1 + -1) with (live_count i L) by lia. rewrite Hu by lia.
    fold (gate_set s1 i (live_count i L)). unfold s1. rewrite gate_set_twice.
    by rewrite gate_set_id by (by eapply depth_lookup).
  - by erewrite bind_run by exact Hloop.
Qed.

(** A successful claim adds its loan to the invariant. *)
Lemma claimed_ok s sp L i :
  loans_ok s sp L -> 0 <= i < n_readers sp ->
  let idx := claim_index s sp i in
  idx < produced sp ->
  loans_ok (claimed s L i idx)
    (with_gates sp (<[Z.to_nat i := live_count i L + 1]> (loan_depth (ring s))))
    (mkLoan i idx (slot_off T s idx) false :: L).
Proof.
  intros K Hi idx Hlt. pose proof (lk_rep _ _ _ K) as R. pose proof (rep_layout _ _ R) as Hs.
  pose proof (loans_readers _ _ _ K) as Hn. assert (Hi8 : 0 <= i < MAX_READERS) by lia.
  pose proof (live_count_cap _ _ _ i K). pose proof (cap_bounds _ _ _ K).
  assert (Hu : u64 (live_count i L + 1)) by (unfold u64, u64_MAX in *; lia).
  pose proof (lk_base _ _ _ K i Hi8) as Hb.
  destruct (cur_lookup _ _ _ _ K Hi) as (_ & Hc & _).
  pose proof (produced_u64 _ _ _ K) as Hp.
  assert (Hbelow : forall l, l ∈ L -> l_reader_id l = i -> l_index l < base s i).
  { intros l Hl <-. apply (lk_live _ _ _ K l Hl). }
  pose proof (rep_gate_set s sp i (live_count i L + 1) R Hu) as Rg.
  pose proof (rep_layout _ _ Rg) as Hsg.
  unfold claimed. set (s1 := gate_set s i (live_count i L + 1)) in *.
  assert (Hbase : forall j, 0 <= j ->
    base (base_set s1 i (idx + 1)) j = if decide (i = j) then idx + 1 else base s j).
  { intros j Hj. by rewrite base_base_set. }
  unfold claim_index in idx. split.
  - destruct (lo_claim_base s1 Hsg). apply rep_claim_base; [done| |by rewrite length_insert].
    apply Forall_insert; [done|unfold u64 in *; lia].
  - intros j Hj. rewrite Hbase by lia. change (produced (with_gates _ _)) with (produced sp).
    destruct (decide (i = j)); [lia|]. by apply (lk_base _ _ _ K).
  - intros l [->|Hl]%elem_of_cons.
    + split; cbn [l_resolved l_reader_id l_ptr l_index]; [done|done|done|].
      rewrite Hbase, decide_True by (first [lia|done]). change (cur (with_gates _ _) i) with (cur sp i). lia.
    + destruct (lk_live _ _ _ K l Hl) as [Hl1 Hl2 Hl3 Hl4]. split; [done..|].
      rewrite Hbase by lia. change (cur (with_gates _ _) ?j) with (cur sp j).
      destruct (decide (i = l_reader_id l)) as [->|]; [|done]. lia.
  - rewrite fmap_cons. constructor; [|apply (lk_nodup _ _ _ K)].
    intros (l & E & Hl)%list_elem_of_fmap. unfold position in E. cbn in E. injection E as Er Ei.
    specialize (Hbelow l Hl (eq_sym Er)). lia.
  - intros j Hj. rewrite live_count_cons. cbn [l_reader_id].
    change (depth (base_set s1 i (idx + 1)) j) with (depth s1 j). unfold s1.
    rewrite depth_gate_set by (first [done|lia]).
    destruct (decide (i = j)) as [<-|]; [lia|]. by rewrite (lk_depth _ _ _ K j Hj).
Qed.

(** ** Resolving *)

(** A loan [l] consumed: its reader's cursor past it, its gate released. *)
Definition consumed s (l : Loan) L : St :=
  gate_set (advanced s (l_reader_id l) (l_index l)) (l_reader_id l) (live_count (l_reader_id l) L).
Definition spec_consumed s sp (l : Loan) L : spec T :=
  mkSpec (log sp) (<[Z.to_nat (l_reader_id l) := l_index l + 1]> (cursors sp)) (n_readers sp) (cap sp)
    (<[Z.to_nat (l_reader_id l) := live_count (l_reader_id l) L]> (loan_depth (ring s))).

(** A loan released, its reader's cursor where it was. *)
Definition released s (l : Loan) L : St :=
  gate_set s (l_reader_id l) (live_count (l_reader_id l) L).
Definition spec_released s sp (l : Loan) L : spec T :=
  with_gates sp (<[Z.to_nat (l_reader_id l) := live_count (l_reader_id l) L]> (loan_depth (ring s))).

Lemma consumed_ok s sp l L :
  loans_ok s sp (l :: L) -> cur sp (l_reader_id l) = l_index l ->
  loans_ok (consumed s l L) (spec_consumed s sp l L) L.
Proof.
  intros K Ec. destruct (gate_of _ _ _ _ K) as (Hr & Hr8 & _).
  pose proof (lk_live _ _ _ K l ltac:(by left)) as Hl. pose proof (l_pinned _ _ _ Hl) as Hp.
  pose proof (lk_base _ _ _ K _ Hr8) as Hb.
  pose proof (loans_ok_advanced _ _ (l_reader_id l) L (resolved_ok _ _ _ _ K)) as Ka.
  cbn zeta in Ka. change (cur (with_gates sp _) ?j) with (cur sp j) in Ka. rewrite Ec in Ka.
  apply Ka; [done|change (produced (with_gates _ _)) with (produced sp); lia|].
  intros l' Hl'. by eapply distinct_index.
Qed.

Lemma read_cursor_run s sp L i :
  loans_ok s sp L -> 0 <= i < n_readers sp ->
  lift (read_idx (hdr (shm s)) i Acquire) s = Ret (cur sp i, s).
Proof.
  intros K Hi. apply lift_run, index_ret. split; [lia|].
  rewrite (rep_cursors _ _ (lk_rep _ _ _ K)). by eapply cur_lookup.
Qed.

(** The cursor bump [commit] and [drop] share. *)
Lemma bump_cursor_run {A} s sp l L (k : M St A) :
  loans_ok s sp (l :: L) -> cur sp (l_reader_id l) = l_index l ->
  (let! i1 := add64 (l_index l) 1 in
   let! h := lift (set_read_idx (hdr (shm s)) (l_reader_id l) i1 Release) in
   put_hdr h ;! k) s = k (advanced s (l_reader_id l) (l_index l)).
Proof.
  intros K Ec. destruct (gate_of _ _ _ _ K) as (Hr & Hr8 & _).
  destruct (cur_lookup _ _ _ _ K Hr) as (_ & Hc & _). pose proof (produced_u64 _ _ _ K) as Hp.
  pose proof (lk_base _ _ _ K _ Hr8) as Hb. unfold u64 in Hp.
  pose proof (l_pinned _ _ _ (lk_live _ _ _ K l ltac:(by left))) as Hpin.
  erewrite bind_run by (apply arith_run; unfold u64; lia).
  erewrite bind_run by (apply lift_run, set_read_idx_run;
    [apply (rep_layout _ _ (lk_rep _ _ _ K))|done]).
  by erewrite bind_run by reflexivity.
Qed.

Lemma resolve_consumed s sp l L :
  loans_ok s sp (l :: L) ->
  resolve l (advanced s (l_reader_id l) (l_index l)) = Ret (resolved l, consumed s l L).
Proof.
  intros K. destruct (gate_of _ _ _ _ K) as (Hr & _ & Hu & Hd). apply resolve_run; [lia|done|done].
Qed.

Lemma commit_run s sp l L :
  loans_ok s sp (l :: L) ->
  commit l s =
    if cur sp (l_reader_id l) =? l_index l
    then Ret ((Ok tt, resolved l), consumed s l L)
    else Ret ((Err (LoanNotAtCursor (l_index l) (cur sp (l_reader_id l))), l), s).
Proof.
  intros K. destruct (gate_of _ _ _ _ K) as (Hr & _).
  pose proof (l_live _ _ _ (lk_live _ _ _ K l ltac:(by left))) as Hl.
  unfold commit. rewrite Hl. erewrite bind_run by reflexivity.
  erewrite bind_run by (by eapply read_cursor_run).
  destruct (Z.eqb_spec (cur sp (l_reader_id l)) (l_index l)) as [E|]; [|done]. cbn [negb].
  erewrite bump_cursor_run by done. by erewrite bind_run by (by eapply resolve_consumed).
Qed.

Lemma drop_run s sp l L :
  loans_ok s sp (l :: L) ->
  drop_ l s = Ret (tt, if cur sp (l_reader_id l) =? l_index l then consumed s l L else released s l L).
Proof.
  intros K. destruct (gate_of _ _ _ _ K) as (Hr & _ & Hu & Hd).
  pose proof (l_live _ _ _ (lk_live _ _ _ K l ltac:(by left))) as Hl.
  unfold drop_. rewrite Hl. erewrite bind_run by reflexivity.
  erewrite bind_run by (by eapply read_cursor_run).
  destruct (Z.eqb_spec (cur sp (l_reader_id l)) (l_index l)) as [E|].
  - erewrite bind_run.
    2: { pose proof (bump_cursor_run s sp l L (ret tt) K E) as Eb. exact Eb. }
    by erewrite bind_run by (by eapply resolve_consumed).
  - erewrite bind_run by reflexivity. by erewrite bind_run by (apply resolve_run; [lia|done|done]).
Qed.

(** The state after a loan is aborted: the pipeline rewound, the gate
    released. *)
Definition aborted s (l : Loan) L : St :=
  gate_set (base_set s (l_reader_id l) (Z.min (base s (l_reader_id l)) (l_index l)))
    (l_reader_id l) (live_count (l_reader_id l) L).

Lemma abort_run s sp l L :
  loans_ok s sp (l :: L) -> abort l s = Ret (tt, aborted s l L).
Proof.
  intros K. destruct (gate_of _ _ _ _ K) as (Hr & Hr8 & Hu & Hd).
  pose proof (l_live _ _ _ (lk_live _ _ _ K l ltac:(by left))) as Hl.
  pose proof (base_lookup _ _ _ _ K Hr8) as Hb. pose proof (lookup_lt_Some _ _ _ Hb).
  unfold abort. rewrite Hl. cbn [negb]. erewrite bind_run.
  2: { erewrite bind_run.
       2: { unfold claim_base_fetch_min, claim_base_load.
            erewrite bind_run by (erewrite bind_run by reflexivity; apply lift_run, index_ret; split; [lia|exact Hb]).
            erewrite bind_run by reflexivity.
            erewrite bind_run by (apply lift_run, index_set_ret; lia). reflexivity. }
       apply resolve_run; [lia|exact Hu|exact Hd]. }
  done.
Qed.

Lemma aborted_ok s sp l L :
  loans_ok s sp (l :: L) ->
  (forall l', l' ∈ L -> l_reader_id l' = l_reader_id l -> l_index l' <= l_index l) ->
  loans_ok (aborted s l L) (spec_released s sp l L) L.
Proof.
  intros K Hnew. destruct (gate_of _ _ _ _ K) as (Hr & Hr8 & _).
  pose proof (l_pinned _ _ _ (lk_live _ _ _ K l ltac:(by left))) as Hpin.
  pose proof (lk_base _ _ _ K _ Hr8) as Hb. destruct (cur_lookup _ _ _ _ K Hr) as (_ & Hc & _).
  pose proof (resolved_ok _ _ _ _ K) as Kr. cbn zeta in Kr.
  apply (loans_ok_base_set _ _ (l_reader_id l) (Z.min (base s (l_reader_id l)) (l_index l)) L Kr Hr8).
  - change (produced (with_gates _ _)) with (produced sp). lia.
  - intros l' Hl' Er. specialize (Hnew l' Hl' Er). pose proof (distinct_index _ _ _ _ _ K Hl' Er). lia.
Qed.
End ops.
