(* ===== verification/LoanClient.v ===== *)
(** LoanClient: programs that hold loans.

    [LS] is a handle together with the loans the program holds; [lexec] runs
    one call of the public interface, the loans addressed by their position
    among those held.  [elsewhere] is the same call made through another
    handle of the file.  [lop_ok] is the discipline under which the pinning
    argument of [src/src/loan.rs] holds. *)

From S2P Require Import Prelude.
From S2P Require Import Error.
From S2P Require Import Header.
From S2P Require Import Pod.
From S2P Require Import Shm.
From S2P Require Import Ring.
From S2P Require Import Spec.
From S2P Require Import Loan.
From S2P Require Import LoanInv.
From S2P Require Import LoanOps.
Set Default Goal Selector "!".

Record LS := mkLS {
  ls_st : St;
  ls_held : list Loan;
}.

Definition on_st {A} (m : M St A) : M LS A := fun ls =>
  match m (ls_st ls) with
  | Ret (a, s) => Ret (a, mkLS s (ls_held ls))
  | Panic => Panic
  | Ub => Ub
  end.
Definition set_held (f : list Loan -> list Loan) : M LS unit :=
  modify (fun ls => mkLS (ls_st ls) (f (ls_held ls))).

(** A call through another handle of the same file, with no loans. *)
Definition elsewhere {A} (m : M St A) : M St A := fun s =>
  match m (mkSt (shm s) (mkRing (r_capacity (ring s)) (r_path (ring s))
                           (replicate 8 0) (replicate 8 0))) with
  | Ret (a, s') => Ret (a, mkSt (shm s') (ring s))
  | Panic => Panic
  | Ub => Ub
  end.

Inductive lop (T : Type) :=
  | LPush (v : T)
  | LPop (reader_id : Z)
  | LPopElsewhere (reader_id : Z)
  | LClaim (reader_id : Z)
  | LCommit (k : nat)
  | LAbort (k : nat)
  | LDrop (k : nat)
  | LDeref (k : nat).
Arguments LPush {T}.
Arguments LPop {T}.
Arguments LPopElsewhere {T}.
Arguments LClaim {T}.
Arguments LCommit {T}.
Arguments LAbort {T}.
Arguments LDrop {T}.
Arguments LDeref {T}.

Inductive lresp (T : Type) :=
  | LRPush (accepted : bool)
  | LRRecord (r : result ShmRingError (option T))
  | LRClaim (r : option (result ShmRingError (option Z)))
  | LRCommit (r : result ShmRingError unit)
  | LRUnit
  | LRValue (v : T)
  | LRNotHeld.
Arguments LRPush {T}.
Arguments LRRecord {T}.
Arguments LRClaim {T}.
Arguments LRCommit {T}.
Arguments LRUnit {T}.
Arguments LRValue {T}.
Arguments LRNotHeld {T}.

Section client.
Context `{Profile} {T : Type} `{Pod T}.

Definition with_loan (k : nat) (f : Loan -> M LS (lresp T)) : M LS (lresp T) :=
  let! ls := get in
  match ls_held ls !! k with None => ret LRNotHeld | Some l => f l end.

Definition lexec (o : lop T) : M LS (lresp T) :=
  match o with
  | LPush v => let! b := on_st (try_push v) in ret (LRPush b)
  | LPop i => let! r := on_st (try_pop i) in ret (LRRecord r)
  | LPopElsewhere i => let! r := on_st (elsewhere (try_pop i)) in ret (LRRecord r)
  | LClaim i =>
      let! r := on_st (claim T [clean] i) in
      match r with
      | Some (Ok (Some l)) =>
          set_held (fun held => held ++ [l]) ;! ret (LRClaim (Some (Ok (Some (loan_index l)))))
      | Some (Ok None) => ret (LRClaim (Some (Ok None)))
      | Some (Err e) => ret (LRClaim (Some (Err e)))
      | None => ret (LRClaim None)
      end
  | LCommit k => with_loan k (fun l =>
      let! rl := on_st (commit l) in
      set_held (insert k rl.2) ;! ret (LRCommit rl.1))
  | LAbort k => with_loan k (fun l =>
      on_st (abort l) ;! set_held (delete k) ;! ret LRUnit)
  | LDrop k => with_loan k (fun l =>
      on_st (drop_ l) ;! set_held (delete k) ;! ret LRUnit)
  | LDeref k => with_loan k (fun l => let! v := on_st (deref T l) in ret (LRValue v))
  end.

Fixpoint lrun (os : list (lop T)) : M LS (list (lresp T)) :=
  match os with
  | [] => ret []
  | o :: os => let! r := lexec o in let! rs := lrun os in ret (r :: rs)
  end.

(** The loans that still pin a slot. *)
Definition live (held : list Loan) : list Loan := filter (fun l => l_resolved l = false) held.

(** What a program may do: abort only the newest open loan of a reader, pop
    through another handle only when the reader has no open loan, and not
    dereference a loan after resolving it.  Claims, commits, drops and
    everything on this handle are unrestricted. *)
Definition lop_ok (ls : LS) (o : lop T) : Prop :=
  match o with
  | LPush v => pod_ok v
  | LPop i | LClaim i => 0 <= i
  | LPopElsewhere i => 0 <= i /\ live_count i (live (ls_held ls)) = 0
  | LAbort k =>
      match ls_held ls !! k with
      | Some l => Forall (fun l' => l_reader_id l' = l_reader_id l -> l_index l' <= l_index l)
                    (live (ls_held ls))
      | None => True
      end
  | LDeref k => match ls_held ls !! k with Some l => l_resolved l = false | None => True end
  | LCommit _ | LDrop _ => True
  end.

Fixpoint disciplined (os : list (lop T)) (ls : LS) : Prop :=
  match os with
  | [] => True
  | o :: os =>
      lop_ok ls o /\
      match lexec o ls with Ret (_, ls') => disciplined os ls' | _ => True end
  end.

Definition laccepted (o : lop T) (r : lresp T) : list T :=
  match o, r with LPush v, LRPush true => [v] | _, _ => [] end.
Definition lpushes (os : list (lop T)) (rs : list (lresp T)) : list T :=
  concat (zip_with laccepted os rs).

Definition linv (ls : LS) (sp : spec T) : Prop := loans_ok (ls_st ls) sp (live (ls_held ls)).
End client.

(** ** Held loans *)

#[export] Instance live_perm : Proper ((≡ₚ) ==> (≡ₚ)) live.
Proof. unfold live. intros L L' E. by rewrite E. Qed.

Lemma live_delete held k l :
  held !! k = Some l -> l_resolved l = false -> live held ≡ₚ l :: live (delete k held).
Proof.
  intros Hk Hl. rewrite (delete_Permutation held k l) at 1 by done.
  unfold live. by rewrite filter_cons_True.
Qed.

Lemma live_delete_resolved held k l :
  held !! k = Some l -> l_resolved l = true -> live held ≡ₚ live (delete k held).
Proof.
  intros Hk Hl. rewrite (delete_Permutation held k l) at 1 by done.
  unfold live. by rewrite filter_cons_False by (by rewrite Hl).
Qed.

Lemma live_resolve held k l l' :
  held !! k = Some l -> l_resolved l' = true -> live (<[k := l']> held) ≡ₚ live (delete k held).
Proof.
  intros Hk Hl'. pose proof (lookup_lt_Some _ _ _ Hk).
  rewrite insert_take_drop, delete_take_drop by done. unfold live.
  rewrite !list.filter_app, filter_cons_False by (by rewrite Hl'). done.
Qed.

Lemma live_elem held k l : held !! k = Some l -> l_resolved l = false -> l ∈ live held.
Proof. intros Hk Hl. apply list_elem_of_filter. split; [done|by eapply list_elem_of_lookup_2]. Qed.

Lemma on_st_run {A} (m : M St A) ls a s :
  m (ls_st ls) = Ret (a, s) -> on_st m ls = Ret (a, mkLS s (ls_held ls)).
Proof. unfold on_st. by intros ->. Qed.
