(* ===== verification/LoanProps.v ===== *)
(** LoanProps: what loans guarantee.

    Every disciplined program keeps the invariant of [LoanInv]; hence open
    loans view unchanging, distinct, unconsumed records of the stream.  Then
    the functional contract of [claim], [commit], [abort] and [drop]. *)

From S2P Require Import Prelude.
From S2P Require Import Error.
From S2P Require Import Header.
From S2P Require Import Pod.
From S2P Require Import Shm.
From S2P Require Import Ring.
From S2P Require Import Spec.
From S2P Require Import Fs.
From S2P Require Import Create.
From S2P Require Import Loan.
From S2P Require Import LoanInv.
From S2P Require Import LoanOps.
From S2P Require Import LoanClient.
Set Default Goal Selector "!".

Section props.
Context `{Profile} {T : Type} `{Pod T} `{!PodLaws T}.
Implicit Types (s : St) (sp : spec T) (L : list Loan) (ls : LS).

(** ** Pushes and pops around open loans *)

Lemma push_ok s sp L v :
  loans_ok s sp L -> pod_ok v -> u64 (produced sp + 1) ->
  exists b s' sp', try_push v s = Ret (b, s') /\ loans_ok s' sp' L /\
    log sp' = log sp ++ (if b then [v] else []).
Proof.
  intros K Hv Hw. pose proof (lk_rep _ _ _ K) as R.
  rewrite try_push_run by (first [apply R|by eapply rep_proto|by rewrite (rep_write_idx _ _ R)]).
  rewrite (rep_slowest _ _ R), (rep_write_idx _ _ R), (rep_cap _ _ R).
  destruct (Z.leb_spec (cap sp) (produced sp - spec_slowest sp)).
  { exists false, s, sp. by rewrite app_nil_r. }
  eexists true, _, _. split; [done|split; [|shelve]].
  pose proof (rep_pushed s sp v R Hv Hw) as R'. split; [by apply R'|..].
  - intros i Hi. pose proof (lk_base _ _ _ K i Hi) as Hb.
    unfold produced in *; cbn [log]. rewrite length_app. change (base (pushed s v) i) with (base s i). lia.
  - intros l Hl. destruct (lk_live _ _ _ K l Hl). by split.
  - apply (lk_nodup _ _ _ K).
  - apply (lk_depth _ _ _ K).
  Unshelve. done.
Qed.

(** A pop through any handle of the file whose gate is closed while [L] has
    loans of the reader. *)
Lemma pop_shared s sp L i g :
  loans_ok s sp L -> 0 <= i -> u64 (produced sp + 1) -> layout_ok T (mkSt (shm s) g) ->
  r_capacity g = r_capacity (ring s) ->
  (i < n_readers sp ->
    exists d, loan_depth g !! Z.to_nat i = Some d /\ (d = 0 -> live_count i L = 0)) ->
  exists r m sp', try_pop i (mkSt (shm s) g) = Ret (r, mkSt m g) /\
    loans_ok (mkSt m (ring s)) sp' L /\ log sp' = log sp.
Proof.
  intros K Hi Hw Hs2 Eg Hd. pose proof (lk_rep _ _ _ K) as R. pose proof (rep_readers _ _ R) as Er.
  assert (K' : loans_ok (mkSt (shm s) (ring s)) sp L) by by destruct s.
  destruct (Z.lt_ge_cases i (n_readers sp)) as [Hlt|Hge].
  2: { eexists _, (shm s), sp. split; [|done].
       apply try_pop_bad_reader; cbn [shm]; rewrite Er; first [apply R|lia]. }
  destruct (Hd Hlt) as (d & Hd1 & Hd2). assert (Hr : 0 <= i < n_readers sp) by lia.
  destruct (cur_lookup _ _ _ _ K Hr) as (Hc & Hcr & _).
  assert (Hp : proto_ok (mkSt (shm s) g)).
  { destruct (rep_proto _ _ R) as [Hp1 Hp2]. split; [done|]. cbn [ring shm]. rewrite Eg. exact Hp2. }
  rewrite (try_pop_run _ i (cur sp i) d);
    [|first [done|unfold u64 in *; lia|by cbn [shm]; rewrite Er
            |by cbn [shm]; rewrite (rep_cursors _ _ R)]..].
  destruct (Z.eqb_spec d 0) as [->|]; cbn [negb]; [|by eexists _, (shm s), sp].
  cbn [shm]. rewrite (rep_write_idx _ _ R). destruct (Z.eqb_spec (cur sp i) (produced sp));
    [by eexists _, (shm s), sp|].
  eexists _, _, _. split; [done|]. split.
  - apply (loans_ok_advanced s sp i L K Hr); [lia|]. intros l Hl Ei.
    by destruct (live_count_zero i L l (Hd2 eq_refl) Hl).
  - done.
Qed.

Lemma pop_ok s sp L i :
  loans_ok s sp L -> 0 <= i -> u64 (produced sp + 1) ->
  exists r s' sp', try_pop i s = Ret (r, s') /\ loans_ok s' sp' L /\ log sp' = log sp.
Proof.
  intros K Hi Hw. pose proof (loans_readers _ _ _ K).
  destruct (pop_shared s sp L i (ring s) K Hi Hw) as (r & m & sp' & E & K' & El).
  - destruct s. apply K.
  - done.
  - intros Hlt. exists (live_count i L). split; [apply (depth_lookup s sp L i K); lia|done].
  - destruct s. by exists r, (mkSt m ring), sp'.
Qed.

Lemma pop_elsewhere_ok s sp L i :
  loans_ok s sp L -> 0 <= i -> live_count i L = 0 -> u64 (produced sp + 1) ->
  exists r s' sp', elsewhere (try_pop i) s = Ret (r, s') /\ loans_ok s' sp' L /\ log sp' = log sp.
Proof.
  intros K Hi Hz0 Hw. pose proof (loans_readers _ _ _ K) as Hn. unfold MAX_READERS in Hn.
  set (g := mkRing (r_capacity (ring s)) (r_path (ring s)) (replicate 8 0) (replicate 8 0)).
  assert (Hz : Forall u64 (replicate 8 0)) by (apply Forall_replicate; unfold u64; lia).
  destruct (pop_shared s sp L i g K Hi Hw) as (r & m & sp' & E & K' & El).
  - destruct (rep_layout _ _ (lk_rep _ _ _ K)). by split.
  - done.
  - intros Hlt. exists 0. split; [apply lookup_replicate_2; lia|done].
  - exists r, (mkSt m (ring s)), sp'. split; [|done]. unfold elsewhere. fold g. by rewrite E.
Qed.

(** ** Disciplined programs keep the invariant *)

Definition step_ok (o : lop T) ls sp : Prop :=
  exists r ls' sp', lexec o ls = Ret (r, ls') /\ linv ls' sp' /\
    log sp' = log sp ++ laccepted o r.

Lemma step_ok_same (o : lop T) r ls sp :
  lexec o ls = Ret (r, ls) -> linv ls sp -> laccepted o r = [] -> step_ok o ls sp.
Proof. intros E I Ea. exists r, ls, sp. by rewrite Ea, app_nil_r. Qed.

Lemma claim_step_ok ls sp i : linv ls sp -> 0 <= i -> step_ok (LClaim i) ls sp.
Proof.
  destruct ls as [s held]. intros K Hi. unfold linv in K; cbn [ls_st ls_held] in K.
  pose proof (lk_rep _ _ _ K) as R. destruct (Z.lt_ge_cases i (n_readers sp)) as [Hlt|Hge].
  - assert (Hr : 0 <= i < n_readers sp) by lia.
    pose proof (claim_run s sp _ i 0 [] K Hr) as E. cbn zeta in E. cbn [replicate app] in E.
    destruct (Z.leb_spec (produced sp) (claim_index s sp i)).
    + eapply step_ok_same; [|done|done]. cbn [lexec]. erewrite bind_run by (by apply on_st_run). done.
    + eexists _, _, _. split; [|split].
      * cbn [lexec]. erewrite bind_run by (by apply on_st_run). reflexivity.
      * unfold linv; cbn [ls_st ls_held]. unfold live. rewrite list.filter_app.
        rewrite filter_cons_True by done. cbn [filter]. 
        setoid_rewrite Permutation_app_comm. by apply claimed_ok.
      * by rewrite app_nil_r.
  - eapply step_ok_same; [|done|done]. cbn [lexec]. erewrite bind_run.
    2: { apply on_st_run, claim_bad_reader; cbn [ls_st]; rewrite (rep_readers _ _ R); [apply R|done]. }
    done.
Qed.

(** Calls on a held loan: nothing happens when the position is empty. *)
Lemma with_loan_step (o : lop T) k f ls sp :
  lexec o = with_loan k f -> linv ls sp -> (forall r, laccepted o r = []) ->
  (forall l, ls_held ls !! k = Some l ->
    exists r ls' sp', f l ls = Ret (r, ls') /\ linv ls' sp' /\ log sp' = log sp) ->
  step_ok o ls sp.
Proof.
  intros Eo I Ea Hf. unfold step_ok. rewrite Eo. unfold with_loan.
  erewrite bind_run by reflexivity. destruct (ls_held ls !! k) as [l|] eqn:E.
  - destruct (Hf l eq_refl) as (r & ls' & sp' & Ef & I' & El). exists r, ls', sp'.
    by rewrite Ea, app_nil_r.
  - exists LRNotHeld, ls, sp. by rewrite Ea, app_nil_r.
Qed.

Lemma held_split ls sp k l :
  linv ls sp -> ls_held ls !! k = Some l -> l_resolved l = false ->
  loans_ok (ls_st ls) sp (l :: live (delete k (ls_held ls))).
Proof. intros I Hk Hl. by rewrite <- (live_delete _ k l Hk Hl). Qed.

Lemma commit_step_ok ls sp k : linv ls sp -> step_ok (LCommit k) ls sp.
Proof.
  intros I. apply (with_loan_step (LCommit k) k _ ls sp eq_refl I); [done|]. intros l Hk.
  destruct (l_resolved l) eqn:Hl.
  - eexists _, ls, sp. split; [|done]. unfold commit. rewrite Hl.
    erewrite bind_run by (by apply on_st_run). cbn [fst snd].
    unfold bind, set_held, modify, ret; cbn [ls_st ls_held]. rewrite list_insert_id by done.
    by destruct ls.
  - pose proof (held_split ls sp k l I Hk Hl) as K. pose proof (commit_run _ _ _ _ K) as E.
    destruct (Z.eqb_spec (cur sp (l_reader_id l)) (l_index l)) as [Ec|Ec].
    + eexists _, _, (spec_consumed _ _ l _). split; [|split; [|done]].
      * erewrite bind_run by (apply on_st_run; exact E). reflexivity.
      * unfold linv; cbn [ls_st ls_held fst snd]. rewrite (live_resolve _ k l) by done.
        by apply consumed_ok.
    + eexists _, ls, sp. split; [|done]. erewrite bind_run by (apply on_st_run; exact E).
      unfold bind, set_held, modify, ret; cbn [ls_st ls_held fst snd].
      rewrite list_insert_id by done. by destruct ls.
Qed.

Lemma drop_step_ok ls sp k : linv ls sp -> step_ok (LDrop k) ls sp.
Proof.
  intros I. apply (with_loan_step (LDrop k) k _ ls sp eq_refl I); [done|]. intros l Hk.
  destruct (l_resolved l) eqn:Hl.
  - eexists _, _, sp. unfold drop_. rewrite Hl. split; [|split; [|done]].
    + erewrite bind_run by (by apply on_st_run). reflexivity.
    + unfold linv; cbn [ls_st ls_held]. by rewrite <- (live_delete_resolved _ k l).
  - pose proof (held_split ls sp k l I Hk Hl) as K. pose proof (drop_run _ _ _ _ K) as E.
    destruct (Z.eqb_spec (cur sp (l_reader_id l)) (l_index l)) as [Ec|Ec].
    + eexists _, _, (spec_consumed _ _ l _). split; [|split; [|done]].
      * erewrite bind_run by (apply on_st_run; exact E). reflexivity.
      * by apply consumed_ok.
    + eexists _, _, (spec_released _ _ l _). split; [|split; [|done]].
      * erewrite bind_run by (apply on_st_run; exact E). reflexivity.
      * by apply resolved_ok.
Qed.

Lemma abort_step_ok ls sp k : linv ls sp -> lop_ok (T := T) ls (LAbort k) -> step_ok (LAbort k) ls sp.
Proof.
  intros I Hnew. apply (with_loan_step (LAbort k) k _ ls sp eq_refl I); [done|]. intros l Hk.
  cbn [lop_ok] in Hnew. destruct (l_resolved l) eqn:Hl.
  - eexists _, _, sp. unfold abort. rewrite Hl. cbn [negb]. split; [|split; [|done]].
    + erewrite bind_run by (apply on_st_run; erewrite bind_run by reflexivity;
        unfold drop_; rewrite Hl; reflexivity). reflexivity.
    + unfold linv; cbn [ls_st ls_held]. by rewrite <- (live_delete_resolved _ k l).
  - pose proof (held_split ls sp k l I Hk Hl) as K. pose proof (abort_run _ _ _ _ K) as E.
    eexists _, _, (spec_released _ _ l _). split; [|split; [|done]].
    + erewrite bind_run by (apply on_st_run; exact E). reflexivity.
    + apply aborted_ok; [done|]. intros l' Hl'. rewrite Hk, list.Forall_forall in Hnew. apply Hnew.
      rewrite (live_delete _ k l Hk Hl). by right.
Qed.

(** Dereferencing an open loan reads the record of its index. *)
Lemma deref_run s sp L l :
  loans_ok s sp L -> l ∈ L ->
  exists v, log sp !! Z.to_nat (l_index l) = Some v /\ deref T l s = Ret (v, s).
Proof.
  intros K Hl. pose proof (lk_rep _ _ _ K) as R. destruct (lk_live _ _ _ K l Hl) as [_ Hr Hp Hpin].
  destruct (cur_lookup _ _ _ _ K Hr) as (_ & Hc & Hw). pose proof (loans_readers _ _ _ K).
  pose proof (lk_base _ _ _ K (l_reader_id l)) as Hb.
  exists (slot_value s (l_index l)). split.
  - rewrite (rep_under_cursor s sp (l_index l) R) by lia. rewrite (rep_write_idx _ _ R).
    by destruct (Z.eqb_spec (l_index l) (produced sp)); [lia|].
  - unfold deref. rewrite Hp. apply read_volatile_run, R.
Qed.

Lemma deref_step_ok ls sp k : linv ls sp -> lop_ok (T := T) ls (LDeref k) -> step_ok (LDeref k) ls sp.
Proof.
  intros I Hlive. apply (with_loan_step (LDeref k) k _ ls sp eq_refl I); [done|]. intros l Hk.
  destruct (deref_run _ _ _ l I) as (v & _ & E); [cbn [lop_ok] in Hlive; rewrite Hk in Hlive; by eapply live_elem|].
  exists (LRValue v), ls, sp. split; [|done]. erewrite bind_run by (apply on_st_run; exact E).
  by destruct ls.
Qed.

Lemma lexec_ok (o : lop T) ls sp :
  linv ls sp -> lop_ok ls o -> u64 (produced sp + 1) -> step_ok o ls sp.
Proof.
  intros I Ho Hw. destruct o as [v|i|i|i|k|k|k|k].
  - destruct (push_ok _ _ _ v I Ho Hw) as (b & s' & sp' & E & K & El).
    exists (LRPush b), (mkLS s' (ls_held ls)), sp'. split; [|by destruct b].
    cbn [lexec]. by erewrite bind_run by (apply on_st_run; exact E).
  - destruct (pop_ok _ _ _ i I Ho Hw) as (r & s' & sp' & E & K & El).
    exists (LRRecord r), (mkLS s' (ls_held ls)), sp'. rewrite app_nil_r. split; [|done].
    cbn [lexec]. by erewrite bind_run by (apply on_st_run; exact E).
  - destruct Ho as [Ho Hz]. destruct (pop_elsewhere_ok _ _ _ i I Ho Hz Hw) as (r & s' & sp' & E & K & El).
    exists (LRRecord r), (mkLS s' (ls_held ls)), sp'. rewrite app_nil_r. split; [|done].
    cbn [lexec]. by erewrite bind_run by (apply on_st_run; exact E).
  - by apply claim_step_ok.
  - by apply commit_step_ok.
  - by apply abort_step_ok.
  - by apply drop_step_ok.
  - by apply deref_step_ok.
Qed.

Lemma lrun_ok (os : list (lop T)) ls sp :
  linv ls sp -> disciplined os ls -> produced sp + Z.of_nat (length os) < 2 ^ 64 ->
  exists rs ls' sp', lrun os ls = Ret (rs, ls') /\ linv ls' sp' /\
    log sp' = log sp ++ lpushes os rs.
Proof.
  revert ls sp. induction os as [|o os IH]; intros ls sp I Hd Hw.
  { exists [], ls, sp. by rewrite app_nil_r. }
  destruct Hd as [Ho Hd]. cbn [length] in Hw.
  assert (Hu : u64 (produced sp + 1)) by (unfold u64, produced in *; lia).
  destruct (lexec_ok o ls sp I Ho Hu) as (r & ls1 & sp1 & E & I1 & El).
  assert (Hle : produced sp1 <= produced sp + 1).
  { unfold produced. rewrite El, length_app. destruct o, r as [[]| | | | | |]; simpl; lia. }
  rewrite E in Hd. destruct (IH ls1 sp1 I1 Hd) as (rs & ls' & sp' & E' & I' & El'); [lia|].
  exists (r :: rs), ls', sp'. split; [|split; [done|]].
  - cbn [lrun]. by rewrite (bind_run _ _ _ _ _ E), (bind_run _ _ _ _ _ E').
  - rewrite El', El, <- app_assoc. done.
Qed.

Lemma held_reader_cursor ls sp k l :
  linv ls sp -> ls_held ls !! k = Some l -> l_resolved l = false ->
  exists c, h_read_indices (hdr (shm (ls_st ls))) !! Z.to_nat (l_reader_id l) = Some c /\
    c <= l_index l < h_write_idx (hdr (shm (ls_st ls))).
Proof.
  intros I Hk Hl. pose proof (live_elem _ _ _ Hk Hl) as Hin. pose proof (lk_rep _ _ _ I) as R.
  destruct (lk_live _ _ _ I l Hin) as [_ Hr _ Hpin]. pose proof (loans_readers _ _ _ I).
  destruct (cur_lookup _ _ _ _ I Hr) as (Hc & _). pose proof (lk_base _ _ _ I (l_reader_id l)).
  rewrite (rep_cursors _ _ R), (rep_write_idx _ _ R). exists (cur sp (l_reader_id l)). split; [done|lia].
Qed.

(** Open loans stay pinned: a program that aborts only the newest loan of a
    reader may otherwise claim, commit, drop (in any order), pop and push as
    it likes; no call panics or leaves the mapping, and at every point each
    unresolved loan still dereferences to the record the producer was given
    for its index, between its reader's cursor and the producer. *)
Theorem open_loans_stay_pinned (os : list (lop T)) ls sp :
  linv ls sp -> disciplined os ls -> produced sp + Z.of_nat (length os) < 2 ^ 64 ->
  exists rs ls', lrun os ls = Ret (rs, ls') /\
    forall k l, ls_held ls' !! k = Some l -> l_resolved l = false ->
      (exists v, (log sp ++ lpushes os rs) !! Z.to_nat (l_index l) = Some v /\
        deref T l (ls_st ls') = Ret (v, ls_st ls')) /\
      (exists c, h_read_indices (hdr (shm (ls_st ls'))) !! Z.to_nat (l_reader_id l) = Some c /\
        c <= l_index l < h_write_idx (hdr (shm (ls_st ls')))).
Proof.
  intros I Hd Hw. destruct (lrun_ok os ls sp I Hd Hw) as (rs & ls' & sp' & E & I' & El).
  exists rs, ls'. split; [done|]. intros k l Hk Hl. rewrite <- El.
  split; [by eapply deref_run, live_elem|by eapply held_reader_cursor].
Qed.

(** Open loans are accounted for: after any disciplined program the gate of
    each reader counts its open loans, never more than the ring has slots,
    and no two of them view the same message. *)
Theorem open_loans_accounted (os : list (lop T)) ls sp :
  linv ls sp -> disciplined os ls -> produced sp + Z.of_nat (length os) < 2 ^ 64 ->
  exists rs ls', lrun os ls = Ret (rs, ls') /\
    (forall i, 0 <= i < MAX_READERS ->
      loan_depth (ring (ls_st ls')) !! Z.to_nat i = Some (live_count i (live (ls_held ls'))) /\
      live_count i (live (ls_held ls')) <= r_capacity (ring (ls_st ls'))) /\
    NoDup (position <$> live (ls_held ls')).
Proof.
  intros I Hd Hw. destruct (lrun_ok os ls sp I Hd Hw) as (rs & ls' & sp' & E & I' & El).
  exists rs, ls'. split; [done|]. split; [|apply I']. intros i Hi.
  split; [by eapply depth_lookup|]. rewrite (rep_cap _ _ (lk_rep _ _ _ I')). by eapply live_count_cap.
Qed.

(** The loan gate: while a reader has an open loan on this handle, [try_pop]
    for it is refused and changes nothing. *)
Theorem try_pop_gated_by_loan ls sp k l :
  linv ls sp -> ls_held ls !! k = Some l -> l_resolved l = false -> u64 (produced sp + 1) ->
  try_pop (T := T) (l_reader_id l) (ls_st ls) =
    Ret (Err (LoanOutstanding (l_reader_id l)), ls_st ls).
Proof.
  intros I Hk Hl Hw. pose proof (held_split ls sp k l I Hk Hl) as K. pose proof (lk_rep _ _ _ K) as R.
  destruct (gate_of _ _ _ _ K) as (Hr & _ & Hu & Hd). destruct (cur_lookup _ _ _ _ K Hr) as (Hc & Hcr & _).
  set (n := live_count _ _) in *.
  rewrite (try_pop_run _ (l_reader_id l) (cur sp (l_reader_id l)) (1 + n));
    [|apply R|by eapply rep_proto|unfold u64 in *; lia|by rewrite (rep_readers _ _ R)
     |by rewrite (rep_cursors _ _ R)|exact Hd].
  destruct (Z.eqb_spec (1 + n) 0); [|done].
  unfold u64 in *. lia.
Qed.

(** Commits are first-in first-out: the loan at the cursor is consumed (the
    cursor moves one past it, the gate is released, a second commit is a
    no-op); any other open loan gets [LoanNotAtCursor] and stays open, with
    nothing written. *)
Theorem commit_is_fifo ls sp k l :
  linv ls sp -> ls_held ls !! k = Some l -> l_resolved l = false ->
  exists c, h_read_indices (hdr (shm (ls_st ls))) !! Z.to_nat (l_reader_id l) = Some c /\
    if c =? l_index l
    then exists s' l', commit l (ls_st ls) = Ret ((Ok tt, l'), s') /\ l_resolved l' = true /\
      h_read_indices (hdr (shm s')) =
        <[Z.to_nat (l_reader_id l) := l_index l + 1]> (h_read_indices (hdr (shm (ls_st ls)))) /\
      data (shm s') = data (shm (ls_st ls)) /\
      commit l' s' = Ret ((Ok tt, l'), s')
    else commit l (ls_st ls) = Ret ((Err (LoanNotAtCursor (l_index l) c), l), ls_st ls).
Proof.
  intros I Hk Hl. pose proof (held_split ls sp k l I Hk Hl) as K.
  destruct (gate_of _ _ _ _ K) as (Hr & _). destruct (cur_lookup _ _ _ _ K Hr) as (Hc & _).
  rewrite (rep_cursors _ _ (lk_rep _ _ _ K)). exists (cur sp (l_reader_id l)). split; [done|].
  rewrite (commit_run _ _ _ _ K). destruct (_ =? _) eqn:E; [|done].
  eexists _, _. split; [done|]. cbn. by rewrite (rep_cursors _ _ (lk_rep _ _ _ K)).
Qed.
End props.

(** ** Claims *)

Section claims.
Context `{Profile} {T : Type} `{Pod T} `{!PodLaws T}.
Implicit Types (s : St) (sp : spec T) (ls : LS).

(** Popping through a loan: claim, copy out, commit. *)
Definition zero_copy_pop (i : Z) : M St (result ShmRingError (option T)) :=
  let! c := claim T [clean] i in
  match c with
  | Some (Ok (Some l)) =>
      let! v := deref T l in
      let! rl := commit l in
      match rl.1 with Ok _ => ret (Ok (Some v)) | Err e => ret (Err e) end
  | Some (Ok None) => ret (Ok None)
  | Some (Err e) => ret (Err e)
  | None => ub
  end.

(** A fresh ring holds no loans. *)
Lemma fresh_linv path capacity n :
  create_args T capacity n -> linv (mkLS (fresh_st T path capacity n) []) (empty_log T capacity n).
Proof.
  intros Ha. pose proof (fresh_rep path capacity n Ha) as R.
  split; [done| |by intros l ?%not_elem_of_nil|constructor|].
  - intros i Hi. unfold base, MAX_READERS in *. cbn [ls_st fresh_st ring fresh_ring claim_base].
    rewrite lookup_total_replicate_2 by lia. unfold produced; simpl. lia.
  - intros i Hi. unfold depth, MAX_READERS in *. cbn [ls_st fresh_st ring fresh_ring loan_depth].
    rewrite lookup_total_replicate_2 by lia. done.
Qed.

Lemma claim_cases ls sp i n rest :
  linv ls sp -> 0 <= i < n_readers sp ->
  let s := ls_st ls in
  let idx := claim_index s sp i in
  exists r s', claim T (replicate n spurious_failure ++ clean :: rest) i s = Ret (Some (Ok r), s') /\
    shm s' = shm s /\
    if produced sp <=? idx then r = None /\ s' = s
    else r = Some (mkLoan i idx (slot_off T s idx) false) /\
      s' = claimed s (live (ls_held ls)) i idx.
Proof.
  intros I Hi s idx. pose proof (claim_run s sp _ i n rest I Hi) as E. cbn zeta in E. fold idx in E.
  destruct (produced sp <=? idx); [by eexists _, _|].
  eexists _, _. split; [exact E|]. by split.
Qed.

(** C30: [claim] ends and is lock-free: however many times the weak exchange
    fails, the first one that does not ends the loop, with the same answer;
    the claim is for the pipeline head or the cursor, whichever is further,
    it is [None] exactly when nothing is published there, and the shared
    mapping is untouched. *)
Theorem claim_terminates ls sp i n rest :
  linv ls sp -> 0 <= i < h_num_readers (hdr (shm (ls_st ls))) ->
  exists r s' b c,
    claim T (replicate n spurious_failure ++ clean :: rest) i (ls_st ls) = Ret (Some (Ok r), s') /\
    claim T [clean] i (ls_st ls) = Ret (Some (Ok r), s') /\
    shm s' = shm (ls_st ls) /\
    claim_base (ring (ls_st ls)) !! Z.to_nat i = Some b /\
    h_read_indices (hdr (shm (ls_st ls))) !! Z.to_nat i = Some c /\
    (r = None <-> h_write_idx (hdr (shm (ls_st ls))) <= Z.max b c) /\
    (forall l, r = Some l -> l_index l = Z.max b c /\ l_reader_id l = i /\ l_resolved l = false).
Proof.
  intros I Hi. pose proof (lk_rep _ _ _ I) as R. rewrite (rep_readers _ _ R) in Hi.
  pose proof (loans_readers _ _ _ I).
  destruct (claim_cases ls sp i n rest I Hi) as (r & s' & E & Em & Er).
  destruct (claim_cases ls sp i 0 [] I Hi) as (r0 & s0 & E0 & _ & Er0).
  destruct (cur_lookup _ _ _ _ I Hi) as (Hc & _).
  rewrite (rep_cursors _ _ R), (rep_write_idx _ _ R). fold (claim_index (ls_st ls) sp i).
  exists r, s', (base (ls_st ls) i), (cur sp i).
  split; [done|]. split; [|split; [done|split; [eapply base_lookup; [done|lia]|split; [done|]]]].
  - cbn [replicate app] in E0. rewrite E0. destruct (_ <=? _); naive_solver.
  - fold (claim_index (ls_st ls) sp i).
    destruct (Z.leb_spec (produced sp) (claim_index (ls_st ls) sp i)) as [Hle|Hgt].
    + by destruct Er as [-> ->].
    + destruct Er as [-> ->]. split; [split; [done|lia]|]. by intros l [= <-].
Qed.

(** C29: A loan is a pop in place: with no loan open on the reader and its
    pipeline not ahead of its cursor, claiming, reading and committing gives
    the answer of [try_pop] and leaves the mapping exactly as it does. *)
Theorem zero_copy_pop_is_try_pop ls sp i :
  linv ls sp -> 0 <= i -> u64 (produced sp + 1) ->
  (i < n_readers sp -> live_count i (live (ls_held ls)) = 0 /\ base (ls_st ls) i <= cur sp i) ->
  exists r s1 s2, try_pop (T := T) i (ls_st ls) = Ret (r, s1) /\
    zero_copy_pop i (ls_st ls) = Ret (r, s2) /\
    shm s1 = shm s2 /\ loan_depth (ring s1) = loan_depth (ring s2).
Proof.
  intros I Hi Hw Hidle. pose proof (lk_rep _ _ _ I) as R. pose proof (rep_readers _ _ R) as Er.
  set (s := ls_st ls) in *. destruct (Z.lt_ge_cases i (n_readers sp)) as [Hlt|Hge].
  2: { eexists _, s, s. split; [apply try_pop_bad_reader; rewrite Er; [apply R|done]|].
       unfold zero_copy_pop. by erewrite bind_run by (apply claim_bad_reader; rewrite Er; [apply R|done]). }
  destruct (Hidle Hlt) as [Hz Hb]. assert (Hr : 0 <= i < n_readers sp) by lia. clear Hidle Hlt.
  destruct (cur_lookup _ _ _ _ I Hr) as (Hc & Hcr & _). pose proof (loans_readers _ _ _ I).
  assert (Ei : claim_index s sp i = cur sp i) by (unfold claim_index; lia).
  assert (Hd : loan_depth (ring s) !! Z.to_nat i = Some 0)
    by (rewrite <- Hz; eapply depth_lookup; [exact I|lia]).
  assert (Hpop : try_pop i s = if cur sp i =? produced sp then Ret (Ok None, s)
    else Ret (Ok (Some (slot_value s (cur sp i))), advanced s i (cur sp i))).
  { rewrite (try_pop_run s i (cur sp i) 0); [|first [done|by eapply rep_proto|apply R
      |unfold u64 in *; lia|by rewrite Er|by rewrite (rep_cursors _ _ R)]..].
    by rewrite (rep_write_idx _ _ R). }
  rewrite Hpop. pose proof (claim_run s sp _ i 0 [] I Hr) as Ec. cbn zeta in Ec. rewrite Ei in Ec.
  unfold zero_copy_pop. destruct (Z.eqb_spec (cur sp i) (produced sp)) as [E|E].
  - rewrite (proj2 (Z.leb_le _ _)) in Ec by lia. eexists _, s, s. split; [done|].
    by erewrite bind_run by exact Ec.
  - rewrite (proj2 (Z.leb_gt _ _)) in Ec by lia. eexists _, _, _. split; [done|].
    erewrite bind_run by exact Ec. cbn match.
    pose proof (claimed_ok s sp _ i I Hr ltac:(lia)) as K'. rewrite Ei in K'.
    set (l := mkLoan i (cur sp i) (slot_off T s (cur sp i)) false) in *.
    assert (Hdr : deref T l (claimed s (live (ls_held ls)) i (cur sp i)) =
      Ret (slot_value s (cur sp i), claimed s (live (ls_held ls)) i (cur sp i)))
      by exact (read_volatile_run _ (cur sp i) (rep_layout _ _ (lk_rep _ _ _ K'))).
    erewrite bind_run by exact Hdr.
    pose proof (commit_run _ _ l _ K') as Em. cbn [l_reader_id l_index l] in Em.
    change (cur (with_gates _ _) i) with (cur sp i) in Em. rewrite Z.eqb_refl in Em.
    erewrite bind_run by exact Em. cbn [fst]. split; [done|split; [done|]].
    unfold consumed, claimed, gate_set. cbn. rewrite list_insert_insert_eq.
    change (length _) with (length (loans_of i (live (ls_held ls)))).
    fold (live_count i (live (ls_held ls))). rewrite Hz. symmetry. by apply list_insert_id.
Qed.

(** The loan of a claim, and the state its abort leads back to. *)
Definition new_loan s (i idx : Z) : Loan := mkLoan i idx (slot_off T s idx) false.
Definition reclaimed s L (i idx : Z) : St := aborted (claimed s L i idx) (new_loan s i idx) L.

Lemma base_claimed s sp L i idx :
  loans_ok s sp L -> 0 <= i < MAX_READERS -> base (claimed s L i idx) i = idx + 1.
Proof.
  intros K Hi. pose proof (live_count_cap _ _ _ i K). pose proof (cap_bounds _ _ _ K).
  unfold claimed. rewrite base_base_set, decide_True; [done..| |done|lia].
  eapply rep_layout, rep_gate_set; [apply K|unfold u64, u64_MAX in *; lia].
Qed.

Lemma reclaimed_ok s sp L i :
  loans_ok s sp L -> 0 <= i < n_readers sp -> claim_index s sp i < produced sp ->
  let s2 := reclaimed s L i (claim_index s sp i) in
  exists g, loans_ok s2 (with_gates sp g) L /\
    claim_index s2 (with_gates sp g) i = claim_index s sp i.
Proof.
  intros K Hi Hlt. cbn zeta. set (idx := claim_index s sp i) in *.
  pose proof (claimed_ok s sp _ i K Hi Hlt) as K1. fold idx (new_loan s i idx) in K1.
  pose proof (loans_readers _ _ _ K) as Hn. assert (Hi8 : 0 <= i < MAX_READERS) by lia.
  eexists. split.
  - apply (aborted_ok _ _ _ _ K1). intros l' Hl' Er.
    pose proof (l_pinned _ _ _ (lk_live _ _ _ K l' Hl')) as Hp. cbn [l_reader_id new_loan] in Er.
    rewrite Er in Hp. cbn [l_index new_loan]. unfold idx, claim_index. lia.
  - unfold claim_index at 1. unfold reclaimed.
    change (base (aborted ?t _ L) i) with (base (base_set t i (Z.min (base t i) idx)) i).
    rewrite base_base_set, decide_True by (first [lia|done|apply (rep_layout _ _ (lk_rep _ _ _ K1))]).
    rewrite (base_claimed s sp) by done. change (cur (with_gates _ _) i) with (cur sp i).
    unfold idx, claim_index. lia.
Qed.

(** Aborting the loan just claimed gives the message back: nothing shared
    moves, and the next claim issues the same loan again. *)
Theorem abort_reissues ls sp i l s1 :
  linv ls sp -> 0 <= i < n_readers sp ->
  claim T [clean] i (ls_st ls) = Ret (Some (Ok (Some l)), s1) ->
  exists s2 s3, abort l s1 = Ret (tt, s2) /\ shm s2 = shm (ls_st ls) /\
    loan_depth (ring s2) = loan_depth (ring (ls_st ls)) /\
    claim T [clean] i s2 = Ret (Some (Ok (Some l)), s3).
Proof.
  intros I Hi E. set (s := ls_st ls) in *. set (L := live (ls_held ls)).
  pose proof (claim_run s sp L i 0 [] I Hi) as Ec. cbn zeta in Ec. cbn [replicate app] in Ec.
  rewrite E in Ec. destruct (Z.leb_spec (produced sp) (claim_index s sp i)) as [|Hlt]; [done|].
  injection Ec as -> ->. pose proof (loans_readers _ _ _ I) as Hn.
  destruct (reclaimed_ok s sp L i I Hi Hlt) as (g & K2 & Ei).
  eexists _, _. split; [|split; [|split]].
  - exact (abort_run _ _ (new_loan s i _) L (claimed_ok s sp L i I Hi Hlt)).
  - done.
  - unfold aborted, claimed, gate_set. cbn. rewrite list_insert_insert_eq.
    apply list_insert_id. eapply depth_lookup; [exact I|lia].
  - pose proof (claim_run _ _ _ i 0 [] K2 Hi) as Ec2. cbn zeta in Ec2. rewrite Ei in Ec2.
    change (produced (with_gates _ _)) with (produced sp) in Ec2.
    by rewrite (proj2 (Z.leb_gt _ _)) in Ec2.
Qed.
End claims.

(** ** Witnesses

    Four [u64] slots, two readers, loans held out of order. *)

Definition loan_demo : LS := mkLS (fresh_st Z "demo.ring" 4 2) [].
Definition loan_demo_sp : spec Z := empty_log Z 4 2.
Definition loan_demo_ops : list (lop Z) :=
  [LPush 7; LPush 8; LPush 9; LClaim 0; LClaim 1; LClaim 0; LClaim 0; LAbort 3; LCommit 2; LDrop 0;
   LDeref 1; LPop 1; LPopElsewhere 5; LClaim 1; LPush 10].

Lemma loan_demo_linv : linv loan_demo loan_demo_sp.
Proof. apply fresh_linv, args_4_2. Qed.

Ltac run_disciplined :=
  repeat match goal with
  | |- True => exact I
  | |- _ /\ _ => split
  | |- disciplined _ _ => cbn [disciplined loan_demo_ops]
  | |- match lexec ?o ?ls with _ => _ end =>
      let v := eval vm_compute in (lexec (H := dev_profile) o ls) in
      change (lexec o ls) with v; cbn match
  | |- lop_ok _ _ => vm_compute; first [done|split; [done|reflexivity]|repeat constructor; done]
  end.

Lemma loan_demo_disciplined : disciplined (H := dev_profile) loan_demo_ops loan_demo.
Proof. unfold loan_demo_ops. run_disciplined. Qed.

Lemma lpushes_length {T} (os : list (lop T)) rs : (length (lpushes os rs) <= length os)%nat.
Proof.
  revert rs. induction os as [|o os IH]; intros [|r rs]; cbn; try lia.
  unfold lpushes in *. rewrite length_app. specialize (IH rs).
  destruct o, r as [[]| | | | | |]; cbn; lia.
Qed.

(** A disciplined run of the example, and what it leaves. *)
Lemma loan_demo_reach os :
  disciplined (H := dev_profile) os loan_demo -> (length os <= 100)%nat ->
  exists rs ls sp, lrun (H := dev_profile) os loan_demo = Ret (rs, ls) /\ linv ls sp /\
    u64 (produced sp + 1) /\ n_readers sp = h_num_readers (hdr (shm (ls_st ls))) /\
    forall i, cur sp i = h_read_indices (hdr (shm (ls_st ls))) !!! Z.to_nat i.
Proof.
  intros Hd Hl. destruct (lrun_ok (H := dev_profile) os loan_demo loan_demo_sp loan_demo_linv Hd)
    as (rs & ls & sp & E & I & El); [unfold produced; cbn; lia|].
  exists rs, ls, sp. split; [done|split; [done|split; [|split]]].
  - pose proof (lpushes_length os rs). unfold u64, produced. rewrite El. cbn [log loan_demo_sp empty_log].
    cbn [app]. lia.
  - symmetry. apply (rep_readers _ _ (lk_rep _ _ _ I)).
  - intros i. unfold cur. by rewrite (rep_cursors _ _ (lk_rep _ _ _ I)).
Qed.

(** Reads off a run what evaluation shows of the state it ends in. *)
Ltac from_run E :=
  lazymatch type of E with
  | ?r = Ret (_, ?ls) =>
      pattern ls;
      lazymatch goal with
      | |- ?P ls =>
          let H := fresh in
          assert (H : match r with Ret (_, x) => P x | _ => True end)
            by (vm_compute; first [reflexivity|discriminate|split; [discriminate|reflexivity]|split; [reflexivity|discriminate]]);
          rewrite E in H; exact H
      end
  end.

Lemma open_loans_stay_pinned_witness :
  exists rs ls', lrun (H := dev_profile) loan_demo_ops loan_demo = Ret (rs, ls') /\
    ls_held ls' <> [] /\
    forall k l, ls_held ls' !! k = Some l -> l_resolved l = false ->
      exists v, lpushes loan_demo_ops rs !! Z.to_nat (l_index l) = Some v /\
        deref Z l (ls_st ls') = Ret (v, ls_st ls').
Proof.
  destruct (open_loans_stay_pinned (H := dev_profile) loan_demo_ops loan_demo loan_demo_sp
    loan_demo_linv loan_demo_disciplined) as (rs & ls' & E & Hp); [vm_compute; reflexivity|].
  exists rs, ls'. split; [exact E|split].
  - from_run E.
  - intros k l Hk Hl. destruct (Hp k l Hk Hl) as [Hv _]. exact Hv.
Defined.

Lemma open_loans_accounted_witness :
  exists rs ls', lrun (H := dev_profile) loan_demo_ops loan_demo = Ret (rs, ls') /\
    loan_depth (ring (ls_st ls')) !! 1%nat = Some 2 /\ NoDup (position <$> live (ls_held ls')).
Proof.
  destruct (open_loans_accounted (H := dev_profile) loan_demo_ops loan_demo loan_demo_sp
    loan_demo_linv loan_demo_disciplined) as (rs & ls' & E & Hd & Hn); [vm_compute; reflexivity|].
  exists rs, ls'. split; [exact E|split; [|exact Hn]].
  destruct (Hd 1) as [H1 _]; [unfold MAX_READERS; lia|]. change (Z.to_nat 1) with 1%nat in H1.
  rewrite H1. from_run E.
Defined.

Lemma try_pop_gated_by_loan_witness :
  exists rs ls, lrun (H := dev_profile) [LPush 7; LClaim 1] loan_demo = Ret (rs, ls) /\
    try_pop (T := Z) (H := dev_profile) 1 (ls_st ls) = Ret (Err (LoanOutstanding 1), ls_st ls).
Proof.
  destruct (loan_demo_reach [LPush 7; LClaim 1]) as (rs & ls & sp & E & I & Hw & _);
    [run_disciplined|cbn; lia|].
  exists rs, ls. split; [exact E|].
  apply (try_pop_gated_by_loan (H := dev_profile) ls sp 0 (mkLoan 1 0 256 false) I); [|done|exact Hw].
  from_run E.
Defined.

Lemma commit_is_fifo_witness :
  exists rs ls, lrun (H := dev_profile) [LPush 7; LPush 8; LClaim 1; LClaim 1] loan_demo = Ret (rs, ls) /\
    commit (H := dev_profile) (mkLoan 1 1 264 false) (ls_st ls) =
      Ret ((Err (LoanNotAtCursor 1 0), mkLoan 1 1 264 false), ls_st ls).
Proof.
  destruct (loan_demo_reach [LPush 7; LPush 8; LClaim 1; LClaim 1]) as (rs & ls & sp & E & I & _);
    [run_disciplined|cbn; lia|].
  exists rs, ls. split; [exact E|].
  destruct (commit_is_fifo (H := dev_profile) ls sp 1 (mkLoan 1 1 264 false) I) as (c & Hc & Hr);
    [from_run E|done|].
  assert (Hc0 : h_read_indices (hdr (shm (ls_st ls))) !! 1%nat = Some 0) by from_run E.
  cbn [l_reader_id] in Hc. change (Z.to_nat 1) with 1%nat in Hc. rewrite Hc0 in Hc.
  injection Hc as <-. exact Hr.
Defined.

Lemma claim_terminates_witness :
  exists rs ls r s', lrun (H := dev_profile) [LPush 7] loan_demo = Ret (rs, ls) /\
    claim (H := dev_profile) Z (replicate 3 spurious_failure ++ [clean]) 1 (ls_st ls) =
      Ret (Some (Ok r), s').
Proof.
  destruct (loan_demo_reach [LPush 7]) as (rs & ls & sp & E & I & _); [run_disciplined|cbn; lia|].
  destruct (claim_terminates (H := dev_profile) ls sp 1 3 [] I) as (r & s' & b & c & Ec & _).
  { from_run E. }
  exists rs, ls, r, s'. split; [exact E|exact Ec].
Defined.

Lemma zero_copy_pop_is_try_pop_witness :
  exists rs ls r s1 s2, lrun (H := dev_profile) [LPush 7] loan_demo = Ret (rs, ls) /\
    try_pop (T := Z) (H := dev_profile) 1 (ls_st ls) = Ret (r, s1) /\
    zero_copy_pop (H := dev_profile) 1 (ls_st ls) = Ret (r, s2) /\ shm s1 = shm s2.
Proof.
  destruct (loan_demo_reach [LPush 7]) as (rs & ls & sp & E & I & Hw & _ & Hcur);
    [run_disciplined|cbn; lia|].
  destruct (zero_copy_pop_is_try_pop (H := dev_profile) ls sp 1 I) as (r & s1 & s2 & E1 & E2 & E3 & _).
  - lia.
  - exact Hw.
  - intros _. rewrite Hcur. split; from_run E.
  - exists rs, ls, r, s1, s2. split; [exact E|split; [exact E1|split; [exact E2|exact E3]]].
Defined.

Lemma abort_reissues_witness :
  exists rs ls s1 s2 s3, lrun (H := dev_profile) [LPush 7] loan_demo = Ret (rs, ls) /\
    claim (H := dev_profile) Z [clean] 1 (ls_st ls) = Ret (Some (Ok (Some (mkLoan 1 0 256 false))), s1) /\
    abort (mkLoan 1 0 256 false) (H := dev_profile) s1 = Ret (tt, s2) /\
    claim (H := dev_profile) Z [clean] 1 s2 = Ret (Some (Ok (Some (mkLoan 1 0 256 false))), s3).
Proof.
  destruct (loan_demo_reach [LPush 7]) as (rs & ls & sp & E & I & _ & Hn & _);
    [run_disciplined|cbn; lia|].
  assert (Ec : exists s1, claim (H := dev_profile) Z [clean] 1 (ls_st ls) =
    Ret (Some (Ok (Some (mkLoan 1 0 256 false))), s1)).
  { destruct (claim (H := dev_profile) Z [clean] 1 (ls_st ls)) as [[a s1]| |] eqn:Ec.
    2-3: exfalso; revert Ec; from_run E.
    exists s1. f_equal. f_equal.
    assert (Ha : match claim (H := dev_profile) Z [clean] 1 (ls_st ls) with
      Ret (a, _) => a = Some (Ok (Some (mkLoan 1 0 256 false))) | _ => False end) by from_run E.
    by rewrite Ec in Ha. }
  destruct Ec as [s1 Ec].
  destruct (abort_reissues (H := dev_profile) ls sp 1 (mkLoan 1 0 256 false) s1 I) as (s2 & s3 & Ea & _ & _ & E3);
    [rewrite Hn; from_run E|exact Ec|].
  exists rs, ls, s1, s2, s3. split; [exact E|split; [exact Ec|split; [exact Ea|exact E3]]].
Defined.
