(* ===== verification/LoanProcs.v ===== *)
(** LoanProcs: loans held by several processes of one ring file.

    Every process has a handle of its own, with its own claim and loan
    counters, and its own open loans; they share the mapping.  Each reader id
    has one consumer ([owner]), as the contract of [src/src/loan.rs] asks;
    within that, the processes' calls interleave freely. *)

From S2P Require Import Prelude.
From S2P Require Import Error.
From S2P Require Import Header.
From S2P Require Import Pod.
From S2P Require Import Shm.
From S2P Require Import Ring.
From S2P Require Import Spec.
From S2P Require Import Fs.
From S2P Require Import Create.
From S2P Require Import Loan.
From S2P Require Import LoanInv.
From S2P Require Import LoanOps.
From S2P Require Import LoanClient.
From S2P Require Import LoanProps.
Set Default Goal Selector "!".
Open Scope Z_scope.
Open Scope shm_scope.

(** ** What a call leaves alone *)

Section frame.
Context `{Profile} {T : Type} `{Pod T} `{!PodLaws T}.
Implicit Types (s : St) (sp : spec T) (ls : LS).

(** The reader whose cursor a call may move. *)
Definition touched (o : lop T) ls : option Z :=
  match o with
  | LPop i | LPopElsewhere i => Some i
  | LCommit k | LDrop k => l_reader_id <$> ls_held ls !! k
  | _ => None
  end.

Record same_but (i : option Z) s s' : Prop := mkSameBut {
  sb_capacity : r_capacity (ring s') = r_capacity (ring s);
  sb_readers : h_num_readers (hdr (shm s')) = h_num_readers (hdr (shm s));
  sb_cursors j : 0 <= j -> i <> Some j ->
    h_read_indices (hdr (shm s')) !! Z.to_nat j = h_read_indices (hdr (shm s)) !! Z.to_nat j;
}.

(** The cursors and the held loans after a call: only the touched cursor
    differs, and a loan is of a reader that had one, or just claimed. *)
Definition framed (o : lop T) ls ls' : Prop :=
  same_but (touched o ls) (ls_st ls) (ls_st ls') /\
  forall l, l ∈ ls_held ls' -> l_reader_id l ∈ l_reader_id <$> ls_held ls \/ o = LClaim (l_reader_id l).

Lemma same_but_refl i s : same_but i s s.
Proof. done. Qed.

Lemma framed_same (o : lop T) ls : framed o ls ls.
Proof. split; [apply same_but_refl|]. intros l Hl. left. by apply list_elem_of_fmap_2. Qed.

Lemma same_but_advanced s i c : 0 <= i -> same_but (Some i) s (advanced s i c).
Proof.
  intros Hi. split; [done|done|]. intros j Hj Hne. cbn. apply list_lookup_insert_ne.
  intros E. apply Hne. f_equal. lia.
Qed.

Lemma same_but_none i s s' : same_but None s s' -> same_but i s s'.
Proof. intros []. split; [done|done|]. intros j Hj _. by apply sb_cursors0. Qed.

Lemma held_deleted (held : list Loan) k l :
  l ∈ delete k held -> l_reader_id l ∈ l_reader_id <$> held.
Proof.
  intros Hin. apply list_elem_of_fmap_2.
  eapply elem_of_submseteq; [exact Hin|]. apply sublist_submseteq, sublist_delete.
Qed.

Lemma held_inserted (held : list Loan) k l l' :
  held !! k = Some l' -> l ∈ <[k := resolved l']> held -> l_reader_id l ∈ l_reader_id <$> held.
Proof.
  intros Hk (j & Hj)%list_elem_of_lookup. destruct (decide (j = k)) as [->|Hne].
  - rewrite list_lookup_insert_eq in Hj by (by eapply lookup_lt_Some). injection Hj as <-.
    cbn. apply list_elem_of_fmap. exists l'. split; [done|]. by eapply list_elem_of_lookup_2.
  - rewrite list_lookup_insert_ne in Hj by done. apply list_elem_of_fmap_2. by eapply list_elem_of_lookup_2.
Qed.

Lemma on_st_inv {A} (m : M St A) ls a ls' :
  on_st m ls = Ret (a, ls') -> exists s, m (ls_st ls) = Ret (a, s) /\ ls' = mkLS s (ls_held ls).
Proof. unfold on_st. destruct (m _) as [[a' s]| |]; intros E; simplify_eq. eauto. Qed.

Lemma push_framed s sp v b s' i :
  rep s sp -> u64 (produced sp + 1) -> try_push v s = Ret (b, s') -> same_but i s s'.
Proof.
  intros R Hw E. rewrite try_push_run in E
    by (first [apply R|by eapply rep_proto|by rewrite (rep_write_idx _ _ R)]).
  destruct (_ <=? _); by simplify_eq.
Qed.

Lemma pop_framed s sp i r s' :
  rep s sp -> 0 <= i -> u64 (produced sp + 1) -> try_pop (T := T) i s = Ret (r, s') ->
  same_but (Some i) s s'.
Proof.
  intros R Hi Hw E. destruct (Z.lt_ge_cases i (n_readers sp)) as [Hlt|Hge].
  - destruct (rep_cursor s sp i R ltac:(lia)) as (c & Hc & _ & Hr & _).
    destruct (rep_gate s sp i R ltac:(lia)) as (d & Hd & _).
    rewrite (try_pop_run s i c d) in E by
      (first [apply R|by eapply rep_proto|unfold u64 in *; lia|rewrite (rep_readers _ _ R); lia
             |by rewrite (rep_cursors _ _ R)|done]).
    destruct (negb _); simplify_eq; [done|]. destruct (_ =? _); simplify_eq; [done|].
    by apply same_but_advanced.
  - rewrite try_pop_bad_reader in E by (rewrite (rep_readers _ _ R); first [apply R|lia]). by simplify_eq.
Qed.

Lemma claim_framed s sp held i r ls' :
  linv (mkLS s held) sp -> 0 <= i -> lexec (LClaim i) (mkLS s held) = Ret (r, ls') ->
  framed (LClaim i) (mkLS s held) ls'.
Proof.
  intros K Hi E. unfold linv in K; cbn [ls_st ls_held] in K. pose proof (lk_rep _ _ _ K) as R.
  cbn [lexec] in E. apply bind_inv in E as (cr & ls1 & E1 & E).
  apply on_st_inv in E1 as (s1 & E1 & ->). cbn [ls_st ls_held] in E1, E.
  destruct (Z.lt_ge_cases i (n_readers sp)) as [Hlt|Hge].
  - pose proof (claim_run s sp _ i 0 [] K (conj Hi Hlt)) as Ec. cbn zeta in Ec. cbn [replicate app] in Ec.
    rewrite Ec in E1. destruct (_ <=? _).
    { simplify_eq. injection E as <- <-. apply framed_same. }
    simplify_eq. injection E as <- <-. split; [done|]. cbn [ls_held].
    intros l [Hl| ->%list_elem_of_singleton]%elem_of_app; [left; by apply list_elem_of_fmap_2|by right].
  - rewrite claim_bad_reader in E1 by (rewrite (rep_readers _ _ R); first [apply R|done]). simplify_eq.
    injection E as <- <-. apply framed_same.
Qed.

(** A call on the held loan [k]. *)
Lemma held_framed (o : lop T) k f ls r ls' :
  lexec o = with_loan k f -> lexec o ls = Ret (r, ls') ->
  (forall l, ls_held ls !! k = Some l -> f l ls = Ret (r, ls') -> framed o ls ls') -> framed o ls ls'.
Proof.
  intros Eo E Hf. rewrite Eo in E. unfold with_loan in E. rewrite (bind_run _ _ _ _ _ eq_refl) in E.
  destruct (ls_held ls !! k) as [l|]; [by eapply Hf|]. injection E as <- <-. apply framed_same.
Qed.

Lemma consumed_same_but s l L : 0 <= l_reader_id l -> same_but (Some (l_reader_id l)) s (consumed s l L).
Proof. intros Hr. destruct (same_but_advanced s _ (l_index l) Hr). by split. Qed.

Lemma commit_framed ls sp k r ls' :
  linv ls sp -> lexec (T := T) (LCommit k) ls = Ret (r, ls') -> framed (LCommit (T := T) k) ls ls'.
Proof.
  intros I E. eapply (held_framed (LCommit k) k); [reflexivity|exact E|]. clear E. intros l Hk E.
  apply bind_inv in E as (rl & ls1 & E1 & E). apply on_st_inv in E1 as (s1 & E1 & ->).
  injection E as <- <-. destruct (l_resolved l) eqn:Hl.
  - unfold commit in E1. rewrite Hl in E1. injection E1 as <- <-. cbn [fst snd].
    rewrite list_insert_id by done. destruct ls. apply framed_same.
  - pose proof (held_split ls sp k l I Hk Hl) as K. rewrite (commit_run _ _ _ _ K) in E1.
    destruct (gate_of _ _ _ _ K) as (Hr & _). destruct (_ =? _); injection E1 as <- <-; cbn [fst snd].
    + split; cbn [ls_st ls_held touched].
      * rewrite Hk. cbn. apply consumed_same_but. lia.
      * intros l' Hl'. left. by eapply held_inserted.
    + rewrite list_insert_id by done. destruct ls. apply framed_same.
Qed.

Lemma drop_framed ls sp k r ls' :
  linv ls sp -> lexec (T := T) (LDrop k) ls = Ret (r, ls') -> framed (LDrop (T := T) k) ls ls'.
Proof.
  intros I E. eapply (held_framed (LDrop k) k); [reflexivity|exact E|]. clear E. intros l Hk E.
  apply bind_inv in E as (u & ls1 & E1 & E). apply on_st_inv in E1 as (s1 & E1 & ->).
  injection E as <- <-. destruct (l_resolved l) eqn:Hl.
  - unfold drop_ in E1. rewrite Hl in E1. injection E1 as <- <-. split; cbn [ls_st ls_held]; [done|].
    intros l' Hl'. left. by eapply held_deleted.
  - pose proof (held_split ls sp k l I Hk Hl) as K. rewrite (drop_run _ _ _ _ K) in E1.
    destruct (gate_of _ _ _ _ K) as (Hr & _). injection E1 as <- <-.
    split; cbn [ls_st ls_held touched]; [|intros l' Hl'; left; by eapply held_deleted].
    rewrite Hk. cbn. destruct (_ =? _); [apply consumed_same_but; lia|done].
Qed.

Lemma abort_framed ls sp k r ls' :
  linv ls sp -> lexec (T := T) (LAbort k) ls = Ret (r, ls') -> framed (LAbort (T := T) k) ls ls'.
Proof.
  intros I E. eapply (held_framed (LAbort k) k); [reflexivity|exact E|]. clear E. intros l Hk E.
  apply bind_inv in E as (u & ls1 & E1 & E). apply on_st_inv in E1 as (s1 & E1 & ->).
  injection E as <- <-.
  assert (Hd : forall l', l' ∈ delete k (ls_held ls) ->
    l_reader_id l' ∈ l_reader_id <$> ls_held ls \/ LAbort (T := T) k = LClaim (l_reader_id l'))
    by (intros l' Hl'; left; by eapply held_deleted).
  destruct (l_resolved l) eqn:Hl.
  - unfold abort in E1. rewrite Hl in E1. cbn [negb] in E1. rewrite (bind_run _ _ _ _ _ eq_refl) in E1.
    unfold drop_ in E1. rewrite Hl in E1. injection E1 as <- <-. by split.
  - pose proof (held_split ls sp k l I Hk Hl) as K. rewrite (abort_run _ _ _ _ K) in E1.
    injection E1 as <- <-. by split.
Qed.

(** A process's own call. *)
Definition own_call (o : lop T) : Prop := match o with LPopElsewhere _ => False | _ => True end.

Lemma lexec_framed (o : lop T) ls sp r ls' :
  linv ls sp -> lop_ok ls o -> own_call o -> u64 (produced sp + 1) -> lexec o ls = Ret (r, ls') ->
  framed o ls ls'.
Proof.
  intros I Ho Hown Hw E. pose proof (lk_rep _ _ _ I) as R. destruct o as [v|i|i|i|k|k|k|k]; try done.
  - cbn [lexec] in E. apply bind_inv in E as (b & ls1 & E1 & E). apply on_st_inv in E1 as (s1 & E1 & ->).
    injection E as <- <-. split; [by eapply push_framed|apply (framed_same (LPush v) ls)].
  - cbn [lexec] in E. apply bind_inv in E as (b & ls1 & E1 & E). apply on_st_inv in E1 as (s1 & E1 & ->).
    injection E as <- <-. split; [by eapply pop_framed|apply (framed_same (LPop i) ls)].
  - destruct ls as [s held]. by eapply claim_framed.
  - by eapply commit_framed.
  - by eapply abort_framed.
  - by eapply drop_framed.
  - eapply (held_framed (LDeref k) k); [reflexivity|exact E|]. clear E. intros l Hk E.
    apply bind_inv in E as (v & ls1 & E1 & E). apply on_st_inv in E1 as (s1 & E1 & ->).
    injection E as <- <-. unfold deref, read_volatile in E1. destruct (accessible _ _ _ _); [|done].
    injection E1 as <- <-. destruct ls. apply framed_same.
Qed.
End frame.

(** ** Processes *)

Record Proc := mkProc {
  p_ring : SpmcRingBuffer;
  p_held : list Loan;
}.

Record Procs := mkProcs {
  ps_shm : Shm;
  ps_procs : list Proc;
}.

Section procs.
Context `{Profile} {T : Type} `{Pod T}.

(** The ring as process [pr] sees it, with the loans it holds. *)
Definition seen_by (w : Procs) (pr : Proc) : LS := mkLS (mkSt (ps_shm w) (p_ring pr)) (p_held pr).

(** Process [k] makes a call. *)
Definition pexec (k : nat) (o : lop T) : M Procs (lresp T) := fun w =>
  match ps_procs w !! k with
  | None => Ret (LRNotHeld, w)
  | Some pr =>
      match lexec o (seen_by w pr) with
      | Ret (r, ls) =>
          Ret (r, mkProcs (shm (ls_st ls)) (<[k := mkProc (ring (ls_st ls)) (ls_held ls)]> (ps_procs w)))
      | Panic => Panic
      | Ub => Ub
      end
  end.

Fixpoint prun (os : list (nat * lop T)) : M Procs (list (lresp T)) :=
  match os with
  | [] => ret []
  | (k, o) :: os => let! r := pexec k o in let! rs := prun os in ret (r :: rs)
  end.

(** Each reader has one consumer process; each call keeps the discipline of
    [LoanClient] in its own process. *)
Definition call_ok (owner : Z -> nat) (w : Procs) (k : nat) (o : lop T) : Prop :=
  own_call o /\
  match o with LPop i | LClaim i => owner i = k | _ => True end /\
  match ps_procs w !! k with Some pr => lop_ok (seen_by w pr) o | None => True end.

Fixpoint pdisciplined (owner : Z -> nat) (os : list (nat * lop T)) (w : Procs) : Prop :=
  match os with
  | [] => True
  | (k, o) :: os =>
      call_ok owner w k o /\
      match pexec k o w with Ret (_, w') => pdisciplined owner os w' | _ => True end
  end.

Definition ppushes (os : list (nat * lop T)) (rs : list (lresp T)) : list T := lpushes (os.*2) rs.

(** Every process's loans are sound over the one log, and of its own readers. *)
Definition procs_ok (owner : Z -> nat) (w : Procs) (sp : spec T) : Prop :=
  forall k pr, ps_procs w !! k = Some pr ->
    linv (seen_by w pr) (with_gates sp (loan_depth (p_ring pr))) /\
    r_capacity (p_ring pr) = cap sp /\
    forall l, l ∈ p_held pr -> owner (l_reader_id l) = k.
End procs.

Section soundness.
Context `{Profile} {T : Type} `{Pod T} `{!PodLaws T} (owner : Z -> nat).
Implicit Types (w : Procs) (sp : spec T) (pr : Proc).

(** The log as another handle of the mapping represents it. *)
Lemma rep_regate m h h' sp :
  rep (mkSt m h) sp -> r_capacity h' = r_capacity h -> Forall u64 (claim_base h') ->
  length (claim_base h') = 8%nat -> Forall u64 (loan_depth h') -> length (loan_depth h') = 8%nat ->
  rep (mkSt m h') (with_gates sp (loan_depth h')).
Proof.
  intros R Ec Hb Hbl Hd Hdl. destruct R as [[] ? ? ? ? ? ? ? ? Hslots]; cbn [ring shm] in *.
  split; cbn [ring shm with_gates log cursors n_readers cap gates]; rewrite ?Ec; try done.
  - split; cbn [ring shm]; rewrite ?Ec; done.
  - intros j v Hj Hw Hv. rewrite <- (Hslots j v Hj Hw Hv). unfold slot_value, slot_off; cbn [ring shm].
    by rewrite Ec.
Qed.

(** A process that did not move keeps its loans. *)
Lemma bystander m m' h h' held sp sp' touched :
  linv (mkLS (mkSt m h) held) (with_gates sp (loan_depth h)) ->
  rep (mkSt m' h') sp' -> r_capacity h' = r_capacity h ->
  n_readers sp' = n_readers sp -> produced sp <= produced sp' ->
  (forall j, 0 <= j -> touched <> Some j -> cursors sp' !! Z.to_nat j = cursors sp !! Z.to_nat j) ->
  (forall l, l ∈ held -> touched <> Some (l_reader_id l)) ->
  linv (mkLS (mkSt m' h) held) (with_gates sp' (loan_depth h)).
Proof.
  intros [R Hb Hl Hn Hd] R' Ec En Hp Hcur Hfree. unfold linv; cbn [ls_st ls_held] in *.
  destruct (rep_layout _ _ R) as [_ _ _ _ _ _ [Hcb Hcbl] [Hld Hldl]]; cbn [ring] in *. split.
  - by apply (rep_regate m' h').
  - intros i Hi. specialize (Hb i Hi). unfold base, produced in *; cbn [ring with_gates log] in *. lia.
  - intros l Hin. destruct (Hl l Hin) as [H1 H2 H3 H4]. split; [done| |done|].
    + cbn [with_gates n_readers] in *. by rewrite En.
    + unfold cur, base in *; cbn [with_gates cursors ring] in *.
      rewrite !list_lookup_total_alt in *. rewrite Hcur; [done|lia|]. apply Hfree. by apply list_elem_of_filter in Hin as [_ ?].
  - done.
  - done.
Qed.

Lemma pexec_ok w sp k (o : lop T) :
  procs_ok owner w sp -> call_ok owner w k o -> u64 (produced sp + 1) ->
  exists r w' sp', pexec k o w = Ret (r, w') /\ procs_ok owner w' sp' /\
    log sp' = log sp ++ laccepted o r.
Proof.
  intros I (Hown & Howner & Hop) Hw. unfold pexec. destruct (ps_procs w !! k) as [pr|] eqn:Hk.
  2: { exists LRNotHeld, w, sp. assert (E : laccepted o LRNotHeld = []) by (by destruct o).
       by rewrite E, app_nil_r. }
  destruct (I k pr Hk) as (Il & Hcap & Hmine).
  destruct (lexec_ok o _ _ Il Hop Hw) as (r & ls & sp1 & E & I1 & El). cbn [with_gates log] in El.
  pose proof (lexec_framed o _ _ _ _ Il Hop Hown Hw E) as [[Fc Fn Fcur] Fl].
  rewrite E. destruct ls as [[m' h'] held']; cbn [ls_st ls_held shm ring] in *.
  pose proof (lk_rep _ _ _ I1) as R1. pose proof (lk_rep _ _ _ Il) as R0. cbn [ls_st] in R0, R1.
  assert (Hc' : cap sp1 = cap sp).
  { rewrite <- (rep_cap _ _ R1). cbn [ring]. rewrite Fc. cbn. exact Hcap. }
  exists r, (mkProcs m' (<[k := mkProc h' held']> (ps_procs w))), sp1.
  split; [done|split; [|done]].
  assert (Hnr : n_readers sp1 = n_readers sp).
  { rewrite <- (rep_readers _ _ R1). cbn [shm]. rewrite Fn. exact (rep_readers _ _ R0). }
  intros j prj Hj. cbn [ps_procs] in Hj. destruct (decide (j = k)) as [->|Hne].
  - rewrite list_lookup_insert_eq in Hj by (by eapply lookup_lt_Some). injection Hj as <-.
    cbn [p_ring p_held]. split_and!; [| |].
    + replace (with_gates sp1 (loan_depth h')) with sp1; [done|].
      destruct sp1. unfold with_gates; cbn. f_equal. symmetry. exact (rep_gates _ _ R1).
    + exact (rep_cap _ _ R1).
    + intros l Hl. destruct (Fl l Hl) as [(l0 & -> & Hl0)%list_elem_of_fmap| ->]; [by apply Hmine|exact Howner].
  - rewrite list_lookup_insert_ne in Hj by done. destruct (I j prj Hj) as (Ij & Hcj & Hmj).
    split_and!; [|by rewrite Hc'|done].
    eapply (bystander (ps_shm w) m' (p_ring prj) h' (p_held prj) sp sp1 (touched o (seen_by w pr)));
      [exact Ij|exact R1| |exact Hnr| | |].
    + rewrite Fc. cbn. by rewrite Hcj, Hcap.
    + unfold produced. rewrite El, length_app. lia.
    + intros i Hi Hnt. specialize (Fcur i Hi Hnt). cbn [shm] in Fcur.
      pose proof (rep_cursors _ _ R1) as E1. pose proof (rep_cursors _ _ R0) as E0. cbn in E0, E1, Fcur.
      by rewrite <- E1, Fcur, E0.
    + intros l Hl Et. specialize (Hmj l Hl). apply Hne. rewrite <- Hmj.
      destruct o as [v|i|i|i|q|q|q|q]; cbn [touched] in Et; try done.
      * injection Et as ->. exact Howner.
      * apply fmap_Some in Et as (l' & Hq & ->). apply Hmine. by eapply list_elem_of_lookup_2.
      * apply fmap_Some in Et as (l' & Hq & ->). apply Hmine. by eapply list_elem_of_lookup_2.
Qed.

Lemma prun_ok (os : list (nat * lop T)) w sp :
  procs_ok owner w sp -> pdisciplined owner os w -> produced sp + Z.of_nat (length os) < 2 ^ 64 ->
  exists rs w' sp', prun os w = Ret (rs, w') /\ procs_ok owner w' sp' /\
    log sp' = log sp ++ ppushes os rs.
Proof.
  revert w sp. induction os as [|[k o] os IH]; intros w sp I Hd Hw.
  { exists [], w, sp. by rewrite app_nil_r. }
  destruct Hd as [Ho Hd]. cbn [length] in Hw.
  assert (Hu : u64 (produced sp + 1)) by (unfold u64, produced in *; lia).
  destruct (pexec_ok w sp k o I Ho Hu) as (r & w1 & sp1 & E & I1 & El).
  assert (Hle : produced sp1 <= produced sp + 1).
  { unfold produced. rewrite El, length_app. destruct o, r as [[]| | | | | |]; simpl; lia. }
  rewrite E in Hd. destruct (IH w1 sp1 I1 Hd) as (rs & w' & sp' & E' & I' & El'); [lia|].
  exists (r :: rs), w', sp'. split; [|split; [done|]].
  - cbn [prun]. by rewrite (bind_run _ _ _ _ _ E), (bind_run _ _ _ _ _ E').
  - rewrite El', El, <- app_assoc. done.
Qed.

(** C7: Open loans stay pinned across processes: several processes map the
    ring, each with its own handle and its own loans, each reader id having
    one consumer process; in every interleaving of their pushes, pops,
    claims, commits, drops and aborts no call panics or leaves the mapping,
    and at every point each process's unresolved loan still dereferences to
    the record published at its index. *)
Theorem loans_pinned_across_processes (os : list (nat * lop T)) w sp :
  procs_ok owner w sp -> pdisciplined owner os w -> produced sp + Z.of_nat (length os) < 2 ^ 64 ->
  exists rs w', prun os w = Ret (rs, w') /\
    forall k pr l, ps_procs w' !! k = Some pr -> l ∈ p_held pr -> l_resolved l = false ->
      owner (l_reader_id l) = k /\
      exists v, (log sp ++ ppushes os rs) !! Z.to_nat (l_index l) = Some v /\
        deref T l (mkSt (ps_shm w') (p_ring pr)) = Ret (v, mkSt (ps_shm w') (p_ring pr)).
Proof.
  intros I Hd Hw. destruct (prun_ok os w sp I Hd Hw) as (rs & w' & sp' & E & I' & El).
  exists rs, w'. split; [done|]. intros k pr l Hk Hin Hl. destruct (I' k pr Hk) as (Il & _ & Hmine).
  split; [by apply Hmine|]. rewrite <- El.
  apply (deref_run _ _ _ l Il). by apply list_elem_of_filter.
Qed.
End soundness.

(** ** Processes that have just opened the ring *)

Definition started (s : St) (n : nat) : Procs := mkProcs (shm s) (replicate n (mkProc (ring s) [])).

Lemma started_ok {T} `{Pod T} `{!PodLaws T} owner path capacity readers n :
  create_args T capacity readers ->
  procs_ok owner (started (fresh_st T path capacity readers) n) (empty_log T capacity readers).
Proof.
  intros Ha k pr [-> _]%lookup_replicate_1. cbn [p_ring p_held]. split; [|split; [done|]].
  - pose proof (fresh_rep path capacity readers Ha) as R. split; cbn [ls_st ls_held].
    + exact R.
    + intros i Hi. unfold base. cbn [seen_by ls_st ring p_ring fresh_st fresh_ring claim_base].
      rewrite lookup_total_replicate_2 by (unfold MAX_READERS in *; lia). done.
    + by intros l Hl%not_elem_of_nil.
    + constructor.
    + intros i Hi. unfold depth. cbn [seen_by ls_st ring p_ring fresh_st fresh_ring loan_depth].
      by rewrite lookup_total_replicate_2 by (unfold MAX_READERS in *; lia).
  - by intros l Hl%not_elem_of_nil.
Qed.

(** Process 0 produces; process 1 consumes as reader 0 and process 2 as reader
    1, each with a loan open while the other commits. *)
Definition owner_demo (i : Z) : nat := S (Z.to_nat i).
Definition procs_demo : Procs := started (fresh_st Z "demo.ring" 4 2) 3.
Definition procs_demo_ops : list (nat * lop Z) :=
  [(0%nat, LPush 7); (0%nat, LPush 8); (1%nat, LClaim 0); (2%nat, LClaim 1); (2%nat, LClaim 1); (1%nat, LCommit 0);
   (1%nat, LClaim 0); (2%nat, LDeref 0); (0%nat, LPush 9); (2%nat, LAbort 1); (1%nat, LPop 0); (0%nat, LPush 10)].

Ltac run_pdisciplined :=
  repeat match goal with
  | |- True => exact I
  | |- _ /\ _ => split
  | |- pdisciplined _ _ _ => cbn [pdisciplined procs_demo_ops]
  | |- match pexec ?k ?o ?w with _ => _ end =>
      let v := eval vm_compute in (pexec (H := dev_profile) k o w) in
      change (pexec k o w) with v; cbn match
  | |- call_ok _ _ _ _ => vm_compute; repeat split; first [discriminate|repeat constructor; discriminate]
  end.

Lemma procs_demo_disciplined : pdisciplined (H := dev_profile) owner_demo procs_demo_ops procs_demo.
Proof. unfold procs_demo_ops. run_pdisciplined. Qed.

Lemma loans_pinned_across_processes_witness :
  exists rs w', prun (H := dev_profile) procs_demo_ops procs_demo = Ret (rs, w') /\
    length rs = 12%nat /\
    forall k pr l, ps_procs w' !! k = Some pr -> l ∈ p_held pr -> l_resolved l = false ->
      owner_demo (l_reader_id l) = k /\
      exists v, ppushes procs_demo_ops rs !! Z.to_nat (l_index l) = Some v /\
        deref Z l (mkSt (ps_shm w') (p_ring pr)) = Ret (v, mkSt (ps_shm w') (p_ring pr)).
Proof.
  destruct (loans_pinned_across_processes (H := dev_profile) owner_demo procs_demo_ops procs_demo
    (empty_log Z 4 2)) as (rs & w' & E & Hp).
  - apply started_ok, args_4_2.
  - exact procs_demo_disciplined.
  - vm_compute. reflexivity.
  - exists rs, w'. split; [exact E|split; [|exact Hp]].
    assert (Hl : match prun (H := dev_profile) procs_demo_ops procs_demo with
      Ret (rs, _) => length rs = 12%nat | _ => True end) by (vm_compute; reflexivity).
    rewrite E in Hl. exact Hl.
Defined.
