(* ===== verification/LoanHazards.v ===== *)
(** LoanHazards: what loans do not guarantee.

    The first theorem is about any ring: an abort of a loan that is not the
    newest lets the pipeline issue an open loan again, and committing the
    duplicate un-pins it.  Then three programs in safe code, with one handle
    and one consumer, whose behaviour [src/src/loan.rs] documents otherwise:
    such an abort, a drop out of order, and a dereference after the commit. *)

From S2P Require Import Prelude.
From S2P Require Import Error.
From S2P Require Import Header.
From S2P Require Import Pod.
From S2P Require Import Shm.
From S2P Require Import Ring.
From S2P Require Import Spec.
From S2P Require Import Fs.
From S2P Require Import Create.
From S2P Require Import Loan.
From S2P Require Import LoanInv.
From S2P Require Import LoanOps.
From S2P Require Import LoanClient.
From S2P Require Import LoanProps.
Set Default Goal Selector "!".

(** ** Calls on any ring

    [view s sp i b c d]: a ring that represents the log [sp], the pipeline head
    of reader [i] at [b], its cursor at [c] and its gate at [d].  Unlike
    [loans_ok] it says nothing about the loans held. *)

Section view.
Context `{Profile} {T : Type} `{Pod T} `{!PodLaws T}.
Implicit Types (s : St) (sp : spec T).

Record view s sp (i b c d : Z) : Prop := mkView {
  v_rep : rep s sp;
  v_reader : 0 <= i < n_readers sp;
  v_base : claim_base (ring s) !! Z.to_nat i = Some b;
  v_cursor : cursors sp !! Z.to_nat i = Some c;
  v_gate : loan_depth (ring s) !! Z.to_nat i = Some d;
}.

Lemma slot_off_rep s s' sp sp' idx :
  rep s sp -> rep s' sp' -> cap sp' = cap sp -> slot_off T s' idx = slot_off T s idx.
Proof. intros R R' E. unfold slot_off. by rewrite (rep_cap _ _ R), (rep_cap _ _ R'), E. Qed.

Lemma rep_base_set s sp i b : rep s sp -> u64 b -> rep (base_set s i b) sp.
Proof.
  intros R Hb. destruct (lo_claim_base s (rep_layout _ _ R)).
  apply rep_claim_base; [done|by apply Forall_insert|by rewrite length_insert].
Qed.

Lemma lookup_set (l : list Z) i x y : l !! Z.to_nat i = Some y -> <[Z.to_nat i := x]> l !! Z.to_nat i = Some x.
Proof. intros Hl. by eapply list_lookup_insert_eq, lookup_lt_Some. Qed.

Lemma view_claim s sp i b c d :
  view s sp i b c d -> 0 <= d -> d + 1 < 2 ^ 64 -> Z.max b c < produced sp ->
  exists s' g, claim T [clean] i s =
      Ret (Some (Ok (Some (mkLoan i (Z.max b c) (slot_off T s (Z.max b c)) false))), s') /\
    view s' (with_gates sp g) i (Z.max b c + 1) c (d + 1).
Proof.
  intros [R Hi Hb Hc Hd] Hd0 Hd1 Hlt. pose proof (rep_layout _ _ R) as Hs.
  assert (Hu : u64 (d + 1)) by (unfold u64; lia).
  pose proof (rep_gate_set s sp i (d + 1) R Hu) as Rg.
  assert (Hub : u64 (Z.max b c + 1)).
  { pose proof (ok_write_idx _ (lo_hdr s Hs)) as Hw. rewrite (rep_write_idx _ _ R) in Hw.
    destruct (rep_cursor _ _ i R Hi) as (c' & Hc' & _ & Hr & _). simplify_eq. unfold u64 in *. lia. }
  exists (base_set (gate_set s i (d + 1)) i (Z.max b c + 1)), (<[Z.to_nat i := d + 1]> (loan_depth (ring s))). split.
  - unfold claim. erewrite bind_run.
    2: { rewrite check_reader_run by (rewrite (rep_readers _ _ R); apply R).
         rewrite (rep_readers _ _ R). by destruct (Z.leb_spec (n_readers sp) i); [lia|]. }
    cbn match. erewrite bind_run by (apply depth_fetch_add_run; [lia|exact Hd]).
    rewrite wrap64_small by done. fold (gate_set s i (d + 1)).
    pose proof (claim_loop_run (gate_set s i (d + 1)) i b c 0 [] (rep_layout _ _ Rg) (proj1 Hi)) as El.
    cbn [replicate app] in El. cbn zeta in El.
    change (hdr (shm (gate_set s i (d + 1)))) with (hdr (shm s)) in El.
    rewrite (rep_write_idx _ _ R), (rep_cursors _ _ R), (proj2 (Z.leb_gt _ _) Hlt) in El.
    by rewrite (bind_run _ _ _ _ _ (El Hc Hb)).
  - split; [by apply rep_base_set|done|by eapply lookup_set|done|by eapply lookup_set].
Qed.

Lemma view_commit s sp i b c n l :
  view s sp i b c (1 + n) -> 0 <= n -> l_resolved l = false -> l_reader_id l = i -> l_index l = c ->
  c < produced sp ->
  exists s' g, commit l s = Ret ((Ok tt, resolved l), s') /\
    view s' (mkSpec (log sp) (<[Z.to_nat i := c + 1]> (cursors sp)) (n_readers sp) (cap sp) g) i b (c + 1) n.
Proof.
  intros [R Hi Hb Hc Hd] Hn Hl Er Ei Hlt. subst i c. pose proof (rep_layout _ _ R) as Hs.
  pose proof (rep_readers_range _ _ R) as Hrange.
  assert (Hu : u64 n).
  { pose proof (Forall_lookup_1 _ _ _ _ (proj1 (lo_loan_depth s Hs)) Hd) as Hu. unfold u64 in *. lia. }
  pose proof (rep_advanced s sp _ _ R Hi Hc Hlt) as Ra.
  exists (gate_set (advanced s (l_reader_id l) (l_index l)) (l_reader_id l) n),
    (<[Z.to_nat (l_reader_id l) := n]> (loan_depth (ring s))).
  split.
  - unfold commit. rewrite Hl. erewrite bind_run by reflexivity.
    erewrite bind_run by (apply lift_run, index_ret; split; [lia|by rewrite (rep_cursors _ _ R)]).
    rewrite Z.eqb_refl. cbn [negb]. pose proof (ok_write_idx _ (lo_hdr s Hs)) as Hw.
    rewrite (rep_write_idx _ _ R) in Hw. destruct (rep_cursor _ _ _ R Hi) as (c' & Hc' & _ & Hr & _). simplify_eq.
    erewrite bind_run by (apply arith_run; unfold u64 in *; lia).
    erewrite bind_run by (apply lift_run, set_read_idx_run; [apply Hs|lia]).
    erewrite bind_run by reflexivity.
    by erewrite bind_run by (apply resolve_run; [lia|exact Hu|exact Hd]).
  - split; [exact (rep_gate_set _ _ (l_reader_id l) n Ra Hu)|done|done|by eapply lookup_set|by eapply lookup_set].
Qed.

Lemma view_push s sp v :
  rep s sp -> pod_ok v -> u64 (produced sp + 1) ->
  (forall x c, 0 <= x < n_readers sp -> cursors sp !! Z.to_nat x = Some c -> produced sp - cap sp < c) ->
  exists s', try_push v s = Ret (true, s') /\
    rep s' (mkSpec (log sp ++ [v]) (cursors sp) (n_readers sp) (cap sp) (gates sp)).
Proof.
  intros R Hv Hw Hroom. exists (pushed s v).
  assert (Hlag : produced sp - spec_slowest sp < cap sp).
  { rewrite <- (rep_slowest _ _ R). pose proof (rep_layout _ _ R) as Hs.
    pose proof (slowest_in s (lo_hdr s Hs)) as Hin. rewrite (rep_readers _ _ R) in Hin.
    specialize (Hin (rep_readers_range _ _ R)). unfold participants in Hin.
    rewrite (rep_readers _ _ R), (rep_cursors _ _ R) in Hin.
    apply elem_of_take_lookup in Hin as (j & Hj & Hc).
    specialize (Hroom (Z.of_nat j) (slowest s) ltac:(lia)). rewrite Nat2Z.id in Hroom. specialize (Hroom Hc). lia. }
  split; [|by apply rep_pushed].
  rewrite try_push_run by (first [apply R|by eapply rep_proto|by rewrite (rep_write_idx _ _ R)]).
  rewrite (rep_slowest _ _ R), (rep_write_idx _ _ R), (rep_cap _ _ R).
  by rewrite (proj2 (Z.leb_gt _ _) Hlag).
Qed.
Lemma view_abort s sp l L b c :
  loans_ok s sp (l :: L) -> base s (l_reader_id l) = b -> cur sp (l_reader_id l) = c ->
  exists s' g, abort l s = Ret (tt, s') /\
    view s' (with_gates sp g) (l_reader_id l) (Z.min b (l_index l)) c (live_count (l_reader_id l) L).
Proof.
  intros K <- <-. destruct (gate_of _ _ _ _ K) as (Hr & Hr8 & Hu & Hd).
  pose proof (lk_rep _ _ _ K) as R. destruct (cur_lookup _ _ _ _ K Hr) as (Hc & Hcr & _).
  pose proof (l_pinned _ _ _ (lk_live _ _ _ K l ltac:(by left))) as Hpin.
  pose proof (lk_base _ _ _ K _ Hr8) as Hb. pose proof (produced_u64 _ _ _ K) as Hp.
  eexists _, _. split; [by eapply abort_run|]. split.
  - apply (rep_gate_set (base_set s _ _)); [|exact Hu]. apply rep_base_set; [done|unfold u64 in *; lia].
  - done.
  - eapply lookup_set, base_lookup; [exact K|done].
  - done.
  - by eapply lookup_set.
Qed.

(** Once every cursor is past index [k], two pushes that end a lap over it put
    the second one's record under a loan of [k]. *)
Lemma view_lap s sp k l v w :
  rep s sp -> pod_ok v -> pod_ok w -> 0 <= k -> produced sp + 1 = k + cap sp -> produced sp + 2 < 2 ^ 64 ->
  l_ptr l = slot_off T s k ->
  (forall x c, 0 <= x < n_readers sp -> cursors sp !! Z.to_nat x = Some c -> k < c) ->
  exists s6 s7, try_push v s = Ret (true, s6) /\ try_push w s6 = Ret (true, s7) /\
    deref T l s7 = Ret (w, s7).
Proof.
  intros R Hv Hw Hk Hfull Hp El Hcur. pose proof (capacity_pos _ (rep_layout _ _ R)) as Hcap.
  rewrite (rep_cap _ _ R) in Hcap.
  destruct (view_push _ _ v R Hv) as (s6 & E6 & R6).
  { unfold u64, produced in *. lia. }
  { intros x c Hx Hc. specialize (Hcur x c Hx Hc). lia. }
  assert (Ep : produced (mkSpec (log sp ++ [v]) (cursors sp) (n_readers sp) (cap sp) (gates sp)) = produced sp + 1)
    by (unfold produced; cbn [log]; rewrite length_app; simpl; lia).
  destruct (view_push _ _ w R6 Hw) as (s7 & E7 & R7); cbn [log cursors n_readers cap gates]; rewrite ?Ep.
  { unfold u64, produced in *. lia. }
  { intros x c Hx Hc. specialize (Hcur x c Hx Hc). lia. }
  exists s6, s7. split_and!; [done|done|]. cbn [log cursors n_readers cap gates] in R7.
  assert (Es : slot_off T s k = slot_off T s7 (produced sp + 1)).
  { rewrite (slot_off_rep s s7 sp _ (produced sp + 1) R R7) by done. unfold slot_off.
    rewrite (rep_cap _ _ R). do 2 f_equal. replace (produced sp + 1) with (k + 1 * cap sp) by lia.
    by rewrite Z.mod_add by lia. }
  unfold deref. rewrite El, Es, (read_volatile_run _ _ (rep_layout _ _ R7)). do 2 f_equal.
  apply (rep_slots _ _ R7); [unfold produced; lia| |].
  - unfold produced; cbn [log cap]. rewrite !length_app. simpl. lia.
  - cbn [log]. replace (Z.to_nat (produced sp + 1)) with (length (log sp ++ [v])).
    + by rewrite lookup_app_r, Nat.sub_diag by done.
    + rewrite length_app. unfold produced. simpl. lia.
Qed.

(** C31: An abort that is not of the newest loan breaks the pin of the younger
    one.  On any ring, let a reader hold open loans on its cursor and on the
    next index: once the first is aborted, two claims return the first index
    and then the second again, although it is open, at the same address;
    committing the two duplicates succeeds and moves the cursor past the loan
    still open.  If the ring was full and the other participants are ahead,
    two pushes are then accepted, and the loan reads the second one's record. *)
Theorem abort_unpins_younger_loan s sp l l' L v w :
  loans_ok s sp (l :: l' :: L) ->
  l_reader_id l' = l_reader_id l -> l_index l = cur sp (l_reader_id l) -> l_index l' = l_index l + 1 ->
  pod_ok v -> pod_ok w -> produced sp + 2 < 2 ^ 64 ->
  exists s1 d1 s2 d2 s3 s4 s5,
    abort l s = Ret (tt, s1) /\
    claim T [clean] (l_reader_id l) s1 = Ret (Some (Ok (Some d1)), s2) /\ position d1 = position l /\
    claim T [clean] (l_reader_id l) s2 = Ret (Some (Ok (Some d2)), s3) /\ position d2 = position l' /\
    l_ptr d2 = l_ptr l' /\
    commit d1 s3 = Ret ((Ok tt, resolved d1), s4) /\ commit d2 s4 = Ret ((Ok tt, resolved d2), s5) /\
    h_read_indices (hdr (shm s5)) !! Z.to_nat (l_reader_id l') = Some (l_index l' + 1) /\
    l_resolved l' = false /\
    (produced sp = l_index l + cap sp ->
     (forall x, 0 <= x < n_readers sp -> x <> l_reader_id l -> l_index l' < cur sp x) ->
     exists s6 s7, try_push v s5 = Ret (true, s6) /\ try_push w s6 = Ret (true, s7) /\
       deref T l' s7 = Ret (w, s7)).
Proof.
  intros K Er Ec Ei Hv Hw Hp. set (i := l_reader_id l) in *.
  pose proof (lk_rep _ _ _ K) as R.
  pose proof (lk_live _ _ _ K l ltac:(by left)) as Hl. pose proof (lk_live _ _ _ K l' ltac:(right; by left)) as Hl'.
  pose proof (l_pinned _ _ _ Hl') as Hpin'. rewrite Er in Hpin'.
  destruct (gate_of _ _ _ _ K) as (Hr & Hr8 & _). fold i in Hr, Hr8.
  pose proof (lk_base _ _ _ K i Hr8) as Hb. destruct (cur_lookup _ _ _ _ K Hr) as (Hcl & Hcr & _).
  pose proof (live_count_cap _ _ _ i K) as Hn. pose proof (cap_bounds _ _ _ K) as Hcap.
  rewrite !live_count_cons, !decide_True in Hn by done. set (n := live_count i (l' :: L)).
  assert (Hn' : 0 < n /\ n + 2 < 2 ^ 64).
  { unfold n. rewrite live_count_cons, decide_True by done. unfold u64_MAX, live_count in *. lia. }
  set (j := cur sp i) in *.
  destruct (view_abort s sp l (l' :: L) _ _ K eq_refl eq_refl) as (s1 & g1 & E1 & V1).
  fold i j n in V1. rewrite Ec, Z.min_r in V1 by lia.
  destruct (view_claim _ _ _ _ _ _ V1) as (s2 & g2 & E2 & V2); [lia|lia|change (j `max` j < produced sp); lia|].
  rewrite Z.max_id in E2, V2.
  destruct (view_claim _ _ _ _ _ _ V2) as (s3 & g3 & E3 & V3); [lia|lia|change ((j + 1) `max` j < produced sp); lia|].
  rewrite Z.max_l in E3, V3 by lia.
  set (d1 := mkLoan i j _ false) in E2. set (d2 := mkLoan i (j + 1) _ false) in E3.
  replace (n + 1 + 1) with (1 + (n + 1)) in V3 by lia.
  destruct (view_commit _ _ i _ j (n + 1) d1 V3) as (s4 & g4 & E4 & V4);
    [lia|done|done|done|change (j < produced sp); lia|].
  rewrite (Z.add_comm n 1) in V4.
  destruct (view_commit _ _ i _ (j + 1) n d2 V4) as (s5 & g5 & E5 & V5);
    [lia|done|done|done|change (j + 1 < produced sp); lia|].
  exists s1, d1, s2, d2, s3, s4, s5. cbn [log cursors n_readers cap with_gates] in V5.
  split_and!; [done|done|unfold position; simpl; f_equal; lia|done|unfold position; simpl; f_equal; lia| |done|done| |apply Hl'|].
  - simpl. rewrite (slot_off_rep s s2 sp _ (j + 1) R (v_rep _ _ _ _ _ _ V2)) by done.
    rewrite (l_slot _ _ _ Hl'). f_equal. lia.
  - rewrite Er, (rep_cursors _ _ (v_rep _ _ _ _ _ _ V5)). rewrite (v_cursor _ _ _ _ _ _ V5). f_equal. lia.
  - intros Hfull Hahead. apply v_rep in V5 as R5.
    apply (view_lap _ _ (j + 1) l' v w R5 Hv Hw); [lia|change (produced sp + 1 = j + 1 + cap sp); lia|done| |].
    + rewrite (slot_off_rep s s5 sp _ (j + 1) R R5), (l_slot _ _ _ Hl') by done. f_equal. lia.
    + cbn [n_readers cursors]. intros x c Hx. destruct (decide (x = i)) as [->|Hne].
      { rewrite (lookup_set _ _ _ (j + 1)) by (by eapply lookup_set). intros [= <-]. lia. }
      rewrite !list_lookup_insert_ne by lia. intros Hc. specialize (Hahead x Hx Hne).
      unfold cur in Hahead. rewrite (list_lookup_total_correct _ _ _ Hc) in Hahead. lia.
Qed.
End view.

(** Four slots, the second reader two records ahead, two loans open. *)
Definition two_loans : list (lop Z) :=
  [LPush 1; LPush 2; LPush 3; LPush 4; LPop 1; LPop 1; LClaim 0; LClaim 0].

Lemma abort_unpins_younger_loan_witness :
  exists rs ls s7, lrun (H := dev_profile) two_loans loan_demo = Ret (rs, ls) /\
    ls_held ls = [mkLoan 0 0 256 false; mkLoan 0 1 264 false] /\
    deref Z (mkLoan 0 1 264 false) (ls_st ls) = Ret (2, ls_st ls) /\
    deref Z (mkLoan 0 1 264 false) s7 = Ret (6, s7).
Proof.
  destruct (loan_demo_reach two_loans) as (rs & ls & sp & E & I & Hu & Hn & Hcur);
    [unfold two_loans; run_disciplined|cbn; lia|].
  assert (Hheld : ls_held ls = [mkLoan 0 0 256 false; mkLoan 0 1 264 false]) by from_run E.
  assert (H0 : h_read_indices (hdr (shm (ls_st ls))) !!! 0%nat = 0) by from_run E.
  assert (H1 : h_read_indices (hdr (shm (ls_st ls))) !!! 1%nat = 2) by from_run E.
  assert (Hr : h_num_readers (hdr (shm (ls_st ls))) = 2) by from_run E.
  assert (Hw : h_write_idx (hdr (shm (ls_st ls))) = 4) by from_run E.
  assert (Hc : r_capacity (ring (ls_st ls)) = 4) by from_run E.
  pose proof (lk_rep _ _ _ I) as R. rewrite (rep_write_idx _ _ R) in Hw. rewrite (rep_cap _ _ R) in Hc.
  unfold linv in I. rewrite Hheld in I.
  destruct (abort_unpins_younger_loan (H := dev_profile) (ls_st ls) sp (mkLoan 0 0 256 false)
    (mkLoan 0 1 264 false) [] 5 6 I eq_refl)
    as (s1 & d1 & s2 & d2 & s3 & s4 & s5 & _ & _ & _ & _ & _ & _ & _ & _ & _ & _ & Hlap).
  - cbn [l_reader_id l_index]. rewrite Hcur. symmetry. exact H0.
  - reflexivity.
  - vm_compute. by split.
  - vm_compute. by split.
  - lia.
  - destruct Hlap as (s6 & s7 & _ & _ & Ed).
    + cbn [l_index]. lia.
    + cbn [l_index l_reader_id]. intros x Hx Hne. assert (x = 1) as -> by lia.
      rewrite Hcur. change (Z.to_nat 1) with 1%nat. lia.
    + exists rs, ls, s7. split_and!; [exact E|exact Hheld| |exact Ed]. from_run E.
Defined.

(** ** Programs *)

(** A fresh ring of [u64] records for one reader, and no loans. *)
Definition empty_ring (capacity : Z) : LS := mkLS (fresh_st Z "demo.ring" capacity 1) [].

(** The answers of a run, when it returns. *)
Definition answers {T} (o : outcome (list (lresp T) * LS)) : option (list (lresp T)) :=
  match o with Ret (rs, _) => Some rs | _ => None end.

(** Aborting a loan that is not the newest lets the pipeline issue the index
    of a loan that is still open: committing that duplicate moves the cursor
    past the open loan, the producer reuses its slot, and the record under
    the open loan's reference changes from 2 to 4. *)
Theorem aborted_pipeline_unpins_open_loan (p : Profile) :
  answers (lrun [LPush 1; LPush 2; LClaim 0; LClaim 0; LDeref 1; LAbort 0;
                 LClaim 0; LCommit 1; LClaim 0; LCommit 2; LPush 3; LPush 4; LDeref 0]
             (empty_ring 2)) =
  Some [LRPush true; LRPush true; LRClaim (Some (Ok (Some 0))); LRClaim (Some (Ok (Some 1)));
        LRValue 2; LRUnit; LRClaim (Some (Ok (Some 0))); LRCommit (Ok tt);
        LRClaim (Some (Ok (Some 1))); LRCommit (Ok tt); LRPush true; LRPush true; LRValue 4].
Proof. destruct p; vm_compute; reflexivity. Qed.

(** [commit] takes [&mut self], so the loan can still be dereferenced after
    it: its slot is no longer pinned, and the record under it changes from 1
    to 3. *)
Theorem committed_loan_is_not_pinned (p : Profile) :
  answers (lrun [LPush 1; LClaim 0; LDeref 0; LCommit 0; LPush 2; LPush 3; LDeref 0]
             (empty_ring 2)) =
  Some [LRPush true; LRClaim (Some (Ok (Some 0))); LRValue 1; LRCommit (Ok tt); LRPush true;
        LRPush true; LRValue 3].
Proof. destruct p; vm_compute; reflexivity. Qed.

(** Dropping the second of two open loans first is a no-op; once the first is
    committed, the pipeline head is past the cursor with no loan open: the
    second message is never claimed again, claims return later messages and
    their commits fail. *)
Theorem out_of_order_drop_strands_message (p : Profile) :
  answers (lrun [LPush 1; LPush 2; LClaim 0; LClaim 0; LDrop 1; LCommit 0; LDrop 0; LClaim 0;
                 LPush 3; LClaim 0; LCommit 0; LAbort 0; LClaim 0; LCommit 0]
             (empty_ring 4)) =
  Some [LRPush true; LRPush true; LRClaim (Some (Ok (Some 0))); LRClaim (Some (Ok (Some 1)));
        LRUnit; LRCommit (Ok tt); LRUnit; LRClaim (Some (Ok None)); LRPush true;
        LRClaim (Some (Ok (Some 2))); LRCommit (Err (LoanNotAtCursor 2 1)); LRUnit;
        LRClaim (Some (Ok (Some 2))); LRCommit (Err (LoanNotAtCursor 2 1))].
Proof. destruct p; vm_compute; reflexivity. Qed.
