(* ===== verification/Status.v ===== *)
(** Status: file-backed plain-old-data status, [src/src/status.rs].

    [PodStatus] is the trait of a status type; [create], [read], [update] and
    [cleanup] are the four functions of the module over the file system of
    [Fs].  A store through the shared mapping reaches the file at once. *)

From S2P Require Import Prelude.
From S2P Require Import Error.
From S2P Require Import Header.
From S2P Require Import Pod.
From S2P Require Import Fs.
Set Default Goal Selector "!".

Module Status.

Class PodStatus (T : Type) := {
  MAGIC : Z;
  VERSION : Z;
  magic : T -> Z;
  version : T -> Z;
  set_magic : T -> T;
}.
Arguments MAGIC T {_}.
Arguments VERSION T {_}.

(** The layout convention of the module: [u64] magic at offset 0, [u32]
    version at offset 8, and the accessors read those fields. *)
Class PodStatusLaws (T : Type) `{Pod T} `{!PodStatus T} := {
  head_fits : 12 <= size_of T;
  magic_range : u64 (MAGIC T);
  version_range : u32 (VERSION T);
  magic_at_0 bs : length bs = Z.to_nat (size_of T) -> magic (from_bytes bs) = word_at bs 0 8;
  version_at_8 bs : length bs = Z.to_nat (size_of T) -> version (from_bytes bs) = word_at bs 8 4;
  set_magic_spec v : magic (set_magic v) = MAGIC T /\ version (set_magic v) = version v;
}.

Section status.
Context `{Os} `{Memmap2} {T : Type} `{Pod T} `{PodStatus T}.

(** The provided methods of the trait. *)
Definition magic_matches (v : T) : bool := magic v =? MAGIC T.
Definition version_matches (v : T) : bool := version v =? VERSION T.

(** [<[u8]>::copy_from_slice] panics when the lengths differ. *)
Definition copy_from_slice (dst src : list byte) : outcome (list byte) :=
  if Nat.eqb (length dst) (length src) then Ret src else Panic.

Definition flush_mmap (mmap : list byte) : M files (result ErrorKind.t unit) :=
  io (flush mmap) (ret (Ok tt)).

(** [ptr::read] of a value of [n] bytes at offset [off] of a mapping. *)
Definition read_at (mmap : list byte) (off n : nat) : outcome (list byte) :=
  if Nat.leb (off + n) (length mmap) then Ret (take n (drop off mmap)) else Ub.

Definition create (path : string) (initial : T) : M files (result ShmRingError unit) :=
  let size := size_of T in
  let? _ := from_io (open_truncate path) in
  let? _ := from_io (set_len path size) in
  let? mmap := from_io (mmap_mut path) in
  let! mmap := lift (copy_from_slice mmap (to_bytes initial)) in
  put_contents path mmap ;!
  let? _ := from_io (flush_mmap mmap) in
  ret (Ok tt).

Definition read (path : string) : M files (result ShmRingError T) :=
  let? _ := from_io (open_rw path) in
  let? mmap := from_io (mmap_ro path) in
  let size := size_of T in
  let len := Z.of_nat (length mmap) in
  if len <? size then ret (Err (FileTooShort size len)) else
  let! bytes := lift (read_at mmap 0 (Z.to_nat size)) in
  let value := from_bytes bytes in
  if negb (magic_matches value)
  then ret (Err (HeaderCorruption "magic" (MAGIC T) (magic value))) else
  if negb (version_matches value)
  then ret (Err (VersionMismatch (VERSION T) (version value))) else
  ret (Ok value).

Definition update (path : string) (value : T) : M files (result ShmRingError unit) :=
  let? _ := from_io (open_rw path) in
  let? mmap := from_io (mmap_mut path) in
  let size := size_of T in
  let len := Z.of_nat (length mmap) in
  if len <? size then ret (Err (FileTooShort size len)) else
  let! magic_bytes := lift (read_at mmap 0 8) in
  let! version_bytes := lift (read_at mmap 8 4) in
  let stored_magic := le_word magic_bytes in
  let stored_version := le_word version_bytes in
  if negb (stored_magic =? MAGIC T)
  then ret (Err (HeaderCorruption "magic" (MAGIC T) stored_magic)) else
  if negb (stored_version =? VERSION T)
  then ret (Err (VersionMismatch (VERSION T) stored_version)) else
  let! mmap := lift (copy_from_slice mmap (to_bytes value)) in
  put_contents path mmap ;!
  let? _ := from_io (flush_mmap mmap) in
  ret (Ok tt).

Definition cleanup (path : string) : M files (result ShmRingError unit) :=
  let! ex := path_exists path in
  (if (ex : bool) then
     interference ;!
     from_io (remove_file path)
   else ret (Ok tt)).

End status.
End Status.
