(* ===== verification/StatusProps.v ===== *)
(** StatusProps: the contract of a status file.

    [verdict] is what the two readers' gates say of a file's bytes; [read] and
    [update] are characterised by it, and the round trip, the agreement of
    their errors, the write protection of foreign files, and three behaviours
    the documentation does not mention follow. *)

From S2P Require Import Prelude.
From S2P Require Import Error.
From S2P Require Import Header.
From S2P Require Import Pod.
From S2P Require Import Shm.
From S2P Require Import Fs.
From S2P Require Import Ring.
From S2P Require Import Spec.
From S2P Require Import Create.
From S2P Require Import Status.
Set Default Goal Selector "!".

Module StatusProps.
Import Status.

Section props.
Context `{Os} `{Memmap2} `{!Memmap2Laws} {T : Type} `{Pod T} `{!PodLaws T}
  `{!PodStatus T} `{!PodStatusLaws T}.
Implicit Types (fs : files) (v : T) (c : list byte).

(** No fault on [path], and its mappings succeed. *)
Record calm (path : string) : Prop := mkCalm {
  c_quiet : quiet path;
  c_remove : remove_fault path = None;
  c_map bs : exists m, Fs.map bs = Ok m;
  c_flush bs : flush bs = None;
}.

Definition verdict c : result ShmRingError unit :=
  let n := Z.of_nat (length c) in
  if n <? size_of T then Err (FileTooShort (size_of T) n) else
  if negb (word_at c 0 8 =? MAGIC T)
  then Err (HeaderCorruption "magic" (MAGIC T) (word_at c 0 8)) else
  if negb (word_at c 8 4 =? VERSION T)
  then Err (VersionMismatch (VERSION T) (word_at c 8 4)) else Ok tt.

(** The head of a value is the head of its file. *)
Lemma word_at_take c m off n :
  (off + n <= m)%nat -> word_at (take m c) off n = word_at c off n.
Proof.
  intros Hm. unfold word_at. rewrite !take_drop_commute, take_take.
  by replace ((off + n) `min` m)%nat with (off + n)%nat by lia.
Qed.

Lemma take_size c :
  size_of T <= Z.of_nat (length c) ->
  length (take (Z.to_nat (size_of T)) c) = Z.to_nat (size_of T).
Proof. intros Hn. rewrite length_take. lia. Qed.

Lemma value_head c :
  size_of T <= Z.of_nat (length c) ->
  let v := from_bytes (take (Z.to_nat (size_of T)) c) in
  magic v = word_at c 0 8 /\ version v = word_at c 8 4.
Proof.
  intros Hn. pose proof (head_fits (T := T)). cbn zeta.
  rewrite magic_at_0, version_at_8, !word_at_take by (first [by apply take_size|lia]). done.
Qed.

Lemma read_at_run c off n fs :
  (off + n <= length c)%nat -> lift (read_at c off n) fs = Ret (take n (drop off c), fs).
Proof. intros Hn. apply lift_run. unfold read_at. by rewrite (proj2 (Nat.leb_le _ _)). Qed.

Lemma read_at_inv c off n b : read_at c off n = Ret b -> b = take n (drop off c).
Proof. unfold read_at. destruct (Nat.leb _ _); naive_solver. Qed.

Lemma mmap_ro_run path c fs :
  calm path -> fs !! path = Some c -> mmap_ro path fs = Ret (Ok c, fs).
Proof.
  intros Hq Hc. unfold mmap_ro, bind, contents, ret. rewrite Hc. cbn [default].
  destruct (c_map _ Hq c) as [m Em]. simpl. rewrite Em. by apply map_contents in Em as ->.
Qed.

Lemma read_run path c fs :
  calm path -> fs !! path = Some c ->
  read (T := T) path fs =
    Ret (match verdict c with
         | Err e => Err e
         | Ok _ => Ok (from_bytes (take (Z.to_nat (size_of T)) c))
         end, fs).
Proof.
  intros Hq Hc. pose proof (head_fits (T := T)) as Hh. unfold read.
  erewrite bind_ok_run by (eapply from_io_ok, open_rw_run; [apply Hq|done]).
  erewrite bind_ok_run by (by eapply from_io_ok, mmap_ro_run). cbn zeta. unfold verdict. cbn zeta.
  destruct (Z.ltb_spec (Z.of_nat (length c)) (size_of T)); [done|].
  erewrite bind_run by (apply read_at_run; lia). rewrite drop_0.
  destruct (value_head c) as [Em Ev]; [lia|]. unfold magic_matches, version_matches. rewrite Em, Ev.
  destruct (negb (word_at c 0 8 =? _)); [done|]. by destruct (negb _).
Qed.

Lemma update_run path c fs v :
  calm path -> fs !! path = Some c ->
  update path v fs =
    match verdict c with
    | Err e => Ret (Err e, fs)
    | Ok _ =>
        if Z.of_nat (length c) =? size_of T then Ret (Ok tt, <[path := to_bytes v]> fs) else Panic
    end.
Proof.
  intros Hq Hc. pose proof (head_fits (T := T)) as Hh. pose proof (to_bytes_length v) as Hl.
  unfold update.
  erewrite bind_ok_run by (eapply from_io_ok, open_rw_run; [apply Hq|done]).
  erewrite bind_ok_run by (eapply from_io_ok, mmap_mut_run; [apply Hq|done]).
  cbn zeta. unfold verdict. cbn zeta.
  destruct (Z.ltb_spec (Z.of_nat (length c)) (size_of T)); [done|].
  erewrite bind_run by (apply read_at_run; lia).
  erewrite bind_run by (apply read_at_run; lia).
  fold (word_at c 0 8) (word_at c 8 4).
  destruct (negb (word_at c 0 8 =? _)); [done|]. destruct (negb _); [done|].
  unfold copy_from_slice. rewrite Hl.
  destruct (Z.eqb_spec (Z.of_nat (length c)) (size_of T)) as [E|E].
  - rewrite (proj2 (Nat.eqb_eq _ _)) by lia. erewrite bind_run by reflexivity.
    erewrite bind_run by reflexivity.
    by erewrite bind_ok_run by (apply from_io_ok; unfold flush_mmap; by rewrite (c_flush _ Hq)).
  - by rewrite (proj2 (Nat.eqb_neq _ _)) by lia.
Qed.

Lemma create_status_run path fs v :
  calm path -> create path v fs = Ret (Ok tt, <[path := to_bytes v]> fs).
Proof.
  intros Hq. pose proof (size_of_range (T := T)). unfold create.
  erewrite bind_ok_run by (apply from_io_ok; unfold open_truncate; by rewrite (q_open _ (c_quiet _ Hq))).
  erewrite bind_ok_run by (apply from_io_ok, set_len_run; [apply Hq|lia]).
  erewrite bind_ok_run by (eapply from_io_ok, mmap_mut_run; [apply Hq|by rewrite lookup_insert_eq]).
  unfold copy_from_slice. rewrite length_replicate, to_bytes_length, Nat.eqb_refl.
  erewrite bind_run by reflexivity. erewrite bind_run by reflexivity.
  erewrite bind_ok_run by (apply from_io_ok; unfold flush_mmap; by rewrite (c_flush _ Hq)).
  unfold ret. by rewrite insert_insert_eq.
Qed.

(** A value of the type, stamped with its own identity, passes the gates. *)
Lemma verdict_own v :
  pod_ok v -> magic v = MAGIC T -> version v = VERSION T -> verdict (to_bytes v) = Ok tt.
Proof.
  intros Hv Hm Hve. pose proof (to_bytes_length v) as Hl. pose proof (size_of_range (T := T)).
  destruct (value_head (to_bytes v)) as [E1 E2]; [lia|].
  rewrite take_ge, from_to_bytes in E1, E2 by (first [done|lia]). unfold verdict.
  rewrite <- E1, <- E2, Hm, Hve, !Z.eqb_refl. by rewrite (proj2 (Z.ltb_ge _ _)) by lia.
Qed.

Lemma read_own path fs v :
  calm path -> pod_ok v -> magic v = MAGIC T -> version v = VERSION T ->
  fs !! path = Some (to_bytes v) -> read path fs = Ret (Ok v, fs).
Proof.
  intros Hq Hv Hm Hve Hf. rewrite (read_run path _ fs Hq Hf), verdict_own by done.
  by rewrite take_ge, from_to_bytes by (first [done|rewrite to_bytes_length; lia]).
Qed.

Lemma update_own path fs v w :
  calm path -> pod_ok v -> magic v = MAGIC T -> version v = VERSION T ->
  update path w (<[path := to_bytes v]> fs) = Ret (Ok tt, <[path := to_bytes w]> fs).
Proof.
  intros Hq Hv Hm Hve. rewrite (update_run path (to_bytes v)), verdict_own by first [done|apply lookup_insert_eq].
  rewrite to_bytes_length, Z2Nat.id, Z.eqb_refl by apply size_of_range. by rewrite insert_insert_eq.
Qed.

Lemma cleanup_run path fs c :
  calm path -> others fs = fs -> fs !! path = Some c -> cleanup path fs = Ret (Ok tt, delete path fs).
Proof.
  intros Hq Ho Hf. unfold cleanup. erewrite bind_run by apply path_exists_run. rewrite Hf.
  rewrite bool_decide_eq_true_2 by done. erewrite bind_run by reflexivity. rewrite Ho. apply from_io_ok.
  unfold remove_file, io. by rewrite (c_remove _ Hq), Hf.
Qed.

(** C37: Status round trip: whatever was at the path, [create] then [read] gives
    the value back, [update] then [read] gives the new value, [cleanup]
    removes the file and is a success when repeated, and other files are
    never touched. *)
Theorem status_roundtrip path fs v w :
  calm path -> others (<[path := to_bytes w]> fs) = <[path := to_bytes w]> fs ->
  pod_ok v -> magic v = MAGIC T -> version v = VERSION T ->
  pod_ok w -> magic w = MAGIC T -> version w = VERSION T ->
  let fs1 := <[path := to_bytes v]> fs in
  let fs2 := <[path := to_bytes w]> fs in
  let fs3 := delete path fs in
  create path v fs = Ret (Ok tt, fs1) /\ read path fs1 = Ret (Ok v, fs1) /\
  update path w fs1 = Ret (Ok tt, fs2) /\ read path fs2 = Ret (Ok w, fs2) /\
  cleanup path fs2 = Ret (Ok tt, fs3) /\ cleanup path fs3 = Ret (Ok tt, fs3) /\
  read (T := T) path fs3 = Ret (Err (Io ErrorKind.NotFound), fs3).
Proof.
  intros Hq Ho Hv Hvm Hvv Hw Hwm Hwv fs1 fs2 fs3.
  assert (Hf1 : fs1 !! path = Some (to_bytes v)) by apply lookup_insert_eq.
  assert (Hf2 : fs2 !! path = Some (to_bytes w)) by apply lookup_insert_eq.
  assert (Hf3 : fs3 !! path = None) by apply lookup_delete_eq.
  split_and!; [by apply create_status_run|by apply read_own| |by apply read_own|..].
  - by apply update_own.
  - unfold fs3. replace (delete path fs) with (delete path fs2) by apply delete_insert_eq.
    by eapply cleanup_run.
  - unfold cleanup. erewrite bind_run by apply path_exists_run. by rewrite Hf3.
  - unfold read. eapply bind_err_run, from_io_err. unfold open_rw, io.
    by rewrite (q_open _ (c_quiet _ Hq)), Hf3.
Qed.

(** [read] and [update] reject the same files with the same typed error,
    before anything is written: a short file, a foreign magic, another
    layout version, in this order; [read] then gives the leading
    [size_of::<T>()] bytes as a value. *)
Theorem status_gates_agree path fs c v :
  calm path -> fs !! path = Some c ->
  let n := Z.of_nat (length c) in
  (forall e, read (T := T) path fs = Ret (Err e, fs) <-> update path v fs = Ret (Err e, fs)) /\
  (n < size_of T -> read (T := T) path fs = Ret (Err (FileTooShort (size_of T) n), fs)) /\
  (size_of T <= n -> word_at c 0 8 <> MAGIC T ->
    read (T := T) path fs = Ret (Err (HeaderCorruption "magic" (MAGIC T) (word_at c 0 8)), fs)) /\
  (size_of T <= n -> word_at c 0 8 = MAGIC T -> word_at c 8 4 <> VERSION T ->
    read (T := T) path fs = Ret (Err (VersionMismatch (VERSION T) (word_at c 8 4)), fs)) /\
  (size_of T <= n -> word_at c 0 8 = MAGIC T -> word_at c 8 4 = VERSION T ->
    read (T := T) path fs = Ret (Ok (from_bytes (take (Z.to_nat (size_of T)) c)), fs)).
Proof.
  intros Hq Hc n. rewrite (read_run path c fs Hq Hc), (update_run path c fs v Hq Hc).
  split; [|unfold verdict; fold n; split_and!].
  - intros e. destruct (verdict c) as [[]|e']; [destruct (_ =? _)|]; naive_solver.
  - intros Hn. by rewrite (proj2 (Z.ltb_lt _ _)).
  - intros Hn Hm%Z.eqb_neq. by rewrite (proj2 (Z.ltb_ge _ _)), Hm.
  - intros Hn Hm%Z.eqb_eq Hv%Z.eqb_neq. by rewrite (proj2 (Z.ltb_ge _ _)), Hm, Hv.
  - intros Hn Hm%Z.eqb_eq Hv%Z.eqb_eq. by rewrite (proj2 (Z.ltb_ge _ _)), Hm, Hv.
Qed.

(** [update] never writes over foreign bytes: whatever faults occur, it
    leaves every file as it was unless the file held exactly one status of
    this type's magic and version, which then holds the new value. *)
Theorem update_only_own path fs v r fs' :
  update path v fs = Ret (r, fs') ->
  fs' = fs \/
  exists c, fs !! path = Some c /\ Z.of_nat (length c) = size_of T /\
    word_at c 0 8 = MAGIC T /\ word_at c 8 4 = VERSION T /\
    fs' = <[path := to_bytes v]> fs /\ (r = Ok tt \/ exists e, r = Err (Io e)).
Proof.
  intros E. pose proof (to_bytes_length v) as Hl. pose proof (size_of_range (T := T)).
  unfold update, bind_ok in E. apply bind_inv in E as (r1 & fs1 & E1 & E).
  assert (fs1 = fs /\ (r1 = Ok tt -> is_Some (fs !! path))) as [-> Hsome].
  { revert E1. unfold from_io, open_rw, io, bind, ret. destruct (open_fault path); [naive_solver|].
    destruct (fs !! path); naive_solver. }
  destruct r1 as [[]|e]; [|injection E as <- <-; by left].
  destruct (Hsome eq_refl) as [c Hc]. apply bind_inv in E as (r2 & fs2 & E2 & E).
  assert (fs2 = fs /\ forall m, r2 = Ok m -> m = c) as [-> Hm].
  { revert E2. unfold from_io, mmap_mut, bind, contents, ret. rewrite Hc. simpl.
    destruct (map_mut c) as [m|e] eqn:Em; [apply map_mut_contents in Em|]; naive_solver. }
  destruct r2 as [m|e]; [|injection E as <- <-; by left]. specialize (Hm m eq_refl) as ->.
  cbn zeta in E. destruct (_ <? _); [injection E as <- <-; by left|].
  apply bind_inv in E as (b8 & ? & [E8 ->]%lift_inv & E).
  apply bind_inv in E as (b4 & ? & [E4 ->]%lift_inv & E).
  apply read_at_inv in E8 as ->. apply read_at_inv in E4 as ->.
  fold (word_at c 0 8) (word_at c 8 4) in E.
  destruct (Z.eqb_spec (word_at c 0 8) (MAGIC T)); cbn [negb] in E; [|injection E as <- <-; by left].
  destruct (Z.eqb_spec (word_at c 8 4) (VERSION T)); cbn [negb] in E; [|injection E as <- <-; by left].
  apply bind_inv in E as (m' & ? & [Ecp ->]%lift_inv & E). unfold copy_from_slice in Ecp.
  destruct (Nat.eqb_spec (length c) (length (to_bytes v))); [|done]. injection Ecp as <-.
  right. exists c. split; [done|split; [lia|split; [done|split; [done|]]]].
  unfold bind, put_contents, modify, from_io, flush_mmap, io, ret in E.
  destruct (flush (to_bytes v)); unfold bind in E; naive_solver.
Qed.

(** [update] does not check what [read] checks of a longer file: a file that
    holds a valid status followed by more bytes is read without error, and
    makes [update] panic in [copy_from_slice]. *)
Theorem update_panics_on_longer_file path fs v w extra :
  calm path -> pod_ok v -> magic v = MAGIC T -> version v = VERSION T -> extra <> [] ->
  fs !! path = Some (to_bytes v ++ extra) ->
  read path fs = Ret (Ok v, fs) /\ update path w fs = Panic.
Proof.
  intros Hq Hv Hm Hve Hx Hf. pose proof (to_bytes_length v) as Hl. pose proof (size_of_range (T := T)).
  pose proof (verdict_own v Hv Hm Hve) as Hver.
  assert (He : verdict (to_bytes v ++ extra) = Ok tt).
  { revert Hver. unfold verdict. rewrite length_app. pose proof (head_fits (T := T)).
    destruct (Z.ltb_spec (Z.of_nat (length (to_bytes v))) (size_of T)); [done|].
    rewrite (proj2 (Z.ltb_ge _ _)) by lia.
    assert (Hw : forall off n, (off + n <= 12)%nat ->
      word_at (to_bytes v ++ extra) off n = word_at (to_bytes v) off n).
    { intros off n Hn. unfold word_at. rewrite drop_app_le by lia.
      by rewrite take_app_le by (rewrite length_drop; lia). }
    by rewrite !Hw by lia. }
  rewrite (read_run path _ fs Hq Hf), (update_run path _ fs w Hq Hf), He. split.
  - by rewrite take_app_length', from_to_bytes by done.
  - rewrite length_app. destruct (Z.eqb_spec (Z.of_nat (length (to_bytes v) + length extra)) (size_of T));
      [|done]. destruct extra; [done|simpl in *; lia].
Qed.

(** [cleanup] looks before it removes: when another process removes the file
    in between, the promised idempotent success is an error. *)
Theorem cleanup_race path fs :
  calm path -> is_Some (fs !! path) -> others fs !! path = None ->
  cleanup path fs = Ret (Err (Io ErrorKind.NotFound), others fs).
Proof.
  intros Hq [c Hc] Ho. unfold cleanup. erewrite bind_run by apply path_exists_run. rewrite Hc, bool_decide_eq_true_2 by done.
  erewrite bind_run by reflexivity. apply from_io_err. unfold remove_file, io.
  by rewrite (c_remove _ Hq), Ho.
Qed.
End props.
End StatusProps.
