(* ===== verification/StatusExample.v ===== *)
(** StatusExample: the [MountStatus] of the documentation of
    [src/src/status.rs], an instance of the interface, and the witnesses. *)

From S2P Require Import Prelude.
From S2P Require Import Error.
From S2P Require Import Header.
From S2P Require Import Pod.
From S2P Require Import Fs.
From S2P Require Import Create.
From S2P Require Import Status.
From S2P Require Import StatusProps.
Set Default Goal Selector "!".

Module StatusExample.
Import Status StatusProps.

Record MountStatus := mkMount {
  ms_magic : Z;
  ms_version : Z;
  is_mounted : Z;
}.

Definition mount_ok (m : MountStatus) : Prop :=
  u64 (ms_magic m) /\ u32 (ms_version m) /\ u32 (is_mounted m).

#[export] Instance mount_pod : Pod MountStatus := {
  size_of := 16;
  align_of := 8;
  to_bytes m := le_bytes 8 (ms_magic m) ++ le_bytes 4 (ms_version m) ++ le_bytes 4 (is_mounted m);
  from_bytes bs := mkMount (word_at bs 0 8) (word_at bs 8 4) (word_at bs 12 4);
  pod_ok := mount_ok;
}.

#[export] Instance mount_pod_laws : PodLaws MountStatus.
Proof.
  split; cbn [size_of align_of to_bytes from_bytes pod_ok mount_pod].
  - lia.
  - by exists 3.
  - done.
  - intros v. by rewrite !length_app, !le_bytes_length.
  - intros [m v i] (Hm & Hv & Hi); cbn [ms_magic ms_version is_mounted] in *. f_equal.
    + by apply word_at_here.
    + rewrite word_at_skip by by rewrite le_bytes_length. by apply word_at_here.
    + rewrite app_assoc, word_at_skip by by rewrite length_app, !le_bytes_length.
      rewrite <- (app_nil_r (le_bytes 4 i)). by apply word_at_here.
  - intros bs _. split_and!; apply word_at_range.
Qed.

#[export] Instance mount_status : PodStatus MountStatus := {
  MAGIC := 0x4D535455;
  VERSION := 1;
  magic := ms_magic;
  version := ms_version;
  set_magic m := mkMount 0x4D535455 (ms_version m) (is_mounted m);
}.

#[export] Instance mount_status_laws : PodStatusLaws MountStatus.
Proof.
  split; cbn; try done.
Qed.

(** ** Witnesses, on a system without faults *)

#[local] Existing Instance quiet_os.
#[local] Existing Instance plain_memmap2.
#[local] Existing Instance plain_memmap2_laws.

Lemma calm_demo path : calm path.
Proof. split; [split|..]; try done; intros c; by exists c. Qed.

Definition mounted (i : Z) : MountStatus := mkMount 0x4D535455 1 i.
Definition status_path : string := "mount.status".

Lemma mounted_ok i : u32 i -> pod_ok (mounted i).
Proof. intros Hi. split_and!; [by vm_compute|by vm_compute|done]. Qed.

Lemma status_roundtrip_witness :
  let fs1 := <[status_path := to_bytes (mounted 0)]> (∅ : files) in
  let fs2 := <[status_path := to_bytes (mounted 7)]> (∅ : files) in
  read status_path fs1 = Ret (Ok (mounted 0), fs1) /\
  update status_path (mounted 7) fs1 = Ret (Ok tt, fs2) /\
  read status_path fs2 = Ret (Ok (mounted 7), fs2).
Proof.
  destruct (status_roundtrip status_path ∅ (mounted 0) (mounted 7) (calm_demo _))
    as (_ & H2 & H3 & H4 & _).
  - reflexivity.
  - apply mounted_ok. unfold u32. lia.
  - reflexivity.
  - reflexivity.
  - apply mounted_ok. unfold u32. lia.
  - reflexivity.
  - reflexivity.
  - split; [exact H2|split; [exact H3|exact H4]].
Defined.

Lemma status_gates_agree_witness :
  let c := to_bytes (mkMount 0x4D535455 9 0) in
  let fs := <[status_path := c]> (∅ : files) in
  read (T := MountStatus) status_path fs = Ret (Err (VersionMismatch 1 9), fs) /\
  update status_path (mounted 1) fs = Ret (Err (VersionMismatch 1 9), fs).
Proof.
  intros c fs.
  destruct (status_gates_agree status_path fs c (mounted 1) (calm_demo _))
    as (Hagree & _ & _ & Hv & _); [apply lookup_insert_eq|].
  assert (E : read (T := MountStatus) status_path fs = Ret (Err (VersionMismatch 1 9), fs)).
  { apply Hv; vm_compute; congruence. }
  split; [exact E|]. apply Hagree. exact E.
Defined.

Lemma update_only_own_witness :
  let fs := <[status_path := to_bytes (mounted 0)]> (∅ : files) in
  let fs' := <[status_path := to_bytes (mounted 1)]> fs in
  update status_path (mounted 1) fs = Ret (Ok tt, fs') /\
  (fs' = fs \/ exists c, fs !! status_path = Some c /\ Z.of_nat (length c) = 16).
Proof.
  intros fs fs'.
  assert (E : update status_path (mounted 1) fs = Ret (Ok tt, fs')) by (vm_compute; reflexivity).
  split; [exact E|]. destruct (update_only_own status_path fs (mounted 1) (Ok tt) fs' E)
    as [H|(c & Hc & Hl & _)]; [left; exact H|right; exists c; split; [exact Hc|exact Hl]].
Defined.

Lemma update_panics_on_longer_file_witness :
  let fs := <[status_path := to_bytes (mounted 0) ++ [Byte.x00]]> (∅ : files) in
  read status_path fs = Ret (Ok (mounted 0), fs) /\ update status_path (mounted 1) fs = Panic.
Proof.
  apply (update_panics_on_longer_file status_path _ (mounted 0) (mounted 1) [Byte.x00] (calm_demo _)).
  - apply mounted_ok. unfold u32. lia.
  - reflexivity.
  - reflexivity.
  - discriminate.
  - apply lookup_insert_eq.
Defined.

(** Another process removes the file between the look and the removal. *)
Definition racing_os : Os := {|
  open_fault _ := None; metadata_fault _ := None; set_len_fault _ := None;
  remove_fault _ := None; others _ := ∅ |}.

Lemma calm_racing path : calm (H := racing_os) path.
Proof. split; [split|..]; try done; intros c; by exists c. Qed.

Lemma cleanup_race_witness :
  cleanup (H := racing_os) status_path (<[status_path := [Byte.x00]]> (∅ : files)) =
    Ret (Err (Io ErrorKind.NotFound), ∅).
Proof.
  apply (cleanup_race (H := racing_os) status_path _ (calm_racing _)).
  - eexists. apply lookup_insert_eq.
  - reflexivity.
Defined.
End StatusExample.
