(* ===== verification/StatusTorn.v ===== *)
(** StatusTorn: a status file read while its writer writes, [src/src/status.rs].

    [update] and [create] copy the value into the shared mapping byte by byte
    ([copy_from_slice], in whatever order the copy takes) and [read] takes the
    value out byte by byte ([ptr::read]); nothing orders the two.  The writer
    is one process, as the module asks; its steps and a reader's interleave
    freely.  A mapping shows the file as it is now: a byte past the end of a
    file that has shrunk reads zero up to the end of the page and faults
    (SIGBUS) beyond it.

    A read that overlaps updates returns a mixture of the values written
    ([concurrent_read_mixes]), and every mixture of two consecutive values
    occurs ([every_mixture_is_read]). *)

From S2P Require Import Prelude.
From S2P Require Import Error.
From S2P Require Import Header.
From S2P Require Import Pod.
From S2P Require Import Fs.
From S2P Require Import Create.
From S2P Require Import Status.
From S2P Require Import StatusProps.
From S2P Require Import StatusExample.
From stdpp Require Import relations.
Set Default Goal Selector "!".
Open Scope Z_scope.

Module StatusTorn.
Import Status StatusProps.

Definition PAGE_SIZE : nat := 4096.

(** What a mapping of a file of contents [c] shows at offset [k]. *)
Definition mapped_byte (c : list byte) (k : nat) : option byte :=
  match c !! k with
  | Some b => Some b
  | None =>
      if Nat.ltb (k / PAGE_SIZE) ((length c + (PAGE_SIZE - 1)) / PAGE_SIZE) then Some Byte.x00 else None
  end.

(** The writer: between calls, [create] past its truncation, copying the bytes
    of a value (those at the offsets in [todo] not yet), or stopped by an
    error or a panic. *)
Inductive writer (T : Type) :=
  | WIdle
  | WTruncated (v : T)
  | WCopying (v : T) (todo : list nat)
  | WFailed (e : ShmRingError)
  | WPanicked.
Arguments WIdle {T}.
Arguments WTruncated {T}.
Arguments WCopying {T}.
Arguments WFailed {T}.
Arguments WPanicked {T}.

(** A reader: between calls, taking bytes, returned, or killed by the fault.
    [since] is for the statements: how many values had been completely written
    when it mapped the file. *)
Inductive reader (T : Type) :=
  | RIdle
  | RTaking (since : nat) (got : list (option byte))
  | RReturned (since : nat) (r : result ShmRingError T)
  | RFault.
Arguments RIdle {T}.
Arguments RTaking {T}.
Arguments RReturned {T}.
Arguments RFault {T}.

(** The file, the two processes, and the values whose copy has begun, in
    order. *)
Record shared (T : Type) := mkShared {
  f_bytes : list byte;
  f_writer : writer T;
  f_reader : reader T;
  f_values : list T;
}.
Arguments mkShared {T}.
Arguments f_bytes {T}.
Arguments f_writer {T}.
Arguments f_reader {T}.
Arguments f_values {T}.

Inductive wact (T : Type) :=
  | AUpdate (v : T)
  | ACreate (v : T)
  | ASetLen
  | ACopy (k : nat)
  | AFlush.
Arguments AUpdate {T}.
Arguments ACreate {T}.
Arguments ASetLen {T}.
Arguments ACopy {T}.
Arguments AFlush {T}.
Inductive ract := AMap | ATake (k : nat) | AGates.

Section machine.
Context `{Memmap2} {T : Type} `{Pod T} `{!PodStatus T}.

Definition offsets : list nat := seq 0 (Z.to_nat (size_of T)).

(** [update]: its gates, then the copy; [create]: truncate, extend, copy. *)
Definition writer_step (s : shared T) (a : wact T) : option (shared T) :=
  match f_writer s, a with
  | WIdle, AUpdate v =>
      Some (match verdict (T := T) (f_bytes s) with
        | Err e => mkShared (f_bytes s) (WFailed e) (f_reader s) (f_values s)
        | Ok _ =>
            if Nat.eqb (length (f_bytes s)) (length (to_bytes v))
            then mkShared (f_bytes s) (WCopying v offsets) (f_reader s) (f_values s ++ [v])
            else mkShared (f_bytes s) WPanicked (f_reader s) (f_values s)
        end)
  | WIdle, ACreate v => Some (mkShared [] (WTruncated v) (f_reader s) (f_values s))
  | WTruncated v, ASetLen =>
      Some (mkShared (replicate (Z.to_nat (size_of T)) Byte.x00) (WCopying v offsets) (f_reader s)
              (f_values s ++ [v]))
  | WCopying v todo, ACopy k =>
      if decide (k ∈ todo) then
        b ← to_bytes v !! k;
        Some (mkShared (<[k := b]> (f_bytes s)) (WCopying v (filter (fun j => j <> k) todo)) (f_reader s)
                (f_values s))
      else None
  | WCopying v [], AFlush => Some (mkShared (f_bytes s) WIdle (f_reader s) (f_values s))
  | _, _ => None
  end.

(** The gates of [read] on the value taken out. *)
Definition gates (v : T) : result ShmRingError T :=
  if negb (magic_matches v) then Err (HeaderCorruption "magic" (MAGIC T) (magic v)) else
  if negb (version_matches v) then Err (VersionMismatch (VERSION T) (version v)) else Ok v.

Definition settled (s : shared T) : nat :=
  match f_writer s with WCopying _ _ => pred (length (f_values s)) | _ => length (f_values s) end.

(** [read]: map, check the length, take the bytes, check the value. *)
Definition reader_step (s : shared T) (a : ract) : option (reader T) :=
  match f_reader s, a with
  | RIdle, AMap =>
      Some (match Fs.map (f_bytes s) with
        | Err e => RReturned (settled s) (Err (Io e))
        | Ok m =>
            if Z.of_nat (length m) <? size_of T
            then RReturned (settled s) (Err (FileTooShort (size_of T) (Z.of_nat (length m))))
            else RTaking (settled s) (replicate (Z.to_nat (size_of T)) None)
        end)
  | RTaking since got, ATake k =>
      match got !! k with
      | Some None =>
          Some (match mapped_byte (f_bytes s) k with
            | Some b => RTaking since (<[k := Some b]> got)
            | None => RFault
            end)
      | _ => None
      end
  | RTaking since got, AGates =>
      bs ← mapM (M := option) id got; Some (RReturned since (gates (from_bytes bs)))
  | RReturned _ _, AMap => Some RIdle
  | _, _ => None
  end.

Definition torn_step (s : shared T) (a : wact T + ract) : option (shared T) :=
  match a with
  | inl a => writer_step s a
  | inr a => r ← reader_step s a; Some (mkShared (f_bytes s) (f_writer s) r (f_values s))
  end.

Fixpoint torn_run (acts : list (wact T + ract)) (s : shared T) : option (shared T) :=
  match acts with [] => Some s | a :: acts => s' ← torn_step s a; torn_run acts s' end.

(** A value of this type's identity. *)
Definition own (v : T) : Prop := pod_ok v /\ magic v = MAGIC T /\ version v = VERSION T.

(** Only updates, with values of this identity. *)
Definition updating (a : wact T + ract) : Prop :=
  match a with inl (AUpdate v) => own v | inl (ACreate _) => False | _ => True end.

(** A valid status file, nobody in a call. *)
Definition status_file (v : T) : shared T := mkShared (to_bytes v) WIdle RIdle [v].
End machine.

(** ** Reads during updates *)

Section updates.
Context `{Memmap2} `{!Memmap2Laws} {T : Type} `{Pod T} `{!PodLaws T} `{!PodStatus T} `{!PodStatusLaws T}.
Context (Hmap : forall c, exists m, Fs.map c = Ok m).
Implicit Types (s : shared T) (v : T).

(** Byte [k] of one of the values from the [since]-th on. *)
Definition byte_from (since : nat) (vs : list T) (k : nat) (b : byte) : Prop :=
  exists j v, (pred since <= j)%nat /\ vs !! j = Some v /\ to_bytes v !! k = Some b.

Record file_ok s : Prop := mkFileOk {
  fo_own v : v ∈ f_values s -> own v;
  fo_some : (0 < settled s)%nat;
  fo_length : length (f_bytes s) = Z.to_nat (size_of T);
  fo_writer : match f_writer s with
    | WIdle => exists v, list.last (f_values s) = Some v /\ f_bytes s = to_bytes v
    | WCopying v todo => list.last (f_values s) = Some v /\
        forall k, (k < Z.to_nat (size_of T))%nat -> k ∉ todo -> f_bytes s !! k = to_bytes v !! k
    | _ => False
    end;
  fo_bytes k b : f_bytes s !! k = Some b -> byte_from (settled s) (f_values s) k b;
}.

Definition taken_ok s : Prop :=
  match f_reader s with
  | RIdle => True
  | RTaking since got =>
      (since <= settled s)%nat /\ (0 < since)%nat /\ length got = Z.to_nat (size_of T) /\
      forall k b, got !! k = Some (Some b) -> byte_from since (f_values s) k b
  | RReturned since r =>
      exists bs, r = Ok (from_bytes bs) /\ (0 < since)%nat /\ length bs = Z.to_nat (size_of T) /\
        forall k b, bs !! k = Some b -> byte_from since (f_values s) k b
  | RFault => False
  end.

(** Bytes mixed from values of this identity have the head of any of them. *)
Lemma own_words v : own v -> word_at (to_bytes v) 0 8 = MAGIC T /\ word_at (to_bytes v) 8 4 = VERSION T.
Proof.
  intros (Hv & <- & <-). pose proof (to_bytes_length v) as Hl.
  split; [rewrite <- magic_at_0 by done|rewrite <- version_at_8 by done]; by rewrite from_to_bytes.
Qed.

Lemma take_drop_lookup (bs : list byte) off n k :
  (k < n)%nat -> take n (drop off bs) !! k = bs !! (off + k)%nat.
Proof. intros Hk. by rewrite lookup_take_lt, lookup_drop. Qed.

Lemma mixed_word bs since vs off n x :
  (forall v, v ∈ vs -> word_at (to_bytes v) off n = x) -> length bs = Z.to_nat (size_of T) ->
  (off + n <= Z.to_nat (size_of T))%nat -> (0 < n)%nat ->
  (forall k b, bs !! k = Some b -> byte_from since vs k b) -> word_at bs off n = x.
Proof.
  intros Hvs Hl Hn Hpos Hb.
  assert (Hk : forall k, (k < n)%nat -> take n (drop off bs) !! k = le_bytes n x !! k).
  { intros k Hk. rewrite take_drop_lookup by done.
    destruct (lookup_lt_is_Some_2 bs (off + k)) as [b E]; [lia|]. rewrite E.
    destruct (Hb _ _ E) as (j & v & _ & Hj & Ev). apply list_elem_of_lookup_2, Hvs in Hj.
    rewrite <- Hj, word_at_bytes, take_drop_lookup by (rewrite ?to_bytes_length; lia). done. }
  destruct (lookup_lt_is_Some_2 bs off) as [b E]; [lia|].
  destruct (Hb _ _ E) as (j & v & _ & Hj & _). apply list_elem_of_lookup_2, Hvs in Hj.
  rewrite <- Hj at 1. unfold word_at. f_equal. apply list_eq_same_length with (n := n).
  - rewrite length_take, length_drop, to_bytes_length. lia.
  - rewrite length_take, length_drop. lia.
  - intros k b1 b2 Hlt E1 E2. rewrite Hk in E1 by done.
    rewrite <- Hj, word_at_bytes, E2 in E1 by (rewrite to_bytes_length; lia). by simplify_eq.
Qed.

Lemma mixed_head bs since vs :
  (forall v, v ∈ vs -> own v) -> length bs = Z.to_nat (size_of T) ->
  (forall k b, bs !! k = Some b -> byte_from since vs k b) ->
  word_at bs 0 8 = MAGIC T /\ word_at bs 8 4 = VERSION T.
Proof.
  intros Hvs Hl Hb. pose proof (head_fits (T := T)).
  split; (eapply mixed_word; [|done|lia|lia|exact Hb]); intros v Hv; by apply own_words, Hvs.
Qed.

(** The gates do not tell a mixture from a value. *)
Lemma mixed_passes bs since vs :
  (forall v, v ∈ vs -> own v) -> length bs = Z.to_nat (size_of T) ->
  (forall k b, bs !! k = Some b -> byte_from since vs k b) ->
  verdict (T := T) bs = Ok tt /\ gates (from_bytes bs) = Ok (from_bytes bs).
Proof.
  intros Hvs Hl Hb. pose proof (size_of_range (T := T)). destruct (mixed_head bs since vs Hvs Hl Hb) as [Hm Hv]. split.
  - unfold verdict. rewrite Hm, Hv, !Z.eqb_refl. by rewrite (proj2 (Z.ltb_ge _ _)) by lia.
  - unfold gates, magic_matches, version_matches.
    by rewrite magic_at_0, version_at_8, Hm, Hv, !Z.eqb_refl by done.
Qed.

Lemma byte_from_mono since since' vs vs' k b :
  (since <= since')%nat -> vs `prefix_of` vs' -> byte_from since' vs k b -> byte_from since vs' k b.
Proof.
  intros Hle Hp (j & v & Hj & Hv & Hb). exists j, v. split; [lia|split; [|done]].
  by eapply prefix_lookup_Some.
Qed.

Lemma byte_from_last vs v k b :
  list.last vs = Some v -> to_bytes v !! k = Some b -> byte_from (length vs) vs k b.
Proof.
  rewrite last_lookup. intros Hv Hb. by exists (pred (length vs)), v.
Qed.

(** A reader in the middle is not disturbed. *)
Lemma taken_grows s c w vs :
  taken_ok s -> f_values s `prefix_of` vs ->
  (settled s <= settled (mkShared c w (f_reader s) vs))%nat -> taken_ok (mkShared c w (f_reader s) vs).
Proof.
  unfold taken_ok; cbn [f_reader f_values]. intros Ht Hp Hle. destruct (f_reader s) as [|since got|since r|]; try done.
  - destruct Ht as (? & ? & ? & H4). split_and!; [lia|done|done|]. intros k b Hk.
    eapply (byte_from_mono since since); [done|exact Hp|by apply H4].
  - destruct Ht as (bs & ? & ? & ? & H4). exists bs. split_and!; [done..|]. intros k b Hk.
    eapply (byte_from_mono since since); [done|exact Hp|by apply H4].
Qed.

Lemma status_file_ok v : own v -> file_ok (status_file v) /\ taken_ok (status_file v).
Proof.
  intros Hv. split; [|done]. split; cbn.
  - by intros v' ->%list_elem_of_singleton.
  - lia.
  - apply to_bytes_length.
  - by exists v.
  - intros k b Hk. by exists 0%nat, v.
Qed.

Lemma update_begins s v s' :
  file_ok s -> taken_ok s -> own v -> writer_step s (AUpdate v) = Some s' ->
  f_writer s = WIdle -> file_ok s' /\ taken_ok s'.
Proof.
  intros [Ho Hs Hl Hw Hb] Ht Hv E Ei. unfold writer_step in E. rewrite Ei in E, Hw. simplify_eq.
  destruct (mixed_passes _ _ _ Ho Hl Hb) as [-> _]. rewrite to_bytes_length, Hl, Nat.eqb_refl.
  unfold settled in Hs, Hb. rewrite Ei in Hs, Hb. destruct Hw as (v0 & Hlast & Hbytes). split.
  - split; cbn; try done.
    + intros v' [Hin| ->%list_elem_of_singleton]%elem_of_app; [by apply Ho|done].
    + unfold settled; cbn. rewrite length_app; simpl. lia.
    + split; [by rewrite last_snoc|]. intros k Hk Hnot. destruct Hnot. by apply elem_of_seq; lia.
    + intros k b Hk. eapply byte_from_mono; [|by apply prefix_app_r|by apply Hb].
      unfold settled; cbn. rewrite length_app; simpl. lia.
  - apply taken_grows; [done|by apply prefix_app_r|]. unfold settled. rewrite Ei. cbn.
    rewrite length_app; simpl. lia.
Qed.

Lemma update_copies s v todo k s' :
  file_ok s -> taken_ok s -> f_writer s = WCopying v todo -> writer_step s (ACopy k) = Some s' ->
  file_ok s' /\ taken_ok s'.
Proof.
  intros [Ho Hs Hl Hw Hb] Ht Ei E. unfold writer_step in E. rewrite Ei in E, Hw.
  destruct (decide (k ∈ todo)); [|by destruct todo].
  assert (E' : (b ← to_bytes v !! k; Some (mkShared (<[k:=b]> (f_bytes s))
    (WCopying v (filter (fun j => j <> k) todo)) (f_reader s) (f_values s))) = Some s') by (by destruct todo).
  apply bind_Some in E' as (b & Hbk & [= <-]). unfold settled in Hs, Hb. rewrite Ei in Hs, Hb.
  destruct Hw as (Hlast & Hdone). pose proof (lookup_lt_Some _ _ _ Hbk) as Hlt. rewrite to_bytes_length in Hlt. split.
  - split; cbn; try done.
    + by rewrite length_insert.
    + split; [done|]. intros j Hj Hnot. destruct (decide (j = k)) as [->|Hne].
      * rewrite list_lookup_insert_eq by lia. done.
      * rewrite list_lookup_insert_ne by done. apply Hdone; [done|].
        intros Hin. apply Hnot. by apply list_elem_of_filter.
    + intros j b' Hj. unfold settled; cbn. destruct (decide (j = k)) as [->|Hne].
      * rewrite list_lookup_insert_eq in Hj by lia. simplify_eq.
        apply (byte_from_mono _ (length (f_values s)) (f_values s)); [lia|done|by apply (byte_from_last _ v)].
      * rewrite list_lookup_insert_ne in Hj by done. by apply Hb.
  - apply taken_grows; [done|done|]. unfold settled. by rewrite Ei.
Qed.

Lemma update_ends s v s' :
  file_ok s -> taken_ok s -> f_writer s = WCopying v [] -> writer_step s AFlush = Some s' ->
  file_ok s' /\ taken_ok s'.
Proof.
  intros [Ho Hs Hl Hw Hb] Ht Ei E. unfold writer_step in E. rewrite Ei in E, Hw. simplify_eq.
  unfold settled in Hs, Hb. rewrite Ei in Hs, Hb. destruct Hw as (Hlast & Hdone).
  assert (Ebytes : f_bytes s = to_bytes v).
  { apply list_eq. intros k. destruct (decide (k < Z.to_nat (size_of T))%nat) as [Hk|Hk].
    - apply Hdone; [done|]. by apply not_elem_of_nil.
    - rewrite !lookup_ge_None_2; [done|rewrite to_bytes_length; lia|lia]. }
  split.
  - split; cbn; try done.
    + unfold settled; cbn. lia.
    + by exists v.
    + intros k b Hk. rewrite Ebytes in Hk. by apply (byte_from_last _ v).
  - apply taken_grows; [done|done|]. unfold settled. rewrite Ei. cbn. lia.
Qed.

Lemma writer_keeps s a s' :
  file_ok s -> taken_ok s -> updating (inl a) -> writer_step s a = Some s' -> file_ok s' /\ taken_ok s'.
Proof.
  intros Hf Ht Hu E. pose proof (fo_writer _ Hf) as Hw.
  destruct (f_writer s) as [|v|v todo|e|] eqn:Ei; [|done| |done|done].
  - destruct a; unfold writer_step in E; rewrite Ei in E; try done.
    eapply update_begins; [done..|unfold writer_step; by rewrite Ei|done].
  - destruct a as [v'|v'| |k|].
    1-3: unfold writer_step in E; rewrite Ei in E; by destruct todo.
    + by eapply update_copies.
    + destruct todo as [|k todo]; [by eapply update_ends|]. unfold writer_step in E. by rewrite Ei in E.
Qed.

Lemma file_ok_reader s r : file_ok s -> file_ok (mkShared (f_bytes s) (f_writer s) r (f_values s)).
Proof. intros []. by split. Qed.

Lemma all_taken (got : list (option byte)) bs : mapM (M := option) id got = Some bs -> got = Some <$> bs.
Proof. intros Hf%mapM_Some. induction Hf; simplify_eq/=; congruence. Qed.

Lemma reader_keeps s a r :
  file_ok s -> taken_ok s -> reader_step s a = Some r ->
  taken_ok (mkShared (f_bytes s) (f_writer s) r (f_values s)).
Proof.
  intros [Ho Hs Hl _ Hb] Ht E. pose proof (size_of_range (T := T)). unfold reader_step, taken_ok in *.
  destruct (f_reader s) as [|since got|since res|], a; try done; cbn [f_reader f_values] in *.
  - destruct (Hmap (f_bytes s)) as [m Em]. rewrite Em in E. apply map_contents in Em as ->.
    rewrite (proj2 (Z.ltb_ge _ _)) in E by lia. simplify_eq.
    split_and!; [done|done|by rewrite length_replicate|]. by intros k b [? _]%lookup_replicate.
  - destruct Ht as (Hle & Hp & Hlen & Hgot). destruct (got !! k) as [[|]|] eqn:Ek; try done.
    destruct (lookup_lt_is_Some_2 (f_bytes s) k) as [b Hk].
    { rewrite Hl, <- Hlen. by eapply lookup_lt_Some. }
    unfold mapped_byte in E. rewrite Hk in E. simplify_eq. split_and!; [done|done|by rewrite length_insert|].
    intros j b' Hj. destruct (decide (j = k)) as [->|Hne].
    + rewrite list_lookup_insert_eq in Hj by (by eapply lookup_lt_Some). simplify_eq.
      eapply (byte_from_mono since (settled s)); [done|done|by apply Hb].
    + rewrite list_lookup_insert_ne in Hj by done. by apply Hgot.
  - destruct Ht as (Hle & Hp & Hlen & Hgot). apply bind_Some in E as (bs & E%all_taken & [= <-]). subst got.
    rewrite length_fmap in Hlen.
    assert (Hbs : forall k b, bs !! k = Some b -> byte_from since (f_values s) k b).
    { intros k b Hk. apply Hgot. by rewrite list_lookup_fmap, Hk. }
    exists bs. by destruct (mixed_passes bs since _ Ho Hlen Hbs) as [_ ->].
  - by simplify_eq.
Qed.

Definition update_step s s' : Prop := exists a, updating a /\ torn_step s a = Some s'.

Lemma torn_ok v0 s : own v0 -> rtc update_step (status_file v0) s -> file_ok s /\ taken_ok s.
Proof.
  intros Hv Hs. assert (Hok : file_ok (status_file v0) /\ taken_ok (status_file v0)) by (by apply status_file_ok).
  induction Hs as [|s1 s2 s3 ([a|a] & Hu & E) _ IH]; [done| |]; apply IH; destruct Hok as [Hf Ht]; cbn in E.
  - by eapply writer_keeps.
  - apply bind_Some in E as (r & E & [= <-]). split; [by apply file_ok_reader|by eapply reader_keeps].
Qed.

(** C33: A read concurrent with updates never faults and is never refused, and
    the updates are never refused either; what the read returns is a value
    each byte of which is that byte of some value written, none older than
    the last one complete when the file was mapped; a read no update overlaps
    returns exactly the current value.  (The gates look at the identity,
    which all the values share, so they cannot tell a mixture.) *)
Theorem concurrent_read_mixes v0 s :
  own v0 -> rtc update_step (status_file v0) s ->
  f_reader s <> RFault /\ (f_writer s = WIdle \/ exists v todo, f_writer s = WCopying v todo) /\
  forall since r, f_reader s = RReturned since r ->
    exists bs, r = Ok (from_bytes bs) /\ length bs = Z.to_nat (size_of T) /\
      (forall k b, bs !! k = Some b ->
        exists j v, (pred since <= j)%nat /\ f_values s !! j = Some v /\ to_bytes v !! k = Some b) /\
      (since = length (f_values s) -> exists v, list.last (f_values s) = Some v /\ r = Ok v).
Proof.
  intros Hv Hs. destruct (torn_ok v0 s Hv Hs) as [Hf Ht]. pose proof (fo_writer _ Hf) as Hw. split_and!.
  - intros E. unfold taken_ok in Ht. by rewrite E in Ht.
  - destruct (f_writer s); [by left|done|right; by eexists _, _|done|done].
  - intros since r E. unfold taken_ok in Ht. rewrite E in Ht. destruct Ht as (bs & -> & Hp & Hl & Hbs).
    exists bs. split_and!; [done..|]. intros Es.
    destruct (list.last (f_values s)) as [v|] eqn:El.
    + exists v. split; [done|]. f_equal. rewrite last_lookup in El.
      rewrite <- (from_to_bytes v) by (by apply (fo_own _ Hf), list_elem_of_lookup_2 with (1 := El)).
      f_equal. apply list_eq_same_length with (n := length bs);
        [rewrite to_bytes_length; lia|done|]. intros k b1 b2 _ E1 E2.
      destruct (Hbs _ _ E1) as (j & v' & Hj & Hv' & Hb). pose proof (lookup_lt_Some _ _ _ Hv').
      assert (j = pred (length (f_values s))) as -> by lia. simplify_eq. congruence.
    + apply last_None in El. rewrite El in Es. simpl in Es. lia.
Qed.
(** ** Every mixture occurs *)

(** The bytes of [w] at the offsets [f] selects and those of [v] elsewhere. *)
Definition mixture (f : nat -> bool) v w : list byte :=
  imap (fun k b => if f k then default b (to_bytes w !! k) else b) (to_bytes v).

Lemma mixture_lookup f v w k :
  mixture f v w !! k = if f k then to_bytes w !! k else to_bytes v !! k.
Proof.
  unfold mixture. rewrite list_lookup_imap. destruct (to_bytes v !! k) as [b|] eqn:E; simpl.
  - destruct (f k); [|done]. apply lookup_lt_Some in E. rewrite to_bytes_length in E.
    by destruct (lookup_lt_is_Some_2 (to_bytes w) k) as [b' ->]; [rewrite to_bytes_length|].
  - destruct (f k); [|done]. apply lookup_ge_None in E. rewrite to_bytes_length in E.
    symmetry. apply lookup_ge_None. by rewrite to_bytes_length.
Qed.

Lemma offsets_in k : k ∈ offsets (T := T) <-> (k < Z.to_nat (size_of T))%nat.
Proof. unfold offsets. rewrite elem_of_seq. lia. Qed.

Lemma all_there (bs : list byte) : mapM (M := option) id (Some <$> bs) = Some bs.
Proof. apply mapM_Some, Forall2_fmap_l, Forall_Forall2_diag, Forall_true. done. Qed.

Lemma filter_others k (l : list nat) : k ∉ l -> filter (fun j => j <> k) l = l.
Proof.
  induction l as [|j l IH]; [done|]. intros [Hj Hl]%not_elem_of_cons.
  by rewrite filter_cons_True, IH.
Qed.

(** The bytes at [ks] taken, in that order. *)
Lemma takes_reach c wr vs since got ks :
  NoDup ks -> (forall k, k ∈ ks -> got !! k = Some None /\ is_Some (c !! k)) ->
  exists got', rtc update_step (mkShared c wr (RTaking since got) vs) (mkShared c wr (RTaking since got') vs) /\
    forall k, got' !! k = if decide (k ∈ ks) then Some (c !! k) else got !! k.
Proof.
  intros Hnd. revert got. induction Hnd as [|k ks Hk Hnd IH]; intros got Hks.
  { exists got. split; [done|]. intros k. by rewrite decide_False by apply not_elem_of_nil. }
  destruct (Hks k ltac:(by left)) as [Hg [b Hb]].
  destruct (IH (<[k := Some b]> got)) as (got' & Hr & Hl).
  { intros j Hj. rewrite list_lookup_insert_ne by (by intros ->). apply Hks. by right. }
  exists got'. split.
  - eapply rtc_l; [|exact Hr]. exists (inr (ATake k)). split; [done|].
    cbn [torn_step reader_step f_reader f_bytes f_writer f_values]. rewrite Hg. unfold mapped_byte. by rewrite Hb.
  - intros j. rewrite Hl. destruct (decide (j = k)) as [->|Hne].
    + rewrite decide_False, decide_True by (done || by left).
      rewrite list_lookup_insert_eq by (by eapply lookup_lt_Some). by rewrite Hb.
    + rewrite list_lookup_insert_ne by done. apply decide_ext. rewrite elem_of_cons. naive_solver.
Qed.

(** The copy run to its end. *)
Lemma copies_reach c w r vs todo :
  NoDup todo -> (forall k, k ∈ todo -> (k < length c)%nat) -> length c = Z.to_nat (size_of T) ->
  exists c', rtc update_step (mkShared c (WCopying w todo) r vs) (mkShared c' (WCopying w []) r vs) /\
    forall k, c' !! k = if decide (k ∈ todo) then to_bytes w !! k else c !! k.
Proof.
  intros Hnd. revert c. induction Hnd as [|k todo Hk Hnd IH]; intros c Hin Hl.
  { exists c. split; [done|]. intros k. by rewrite decide_False by apply not_elem_of_nil. }
  pose proof (Hin k ltac:(by left)) as Hlt.
  destruct (lookup_lt_is_Some_2 (to_bytes w) k) as [b Hb]; [rewrite to_bytes_length; lia|].
  assert (Ef : filter (fun j => j <> k) (k :: todo) = todo).
  { rewrite filter_cons_False by (by intros []). by apply filter_others. }
  destruct (IH (<[k := b]> c)) as (c' & Hr & Hc').
  { intros j Hj. rewrite length_insert. apply Hin. by right. }
  { by rewrite length_insert. }
  exists c'. split.
  - eapply rtc_l; [|exact Hr]. exists (inl (ACopy k)). split; [done|]. cbn [torn_step writer_step f_writer].
    rewrite decide_True by (by left). rewrite Hb. cbn [mbind option_bind]. by rewrite Ef.
  - intros j. rewrite Hc'. destruct (decide (j = k)) as [->|Hne].
    + rewrite decide_False, decide_True by (done || by left). by rewrite list_lookup_insert_eq, Hb.
    + rewrite list_lookup_insert_ne by done. apply decide_ext. rewrite elem_of_cons. naive_solver.
Qed.

(** The offsets of each half, before anything is taken, and once all is. *)
Definition picked (f : nat -> bool) (b : bool) : list nat := filter (fun k => f k = b) (offsets (T := T)).
Definition nothing : list (option byte) := replicate (Z.to_nat (size_of T)) None.

Lemma picked_in f b k : k ∈ picked f b <-> f k = b /\ (k < Z.to_nat (size_of T))%nat.
Proof. unfold picked. by rewrite list_elem_of_filter, offsets_in. Qed.

Lemma picked_all f v w (got : list (option byte)) :
  (forall k, got !! k = if decide (k ∈ picked f true) then Some (to_bytes w !! k)
    else if decide (k ∈ picked f false) then Some (to_bytes v !! k) else nothing !! k) ->
  got = Some <$> mixture f v w.
Proof.
  intros Hgot. apply list_eq. intros k. rewrite Hgot, list_lookup_fmap, mixture_lookup.
  destruct (decide (k < Z.to_nat (size_of T))%nat) as [Hk|Hk].
  - destruct (lookup_lt_is_Some_2 (to_bytes v) k) as [b Eb]; [by rewrite to_bytes_length|].
    destruct (lookup_lt_is_Some_2 (to_bytes w) k) as [b' Eb']; [by rewrite to_bytes_length|].
    rewrite Eb, Eb'. destruct (f k) eqn:Hf.
    + by rewrite decide_True by (by apply picked_in).
    + by rewrite decide_False, decide_True by (rewrite picked_in, ?Hf; naive_solver).
  - rewrite !decide_False by (rewrite picked_in; naive_solver). unfold nothing.
    rewrite !lookup_ge_None_2 by (rewrite ?length_replicate, ?to_bytes_length; lia).
    by destruct (f k).
Qed.

(** The first value passes the gates of [update], and the mixture those of
    [read]. *)
Lemma mixture_passes f v w :
  own v -> own w ->
  verdict (T := T) (to_bytes v) = Ok tt /\
  gates (from_bytes (mixture f v w)) = Ok (from_bytes (mixture f v w)).
Proof.
  intros Hv Hw. split.
  - apply (mixed_passes _ 1 [v]); [by intros u ->%list_elem_of_singleton|apply to_bytes_length|].
    intros k b Hb. exists 0%nat, v. by split_and!.
  - apply (mixed_passes _ 1 [v; w]).
    + by intros u [->| ->%list_elem_of_singleton]%elem_of_cons.
    + unfold mixture. by rewrite length_imap, to_bytes_length.
    + intros k b. rewrite mixture_lookup.
      destruct (f k); intros Hb; [exists 1%nat, w|exists 0%nat, v]; split_and!; (done || lia).
Qed.

(** C34: The converse: every mixture occurs.  For any two values of this identity
    and any set of byte offsets, a read that one update from the first value
    to the second overlaps can return [Ok] with the second value's bytes at
    these offsets and the first's elsewhere: the file was valid throughout,
    the writer is one process, and both calls follow their contract. *)
Theorem every_mixture_is_read (f : nat -> bool) v w :
  own v -> own w ->
  exists s, rtc update_step (status_file v) s /\ f_writer s = WCopying w [] /\ f_values s = [v; w] /\
    f_reader s = RReturned 1 (Ok (from_bytes (mixture f v w))).
Proof.
  intros Hv Hw. pose proof (size_of_range (T := T)) as Hsz.
  assert (Hnd : forall b, NoDup (picked f b)) by (intros; apply NoDup_filter, NoDup_seq).
  assert (Hbytes : forall (u : T) k, (k < Z.to_nat (size_of T))%nat -> is_Some (to_bytes u !! k))
    by (intros; apply lookup_lt_is_Some_2; by rewrite to_bytes_length).
  (* the reader maps and takes the bytes that stay *)
  destruct (takes_reach (to_bytes v) WIdle [v] 1 nothing (picked f false)) as (got1 & R1 & L1); [done| |].
  { intros k [_ Hk]%picked_in. split; [by apply lookup_replicate_2|by apply Hbytes]. }
  (* the writer updates *)
  destruct (copies_reach (to_bytes v) w (RTaking 1 got1) [v; w] offsets) as (c' & R2 & L2).
  { apply NoDup_seq. }
  { intros k Hk%offsets_in. by rewrite to_bytes_length. }
  { apply to_bytes_length. }
  assert (Ec : c' = to_bytes w).
  { apply list_eq. intros k. rewrite L2. destruct (decide _) as [|Hk]; [done|]. rewrite offsets_in in Hk.
    rewrite !lookup_ge_None_2; [done|rewrite to_bytes_length; lia..]. }
  subst c'.
  (* the reader takes the others *)
  destruct (takes_reach (to_bytes w) (WCopying w []) [v; w] 1 got1 (picked f true)) as (got2 & R3 & L3); [done| |].
  { intros k [Hf Hk]%picked_in. rewrite L1, decide_False by (rewrite picked_in, Hf; by intros []).
    split; [by apply lookup_replicate_2|by apply Hbytes]. }
  pose proof (picked_all f v w got2) as Eg. rewrite Eg in R3; clear Eg.
  2: { intros k. rewrite L3, L1. done. }
  destruct (mixture_passes f v w Hv Hw) as [Hver Hgates].
  exists (mkShared (to_bytes w) (WCopying w []) (RReturned 1 (Ok (from_bytes (mixture f v w)))) [v; w]).
  split; [|done]. destruct (Hmap (to_bytes v)) as [m Em].
  eapply rtc_l with (mkShared (to_bytes v) WIdle (RTaking 1 nothing) [v]).
  { exists (inr AMap). split; [done|]. simpl. rewrite Em. apply map_contents in Em as ->.
    rewrite to_bytes_length. rewrite (proj2 (Z.ltb_ge _ _)) by lia. done. }
  etransitivity; [exact R1|]. eapply rtc_l with (mkShared (to_bytes v) (WCopying w offsets) (RTaking 1 got1) [v; w]).
  { exists (inl (AUpdate w)). split; [done|].
    cbn [torn_step writer_step f_reader f_bytes f_writer f_values]. by rewrite Hver, !to_bytes_length, Nat.eqb_refl. }
  etransitivity; [exact R2|]. etransitivity; [exact R3|]. apply rtc_once.
  exists (inr AGates). split; [done|]. cbn [torn_step reader_step f_reader f_bytes f_writer f_values].
  rewrite all_there. cbn [mbind option_bind]. by rewrite Hgates.
Qed.
End updates.

(** ** Executions of the documentation's [MountStatus] *)

Import StatusExample.
#[local] Existing Instance plain_memmap2.
#[local] Existing Instance plain_memmap2_laws.

Notation acts := (list (wact MountStatus + ract)).

Definition take_all (ks : list nat) : acts := (fun k => inr (ATake k)) <$> ks.
Definition copy_all (ks : list nat) : acts := (fun k => inl (ACopy k)) <$> ks.

Definition after (l : acts) (s : shared MountStatus) : shared MountStatus := default s (torn_run l s).

Lemma updates_reach (l : acts) s s' :
  Forall updating l -> torn_run l s = Some s' -> rtc update_step s s'.
Proof.
  intros Hl. revert s. induction Hl as [|a l Ha Hl IH]; simpl; intros s E; [by simplify_eq|].
  apply bind_Some in E as (s1 & E1 & E). eapply rtc_l; [by exists a|by apply IH].
Qed.

Lemma updates_reach_after (l : acts) s :
  Forall updating l -> (if torn_run l s then true else false) = true -> rtc update_step s (after l s).
Proof.
  intros Hl. unfold after. destruct (torn_run l s) as [s'|] eqn:E; [|done]. intros _. by eapply updates_reach.
Qed.

Lemma plain_map (c : list byte) : exists m, Fs.map c = Ok m.
Proof. by exists c. Qed.

Lemma mounted_own i : u32 i -> own (mounted i).
Proof. intros Hi. split; [by apply mounted_ok|done]. Qed.

(** 255 is updated to 256 between the reads of the two bytes that differ. *)
Definition torn_acts : acts :=
  inr AMap :: take_all (seq 0 13) ++ inl (AUpdate (mounted 256)) :: copy_all (seq 0 16) ++
  take_all [13; 14; 15]%nat ++ [inr AGates].

(** [create] over a live file: between its truncation and its [set_len], and
    with the head copied and the rest still zero. *)
Definition truncated_acts : acts := [inr AMap; inl (ACreate (mounted 7)); inr (ATake 0)].
Definition early_acts : acts := [inl (ACreate (mounted 7)); inl ASetLen; inr AMap] ++ take_all (seq 0 16) ++ [inr AGates].
Definition half_acts : acts :=
  [inl (ACreate (mounted 7)); inl ASetLen] ++ copy_all (seq 0 12) ++ inr AMap :: take_all (seq 0 16) ++ [inr AGates].

Definition torn_file : shared MountStatus := after torn_acts (status_file (mounted 255)).

Lemma concurrent_read_mixes_witness :
  f_reader torn_file = RReturned 1 (Ok (mounted 511)) /\ f_values torn_file = [mounted 255; mounted 256] /\
  exists bs, Ok (mounted 511) = Ok (from_bytes bs) :> result ShmRingError MountStatus /\
    forall k b, bs !! k = Some b ->
      exists j v, (0 <= j)%nat /\ f_values torn_file !! j = Some v /\ to_bytes v !! k = Some b.
Proof.
  assert (E : f_reader torn_file = RReturned 1 (Ok (mounted 511))) by (vm_compute; reflexivity).
  split; [exact E|split; [vm_compute; reflexivity|]].
  destruct (concurrent_read_mixes (T := MountStatus) plain_map (mounted 255) torn_file)
    as (_ & _ & H).
  - apply mounted_own. unfold u32. lia.
  - apply updates_reach_after; [|vm_compute; reflexivity]. unfold torn_acts, take_all, copy_all.
    repeat first [apply Forall_app; split | apply Forall_cons; split]; try apply Forall_nil; try exact I;
      try (apply Forall_fmap, Forall_forall; intros; exact I). apply mounted_own. unfold u32. lia.
  - destruct (H _ _ E) as (bs & Ebs & _ & Hbs & _). exists bs. split; [exact Ebs|exact Hbs].
Defined.

(** 255 and 256 mixed from their high and low bytes are 511. *)
Lemma every_mixture_is_read_witness :
  exists s, rtc update_step (status_file (mounted 255)) s /\ f_values s = [mounted 255; mounted 256] /\
    f_reader s = RReturned 1 (Ok (mounted 511)).
Proof.
  destruct (every_mixture_is_read plain_map (Nat.leb 13) (mounted 255) (mounted 256)) as (s & Hs & _ & Hv & Hr).
  - apply mounted_own. unfold u32. lia.
  - apply mounted_own. unfold u32. lia.
  - exists s. split; [exact Hs|split; [exact Hv|]]. rewrite Hr. by vm_compute.
Defined.

(** What a reader of a live status file can see on concrete runs: an update that changes
    [is_mounted] from 255 to 256 lets a concurrent read return [Ok] with 511,
    a value nobody wrote; a [create] over the file kills a reader that has
    mapped it (SIGBUS), makes another reject it for a zero magic, and a third
    accept [is_mounted] 0 before the 7 being created is there. *)
Theorem live_status_misread :
  (f_reader torn_file = RReturned 1 (Ok (mounted 511)) /\
   f_values torn_file = [mounted 255; mounted 256]) /\
  f_reader (after truncated_acts (status_file (mounted 255))) = RFault /\
  f_reader (after early_acts (status_file (mounted 255))) =
    RReturned 1 (Err (HeaderCorruption "magic" 0x4D535455 0)) /\
  f_reader (after half_acts (status_file (mounted 255))) = RReturned 1 (Ok (mounted 0)).
Proof. split_and!; vm_compute; reflexivity. Qed.
End StatusTorn.
