(* ===== verification/Notify.v ===== *)
(** Notify: blocking on an eventfd, [src/src/notify.rs].

    The kernel side of [eventfd(2)] is outside the repository: [EventFd] is
    the state of one descriptor with its non-blocking [read] and [write], and
    [EventFdLaws] what eventfd(2) documents of a descriptor opened without
    [EFD_SEMAPHORE]: a read returns the whole counter and resets it, or fails
    with [EAGAIN] when it is zero; a write adds, or fails with [EAGAIN] when
    the counter would exceed [2^64 - 2].  [poll(2)] is the point where other
    threads run while this one sleeps, so it is a parameter that may change
    the ring and the counter; the clock is a parameter too.  Loops take fuel
    and return [None] when it runs out: the thread is still in the call. *)

From S2P Require Import Prelude.
From S2P Require Import Error.
From S2P Require Import Header.
From S2P Require Import Pod.
From S2P Require Import Shm.
From S2P Require Import Ring.
Set Default Goal Selector "!".

Class EventFd (K : Type) := {
  counter : K -> Z;
  eventfd : result ErrorKind.t K;
  efd_read : K -> result ErrorKind.t Z * K;
  efd_write : Z -> K -> result ErrorKind.t unit * K;
}.

Class EventFdLaws (K : Type) `{EventFd K} := {
  eventfd_zero k : eventfd = Ok k -> counter k = 0;
  counter_range k : 0 <= counter k <= 2 ^ 64 - 2;
  read_empty k : counter k = 0 -> efd_read k = (Err ErrorKind.WouldBlock, k);
  read_drains k : 0 < counter k ->
    exists k', efd_read k = (Ok (counter k), k') /\ counter k' = 0;
  write_adds n k : 0 < n -> counter k + n <= 2 ^ 64 - 2 ->
    exists k', efd_write n k = (Ok tt, k') /\ counter k' = counter k + n;
  write_full n k : 0 < n -> 2 ^ 64 - 2 < counter k + n ->
    efd_write n k = (Err ErrorKind.WouldBlock, k);
}.

(** A ring handle and the descriptor. *)
Record World (K : Type) := mkWorld {
  w_st : St;
  w_fd : K;
}.
Arguments mkWorld {K}.
Arguments w_st {K}.
Arguments w_fd {K}.

(** [poll(2)] on the descriptor with a timeout in milliseconds (-1: none);
    the number of ready descriptors. *)
Class Poll (K : Type) := poll : Z -> M (World K) (result ErrorKind.t Z).
Class Clock (K : Type) := now : M (World K) Z.

Definition on_ring {K A} (m : M St A) : M (World K) A := fun w =>
  match m (w_st w) with
  | Ret (a, s) => Ret (a, mkWorld s (w_fd w))
  | Panic => Panic
  | Ub => Ub
  end.

Definition i32_MAX : Z := 2 ^ 31 - 1.

Section notify.
Context `{Profile} {K : Type} `{EventFd K} `{Poll K} `{Clock K} {T : Type} `{Pod T}.

Definition efd {A} (f : K -> result ErrorKind.t A * K) : M (World K) (result ErrorKind.t A) :=
  fun w => let '(r, k) := f (w_fd w) in Ret (r, mkWorld (w_st w) k).

(** [EventNotify::new]: the descriptor, or the error of the call. *)
Definition new_notify : result ErrorKind.t K := eventfd.

Definition signal : M (World K) (result ErrorKind.t unit) :=
  let! written := efd (efd_write 1) in
  match written with
  | Err ErrorKind.WouldBlock => ret (Ok tt)
  | Err e => ret (Err e)
  | Ok _ => ret (Ok tt)
  end.

Definition try_wait : M (World K) (result ErrorKind.t (option Z)) :=
  let! n := efd efd_read in
  match n with
  | Err ErrorKind.WouldBlock => ret (Ok None)
  | Err e => ret (Err e)
  | Ok count => ret (Ok (Some count))
  end.

(** A [Duration] is a count of nanoseconds; [as_millis] truncates, and the
    conversion to [i32] saturates. *)
Definition timeout_ms (timeout : option Z) : Z :=
  match timeout with
  | None => -1
  | Some d => let ms := d / 1000000 in if ms <=? i32_MAX then ms else i32_MAX
  end.

Fixpoint wait_timeout (fuel : nat) (timeout : option Z) :
    M (World K) (option (result ErrorKind.t (option Z))) :=
  match fuel with
  | O => ret None
  | S fuel =>
      let! drained := try_wait in
      match drained with
      | Err e => ret (Some (Err e))
      | Ok (Some n) => ret (Some (Ok (Some n)))
      | Ok None =>
          let! ready := poll (timeout_ms timeout) in
          match ready with
          | Err ErrorKind.Interrupted => wait_timeout fuel timeout
          | Err e => ret (Some (Err e))
          | Ok n => if n =? 0 then ret (Some (Ok None)) else wait_timeout fuel timeout
          end
      end
  end.

Definition wait (fuel : nat) : M (World K) (option (result ErrorKind.t Z)) :=
  let! r := wait_timeout fuel None in
  match r with
  | None => ret None
  | Some (Err e) => ret (Some (Err e))
  | Some (Ok n) => ret (Some (Ok (default 1 n)))
  end.

Definition push_notified (value : T) : M (World K) (result ShmRingError bool) :=
  let! pushed := on_ring (try_push value) in
  if (pushed : bool) then
    let! signalled := signal in
    match signalled with
    | Err e => ret (Err (Io e))
    | Ok _ => ret (Ok true)
    end
  else ret (Ok false).

Fixpoint pop_blocking (fuel : nat) (reader_id : Z) :
    M (World K) (option (result ShmRingError (option T))) :=
  match fuel with
  | O => ret None
  | S fuel' =>
      let! popped := on_ring (try_pop reader_id) in
      match popped with
      | Err e => ret (Some (Err e))
      | Ok (Some v) => ret (Some (Ok (Some v)))
      | Ok None =>
          let! waited := wait fuel' in
          match waited with
          | None => ret None
          | Some (Err e) => ret (Some (Err (Io e)))
          | Some (Ok _) => pop_blocking fuel' reader_id
          end
      end
  end.

Fixpoint pop_until (fuel : nat) (reader_id deadline : Z) :
    M (World K) (option (result ShmRingError (option T))) :=
  match fuel with
  | O => ret None
  | S fuel' =>
      let! popped := on_ring (try_pop reader_id) in
      match popped with
      | Err e => ret (Some (Err e))
      | Ok (Some v) => ret (Some (Ok (Some v)))
      | Ok None =>
          let! t := now in
          if deadline <=? t then ret (Some (Ok None)) else
          let! waited := wait_timeout fuel' (Some (deadline - t)) in
          match waited with
          | None => ret None
          | Some (Err e) => ret (Some (Err (Io e)))
          | Some (Ok (Some _)) => pop_until fuel' reader_id deadline
          | Some (Ok None) => ret (Some (Ok None))
          end
      end
  end.

Definition pop_blocking_timeout (fuel : nat) (reader_id timeout : Z) :
    M (World K) (option (result ShmRingError (option T))) :=
  let! t := now in
  pop_until fuel reader_id (t + timeout).

End notify.

(** A descriptor of Linux: the counter. *)
#[export] Instance linux_eventfd : EventFd Z := {
  counter k := Z.max 0 (Z.min k (2 ^ 64 - 2));
  eventfd := Ok 0;
  efd_read k := let c := Z.max 0 (Z.min k (2 ^ 64 - 2)) in
    if c =? 0 then (Err ErrorKind.WouldBlock, k) else (Ok c, 0);
  efd_write n k := let c := Z.max 0 (Z.min k (2 ^ 64 - 2)) in
    if c + n <=? 2 ^ 64 - 2 then (Ok tt, c + n) else (Err ErrorKind.WouldBlock, k);
}.

#[export] Instance linux_eventfd_laws : EventFdLaws Z.
Proof.
  split; cbn [counter eventfd efd_read efd_write linux_eventfd].
  - intros k [= <-]. done.
  - lia.
  - intros k ->. done.
  - intros k Hk. destruct (Z.eqb_spec (Z.max 0 (Z.min k (2 ^ 64 - 2))) 0); [lia|]. by exists 0.
  - intros n k Hn Hle. rewrite (proj2 (Z.leb_le _ _)) by lia. eexists. split; [done|]. lia.
  - intros n k Hn Hgt. by rewrite (proj2 (Z.leb_gt _ _)) by lia.
Qed.
