(* ===== verification/NotifyProps.v ===== *)
(** NotifyProps: the eventfd handshake, call by call. *)

From S2P Require Import Prelude.
From S2P Require Import Error.
From S2P Require Import Header.
From S2P Require Import Pod.
From S2P Require Import Shm.
From S2P Require Import Ring.
From S2P Require Import Spec.
From S2P Require Import Fs.
From S2P Require Import Create.
From S2P Require Import Notify.
Set Default Goal Selector "!".

Section props.
Context `{Profile} {K : Type} `{EventFd K} `{!EventFdLaws K} `{!Poll K} `{!Clock K}.
Context {T : Type} `{Pod T} `{!PodLaws T}.
Implicit Types (w : World K) (s : St) (sp : spec T).

Lemma on_ring_run {A} (m : M St A) w a s :
  m (w_st w) = Ret (a, s) -> on_ring m w = Ret (a, mkWorld s (w_fd w)).
Proof. unfold on_ring. by intros ->. Qed.

Definition full : Z := 2 ^ 64 - 2.

(** One signal: one unit, or none when the counter is full; never an
    error. *)
Lemma signal_run w :
  exists k, signal w = Ret (Ok tt, mkWorld (w_st w) k) /\
    counter k = Z.min (counter (w_fd w) + 1) full.
Proof.
  pose proof (counter_range (w_fd w)) as Hr. unfold full.
  destruct (Z.le_gt_cases (counter (w_fd w) + 1) (2 ^ 64 - 2)) as [Hle|Hgt].
  - destruct (write_adds 1 (w_fd w)) as (k & E & Ek); [lia|done|]. exists k.
    unfold signal, bind, efd. rewrite E. split; [done|lia].
  - exists (w_fd w). unfold signal, bind, efd. rewrite write_full by lia.
    split; [by destruct w|lia].
Qed.

(** The drain takes every unit, or finds none and changes nothing. *)
Lemma try_wait_run w :
  if counter (w_fd w) =? 0 then try_wait w = Ret (Ok None, w)
  else exists k, try_wait w = Ret (Ok (Some (counter (w_fd w))), mkWorld (w_st w) k) /\
    counter k = 0.
Proof.
  pose proof (counter_range (w_fd w)) as Hr. destruct (Z.eqb_spec (counter (w_fd w)) 0) as [E|E].
  - unfold try_wait, bind, efd. rewrite read_empty by done. by destruct w.
  - destruct (read_drains (w_fd w)) as (k & Ek & Hk); [lia|]. exists k.
    unfold try_wait, bind, efd. by rewrite Ek.
Qed.

(** A wait with units pending returns at once, without sleeping. *)
Lemma wait_timeout_pending w fuel t :
  0 < counter (w_fd w) ->
  exists k, wait_timeout (S fuel) t w =
      Ret (Some (Ok (Some (counter (w_fd w)))), mkWorld (w_st w) k) /\ counter k = 0.
Proof.
  intros Hc. pose proof (try_wait_run w) as Hw. rewrite (proj2 (Z.eqb_neq _ _)) in Hw by lia.
  destruct Hw as (k & E & Ek). exists k. split; [|done]. cbn [wait_timeout].
  by erewrite bind_run by exact E.
Qed.

(** A wait with no unit pending sleeps, and returns once woken. *)
Lemma wait_wakes w w' fuel :
  counter (w_fd w) = 0 -> poll (-1) w = Ret (Ok 1, w') -> 0 < counter (w_fd w') ->
  exists k, wait (S (S fuel)) w = Ret (Some (Ok (counter (w_fd w'))), mkWorld (w_st w') k).
Proof.
  intros Hz Hpoll Hc. destruct (wait_timeout_pending w' fuel None Hc) as (k & Ew & _). exists k.
  pose proof (try_wait_run w) as Htw. rewrite Hz in Htw.
  assert (E : wait_timeout (S (S fuel)) None w = wait_timeout (S fuel) None w').
  { change (wait_timeout (S (S fuel)) None) with
      (let! drained := try_wait in
       match drained with
       | Err e => ret (Some (Err e)) | Ok (Some n) => ret (Some (Ok (Some n)))
       | Ok None => let! ready := poll (-1) in
           match ready with
           | Err ErrorKind.Interrupted => wait_timeout (S fuel) None
           | Err e => ret (Some (Err e))
           | Ok n => if n =? 0 then ret (Some (Ok None)) else wait_timeout (S fuel) None
           end
       end).
    erewrite bind_run by exact Htw. cbn match. by erewrite bind_run by exact Hpoll. }
  rewrite Ew in E. unfold wait. by erewrite bind_run by exact E.
Qed.

Fixpoint signals (n : nat) : M (World K) unit :=
  match n with O => ret tt | S n => signal ;! signals n end.

Lemma signals_run n w :
  exists k, signals n w = Ret (tt, mkWorld (w_st w) k) /\
    counter k = Z.min (counter (w_fd w) + Z.of_nat n) full.
Proof.
  revert w. induction n as [|n IH]; intros w.
  - exists (w_fd w). pose proof (counter_range (w_fd w)). unfold full. split; [by destruct w|lia].
  - destruct (signal_run w) as (k1 & E1 & H1'). destruct (IH (mkWorld (w_st w) k1)) as (k & E2 & H2').
    exists k. cbn [signals]. erewrite bind_run by exact E1. split; [exact E2|].
    cbn [w_fd] in H2'. unfold full in *. lia.
Qed.

(** The counter accumulates and one drain takes everything: after [n]
    signals a single [try_wait] returns all [n] units (with those already
    pending), and the next one finds none, however many consumers wait. *)
Theorem one_drain_takes_all_units n w :
  0 < counter (w_fd w) + Z.of_nat n <= full ->
  exists w1 w2, signals n w = Ret (tt, w1) /\
    try_wait w1 = Ret (Ok (Some (counter (w_fd w) + Z.of_nat n)), w2) /\
    try_wait w2 = Ret (Ok None, w2) /\ w_st w2 = w_st w.
Proof.
  intros Hn. destruct (signals_run n w) as (k & E & Ek). rewrite Z.min_l in Ek by lia.
  exists (mkWorld (w_st w) k). pose proof (try_wait_run (mkWorld (w_st w) k)) as Hw. cbn [w_fd] in Hw.
  rewrite (proj2 (Z.eqb_neq _ _)) in Hw by lia. destruct Hw as (k2 & E2 & Ek2).
  exists (mkWorld (w_st w) k2). split; [done|]. rewrite <- Ek. split; [done|].
  pose proof (try_wait_run (mkWorld (w_st w) k2)) as Hw. cbn [w_fd] in Hw. by rewrite Ek2 in Hw.
Qed.

(** [push_notified] signals exactly when it publishes: an accepted record
    adds one unit after the publish (a full counter is already a pending
    wakeup), a refused one changes neither the ring nor the counter; it
    never fails. *)
Theorem push_notified_signals_once w sp v :
  rep (w_st w) sp -> pod_ok v -> u64 (produced sp + 1) ->
  exists b s k, try_push v (w_st w) = Ret (b, s) /\
    push_notified v w = Ret (Ok b, mkWorld s k) /\
    (if b then counter k = Z.min (counter (w_fd w) + 1) full /\
       h_write_idx (hdr (shm s)) = h_write_idx (hdr (shm (w_st w))) + 1
     else mkWorld s k = w).
Proof.
  intros R Hv Hw. pose proof (rep_write_idx _ _ R) as Ew.
  assert (E : try_push v (w_st w) =
    if r_capacity (ring (w_st w)) <=? h_write_idx (hdr (shm (w_st w))) - slowest (w_st w)
    then Ret (false, w_st w) else Ret (true, pushed (w_st w) v))
    by (apply try_push_run; [apply R|by eapply rep_proto|by rewrite Ew]).
  destruct (_ <=? _).
  - exists false, (w_st w), (w_fd w). split; [done|]. unfold push_notified.
    erewrite bind_run by (by apply on_ring_run). by destruct w.
  - destruct (signal_run (mkWorld (pushed (w_st w) v) (w_fd w))) as (k & Es & Ek).
    exists true, (pushed (w_st w) v), k. split; [done|]. unfold push_notified.
    erewrite bind_run by (by apply on_ring_run). cbn match. by erewrite bind_run by exact Es.
Qed.

(** The pop of a reader with no open loan, empty or not. *)
Lemma pop_now w sp i :
  rep (w_st w) sp -> 0 <= i < n_readers sp -> gates sp !!! Z.to_nat i = 0 ->
  u64 (produced sp + 1) ->
  exists c, cursors sp !! Z.to_nat i = Some c /\
    on_ring (try_pop (T := T) i) w =
      if c =? produced sp then Ret (Ok None, w)
      else Ret (Ok (Some (slot_value (w_st w) c)), mkWorld (advanced (w_st w) i c) (w_fd w)).
Proof.
  intros R Hi Hg Hu. destruct (rep_cursor _ _ i R Hi) as (c & Hc & _ & Hr & _).
  destruct (rep_gate _ _ i R Hi) as (d & Hd & Ed). rewrite Hg in Ed. subst d. exists c. split; [done|].
  assert (E : try_pop i (w_st w) = if c =? produced sp then Ret (Ok None, w_st w)
    else Ret (Ok (Some (slot_value (w_st w) c)), advanced (w_st w) i c)).
  { rewrite (try_pop_run _ i c 0); [|first [done|apply R|by eapply rep_proto|unfold u64 in *; lia
      |by rewrite (rep_readers _ _ R)|by rewrite (rep_cursors _ _ R)]..].
    by rewrite (rep_write_idx _ _ R). }
  destruct (c =? produced sp); erewrite on_ring_run by exact E; by destruct w.
Qed.

(** The handshake delivers: a consumer that finds the ring empty and sleeps
    while a producer runs [push_notified] wakes with that very record. *)
Theorem pop_blocking_wakes_with_record w sp i v w' fuel :
  rep (w_st w) sp -> pod_ok v -> u64 (produced sp + 2) -> 0 <= i < n_readers sp ->
  gates sp !!! Z.to_nat i = 0 -> cursors sp !! Z.to_nat i = Some (produced sp) ->
  counter (w_fd w) = 0 ->
  push_notified v w = Ret (Ok true, w') -> poll (-1) w = Ret (Ok 1, w') ->
  exists w2, pop_blocking (S (S (S fuel))) i w = Ret (Some (Ok (Some v)), w2).
Proof.
  intros R Hv Hu Hi Hg Hcur Hz Hpush Hpoll. assert (Hu1 : u64 (produced sp + 1)).
  { unfold u64, produced in *. lia. }
  destruct (pop_now w sp i R Hi Hg Hu1) as (c & Hc & Epop). simplify_eq. rewrite Z.eqb_refl in Epop.
  destruct (push_refines (w_st w) sp v R Hv Hu1) as (s1 & E1 & R1).
  unfold push_notified in Hpush. erewrite bind_run in Hpush by (apply on_ring_run; exact E1).
  destruct (spec_push v sp) as [[] sp1] eqn:Esp; cbn [fst snd] in *; [|done].
  destruct (signal_run (mkWorld s1 (w_fd w))) as (k & Es & Ek).
  cbn match in Hpush. erewrite bind_run in Hpush by exact Es. injection Hpush as <-. cbn [w_st w_fd] in *.
  unfold spec_push in Esp. destruct (_ <=? _); [done|]. injection Esp as <-.
  assert (Ep : forall cs n cp g, produced (mkSpec (log sp ++ [v]) cs n cp g) = produced sp + 1).
  { intros. unfold produced; cbn [log]. rewrite length_app. simpl. lia. }
  destruct (wait_wakes w (mkWorld s1 k) fuel Hz Hpoll) as (k2 & Ew).
  { cbn [w_fd]. rewrite Ek, Hz. unfold full. lia. }
  destruct (pop_now (mkWorld s1 k2) _ i R1 Hi Hg) as (c & Hc' & Epop2).
  { rewrite Ep. unfold u64 in *. lia. }
  cbn [cursors] in Hc'. simplify_eq. rewrite Ep, (proj2 (Z.eqb_neq _ _)) in Epop2 by lia.
  cbn [w_st w_fd] in Epop2. eexists.
  change (pop_blocking (S (S (S fuel))) i) with
    (let! popped := on_ring (try_pop (T := T) i) in
     match popped with
     | Err e => ret (Some (Err e)) | Ok (Some v) => ret (Some (Ok (Some v)))
     | Ok None => let! waited := wait (S (S fuel)) in
         match waited with
         | None => ret None | Some (Err e) => ret (Some (Err (Io e)))
         | Some (Ok _) => pop_blocking (S (S fuel)) i end end).
  erewrite bind_run by exact Epop. cbn match. erewrite bind_run by exact Ew.
  cbn match. cbn [pop_blocking]. erewrite bind_run by exact Epop2. assert (slot_value s1 (produced sp) = v) as ->; [|done].
  apply (rep_slots _ _ R1); [unfold produced; lia|rewrite Ep; cbn [cap]|].
  - pose proof (capacity_pos s1 (rep_layout _ _ R1)) as Hcp. rewrite (rep_cap _ _ R1) in Hcp. cbn [cap] in Hcp. lia.
  - cbn [log]. unfold produced. by rewrite Nat2Z.id, lookup_app_r, Nat.sub_diag by lia.
Qed.

(** A timeout below a millisecond is none: it is truncated to zero for
    [poll], which returns at once, so [pop_blocking_timeout] gives up with
    its deadline still ahead. *)
Theorem sub_millisecond_timeout_gives_up w sp i timeout t fuel :
  rep (w_st w) sp -> u64 (produced sp + 1) -> 0 <= i < n_readers sp ->
  gates sp !!! Z.to_nat i = 0 -> cursors sp !! Z.to_nat i = Some (produced sp) ->
  counter (w_fd w) = 0 -> now w = Ret (t, w) -> poll 0 w = Ret (Ok 0, w) ->
  0 < timeout < 1000000 ->
  pop_blocking_timeout (T := T) (S (S fuel)) i timeout w = Ret (Some (Ok None), w).
Proof.
  intros R Hu Hi Hg Hcur Hz Hnow Hpoll Ht.
  destruct (pop_now w sp i R Hi Hg Hu) as (c & Hc & Epop). simplify_eq. rewrite Z.eqb_refl in Epop.
  unfold pop_blocking_timeout. erewrite bind_run by exact Hnow. cbn [pop_until].
  erewrite bind_run by exact Epop. cbn match. erewrite bind_run by exact Hnow.
  rewrite (proj2 (Z.leb_gt _ _)) by lia.
  assert (Ew : wait_timeout (S fuel) (Some (t + timeout - t)) w = Ret (Some (Ok None), w)).
  { cbn [wait_timeout]. pose proof (try_wait_run w) as Htw. rewrite Hz in Htw.
    erewrite bind_run by exact Htw. cbn match. unfold timeout_ms.
    replace (t + timeout - t) with timeout by lia. rewrite Z.div_small by lia. cbn match.
    by erewrite bind_run by exact Hpoll. }
  by erewrite bind_run by exact Ew.
Qed.
End props.
