(* ===== verification/Handshake.v ===== *)
(** Handshake: producers and blocked consumers interleaved.

    The consumers of one eventfd, each inside a loop of [pop_blocking] calls,
    and one producer in a loop of [push_notified] calls, as a step relation
    whose steps are the atoms of [src/src/notify.rs]: the ring check, the drain
    of the counter, the return of [poll(2)] (which needs a pending unit or an
    interrupting signal), the publish, and the signal after it. *)

From S2P Require Import Prelude.
From S2P Require Import Error.
From S2P Require Import Header.
From S2P Require Import Pod.
From S2P Require Import Shm.
From S2P Require Import Ring.
From S2P Require Import Spec.
From S2P Require Import Fs.
From S2P Require Import Create.
From S2P Require Import Notify.
From S2P Require Import NotifyProps.
From stdpp Require Import relations.
Open Scope Z_scope.
Set Default Goal Selector "!".

(** Where a consumer is in [pop_blocking]: about to call [try_pop], about to
    read the eventfd, asleep in [poll], or back with a result. *)
Inductive consumer (T : Type) :=
  | Checking
  | Draining
  | Polling
  | Returned (r : result ShmRingError (option T)).
Arguments Checking {T}.
Arguments Draining {T}.
Arguments Polling {T}.
Arguments Returned {T}.

(** The producer: between calls, or published and about to signal. *)
Inductive producer := Idle | Signalling.

Record Threads (K T : Type) := mkThreads {
  t_world : World K;
  t_consumers : gmap Z (consumer T);
  t_producer : producer;
}.
Arguments mkThreads {K T}.
Arguments t_world {K T}.
Arguments t_consumers {K T}.
Arguments t_producer {K T}.

Section machine.
Context `{Profile} {K : Type} `{EventFd K} {T : Type} `{Pod T}.

Definition after_pop (r : result ShmRingError (option T)) : consumer T :=
  match r with Ok None => Draining | _ => Returned r end.
Definition after_drain (n : option Z) : consumer T :=
  match n with Some _ => Checking | None => Polling end.
Definition after_push (b : bool) : producer := if b then Signalling else Idle.

Inductive step : Threads K T -> Threads K T -> Prop :=
  | step_check w cs p i r w' :
      cs !! i = Some Checking -> on_ring (try_pop i) w = Ret (r, w') ->
      step (mkThreads w cs p) (mkThreads w' (<[i := after_pop r]> cs) p)
  | step_drain w cs p i n w' :
      cs !! i = Some Draining -> try_wait w = Ret (Ok n, w') ->
      step (mkThreads w cs p) (mkThreads w' (<[i := after_drain n]> cs) p)
  | step_wake w cs p i :
      cs !! i = Some Polling -> 0 < counter (w_fd w) ->
      step (mkThreads w cs p) (mkThreads w (<[i := Draining]> cs) p)
  | step_interrupted w cs p i :
      cs !! i = Some Polling ->
      step (mkThreads w cs p) (mkThreads w (<[i := Draining]> cs) p)
  | step_call w cs p i r :
      cs !! i = Some (Returned r) ->
      step (mkThreads w cs p) (mkThreads w (<[i := Checking]> cs) p)
  | step_push w cs v b w' :
      pod_ok v -> u64 (h_write_idx (hdr (shm (w_st w))) + 2) ->
      on_ring (try_push v) w = Ret (b, w') ->
      step (mkThreads w cs Idle) (mkThreads w' cs (after_push b))
  | step_signal w cs w' :
      signal w = Ret (Ok tt, w') ->
      step (mkThreads w cs Signalling) (mkThreads w' cs Idle)
  | step_other_pop w cs p j (r : result ShmRingError (option T)) w' :
      cs !! j = None -> 0 <= j -> on_ring (try_pop j) w = Ret (r, w') ->
      step (mkThreads w cs p) (mkThreads w' cs p).

(** A message is waiting for reader [i]. *)
Definition available (i : Z) (s : St) : bool :=
  negb (h_read_indices (hdr (shm s)) !!! Z.to_nat i =? h_write_idx (hdr (shm s))).

(** One consumer on the eventfd, at its first check. *)
Definition sole_consumer (i : Z) (w : World K) : Threads K T :=
  mkThreads w {[ i := Checking ]} Idle.
End machine.

Section soundness.
Context `{Profile} {K : Type} `{EventFd K} `{!EventFdLaws K} {T : Type} `{Pod T} `{!PodLaws T}.
Implicit Types (n : Threads K T) (w : World K) (s : St) (sp : spec T).

Definition parked (c : consumer T) : bool :=
  match c with Draining | Polling => true | _ => false end.

(** The ring is sound, and a consumer past its check with a message waiting
    has a unit pending or about to be. *)
Record sound (i : Z) (g : list Z) n : Prop := mkSound {
  s_rep : exists sp, rep (w_st (t_world n)) sp /\ gates sp = g /\ 0 <= i < n_readers sp /\
    u64 (produced sp + 1);
  s_consumer : exists c, t_consumers n = {[ i := c ]} /\
    (parked c = true -> available i (w_st (t_world n)) = true ->
      0 < counter (w_fd (t_world n)) \/ t_producer n = Signalling);
}.

Lemma available_rep s sp i :
  rep s sp -> available i s = negb (cursors sp !!! Z.to_nat i =? produced sp).
Proof. intros R. unfold available. by rewrite (rep_cursors _ _ R), (rep_write_idx _ _ R). Qed.

(** What a pop does to the ring, seen by reader [i]. *)
Lemma pop_step w sp j r w' :
  rep (w_st w) sp -> 0 <= j -> u64 (produced sp + 1) ->
  on_ring (try_pop j) w = Ret (r, w') ->
  w_fd w' = w_fd w /\ r = (spec_pop j sp).1 /\ rep (w_st w') (spec_pop j sp).2.
Proof.
  intros R Hj Hu E. destruct (pop_refines (w_st w) sp j R Hj Hu) as (s' & E' & R').
  rewrite (on_ring_run _ _ _ _ E') in E. injection E as <- <-. done.
Qed.

Lemma spec_pop_same j sp :
  log (spec_pop j sp).2 = log sp /\ n_readers (spec_pop j sp).2 = n_readers sp /\
  gates (spec_pop j sp).2 = gates sp /\
  (forall i, 0 <= i -> 0 <= j -> i <> j ->
    cursors (spec_pop j sp).2 !!! Z.to_nat i = cursors sp !!! Z.to_nat i).
Proof.
  unfold spec_pop. destruct (spec_check sp j); [|done]. destruct (negb _); [done|].
  destruct (log sp !! _); [|done]. split_and!; try done. intros i Hi Hj Hne; cbn [cursors snd].
  apply list_lookup_total_insert_ne. lia.
Qed.

(** A pop that finds nothing finds the reader caught up. *)
Lemma spec_pop_none i s sp :
  rep s sp -> 0 <= i < n_readers sp -> (spec_pop i sp).1 = Ok None ->
  (spec_pop i sp).2 = sp /\ cursors sp !!! Z.to_nat i = produced sp.
Proof.
  intros R Hi. destruct (rep_cursor s sp i R Hi) as (c & _ & Et & Hr & _).
  unfold spec_pop. rewrite (spec_check_ok sp i c Hi Et). destruct (negb _); [done|].
  destruct (log sp !! Z.to_nat c) eqn:E; [done|]. intros _. split; [done|].
  apply lookup_ge_None in E. rewrite Et. unfold produced in *. lia.
Qed.

Lemma singleton_step {A} (i j : Z) (x c c' : A) (m : gmap Z A) :
  m = {[ i := c ]} -> m !! j = Some x -> j = i /\ c = x /\ <[j := c']> m = {[ i := c' ]}.
Proof.
  intros -> Hj. apply lookup_singleton_Some in Hj as [<- <-]. by rewrite insert_singleton_eq.
Qed.

Lemma sole_consumer_sound i g w sp :
  rep (w_st w) sp -> gates sp = g -> 0 <= i < n_readers sp -> u64 (produced sp + 1) ->
  sound i g (sole_consumer i w).
Proof. intros R Hg Hi Hu. split; [by exists sp|]. by exists Checking. Qed.

(** A consumer about to sleep or asleep, and the ring unchanged. *)
Lemma sound_wait i g n n' c' :
  sound i g n -> t_world n' = t_world n -> t_producer n' = t_producer n ->
  t_consumers n' = {[ i := c' ]} ->
  (parked c' = true -> exists c, t_consumers n !! i = Some c /\ parked c = true) ->
  sound i g n'.
Proof.
  intros [Hr (c & Hc & Hp)] Ew Ep Ecs Hpark. split; [by rewrite Ew|]. exists c'. split; [done|].
  rewrite Ew, Ep. intros Hk. destruct (Hpark Hk) as (c0 & Hc0 & Hk0). rewrite Hc in Hc0.
  rewrite lookup_singleton_eq in Hc0. injection Hc0 as <-. by apply Hp.
Qed.

Lemma step_check_sound i g w cs p r w' :
  sound i g (mkThreads w cs p) -> on_ring (try_pop (T := T) i) w = Ret (r, w') ->
  sound i g (mkThreads w' {[ i := after_pop r ]} p).
Proof.
  intros [(sp & R & Hg & Hi & Hu) _] E. cbn [t_world] in *.
  destruct (pop_step w sp i r w' R ltac:(lia) Hu E) as (Ef & Er & R').
  destruct (spec_pop_same i sp) as (El & En & Eg & _). split; cbn [t_world t_consumers t_producer].
  - exists (spec_pop i sp).2. rewrite En, Eg. unfold produced in *. by rewrite El.
  - exists (after_pop r). split; [done|]. destruct r as [[v|]|e]; [done| |done]. intros _ Hav.
    destruct (spec_pop_none i _ _ R Hi (eq_sym Er)) as [E2 Ec].
    rewrite (available_rep _ _ i R'), E2, Ec, Z.eqb_refl in Hav. done.
Qed.

Lemma step_drain_sound i g w cs p m w' :
  sound i g (mkThreads w cs p) -> cs !! i = Some Draining -> try_wait w = Ret (Ok m, w') ->
  sound i g (mkThreads w' {[ i := after_drain m ]} p).
Proof.
  intros [Hr (c & Hc & Hp)] Hi E. cbn [t_world t_consumers t_producer] in *. subst cs.
  rewrite lookup_singleton_eq in Hi. injection Hi as ->.
  pose proof (try_wait_run w) as Hw. destruct (Z.eqb_spec (counter (w_fd w)) 0) as [Ez|Ez].
  - rewrite E in Hw. injection Hw as -> ->. split; [done|]. exists Polling. split; [done|].
    intros _. by apply Hp.
  - destruct Hw as (k & Ek & _). rewrite E in Ek. injection Ek as -> ->. split; [done|].
    by exists Checking.
Qed.

Lemma step_push_sound i g w cs v b w' :
  sound i g (mkThreads w cs Idle) -> pod_ok v -> u64 (h_write_idx (hdr (shm (w_st w))) + 2) ->
  on_ring (try_push v) w = Ret (b, w') -> sound i g (mkThreads w' cs (after_push b)).
Proof.
  intros [(sp & R & Hg & Hi & Hu) (c & Hc & Hp)] Hv Hw2 E. cbn [t_world t_consumers t_producer] in *.
  destruct (push_refines (w_st w) sp v R Hv Hu) as (s' & E' & R').
  rewrite (on_ring_run _ _ _ _ E') in E. injection E as <- <-.
  rewrite (rep_write_idx _ _ R) in Hw2. unfold spec_push in *.
  destruct (_ <=? _) eqn:Efull; cbn [fst snd after_push] in *.
  - rewrite try_push_run in E' by (first [apply R|by eapply rep_proto|by rewrite (rep_write_idx _ _ R)]).
    rewrite (rep_slowest _ _ R), (rep_write_idx _ _ R), (rep_cap _ _ R), Efull in E'.
    injection E' as <-. split; cbn [t_world w_st w_fd]; [by exists sp|]. by exists c.
  - split; cbn [t_world t_consumers t_producer w_st]; [|exists c; split; [done|by right]].
    eexists. split; [exact R'|]. split; [done|split; [done|]].
    unfold produced in *; cbn [log]. rewrite length_app. unfold u64 in *. simpl. lia.
Qed.

Lemma step_signal_sound i g w cs w' :
  sound i g (mkThreads w cs Signalling) -> signal w = Ret (Ok tt, w') ->
  sound i g (mkThreads w' cs Idle).
Proof.
  intros [Hr (c & Hc & Hp)] E. cbn [t_world t_consumers t_producer] in *.
  destruct (signal_run w) as (k & E' & Ek). rewrite E in E'. injection E' as ->.
  split; [done|]. exists c. split; [done|]. intros _ _. left. cbn [t_world w_fd].
  pose proof (counter_range (w_fd w)). unfold full in Ek. lia.
Qed.

Lemma step_other_sound i g w cs p j r w' :
  sound i g (mkThreads w cs p) -> cs !! j = None -> 0 <= j ->
  on_ring (try_pop (T := T) j) w = Ret (r, w') -> sound i g (mkThreads w' cs p).
Proof.
  intros [(sp & R & Hg & Hi & Hu) (c & Hc & Hp)] Hj Hj0 E. cbn [t_world t_consumers t_producer] in *.
  destruct (pop_step w sp j r w' R Hj0 Hu E) as (Ef & _ & R').
  destruct (spec_pop_same j sp) as (El & En & Eg & Ecur).
  assert (Hne : i <> j) by (intros ->; by rewrite Hc, lookup_singleton_eq in Hj).
  assert (Epr : produced (spec_pop j sp).2 = produced sp) by (unfold produced; by rewrite El).
  split; cbn [t_world t_consumers t_producer].
  - exists (spec_pop j sp).2. by rewrite En, Eg, Epr.
  - exists c. split; [done|]. rewrite Ef, (available_rep _ _ i R'), Epr, Ecur by lia.
    by rewrite <- (available_rep _ _ i R).
Qed.

Lemma step_sound i g n n' : sound i g n -> step n n' -> sound i g n'.
Proof.
  intros S Hstep. pose proof (s_consumer _ _ _ S) as (c & Hc & _).
  destruct Hstep as [w cs p j r w' Hj E|w cs p j m w' Hj E|w cs p j Hj Hk|w cs p j Hj|w cs p j r Hj
    |w cs v b w' Hv Hw E|w cs w' E|w cs p j r w' Hj Hj0 E]; cbn [t_consumers] in Hc.
  - destruct (singleton_step i j _ c (after_pop r) cs Hc Hj) as (-> & -> & ->).
    by eapply step_check_sound.
  - destruct (singleton_step i j _ c (after_drain m) cs Hc Hj) as (-> & -> & ->).
    by eapply step_drain_sound.
  - destruct (singleton_step i j _ c Draining cs Hc Hj) as (-> & -> & ->).
    eapply sound_wait; [exact S|done..|]. cbn. intros _. by exists Polling.
  - destruct (singleton_step i j _ c Draining cs Hc Hj) as (-> & -> & ->).
    eapply sound_wait; [exact S|done..|]. cbn. intros _. by exists Polling.
  - destruct (singleton_step i j _ c Checking cs Hc Hj) as (-> & -> & ->).
    by eapply sound_wait; [exact S|done..|].
  - by eapply step_push_sound.
  - by eapply step_signal_sound.
  - by eapply step_other_sound.
Qed.

Lemma steps_sound i g n n' : sound i g n -> rtc step n n' -> sound i g n'.
Proof. intros S Hs. induction Hs as [|n1 n2 n3 H12 _ IH]; [done|]. by eapply IH, step_sound. Qed.

(** C13: No lost wakeup for the sole consumer of an eventfd: in every reachable
    interleaving, whenever it is asleep with a message waiting and the
    producer is not between its publish and its signal, a unit is pending,
    and its own next three steps (wake, drain, check) return the record under
    its cursor. *)
Theorem sole_consumer_no_lost_wakeup i w sp n :
  rep (w_st w) sp -> u64 (produced sp + 1) -> 0 <= i < n_readers sp ->
  gates sp !!! Z.to_nat i = 0 ->
  rtc step (sole_consumer i w) n ->
  t_consumers n !! i = Some Polling -> t_producer n = Idle ->
  available i (w_st (t_world n)) = true ->
  0 < counter (w_fd (t_world n)) /\
  exists n1 n2 n3 c, step n n1 /\ step n1 n2 /\ step n2 n3 /\
    h_read_indices (hdr (shm (w_st (t_world n)))) !! Z.to_nat i = Some c /\
    t_consumers n3 !! i = Some (Returned (Ok (Some (slot_value (w_st (t_world n)) c)))).
Proof.
  intros R Hu Hi Hg Hsteps Hpoll Hidle Hav.
  pose proof (steps_sound i (gates sp) _ n (sole_consumer_sound i _ w sp R eq_refl Hi Hu) Hsteps) as S.
  destruct S as [(sp' & R' & Eg & Hi' & Hu') (c & Hc & Hp)]. rewrite <- Eg in Hg.
  rewrite Hc, lookup_singleton_eq in Hpoll. injection Hpoll as ->.
  destruct (Hp eq_refl Hav) as [Hk|]; [|congruence]. split; [done|].
  destruct n as [wn cs p]; cbn [t_world t_consumers t_producer] in *. subst cs.
  pose proof (try_wait_run wn) as Htw. rewrite (proj2 (Z.eqb_neq _ _)) in Htw by lia.
  destruct Htw as (k & Etw & _).
  destruct (pop_now (mkWorld (w_st wn) k) sp' i R' Hi' Hg Hu') as (cur & Hcur & Epop).
  rewrite (available_rep _ _ i R'), (list_lookup_total_correct _ _ _ Hcur) in Hav.
  destruct (cur =? produced sp'); [done|].
  eexists _, _, _, cur. split; [apply step_wake; [apply lookup_singleton_eq|done]|].
  rewrite insert_singleton_eq. split; [eapply step_drain; [apply lookup_singleton_eq|exact Etw]|].
  rewrite insert_singleton_eq. split; [eapply step_check; [apply lookup_singleton_eq|exact Epop]|].
  rewrite insert_singleton_eq. split; [by rewrite (rep_cursors _ _ R')|].
  cbn [t_consumers]. apply lookup_singleton_eq.
Qed.
End soundness.
