(* ===== verification/NotifyHazards.v ===== *)
(** NotifyHazards: two broadcast consumers on one eventfd, and the witnesses
    of the handshake theorems. *)

From S2P Require Import Prelude.
From S2P Require Import Error.
From S2P Require Import Header.
From S2P Require Import Pod.
From S2P Require Import Shm.
From S2P Require Import Ring.
From S2P Require Import Spec.
From S2P Require Import Fs.
From S2P Require Import Create.
From S2P Require Import Notify.
From S2P Require Import NotifyProps.
From S2P Require Import Handshake.
From stdpp Require Import relations.
Set Default Goal Selector "!".
Open Scope Z_scope.

(** A fresh ring of four [u64] slots for two readers, and a fresh eventfd. *)
Definition idle_world : World Z := mkWorld (fresh_st Z "demo.ring" 4 2) 0.

Tactic Notation "run_step" open_constr(r) :=
  eapply rtc_l; [eapply r; first [reflexivity|vm_compute; reflexivity]|]; cbn match.

(** C39: Two consumers of the broadcast that share one [EventNotify]: both find
    the ring empty and sleep; one record is pushed and signalled; the first
    to wake drains the whole counter and takes its copy; the second goes back
    to sleep with its copy waiting, no unit pending and the producer done. *)
Theorem shared_eventfd_lost_wakeup (p : Profile) :
  exists n : Threads Z Z,
    rtc step (mkThreads idle_world (<[0 := Checking]> {[1 := Checking]}) Idle) n /\
    t_consumers n !! 0 = Some (Returned (Ok (Some 7))) /\
    t_consumers n !! 1 = Some Polling /\
    available 1 (w_st (t_world n)) = true /\
    t_producer n = Idle /\ counter (w_fd (t_world n)) = 0.
Proof.
  eexists; (split; [
    run_step (step_check (T := Z) _ _ Idle 0);
    run_step (step_drain (T := Z) _ _ Idle 0);
    run_step (step_check (T := Z) _ _ Idle 1);
    run_step (step_drain (T := Z) _ _ Idle 1);
    (eapply rtc_l; [eapply (step_push _ _ 7); [split; reflexivity || discriminate
      |split; reflexivity || discriminate|vm_compute; reflexivity]|]; cbn match);
    run_step (step_signal (T := Z));
    run_step (step_wake (T := Z) _ _ Idle 0);
    run_step (step_wake (T := Z) _ _ Idle 1);
    run_step (step_drain (T := Z) _ _ Idle 0);
    run_step (step_check (T := Z) _ _ Idle 0);
    run_step (step_drain (T := Z) _ _ Idle 1);
    apply rtc_refl
    |]); (split; [reflexivity|split; [reflexivity|split; [vm_compute; reflexivity|split; [reflexivity|reflexivity]]]]).
Qed.

(** ** Witnesses *)

Lemma idle_rep : rep (w_st idle_world) (empty_log Z 4 2).
Proof. apply fresh_rep, args_4_2. Qed.

Lemma one_drain_takes_all_units_witness :
  exists w1 w2, signals 3 idle_world = Ret (tt, w1) /\
    try_wait w1 = Ret (Ok (Some 3), w2) /\ try_wait w2 = Ret (Ok None, w2).
Proof.
  destruct (one_drain_takes_all_units 3 idle_world) as (w1 & w2 & E1 & E2 & E3 & _).
  - vm_compute. split; [reflexivity|discriminate].
  - exists w1, w2. split; [exact E1|split; [exact E2|exact E3]].
Defined.

Lemma push_notified_signals_once_witness :
  exists k s, push_notified (H := dev_profile) 7 idle_world = Ret (Ok true, mkWorld s k) /\
    counter k = 1.
Proof.
  destruct (push_notified_signals_once (H := dev_profile) idle_world (empty_log Z 4 2) 7 idle_rep)
    as (b & s & k & E1 & E2 & E3).
  - vm_compute. split; [discriminate|reflexivity].
  - vm_compute. split; [discriminate|reflexivity].
  - assert (Hb : match try_push (H := dev_profile) 7 (w_st idle_world) with
      Ret (b, _) => b = true | _ => False end) by (vm_compute; reflexivity).
    rewrite E1 in Hb. subst b. exists k, s. split; [exact E2|exact (proj1 E3)].
Defined.

(** Sleeping while a producer pushes 7. *)
Definition pushing_poll : Poll Z := fun _ =>
  let! _ := push_notified (H := dev_profile) (T := Z) 7 in ret (Ok 1).

Lemma pop_blocking_wakes_with_record_witness :
  exists w2, pop_blocking (H := dev_profile) (H1 := pushing_poll) (T := Z) 3 0 idle_world =
    Ret (Some (Ok (Some 7)), w2).
Proof.
  destruct (push_notified (H := dev_profile) (T := Z) 7 idle_world) as [[r w']| |] eqn:E;
    [|exfalso; revert E; vm_compute; discriminate..].
  assert (Er : match push_notified (H := dev_profile) (T := Z) 7 idle_world with
    Ret (r, _) => r = Ok true | _ => False end) by (vm_compute; reflexivity).
  rewrite E in Er. subst r.
  apply (pop_blocking_wakes_with_record (H := dev_profile) (Poll0 := pushing_poll)
    idle_world (empty_log Z 4 2) 0 7 w' 0 idle_rep).
  - vm_compute. split; [discriminate|reflexivity].
  - vm_compute. split; [discriminate|reflexivity].
  - vm_compute. split; [discriminate|reflexivity].
  - reflexivity.
  - reflexivity.
  - reflexivity.
  - exact E.
  - unfold poll, pushing_poll, bind. rewrite E. reflexivity.
Defined.

(** A poll that finds nothing, and a clock that stands still. *)
Definition silent_poll : Poll Z := fun _ => ret (Ok 0).
Definition frozen_clock : Clock Z := ret 0.

Lemma sub_millisecond_timeout_gives_up_witness :
  pop_blocking_timeout (H := dev_profile) (H1 := silent_poll) (H2 := frozen_clock) (T := Z)
    2 0 999999 idle_world = Ret (Some (Ok None), idle_world).
Proof.
  apply (sub_millisecond_timeout_gives_up (H := dev_profile) (Poll0 := silent_poll)
    (Clock0 := frozen_clock) idle_world (empty_log Z 4 2) 0 999999 0 0 idle_rep).
  - vm_compute. split; [discriminate|reflexivity].
  - vm_compute. split; [discriminate|reflexivity].
  - reflexivity.
  - reflexivity.
  - reflexivity.
  - reflexivity.
  - reflexivity.
  - lia.
Defined.

Definition wait_pending (n : Threads Z Z) : Prop :=
  t_consumers n !! 1 = Some Polling /\ t_producer n = Idle /\
  available 1 (w_st (t_world n)) = true.

(** A consumer that slept before a push: reachable, and able to go on. *)
Lemma parked_reachable :
  exists n : Threads Z Z,
    rtc (step (H := dev_profile)) (sole_consumer 1 idle_world) n /\ wait_pending n.
Proof.
  eexists. split; [
    run_step (step_check (H := dev_profile) (T := Z) _ _ Idle 1);
    run_step (step_drain (T := Z) _ _ Idle 1);
    (eapply rtc_l; [eapply (step_push _ _ 7); [split; reflexivity || discriminate
      |split; reflexivity || discriminate|vm_compute; reflexivity]|]; cbn match);
    run_step (step_signal (T := Z)); apply rtc_refl
    |]. split; [reflexivity|split; [reflexivity|vm_compute; reflexivity]].
Qed.

Lemma sole_consumer_no_lost_wakeup_witness :
  exists n : Threads Z Z,
    rtc (step (H := dev_profile)) (sole_consumer 1 idle_world) n /\
    t_consumers n !! 1 = Some Polling /\ 0 < counter (w_fd (t_world n)).
Proof.
  destruct parked_reachable as (n & Hn & Hp & Hi & Ha). exists n. split; [exact Hn|split; [exact Hp|]].
  apply (sole_consumer_no_lost_wakeup (H := dev_profile) 1 idle_world (empty_log Z 4 2) n idle_rep).
  - vm_compute. split; [discriminate|reflexivity].
  - vm_compute. split; [discriminate|reflexivity].
  - reflexivity.
  - exact Hn.
  - exact Hp.
  - exact Hi.
  - exact Ha.
Defined.
