(* ===== verification/Witnesses.v ===== *)
(** Witnesses: the theorems of [Header], [Ring], [Create] and [Hostile] at
    concrete inputs, on a system without faults. *)

From S2P Require Import Prelude.
From S2P Require Import Error.
From S2P Require Import Header.
From S2P Require Import Pod.
From S2P Require Import Shm.
From S2P Require Import Fs.
From S2P Require Import Ring.
From S2P Require Import Spec.
From S2P Require Import Create.
From S2P Require Import Hostile.
Set Default Goal Selector "!".

#[local] Existing Instance dev_profile.
#[local] Existing Instance quiet_os.
#[local] Existing Instance plain_memmap2.
#[local] Existing Instance plain_memmap2_laws.

Definition demo_path : string := "demo.ring".
Definition demo_st : St := fresh_st Z demo_path 4 2.
Definition demo_fs : files := {[ demo_path := shm_bytes (shm demo_st) ]}.

Lemma quiet_demo path : quiet path.
Proof. split; try done. intros c. by exists c. Qed.

Lemma demo_layout : layout_ok Z demo_st.
Proof. apply fresh_layout, args_4_2. Qed.

Lemma args_1_1 : create_args Z 1 1.
Proof.
  split; [by exists 0|..]; vm_compute; first [reflexivity|discriminate|split; discriminate].
Qed.

Lemma header_byte_roundtrip_witness :
  header_of_bytes (header_bytes (fresh_header 3 2) ++ [Byte.x07]) = fresh_header 3 2 /\
  header_bytes (header_of_bytes (replicate 300 Byte.xff)) = replicate 256 Byte.xff.
Proof.
  destruct header_byte_roundtrip as [H1 H2]. split.
  - apply H1. apply fresh_header_ok; [unfold u64; lia|unfold MAX_READERS; lia].
  - destruct (H2 (replicate 300 Byte.xff)) as [_ E]; [vm_compute; lia|]. exact E.
Defined.

Lemma header_layout_pinned_witness :
  offset_of "read_indices" = Some 32 /\ sizeof_RingHeader = HEADER_SIZE.
Proof.
  destruct (header_layout_pinned (fresh_header 3 2)) as (_ & H1 & _ & H2 & _).
  - apply fresh_header_ok; [unfold u64; lia|unfold MAX_READERS; lia].
  - split; [exact H1|exact H2].
Defined.

Lemma validate_decides_witness :
  validate (fresh_header 3 2) = Ret (Ok tt) /\ validate (fresh_header u64_MAX 2) = Panic.
Proof.
  split.
  - apply (validate_decides (fresh_header 3 2)).
    + apply fresh_header_ok; [unfold u64; lia|unfold MAX_READERS; lia].
    + split; [reflexivity|split; [reflexivity|]]. exists 2. split; [lia|reflexivity].
  - apply (validate_decides (fresh_header u64_MAX 2)).
    + apply fresh_header_ok; [unfold u64, u64_MAX; lia|unfold MAX_READERS; lia].
    + split; [reflexivity|split; [reflexivity|split; reflexivity]].
Defined.

(** A header with a poisoned cursor and participant count. *)
Definition poisoned : RingHeader :=
  mkHeader 0 0 4000000000 0 5 (replicate 8 u64_MAX) 77 0 (replicate 18 0).

Lemma hostile_header_memory_safe_witness :
  no_ub (try_push 7) (fun _ s' => layout_ok Z s' /\ ring s' = ring demo_st)
    (with_hdr demo_st poisoned).
Proof.
  destruct (hostile_header_memory_safe demo_st poisoned 7 0 demo_layout) as [E _].
  - split; cbn [poisoned h_magic h_version h_num_readers h_pad1 h_write_idx h_read_indices
      h_capacity_mask h_total_written h_pad_to_256];
      first [by apply Forall_replicate; unfold u64, u64_MAX; lia|reflexivity|unfold u64, u32; lia].
  - exact E.
Defined.

Lemma create_then_open_witness :
  exists fs', create_new_with_readers Z demo_path 4 2 (∅ : files) = Ret (Ok demo_st, fs') /\
    open_existing Z demo_path fs' = Ret (Ok demo_st, fs').
Proof.
  destruct (create_then_open (T := Z) demo_path 4 2 ∅ (quiet_demo _) args_4_2) as (fs' & E1 & E2 & _).
  - lia.
  - reflexivity.
  - reflexivity.
  - exists fs'. split; [exact E1|exact E2].
Defined.

Lemma create_refuses_witness :
  create_new_with_readers Z demo_path 3 2 demo_fs = Ret (Err (InvalidCapacity 3), demo_fs) /\
  create_new_with_readers Z demo_path 4 2 demo_fs = Ret (Err AlreadyExists, demo_fs).
Proof.
  split.
  - apply (create_refuses (T := Z) demo_path 3 2 demo_fs). right. reflexivity.
  - apply (create_refuses (T := Z) demo_path 4 2 demo_fs); [exact args_4_2|].
    eexists. apply lookup_singleton_eq.
Defined.

Lemma demo_opens : open_existing Z demo_path demo_fs = Ret (Ok demo_st, demo_fs).
Proof.
  apply (open_run demo_path demo_st demo_fs (quiet_demo _) demo_layout);
    [vm_compute; reflexivity|split_and!; done|apply lookup_singleton_eq].
Qed.

Lemma open_existing_sound_witness :
  layout_ok Z demo_st /\ header_valid (hdr (shm demo_st)) 4.
Proof.
  destruct (open_existing_sound demo_path demo_fs demo_fs demo_st) as (_ & _ & Hv & Hl & _).
  - intros c Hc. unfold demo_fs in Hc. apply (lookup_singleton_Some (M := gmap string)) in Hc as [_ <-].
    rewrite shm_bytes_length by apply demo_layout. reflexivity.
  - exact demo_opens.
  - left. reflexivity.
  - split; [exact Hl|exact Hv].
Defined.

Definition short_fs : files := {[ demo_path := [Byte.x00; Byte.x01] ]}.

Lemma open_existing_rejects_witness :
  open_existing Z demo_path (∅ : files) = Ret (Err (Io ErrorKind.NotFound), ∅) /\
  open_existing Z demo_path short_fs = Ret (Err (FileTooShort 256 2), short_fs).
Proof.
  split.
  - apply (open_existing_rejects (T := Z) demo_path ∅ (quiet_demo _)); [vm_compute; discriminate|reflexivity|].
    reflexivity.
  - destruct (open_existing_rejects (T := Z) demo_path short_fs (quiet_demo _)) as [_ Hr];
      [vm_compute; discriminate|reflexivity|].
    destruct (Hr [Byte.x00; Byte.x01]) as [Hs _]; [apply lookup_singleton_eq|]. apply Hs. reflexivity.
Defined.

Lemma capacity_one_cannot_be_opened_witness :
  exists s fs', create_new_with_readers Z demo_path 1 1 (∅ : files) = Ret (Ok s, fs') /\
    open_existing Z demo_path fs' = Ret (Err (HeaderCorruption "capacity_mask" 0 0), fs').
Proof.
  apply (capacity_one_cannot_be_opened demo_path 1 ∅ (quiet_demo _) args_1_1); reflexivity.
Defined.

(** The example with nine participants written into its header. *)
Definition nine_readers : St :=
  with_hdr demo_st (mkHeader Header.MAGIC Header.VERSION 9 0 0 (replicate 8 0) 3 0 (replicate 18 0)).

Lemma corrupt_num_readers_accepted_witness :
  exists s', open_existing Z demo_path {[ demo_path := shm_bytes (shm nine_readers) ]} =
      Ret (Ok s', {[ demo_path := shm_bytes (shm nine_readers) ]}) /\
    forall v : Z, try_push v s' = Panic.
Proof.
  destruct (corrupt_num_readers_accepted (T := Z) demo_path nine_readers
    {[ demo_path := shm_bytes (shm nine_readers) ]} (quiet_demo _)) as (s' & E1 & _ & E2 & _).
  - apply layout_ok_hdr; [exact demo_layout|].
    split; cbn [h_magic h_version h_num_readers h_pad1 h_write_idx h_read_indices
      h_capacity_mask h_total_written h_pad_to_256];
      first [by apply Forall_replicate; unfold u64; lia|reflexivity
            |unfold u64, u32, Header.MAGIC, Header.VERSION; lia].
  - vm_compute. reflexivity.
  - split_and!; done.
  - apply lookup_singleton_eq.
  - reflexivity.
  - exists s'. split; [exact E1|exact E2].
Defined.

(** The example with both participants' cursors past [write_idx]. *)
Definition ahead_readers : St :=
  with_hdr demo_st (mkHeader Header.MAGIC Header.VERSION 2 0 1 (replicate 8 5) 3 1 (replicate 18 0)).

Lemma poisoned_cursors_stop_producer_witness : try_push 7 ahead_readers = Panic.
Proof.
  etransitivity; [apply (poisoned_cursors_stop_producer (T := Z) ahead_readers 7)|reflexivity].
  - apply layout_ok_hdr; [exact demo_layout|].
    split; cbn [h_magic h_version h_num_readers h_pad1 h_write_idx h_read_indices
      h_capacity_mask h_total_written h_pad_to_256];
      first [by apply Forall_replicate; unfold u64; lia|reflexivity
            |unfold u64, u32, Header.MAGIC, Header.VERSION; lia].
  - vm_compute. discriminate.
  - vm_compute. reflexivity.
  - vm_compute. discriminate.
Defined.

(** A full disk: every [set_len] fails. *)
Definition full_disk : Os := {|
  open_fault _ := None; metadata_fault _ := None; set_len_fault _ := Some (ErrorKind.Other 28);
  remove_fault _ := None; others fs := fs |}.

Lemma failed_create_leaves_stub_witness :
  create_new_with_readers (H0 := full_disk) Z demo_path 4 2 (∅ : files) =
    Ret (Err (Io (ErrorKind.Other 28)), <[demo_path := []]> ∅).
Proof.
  destruct (failed_create_leaves_stub (H0 := full_disk) (T := Z) demo_path 4 2 (ErrorKind.Other 28) ∅)
    as [E _].
  - reflexivity.
  - reflexivity.
  - exact args_4_2.
  - reflexivity.
  - reflexivity.
  - exact E.
Defined.
