(* ===== verification/Weak.v ===== *)
(** Weak: the ring under release/acquire memory.

    One producer and its readers, at the granularity of single accesses, as
    [LoomRing::try_push], [try_pop], [total_written] and [claim],
    [LoomLoan::value], [commit], [abort] and [drop] of [src/src/loom_ring.rs]
    issue them (the same accesses as [src/src/ring.rs] and [src/src/loan.rs],
    where a pop is also refused while its reader has a loan open), with the
    notify counter of [model_notify_no_lost_wakeup] and the queries
    [slowest_lag] (by the producer) and [len] (by a reader, of its own id) of
    [src/src/ring.rs].

    An atomic word has one writer and a history of messages, each with the
    vector clock its [Release] store published; a load may return any message
    not older than one the thread already knows, and an [Acquire] load joins
    that message's clock.  Slot accesses are not atomic: an access that is not
    ordered after the conflicting ones by the clocks is a data race, recorded
    in [w_race].

    [lstep] has every step the code can make: like [LoomRing::try_pop] it pops
    with loans open, and any open loan may be aborted.  What clients must keep
    to for the slots to be race-free is said apart, by [pinned] (no loan is
    read that its reader's cursor has passed) and by the sufficient [gated]
    (pops with no loan open, as [SpmcRingBuffer::try_pop] enforces for one
    handle, and aborts of the newest loan).

    A reader is one thread, so its claim pipeline ([claim_base], [Relaxed]) has
    no other writer and its compare-and-swap succeeds at once.  Indices and
    [total_written] are unbounded integers: 2^64 messages are out of reach. *)

From S2P Require Import Prelude.
From stdpp Require Import relations.
Set Default Goal Selector "!".
Open Scope Z_scope.

(** ** Clocks and messages *)

(** Thread 0 is the producer, thread [S i] reader [i]. *)
Definition clock : Type := nat -> nat.
Definition tick (t : nat) (C : clock) : clock := fun u => if Nat.eqb u t then S (C u) else C u.
Definition clock_join (C D : clock) : clock := fun u => Nat.max (C u) (D u).

Record msg := mkMsg {
  m_val : Z;
  m_view : clock;
}.

(** A message a thread with clock [C] may read from a word that thread [t]
    writes. *)
Definition readable (t : nat) (C : clock) (h : list msg) (k : nat) (m : msg) : Prop :=
  h !! k = Some m /\
  forall k' m', (k < k')%nat -> h !! k' = Some m' -> (C t < m_view m' t)%nat.

(** A slot: its value, the producer's clock at the last write, and each
    reader's clock at its last read. *)
Record cell := mkCell {
  c_val : Z;
  c_write : nat;
  c_read : nat -> nat;
}.

(** ** Threads *)

Inductive ppc :=
  | PIdle
  | PScan (w v : Z) (i : nat) (min_read : Z)
  | PLag (w : Z) (i : nat) (min_read : Z)
  | PWrite (w v : Z)
  | PStore (w v : Z)
  | PCount.

Inductive rpc :=
  | RIdle
  | RGotW (w : Z)
  | RGot (w r : Z)
  | RBump (r v : Z)
  | LGotW (w : Z)
  | NGotW (w : Z).

(** A reader: where it is, its clock, the history of its cursor, its claim
    pipeline and open loans, what it has read in place ([r_obs], index and
    value), what its pops have returned ([r_popped]), how many loans have moved
    its cursor ([r_taken]), and the newest [write_idx] that preceded a signal
    it was woken by ([r_woken]). *)
Record reader := mkReader {
  r_pc : rpc;
  r_view : clock;
  r_hist : list msg;
  r_base : Z;
  r_loans : list Z;
  r_obs : list (Z * Z);
  r_popped : list Z;
  r_taken : nat;
  r_woken : Z;
}.

(** The producer, the histories of [write_idx], [total_written] and the notify
    counter, the slots and the readers; [w_log] is the stream published. *)
Record weak := mkWeak {
  w_pc : ppc;
  w_view : clock;
  w_hist : list msg;
  w_total : list msg;
  w_log : list Z;
  w_cells : list cell;
  w_readers : list reader;
  w_notify : list msg;
  w_race : bool;
}.

Definition cap (s : weak) : Z := Z.of_nat (length (w_cells s)).
Definition slot (s : weak) (j : Z) : nat := Z.to_nat (j mod cap s).

Definition with_producer (s : weak) (pc : ppc) (C : clock) : weak :=
  mkWeak pc C (w_hist s) (w_total s) (w_log s) (w_cells s) (w_readers s) (w_notify s) (w_race s).
Definition with_reader (s : weak) (i : nat) (rd : reader) : weak :=
  mkWeak (w_pc s) (w_view s) (w_hist s) (w_total s) (w_log s) (w_cells s) (<[i := rd]> (w_readers s)) (w_notify s) (w_race s).
Definition with_cell (s : weak) (k : nat) (c : cell) : weak :=
  mkWeak (w_pc s) (w_view s) (w_hist s) (w_total s) (w_log s) (<[k := c]> (w_cells s)) (w_readers s) (w_notify s) (w_race s).
(** An access to a slot, ordered after the conflicting ones or not. *)
Definition checked (s : weak) (ordered : bool) : weak :=
  mkWeak (w_pc s) (w_view s) (w_hist s) (w_total s) (w_log s) (w_cells s) (w_readers s) (w_notify s)
    (w_race s || negb ordered).
Definition with_notify (s : weak) (n : list msg) : weak :=
  mkWeak (w_pc s) (w_view s) (w_hist s) (w_total s) (w_log s) (w_cells s) (w_readers s) n (w_race s).

(** The producer stores [w + 1] to [write_idx]; the record is published. *)
Definition published (s : weak) (w v : Z) : weak :=
  let C := tick 0 (w_view s) in
  mkWeak PCount C (w_hist s ++ [mkMsg (w + 1) C]) (w_total s) (w_log s ++ [v]) (w_cells s) (w_readers s)
    (w_notify s) (w_race s).

(** The producer adds 1 to the newest [total_written].  The access is
    [Relaxed], and so is every load of the word: the clock only dates the
    message. *)
Definition newest_val (h : list msg) : Z := from_option m_val 0 (last h).
Definition count_push (s : weak) : weak :=
  let C := tick 0 (w_view s) in
  mkWeak PIdle C (w_hist s) (w_total s ++ [mkMsg (newest_val (w_total s) + 1) C]) (w_log s) (w_cells s)
    (w_readers s) (w_notify s) (w_race s).

Definition at_pc (rd : reader) (pc : rpc) (C : clock) : reader :=
  mkReader pc C (r_hist rd) (r_base rd) (r_loans rd) (r_obs rd) (r_popped rd) (r_taken rd) (r_woken rd).

(** Reader [i] stores [r + 1] to its cursor. *)
Definition bumped (rd : reader) (i : nat) (r : Z) (loans popped : list Z) (taken : nat) : reader :=
  let C := tick (S i) (r_view rd) in
  mkReader RIdle C (r_hist rd ++ [mkMsg (r + 1) C]) (r_base rd) loans (r_obs rd) popped taken (r_woken rd).
(** The same, by a pop that read [v], and for loan [j], leaving the loans [rest]. *)
Definition popped_at (rd : reader) (i : nat) (r v : Z) : reader :=
  bumped rd i r (r_loans rd) (r_popped rd ++ [v]) (r_taken rd).
Definition taken_at (rd : reader) (i : nat) (j : Z) (rest : list Z) : reader :=
  bumped rd i j rest (r_popped rd) (S (r_taken rd)).

Definition with_loans (rd : reader) (base : Z) (loans : list Z) : reader :=
  mkReader RIdle (r_view rd) (r_hist rd) base loans (r_obs rd) (r_popped rd) (r_taken rd) (r_woken rd).

(** The producer bumps the notify counter; the message records the
    [write_idx] it follows. *)
Definition signalled (s : weak) : weak :=
  let C := tick 0 (w_view s) in
  with_notify (with_producer s PIdle C)
    (w_notify s ++ [mkMsg (Z.of_nat (length (w_hist s)) - 1) C]).
(** A reader loads the counter. *)
Definition woken (rd : reader) (m : msg) : reader :=
  mkReader RIdle (clock_join (r_view rd) (m_view m)) (r_hist rd) (r_base rd) (r_loans rd)
    (r_obs rd) (r_popped rd) (r_taken rd) (Z.max (r_woken rd) (m_val m)).

(** Reader [i] reads the slot of index [j] and goes to [pc]. *)
Definition observed (rd : reader) (i : nat) (j v : Z) (pc : rpc) : reader :=
  mkReader pc (tick (S i) (r_view rd)) (r_hist rd) (r_base rd) (r_loans rd)
    (r_obs rd ++ [(j, v)]) (r_popped rd) (r_taken rd) (r_woken rd).
Definition read_cell (c : cell) (i : nat) (rd : reader) : cell :=
  mkCell (c_val c) (c_write c)
    (fun u => if Nat.eqb u i then tick (S i) (r_view rd) (S i) else c_read c u).

(** ** Races *)

(** Every reader's last read of the slot is known to the producer. *)
Definition reads_ordered (s : weak) (c : cell) : bool :=
  forallb (fun i => Nat.leb (c_read c i) (w_view s (S i))) (seq 0 (length (w_readers s))).
(** The last write of the slot is known to the reader. *)
Definition write_ordered (rd : reader) (c : cell) : bool := Nat.leb (c_write c) (r_view rd 0%nat).

(** The producer writes [v] to the slot of [w]; reader [i] reads the slot of
    [j], and goes to [pc]. *)
Definition write_slot (s : weak) (w v : Z) (c : cell) : weak :=
  let C := tick 0 (w_view s) in
  checked (with_cell (with_producer s (PStore w v) C) (slot s w) (mkCell v (C 0%nat) (c_read c)))
    (reads_ordered s c).
Definition read_slot (s : weak) (i : nat) (rd : reader) (j : Z) (c : cell) (pc : rpc) : weak :=
  checked (with_reader (with_cell s (slot s j) (read_cell c i rd)) i (observed rd i j (c_val c) pc))
    (write_ordered rd c).

(** ** Steps *)

Definition u64_max : Z := 2 ^ 64 - 1.

(** What a step shows of the calls in progress.  [PushRet true] is the publish,
    at which the outcome of the push is settled; the producer has yet to count
    the push ([PCount]) before it makes another call. *)
Inductive event :=
  | Silent
  | PushCall (v : Z)
  | PushRet (accepted : bool)
  | Signal
  | LagCall
  | LagRet (n : Z)
  | PopCall (i : nat)
  | PopRet (i : nat) (r : option Z)
  | ClaimCall (i : nat)
  | ClaimRet (i : nat) (index : option Z)
  | Value (i : nat) (index v : Z)
  | CommitRet (i : nat) (index : Z) (ok : bool)
  | Dropped (i : nat) (index : Z)
  | Aborted (i : nat) (index : Z)
  | NotifyLoad (i n : nat)
  | LenCall (i : nat)
  | LenRet (i : nat) (n : Z).

Inductive lstep : weak -> event -> weak -> Prop :=
  (** [try_push]: [write_idx.load(Relaxed)] *)
  | p_load s v k m :
      w_pc s = PIdle -> readable 0 (w_view s) (w_hist s) k m ->
      lstep s (PushCall v) (with_producer s (PScan (m_val m) v 0 u64_max) (w_view s))
  (** the cursor scan, one [load(Acquire)] each *)
  | p_scan s w v i lo rd k m :
      w_pc s = PScan w v i lo -> w_readers s !! i = Some rd ->
      readable (S i) (w_view s) (r_hist rd) k m ->
      lstep s Silent (with_producer s (PScan w v (S i) (Z.min lo (m_val m))) (clock_join (w_view s) (m_view m)))
  | p_full s w v lo :
      w_pc s = PScan w v (length (w_readers s)) lo -> cap s <= w - lo ->
      lstep s (PushRet false) (with_producer s PIdle (w_view s))
  | p_room s w v lo :
      w_pc s = PScan w v (length (w_readers s)) lo -> w - lo < cap s ->
      lstep s Silent (with_producer s (PWrite w v) (w_view s))
  (** [slowest_lag], called by the producer *)
  | p_lag_load s k m :
      w_pc s = PIdle -> readable 0 (w_view s) (w_hist s) k m ->
      lstep s LagCall (with_producer s (PLag (m_val m) 0 u64_max) (w_view s))
  | p_lag_scan s w i lo rd k m :
      w_pc s = PLag w i lo -> w_readers s !! i = Some rd ->
      readable (S i) (w_view s) (r_hist rd) k m ->
      lstep s Silent (with_producer s (PLag w (S i) (Z.min lo (m_val m))) (clock_join (w_view s) (m_view m)))
  | p_lag s w lo :
      w_pc s = PLag w (length (w_readers s)) lo ->
      lstep s (LagRet (wrap64 (w - lo))) (with_producer s PIdle (w_view s))
  (** the slot write *)
  | p_write s w v c :
      w_pc s = PWrite w v -> w_cells s !! slot s w = Some c ->
      lstep s Silent (write_slot s w v c)
  (** [write_idx.store(w + 1, Release)] *)
  | p_store s w v :
      w_pc s = PStore w v -> lstep s (PushRet true) (published s w v)
  (** [total_written.fetch_add(1, Relaxed)], and the return *)
  | p_count s :
      w_pc s = PCount -> lstep s Silent (count_push s)
  (** [notify]: the counter's [fetch_add(1, Release)], after a publish *)
  | p_signal s :
      w_pc s = PIdle -> lstep s Signal (signalled s)
  (** the counter's [load(Acquire)], by a waiting reader *)
  | r_wake s i rd k m :
      w_readers s !! i = Some rd -> r_pc rd = RIdle ->
      readable 0 (r_view rd) (w_notify s) k m ->
      lstep s (NotifyLoad i k) (with_reader s i (woken rd m))
  (** [try_pop]: [write_idx.load(Acquire)] *)
  | r_load s i rd k m :
      w_readers s !! i = Some rd -> r_pc rd = RIdle ->
      readable 0 (r_view rd) (w_hist s) k m ->
      lstep s (PopCall i) (with_reader s i (at_pc rd (RGotW (m_val m)) (clock_join (r_view rd) (m_view m))))
  (** its own cursor, [load(Acquire)] *)
  | r_cursor s i rd w k m :
      w_readers s !! i = Some rd -> r_pc rd = RGotW w ->
      readable (S i) (r_view rd) (r_hist rd) k m ->
      lstep s Silent (with_reader s i (at_pc rd (RGot w (m_val m)) (clock_join (r_view rd) (m_view m))))
  | r_empty s i rd w :
      w_readers s !! i = Some rd -> r_pc rd = RGot w w ->
      lstep s (PopRet i None) (with_reader s i (at_pc rd RIdle (r_view rd)))
  (** the slot read *)
  | r_read s i rd w r c :
      w_readers s !! i = Some rd -> r_pc rd = RGot w r -> r <> w ->
      w_cells s !! slot s r = Some c ->
      lstep s Silent (read_slot s i rd r c (RBump r (c_val c)))
  (** the cursor [store(r + 1, Release)] *)
  | r_bump s i rd r v :
      w_readers s !! i = Some rd -> r_pc rd = RBump r v ->
      lstep s (PopRet i (Some v)) (with_reader s i (popped_at rd i r v))
  (** [claim]: [write_idx.load(Acquire)] *)
  | l_load s i rd k m :
      w_readers s !! i = Some rd -> r_pc rd = RIdle ->
      readable 0 (r_view rd) (w_hist s) k m ->
      lstep s (ClaimCall i) (with_reader s i (at_pc rd (LGotW (m_val m)) (clock_join (r_view rd) (m_view m))))
  (** then the cursor, and the pipeline head *)
  | l_none s i rd w k m :
      w_readers s !! i = Some rd -> r_pc rd = LGotW w ->
      readable (S i) (r_view rd) (r_hist rd) k m -> w <= Z.max (r_base rd) (m_val m) ->
      lstep s (ClaimRet i None) (with_reader s i (at_pc rd RIdle (clock_join (r_view rd) (m_view m))))
  | l_claim s i rd w k m :
      w_readers s !! i = Some rd -> r_pc rd = LGotW w ->
      readable (S i) (r_view rd) (r_hist rd) k m -> Z.max (r_base rd) (m_val m) < w ->
      let idx := Z.max (r_base rd) (m_val m) in
      lstep s (ClaimRet i (Some idx)) (with_reader s i (with_loans (at_pc rd RIdle (clock_join (r_view rd) (m_view m)))
                                 (idx + 1) (idx :: r_loans rd)))
  (** [len] of its own reader id: the same two loads *)
  | n_load s i rd k m :
      w_readers s !! i = Some rd -> r_pc rd = RIdle ->
      readable 0 (r_view rd) (w_hist s) k m ->
      lstep s (LenCall i) (with_reader s i (at_pc rd (NGotW (m_val m)) (clock_join (r_view rd) (m_view m))))
  | n_len s i rd w k m :
      w_readers s !! i = Some rd -> r_pc rd = NGotW w ->
      readable (S i) (r_view rd) (r_hist rd) k m ->
      lstep s (LenRet i (wrap64 (w - m_val m)))
        (with_reader s i (at_pc rd RIdle (clock_join (r_view rd) (m_view m))))
  (** dereferencing an open loan *)
  | l_deref s i rd j c :
      w_readers s !! i = Some rd -> r_pc rd = RIdle -> j ∈ r_loans rd ->
      w_cells s !! slot s j = Some c ->
      lstep s (Value i j (c_val c)) (read_slot s i rd j c RIdle)
  (** [commit] at the cursor *)
  | l_commit s i rd j rest k m :
      w_readers s !! i = Some rd -> r_pc rd = RIdle -> r_loans rd ≡ₚ j :: rest ->
      readable (S i) (r_view rd) (r_hist rd) k m -> m_val m = j ->
      lstep s (CommitRet i j true)
        (with_reader s i (taken_at (at_pc rd RIdle (clock_join (r_view rd) (m_view m))) i j rest))
  (** [drop] at the cursor *)
  | l_drop_commit s i rd j rest k m :
      w_readers s !! i = Some rd -> r_pc rd = RIdle -> r_loans rd ≡ₚ j :: rest ->
      readable (S i) (r_view rd) (r_hist rd) k m -> m_val m = j ->
      lstep s (Dropped i j)
        (with_reader s i (taken_at (at_pc rd RIdle (clock_join (r_view rd) (m_view m))) i j rest))
  (** [commit] elsewhere: refused, the loan stays open *)
  | l_commit_refused s i rd j k m :
      w_readers s !! i = Some rd -> r_pc rd = RIdle -> j ∈ r_loans rd ->
      readable (S i) (r_view rd) (r_hist rd) k m -> m_val m <> j ->
      lstep s (CommitRet i j false) (with_reader s i (at_pc rd RIdle (clock_join (r_view rd) (m_view m))))
  (** [drop] elsewhere *)
  | l_drop s i rd j rest k m :
      w_readers s !! i = Some rd -> r_pc rd = RIdle -> r_loans rd ≡ₚ j :: rest ->
      readable (S i) (r_view rd) (r_hist rd) k m -> m_val m <> j ->
      lstep s (Dropped i j) (with_reader s i (with_loans (at_pc rd RIdle (clock_join (r_view rd) (m_view m)))
                                 (r_base rd) rest))
  (** [abort] *)
  | l_abort s i rd j rest :
      w_readers s !! i = Some rd -> r_pc rd = RIdle -> r_loans rd ≡ₚ j :: rest ->
      lstep s (Aborted i j) (with_reader s i (with_loans rd (Z.min (r_base rd) j) rest)).

Definition step (s s' : weak) : Prop := exists e, lstep s e s'.

(** ** Disciplines of the clients *)

(** The index of the last message of a word. *)
Definition last_idx (h : list msg) : Z := Z.of_nat (length h) - 1.
Definition cursor (rd : reader) : Z := last_idx (r_hist rd).
Definition widx (s : weak) : Z := last_idx (w_hist s).

(** A loan is read only while its reader's cursor has not passed it. *)
Definition pinned (s : weak) (e : event) : Prop :=
  match e with
  | Value i j _ => forall rd, w_readers s !! i = Some rd -> cursor rd <= j
  | _ => True
  end.
Definition careful (s s' : weak) : Prop := exists e, lstep s e s' /\ pinned s e.

(** Readers pop only with no loan open, and abort only their newest loan. *)
Definition gated (s : weak) (e : event) : Prop :=
  match e with
  | PopCall i => forall rd, w_readers s !! i = Some rd -> r_loans rd = []
  | Aborted i j => forall rd j', w_readers s !! i = Some rd -> j' ∈ r_loans rd -> j' <= j
  | _ => True
  end.
Definition gated_step (s s' : weak) : Prop := exists e, lstep s e s' /\ gated s e.

(** ** The thread that joins the others *)

Definition joined (s : weak) : clock := foldr clock_join (w_view s) (r_view <$> w_readers s).
(** [LoomRing::total_written], by that thread: [total_written.load(Relaxed)]. *)
Definition loom_total_written (s : weak) (z : Z) : Prop :=
  exists k m, readable 0 (joined s) (w_total s) k m /\ m_val m = z.

(** ** The initial state *)

Definition zero : clock := fun _ => O.
Definition new_cell : cell := mkCell 0 0 zero.
Definition new_reader : reader := mkReader RIdle zero [mkMsg 0 zero] 0 [] [] [] 0 0.
Definition with_readers (capacity num_readers : nat) : weak :=
  mkWeak PIdle zero [mkMsg 0 zero] [mkMsg 0 zero] [] (replicate capacity new_cell)
    (replicate num_readers new_reader) [mkMsg 0 zero] false.
