(* ===== verification/WeakInv.v ===== *)
(** WeakInv: the invariant behind the memory-ordering argument of
    [src/src/ring.rs].

    [inv] holds of every execution; [calm], which says that no access has
    raced, of those in which no loan is read that its reader's cursor has
    passed.

    [knows h t C z]: a thread with clock [C] has acquired message [z] of the
    word [h] that thread [t] writes.  A reader that knows [write_idx] message
    [j + 1] is ordered after the write of slot [j] ([cells_ok]); a producer
    that knows a cursor message past [j] is ordered after that reader's reads
    of [j] ([reads_ok]). *)

From S2P Require Import Prelude.
From S2P Require Import Weak.
From stdpp Require Import relations.
Set Default Goal Selector "!".
Open Scope Z_scope.

(** ** Histories *)

Record hist_ok (t : nat) (h : list msg) (C : clock) : Prop := mkHistOk {
  h_nonempty : 0 <= last_idx h;
  h_val k m : h !! k = Some m -> m_val m = Z.of_nat k;
  h_mono k k' m m' : h !! k = Some m -> h !! k' = Some m' -> (k <= k')%nat ->
    (m_view m t <= m_view m' t)%nat;
  h_strict k k' m m' : h !! k = Some m -> h !! k' = Some m' -> (k < k')%nat ->
    (m_view m t < m_view m' t)%nat;
  h_own k m : h !! k = Some m -> (m_view m t <= C t)%nat;
}.

Definition knows (h : list msg) (t : nat) (C : clock) (z : Z) : Prop :=
  0 <= z /\ exists m, h !! Z.to_nat z = Some m /\ (m_view m t <= C t)%nat.

Definition clock_le (C D : clock) : Prop := forall u, (C u <= D u)%nat.

Lemma clock_le_refl C : clock_le C C.
Proof. intros u. lia. Qed.
Lemma clock_le_join_l C D : clock_le C (clock_join C D).
Proof. intros u. unfold clock_join. lia. Qed.
Lemma clock_le_join_r C D : clock_le D (clock_join C D).
Proof. intros u. unfold clock_join. lia. Qed.
Lemma clock_le_tick t C : clock_le C (tick t C).
Proof. intros u. unfold tick. destruct (Nat.eqb u t); lia. Qed.
Lemma tick_own t C : tick t C t = S (C t).
Proof. unfold tick. by rewrite Nat.eqb_refl. Qed.
#[export] Hint Resolve clock_le_refl clock_le_join_l clock_le_join_r clock_le_tick : shm.

Lemma knows_le h t C D z : clock_le C D -> knows h t C z -> knows h t D z.
Proof. intros Hle (Hz & m & Hm & Hv). split; [done|]. exists m. split; [done|]. specialize (Hle t). lia. Qed.

Lemma knows_app h h' t C z : knows h t C z -> knows (h ++ h') t C z.
Proof. intros (Hz & m & Hm & Hv). split; [done|]. exists m. split; [by apply lookup_app_l_Some|done]. Qed.

Lemma knows_bound h t C z : knows h t C z -> 0 <= z <= last_idx h.
Proof. intros (Hz & m & Hm & _). apply lookup_lt_Some in Hm. unfold last_idx. lia. Qed.

Lemma knows_earlier h t C D z z' : hist_ok t h D -> knows h t C z -> 0 <= z' <= z -> knows h t C z'.
Proof.
  intros Hok (Hz & m & Hm & Hv) Hz'. split; [lia|]. pose proof (lookup_lt_Some _ _ _ Hm).
  destruct (lookup_lt_is_Some_2 h (Z.to_nat z')) as [m' Hm']; [lia|]. exists m'. split; [done|].
  pose proof (h_mono _ _ _ Hok _ _ _ _ Hm' Hm ltac:(lia)). lia.
Qed.

(** A load never goes back, and an acquire load adds what it read. *)
Lemma readable_knows h t C D k m z :
  hist_ok t h D -> readable t C h k m -> knows h t C z ->
  z <= m_val m /\ m_val m <= last_idx h /\ knows h t (clock_join C (m_view m)) (m_val m).
Proof.
  intros Hok [Hk Hlast] (Hz & m' & Hm' & Hv). rewrite (h_val _ _ _ Hok _ _ Hk).
  pose proof (lookup_lt_Some _ _ _ Hk). split; [|split; [unfold last_idx; lia|]].
  - destruct (Z.le_gt_cases z (Z.of_nat k)) as [|Hgt]; [done|].
    specialize (Hlast (Z.to_nat z) m' ltac:(lia) Hm'). lia.
  - split; [lia|]. exists m. rewrite Nat2Z.id. split; [done|]. unfold clock_join. lia.
Qed.

(** The writer of a word reads its last message. *)
Lemma readable_own h t C k m : hist_ok t h C -> readable t C h k m -> m_val m = last_idx h.
Proof.
  intros Hok [Hk Hlast]. rewrite (h_val _ _ _ Hok _ _ Hk). unfold last_idx.
  pose proof (lookup_lt_Some _ _ _ Hk). destruct (decide (S k = length h)) as [E|E]; [lia|].
  destruct (lookup_lt_is_Some_2 h (S k)) as [m' Hm']; [lia|].
  specialize (Hlast (S k) m' ltac:(lia) Hm'). pose proof (h_own _ _ _ Hok _ _ Hm'). lia.
Qed.

Lemma hist_ok_le t h C D : clock_le C D -> hist_ok t h C -> hist_ok t h D.
Proof.
  intros Hle []. split; try done. intros k m Hk. specialize (Hle t). specialize (h_own0 k m Hk). lia.
Qed.

(** A release store appends the next value. *)
Lemma hist_ok_store t h C :
  hist_ok t h C -> hist_ok t (h ++ [mkMsg (last_idx h + 1) (tick t C)]) (tick t C).
Proof.
  intros Hok. set (m0 := mkMsg _ _).
  assert (Hl : forall k m, (h ++ [m0]) !! k = Some m ->
    h !! k = Some m /\ (k < length h)%nat \/ k = length h /\ m = m0).
  { intros k m [Hk|[Hk Hm]]%lookup_app_Some.
    - left. split; [done|]. by eapply lookup_lt_Some.
    - right. apply list_lookup_singleton_Some in Hm as [? <-]. split; [lia|done]. }
  assert (Ht : m_view m0 t = S (C t)) by apply tick_own.
  split.
  - unfold last_idx in *. rewrite length_app. simpl. lia.
  - intros k m [[Hk _]|[-> ->]]%Hl; [by apply (h_val _ _ _ Hok)|]. cbn. unfold last_idx. lia.
  - intros k k' m m' [[Hk Hk1]|[-> ->]]%Hl [[Hk' Hk2]|[-> ->]]%Hl Hle; try lia.
    + by eapply (h_mono _ _ _ Hok).
    + pose proof (h_own _ _ _ Hok _ _ Hk). lia.
  - intros k k' m m' [[Hk Hk1]|[-> ->]]%Hl [[Hk' Hk2]|[-> ->]]%Hl Hle; try lia.
    + by eapply (h_strict _ _ _ Hok).
    + pose proof (h_own _ _ _ Hok _ _ Hk). lia.
  - intros k m [[Hk _]|[-> ->]]%Hl; rewrite tick_own; [|lia]. pose proof (h_own _ _ _ Hok _ _ Hk). lia.
Qed.

Lemma last_idx_snoc h m : last_idx (h ++ [m]) = last_idx h + 1.
Proof. unfold last_idx. rewrite length_app. simpl. lia. Qed.

(** ** The invariant *)

(** The number of indices whose slot has been written. *)
Definition written (s : weak) : Z :=
  match w_pc s with PStore _ _ => widx s + 1 | _ => widx s end.
(** The stream: the published records, and the one in flight. *)
Definition stream (s : weak) : list Z :=
  match w_pc s with PStore _ v => w_log s ++ [v] | _ => w_log s end.

Definition popping (pc : rpc) : bool :=
  match pc with RGotW _ | RGot _ _ | RBump _ _ => true | _ => false end.

(** The pushes counted: all published but one the producer has yet to count. *)
Definition tallied (s : weak) : Z :=
  match w_pc s with PCount => widx s - 1 | _ => widx s end.

(** What a reader in the middle of a call has established. *)
Definition rpc_ok (h : list msg) (log : list Z) (rd : reader) : Prop :=
  match r_pc rd with
  | RIdle => True
  | RGotW w | LGotW w | NGotW w => knows h 0 (r_view rd) w /\ cursor rd <= w /\ r_woken rd <= w
  | RGot w r => knows h 0 (r_view rd) w /\ r = cursor rd /\ r <= w /\ r_woken rd <= w
  | RBump r v => knows h 0 (r_view rd) (r + 1) /\ r = cursor rd /\ log !! Z.to_nat r = Some v
  end.

Record reader_ok (h : list msg) (log : list Z) (i : nat) (rd : reader) : Prop := mkReaderOk {
  ro_hist : hist_ok (S i) (r_hist rd) (r_view rd);
  ro_knows : knows h 0 (r_view rd) (cursor rd);
  ro_pc : rpc_ok h log rd;
  ro_base : 0 <= r_base rd <= last_idx h;
  ro_loans j : j ∈ r_loans rd -> 0 <= j /\ knows h 0 (r_view rd) (j + 1);
  ro_count : Z.of_nat (length (r_popped rd) + r_taken rd) = cursor rd;
  ro_sublist : r_popped rd `sublist_of` take (Z.to_nat (cursor rd)) log;
  ro_woken : knows h 0 (r_view rd) (r_woken rd);
}.

(** The producer's scan: the readers already read are known to be at least
    at the minimum found. *)
Definition scanned (s : weak) (n : nat) (lo : Z) : Prop :=
  forall i rd, (i < n)%nat -> w_readers s !! i = Some rd ->
    exists z, lo <= z /\ knows (r_hist rd) (S i) (w_view s) z.

Definition ppc_ok (s : weak) : Prop :=
  match w_pc s with
  | PIdle | PCount => True
  | PScan w _ i lo | PLag w i lo => w = widx s /\ 0 <= lo /\ scanned s i lo
  | PWrite w v => w = widx s /\ scanned s (length (w_readers s)) (w - cap s + 1)
  | PStore w v => w = widx s
  end.

(** A written slot not yet reused holds its record, and whoever knows its
    publication is ordered after its write. *)
Definition cells_ok (s : weak) : Prop :=
  forall j c, 0 <= j < written s -> written s <= j + cap s -> w_cells s !! slot s j = Some c ->
    stream s !! Z.to_nat j = Some (c_val c) /\
    (forall m, w_hist s !! Z.to_nat (j + 1) = Some m -> (c_write c <= m_view m 0)%nat) /\
    (c_write c <= w_view s 0)%nat.

(** A reader's last read of a slot was of an index already published, and
    whoever knows the reader's cursor past it is ordered after the read. *)
Definition reads_ok (s : weak) : Prop :=
  forall k c i rd, w_cells s !! k = Some c -> w_readers s !! i = Some rd ->
    c_read c i = O \/
    exists j, 0 <= j < widx s /\ slot s j = k /\ (c_read c i <= r_view rd (S i))%nat /\
      forall q m, r_hist rd !! q = Some m -> j < Z.of_nat q -> (c_read c i <= m_view m (S i))%nat.

Record inv (s : weak) : Prop := mkInv {
  i_cap : 0 < cap s;
  i_readers : (0 < length (w_readers s))%nat;
  i_hist : hist_ok 0 (w_hist s) (w_view s);
  i_total : hist_ok 0 (w_total s) (w_view s) /\ last_idx (w_total s) = tallied s;
  i_log : Z.of_nat (length (w_log s)) = widx s;
  i_pc : ppc_ok s;
  i_reader i rd : w_readers s !! i = Some rd ->
    reader_ok (w_hist s) (w_log s) i rd /\ written s - cap s <= cursor rd;
  i_cells : cells_ok s;
  i_notify m : m ∈ w_notify s -> knows (w_hist s) 0 (m_view m) (m_val m);
}.

Record calm (s : weak) : Prop := mkCalm {
  c_race : w_race s = false;
  c_reads : reads_ok s;
  c_obs i rd j v : w_readers s !! i = Some rd -> (j, v) ∈ r_obs rd ->
    0 <= j /\ w_log s !! Z.to_nat j = Some v;
}.

(** ** Preservation *)

Lemma slot_inj s j j' :
  0 < cap s -> slot s j = slot s j' -> j - cap s < j' < j + cap s -> j = j'.
Proof.
  intros Hc E Hw. unfold slot in E. apply (mod_window_inj j j' (cap s)); [lia|lia|].
  pose proof (Z.mod_pos_bound j (cap s) Hc). pose proof (Z.mod_pos_bound j' (cap s) Hc). lia.
Qed.

Lemma widx_nonneg s : inv s -> 0 <= widx s.
Proof. intros I. apply (i_hist _ I). Qed.

Lemma cursor_bound s i rd : inv s -> w_readers s !! i = Some rd -> 0 <= cursor rd <= widx s.
Proof.
  intros I Hr. destruct (i_reader _ I i rd Hr) as [Ho _]. exact (knows_bound _ _ _ _ (ro_knows _ _ _ _ Ho)).
Qed.

(** The slot of an index a reader may read holds that index's record, and its
    write is ordered before the reader. *)
Lemma readable_slot s i rd j c :
  inv s -> w_readers s !! i = Some rd -> cursor rd <= j -> knows (w_hist s) 0 (r_view rd) (j + 1) ->
  w_cells s !! slot s j = Some c ->
  w_log s !! Z.to_nat j = Some (c_val c) /\ write_ordered rd c = true /\ 0 <= j < widx s.
Proof.
  intros I Hr Hj Hk Hc. pose proof (cursor_bound _ _ _ I Hr) as Hcur.
  destruct (i_reader _ I i rd Hr) as [Ho Hwin]. pose proof (knows_bound _ _ _ _ Hk) as Hb.
  fold (widx s) in Hb. assert (Hjr : 0 <= j < widx s) by lia.
  assert (Hwr : widx s <= written s) by (unfold written; destruct (w_pc s); lia).
  destruct (i_cells _ I j c) as (Hs & Hm & _); [lia|lia|done|]. split_and!; try lia.
  - pose proof (i_log _ I) as Hl. unfold stream in Hs. destruct (w_pc s); try done.
    by rewrite lookup_app_l in Hs by lia.
  - destruct Hk as (_ & m & Hm' & Hv). specialize (Hm m Hm'). apply Nat.leb_le. lia.
Qed.

(** The readers after one of them changes. *)
Lemma reader_cases s i rd' k rdk :
  w_readers (with_reader s i rd') !! k = Some rdk ->
  k = i /\ rdk = rd' \/ k <> i /\ w_readers s !! k = Some rdk.
Proof.
  unfold with_reader; cbn [w_readers]. intros Hk. destruct (decide (k = i)) as [->|Hne].
  - assert ((i < length (w_readers s))%nat) by (apply lookup_lt_Some in Hk; by rewrite length_insert in Hk).
    rewrite list_lookup_insert_eq in Hk by done. simplify_eq. by left.
  - rewrite list_lookup_insert_ne in Hk by done. by right.
Qed.

(** Reader [i] changes, its clock grows and its cursor does not move back:
    what the other threads have established survives. *)
Lemma reader_step s i rd rd' :
  inv s -> w_readers s !! i = Some rd ->
  reader_ok (w_hist s) (w_log s) i rd' -> r_hist rd `prefix_of` r_hist rd' ->
  inv (with_reader s i rd').
Proof.
  intros I Hr Ho [h' Hpre]. set (s' := with_reader s i rd').
  assert (Hlen : length (w_readers s') = length (w_readers s)) by apply length_insert.
  assert (Hscan : forall n lo, scanned s n lo -> scanned s' n lo).
  { intros n lo Hs k rdk Hk [[-> ->]|[_ Hk']]%reader_cases; [|by apply (Hs k rdk)].
    destruct (Hs i rd Hk Hr) as (z & Hz & Hkn). exists z. split; [done|]. rewrite Hpre.
    by apply knows_app. }
  split; try apply I.
  - rewrite Hlen. apply (i_readers _ I).
  - pose proof (i_pc _ I) as Hp. unfold ppc_ok in *. change (w_pc s') with (w_pc s).
    rewrite Hlen. destruct (w_pc s); naive_solver.
  - intros k rdk [[-> ->]|[_ Hk]]%reader_cases; [|by apply (i_reader _ I k rdk)].
    split; [done|]. destruct (i_reader _ I i rd Hr) as [_ Hwin].
    change (written s' - cap s') with (written s - cap s).
    unfold cursor, last_idx in *. rewrite Hpre, length_app. lia.
Qed.

(** Only the clock, the call in progress and the loans of a reader change. *)
Lemma reader_step_same s i rd rd' :
  inv s -> w_readers s !! i = Some rd ->
  reader_ok (w_hist s) (w_log s) i rd' -> r_hist rd' = r_hist rd -> inv (with_reader s i rd').
Proof. intros I Hr Ho E. eapply reader_step; [done|done|done|by rewrite E]. Qed.

(** A reader that joins an acquired clock. *)
Lemma reader_at_pc s i rd pc C :
  inv s -> w_readers s !! i = Some rd -> clock_le (r_view rd) C ->
  rpc_ok (w_hist s) (w_log s) (at_pc rd pc C) ->
  reader_ok (w_hist s) (w_log s) i (at_pc rd pc C).
Proof.
  intros I Hr Hle Hpc. destruct (i_reader _ I i rd Hr) as [[] _].
  split; cbn [at_pc r_pc r_view r_hist r_base r_loans r_obs r_popped r_taken r_woken]; try done.
  - by eapply hist_ok_le.
  - by eapply knows_le.
  - intros j Hj. destruct (ro_loans0 j Hj). split; [done|by eapply knows_le].
  - by eapply knows_le.
Qed.

Lemma inv_at_pc s i rd pc C :
  inv s -> w_readers s !! i = Some rd -> clock_le (r_view rd) C ->
  rpc_ok (w_hist s) (w_log s) (at_pc rd pc C) ->
  inv (with_reader s i (at_pc rd pc C)).
Proof. intros. eapply reader_step_same; [done|done|by apply reader_at_pc|done]. Qed.

Lemma cell_cases s k c' j x :
  w_cells (with_cell s k c') !! j = Some x -> j = k /\ x = c' \/ j <> k /\ w_cells s !! j = Some x.
Proof.
  unfold with_cell; cbn [w_cells]. intros Hx. destruct (decide (j = k)) as [->|Hne].
  - assert ((k < length (w_cells s))%nat) by (apply lookup_lt_Some in Hx; by rewrite length_insert in Hx).
    rewrite list_lookup_insert_eq in Hx by done. simplify_eq. by left.
  - rewrite list_lookup_insert_ne in Hx by done. by right.
Qed.

Lemma cap_with_cell s k c : cap (with_cell s k c) = cap s.
Proof. unfold cap, with_cell; cbn [w_cells]. by rewrite length_insert. Qed.

Lemma slot_with_cell s k c j : slot (with_cell s k c) j = slot s j.
Proof. unfold slot. by rewrite cap_with_cell. Qed.

Lemma inv_checked s b : inv s -> inv (checked s b).
Proof. intros []. by split. Qed.

(** Recording a read of a slot. *)
Lemma inv_cell_read s j c i rd :
  inv s -> w_cells s !! slot s j = Some c -> inv (with_cell s (slot s j) (read_cell c i rd)).
Proof.
  intros I Hc. set (s' := with_cell s _ _). split; try apply I.
  - unfold s'. rewrite cap_with_cell. apply I.
  - pose proof (i_pc _ I) as Hp. unfold ppc_ok in *. change (w_pc s') with (w_pc s).
    unfold s'. rewrite cap_with_cell. exact Hp.
  - intros k rdk Hk. destruct (i_reader _ I k rdk Hk) as [Ho Hw]. split; [done|].
    unfold s'. rewrite cap_with_cell. exact Hw.
  - intros j' x Hj' Hw Hx. unfold s' in *. rewrite cap_with_cell in Hw. rewrite slot_with_cell in Hx.
    apply cell_cases in Hx as [[Es ->]|[_ Hx]]; [|by apply (i_cells _ I)].
    rewrite <- Es in Hc. exact (i_cells _ I j' c Hj' Hw Hc).
Qed.

Lemma inv_read_slot s i rd j c pc :
  inv s -> w_readers s !! i = Some rd -> w_cells s !! slot s j = Some c ->
  rpc_ok (w_hist s) (w_log s) (observed rd i j (c_val c) pc) ->
  inv (read_slot s i rd j c pc).
Proof.
  intros I Hr Hc Hpc. apply inv_checked. set (rd' := observed rd i j (c_val c) pc) in *.
  apply (reader_step_same (with_cell s (slot s j) (read_cell c i rd)) i rd); [by apply inv_cell_read|done| |done].
  pose proof (clock_le_tick (S i) (r_view rd)) as Hle. destruct (i_reader _ I i rd Hr) as [[] _].
  unfold rd' in *. split; cbn [observed r_pc r_view r_hist r_base r_loans r_obs r_popped r_taken r_woken]; try done.
  - by eapply hist_ok_le.
Qed.

(** A cursor bump: the reader moves past the index at its cursor. *)
Lemma inv_bump s i rd r loans popped taken :
  inv s -> w_readers s !! i = Some rd -> r = cursor rd -> knows (w_hist s) 0 (r_view rd) (r + 1) ->
  (forall j, j ∈ loans -> j ∈ r_loans rd) -> Z.of_nat (length popped + taken) = r + 1 ->
  popped `sublist_of` take (Z.to_nat (r + 1)) (w_log s) ->
  inv (with_reader s i (bumped rd i r loans popped taken)).
Proof.
  intros I Hr -> Hk Hl Hcount Hsub. pose proof (cursor_bound _ _ _ I Hr) as Hcur.
  destruct (i_reader _ I i rd Hr) as [[] _]. set (C := tick (S i) (r_view rd)).
  pose proof (clock_le_tick (S i) (r_view rd)) as Hle.
  eapply reader_step; [done|done| |by eexists].
  split; cbn [bumped r_pc r_view r_hist r_base r_loans r_obs r_popped r_taken r_woken]; try done.
  - by apply hist_ok_store.
  - unfold cursor; cbn [bumped r_hist]. rewrite last_idx_snoc. by eapply knows_le.
  - intros j Hj. destruct (ro_loans0 j (Hl j Hj)). split; [done|by eapply knows_le].
  - unfold cursor at 1; cbn [bumped r_hist]. by rewrite last_idx_snoc.
  - unfold cursor at 1; cbn [bumped r_hist]. by rewrite last_idx_snoc.
Qed.

(** Loans taken or released, nothing else. *)
Lemma inv_loans s i rd C base loans :
  inv s -> w_readers s !! i = Some rd -> clock_le (r_view rd) C -> 0 <= base <= widx s ->
  (forall j, j ∈ loans -> 0 <= j /\ knows (w_hist s) 0 C (j + 1)) ->
  inv (with_reader s i (with_loans (at_pc rd RIdle C) base loans)).
Proof.
  intros I Hr Hle Hb Hl. destruct (i_reader _ I i rd Hr) as [[] _].
  eapply reader_step_same; [done|done| |done].
  split; cbn [with_loans at_pc r_pc r_view r_hist r_base r_loans r_obs r_popped r_taken r_woken]; try done.
  - by eapply hist_ok_le.
  - by eapply knows_le.
  - by eapply knows_le.
Qed.

(** ** Calm *)

(** A reader of calm state whose clock grows, whose new messages carry it, and
    that observes what it may. *)
Lemma calm_reader s i rd rd' :
  calm s -> w_readers s !! i = Some rd -> clock_le (r_view rd) (r_view rd') ->
  (forall q m, r_hist rd' !! q = Some m -> r_hist rd !! q = Some m \/
    (r_view rd (S i) <= m_view m (S i))%nat) ->
  (forall j v, (j, v) ∈ r_obs rd' -> (j, v) ∈ r_obs rd \/ 0 <= j /\ w_log s !! Z.to_nat j = Some v) ->
  calm (with_reader s i rd').
Proof.
  intros Q Hr Hle Hnew Hobs. split; [apply Q|..].
  - intros k c u rdu Hc [[-> ->]|[_ Hk]]%reader_cases; [|by apply (c_reads _ Q k c u rdu)].
    destruct (c_reads _ Q k c i rd Hc Hr) as [|(j & Hj & Hs & Hv & Hq)]; [by left|right].
    exists j. split; [done|split; [done|split]].
    + specialize (Hle (S i)). lia.
    + intros q m Hm Hlt. destruct (Hnew q m Hm) as [Hold|Hge]; [by eapply Hq|lia].
  - intros k rdk j v [[-> ->]|[_ Hk]]%reader_cases Hj; [|by eapply (c_obs _ Q)].
    destruct (Hobs j v Hj); [by eapply (c_obs _ Q)|done].
Qed.

(** A reader that only joins clocks or changes its loans. *)
Lemma calm_reader_same s i rd rd' :
  calm s -> w_readers s !! i = Some rd -> clock_le (r_view rd) (r_view rd') ->
  r_hist rd' = r_hist rd -> r_obs rd' = r_obs rd -> calm (with_reader s i rd').
Proof.
  intros Q Hr Hle Eh Eo. eapply calm_reader; [done..| |].
  - intros q m. rewrite Eh. by left.
  - intros j v. rewrite Eo. by left.
Qed.

Lemma calm_bump s i rd r loans popped taken :
  calm s -> w_readers s !! i = Some rd -> calm (with_reader s i (bumped rd i r loans popped taken)).
Proof.
  intros Q Hr. eapply calm_reader; [done|done|apply clock_le_tick| |by left].
  intros q m [Hm|[_ Hm]]%lookup_app_Some; [by left|right].
  apply list_lookup_singleton_Some in Hm as [_ <-]. cbn [m_view]. apply clock_le_tick.
Qed.

(** Whoever has a slot's reads in [c_read] has them in those of [c']. *)
Lemma calm_cell s k c c' :
  calm s -> w_cells s !! k = Some c -> (forall i, c_read c' i = c_read c i) -> calm (with_cell s k c').
Proof.
  intros Q Hc E. split; [apply Q| |apply Q]. intros k' x i rd Hx Hr. cbn in Hr.
  assert (exists x', w_cells s !! k' = Some x' /\ c_read x i = c_read x' i) as (x' & Hx' & ->).
  { apply cell_cases in Hx as [[-> ->]|[_ Hx]]; [by exists c|by exists x]. }
  destruct (c_reads _ Q k' x' i rd Hx' Hr) as [|(j & Hj & Hs & H1 & H2)]; [by left|right].
  exists j. by rewrite slot_with_cell.
Qed.

(** The producer moves. *)
Lemma calm_producer s pc C : calm s -> calm (with_producer s pc C).
Proof. intros []. by split. Qed.

Lemma calm_checked s b : calm s -> b = true -> calm (checked s b).
Proof. intros [] ->. split; [|done..]. cbn. by rewrite c_race0. Qed.

(** A reader reads the slot of an index its cursor has not passed. *)
Lemma calm_read_slot s i rd j c pc :
  inv s -> calm s -> w_readers s !! i = Some rd -> cursor rd <= j -> knows (w_hist s) 0 (r_view rd) (j + 1) ->
  w_cells s !! slot s j = Some c -> calm (read_slot s i rd j c pc).
Proof.
  intros I Q Hr Hj Hk Hc. destruct (readable_slot s i rd j c I Hr Hj Hk Hc) as (Hlog & Ho & Hjr).
  apply calm_checked; [|done]. set (rd' := observed rd i j (c_val c) pc).
  assert (Q1 : calm (with_reader s i rd')).
  { eapply calm_reader; [done|done|apply clock_le_tick|by left|].
    intros j' v [Hin|Heq]%elem_of_app; [by left|right].
    apply list_elem_of_singleton in Heq. simplify_eq. split; [lia|done]. }
  change (with_reader (with_cell s (slot s j) (read_cell c i rd)) i rd') with
    (with_cell (with_reader s i rd') (slot (with_reader s i rd') j) (read_cell c i rd)).
  split; [apply Q1| |apply Q1]. intros k x u rdu Hx Hu. cbn [with_cell w_readers] in Hu.
  apply cell_cases in Hx as [[-> ->]|[_ Hx]]; [|destruct (c_reads _ Q1 _ _ u rdu Hx Hu) as [|(j' & ?)];
    [by left|right; exists j'; by rewrite slot_with_cell]].
  cbn [read_cell c_read]. destruct (Nat.eqb_spec u i) as [->|Hne].
  - apply reader_cases in Hu as [[_ ->]|[? _]]; [|done]. right. exists j. rewrite slot_with_cell.
    split; [exact Hjr|split; [done|split; [done|]]].
    intros q m Hm Hlt. apply lookup_lt_Some in Hm. cbn in Hm. unfold cursor, last_idx in Hj. lia.
  - destruct (c_reads _ Q1 _ c u rdu Hc Hu) as [|(j' & ?)]; [by left|right].
    exists j'. by rewrite slot_with_cell.
Qed.
