(* ===== verification/WeakSteps.v ===== *)
(** WeakSteps: every step of the release/acquire machine preserves [inv] of
    [WeakInv], every careful one [calm], and gated steps are careful. *)

From S2P Require Import Prelude.
From S2P Require Import Weak.
From S2P Require Import WeakInv.
From stdpp Require Import relations.
Set Default Goal Selector "!".
Open Scope Z_scope.

Definition storing (pc : ppc) : bool := match pc with PStore _ _ => true | _ => false end.
(** Past the slot's write. *)
Definition settling (pc : ppc) : bool := match pc with PStore _ _ | PCount => true | _ => false end.

Lemma written_idle s : storing (w_pc s) = false -> written s = widx s /\ stream s = w_log s.
Proof. unfold written, stream. by destruct (w_pc s). Qed.

Lemma scanned_le s s' n lo :
  w_readers s' = w_readers s -> clock_le (w_view s) (w_view s') -> scanned s n lo -> scanned s' n lo.
Proof.
  intros E Hle Hs i rd Hi Hr. rewrite E in Hr. destruct (Hs i rd Hi Hr) as (z & Hz & Hk).
  exists z. split; [done|by eapply knows_le].
Qed.

(** The producer moves between its atomic loads and branches. *)
Lemma inv_producer s pc C :
  inv s -> settling (w_pc s) = false -> settling pc = false -> clock_le (w_view s) C ->
  ppc_ok (with_producer s pc C) -> inv (with_producer s pc C).
Proof.
  intros I H1 H2 Hle Hp. set (s' := with_producer s pc C).
  assert (written s' = written s /\ stream s' = stream s) as [Ew Es].
  { destruct (written_idle s) as [-> ->]; [by destruct (w_pc s)|]. apply (written_idle s'). by destruct pc. }
  assert (Et : tallied s' = tallied s).
  { unfold tallied; cbn [s' with_producer w_pc]. by destruct (w_pc s), pc. }
  destruct (i_total _ I) as [Ht Hn].
  split; try apply I; try done.
  - eapply hist_ok_le; [exact Hle|apply I].
  - split; [by eapply hist_ok_le|by rewrite Et].
  - intros i rd Hr. rewrite Ew. by apply (i_reader _ I).
  - intros j c Hj Hw Hc. rewrite Ew in *. rewrite Es. destruct (i_cells _ I j c Hj Hw Hc) as (Ha & Hb & Hd).
    split; [done|split; [done|]]. specialize (Hle 0%nat). cbn [s' with_producer w_view]. change (w_view s') with C. lia.
Qed.

(** A bump of the notify counter. *)
Lemma inv_notify s n :
  inv s -> (forall m, m ∈ n -> knows (w_hist s) 0 (m_view m) (m_val m)) -> inv (with_notify s n).
Proof. intros [] Hn. by split. Qed.

(** The reads of the slot about to be reused are ordered before the
    producer: every reader's cursor is known to be past them. *)
Lemma slot_reads_ordered s w v c :
  inv s -> calm s -> w_pc s = PWrite w v -> w_cells s !! slot s w = Some c -> reads_ordered s c = true.
Proof.
  intros I Q Hpc Hc. apply forallb_forall. intros i [_ Hi]%in_seq. apply Nat.leb_le.
  pose proof (i_pc _ I) as Hp. unfold ppc_ok in Hp. rewrite Hpc in Hp.
  destruct Hp as [-> Hs]. destruct (lookup_lt_is_Some_2 _ _ Hi) as [rd Hr].
  destruct (Hs i rd Hi Hr) as (z & Hz & (Hz0 & m & Hm & Hv)).
  destruct (c_reads _ Q _ c i rd Hc Hr) as [->|(j & Hj & Es & _ & Hq)]; [lia|].
  assert (j <= widx s - cap s).
  { destruct (Z.le_gt_cases j (widx s - cap s)) as [|Hgt]; [done|].
    pose proof (i_cap _ I). pose proof (slot_inj s j (widx s) (i_cap _ I) Es). lia. }
  specialize (Hq (Z.to_nat z) m Hm ltac:(lia)). lia.
Qed.

Lemma inv_write s w v c :
  inv s -> w_pc s = PWrite w v -> w_cells s !! slot s w = Some c -> inv (write_slot s w v c).
Proof.
  intros I Hpc Hc. apply inv_checked. set (C := tick 0 (w_view s)). set (c' := mkCell _ _ _).
  set (s1 := with_producer s (PStore w v) C). set (s' := with_cell s1 (slot s w) c').
  pose proof (i_pc _ I) as Hp. unfold ppc_ok in Hp. rewrite Hpc in Hp. destruct Hp as [-> Hs].
  pose proof (i_cap _ I) as Hcap. pose proof (i_log _ I) as Hlog.
  assert (Ecap : cap s' = cap s) by exact (cap_with_cell s1 _ _).
  assert (Eslot : forall j, slot s' j = slot s j) by exact (slot_with_cell s1 _ _).
  assert (Hle : clock_le (w_view s) C) by apply clock_le_tick.
  assert (Hws : written s = widx s /\ stream s = w_log s) by (apply written_idle; by rewrite Hpc).
  destruct Hws as [Ew Es]. pose proof (widx_nonneg _ I).
  destruct (i_total _ I) as [Ht Hn].
  split.
  - by rewrite Ecap.
  - apply (i_readers _ I).
  - eapply hist_ok_le; [exact Hle|apply (i_hist _ I)].
  - split; [by eapply hist_ok_le|]. unfold tallied in Hn. by rewrite Hpc in Hn.
  - exact Hlog.
  - done.
  - intros i rd Hr. destruct (i_reader _ I i rd Hr) as [Ho _]. split; [done|]. rewrite Ecap.
    change (written s') with (widx s + 1).
    destruct (Hs i rd) as (z & Hz & Hk); [by eapply lookup_lt_Some|done|].
    apply knows_bound in Hk. unfold cursor. lia.
  - intros j x Hj Hw Hx. rewrite Ecap, Eslot in *. change (written s') with (widx s + 1) in *.
    change (stream s') with (w_log s ++ [v]). change (w_hist s') with (w_hist s). change (w_view s') with C.
    apply cell_cases in Hx as [[E ->]|[Hne Hx]].
    + assert (j = widx s) as -> by (apply (slot_inj s) in E; [done|done|lia]). unfold c'; cbn [c_val c_write].
      split; [by rewrite lookup_app_r, <- Hlog, Nat2Z.id, Nat.sub_diag by lia|split; [|done]].
      intros m Hm. apply lookup_lt_Some in Hm. unfold widx, last_idx in *. lia.
    + assert (j <> widx s) by (by intros ->).
      destruct (i_cells _ I j x) as (Ha & Hb & Hd); [lia|lia|done|]. rewrite Es in Ha.
      split; [by apply lookup_app_l_Some|split; [done|]]. specialize (Hle 0%nat). lia.
  - apply (i_notify _ I).
Qed.

Lemma reader_ok_publish s w v i rd :
  inv s -> w_pc s = PStore w v -> reader_ok (w_hist s) (w_log s) i rd ->
  reader_ok (w_hist (published s w v)) (w_log (published s w v)) i rd.
Proof.
  intros I Hpc [Hh Hk Hp Hb Hl Hn Hsub Hw]. cbn [published w_hist w_log].
  pose proof (knows_bound _ _ _ _ Hk) as Hcur. pose proof (i_log _ I) as Hlog. unfold widx in Hlog.
  split; try done.
  - by apply knows_app.
  - unfold rpc_ok in *. destruct (r_pc rd); [done|..].
    + destruct Hp. split; [by apply knows_app|done].
    + destruct Hp as (? & ?). split; [by apply knows_app|done].
    + destruct Hp as (? & ? & ?). split; [by apply knows_app|]. split; [done|by apply lookup_app_l_Some].
    + destruct Hp. split; [by apply knows_app|done].
    + destruct Hp. split; [by apply knows_app|done].
  - rewrite last_idx_snoc. lia.
  - intros j Hj. destruct (Hl j Hj). split; [done|by apply knows_app].
  - by rewrite take_app_le by lia.
  - by apply knows_app.
Qed.

Lemma inv_store s w v : inv s -> w_pc s = PStore w v -> inv (published s w v).
Proof.
  intros I Hpc. pose proof (i_pc _ I) as Hp. unfold ppc_ok in Hp. rewrite Hpc in Hp. subst w.
  set (s' := published s (widx s) v). set (C := tick 0 (w_view s)).
  assert (Ew : widx s' = widx s + 1) by apply last_idx_snoc.
  assert (Ewr : written s' = written s) by (unfold written; rewrite Hpc; exact Ew).
  assert (Est : stream s' = stream s) by (unfold stream; by rewrite Hpc).
  assert (Hle : clock_le (w_view s) C) by apply clock_le_tick. destruct (i_total _ I) as [Ht Hn].
  split.
  - apply (i_cap _ I).
  - apply (i_readers _ I).
  - apply hist_ok_store, (i_hist _ I).
  - split; [by eapply hist_ok_le|]. unfold tallied in *. rewrite Hpc in Hn. change (w_total s') with (w_total s).
    change (w_pc s') with PCount. cbn iota. lia.
  - rewrite Ew, <- (i_log _ I). unfold s', published; cbn [w_log]. rewrite length_app. simpl. lia.
  - done.
  - intros i rd Hr. destruct (i_reader _ I i rd Hr) as [Ho Hw]. split; [by apply reader_ok_publish|].
    by rewrite Ewr.
  - intros j c Hj Hwr Hc. rewrite Ewr, Est in *.
    destruct (i_cells _ I j c Hj Hwr Hc) as (Ha & Hb & Hd). split; [done|split].
    + intros m [Hm|[_ Hm]]%lookup_app_Some; [by apply Hb|].
      apply list_lookup_singleton_Some in Hm as [_ <-]. cbn [m_view]. specialize (Hle 0%nat). unfold C in Hle. lia.
    + specialize (Hle 0%nat). change (w_view s') with C. lia.
  - intros m Hm. apply knows_app, (i_notify _ I m Hm).
Qed.

(** The count. *)
Lemma newest_last t h C : hist_ok t h C -> newest_val h = last_idx h.
Proof.
  intros Hh. pose proof (h_nonempty _ _ _ Hh) as Hne. unfold newest_val, last_idx in *. rewrite last_lookup.
  destruct (lookup_lt_is_Some_2 h (pred (length h))) as [m Hm]; [lia|]. rewrite Hm. cbn.
  rewrite (h_val _ _ _ Hh _ _ Hm). lia.
Qed.

Lemma inv_count s : inv s -> w_pc s = PCount -> inv (count_push s).
Proof.
  intros I Hpc. set (s' := count_push s). destruct (i_total _ I) as [Ht Hn].
  assert (Hle : clock_le (w_view s) (w_view s')) by apply clock_le_tick.
  assert (Ew : written s' = written s /\ stream s' = stream s) by (unfold written, stream; by rewrite Hpc).
  destruct Ew as [Ew Es]. unfold tallied in Hn. rewrite Hpc in Hn.
  split; try apply I; try done.
  - eapply hist_ok_le; [exact Hle|apply I].
  - unfold s', count_push; cbn [w_total w_view]. rewrite (newest_last _ _ _ Ht).
    split; [by apply hist_ok_store|]. rewrite last_idx_snoc. unfold tallied; cbn [w_pc]. unfold widx in *; cbn [w_hist]. lia.
  - intros i rd Hr. rewrite Ew. by apply (i_reader _ I).
  - intros j c Hj Hw Hc. rewrite Ew in *. rewrite Es. destruct (i_cells _ I j c Hj Hw Hc) as (Ha & Hb & Hd).
    split; [done|split; [done|]]. specialize (Hle 0%nat). lia.
Qed.

(** ** Every step *)

Lemma readable_acquire h t C D k m :
  hist_ok t h D -> readable t C h k m ->
  0 <= m_val m <= last_idx h /\ knows h t (clock_join C (m_view m)) (m_val m).
Proof.
  intros Hok [Hk _]. rewrite (h_val _ _ _ Hok _ _ Hk). pose proof (lookup_lt_Some _ _ _ Hk).
  unfold last_idx. split; [lia|]. split; [lia|]. exists m. rewrite Nat2Z.id. split; [done|].
  unfold clock_join. lia.
Qed.

Lemma with_reader_twice s i a b : with_reader (with_reader s i a) i b = with_reader s i b.
Proof. unfold with_reader; cbn. by rewrite list_insert_insert_eq. Qed.

Lemma load_ok s pc k m :
  inv s -> w_pc s = PIdle -> readable 0 (w_view s) (w_hist s) k m ->
  (exists v, pc = PScan (m_val m) v 0 u64_max) \/ pc = PLag (m_val m) 0 u64_max ->
  inv (with_producer s pc (w_view s)).
Proof.
  intros I Hpc Hm E. apply inv_producer; rewrite ?Hpc; auto with shm.
  - by destruct E as [[v ->]| ->].
  - assert (Hs : m_val m = widx s /\ 0 <= u64_max /\ scanned s 0 u64_max).
    { split; [exact (readable_own _ _ _ _ _ (i_hist _ I) Hm)|split; [by unfold u64_max|]].
      intros i rd Hi. lia. }
    by destruct E as [[v ->]| ->].
Qed.

Lemma scan_ok s pc pc' w i lo rd k m :
  inv s -> w_pc s = pc -> w_readers s !! i = Some rd ->
  readable (S i) (w_view s) (r_hist rd) k m ->
  (exists v, pc = PScan w v i lo /\ pc' = PScan w v (S i) (Z.min lo (m_val m))) \/
    pc = PLag w i lo /\ pc' = PLag w (S i) (Z.min lo (m_val m)) ->
  inv (with_producer s pc' (clock_join (w_view s) (m_view m))).
Proof.
  intros I Hpc Hr Hm E.
  assert (Hp : w = widx s /\ 0 <= lo /\ scanned s i lo).
  { pose proof (i_pc _ I) as Hp. unfold ppc_ok in Hp. rewrite Hpc in Hp.
    by destruct E as [(v & -> & _)|[-> _]]. }
  destruct Hp as (-> & Hlo & Hs).
  apply inv_producer; [done|rewrite Hpc; by destruct E as [(v & -> & _)|[-> _]]|
    by destruct E as [(v & _ & ->)|[_ ->]]|auto with shm|].
  assert (Hsc : widx s = widx s /\ 0 <= lo `min` m_val m /\
    scanned (with_producer s pc' (clock_join (w_view s) (m_view m))) (S i) (lo `min` m_val m));
    [|by destruct E as [(v & _ & ->)|[_ ->]]].
  destruct (i_reader _ I i rd Hr) as [Hro _].
  destruct (readable_acquire _ _ _ _ _ _ (ro_hist _ _ _ _ Hro) Hm) as [Hv Hk].
  split; [done|split; [lia|]].
  intros i' rd' Hi' Hr'. change (w_readers s !! i' = Some rd') in Hr'.
  destruct (decide (i' = i)) as [->|Hne].
  - simplify_eq. exists (m_val m). split; [lia|done].
  - destruct (Hs i' rd' ltac:(lia) Hr') as (z & Hz & Hkz). exists z. split; [lia|].
    eapply knows_le; [apply clock_le_join_l|exact Hkz].
Qed.

Lemma room_ok s w v lo :
  inv s -> w_pc s = PScan w v (length (w_readers s)) lo -> w - lo < cap s ->
  inv (with_producer s (PWrite w v) (w_view s)).
Proof.
  intros I Hpc Hlt. pose proof (i_pc _ I) as Hp. unfold ppc_ok in Hp. rewrite Hpc in Hp.
  destruct Hp as (-> & Hlo & Hs). apply inv_producer; rewrite ?Hpc; auto with shm.
  split; [done|]. intros i rd Hi Hr. destruct (Hs i rd Hi Hr) as (z & Hz & Hk).
  exists z. change (cap (with_producer _ _ _)) with (cap s). split; [lia|done].
Qed.

(** A reader's acquire load of [write_idx]. *)
Lemma acquire_widx s i rd k m :
  inv s -> w_readers s !! i = Some rd -> readable 0 (r_view rd) (w_hist s) k m ->
  knows (w_hist s) 0 (clock_join (r_view rd) (m_view m)) (m_val m) /\ cursor rd <= m_val m /\
  r_woken rd <= m_val m.
Proof.
  intros I Hr Hm. destruct (i_reader _ I i rd Hr) as [Ho _].
  destruct (readable_knows _ _ _ _ _ _ _ (i_hist _ I) Hm (ro_knows _ _ _ _ Ho)) as (H1 & _ & H2).
  by destruct (readable_knows _ _ _ _ _ _ _ (i_hist _ I) Hm (ro_woken _ _ _ _ Ho)) as (H3 & _ & _).
Qed.

(** A reader's load of its own cursor. *)
Lemma own_cursor s i rd k m :
  inv s -> w_readers s !! i = Some rd -> readable (S i) (r_view rd) (r_hist rd) k m ->
  m_val m = cursor rd.
Proof.
  intros I Hr Hm. destruct (i_reader _ I i rd Hr) as [Ho _]. exact (readable_own _ _ _ _ _ (ro_hist _ _ _ _ Ho) Hm).
Qed.

Lemma pop_load_ok s i rd k m pc :
  inv s -> w_readers s !! i = Some rd -> readable 0 (r_view rd) (w_hist s) k m ->
  pc = RGotW (m_val m) \/ pc = LGotW (m_val m) \/ pc = NGotW (m_val m) ->
  inv (with_reader s i (at_pc rd pc (clock_join (r_view rd) (m_view m)))).
Proof.
  intros I Hr Hm Hpc. destruct (acquire_widx _ _ _ _ _ I Hr Hm) as [Hk Hle].
  apply inv_at_pc; auto with shm; by destruct Hpc as [->|[->| ->]].
Qed.

Lemma pop_cursor_ok s i rd w k m :
  inv s -> w_readers s !! i = Some rd -> r_pc rd = RGotW w ->
  readable (S i) (r_view rd) (r_hist rd) k m ->
  inv (with_reader s i (at_pc rd (RGot w (m_val m)) (clock_join (r_view rd) (m_view m)))).
Proof.
  intros I Hr Hpc Hm. destruct (i_reader _ I i rd Hr) as [Ho _].
  pose proof (ro_pc _ _ _ _ Ho) as Hp. unfold rpc_ok in Hp. rewrite Hpc in Hp. destruct Hp as [Hk Hle].
  rewrite (own_cursor _ _ _ _ _ I Hr Hm). apply inv_at_pc; auto with shm.
  unfold rpc_ok; cbn [at_pc r_pc]. split; [eapply knows_le; [apply clock_le_join_l|done]|done].
Qed.

Lemma pop_bump_ok s i rd r v :
  inv s -> w_readers s !! i = Some rd -> r_pc rd = RBump r v ->
  inv (with_reader s i (popped_at rd i r v)).
Proof.
  intros I Hr Hpc. destruct (i_reader _ I i rd Hr) as [Ho _].
  pose proof (ro_pc _ _ _ _ Ho) as Hp. unfold rpc_ok in Hp. rewrite Hpc in Hp.
  destruct Hp as (Hk & -> & Hv). pose proof (cursor_bound _ _ _ I Hr).
  assert (Et : take (Z.to_nat (cursor rd + 1)) (w_log s) = take (Z.to_nat (cursor rd)) (w_log s) ++ [v]).
  { replace (Z.to_nat (cursor rd + 1)) with (S (Z.to_nat (cursor rd))) by lia. by apply take_S_r. }
  pose proof (ro_count _ _ _ _ Ho). apply inv_bump; [done|done|done|done|done| |].
  - rewrite length_app. simpl. lia.
  - rewrite Et. apply sublist_app; [apply (ro_sublist _ _ _ _ Ho)|done].
Qed.

Lemma claim_ok s i rd w k m :
  inv s -> w_readers s !! i = Some rd -> r_pc rd = LGotW w ->
  readable (S i) (r_view rd) (r_hist rd) k m -> Z.max (r_base rd) (m_val m) < w ->
  let idx := Z.max (r_base rd) (m_val m) in
  inv (with_reader s i (with_loans (at_pc rd RIdle (clock_join (r_view rd) (m_view m)))
                          (idx + 1) (idx :: r_loans rd))).
Proof.
  intros I Hr Hpc Hm Hlt idx. destruct (i_reader _ I i rd Hr) as [Ho _].
  pose proof (ro_pc _ _ _ _ Ho) as Hp. unfold rpc_ok in Hp. rewrite Hpc in Hp. destruct Hp as [Hk Hle].
  pose proof (own_cursor _ _ _ _ _ I Hr Hm) as Ec. pose proof (knows_bound _ _ _ _ Hk) as Hw.
  pose proof (ro_base _ _ _ _ Ho) as Hb. pose proof (cursor_bound _ _ _ I Hr) as Hcur.
  assert (Hki : knows (w_hist s) 0 (clock_join (r_view rd) (m_view m)) (idx + 1)).
  { eapply knows_le; [apply clock_le_join_l|]. eapply knows_earlier; [apply I|exact Hk|lia]. }
  apply inv_loans; auto with shm; [unfold widx; lia|].
  intros j [->|Hj]%elem_of_cons; [split; [lia|done]|].
  destruct (ro_loans _ _ _ _ Ho j Hj) as [H1 H2]. split; [done|eapply knows_le; [apply clock_le_join_l|done]].
Qed.

(** The loans left when [j] is taken out. *)
Lemma rest_loans s i rd j rest :
  inv s -> w_readers s !! i = Some rd -> r_loans rd ≡ₚ j :: rest ->
  (forall j', j' ∈ rest -> j' ∈ r_loans rd) /\ 0 <= j /\ knows (w_hist s) 0 (r_view rd) (j + 1).
Proof.
  intros I Hr Hp. destruct (i_reader _ I i rd Hr) as [Ho _]. split.
  - intros j' Hj'. rewrite Hp. by right.
  - apply (ro_loans _ _ _ _ Ho). rewrite Hp. by left.
Qed.

Lemma take_prefix (z : Z) (l : list Z) :
  take (Z.to_nat z) l `sublist_of` take (Z.to_nat (z + 1)) l.
Proof.
  replace (take (Z.to_nat z) l) with (take (Z.to_nat z) (take (Z.to_nat (z + 1)) l))
    by (rewrite take_take; f_equal; lia). apply sublist_take.
Qed.

Lemma commit_ok s i rd j rest k m :
  inv s -> w_readers s !! i = Some rd -> r_loans rd ≡ₚ j :: rest -> r_pc rd = RIdle ->
  readable (S i) (r_view rd) (r_hist rd) k m -> m_val m = j ->
  inv (with_reader s i (taken_at (at_pc rd RIdle (clock_join (r_view rd) (m_view m))) i j rest)).
Proof.
  intros I Hr Hp Hpc Hm <-. set (rd1 := at_pc rd RIdle (clock_join (r_view rd) (m_view m))).
  destruct (rest_loans s i rd _ rest I Hr Hp) as (Hrest & Hj & Hk).
  assert (Ec : m_val m = cursor rd) by by eapply own_cursor.
  destruct (i_reader _ I i rd Hr) as [Ho _]. pose proof (ro_count _ _ _ _ Ho).
  assert (I1 : inv (with_reader s i rd1)) by (apply inv_at_pc; auto with shm; done).
  assert (Hr1 : w_readers (with_reader s i rd1) !! i = Some rd1)
    by (apply list_lookup_insert_eq; by eapply lookup_lt_Some).
  rewrite <- (with_reader_twice s i rd1). apply inv_bump; [done|done|done|..].
  - eapply knows_le; [|exact Hk]. apply clock_le_join_l.
  - exact Hrest.
  - change (r_popped rd1) with (r_popped rd). change (r_taken rd1) with (r_taken rd). lia.
  - rewrite Ec. etransitivity; [apply (ro_sublist _ _ _ _ Ho)|apply take_prefix].
Qed.

(** A loan released with the pipeline head at [b]. *)
Lemma release_ok s i rd j rest b C :
  inv s -> w_readers s !! i = Some rd -> r_loans rd ≡ₚ j :: rest -> clock_le (r_view rd) C ->
  b = r_base rd \/ b = Z.min (r_base rd) j ->
  inv (with_reader s i (with_loans (at_pc rd RIdle C) b rest)).
Proof.
  intros I Hr Hp Hle Hb. destruct (rest_loans s i rd j rest I Hr Hp) as (Hrest & Hj & Hk).
  destruct (i_reader _ I i rd Hr) as [Ho _]. pose proof (ro_base _ _ _ _ Ho) as Hbase.
  apply inv_loans; auto.
  - unfold widx in *. lia.
  - intros j' Hj'. destruct (ro_loans _ _ _ _ Ho j' (Hrest j' Hj')). split; [done|by eapply knows_le].
Qed.

(** A slot a reader is about to read. *)
Lemma pop_slot s i rd w r :
  inv s -> w_readers s !! i = Some rd -> r_pc rd = RGot w r -> r <> w ->
  cursor rd <= r /\ knows (w_hist s) 0 (r_view rd) (r + 1) /\ r = cursor rd.
Proof.
  intros I Hr Hpc Hne. destruct (i_reader _ I i rd Hr) as [Ho _].
  pose proof (ro_pc _ _ _ _ Ho) as Hp. unfold rpc_ok in Hp. rewrite Hpc in Hp. destruct Hp as (Hk & -> & Hle).
  pose proof (cursor_bound _ _ _ I Hr). split; [lia|split; [|done]].
  eapply knows_earlier; [apply I|exact Hk|lia].
Qed.

(** A reader woken. *)
Lemma wake_ok s i rd k m :
  inv s -> w_readers s !! i = Some rd -> r_pc rd = RIdle -> readable 0 (r_view rd) (w_notify s) k m ->
  inv (with_reader s i (woken rd m)).
Proof.
  intros I Hr Hpc [Hm _]. pose proof (i_notify _ I m (list_elem_of_lookup_2 _ _ _ Hm)) as Hk.
  pose proof (clock_le_join_l (r_view rd) (m_view m)) as Hle.
  eapply reader_step_same; [done|done| |done].
  destruct (i_reader _ I i rd Hr) as [[Hh Hkn Hp Hb Hl Hn Hsub Hw] _].
  split; cbn [woken r_pc r_view r_hist r_base r_loans r_obs r_popped r_taken r_woken]; try done.
  - by eapply hist_ok_le.
  - by eapply knows_le.
  - intros j Hj. destruct (Hl j Hj). split; [done|by eapply knows_le].
  - destruct (Z.max_spec (r_woken rd) (m_val m)) as [[_ ->]|[_ ->]].
    + by apply (knows_le _ _ (m_view m)); [apply clock_le_join_r|].
    + by eapply knows_le.
Qed.

Lemma signal_ok s : inv s -> w_pc s = PIdle -> inv (signalled s).
Proof.
  intros I Hpc. apply inv_notify.
  - apply inv_producer; rewrite ?Hpc; auto with shm; done.
  - intros m [Hm|Hm]%elem_of_app; [by apply (i_notify _ I)|].
    apply list_elem_of_singleton in Hm as ->. cbn [m_view m_val].
    destruct (i_hist _ I) as [Hne _ _ _ Hown]. unfold last_idx in Hne. split; [lia|].
    destruct (lookup_lt_is_Some_2 (w_hist s) (Z.to_nat (Z.of_nat (length (w_hist s)) - 1))) as [m Hm]; [lia|].
    exists m. split; [done|]. specialize (Hown _ _ Hm). pose proof (clock_le_tick 0 (w_view s) 0%nat). lia.
Qed.

Lemma lstep_inv s e s' : inv s -> lstep s e s' -> inv s'.
Proof.
  intros I Hstep. destruct Hstep.
  - apply load_ok with (k := k) (m := m); eauto.
  - apply scan_ok with (pc := PScan w v i lo) (w := w) (i := i) (lo := lo) (rd := rd) (k := k); eauto.
  - by apply inv_producer; rewrite ?H; auto with shm.
  - by eapply room_ok.
  - apply load_ok with (k := k) (m := m); eauto.
  - apply scan_ok with (pc := PLag w i lo) (w := w) (i := i) (lo := lo) (rd := rd) (k := k); eauto.
  - by apply inv_producer; rewrite ?H; auto with shm.
  - by apply inv_write.
  - by apply inv_store.
  - by apply inv_count.
  - by apply signal_ok.
  - by apply wake_ok with (k := k).
  - apply pop_load_ok with (k := k); [done..|by left].
  - by apply pop_cursor_ok with (k := k).
  - apply inv_at_pc; auto with shm; done.
  - destruct (pop_slot s i rd w r I H H0 H1) as (Hj & Hk & E).
    destruct (readable_slot s i rd r c I H Hj Hk H2) as (Hlog & _ & _).
    apply inv_read_slot; auto. split; [eapply knows_le; [apply clock_le_tick|done]|done].
  - by eapply pop_bump_ok.
  - apply pop_load_ok with (k := k); auto.
  - apply inv_at_pc; auto with shm; done.
  - by apply claim_ok with (w := w) (k := k).
  - apply pop_load_ok with (k := k); auto.
  - apply inv_at_pc; auto with shm; done.
  - by apply inv_read_slot.
  - by apply commit_ok with (k := k).
  - by apply commit_ok with (k := k).
  - apply inv_at_pc; auto with shm; done.
  - apply release_ok with (j := j); auto with shm.
  - apply (release_ok s i rd j rest _ (r_view rd)); auto with shm.
Qed.

Lemma step_inv s s' : inv s -> step s s' -> inv s'.
Proof. intros I [e He]. by eapply lstep_inv. Qed.

(** ** Reachable states *)

Lemma hist_ok_new t : hist_ok t [mkMsg 0 zero] zero.
Proof.
  assert (Hl : forall k m, [mkMsg 0 zero] !! k = Some m -> k = 0%nat /\ m = mkMsg 0 zero)
    by (intros k m [? ?]%list_lookup_singleton_Some; split; congruence).
  split; [done|..].
  - by intros k m [-> ->]%Hl.
  - by intros k k' m m' [-> ->]%Hl [-> ->]%Hl.
  - intros k k' m m' [-> ->]%Hl [-> ->]%Hl. lia.
  - by intros k m [-> ->]%Hl.
Qed.

Lemma knows_new t : knows [mkMsg 0 zero] t zero 0.
Proof. split; [done|]. by exists (mkMsg 0 zero). Qed.
#[export] Hint Resolve hist_ok_new knows_new : shm.

Lemma inv_new (capacity n : nat) : (0 < capacity)%nat -> (0 < n)%nat -> inv (with_readers capacity n).
Proof.
  intros Hc Hn. unfold with_readers.
  split; cbn [w_readers w_hist w_total w_view w_log w_pc w_cells]; auto with shm.
  - unfold cap; cbn. rewrite length_replicate. lia.
  - by rewrite length_replicate.
  - done.
  - intros i rd [-> _]%lookup_replicate_1. split; [|unfold written, cap, cursor, widx, last_idx; cbn; rewrite length_replicate; lia].
    split; cbn; auto with shm; [done|by intros j ?%not_elem_of_nil].
  - intros j c Hj. unfold written, widx, last_idx in Hj; cbn in Hj. lia.
  - by intros m ->%list_elem_of_singleton; apply knows_new.
Qed.

Lemma calm_new (capacity n : nat) : calm (with_readers capacity n).
Proof.
  split; [done|..].
  - intros k c i rd [-> _]%lookup_replicate_1 _. by left.
  - by intros i rd j v [-> _]%lookup_replicate_1 ?%not_elem_of_nil.
Qed.

Lemma reachable_inv (capacity n : nat) s :
  (0 < capacity)%nat -> (0 < n)%nat -> rtc step (with_readers capacity n) s -> inv s.
Proof.
  intros Hc Hn Hs. remember (with_readers capacity n) as s0 eqn:E0.
  assert (I0 : inv s0) by (subst; by apply inv_new). clear E0.
  induction Hs; [done|]. eauto using step_inv.
Qed.

(** The capacity and the number of readers never change. *)
Lemma step_shape s s' : step s s' -> cap s' = cap s /\ length (w_readers s') = length (w_readers s).
Proof.
  intros [e He]. destruct He; unfold cap; cbn [with_producer with_reader with_cell with_notify write_slot read_slot checked
    published count_push signalled w_cells w_readers]; rewrite ?length_insert; done.
Qed.

Lemma reachable_shape (capacity n : nat) s :
  rtc step (with_readers capacity n) s -> cap s = Z.of_nat capacity /\ length (w_readers s) = n.
Proof.
  intros Hs. remember (with_readers capacity n) as s0 eqn:E0.
  assert (I0 : cap s0 = Z.of_nat capacity /\ length (w_readers s0) = n)
    by (subst; split; [unfold cap|]; cbn; by rewrite length_replicate). clear E0.
  induction Hs; [done|]. destruct (step_shape _ _ H) as [E1 E2]. apply IHHs. by rewrite E1, E2.
Qed.

(** ** Careful steps do not race *)

Lemma calm_write s w v c :
  inv s -> calm s -> w_pc s = PWrite w v -> w_cells s !! slot s w = Some c -> calm (write_slot s w v c).
Proof.
  intros I Q Hpc Hc. apply calm_checked; [|by eapply slot_reads_ordered].
  by apply (calm_cell (with_producer s _ _) (slot s w) c); [apply calm_producer| |].
Qed.

Lemma calm_published s w v : calm s -> calm (published s w v).
Proof.
  intros Q. split; [apply Q|..].
  - intros k c i rd Hc Hr. destruct (c_reads _ Q k c i rd Hc Hr) as [|(j & Hj & E & H1 & H2)]; [by left|right].
    exists j. change (widx (published s w v)) with (last_idx (w_hist s ++ [mkMsg (w + 1) (tick 0 (w_view s))])).
    rewrite last_idx_snoc. change (last_idx (w_hist s)) with (widx s). split; [lia|done].
  - intros i rd j x Hr Hj. destruct (c_obs _ Q i rd j x Hr Hj). split; [done|by apply lookup_app_l_Some].
Qed.

Lemma lstep_calm s e s' : inv s -> calm s -> pinned s e -> lstep s e s' -> calm s'.
Proof.
  intros I Q Hpin Hstep. destruct Hstep;
    try (by apply calm_producer); try (eapply calm_reader_same; [done|done| |done|done]; apply clock_le_join_l);
    try (eapply calm_reader_same; [done|done|apply clock_le_refl|done|done]).
  - by apply calm_write.
  - by apply calm_published.
  - destruct Q. by split.
  - destruct Q. by split.
  - destruct (pop_slot s i rd w r I H H0 H1) as (Hj & Hk & E). by apply calm_read_slot.
  - by apply calm_bump.
  - destruct (i_reader _ I i rd H) as [Ho _]. destruct (ro_loans _ _ _ _ Ho j H1) as [_ Hk].
    apply calm_read_slot; auto.
  - rewrite <- (with_reader_twice s i (at_pc rd RIdle (clock_join (r_view rd) (m_view m)))).
    apply calm_bump; [|by eapply list_lookup_insert_eq, lookup_lt_Some].
    by eapply calm_reader_same; [..|apply clock_le_join_l| |].
  - rewrite <- (with_reader_twice s i (at_pc rd RIdle (clock_join (r_view rd) (m_view m)))).
    apply calm_bump; [|by eapply list_lookup_insert_eq, lookup_lt_Some].
    by eapply calm_reader_same; [..|apply clock_le_join_l| |].
Qed.

Lemma careful_steps s s' : rtc careful s s' -> rtc step s s'.
Proof. intros Hs. induction Hs as [|? ? ? (e & He & _)]; [done|]. eapply rtc_l; [by exists e|done]. Qed.

Lemma reachable_calm (capacity n : nat) s :
  (0 < capacity)%nat -> (0 < n)%nat -> rtc careful (with_readers capacity n) s -> inv s /\ calm s.
Proof.
  intros Hc Hn Hs. remember (with_readers capacity n) as s0 eqn:E0.
  assert (I0 : inv s0 /\ calm s0) by (subst; split; [by apply inv_new|apply calm_new]). clear E0.
  induction Hs as [|s1 s2 s3 (e & He & Hp) _ IH]; [done|]. destruct I0 as [I Q]. apply IH.
  split; [by eapply lstep_inv|by eapply lstep_calm].
Qed.

(** ** Gated steps are careful *)

(** A reader that pops only with no loan open has its loans ahead of its
    cursor, and its pipeline ahead of them. *)
Record tidy (rd : reader) : Prop := mkTidy {
  t_gate : popping (r_pc rd) = true -> r_loans rd = [];
  t_loans j : j ∈ r_loans rd -> cursor rd <= j < r_base rd;
  t_nodup : NoDup (r_loans rd);
}.
Definition all_tidy (s : weak) : Prop := forall i rd, w_readers s !! i = Some rd -> tidy rd.

Lemma tidy_reader s i rd' : all_tidy s -> tidy rd' -> all_tidy (with_reader s i rd').
Proof. intros Ht Hr k rdk [[-> ->]|[_ Hk]]%reader_cases; [done|by apply (Ht k)]. Qed.

(** The loans left when [j] goes, the pipeline still past them. *)
Lemma tidy_rest rd rd' j rest :
  tidy rd -> r_loans rd ≡ₚ j :: rest -> r_loans rd' = rest -> popping (r_pc rd') = false ->
  (forall j', j' <> j -> cursor rd <= j' -> cursor rd' <= j') ->
  (r_base rd' = r_base rd \/ r_base rd' = Z.min (r_base rd) j /\ forall j', j' ∈ rest -> j' <= j) -> tidy rd'.
Proof.
  intros [Hg Hl Hn] Hp <- Hpc Hc Hb. rewrite Hp in Hn. inversion_clear Hn as [|? ? Hnin Hnd].
  assert (Hj : j < r_base rd) by (apply Hl; rewrite Hp; by left).
  split; [by rewrite Hpc| |done]. intros j' Hj'. assert (j' <> j) by (by intros ->).
  assert (cursor rd <= j' < r_base rd) as [H1 H2] by (apply Hl; rewrite Hp; by right).
  split; [by apply Hc|]. destruct Hb as [->|[-> Hnew]]; [done|]. specialize (Hnew j' Hj'). lia.
Qed.

Lemma tidy_taken rd i j rest C :
  tidy rd -> r_loans rd ≡ₚ j :: rest -> cursor rd = j -> tidy (taken_at (at_pc rd RIdle C) i j rest).
Proof.
  intros Ht Hp <-. eapply (tidy_rest rd); [done|done|done|done| |by left].
  intros j' Hne Hle. unfold cursor at 1; cbn [taken_at bumped at_pc r_hist]. rewrite last_idx_snoc.
  unfold cursor in *. lia.
Qed.

Lemma lstep_tidy s e s' : inv s -> all_tidy s -> gated s e -> lstep s e s' -> all_tidy s'.
Proof.
  intros I Ht Hg Hstep. destruct Hstep; try exact Ht;
    try (apply tidy_reader; [done|]; pose proof (Ht i rd H) as [Hgate Hl Hn]; split; cbn; try done; by rewrite H0 in Hgate).
  - apply tidy_reader; [done|]. destruct (Ht i rd H) as [Hgate Hl Hn]. split; cbn; [|done|done].
    intros _. by apply Hg.
  - apply tidy_reader; [done|]. destruct (Ht i rd H) as [Hgate Hl Hn]. rewrite H0 in Hgate.
    split; cbn; rewrite (Hgate eq_refl); [done|by intros j ?%not_elem_of_nil|constructor].
  - apply tidy_reader; [done|]. destruct (Ht i rd H) as [Hgate Hl Hn].
    pose proof (own_cursor _ _ _ _ _ I H H1) as Ec. split; [done|..].
    + intros j [->|Hj]%elem_of_cons; [cbn; unfold idx; change (cursor _) with (cursor rd); lia|].
      destruct (Hl j Hj). cbn. unfold idx. change (cursor _) with (cursor rd). lia.
    + apply NoDup_cons. split; [|done]. intros Hj. destruct (Hl _ Hj). unfold idx in *. lia.
  - apply tidy_reader; [done|]. rewrite (own_cursor _ _ _ _ _ I H H2) in H3. apply tidy_taken; [by apply (Ht i)|done|done].
  - apply tidy_reader; [done|]. rewrite (own_cursor _ _ _ _ _ I H H2) in H3. apply tidy_taken; [by apply (Ht i)|done|done].
  - apply tidy_reader; [done|]. eapply (tidy_rest rd); [by apply (Ht i)|eauto..].
  - apply tidy_reader; [done|]. eapply (tidy_rest rd); [by apply (Ht i)|eauto..]. right. split; [done|].
    intros j' Hj'. eapply Hg; [done|]. rewrite H1. by right.
Qed.

(** In a gated execution every open loan is ahead of its reader's cursor, so
    every read of one is pinned. *)
Lemma gated_tidy (capacity n : nat) s :
  (0 < capacity)%nat -> (0 < n)%nat -> rtc gated_step (with_readers capacity n) s ->
  rtc careful (with_readers capacity n) s /\ all_tidy s.
Proof.
  intros Hc Hn. revert s. refine (rtc_ind_r _ _ _ _).
  - split; [done|]. intros i rd [-> _]%lookup_replicate_1.
    split; [done|by intros j ?%not_elem_of_nil|constructor].
  - intros s1 s2 _ (e & He & Hg) [Hs Ht].
    destruct (reachable_calm _ _ _ Hc Hn Hs) as [I _]. split; [|by eapply lstep_tidy].
    eapply rtc_r; [exact Hs|]. exists e. split; [done|]. destruct He; try exact Logic.I.
    intros rd' Hr'. simplify_eq. by apply (Ht i rd H).
Qed.
