(* ===== verification/WeakExec.v ===== *)
(** WeakExec: the release/acquire machine as a function of a schedule.

    An [act] names the thread that moves and what is left open to it: the
    message a load returns, the call an idle thread makes.  [exec] performs it;
    every move it makes is a step of the relation, so a schedule that runs to
    the end is an execution. *)

From S2P Require Import Prelude.
From S2P Require Import Weak.
From stdpp Require Import relations.
Set Default Goal Selector "!".
Open Scope Z_scope.

Inductive act :=
  | APush (v : Z) (k : nat)
  | ALag (k : nat)
  | ASignal
  | AProd (k : nat)
  | ANotify (i k : nat)
  | APop (i k : nat)
  | AClaim (i k : nat)
  | ALen (i k : nat)
  | ANext (i k : nat)
  | ADeref (i : nat) (j : Z)
  | ACommit (i : nat) (j : Z) (k : nat)
  | ADrop (i : nat) (j : Z) (k : nat)
  | AAbort (i : nat) (j : Z).

(** A load of message [k], when the thread may read it. *)
Definition load (t : nat) (C : clock) (h : list msg) (k : nat) : option msg :=
  m ← h !! k;
  if forallb (fun m' => Nat.ltb (C t) (m_view m' t)) (drop (S k) h) then Some m else None.

(** The loans left when one of them goes. *)
Fixpoint take_out (j : Z) (l : list Z) : option (list Z) :=
  match l with
  | [] => None
  | x :: l => if x =? j then Some l else rest ← take_out j l; Some (x :: rest)
  end.

(** The producer inside a call. *)
Definition exec_producer (s : weak) (k : nat) : option (event * weak) :=
  match w_pc s with
  | PIdle => None
  | PScan w v i lo =>
      if Nat.eqb i (length (w_readers s)) then
        if w - lo <? cap s then Some (Silent, with_producer s (PWrite w v) (w_view s))
        else Some (PushRet false, with_producer s PIdle (w_view s))
      else
        rd ← w_readers s !! i;
        m ← load (S i) (w_view s) (r_hist rd) k;
        Some (Silent, with_producer s (PScan w v (S i) (Z.min lo (m_val m)))
                        (clock_join (w_view s) (m_view m)))
  | PLag w i lo =>
      if Nat.eqb i (length (w_readers s)) then
        Some (LagRet (wrap64 (w - lo)), with_producer s PIdle (w_view s))
      else
        rd ← w_readers s !! i;
        m ← load (S i) (w_view s) (r_hist rd) k;
        Some (Silent, with_producer s (PLag w (S i) (Z.min lo (m_val m)))
                        (clock_join (w_view s) (m_view m)))
  | PWrite w v =>
      c ← w_cells s !! slot s w;
      Some (Silent, write_slot s w v c)
  | PStore w v => Some (PushRet true, published s w v)
  | PCount => Some (Silent, count_push s)
  end.

(** A reader inside a call. *)
Definition exec_reader (s : weak) (i : nat) (rd : reader) (k : nat) : option (event * weak) :=
  match r_pc rd with
  | RIdle => None
  | RGotW w =>
      m ← load (S i) (r_view rd) (r_hist rd) k;
      Some (Silent, with_reader s i (at_pc rd (RGot w (m_val m)) (clock_join (r_view rd) (m_view m))))
  | RGot w r =>
      if r =? w then Some (PopRet i None, with_reader s i (at_pc rd RIdle (r_view rd)))
      else
        c ← w_cells s !! slot s r;
        Some (Silent, read_slot s i rd r c (RBump r (c_val c)))
  | RBump r v =>
      Some (PopRet i (Some v), with_reader s i (popped_at rd i r v))
  | LGotW w =>
      m ← load (S i) (r_view rd) (r_hist rd) k;
      let rd' := at_pc rd RIdle (clock_join (r_view rd) (m_view m)) in
      let idx := Z.max (r_base rd) (m_val m) in
      if idx <? w then
        Some (ClaimRet i (Some idx), with_reader s i (with_loans rd' (idx + 1) (idx :: r_loans rd)))
      else Some (ClaimRet i None, with_reader s i rd')
  | NGotW w =>
      m ← load (S i) (r_view rd) (r_hist rd) k;
      Some (LenRet i (wrap64 (w - m_val m)),
            with_reader s i (at_pc rd RIdle (clock_join (r_view rd) (m_view m))))
  end.

Definition idle (rd : reader) : option unit :=
  match r_pc rd with RIdle => Some tt | _ => None end.
Definition producer_idle (s : weak) : option unit :=
  match w_pc s with PIdle => Some tt | _ => None end.

(** A reader's load of [write_idx], at the start of a call. *)
Definition exec_load (s : weak) (i k : nat) (pc : Z -> rpc) (e : event) : option (event * weak) :=
  rd ← w_readers s !! i;
  _ ← idle rd;
  m ← load 0 (r_view rd) (w_hist s) k;
  Some (e, with_reader s i (at_pc rd (pc (m_val m)) (clock_join (r_view rd) (m_view m)))).

Definition exec (s : weak) (a : act) : option (event * weak) :=
  match a with
  | APush v k =>
      _ ← producer_idle s; m ← load 0 (w_view s) (w_hist s) k;
      Some (PushCall v, with_producer s (PScan (m_val m) v 0 u64_max) (w_view s))
  | ALag k =>
      _ ← producer_idle s; m ← load 0 (w_view s) (w_hist s) k;
      Some (LagCall, with_producer s (PLag (m_val m) 0 u64_max) (w_view s))
  | ASignal => _ ← producer_idle s; Some (Signal, signalled s)
  | AProd k => exec_producer s k
  | ANotify i k =>
      rd ← w_readers s !! i; _ ← idle rd; m ← load 0 (r_view rd) (w_notify s) k;
      Some (NotifyLoad i k, with_reader s i (woken rd m))
  | APop i k => exec_load s i k RGotW (PopCall i)
  | AClaim i k => exec_load s i k LGotW (ClaimCall i)
  | ALen i k => exec_load s i k NGotW (LenCall i)
  | ANext i k => rd ← w_readers s !! i; exec_reader s i rd k
  | ADeref i j =>
      rd ← w_readers s !! i; _ ← idle rd; _ ← take_out j (r_loans rd);
      c ← w_cells s !! slot s j;
      Some (Value i j (c_val c), read_slot s i rd j c RIdle)
  | ACommit i j k =>
      rd ← w_readers s !! i; _ ← idle rd; rest ← take_out j (r_loans rd);
      m ← load (S i) (r_view rd) (r_hist rd) k;
      let rd' := at_pc rd RIdle (clock_join (r_view rd) (m_view m)) in
      if m_val m =? j then
        Some (CommitRet i j true, with_reader s i (taken_at rd' i j rest))
      else Some (CommitRet i j false, with_reader s i rd')
  | ADrop i j k =>
      rd ← w_readers s !! i; _ ← idle rd; rest ← take_out j (r_loans rd);
      m ← load (S i) (r_view rd) (r_hist rd) k;
      let rd' := at_pc rd RIdle (clock_join (r_view rd) (m_view m)) in
      if m_val m =? j then Some (Dropped i j, with_reader s i (taken_at rd' i j rest))
      else Some (Dropped i j, with_reader s i (with_loans rd' (r_base rd) rest))
  | AAbort i j =>
      rd ← w_readers s !! i; _ ← idle rd; rest ← take_out j (r_loans rd);
      Some (Aborted i j, with_reader s i (with_loans rd (Z.min (r_base rd) j) rest))
  end.

(** ** Soundness *)

Lemma take_out_perm j l rest : take_out j l = Some rest -> l ≡ₚ j :: rest.
Proof.
  revert rest. induction l as [|x l IH]; intros rest; cbn [take_out]; [done|].
  case (Z.eqb_spec x j) as [->|_]; [by intros [= ->]|].
  intros (r & Hr & [= <-])%bind_Some. rewrite (IH r Hr). apply Permutation_swap.
Qed.

Lemma load_readable t C h k m : load t C h k = Some m -> readable t C h k m.
Proof.
  unfold load. intros (m' & Hm & E)%bind_Some. destruct (forallb _ _) eqn:Hf; simplify_eq.
  split; [done|]. intros k' m' Hk Hm'. apply Nat.ltb_lt. rewrite forallb_forall in Hf.
  apply (Hf m'). apply list_elem_of_In, list_elem_of_lookup. exists (k' - S k)%nat.
  rewrite lookup_drop. by replace (S k + (k' - S k))%nat with k' by lia.
Qed.

Ltac exec_open :=
  repeat match goal with
  | H : (_ ≫= _) = Some _ |- _ => apply bind_Some in H as (? & ? & H)
  | H : load _ _ _ _ = Some _ |- _ => apply load_readable in H
  | H : take_out _ _ = Some _ |- _ => apply take_out_perm in H
  | H : idle ?rd = Some _ |- _ => unfold idle in H; destruct (r_pc rd) eqn:?; try discriminate; clear H
  | H : producer_idle ?s = Some _ |- _ =>
      unfold producer_idle in H; destruct (w_pc s) eqn:?; try discriminate; clear H
  | H : Some _ = Some _ |- _ => injection H as <- <-
  | H : None = Some _ |- _ => discriminate
  end.

Lemma exec_producer_sound s k e s' : exec_producer s k = Some (e, s') -> lstep s e s'.
Proof.
  unfold exec_producer. destruct (w_pc s) eqn:Hpc; intros H; exec_open.
  - destruct (Nat.eqb_spec i (length (w_readers s))) as [->|_].
    + destruct (Z.ltb_spec (w - min_read) (cap s)); exec_open; by econstructor.
    + exec_open. by eapply p_scan.
  - destruct (Nat.eqb_spec i (length (w_readers s))) as [->|_]; exec_open; by econstructor.
  - by apply p_write.
  - by apply p_store.
  - by apply p_count.
Qed.

Lemma exec_reader_sound s i rd k e s' :
  w_readers s !! i = Some rd -> exec_reader s i rd k = Some (e, s') -> lstep s e s'.
Proof.
  unfold exec_reader. intros Hr. destruct (r_pc rd) eqn:Hpc; intros H; exec_open.
  - by eapply r_cursor.
  - destruct (Z.eqb_spec r w) as [->|Hne]; exec_open; [by eapply r_empty|].
    by eapply r_read.
  - by apply r_bump.
  - case_match eqn:Hlt; exec_open.
    + apply Z.ltb_lt in Hlt. by eapply l_claim.
    + apply Z.ltb_ge in Hlt. by eapply l_none.
  - by eapply n_len.
Qed.

Lemma exec_sound s a e s' : exec s a = Some (e, s') -> lstep s e s'.
Proof.
  destruct a as [v k|k| |k|i k|i k|i k|i k|i k|i j|i j k|i j k|i j]; cbn [exec]; intros H;
    try (by apply exec_producer_sound in H); unfold exec_load in *; exec_open.
  - by eapply p_load.
  - by eapply p_lag_load.
  - by apply p_signal.
  - by eapply r_wake.
  - by eapply r_load.
  - by eapply l_load.
  - by eapply n_load.
  - by eapply exec_reader_sound.
  - assert (Hin : j ∈ r_loans x) by (match goal with H : r_loans x ≡ₚ _ |- _ => rewrite H end; by left).
    by apply l_deref.
  - assert (Hin : j ∈ r_loans x) by (match goal with H : r_loans x ≡ₚ _ |- _ => rewrite H end; by left).
    case_match eqn:Hj; exec_open.
    + apply Z.eqb_eq in Hj. by eapply l_commit.
    + apply Z.eqb_neq in Hj. by eapply l_commit_refused.
  - case_match eqn:Hj; exec_open.
    + apply Z.eqb_eq in Hj. by eapply l_drop_commit.
    + apply Z.eqb_neq in Hj. by eapply l_drop.
  - by eapply l_abort.
Qed.

(** ** Schedules *)

Fixpoint schedule (acts : list act) (s : weak) : option weak :=
  match acts with
  | [] => Some s
  | a :: acts => '(_, s') ← exec s a; schedule acts s'
  end.

Lemma schedule_reaches acts s s' : schedule acts s = Some s' -> rtc step s s'.
Proof.
  revert s. induction acts as [|a acts IH]; simpl; intros s H; [by simplify_eq|].
  apply bind_Some in H as ([e s1] & He & H). eapply rtc_l; [|by apply IH].
  exists e. by eapply exec_sound.
Qed.

(** A schedule whose events all satisfy [D], a discipline as a test. *)
Fixpoint obeys (D : weak -> event -> bool) (acts : list act) (s : weak) : bool :=
  match acts with
  | [] => true
  | a :: acts => match exec s a with Some (e, s') => D s e && obeys D acts s' | None => false end
  end.

Definition pinned_b (s : weak) (e : event) : bool :=
  match e with
  | Value i j _ => if w_readers s !! i is Some rd then cursor rd <=? j else true
  | _ => true
  end.
Definition gated_b (s : weak) (e : event) : bool :=
  match e with
  | PopCall i => if w_readers s !! i is Some rd then bool_decide (r_loans rd = []) else true
  | Aborted i j => if w_readers s !! i is Some rd then forallb (fun j' => j' <=? j) (r_loans rd) else true
  | _ => true
  end.

Lemma pinned_b_sound s e : pinned_b s e = true -> pinned s e.
Proof. destruct e; try done. cbn. intros H rd Hr. rewrite Hr in H. by apply Z.leb_le. Qed.

Lemma gated_b_sound s e : gated_b s e = true -> gated s e.
Proof.
  destruct e; try done; cbn.
  - intros H rd Hr. rewrite Hr in H. by apply bool_decide_eq_true in H.
  - intros H rd j' Hr Hj. rewrite Hr in H. rewrite forallb_forall in H.
    apply Z.leb_le, H. by apply list_elem_of_In.
Qed.

Lemma obeys_reaches D (P : weak -> event -> Prop) acts s s' :
  (forall s e, D s e = true -> P s e) -> obeys D acts s = true -> schedule acts s = Some s' ->
  rtc (fun s s' => exists e, lstep s e s' /\ P s e) s s'.
Proof.
  intros HD. revert s. induction acts as [|a acts IH]; simpl; intros s H E; [by simplify_eq|].
  destruct (exec s a) as [[e s1]|] eqn:He; [|done]. apply andb_prop in H as [Hd H].
  eapply rtc_l; [|by apply IH]. exists e. split; [by eapply exec_sound|by apply HD].
Qed.

(** A push that loads message [w] of [write_idx] and messages [ks] of the
    cursors; a pop that loads message [k] of [write_idx], its cursor at [c]. *)
Definition push_acts (v : Z) (w : nat) (ks : list nat) : list act :=
  APush v w :: (AProd <$> ks) ++ [AProd 0; AProd 0; AProd 0; AProd 0].
Definition pop_acts (i k c : nat) : list act := [APop i k; ANext i c; ANext i 0; ANext i 0].
