(* ===== verification/WeakProps.v ===== *)
(** WeakProps: under release/acquire memory and in every interleaving the ring
    never laps a reader and makes a message visible to whoever its signal
    wakes; if no loan is read that its reader's cursor has passed, it is free of
    data races and every slot read returns the record of the stream; if pops
    wait for the loans and aborts are of the newest one, open loans stay
    pinned. *)

From S2P Require Import Prelude.
From S2P Require Import Weak.
From S2P Require Import WeakInv.
From S2P Require Import WeakSteps.
From S2P Require Import WeakExec.
From stdpp Require Import relations.
Set Default Goal Selector "!".
Open Scope Z_scope.

(** ** Invariant of reachable states *)

Section reachable.
  Context {capacity num_readers : nat} {s : weak}.
  Context (Hcap : (0 < capacity)%nat) (Hreaders : (0 < num_readers)%nat).
  Context (Hreach : rtc step (with_readers capacity num_readers) s).

Lemma reach_inv : inv s.
Proof. by apply (reachable_inv capacity num_readers). Qed.

Lemma reach_reader i rd :
  w_readers s !! i = Some rd ->
  reader_ok (w_hist s) (w_log s) i rd /\ written s - Z.of_nat capacity <= cursor rd <= widx s.
Proof.
  intros Hr. destruct (i_reader _ reach_inv i rd Hr) as [Ho Hw].
  pose proof (cursor_bound _ _ _ reach_inv Hr) as Hc.
  destruct (reachable_shape _ _ _ Hreach) as [Ecap _]. rewrite Ecap in Hw. split; [done|lia].
Qed.

(** A reader that never moves bounds the stream. *)
Lemma unread_cursor_bounds_stream i rd :
  w_readers s !! i = Some rd -> cursor rd = 0 -> (length (w_log s) <= capacity)%nat.
Proof.
  intros Hr H0. destruct (reach_reader i rd Hr) as [_ Hw]. pose proof (i_log _ reach_inv).
  unfold written in Hw. destruct (w_pc s); lia.
Qed.
End reachable.

Lemma sublist_full (l k : list Z) : l `sublist_of` k -> (length k <= length l)%nat -> l = k.
Proof.
  induction 1 as [|x l k Hs IH|x l k Hs IH]; simpl; intros Hl; [done|f_equal; apply IH; lia|].
  apply sublist_length in Hs. lia.
Qed.

(** ** Theorems *)

(** C5: No slot access is a data race, in every execution in which no reader
    dereferences a loan its own cursor has already passed ([careful]): the
    producer's slot writes and the readers' slot reads (pops, with or without
    loans open, and loan dereferences) are ordered by the release stores and
    acquire loads of the indices. *)
Theorem no_data_race (capacity num_readers : nat) s :
  (0 < capacity)%nat -> (0 < num_readers)%nat -> rtc careful (with_readers capacity num_readers) s ->
  w_race s = false.
Proof. intros Hc Hn Hs. apply c_race. by apply (reachable_calm capacity num_readers). Qed.

(** C14: In every execution in which no reader dereferences a loan its own cursor
    has passed, every slot read (pop or dereference) returns the record the
    producer published at the index read; what a reader's pops return is a
    subsequence of the stream before its cursor, short of it by exactly the
    records its commits and drops consumed; so a reader that only pops has
    received precisely the records before its cursor, in order. *)
Theorem reads_deliver_the_stream (capacity num_readers : nat) s i rd :
  (0 < capacity)%nat -> (0 < num_readers)%nat -> rtc careful (with_readers capacity num_readers) s ->
  w_readers s !! i = Some rd ->
  (forall j v, (j, v) ∈ r_obs rd -> w_log s !! Z.to_nat j = Some v) /\
  r_popped rd `sublist_of` take (Z.to_nat (cursor rd)) (w_log s) /\
  Z.of_nat (length (r_popped rd) + r_taken rd) = cursor rd /\
  (r_taken rd = O -> r_popped rd = take (Z.to_nat (cursor rd)) (w_log s)).
Proof.
  intros Hc Hn Hs Hr. destruct (reachable_calm _ _ _ Hc Hn Hs) as [I Q].
  destruct (i_reader _ I i rd Hr) as [Ho _]. pose proof (ro_count _ _ _ _ Ho) as Hcount.
  pose proof (ro_sublist _ _ _ _ Ho) as Hsub. split_and!; [|done|done|].
  - intros j v Hj. by apply (c_obs _ Q i rd).
  - intros E. apply sublist_full; [done|]. pose proof (cursor_bound _ _ _ I Hr).
    pose proof (i_log _ I). rewrite length_take. lia.
Qed.

(** The producer never runs more than the capacity ahead of any reader,
    not even while a push is in flight, and no reader runs ahead of it; at
    the fullness check the minimum found is at most [write_idx], so the
    unsigned subtraction does not wrap. *)
Theorem backpressure_boundary (capacity num_readers : nat) s i rd :
  (0 < capacity)%nat -> (0 < num_readers)%nat -> rtc step (with_readers capacity num_readers) s ->
  w_readers s !! i = Some rd ->
  written s - Z.of_nat capacity <= cursor rd <= widx s /\
  forall w v lo, w_pc s = PScan w v num_readers lo -> 0 <= lo <= w /\ w = widx s.
Proof.
  intros Hc Hn Hs Hr. destruct (reach_reader Hc Hn Hs i rd Hr) as [_ Hw]. split; [done|].
  intros w v lo Hpc. pose proof (i_pc _ (reach_inv Hc Hn Hs)) as Hp. unfold ppc_ok in Hp.
  rewrite Hpc in Hp. destruct Hp as (-> & Hlo & Hsc). apply lookup_lt_Some in Hr as Hi.
  destruct (reachable_shape _ _ _ Hs) as [_ El]. rewrite El in Hi.
  destruct (Hsc i rd Hi Hr) as (z & Hz & Hk). apply knows_bound in Hk. unfold cursor in Hw.
  split; [lia|done].
Qed.


(** No lost wakeup: a reader woken by a signal, whose cursor is short of
    the [write_idx] that signal followed, does not find the ring empty at its
    next pop. *)
Theorem woken_reader_sees_message (capacity num_readers : nat) s i rd w r :
  (0 < capacity)%nat -> (0 < num_readers)%nat -> rtc step (with_readers capacity num_readers) s ->
  w_readers s !! i = Some rd -> r_pc rd = RGot w r -> cursor rd < r_woken rd -> r < w.
Proof.
  intros Hc Hn Hs Hr Hpc Hlt. destruct (reach_reader Hc Hn Hs i rd Hr) as [Ho _].
  pose proof (ro_pc _ _ _ _ Ho) as Hp. unfold rpc_ok in Hp. rewrite Hpc in Hp.
  destruct Hp as (_ & -> & _ & Hw). lia.
Qed.

(** The queries a thread makes about its own side of the ring do not wrap:
    a reader's [len] is the distance from its cursor to a published index, at
    most the capacity, and the producer's [slowest_lag] is between 0 and what
    it has published. *)
Theorem own_queries_in_range (capacity num_readers : nat) s s' e :
  (0 < capacity)%nat -> (0 < num_readers)%nat -> rtc step (with_readers capacity num_readers) s ->
  Z.of_nat capacity < 2 ^ 64 -> widx s < 2 ^ 64 -> lstep s e s' ->
  (forall i n, e = LenRet i n -> 0 <= n <= Z.of_nat capacity /\
     exists rd, w_readers s !! i = Some rd /\ cursor rd + n <= widx s) /\
  (forall n, e = LagRet n -> 0 <= n <= widx s).
Proof.
  intros Hc Hn Hs Hcap Hb Hstep. split; [intros i n ->|intros n ->]; inversion Hstep; subst.
  - match goal with H : w_readers s !! i = Some _, H' : readable _ _ _ _ _ |- _ =>
      pose proof (own_cursor _ _ _ _ _ (reach_inv Hc Hn Hs) H H') as ->;
      destruct (reach_reader Hc Hn Hs i _ H) as [Ho Hw] end.
    pose proof (ro_pc _ _ _ _ Ho) as Hp. unfold rpc_ok in Hp.
    match goal with H : r_pc rd = _ |- _ => rewrite H in Hp end. destruct Hp as (Hk & Hle & _).
    apply knows_bound in Hk. fold (widx s) in Hk. unfold written in Hw.
    assert (Hwin : w - cursor rd <= Z.of_nat capacity) by (destruct (w_pc s); lia).
    rewrite wrap64_small by (unfold u64; lia). split; [lia|]. exists rd. split; [done|lia].
  - pose proof (i_pc _ (reach_inv Hc Hn Hs)) as Hp. unfold ppc_ok in Hp.
    match goal with H : w_pc s = _ |- _ => rewrite H in Hp end. destruct Hp as (-> & Hlo & Hsc).
    destruct (reachable_shape _ _ _ Hs) as [_ El].
    destruct (lookup_lt_is_Some_2 (w_readers s) 0) as [rd Hr]; [lia|].
    destruct (Hsc 0%nat rd ltac:(lia) Hr) as (z & Hz & Hk). apply knows_bound in Hk.
    destruct (reach_reader Hc Hn Hs 0 rd Hr) as [_ Hw]. unfold cursor in Hw.
    rewrite wrap64_small by (unfold u64; lia). lia.
Qed.

(** ** Executions *)

Definition run_of (capacity num_readers : nat) (acts : list act) : weak :=
  default (with_readers capacity num_readers) (schedule acts (with_readers capacity num_readers)).

Lemma run_of_reachable capacity n acts :
  (if schedule acts (with_readers capacity n) then true else false) = true ->
  rtc step (with_readers capacity n) (run_of capacity n acts).
Proof.
  unfold run_of. destruct (schedule acts _) as [s|] eqn:E; [|done]. intros _. by eapply schedule_reaches.
Qed.

Lemma run_of_obeys D (P : weak -> event -> Prop) capacity n acts :
  (forall s e, D s e = true -> P s e) ->
  obeys D acts (with_readers capacity n) && (if schedule acts (with_readers capacity n) then true else false) = true ->
  rtc (fun s s' => exists e, lstep s e s' /\ P s e) (with_readers capacity n) (run_of capacity n acts).
Proof.
  unfold run_of. intros HD [Ho E]%andb_prop. destruct (schedule acts _) as [s|] eqn:Hs; [|done].
  by eapply obeys_reaches.
Qed.

(** One record published and signalled, and the reader woken. *)
Definition woken_acts : list act := push_acts 7 0 [0%nat] ++ [ASignal; ANotify 0 1].
Definition woken_ring : weak := run_of 1 1 woken_acts.
(** The reader about to pop, and asking for the length. *)
Definition popping_ring : weak := run_of 1 1 (woken_acts ++ [APop 0 1; ANext 0 0]).
Definition asking_ring : weak := run_of 1 1 (woken_acts ++ [ALen 0 1]).

Lemma woken_ring_reachable : rtc step (with_readers 1 1) woken_ring.
Proof. apply run_of_reachable. vm_compute. reflexivity. Qed.
Lemma popping_ring_reachable : rtc step (with_readers 1 1) popping_ring.
Proof. apply run_of_reachable. vm_compute. reflexivity. Qed.
Lemma asking_ring_reachable : rtc step (with_readers 1 1) asking_ring.
Proof. apply run_of_reachable. vm_compute. reflexivity. Qed.

(** The reader then pops, with the loan open, and the producer reuses the
    slot: no gate, but nothing is read through the loan any more. *)
Definition passed_acts : list act :=
  woken_acts ++ [AClaim 0 1; ANext 0 0; ADeref 0 0] ++ pop_acts 0 1 0 ++ push_acts 8 1 [1%nat].
Definition passed_ring : weak := run_of 1 1 passed_acts.

Lemma passed_ring_careful : rtc careful (with_readers 1 1) passed_ring.
Proof. apply (run_of_obeys pinned_b); [apply pinned_b_sound|vm_compute; reflexivity]. Qed.

Lemma no_data_race_witness : w_race passed_ring = false /\ w_log passed_ring = [7; 8].
Proof.
  split; [apply (no_data_race 1 1); [lia|lia|apply passed_ring_careful]|vm_compute; reflexivity].
Defined.

(** Reading through it is the race [careful] excludes: [LoomRing::try_pop] does
    not look at [loan_depth]. *)
Lemma ungated_pop_races : w_race (run_of 1 1 (passed_acts ++ [ADeref 0 0])) = true.
Proof. vm_compute. reflexivity. Qed.


Lemma reads_deliver_the_stream_witness : exists rd,
  w_readers passed_ring !! 0%nat = Some rd /\ r_loans rd = [0] /\ r_popped rd = [7] /\
  w_log passed_ring !! 0%nat = Some 7 /\ r_popped rd = take 1 (w_log passed_ring).
Proof.
  destruct (w_readers passed_ring !! 0%nat) as [rd|] eqn:Hr; [|vm_compute in Hr; discriminate].
  exists rd. split; [done|].
  assert (r_loans rd = [0] /\ r_popped rd = [7] /\ r_taken rd = O /\ cursor rd = 1 /\ (0, 7) ∈ r_obs rd)
    as (El & Ep & Et & Ec & Eo) by (vm_compute in Hr; injection Hr as <-; split_and!; try reflexivity; by left).
  destruct (reads_deliver_the_stream 1 1 passed_ring 0 rd ltac:(lia) ltac:(lia) passed_ring_careful Hr)
    as (H & _ & _ & Ht). split_and!; [done|done|exact (H 0 7 Eo)|]. rewrite (Ht Et), Ec. reflexivity.
Defined.

Lemma backpressure_boundary_witness : exists rd,
  w_readers woken_ring !! 0%nat = Some rd /\ written woken_ring - 1 <= cursor rd <= widx woken_ring.
Proof.
  eexists. split; [vm_compute; reflexivity|].
  apply (backpressure_boundary 1 1 woken_ring 0); [lia|lia|apply woken_ring_reachable|vm_compute; reflexivity].
Defined.


Lemma woken_reader_sees_message_witness : exists rd,
  w_readers popping_ring !! 0%nat = Some rd /\ cursor rd < r_woken rd /\ 0 < 1.
Proof.
  eexists. split; [vm_compute; reflexivity|split; [reflexivity|]].
  eapply (woken_reader_sees_message 1 1 popping_ring 0 _ 1 0); [lia|lia|apply popping_ring_reachable|
    vm_compute; reflexivity|reflexivity|reflexivity].
Defined.

Lemma own_queries_in_range_witness : exists s', lstep asking_ring (LenRet 0 1) s' /\ 0 <= 1 <= 1.
Proof.
  eexists. assert (Hs : lstep asking_ring (LenRet 0 1) _)
    by (eapply (exec_sound _ (ANext 0 0)); vm_compute; reflexivity).
  split; [exact Hs|].
  apply (own_queries_in_range 1 1 _ _ _ ltac:(lia) ltac:(lia) asking_ring_reachable
    ltac:(reflexivity) ltac:(reflexivity) Hs) with (i := 0%nat). reflexivity.
Defined.

(** [len] of somebody else's reader id: the index is loaded before a push and a
    pop that the cursor is loaded after, and the difference wraps. *)
Definition lapping_acts : list act :=
  push_acts 7 0 [0%nat] ++ pop_acts 0 1 0.

Lemma foreign_len_wraps : exists s1 s2 rd m1 m2,
  rtc step (with_readers 1 1) s1 /\ rtc step s1 s2 /\ w_readers s2 !! 0%nat = Some rd /\
  readable 0 zero (w_hist s1) 0 m1 /\ readable 1 (clock_join zero (m_view m1)) (r_hist rd) 1 m2 /\
  wrap64 (m_val m1 - m_val m2) = 2 ^ 64 - 1.
Proof.
  exists (with_readers 1 1), (run_of 1 1 lapping_acts). eexists _, _, _.
  split; [apply rtc_refl|split; [apply run_of_reachable; vm_compute; reflexivity|]].
  split; [vm_compute; reflexivity|]. split; [apply load_readable; reflexivity|].
  split; [apply load_readable; vm_compute; reflexivity|]. vm_compute. reflexivity.
Qed.

(** The bounded model of the backpressure boundary runs two participating
    readers and only ever pops as the first, so its third push never
    succeeds: what it asserts of a third push is asserted of no execution. *)
Lemma boundary_model_third_push_never_succeeds s rd :
  rtc step (with_readers 2 2) s -> w_readers s !! 1%nat = Some rd -> r_hist rd = [mkMsg 0 zero] ->
  (length (w_log s) <= 2)%nat.
Proof.
  intros Hs Hr Hh. apply (unread_cursor_bounds_stream (capacity := 2) (num_readers := 2) ltac:(lia) ltac:(lia) Hs 1 rd Hr).
  unfold cursor. by rewrite Hh.
Qed.
