(* ===== verification/WeakRefine.v ===== *)
(** WeakRefine: the release/acquire machine is the broadcast log of [Spec].

    A push takes effect at its store to [write_idx], a pop or a commit at its
    store to the cursor; every other access leaves the log and the cursors as
    they are.  The executions are all of [Weak]'s, pops with loans open and
    reads of passed loans included. *)

From S2P Require Import Prelude.
From S2P Require Import Spec.
From S2P Require Import Weak.
From S2P Require Import WeakInv.
From S2P Require Import WeakSteps.
From S2P Require Import WeakProps.
From stdpp Require Import relations.
Set Default Goal Selector "!".
Open Scope Z_scope.

(** The log a machine state stands for.  A commit consumes its record like a
    pop; loans do not hold up pops here, so the gates of the log stay down. *)
Definition weak_spec (s : weak) : spec Z :=
  mkSpec (w_log s) (cursor <$> w_readers s) (Z.of_nat (length (w_readers s))) (cap s)
    (replicate (length (w_readers s)) 0).

(** An operation that changes the log. *)
Definition effective (r : resp Z) : Prop :=
  r = RPush true \/ exists v, r = RRecord (Ok (Some v)).

Lemma weak_spec_reader s i rd rd' :
  w_readers s !! i = Some rd -> cursor rd' = cursor rd -> weak_spec (with_reader s i rd') = weak_spec s.
Proof.
  intros Hr E. unfold weak_spec, cap; cbn [with_reader w_log w_readers w_cells].
  by rewrite length_insert, list_fmap_insert, E, <- list_fmap_insert, list_insert_id.
Qed.

Lemma weak_spec_cell s k c : weak_spec (with_cell s k c) = weak_spec s.
Proof. unfold weak_spec. by rewrite cap_with_cell. Qed.

Lemma weak_spec_observed s i rd rd' k c :
  w_readers s !! i = Some rd -> cursor rd' = cursor rd ->
  weak_spec (with_reader (with_cell s k c) i rd') = weak_spec s.
Proof.
  intros Hr E. rewrite (weak_spec_reader (with_cell s k c) i rd rd' Hr E). apply weak_spec_cell.
Qed.

Lemma weak_push s w v :
  inv s -> w_pc s = PStore w v -> Z.of_nat (length (w_log s)) + 1 < 2 ^ 64 ->
  spec_exec (OPush v) (weak_spec s) = (RPush true, weak_spec (published s w v)).
Proof.
  intros I Hpc Hb. pose proof (i_log _ I) as Hl. pose proof (i_cap _ I) as Hc.
  unfold spec_exec, spec_push. cbn [weak_spec Spec.cap]. case Z.leb_spec; [|done]. intros Hle. exfalso.
  assert (widx s - cap s + 1 <= spec_slowest (weak_spec s)); [|unfold produced in Hle; cbn [weak_spec log] in Hle; lia].
  apply fold_min_glb; [unfold u64_MAX; lia|]. intros x Hx. cbn [weak_spec cursors] in Hx.
  apply elem_of_take_lookup in Hx as (i & _ & Hi). apply list_lookup_fmap_Some in Hi as (rd & -> & Hr).
  destruct (i_reader _ I i rd Hr) as [_ Hw]. unfold written in Hw. rewrite Hpc in Hw. lia.
Qed.

Lemma weak_pop s i rd rd' :
  inv s -> w_readers s !! i = Some rd -> cursor rd' = cursor rd + 1 -> cursor rd < widx s ->
  exists v, spec_exec (OPop (Z.of_nat i)) (weak_spec s) =
    (RRecord (Ok (Some v)), weak_spec (with_reader s i rd')).
Proof.
  intros I Hr E Hlt. pose proof (i_log _ I) as Hl. pose proof (cursor_bound _ _ _ I Hr) as Hc.
  pose proof (lookup_lt_Some _ _ _ Hr) as Hi.
  destruct (lookup_lt_is_Some_2 (w_log s) (Z.to_nat (cursor rd))) as [v Hv]; [lia|]. exists v.
  assert (Hcur : cursors (weak_spec s) !!! Z.to_nat (Z.of_nat i) = cursor rd).
  { rewrite Nat2Z.id. apply list_lookup_total_correct. cbn [weak_spec cursors]. by rewrite list_lookup_fmap, Hr. }
  unfold spec_exec, spec_pop. rewrite (spec_check_ok _ _ (cursor rd)); [|cbn; lia|done].
  cbn [weak_spec gates log cursors n_readers Spec.cap]. rewrite Nat2Z.id.
  rewrite (lookup_total_replicate_2 _ _ _ Hi). cbn [negb Z.eqb]. rewrite Hv. do 2 f_equal.
  unfold weak_spec, cap; cbn [with_reader w_log w_readers w_cells].
  by rewrite length_insert, list_fmap_insert, E.
Qed.

Lemma open_loan_published s i rd j rest :
  inv s -> w_readers s !! i = Some rd -> r_loans rd ≡ₚ j :: rest -> j < widx s.
Proof.
  intros I Hr Hp. destruct (rest_loans s i rd j rest I Hr Hp) as (_ & Hj & Hk).
  apply knows_bound in Hk. unfold widx. lia.
Qed.

(** Every step stutters or is one effective operation of the log. *)
Lemma step_simulates s s' :
  inv s -> step s s' -> Z.of_nat (length (w_log s')) < 2 ^ 64 ->
  weak_spec s' = weak_spec s \/
  exists o r, id_ok o /\ effective r /\ spec_exec o (weak_spec s) = (r, weak_spec s').
Proof.
  intros I [e Hstep] Hb.
  assert (Hpop : forall i rd rd', w_readers s !! i = Some rd -> cursor rd' = cursor rd + 1 ->
    cursor rd < widx s -> exists o r, id_ok o /\ effective r /\
      spec_exec o (weak_spec s) = (r, weak_spec (with_reader s i rd'))).
  { intros i rd rd' Hr E Hlt. destruct (weak_pop s i rd rd' I Hr E Hlt) as [v Ev].
    eexists _, _. split; [|split; [|exact Ev]]; [simpl; lia|right; by exists v]. }
  destruct Hstep; try (left; reflexivity); try (left; by eapply weak_spec_reader).
  - left. exact (weak_spec_cell (with_producer s _ _) _ _).
  - right. exists (OPush v), (RPush true). split; [done|split; [by left|]].
    cbn [published w_log] in Hb. rewrite length_app in Hb. cbn in Hb. apply weak_push; [done|done|lia].
  - left. by apply (weak_spec_observed s i rd).
  - right. apply (Hpop i rd); [done|apply last_idx_snoc|]. destruct (i_reader _ I i rd H) as [Ho _].
    pose proof (ro_pc _ _ _ _ Ho) as Hp. unfold rpc_ok in Hp. rewrite H0 in Hp.
    destruct Hp as (Hk & -> & _). apply knows_bound in Hk. unfold widx. lia.
  - left. by apply (weak_spec_observed s i rd).
  - right. apply (Hpop i rd); [done|apply last_idx_snoc|].
    rewrite (own_cursor _ _ _ _ _ I H H2) in H3. rewrite H3. by eapply open_loan_published.
  - right. apply (Hpop i rd); [done|apply last_idx_snoc|].
    rewrite (own_cursor _ _ _ _ _ I H H2) in H3. rewrite H3. by eapply open_loan_published.
Qed.

(** ** Whole executions *)

Lemma spec_run_snoc os o (sp : spec Z) :
  spec_run (os ++ [o]) sp =
    let '(rs, sp1) := spec_run os sp in let '(r, sp2) := spec_exec o sp1 in (rs ++ [r], sp2).
Proof.
  revert sp. induction os as [|o' os IH]; intros sp; simpl; [by destruct (spec_exec o sp)|].
  destruct (spec_exec o' sp) as [r' sp']. rewrite IH. destruct (spec_run os sp') as [rs sp1].
  by destruct (spec_exec o sp1).
Qed.

Lemma step_log_grows s s' : step s s' -> (length (w_log s) <= length (w_log s'))%nat.
Proof. intros [e He]. destruct He; try done. cbn. rewrite length_app. lia. Qed.

Lemma reachable_run (capacity n : nat) s :
  (0 < capacity)%nat -> (0 < n)%nat -> rtc step (with_readers capacity n) s ->
  Z.of_nat (length (w_log s)) < 2 ^ 64 ->
  exists os rs, spec_run os (weak_spec (with_readers capacity n)) = (rs, weak_spec s) /\
    Forall id_ok os /\ Forall effective rs.
Proof.
  intros Hc Hn. revert s. refine (rtc_ind_r _ _ _ _).
  - intros _. by exists [], [].
  - intros s1 s2 Hs1 Hstep IH Hb. pose proof (step_log_grows _ _ Hstep). destruct IH as (os & rs & E & Hid & Heff); [lia|].
    destruct (step_simulates s1 s2 (reachable_inv _ _ _ Hc Hn Hs1) Hstep Hb) as [->|(o & r & Ho & Hr & Er)].
    + by exists os, rs.
    + exists (os ++ [o]), (rs ++ [r]). rewrite spec_run_snoc, E, Er.
      split; [done|split; apply Forall_app_2; auto].
Qed.

Lemma initial_cursors_ok capacity n : cursors_ok (weak_spec (with_readers capacity n)).
Proof.
  split; cbn [weak_spec n_readers cursors with_readers w_readers].
  - by rewrite length_fmap.
  - apply Forall_fmap, Forall_replicate. done.
Qed.

(** C2: The concurrent ring is linearizable to the broadcast log: every
    execution under release/acquire memory has a sequence of successful
    abstract pushes and pops that leads from the empty log to the log and
    cursors it has reached; the pushes of that sequence are the published
    stream, and its pops by a reader are the stream before that reader's
    cursor. *)
Theorem weak_refines_broadcast_log (capacity num_readers : nat) s :
  (0 < capacity)%nat -> (0 < num_readers)%nat -> rtc step (with_readers capacity num_readers) s ->
  Z.of_nat (length (w_log s)) < 2 ^ 64 ->
  exists os rs, spec_run os (weak_spec (with_readers capacity num_readers)) = (rs, weak_spec s) /\
    Forall effective rs /\ pushes os rs = w_log s /\
    forall i rd, w_readers s !! i = Some rd ->
      pops (Z.of_nat i) os rs = take (Z.to_nat (Weak.cursor rd)) (w_log s).
Proof.
  intros Hc Hn Hs Hb. destruct (reachable_run _ _ _ Hc Hn Hs Hb) as (os & rs & E & Hid & Heff).
  pose proof (spec_run_log os (weak_spec (with_readers capacity num_readers))) as El. rewrite E in El.
  exists os, rs. split; [done|split; [done|split; [done|]]]. intros i rd Hr.
  pose proof (spec_run_received (Z.of_nat i) os _ (initial_cursors_ok capacity num_readers) Hid
    ltac:(lia)) as Er. rewrite E in Er.
  destruct (reach_reader Hc Hn Hs i rd Hr) as [_ [_ Hw]]. pose proof (i_log _ (reach_inv Hc Hn Hs)) as Hl.
  assert (E1 : Spec.cursor (weak_spec s) (Z.of_nat i) = Z.to_nat (Weak.cursor rd)).
  { unfold Spec.cursor. cbn [weak_spec cursors]. rewrite Nat2Z.id. f_equal.
    apply list_lookup_total_correct. by rewrite list_lookup_fmap, Hr. }
  assert (E0 : Spec.cursor (weak_spec (with_readers capacity num_readers)) (Z.of_nat i) = 0%nat).
  { unfold Spec.cursor. cbn [weak_spec cursors with_readers w_readers]. rewrite Nat2Z.id.
    pose proof (lookup_lt_Some _ _ _ Hr) as Hi. destruct (reachable_shape _ _ _ Hs) as [_ Elen].
    rewrite Elen in Hi. rewrite fmap_replicate. by rewrite lookup_total_replicate_2 by done. }
  rewrite E0, E1, drop_0 in Er. cbn [weak_spec log] in Er.
  rewrite <- (take_drop (Z.to_nat (Weak.cursor rd)) (w_log s)) in Er at 1.
  by apply app_inv_tail in Er.
Qed.

Lemma weak_refines_broadcast_log_witness : exists os rs,
  spec_run os (weak_spec (with_readers 1 1)) = (rs, weak_spec woken_ring) /\ pushes os rs = [7].
Proof.
  destruct (weak_refines_broadcast_log 1 1 woken_ring ltac:(lia) ltac:(lia) woken_ring_reachable)
    as (os & rs & E & _ & Ep & _); [vm_compute; reflexivity|]. exists os, rs.
  split; [exact E|]. rewrite Ep. vm_compute. reflexivity.
Defined.
