(* ===== verification/WeakCalls.v ===== *)
(** WeakCalls: what the calls promise one another.

    A [board] is the ring as its callers see it: the stream published, the
    signals given, and for each reader its cursor, claim pipeline, open loans
    and the call it is in.  [call] says what may be returned when.  Every step
    of the release/acquire machine is an entry of this contract, so programs
    that use the ring are verified against the contract alone. *)

From S2P Require Import Prelude.
From S2P Require Import Weak.
From S2P Require Import WeakInv.
From S2P Require Import WeakSteps.
From S2P Require Import WeakExec.
From S2P Require Import WeakProps.
From stdpp Require Import relations.
Set Default Goal Selector "!".
Open Scope Z_scope.

(** ** The contract *)

(** The producer is free once the outcome of its push is settled, though it has
    yet to count it. *)
Inductive pphase := Free | Pushing (v : Z) | Asking.
Inductive rphase := Resting | Popping | Claiming | Counting.

#[export] Instance event_eq_dec : EqDecision event.
Proof. solve_decision. Defined.

Record port := mkPort {
  p_phase : rphase;
  p_cursor : Z;
  p_base : Z;
  p_loans : list Z;
  p_woken : Z;
}.

Record board := mkBoard {
  b_phase : pphase;
  b_log : list Z;
  b_signals : list Z;
  b_ports : list port;
}.

Definition published_len (b : board) : Z := Z.of_nat (length (b_log b)).
Definition in_phase (b : board) (ph : pphase) : board :=
  mkBoard ph (b_log b) (b_signals b) (b_ports b).
Definition set_port (b : board) (i : nat) (p : port) : board :=
  mkBoard (b_phase b) (b_log b) (b_signals b) (<[i := p]> (b_ports b)).
Definition port_in (p : port) (ph : rphase) : port :=
  mkPort ph (p_cursor p) (p_base p) (p_loans p) (p_woken p).

(** A reader's event: its port before and after. *)
Definition port_call (b : board) (e : event) (i : nat) (p p' : port) : Prop :=
  match e with
  | PopCall _ => p_phase p = Resting /\ p' = port_in p Popping
  | PopRet _ None => p_phase p = Popping /\ p_woken p <= p_cursor p /\ p' = port_in p Resting
  | PopRet _ (Some v) =>
      p_phase p = Popping /\ b_log b !! Z.to_nat (p_cursor p) = Some v /\
      p' = mkPort Resting (p_cursor p + 1) (p_base p) (p_loans p) (p_woken p)
  | ClaimCall _ => p_phase p = Resting /\ p' = port_in p Claiming
  | ClaimRet _ None =>
      p_phase p = Claiming /\ p_woken p <= Z.max (p_base p) (p_cursor p) /\ p' = port_in p Resting
  | ClaimRet _ (Some j) =>
      p_phase p = Claiming /\ j = Z.max (p_base p) (p_cursor p) /\ j < published_len b /\
      p' = mkPort Resting (p_cursor p) (j + 1) (j :: p_loans p) (p_woken p)
  | Value _ j v =>
      p_phase p = Resting /\ j ∈ p_loans p /\
      (p_cursor p <= j -> b_log b !! Z.to_nat j = Some v) /\ p' = p
  | CommitRet _ j true =>
      p_phase p = Resting /\ p_cursor p = j /\ exists rest, p_loans p ≡ₚ j :: rest /\
      p' = mkPort Resting (j + 1) (p_base p) rest (p_woken p)
  | CommitRet _ j false => p_phase p = Resting /\ j ∈ p_loans p /\ p_cursor p <> j /\ p' = p
  | Dropped _ j =>
      p_phase p = Resting /\ exists rest, p_loans p ≡ₚ j :: rest /\
      p' = mkPort Resting (if p_cursor p =? j then j + 1 else p_cursor p) (p_base p) rest (p_woken p)
  | Aborted _ j =>
      p_phase p = Resting /\ exists rest, p_loans p ≡ₚ j :: rest /\
      p' = mkPort Resting (p_cursor p) (Z.min (p_base p) j) rest (p_woken p)
  | NotifyLoad _ n =>
      p_phase p = Resting /\ exists z, b_signals b !! n = Some z /\
      p' = mkPort Resting (p_cursor p) (p_base p) (p_loans p) (Z.max (p_woken p) z)
  | LenCall _ => p_phase p = Resting /\ p' = port_in p Counting
  | LenRet _ n =>
      p_phase p = Counting /\ p' = port_in p Resting /\
      exists w, p_cursor p <= w <= published_len b /\ p_woken p <= w /\ n = wrap64 (w - p_cursor p)
  | _ => False
  end.

(** The reader an event belongs to. *)
Definition reader_of (e : event) : option nat :=
  match e with
  | PopCall i | PopRet i _ | ClaimCall i | ClaimRet i _ | Value i _ _ | CommitRet i _ _
  | Dropped i _ | Aborted i _ | NotifyLoad i _ | LenCall i | LenRet i _ => Some i
  | _ => None
  end.

Definition call (capacity : Z) (b : board) (e : event) (b' : board) : Prop :=
  match e with
  | Silent => b' = b
  | PushCall v => b_phase b = Free /\ b' = in_phase b (Pushing v)
  | PushRet ok => exists v, b_phase b = Pushing v /\
      if ok then
        b' = mkBoard Free (b_log b ++ [v]) (b_signals b) (b_ports b) /\
        forall i p, b_ports b !! i = Some p -> published_len b + 1 - capacity <= p_cursor p
      else b' = in_phase b Free /\ capacity <= published_len b
  | Signal =>
      b_phase b = Free /\
      b' = mkBoard Free (b_log b) (b_signals b ++ [published_len b]) (b_ports b)
  | LagCall => b_phase b = Free /\ b' = in_phase b Asking
  | LagRet n =>
      b_phase b = Asking /\ b' = in_phase b Free /\
      exists lo, 0 <= lo <= published_len b /\ n = wrap64 (published_len b - lo)
  | _ => exists i p p', reader_of e = Some i /\ b_ports b !! i = Some p /\
      port_call b e i p p' /\ b' = set_port b i p'
  end.

(** ** The machine keeps it *)

Definition pphase_of (pc : ppc) : pphase :=
  match pc with
  | PIdle | PCount => Free
  | PScan _ v _ _ | PWrite _ v | PStore _ v => Pushing v
  | PLag _ _ _ => Asking
  end.
Definition rphase_of (pc : rpc) : rphase :=
  match pc with
  | RIdle => Resting
  | RGotW _ | RGot _ _ | RBump _ _ => Popping
  | LGotW _ => Claiming
  | NGotW _ => Counting
  end.

Definition port_of (rd : reader) : port :=
  mkPort (rphase_of (r_pc rd)) (cursor rd) (r_base rd) (r_loans rd) (r_woken rd).
Definition board_of (s : weak) : board :=
  mkBoard (pphase_of (w_pc s)) (w_log s) (m_val <$> w_notify s) (port_of <$> w_readers s).

Lemma board_reader s i rd rd' :
  w_readers s !! i = Some rd -> board_of (with_reader s i rd') = set_port (board_of s) i (port_of rd').
Proof. intros Hr. unfold board_of, set_port; cbn. by rewrite list_fmap_insert. Qed.

Lemma board_ports s i rd : w_readers s !! i = Some rd -> b_ports (board_of s) !! i = Some (port_of rd).
Proof. intros Hr. cbn. by rewrite list_lookup_fmap, Hr. Qed.

(** A step of a reader that its port does not show. *)
Lemma board_reader_same s i rd rd' :
  w_readers s !! i = Some rd -> port_of rd' = port_of rd -> board_of (with_reader s i rd') = board_of s.
Proof.
  intros Hr E. rewrite (board_reader s i rd rd' Hr), E. unfold set_port, board_of; cbn. f_equal.
  apply list_insert_id. by rewrite list_lookup_fmap, Hr.
Qed.

(** A reader's step that is an event. *)
Lemma reader_call s i rd rd' e c :
  w_readers s !! i = Some rd -> reader_of e = Some i ->
  port_call (board_of s) e i (port_of rd) (port_of rd') ->
  call c (board_of s) e (board_of (with_reader s i rd')).
Proof.
  intros Hr Hi Hp. rewrite (board_reader s i rd rd' Hr). pose proof (board_ports s i rd Hr).
  destruct e; try done; eexists _, _, _; eauto.
Qed.

Lemma published_widx s : inv s -> published_len (board_of s) = widx s.
Proof. apply i_log. Qed.

Lemma cursor_bumped rd i r l p n : cursor (bumped rd i r l p n) = cursor rd + 1.
Proof. apply last_idx_snoc. Qed.

Lemma bumped_call s i rd C j rest :
  inv s -> w_readers s !! i = Some rd -> r_loans rd ≡ₚ j :: rest -> r_pc rd = RIdle -> cursor rd = j ->
  port_of (taken_at (at_pc rd RIdle C) i j rest) =
    mkPort Resting (j + 1) (r_base rd) rest (r_woken rd).
Proof. intros I Hr Hp Hpc <-. unfold port_of, taken_at. rewrite cursor_bumped. done. Qed.

(** What a reader in the middle of a call knows. *)
Lemma reader_pc_ok s i rd :
  inv s -> w_readers s !! i = Some rd -> rpc_ok (w_hist s) (w_log s) rd.
Proof. intros I Hr. destruct (i_reader _ I i rd Hr) as [Ho _]. apply (ro_pc _ _ _ _ Ho). Qed.

Lemma producer_calls s e s' :
  inv s -> lstep s e s' -> reader_of e = None -> e <> Silent -> call (cap s) (board_of s) e (board_of s').
Proof.
  intros I Hstep Hi He. pose proof (i_pc _ I) as Hp. unfold ppc_ok in Hp.
  pose proof (published_widx s I) as Hl. destruct Hstep; try done; cbn [call]; rewrite ?Hl.
  - split; [cbn; by rewrite H|done].
  - rewrite H in Hp. destruct Hp as (-> & Hlo & _). exists v. split; [cbn; by rewrite H|split; [done|lia]].
  - split; [cbn; by rewrite H|done].
  - rewrite H in Hp. destruct Hp as (-> & Hlo & Hs). split; [cbn; by rewrite H|split; [done|]].
    exists lo. split; [|done]. destruct (lookup_lt_is_Some_2 (w_readers s) 0 (i_readers _ I)) as [rd Hr].
    destruct (Hs 0%nat rd (i_readers _ I) Hr) as (z & Hz & Hk). apply knows_bound in Hk.
    pose proof (cursor_bound _ _ _ I Hr) as Hc. unfold cursor in Hc. lia.
  - rewrite H in Hp. subst w. exists v. split; [cbn; by rewrite H|split; [done|]].
    intros i p Hpi. cbn in Hpi. apply list_lookup_fmap_Some in Hpi as (rd & -> & Hr).
    destruct (i_reader _ I i rd Hr) as [_ Hw]. unfold written in Hw. rewrite H in Hw. cbn. lia.
  - split; [cbn; by rewrite H|]. unfold board_of; cbn. by rewrite fmap_app.
Qed.

Lemma silent_calls s s' : lstep s Silent s' -> board_of s' = board_of s.
Proof.
  intros Hstep. remember Silent as e eqn:E. destruct Hstep; try discriminate E; try reflexivity.
  1-5: unfold board_of; cbn; by rewrite H.
  - eapply board_reader_same; [done|]. unfold port_of; cbn. by rewrite H0.
  - change (board_of (read_slot s i rd r c (RBump r (c_val c)))) with
      (board_of (with_reader s i (observed rd i r (c_val c) (RBump r (c_val c))))).
    eapply board_reader_same; [done|]. unfold port_of; cbn. by rewrite H0.
Qed.

Lemma reader_calls s e s' i :
  inv s -> lstep s e s' -> reader_of e = Some i -> call (cap s) (board_of s) e (board_of s').
Proof.
  intros I Hstep Hi. pose proof (published_widx s I) as Hl.
  revert i Hi. destruct Hstep; intros i' Hi; try discriminate Hi; injection Hi as <-;
    try (eapply reader_call; [done|done|]; cbn [port_call]).
  all: pose proof (reader_pc_ok s i rd I H) as Hp; unfold rpc_ok in Hp; rewrite ?H0 in Hp.
  all: rewrite ?Hl; try (match goal with Hm : readable (S _) _ _ _ _ |- _ =>
    pose proof (own_cursor _ _ _ _ _ I H Hm) as Ec end).
  all: try (cbn; rewrite H0; done).
  - destruct H1 as [Hm _]. cbn; rewrite H0. split; [done|]. exists (m_val m).
    split; [by rewrite list_lookup_fmap, Hm|done].
  - destruct Hp as (_ & E & _ & Hw). cbn; rewrite H0. split; [done|split; [lia|done]].
  - destruct Hp as (_ & -> & Hv). split; [cbn; by rewrite H0|split; [exact Hv|]].
    unfold port_of at 1, popped_at. by rewrite cursor_bumped.
  - cbn; rewrite H0. split; [done|split; [lia|done]].
  - destruct Hp as (Hk & _). apply knows_bound in Hk. unfold idx. rewrite Ec in *. cbn; rewrite H0.
    split; [done|split; [done|split; [unfold widx; lia|done]]].
  - destruct Hp as (Hk & Hc & Hw). apply knows_bound in Hk. cbn; rewrite H0, Ec.
    split; [done|split; [done|]]. exists w. unfold widx. split; [lia|done].
  - destruct (i_reader _ I i rd H) as [Ho _]. destruct (ro_loans _ _ _ _ Ho j H1) as [_ Hk].
    change (board_of (read_slot s i rd j c RIdle)) with
      (board_of (with_reader s i (observed rd i j (c_val c) RIdle))).
    eapply reader_call; [done|done|]. cbn; rewrite H0. split_and!; [done..| |].
    + intros Hj. by destruct (readable_slot s i rd j c I H Hj Hk H2).
    + unfold port_of; cbn. by rewrite H0.
  - rewrite (bumped_call s) by (done || congruence). cbn; rewrite H0.
    split; [done|split; [congruence|]]. by exists rest.
  - rewrite (bumped_call s) by (done || congruence). cbn; rewrite H0.
    split; [done|]. exists rest. case Z.eqb_spec; [done|congruence].
  - cbn; rewrite H0. split; [done|split; [done|split; [congruence|]]]. unfold port_of; cbn. by rewrite H0.
  - cbn; rewrite H0. split; [done|]. exists rest. split; [done|]. case Z.eqb_spec; [congruence|done].
  - cbn; rewrite H0. split; [done|]. by exists rest.
Qed.

Lemma lstep_calls s e s' :
  inv s -> lstep s e s' -> call (cap s) (board_of s) e (board_of s').
Proof.
  intros I Hstep. destruct (reader_of e) as [i|] eqn:Hi; [by eapply reader_calls|].
  destruct (decide (e = Silent)) as [->|Hne]; [by apply silent_calls|by apply producer_calls].
Qed.

(** C6: Every step of the machine, with no assumption on what its clients call
    when, is an entry of the contract: a push is accepted only when no reader
    would be a full capacity behind and refused only when a capacity's worth
    has been published; a pop returns the record under the cursor, and nothing
    only to a reader no signal has announced a record to; a claim reserves the
    index at the head of the pipeline or the cursor, if it is published; a
    commit succeeds exactly at the cursor; and a dereference of a loan the
    reader's cursor has not passed reads the record of its index. *)
Theorem steps_keep_contract (capacity num_readers : nat) s e s' :
  (0 < capacity)%nat -> (0 < num_readers)%nat -> rtc step (with_readers capacity num_readers) s ->
  lstep s e s' -> call (Z.of_nat capacity) (board_of s) e (board_of s').
Proof.
  intros Hc Hn Hs Hstep. destruct (reachable_shape _ _ _ Hs) as [<- _].
  apply lstep_calls; [|done]. by apply (reachable_inv capacity num_readers).
Qed.

Lemma steps_keep_contract_witness : exists s',
  lstep asking_ring (LenRet 0 1) s' /\ call 1 (board_of asking_ring) (LenRet 0 1) (board_of s').
Proof.
  eexists. assert (Hs : lstep asking_ring (LenRet 0 1) _)
    by (eapply (exec_sound _ (ANext 0 0)); vm_compute; reflexivity).
  split; [exact Hs|].
  by apply (steps_keep_contract 1 1 asking_ring _ _ ltac:(lia) ltac:(lia) asking_ring_reachable).
Defined.
