(* ===== verification/Client.v ===== *)
(** Client: programs that share a ring.

    A program is a producer thread and one thread per reader id, each an
    automaton on the events of the calls it makes ([None]: not a call the
    thread makes now).  [sys_step] interleaves them with the machine of [Weak];
    [sys_invariant] proves a program correct from the contract of [WeakCalls]
    alone. *)

From S2P Require Import Prelude.
From S2P Require Import Weak.
From S2P Require Import WeakInv.
From S2P Require Import WeakSteps.
From S2P Require Import WeakExec.
From S2P Require Import WeakCalls.
From stdpp Require Import relations.
Set Default Goal Selector "!".
Open Scope Z_scope.

Record sys (P R : Type) := mkSys {
  y_ring : weak;
  y_prod : P;
  y_cons : list R;
}.
Arguments mkSys {P R}.
Arguments y_ring {P R}.
Arguments y_prod {P R}.
Arguments y_cons {P R}.

Section program.
Context {P R : Type} (prod : P -> event -> option P) (cons : R -> event -> option R).

Inductive sys_step : sys P R -> sys P R -> Prop :=
  | sys_silent s s' p rs :
      lstep s Silent s' -> sys_step (mkSys s p rs) (mkSys s' p rs)
  | sys_producer s e s' p p' rs :
      lstep s e s' -> reader_of e = None -> e <> Silent -> prod p e = Some p' ->
      sys_step (mkSys s p rs) (mkSys s' p' rs)
  | sys_reader s e s' p rs i r r' :
      lstep s e s' -> reader_of e = Some i -> rs !! i = Some r -> cons r e = Some r' ->
      sys_step (mkSys s p rs) (mkSys s' p (<[i := r']> rs)).

(** The ring of a program takes the machine's steps. *)
Lemma sys_ring_steps y y' : rtc sys_step y y' -> rtc step (y_ring y) (y_ring y').
Proof.
  intros Hs. induction Hs as [|y1 y2 y3 H12 _ IH]; [done|]. eapply rtc_l; [|exact IH].
  by destruct H12 as [? ? ? ? H|? ? ? ? ? ? H|? ? ? ? ? ? ? ? H]; eexists.
Qed.

(** The ring's silent steps are the program's. *)
Lemma sys_silently s s' p rs :
  rtc (fun s s' => lstep s Silent s') s s' -> rtc sys_step (mkSys s p rs) (mkSys s' p rs).
Proof. intros Hs. induction Hs; [done|]. eapply rtc_l; [by apply sys_silent|done]. Qed.

(** ** Proof rule *)

Context (capacity num_readers : nat) (Hcap : (0 < capacity)%nat) (Hreaders : (0 < num_readers)%nat).
Context (J : board -> P -> list R -> Prop).
Context (Hproducer : forall b e b' p p' rs,
  J b p rs -> call (Z.of_nat capacity) b e b' -> reader_of e = None -> e <> Silent ->
  prod p e = Some p' -> J b' p' rs).
Context (Hreader : forall b e i p0 p0' p rs r r',
  J b p rs -> reader_of e = Some i -> b_ports b !! i = Some p0 -> port_call b e i p0 p0' ->
  rs !! i = Some r -> cons r e = Some r' -> J (set_port b i p0') p (<[i := r']> rs)).

Lemma sys_step_keeps s p rs y :
  rtc step (with_readers capacity num_readers) s -> J (board_of s) p rs ->
  sys_step (mkSys s p rs) y ->
  rtc step (with_readers capacity num_readers) (y_ring y) /\ J (board_of (y_ring y)) (y_prod y) (y_cons y).
Proof.
  intros Hs HJ Hstep. pose proof (reachable_inv _ _ _ Hcap Hreaders Hs) as I.
  destruct (reachable_shape _ _ _ Hs) as [Ecap _].
  inversion Hstep as [? s' ? ? Hl|? e s' ? p' ? Hl Hr He Hp|? e s' ? ? i r r' Hl Hr Hi Hc]; subst;
    cbn [y_ring y_prod y_cons]; (split; [eapply rtc_r; [exact Hs|by eexists]|]);
    pose proof (lstep_calls _ _ _ I Hl) as Hcall; rewrite Ecap in Hcall.
  - cbn in Hcall. by rewrite Hcall.
  - by eapply Hproducer.
  - assert (exists i p0 p0', reader_of e = Some i /\ b_ports (board_of s) !! i = Some p0 /\
      port_call (board_of s) e i p0 p0' /\ board_of s' = set_port (board_of s) i p0')
      as (i' & p0 & p0' & Hi' & Hp0 & Hcall' & ->) by (by destruct e).
    assert (i' = i) as -> by congruence. by eapply Hreader.
Qed.

(** A program that only reads loans its reader's cursor has not passed keeps to
    the discipline of [Weak]. *)
Lemma sys_careful p rs y :
  J (board_of (with_readers capacity num_readers)) p rs ->
  (forall b p rs i r r' j v p0, J b p rs -> rs !! i = Some r -> cons r (Value i j v) = Some r' ->
    b_ports b !! i = Some p0 -> p_cursor p0 <= j) ->
  rtc sys_step (mkSys (with_readers capacity num_readers) p rs) y ->
  rtc careful (with_readers capacity num_readers) (y_ring y).
Proof.
  intros HJ Hval Hrun. cut (rtc careful (with_readers capacity num_readers) (y_ring y) /\
    J (board_of (y_ring y)) (y_prod y) (y_cons y)); [by intros []|].
  revert y Hrun. apply rtc_ind_r; [by split; [apply rtc_refl|]|].
  intros [s p1 rs1] y _ Hstep [Hs HJ1].
  destruct (sys_step_keeps s p1 rs1 y (careful_steps _ _ Hs) HJ1 Hstep) as [_ HJ2]. split; [|done].
  assert (exists e, lstep s e (y_ring y) /\ pinned s e) as (e & He & Hpin); [|by eapply rtc_r; [|exists e]].
  inversion Hstep as [? s' ? ? Hl|? e s' ? p' ? Hl Hr He Hp|? e s' ? ? i r r' Hl Hr Hi Hc]; subst;
    cbn [y_ring]; eexists; (split; [exact Hl|]); [done|by destruct e|].
  destruct e; try done. injection Hr as ->. intros rd Hrd. cbn [y_ring y_prod y_cons] in HJ1.
  apply (Hval _ _ _ _ _ _ _ _ _ HJ1 Hi Hc (board_ports s i rd Hrd)).
Qed.

Lemma sys_invariant p rs y :
  J (board_of (with_readers capacity num_readers)) p rs ->
  rtc sys_step (mkSys (with_readers capacity num_readers) p rs) y ->
  J (board_of (y_ring y)) (y_prod y) (y_cons y).
Proof.
  intros HJ Hrun. cut (rtc step (with_readers capacity num_readers) (y_ring y) /\
    J (board_of (y_ring y)) (y_prod y) (y_cons y)); [by intros []|].
  revert y Hrun. apply rtc_ind_r; [by split; [apply rtc_refl|]|].
  intros [s p1 rs1] y _ Hstep [Hs HJ1]. by eapply sys_step_keeps.
Qed.
End program.

(** ** Schedules of a program *)

Section schedules.
Context {P R : Type} (prod : P -> event -> option P) (cons : R -> event -> option R).

Definition sys_exec (y : sys P R) (a : act) : option (sys P R) :=
  '(e, s') ← exec (y_ring y) a;
  match reader_of e with
  | Some i =>
      r ← y_cons y !! i; r' ← cons r e; Some (mkSys s' (y_prod y) (<[i := r']> (y_cons y)))
  | None =>
      if decide (e = Silent) then Some (mkSys s' (y_prod y) (y_cons y))
      else p' ← prod (y_prod y) e; Some (mkSys s' p' (y_cons y))
  end.

Fixpoint sys_schedule (acts : list act) (y : sys P R) : option (sys P R) :=
  match acts with [] => Some y | a :: acts => y' ← sys_exec y a; sys_schedule acts y' end.

Lemma sys_exec_sound y a y' : sys_exec y a = Some y' -> sys_step prod cons y y'.
Proof.
  destruct y as [s p rs]. unfold sys_exec; cbn [y_ring y_prod y_cons].
  intros ([e s'] & He & H)%bind_Some. apply exec_sound in He.
  destruct (reader_of e) as [i|] eqn:Hi.
  - apply bind_Some in H as (r & Hr & H). apply bind_Some in H as (r' & Hr' & [= <-]). by eapply sys_reader.
  - destruct (decide (e = Silent)) as [->|Hne]; [simplify_eq; by apply sys_silent|].
    apply bind_Some in H as (p' & Hp & [= <-]). by eapply sys_producer.
Qed.

Lemma sys_schedule_reaches acts y y' : sys_schedule acts y = Some y' -> rtc (sys_step prod cons) y y'.
Proof.
  revert y. induction acts as [|a acts IH]; simpl; intros y H; [by simplify_eq|].
  apply bind_Some in H as (y1 & H1 & H). eapply rtc_l; [by eapply sys_exec_sound|by apply IH].
Qed.

(** The state a schedule ends in. *)
Definition sys_run (acts : list act) (y : sys P R) : sys P R := default y (sys_schedule acts y).

Lemma sys_run_reaches acts y :
  (if sys_schedule acts y then true else false) = true -> rtc (sys_step prod cons) y (sys_run acts y).
Proof.
  unfold sys_run. destruct (sys_schedule acts y) eqn:E; [|done]. intros _. by eapply sys_schedule_reaches.
Qed.
End schedules.
