(* ===== verification/Loom.v ===== *)
(** Loom: the four bounded programs of [src/src/loom_ring.rs].

    Each program is a producer automaton and one automaton per consumer thread,
    with the bounds of the source ([ATTEMPTS], [MESSAGES], capacity 2); a
    failed assertion is the state [Panicked].  For each, no execution under
    release/acquire memory reaches a failed assertion, including those made
    after the threads are joined: the main thread then loads [total_written],
    with the clocks of all threads ([loom_total_written]). *)

From S2P Require Import Prelude.
From S2P Require Import Header.
From S2P Require Import Weak.
From S2P Require Import WeakInv.
From S2P Require Import WeakSteps.
From S2P Require Import WeakExec.
From S2P Require Import WeakCalls.
From S2P Require Import Client.
From stdpp Require Import relations.
Set Default Goal Selector "!".
Open Scope Z_scope.

Definition LOOM_CAPACITY : nat := 2.
Definition ATTEMPTS : nat := 3.

(** [LoomRing::new], which [Default] is: every cursor participates. *)
Definition loom_new : weak := with_readers LOOM_CAPACITY (Z.to_nat MAX_READERS).

(** What the thread that joins the others loads: once the producer has returned,
    the number of its accepted pushes. *)
Lemma total_is_log (n : nat) s :
  (0 < n)%nat -> rtc step (with_readers LOOM_CAPACITY n) s -> w_pc s = PIdle ->
  loom_total_written s (Z.of_nat (length (w_log s))) /\
  forall z, loom_total_written s z -> z = Z.of_nat (length (w_log s)).
Proof.
  intros Hn Hs Hpc. pose proof (reachable_inv LOOM_CAPACITY n s ltac:(unfold LOOM_CAPACITY; lia) Hn Hs) as I.
  destruct (i_total _ I) as [Ht Hl]. unfold tallied in Hl. rewrite Hpc in Hl.
  assert (Hle : clock_le (w_view s) (joined s)).
  { unfold joined. induction (r_view <$> w_readers s) as [|C l IH]; simpl; [auto with shm|].
    intros u. specialize (IH u). unfold clock_join at 1. lia. }
  pose proof (hist_ok_le _ _ _ _ Hle Ht) as Hj. rewrite (i_log _ I), <- Hl. split.
  - pose proof (h_nonempty _ _ _ Ht) as Hne. unfold last_idx in Hne.
    destruct (lookup_lt_is_Some_2 (w_total s) (pred (length (w_total s)))) as [m Hm]; [lia|].
    exists (pred (length (w_total s))), m. rewrite (h_val _ _ _ Ht _ _ Hm). split; [split; [done|]|unfold last_idx; lia].
    intros k' m' Hk Hm'. apply lookup_lt_Some in Hm'. lia.
  - intros z (k & m & Hm & <-). exact (readable_own _ _ _ _ _ Hj Hm).
Qed.

Lemma seqZ_snoc n : 0 <= n -> seqZ 1 n ++ [n + 1] = seqZ 1 (n + 1).
Proof.
  intros Hn. rewrite (seqZ_app 1 n 1), (Z.add_comm 1 n) by lia. by rewrite (seqZ_cons _ 1) by lia.
Qed.

Lemma seqZ_at m n i v : 0 <= i -> seqZ m n !! Z.to_nat i = Some v -> v = m + i /\ i < n.
Proof. intros Hi (E & Hlt)%lookup_seqZ. lia. Qed.

Lemma set_port_at b i p p0 : b_ports b !! i = Some p0 -> b_ports (set_port b i p) !! i = Some p.
Proof. intros H. apply list_lookup_insert_eq. by eapply lookup_lt_Some. Qed.

Lemma set_port_other b i p j : j <> i -> b_ports (set_port b i p) !! j = b_ports b !! j.
Proof. intros H. by apply list_lookup_insert_ne. Qed.

(** Each consumer thread agrees with its port. *)
Definition each {R} (K : port -> R -> Prop) (b : board) (rs : list R) : Prop :=
  forall i r, rs !! i = Some r -> exists p0, b_ports b !! i = Some p0 /\ K p0 r.

Lemma each_set {R} K b i p0 p0' (r r' : R) rs :
  each K b rs -> b_ports b !! i = Some p0 -> rs !! i = Some r -> (K p0 r -> K p0' r') ->
  each K (set_port b i p0') (<[i := r']> rs).
Proof.
  intros He Hp0 Hr HK j rj Hj. destruct (decide (j = i)) as [->|Hne].
  - rewrite list_lookup_insert_eq in Hj by (by eapply lookup_lt_Some). injection Hj as <-.
    exists p0'. split; [by eapply set_port_at|]. destruct (He i r Hr) as (p1 & Hp1 & Hok).
    simplify_eq. by apply HK.
  - rewrite list_lookup_insert_ne in Hj by done. destruct (He j rj Hj) as (p1 & Hp1 & Hok).
    exists p1. by rewrite set_port_other.
Qed.

(** ** Model 1: one producer, two consumers *)

Module Fanout.

Definition MESSAGES : Z := 3.

(** [v]: the next message; [a]: the attempts left for it. *)
Inductive producer :=
  | Ready (v : Z) (a : nat) (pushed : Z)
  | Calling (v : Z) (a : nat) (pushed : Z)
  | Done (pushed : Z).

Definition next_message (v pushed : Z) : producer :=
  if v <=? MESSAGES then Ready v ATTEMPTS pushed else Done pushed.

Definition prod (p : producer) (e : event) : option producer :=
  match p, e with
  | Ready v (S a) pushed, PushCall v' => if v' =? v then Some (Calling v a pushed) else None
  | Calling v a pushed, PushRet true => Some (next_message (v + 1) (pushed + 1))
  | Calling v a pushed, PushRet false =>
      Some (match a with O => Done pushed | S _ => Ready v a pushed end)
  | _, _ => None
  end.

Inductive consumer :=
  | Polling (a : nat) (seen : Z)
  | Popping (a : nat) (seen : Z)
  | Panicked.

Definition cons (r : consumer) (e : event) : option consumer :=
  match r, e with
  | Polling (S a) seen, PopCall _ => Some (Popping a seen)
  | Popping a seen, PopRet _ (Some v) =>
      Some (if v =? seen + 1 then Polling a (seen + 1) else Panicked)
  | Popping a seen, PopRet _ None => Some (Polling a seen)
  | _, _ => None
  end.

Definition init : sys producer consumer :=
  mkSys (with_readers LOOM_CAPACITY 2) (next_message 1 0) [Polling ATTEMPTS 0; Polling ATTEMPTS 0].

Definition prod_ok (b : board) (p : producer) : Prop :=
  match p with
  | Ready v a n => b_phase b = Free /\ b_log b = seqZ 1 n /\ v = n + 1 /\ 0 <= n
  | Calling v a n => b_phase b = Pushing v /\ b_log b = seqZ 1 n /\ v = n + 1 /\ 0 <= n
  | Done n => b_phase b = Free /\ b_log b = seqZ 1 n /\ 1 <= n
  end.

Definition cons_ok (p0 : port) (r : consumer) : Prop :=
  p_loans p0 = [] /\
  match r with
  | Polling _ seen => p_phase p0 = Resting /\ p_cursor p0 = seen /\ 0 <= seen
  | Popping _ seen => p_phase p0 = WeakCalls.Popping /\ p_cursor p0 = seen /\ 0 <= seen
  | Panicked => False
  end.

Definition ok (b : board) (p : producer) (rs : list consumer) : Prop :=
  prod_ok b p /\ each cons_ok b rs.

Lemma next_message_ok b v n :
  b_phase b = Free -> b_log b = seqZ 1 n -> v = n + 1 -> 0 <= n -> prod_ok b (next_message v n).
Proof.
  intros Hf Hl -> Hn. unfold next_message. case Z.leb_spec; unfold MESSAGES; intros; split; try done.
  split; [done|lia].
Qed.

Lemma fanout_prod_keeps b e b' p p' rs :
  ok b p rs -> call (Z.of_nat LOOM_CAPACITY) b e b' -> reader_of e = None -> e <> Silent ->
  prod p e = Some p' -> ok b' p' rs.
Proof.
  intros [Hp Hr] Hc He Hne Hs. assert (b_ports b' = b_ports b /\ prod_ok b' p') as [E Hp'].
  - destruct p as [v [|a] n|v a n|n], e; try discriminate Hs; cbn in Hs, Hp, Hc.
    + destruct (Z.eqb_spec v0 v) as [->|]; [|done]. simplify_eq. destruct Hc as [_ ->].
      destruct Hp as (? & ? & ? & ?). done.
    + destruct Hp as (Hph & Hl & -> & Hn), Hc as (v' & Hv & Hc). rewrite Hph in Hv. simplify_eq.
      destruct accepted; [destruct Hc as [-> _]|destruct Hc as [-> Hfull]].
      * simplify_eq. split; [done|]. apply next_message_ok; [done| |done|lia].
        cbn. by rewrite Hl, seqZ_snoc by lia.
      * unfold published_len in Hfull. rewrite Hl, length_seqZ in Hfull.
        unfold LOOM_CAPACITY in Hfull. destruct a; simplify_eq; cbn; split_and!; (done || lia).
  - split; [done|]. unfold each. by rewrite E.
Qed.

Lemma fanout_cons_keeps b e i p0 p0' p rs r r' :
  ok b p rs -> reader_of e = Some i -> b_ports b !! i = Some p0 -> port_call b e i p0 p0' ->
  rs !! i = Some r -> cons r e = Some r' -> ok (set_port b i p0') p (<[i := r']> rs).
Proof.
  intros [Hp Hr] Hi Hp0 Hc Hri Hs. split; [by destruct p|].
  eapply each_set; [done..|]. intros [Hl Hok].
  destruct r as [[|a] seen|a seen|], e; try discriminate Hs; cbn in Hs, Hc.
  - simplify_eq. destruct Hok as (_ & ? & ?), Hc as (_ & ->). done.
  - destruct Hok as (Hph & <- & Hseen). destruct r as [v|].
    + destruct Hc as (_ & Hv & ->). assert (v = p_cursor p0 + 1) as ->.
      { destruct p as [? ? n|? ? n|n]; destruct Hp as (_ & Hlog & Hn); rewrite Hlog in Hv;
          apply seqZ_at in Hv; lia. }
      rewrite Z.eqb_refl in Hs. simplify_eq. split; [done|split; [done|split; [done|lia]]].
    + simplify_eq. by destruct Hc as (_ & _ & ->).
Qed.

Lemma fanout_init_ok : ok (board_of (y_ring init)) (y_prod init) (y_cons init).
Proof.
  split; [done|]. intros [|[|i]] r Hr; try discriminate Hr; injection Hr as <-; eexists;
    (split; [reflexivity|split_and!; vm_compute; (reflexivity || discriminate)]).
Qed.

Lemma fanout_run_ok y :
  rtc (sys_step prod cons) init y -> ok (board_of (y_ring y)) (y_prod y) (y_cons y).
Proof.
  apply sys_invariant; [unfold LOOM_CAPACITY; lia|lia|apply fanout_prod_keeps|apply fanout_cons_keeps|apply fanout_init_ok].
Qed.

Lemma fanout_no_race y : rtc (sys_step prod cons) init y -> w_race (y_ring y) = false.
Proof.
  intros Hy. apply c_race, (reachable_calm LOOM_CAPACITY 2); [unfold LOOM_CAPACITY; lia|lia|].
  eapply (sys_careful prod cons LOOM_CAPACITY 2 ltac:(unfold LOOM_CAPACITY; lia) ltac:(lia) ok);
    [apply fanout_prod_keeps|apply fanout_cons_keeps|apply fanout_init_ok| |exact Hy].
  intros b p rs i r r' j v p0 _ _ Hc. by destruct r as [[|a] seen|a seen|].
Qed.

(** C18: The fan-out program never fails an assertion and never races on a
    slot: in every execution each reader sees 1, 2, 3, ... in order with nothing missing, repeated or torn;
    and once the producer has returned, what the main thread loads from
    [total_written] is the number of pushes it accepted, at least one. *)
Theorem fanout_passes y :
  rtc (sys_step prod cons) init y ->
  Panicked ∉ y_cons y /\ w_race (y_ring y) = false /\
  (forall n, y_prod y = Done n -> w_pc (y_ring y) = PIdle ->
    loom_total_written (y_ring y) n /\ forall z, loom_total_written (y_ring y) z -> z = n /\ 1 <= z).
Proof.
  intros Hy. destruct (fanout_run_ok y Hy) as [Hp Hr]. split_and!.
  - intros (i & Hi)%list_elem_of_lookup. by destruct (Hr i _ Hi) as (p0 & _ & _ & ?).
  - by apply fanout_no_race.
  - intros n E Hpc. rewrite E in Hp. destruct Hp as (_ & Hl & Hn). cbn in Hl.
    destruct (total_is_log 2 _ ltac:(lia) (sys_ring_steps _ _ _ _ Hy) Hpc) as [Hz Hu].
    rewrite Hl, length_seqZ, Z2Nat.id in Hz, Hu by lia. split; [done|]. intros z Hzz. rewrite (Hu z Hzz). lia.
Qed.
(** Both readers receive all three messages. *)
Definition full_acts : list act :=
  push_acts 1 0 [0%nat; 0%nat] ++ push_acts 2 1 [0%nat; 0%nat] ++ pop_acts 0 2 0 ++ pop_acts 0 2 1 ++
  pop_acts 1 1 0 ++ push_acts 3 2 [2%nat; 1%nat] ++ pop_acts 0 3 2 ++ pop_acts 1 3 1 ++ pop_acts 1 3 2.

Lemma fanout_passes_witness :
  let y := sys_run prod cons full_acts init in
  y_prod y = Done 3 /\ y_cons y = [Polling 0 3; Polling 0 3] /\ loom_total_written (y_ring y) 3.
Proof.
  intros y. assert (E : y_prod y = Done 3) by (vm_compute; reflexivity).
  split; [exact E|split; [vm_compute; reflexivity|]].
  destruct (fanout_passes y) as (_ & _ & H); [apply sys_run_reaches; vm_compute; reflexivity|].
  apply (H 3 E). vm_compute. reflexivity.
Defined.
End Fanout.

(** ** Model 2: the backpressure boundary *)

Module Boundary.

(** [Filling v]: the loop that pushes 1 and 2; then the third push. *)
Inductive producer :=
  | Filling (v : Z)
  | FillCall (v : Z)
  | Third
  | ThirdCall
  | Done (third : bool).

Definition prod (p : producer) (e : event) : option producer :=
  match p, e with
  | Filling v, PushCall v' => if v' =? v then Some (FillCall v) else None
  | FillCall v, PushRet true => Some (if v + 1 <=? 2 then Filling (v + 1) else Third)
  | FillCall v, PushRet false => Some (Filling v)
  | Third, PushCall v' => if v' =? 3 then Some ThirdCall else None
  | ThirdCall, PushRet b => Some (Done b)
  | _, _ => None
  end.

Inductive consumer :=
  | Start
  | Popping
  | Popped (r : option Z).

Definition cons (r : consumer) (e : event) : option consumer :=
  match r, e with
  | Start, PopCall _ => Some Popping
  | Popping, PopRet _ r => Some (Popped r)
  | _, _ => None
  end.

(** Two readers participate; one thread pops, as reader 0. *)
Definition init : sys producer consumer :=
  mkSys (with_readers LOOM_CAPACITY 2) (Filling 1) [Start].

(** The assertions made after the joins. *)
Definition passes (third : bool) (popped : option Z) : Prop :=
  (popped = None \/ popped = Some 1) /\ (third = true -> popped = Some 1).

Definition prod_ok (b : board) (p : producer) : Prop :=
  match p with
  | Filling v => b_phase b = Free /\ b_log b = seqZ 1 (v - 1) /\ 1 <= v <= 2
  | FillCall v => b_phase b = Pushing v /\ b_log b = seqZ 1 (v - 1) /\ 1 <= v <= 2
  | Third => b_phase b = Free /\ b_log b = seqZ 1 2
  | ThirdCall => b_phase b = Pushing 3 /\ b_log b = seqZ 1 2
  | Done third => b_phase b = Free /\ b_log b = seqZ 1 2 /\ third = false
  end.

Definition cons_ok (p0 : port) (r : consumer) : Prop :=
  match r with
  | Start | Popping => p_cursor p0 = 0
  | Popped r => r = None \/ r = Some 1
  end.

Definition ok (b : board) (p : producer) (rs : list consumer) : Prop :=
  prod_ok b p /\ (exists p1, b_ports b !! 1%nat = Some p1 /\ p_cursor p1 = 0) /\
  (length rs <= 1)%nat /\ each cons_ok b rs.

Lemma boundary_prod_keeps b e b' p p' rs :
  ok b p rs -> call (Z.of_nat LOOM_CAPACITY) b e b' -> reader_of e = None -> e <> Silent ->
  prod p e = Some p' -> ok b' p' rs.
Proof.
  intros (Hp & H1 & Hlen & Hr) Hc He Hne Hs.
  assert (b_ports b' = b_ports b /\ prod_ok b' p') as [E Hp'];
    [|split; [done|unfold each; by rewrite E]].
  destruct H1 as (p1 & Hp1 & Hcur).
  destruct p as [v|v| | |t], e; try discriminate Hs; cbn in Hs, Hp, Hc.
  - destruct (Z.eqb_spec v0 v) as [->|]; [|done]. simplify_eq.
    by destruct Hp as (_ & ? & ?), Hc as [_ ->].
  - destruct Hp as (Hph & Hl & Hv), Hc as (v' & Hv' & Hc). rewrite Hph in Hv'. simplify_eq.
    destruct accepted; [destruct Hc as [-> _]|destruct Hc as [-> Hfull]]; simplify_eq; [|done].
    replace v' with (v' - 1 + 1) in Hl |- * by lia. split; [done|].
    assert (Hl' : b_log b ++ [v' - 1 + 1] = seqZ 1 v').
    { rewrite Hl. replace (v' - 1 + 1 - 1) with (v' - 1) by lia. rewrite seqZ_snoc by lia. f_equal; lia. }
    case Z.leb_spec; intros Hle; cbn; rewrite Hl'.
    + split; [done|split; [f_equal; lia|lia]].
    + split; [done|f_equal; lia].
  - destruct (Z.eqb_spec v 3) as [->|]; [|done]. simplify_eq.
    by destruct Hp as (_ & ?), Hc as [_ ->].
  - destruct Hp as (Hph & Hl), Hc as (v' & Hv' & Hc). rewrite Hph in Hv'. simplify_eq.
    destruct accepted; [destruct Hc as [-> Hroom]|by destruct Hc as [-> _]].
    specialize (Hroom 1%nat p1 Hp1). unfold published_len, LOOM_CAPACITY in Hroom.
    rewrite Hl, length_seqZ in Hroom. lia.
Qed.

Lemma boundary_cons_keeps b e i p0 p0' p rs r r' :
  ok b p rs -> reader_of e = Some i -> b_ports b !! i = Some p0 -> port_call b e i p0 p0' ->
  rs !! i = Some r -> cons r e = Some r' -> ok (set_port b i p0') p (<[i := r']> rs).
Proof.
  intros (Hp & (p1 & Hp1 & Hcur) & Hlen & Hr) Hi Hp0 Hc Hri Hs. split; [by destruct p|].
  pose proof (lookup_lt_Some _ _ _ Hri).
  split; [exists p1; by rewrite set_port_other by lia|split; [by rewrite length_insert|]].
  eapply each_set; [done..|]. intros Hok.
  destruct r as [| |o], e; try discriminate Hs; cbn in Hs, Hc, Hok; simplify_eq.
  - by destruct Hc as (_ & ->).
  - destruct r as [v|]; [|by left]. right. destruct Hc as (_ & Hv & _). rewrite Hok in Hv.
    assert (exists n, b_log b = seqZ 1 n) as [n E].
    { destruct p; cbn in Hp; [destruct Hp as (_ & E & _); by eexists..| | |];
        [destruct Hp as (_ & E)|destruct Hp as (_ & E)|destruct Hp as (_ & E & _)]; by eexists. }
    rewrite E in Hv. apply seqZ_at in Hv as [-> _]; done.
Qed.

Lemma boundary_init_ok : ok (board_of (y_ring init)) (y_prod init) (y_cons init).
Proof.
  split; [done|split; [by eexists|split; [done|]]].
  intros [|[|i]] r Hr; try discriminate Hr; injection Hr as <-; by eexists.
Qed.

Lemma boundary_run_ok y :
  rtc (sys_step prod cons) init y -> ok (board_of (y_ring y)) (y_prod y) (y_cons y).
Proof.
  apply sys_invariant; [unfold LOOM_CAPACITY; lia|lia|apply boundary_prod_keeps|apply boundary_cons_keeps|apply boundary_init_ok].
Qed.

(** The boundary program never fails an assertion, and never exercises its
    conditional one: the second participating reader never pops, so the third
    push is refused in every execution. *)
Theorem boundary_passes y third popped :
  rtc (sys_step prod cons) init y -> y_prod y = Done third -> y_cons y = [Popped popped] ->
  passes third popped /\ third = false.
Proof.
  intros Hy Ep Ec. destruct (boundary_run_ok y Hy) as (Hp & _ & _ & Hr). rewrite Ep, Ec in *.
  destruct Hp as (_ & _ & ->). destruct (Hr 0%nat _ eq_refl) as (p0 & _ & Hpop). done.
Qed.

Definition full_acts : list act :=
  push_acts 1 0 [0%nat; 0%nat] ++ push_acts 2 1 [0%nat; 0%nat] ++ pop_acts 0 2 0 ++
  [APush 3 2; AProd 1; AProd 0; AProd 0].

Lemma boundary_passes_witness :
  let y := sys_run prod cons full_acts init in
  y_prod y = Done false /\ y_cons y = [Popped (Some 1)] /\ passes false (Some 1).
Proof.
  intros y. split; [vm_compute; reflexivity|split; [vm_compute; reflexivity|]].
  apply (boundary_passes y); [|vm_compute; reflexivity..].
  apply sys_run_reaches. vm_compute. reflexivity.
Defined.
End Boundary.

(** ** Model 3: an open loan pins the cursor *)

Module LoanPin.

Inductive producer :=
  | First | FirstCall | Second | SecondCall
  | Third (a : nat)
  | ThirdCall (a : nat)
  | Done (pushed : bool)
  | Failed.

Definition prod (p : producer) (e : event) : option producer :=
  match p, e with
  | First, PushCall v => if v =? 1 then Some FirstCall else None
  | FirstCall, PushRet b => Some (if b then Second else Failed)
  | Second, PushCall v => if v =? 2 then Some SecondCall else None
  | SecondCall, PushRet b => Some (if b then Third ATTEMPTS else Failed)
  | Third (S a), PushCall v => if v =? 3 then Some (ThirdCall a) else None
  | ThirdCall a, PushRet b =>
      Some (if b then Done true else match a with O => Done false | S _ => Third a end)
  | _, _ => None
  end.

(** [loan] is the claim of index 0, [loan2] the pipelined one, dropped at the
    end of its block. *)
Inductive consumer :=
  | Claim (a : nat)
  | Claiming (a : nat)
  | Look
  | Claim2 | Claiming2
  | Commit2 | Drop2
  | Commit1
  | Consumed
  | Panicked.

Definition cons (r : consumer) (e : event) : option consumer :=
  match r, e with
  | Claim (S a), ClaimCall _ => Some (Claiming a)
  | Claiming a, ClaimRet _ None => Some (Claim a)
  | Claiming a, ClaimRet _ (Some j) => Some (if j =? 0 then Look else Panicked)
  | Look, Value _ j v => if j =? 0 then Some (if v =? 1 then Claim2 else Panicked) else None
  | Claim2, ClaimCall _ => Some Claiming2
  | Claiming2, ClaimRet _ None => Some Commit1
  | Claiming2, ClaimRet _ (Some j) => Some (if j =? 1 then Commit2 else Panicked)
  | Commit2, CommitRet _ j b => if j =? 1 then Some (if b then Panicked else Drop2) else None
  | Drop2, Dropped _ j => if j =? 1 then Some Commit1 else None
  | Commit1, CommitRet _ j b => if j =? 0 then Some (if b then Consumed else Panicked) else None
  | _, _ => None
  end.

Definition init : sys producer consumer := mkSys (with_readers LOOM_CAPACITY 1) First [Claim ATTEMPTS].

Definition prod_ok (b : board) (p : producer) (rs : list consumer) : Prop :=
  match p with
  | First => b_phase b = Free /\ b_log b = seqZ 1 0
  | FirstCall => b_phase b = Pushing 1 /\ b_log b = seqZ 1 0
  | Second => b_phase b = Free /\ b_log b = seqZ 1 1
  | SecondCall => b_phase b = Pushing 2 /\ b_log b = seqZ 1 1
  | Third _ => b_phase b = Free /\ b_log b = seqZ 1 2
  | ThirdCall _ => b_phase b = Pushing 3 /\ b_log b = seqZ 1 2
  | Done true => b_log b = seqZ 1 3 /\ rs = [Consumed]
  | Done false => b_log b = seqZ 1 2
  | Failed => False
  end.

Definition cons_ok (p0 : port) (r : consumer) : Prop :=
  match r with
  | Claim _ => p0 = mkPort Resting 0 0 [] 0
  | Claiming _ => p0 = mkPort WeakCalls.Claiming 0 0 [] 0
  | Look | Claim2 => p0 = mkPort Resting 0 1 [0] 0
  | Claiming2 => p0 = mkPort WeakCalls.Claiming 0 1 [0] 0
  | Commit2 | Drop2 => p0 = mkPort Resting 0 2 [1; 0] 0
  | Commit1 => exists base, p0 = mkPort Resting 0 base [0] 0
  | Consumed => True
  | Panicked => False
  end.

Definition ok (b : board) (p : producer) (rs : list consumer) : Prop :=
  prod_ok b p rs /\ length rs = 1%nat /\ each cons_ok b rs.

Lemma prod_ok_log b p rs : prod_ok b p rs -> exists n, b_log b = seqZ 1 n.
Proof. destruct p as [| | | | | |[]|]; cbn; naive_solver. Qed.

Lemma prod_ok_cons b p p0' i r r' rs :
  prod_ok b p rs -> rs !! i = Some r -> r <> Consumed -> prod_ok (set_port b i p0') p (<[i := r']> rs).
Proof.
  intros Hp Hr Hne. destruct p as [| | | | | |[]|]; try exact Hp.
  destruct Hp as [_ ->]. apply list_lookup_singleton_Some in Hr as [_ <-]. done.
Qed.

(** A pinned cursor refuses the third push. *)
Lemma third_needs_commit b rs :
  b_log b = seqZ 1 2 -> length rs = 1%nat -> each cons_ok b rs ->
  (forall i p, b_ports b !! i = Some p -> published_len b + 1 - 2 <= p_cursor p) -> rs = [Consumed].
Proof.
  intros Hl Hlen Hr Hroom. destruct rs as [|r [|]]; try discriminate Hlen. f_equal.
  destruct (Hr 0%nat r eq_refl) as (p0 & Hp0 & Hok). specialize (Hroom _ _ Hp0).
  unfold published_len in Hroom. rewrite Hl, length_seqZ in Hroom.
  destruct r; cbn in Hok; try done; try (match type of Hok with exists _, _ => destruct Hok as [? Hok] end);
    subst; cbn in Hroom; lia.
Qed.

Lemma loan_pin_prod_keeps b e b' p p' rs :
  ok b p rs -> call (Z.of_nat LOOM_CAPACITY) b e b' -> reader_of e = None -> e <> Silent ->
  prod p e = Some p' -> ok b' p' rs.
Proof.
  intros (Hp & Hlen & Hr) Hc He Hne Hs.
  assert (b_ports b' = b_ports b /\ prod_ok b' p' rs) as [E Hp'];
    [|split; [done|split; [done|unfold each; by rewrite E]]].
  destruct p as [| | | |[|a]|a|t|], e; try discriminate Hs; cbn in Hs, Hp, Hc;
    try (match type of Hs with (if ?x =? ?k then _ else _) = _ =>
      destruct (Z.eqb_spec x k) as [->|]; [|discriminate Hs] end);
    try (destruct Hp as [Hph Hl], Hc as [_ ->]; by simplify_eq);
    destruct Hp as [Hph Hl], Hc as (v' & Hv' & Hc); rewrite Hph in Hv'; injection Hv' as <-;
    destruct accepted; destruct Hc as [-> Hc]; unfold published_len in Hc;
    rewrite ?Hl, ?length_seqZ in Hc; injection Hs as <-; cbn; rewrite ?Hl; try (split; [done|done]).
  - split; [done|split; [done|]]. eapply third_needs_commit; [done..|].
    intros i p Hip. unfold published_len. rewrite Hl, length_seqZ. by apply (Hc i).
  - by destruct a.
Qed.

Lemma loan_pin_cons_keeps b e i p0 p0' p rs r r' :
  ok b p rs -> reader_of e = Some i -> b_ports b !! i = Some p0 -> port_call b e i p0 p0' ->
  rs !! i = Some r -> cons r e = Some r' -> ok (set_port b i p0') p (<[i := r']> rs).
Proof.
  intros (Hp & Hlen & Hr) Hi Hp0 Hc Hri Hs.
  split; [eapply prod_ok_cons; [done..|]; intros ->; discriminate Hs|].
  split; [by rewrite length_insert|]. eapply each_set; [done..|]. intros Hok.
  destruct (prod_ok_log _ _ _ Hp) as [n Hlog].
  destruct r as [[|a]|a| | | | | | | |], e; try discriminate Hs; cbn in Hs, Hc, Hok;
    try (match type of Hok with exists _, _ => destruct Hok as [base Hok] end); subst p0; cbn in Hc.
  - injection Hs as <-. by destruct Hc as (_ & ->).
  - destruct index as [j|]; injection Hs as <-; [|by destruct Hc as (_ & _ & ->)].
    by destruct Hc as (_ & -> & _ & ->).
  - destruct (Z.eqb_spec index 0) as [->|]; [|discriminate Hs]. destruct Hc as (_ & _ & Hv & ->).
    cbn in Hv. specialize (Hv ltac:(done)). rewrite Hlog in Hv. apply seqZ_at in Hv as [-> _]; [|done].
    by injection Hs as <-.
  - injection Hs as <-. by destruct Hc as (_ & ->).
  - destruct index as [j|]; injection Hs as <-; [by destruct Hc as (_ & -> & _ & ->)|].
    destruct Hc as (_ & _ & ->). by eexists.
  - destruct (Z.eqb_spec index 1) as [->|]; [|discriminate Hs]. destruct ok0.
    + by destruct Hc as (_ & ? & _).
    + injection Hs as <-. by destruct Hc as (_ & _ & _ & ->).
  - destruct (Z.eqb_spec index 1) as [->|]; [|discriminate Hs]. injection Hs as <-.
    destruct Hc as (_ & rest & Hrest & ->). apply Permutation_cons_inv, Permutation_length_1_inv in Hrest as ->. by eexists.
  - destruct (Z.eqb_spec index 0) as [->|]; [|discriminate Hs].
    destruct ok0; [by injection Hs as <-|]. by destruct Hc as (_ & _ & ? & _).
Qed.

Lemma loan_pin_init_ok : ok (board_of (y_ring init)) (y_prod init) (y_cons init).
Proof.
  split; [done|split; [done|]].
  intros [|i] r Hr; try discriminate Hr; injection Hr as <-; by eexists.
Qed.

Lemma loan_pin_run_ok y :
  rtc (sys_step prod cons) init y -> ok (board_of (y_ring y)) (y_prod y) (y_cons y).
Proof.
  apply sys_invariant; [unfold LOOM_CAPACITY; lia|lia|apply loan_pin_prod_keeps|apply loan_pin_cons_keeps|apply loan_pin_init_ok].
Qed.

Lemma loan_pin_no_race y : rtc (sys_step prod cons) init y -> w_race (y_ring y) = false.
Proof.
  intros Hy. apply c_race, (reachable_calm LOOM_CAPACITY 1); [unfold LOOM_CAPACITY; lia|lia|].
  eapply (sys_careful prod cons LOOM_CAPACITY 1 ltac:(unfold LOOM_CAPACITY; lia) ltac:(lia) ok);
    [apply loan_pin_prod_keeps|apply loan_pin_cons_keeps|apply loan_pin_init_ok| |exact Hy].
  intros b p rs i r r' j v p0 (_ & _ & Hr) Hri Hc Hp0.
  destruct r as [[|a]|a| | | | | | | |]; try discriminate Hc. cbn in Hc.
  destruct (Z.eqb_spec j 0) as [->|]; [|discriminate Hc].
  destruct (Hr i _ Hri) as (p1 & Hp1 & Hok). cbn in Hok. by simplify_eq.
Qed.

(** C22: The loan program never fails an assertion and never races on a slot: the first two pushes are
    accepted, the first claim views message 1 at index 0, the pipelined one is
    index 1 and cannot be committed before it, the first one can; the third
    push is accepted only after that commit; and once the producer has
    returned, the main thread loads from [total_written] the number of pushes
    accepted, two, or three with the third. *)
Theorem loan_pin_passes y :
  rtc (sys_step prod cons) init y ->
  y_prod y <> Failed /\ Panicked ∉ y_cons y /\ w_race (y_ring y) = false /\
  (y_prod y = Done true -> y_cons y = [Consumed]) /\
  (forall b, y_prod y = Done b -> w_pc (y_ring y) = PIdle ->
    let n := if b then 3 else 2 in
    loom_total_written (y_ring y) n /\ forall z, loom_total_written (y_ring y) z -> z = n /\ 2 <= z).
Proof.
  intros Hy. destruct (loan_pin_run_ok y Hy) as (Hp & _ & Hr). split_and!.
  - intros E. by rewrite E in Hp.
  - intros (i & Hi)%list_elem_of_lookup. by destruct (Hr i _ Hi) as (p0 & _ & ?).
  - by apply loan_pin_no_race.
  - intros E. rewrite E in Hp. by destruct Hp.
  - intros b E Hpc n. destruct (total_is_log 1 _ ltac:(lia) (sys_ring_steps _ _ _ _ Hy) Hpc) as [Hz Hu].
    assert (Hl : Z.of_nat (length (w_log (y_ring y))) = n).
    { rewrite E in Hp. destruct b; [destruct Hp as [Hl _]|rename Hp into Hl]; cbn in Hl; by rewrite Hl. }
    rewrite Hl in Hz, Hu. split; [done|]. intros z Hzz. rewrite (Hu z Hzz). by destruct b.
Qed.

Definition full_acts : list act :=
  push_acts 1 0 [0%nat] ++ push_acts 2 1 [0%nat] ++ [APush 3 2; AProd 0; AProd 0] ++
  [AClaim 0 2; ANext 0 0; ADeref 0 0; AClaim 0 2; ANext 0 0; ACommit 0 1 0; ADrop 0 1 0; ACommit 0 0 0] ++
  push_acts 3 2 [1%nat].

Lemma loan_pin_passes_witness :
  let y := sys_run prod cons full_acts init in
  y_prod y = Done true /\ y_cons y = [Consumed] /\ loom_total_written (y_ring y) 3.
Proof.
  intros y. assert (E : y_prod y = Done true) by (vm_compute; reflexivity).
  destruct (loan_pin_passes y) as (_ & _ & _ & Hc & H); [apply sys_run_reaches; vm_compute; reflexivity|].
  split; [exact E|split; [exact (Hc E)|]]. apply (H true E). vm_compute. reflexivity.
Defined.
End LoanPin.

(** ** Model 4: the notification handshake *)

Module Notified.

Inductive producer := First | FirstCall | Bump | Done | Failed.

Definition prod (p : producer) (e : event) : option producer :=
  match p, e with
  | First, PushCall v => if v =? 1 then Some FirstCall else None
  | FirstCall, PushRet b => Some (if b then Bump else Failed)
  | Bump, Signal => Some Done
  | _, _ => None
  end.

(** [a], [b]: the attempts left in the outer and in the waiting loop. *)
Inductive consumer :=
  | Try (a : nat)
  | Popping (a : nat)
  | Seen (a : nat)
  | Spin (a b seen : nat)
  | Woken
  | WokenPop
  | Got
  | Panicked.

Definition cons (r : consumer) (e : event) : option consumer :=
  match r, e with
  | Try (S a), PopCall _ => Some (Popping a)
  | Popping _, PopRet _ (Some v) => Some (if v =? 1 then Got else Panicked)
  | Popping a, PopRet _ None => Some (Seen a)
  | Seen a, NotifyLoad _ n => Some (Spin a ATTEMPTS n)
  | Spin a (S b) seen, NotifyLoad _ n =>
      Some (if Nat.eqb n seen then match b with O => Try a | S _ => Spin a b seen end else Woken)
  | Woken, PopCall _ => Some WokenPop
  | WokenPop, PopRet _ r => Some (if decide (r = Some 1) then Got else Panicked)
  | _, _ => None
  end.

Definition init : sys producer consumer := mkSys (with_readers LOOM_CAPACITY 1) First [Try ATTEMPTS].

Definition prod_ok (b : board) (p : producer) : Prop :=
  match p with
  | First => b_phase b = Free /\ b_log b = [] /\ b_signals b = [0]
  | FirstCall => b_phase b = Pushing 1 /\ b_log b = [] /\ b_signals b = [0]
  | Bump => b_phase b = Free /\ b_log b = [1] /\ b_signals b = [0]
  | Done => b_phase b = Free /\ b_log b = [1] /\ b_signals b = [0; 1]
  | Failed => False
  end.

Definition cons_ok (p0 : port) (r : consumer) : Prop :=
  match r with
  | Try _ | Seen _ | Popping _ => p_cursor p0 = 0
  | Spin _ _ seen => p_cursor p0 = 0 /\ (seen = O \/ 1 <= p_woken p0)
  | Woken | WokenPop => p_cursor p0 = 0 /\ 1 <= p_woken p0
  | Got => True
  | Panicked => False
  end.

Definition ok (b : board) (p : producer) (rs : list consumer) : Prop := prod_ok b p /\ each cons_ok b rs.

Lemma notified_prod_keeps b e b' p p' rs :
  ok b p rs -> call (Z.of_nat LOOM_CAPACITY) b e b' -> reader_of e = None -> e <> Silent ->
  prod p e = Some p' -> ok b' p' rs.
Proof.
  intros (Hp & Hr) Hc He Hne Hs.
  assert (b_ports b' = b_ports b /\ prod_ok b' p') as [E Hp'];
    [|split; [done|unfold each; by rewrite E]].
  destruct p, e; try discriminate Hs; cbn in Hs, Hp, Hc; destruct Hp as (Hph & Hl & Hsig).
  - destruct (Z.eqb_spec v 1) as [->|]; [|discriminate Hs]. injection Hs as <-. by destruct Hc as [_ ->].
  - destruct Hc as (v' & Hv' & Hc). rewrite Hph in Hv'. injection Hv' as <-.
    destruct accepted; destruct Hc as [-> Hc]; injection Hs as <-; cbn; rewrite ?Hl; [done|].
    unfold published_len in Hc. by rewrite Hl in Hc.
  - injection Hs as <-. destruct Hc as [_ ->]. unfold published_len; cbn. by rewrite Hl, Hsig.
Qed.

Lemma signal_after_publish b p n z :
  prod_ok b p -> b_signals b !! n = Some z -> n = O \/ 1 <= z.
Proof.
  intros Hp Hz. assert (E : b_signals b = [0] \/ b_signals b = [0; 1])
    by (destruct p; cbn in Hp; naive_solver).
  destruct n as [|n]; [by left|right].
  destruct E as [E|E]; rewrite E in Hz; destruct n; cbn in Hz; simplify_eq; done.
Qed.

Lemma first_record b p v : prod_ok b p -> b_log b !! Z.to_nat 0 = Some v -> v = 1.
Proof.
  intros Hp Hv. assert (E : b_log b = [] \/ b_log b = [1]) by (destruct p; cbn in Hp; naive_solver).
  destruct E as [E|E]; rewrite E in Hv; by inversion Hv.
Qed.

Lemma notified_cons_keeps b e i p0 p0' p rs r r' :
  ok b p rs -> reader_of e = Some i -> b_ports b !! i = Some p0 -> port_call b e i p0 p0' ->
  rs !! i = Some r -> cons r e = Some r' -> ok (set_port b i p0') p (<[i := r']> rs).
Proof.
  intros (Hp & Hr) Hi Hp0 Hc Hri Hs. split; [by destruct p|]. eapply each_set; [done..|]. intros Hok.
  destruct r as [[|a]|a|a|a [|b'] seen| | | |], e; try discriminate Hs; cbn in Hs, Hc, Hok.
  - injection Hs as <-. by destruct Hc as (_ & ->).
  - destruct r as [v|]; injection Hs as <-.
    + destruct Hc as (_ & Hv & _). rewrite Hok in Hv. by rewrite (first_record b p v Hp Hv).
    + by destruct Hc as (_ & _ & ->).
  - injection Hs as <-. destruct Hc as (_ & z & Hz & ->). split; [done|].
    destruct (signal_after_publish b p n z Hp Hz); [by left|right; cbn; lia].
  - destruct Hok as [Hcur Hseen], Hc as (_ & z & Hz & ->).
    pose proof (signal_after_publish b p n z Hp Hz) as Hn.
    destruct (Nat.eqb_spec n seen) as [->|Hne]; injection Hs as <-.
    + destruct b'; [done|]. split; [done|]. destruct Hseen; [by left|right; cbn; lia].
    + split; [done|]. cbn. destruct Hn; [|lia]. destruct Hseen; lia.
  - injection Hs as <-. by destruct Hc as (_ & ->).
  - injection Hs as <-. destruct Hok as [Hcur Hw]. destruct r as [v|]; destruct Hc as (_ & Hv & _).
    + rewrite Hcur in Hv. rewrite (first_record b p v Hp Hv). by rewrite decide_True.
    + lia.
Qed.

Lemma notified_init_ok : ok (board_of (y_ring init)) (y_prod init) (y_cons init).
Proof.
  split; [done|]. intros [|i] r Hr; try discriminate Hr; injection Hr as <-; by eexists.
Qed.

Lemma notified_run_ok y :
  rtc (sys_step prod cons) init y -> ok (board_of (y_ring y)) (y_prod y) (y_cons y).
Proof.
  apply sys_invariant; [unfold LOOM_CAPACITY; lia|lia|apply notified_prod_keeps|apply notified_cons_keeps|apply notified_init_ok].
Qed.

(** The notification program never fails an assertion: the push into the
    fresh ring is accepted, and a consumer that sees the counter move finds
    message 1 at its next pop, in every execution. *)
Theorem notified_passes y :
  rtc (sys_step prod cons) init y -> y_prod y <> Failed /\ Panicked ∉ y_cons y.
Proof.
  intros Hy. destruct (notified_run_ok y Hy) as (Hp & Hr). split.
  - intros E. by rewrite E in Hp.
  - intros (i & Hi)%list_elem_of_lookup. by destruct (Hr i _ Hi) as (p0 & _ & ?).
Qed.

(** The consumer finds the ring empty, waits, and is woken. *)
Definition full_acts : list act :=
  [APop 0 0; ANext 0 0; ANext 0 0; ANotify 0 0; ANotify 0 0] ++ push_acts 1 0 [0%nat] ++
  [ASignal; ANotify 0 1] ++ pop_acts 0 1 0.

Lemma notified_passes_witness :
  let y := sys_run prod cons full_acts init in
  y_prod y = Done /\ y_cons y = [Got] /\ Panicked ∉ y_cons y.
Proof.
  intros y. split; [vm_compute; reflexivity|split; [vm_compute; reflexivity|]].
  apply notified_passes, sys_run_reaches. vm_compute. reflexivity.
Defined.
End Notified.
