(* ===== verification/WeakProgress.v ===== *)
(** WeakProgress: calls of the ring return.

    No call of the release/acquire machine waits for another thread: inside a
    call a thread can always move, and each of its moves brings the return
    closer.  From this, single calls run alone to their return, and a push to
    readers that have caught up is accepted. *)

From S2P Require Import Prelude.
From S2P Require Import Weak.
From S2P Require Import WeakInv.
From S2P Require Import WeakSteps.
From S2P Require Import WeakExec.
From S2P Require Import WeakProps.
From stdpp Require Import relations.
Set Default Goal Selector "!".
Open Scope Z_scope.

(** ** Moves left *)

(** The moves the producer has left in its call: a load per cursor not yet
    scanned, the comparison, the slot write, the publish and the count. *)
Definition moves_left (s : weak) : nat :=
  match w_pc s with
  | PIdle => 0
  | PScan _ _ i _ => (length (w_readers s) - i) + 4
  | PLag _ i _ => (length (w_readers s) - i) + 1
  | PWrite _ _ => 3
  | PStore _ _ => 2
  | PCount => 1
  end.

Definition reader_moves_left (rd : reader) : nat :=
  match r_pc rd with
  | RIdle => 0
  | RGotW _ => 3
  | RGot _ _ => 2
  | RBump _ _ | LGotW _ | NGotW _ => 1
  end.

(** ** A thread can always move *)

(** The newest message may always be loaded. *)
Lemma newest_readable t C D h :
  hist_ok t h D -> exists k m, readable t C h k m /\ m_val m = last_idx h.
Proof.
  intros Hh. pose proof (h_nonempty _ _ _ Hh) as Hp. unfold last_idx in *.
  destruct (lookup_lt_is_Some_2 h (length h - 1)) as [m Hm]; [lia|].
  exists (length h - 1)%nat, m. rewrite (h_val _ _ _ Hh _ _ Hm). split; [|lia].
  split; [done|]. intros k' m' Hk' Hm'%lookup_lt_Some. lia.
Qed.

Lemma newest_widx s C : inv s -> exists k m, readable 0 C (w_hist s) k m /\ m_val m = widx s.
Proof. intros I. eapply newest_readable, I. Qed.

Lemma newest_cursor s C i rd :
  inv s -> w_readers s !! i = Some rd ->
  exists k m, readable (S i) C (r_hist rd) k m /\ m_val m = cursor rd.
Proof. intros I Hr. destruct (i_reader _ I i rd Hr) as [Ho _]. eapply newest_readable, Ho. Qed.

Lemma slot_exists s j : inv s -> exists c, w_cells s !! slot s j = Some c.
Proof.
  intros I. apply lookup_lt_is_Some_2. pose proof (i_cap _ I) as Hc. unfold slot, cap in *.
  pose proof (Z.mod_pos_bound j (Z.of_nat (length (w_cells s))) Hc). lia.
Qed.

(** The scan stays within the readers. *)
Definition scan_in_range (s : weak) : Prop :=
  match w_pc s with PScan _ _ i _ | PLag _ i _ => (i <= length (w_readers s))%nat | _ => True end.

Lemma scan_in_range_step s s' : scan_in_range s -> step s s' -> scan_in_range s'.
Proof.
  intros Hs [e He]. unfold scan_in_range in *.
  destruct He; cbn; rewrite ?length_insert; try done; try lia;
    match goal with H : w_readers _ !! _ = Some _ |- _ => by apply lookup_lt_Some in H end.
Qed.

Lemma reachable_in_range capacity n s : rtc step (with_readers capacity n) s -> scan_in_range s.
Proof.
  intros Hs. assert (H0 : scan_in_range (with_readers capacity n)) by done.
  induction Hs; [done|]. eauto using scan_in_range_step.
Qed.

Lemma producer_moves s :
  inv s -> scan_in_range s -> w_pc s <> PIdle -> exists e s', lstep s e s' /\ w_pc s' <> w_pc s.
Proof.
  intros I Hi Hpc. unfold scan_in_range in Hi.
  destruct (w_pc s) as [|w v i lo|w i lo|w v|w v|] eqn:E; [done| | | | |].
  - destruct (decide (i = length (w_readers s))) as [->|Hne].
    + destruct (Z.lt_ge_cases (w - lo) (cap s)) as [Hlt|Hge].
      * eexists _, _. split; [by eapply p_room|done].
      * eexists _, _. split; [by eapply p_full|done].
    + destruct (lookup_lt_is_Some_2 (w_readers s) i) as [rd Hr]; [lia|].
      destruct (newest_cursor s (w_view s) i rd I Hr) as (k & m & Hm & _).
      eexists _, _. split; [by eapply p_scan|]. intros [= E']; lia.
  - destruct (decide (i = length (w_readers s))) as [->|Hne].
    + eexists _, _. split; [by eapply p_lag|done].
    + destruct (lookup_lt_is_Some_2 (w_readers s) i) as [rd Hr]; [lia|].
      destruct (newest_cursor s (w_view s) i rd I Hr) as (k & m & Hm & _).
      eexists _, _. split; [by eapply p_lag_scan|]. intros [= E']; lia.
  - destruct (slot_exists s w I) as [c Hc].
    eexists _, _. split; [by eapply p_write|done].
  - eexists _, _. split; [by eapply p_store|done].
  - eexists _, _. split; [by eapply p_count|done].
Qed.

Lemma reader_moves s i rd :
  inv s -> w_readers s !! i = Some rd -> r_pc rd <> RIdle ->
  exists e s' rd', lstep s e s' /\ w_readers s' !! i = Some rd' /\ r_pc rd' <> r_pc rd.
Proof.
  intros I Hr Hpc.
  assert (Hat : forall x, <[i := x]> (w_readers s) !! i = Some x)
    by (intros; eapply list_lookup_insert_eq, lookup_lt_Some, Hr).
  destruct (newest_cursor s (r_view rd) i rd I Hr) as (k & m & Hm & _).
  destruct (r_pc rd) as [|w|w r|r v|w|w] eqn:E; [done|..].
  - eexists _, _, _. split; [by eapply r_cursor|]. split; [apply Hat|done].
  - destruct (decide (r = w)) as [->|Hne].
    + eexists _, _, _. split; [by eapply r_empty|]. split; [apply Hat|done].
    + destruct (slot_exists s r I) as (c & Hc).
      eexists _, _, _. split; [by eapply r_read|]. split; [apply Hat|done].
  - eexists _, _, _. split; [by eapply r_bump|]. split; [apply Hat|done].
  - destruct (Z.le_gt_cases w (Z.max (r_base rd) (m_val m))).
    + eexists _, _, _. split; [by eapply l_none|]. split; [apply Hat|done].
    + eexists _, _, _. split; [by eapply l_claim|]. split; [apply Hat|done].
  - eexists _, _, _. split; [by eapply n_len|]. split; [apply Hat|done].
Qed.

(** ** Every move brings the return closer *)

Lemma producer_spends s s' :
  scan_in_range s' -> step s s' ->
  w_pc s' = w_pc s \/ w_pc s = PIdle \/ (moves_left s' < moves_left s)%nat.
Proof.
  intros Hi [e He]. unfold moves_left, scan_in_range in *.
  destruct He; cbn in *; rewrite ?length_insert in *; try (by left);
    match goal with H : w_pc _ = _ |- _ => rewrite H end; (by right; left) || (right; right; lia).
Qed.

Lemma reader_spends s s' i rd rd' :
  step s s' -> w_readers s !! i = Some rd -> w_readers s' !! i = Some rd' ->
  r_pc rd' = r_pc rd \/ r_pc rd = RIdle \/ (reader_moves_left rd' < reader_moves_left rd)%nat.
Proof.
  intros [e He] Hr Hr'. unfold reader_moves_left.
  destruct He; cbn in Hr'; try (left; by simplify_eq);
    match type of Hr' with <[?k := _]> _ !! _ = _ =>
      destruct (decide (k = i)) as [->|Hne];
        [rewrite list_lookup_insert_eq in Hr' by (by eapply lookup_lt_Some)
        |rewrite list_lookup_insert_ne in Hr' by done; left; by simplify_eq] end;
    simplify_eq; cbn;
    match goal with H : r_pc _ = _ |- _ => rewrite H end; (by right; left) || (right; right; lia).
Qed.

Lemma moves_left_bound s : (moves_left s <= length (w_readers s) + 4)%nat.
Proof. unfold moves_left. destruct (w_pc s); lia. Qed.

Lemma reader_moves_left_bound rd : (reader_moves_left rd <= 3)%nat.
Proof. unfold reader_moves_left. destruct (r_pc rd); lia. Qed.

(** C10: The calls are wait-free: whatever the other threads are in the middle
    of, a thread inside a call can move; each of its moves leaves strictly
    fewer of a budget (a load per reader and four more steps for the
    producer, the comparison among them, three accesses for a reader); and no move of another thread
    takes that back. *)
Theorem calls_wait_free (capacity num_readers : nat) s :
  (0 < capacity)%nat -> (0 < num_readers)%nat -> rtc step (with_readers capacity num_readers) s ->
  (w_pc s <> PIdle -> exists s', step s s' /\ w_pc s' <> w_pc s) /\
  (moves_left s <= num_readers + 4)%nat /\
  (forall s', step s s' -> w_pc s' = w_pc s \/ w_pc s = PIdle \/ (moves_left s' < moves_left s)%nat) /\
  forall i rd, w_readers s !! i = Some rd ->
    (r_pc rd <> RIdle ->
      exists s' rd', step s s' /\ w_readers s' !! i = Some rd' /\ r_pc rd' <> r_pc rd) /\
    (reader_moves_left rd <= 3)%nat /\
    (forall s' rd', step s s' -> w_readers s' !! i = Some rd' ->
      r_pc rd' = r_pc rd \/ r_pc rd = RIdle \/ (reader_moves_left rd' < reader_moves_left rd)%nat).
Proof.
  intros Hc Hn Hs. pose proof (reachable_inv _ _ _ Hc Hn Hs) as I.
  pose proof (reachable_in_range _ _ _ Hs) as Hi. destruct (reachable_shape _ _ _ Hs) as [_ El].
  split_and!.
  - intros Hpc. destruct (producer_moves s I Hi Hpc) as (e & s' & He & Hne). exists s'.
    split; [by exists e|done].
  - rewrite <- El. apply moves_left_bound.
  - intros s' Hstep. apply producer_spends; [|done]. by eapply scan_in_range_step.
  - intros i rd Hr. split_and!; [|apply reader_moves_left_bound|].
    + intros Hpc. destruct (reader_moves s i rd I Hr Hpc) as (e & s' & rd' & He & Hr' & Hne).
      exists s', rd'. split; [by exists e|done].
    + intros s' rd' Hstep Hr'. by eapply reader_spends.
Qed.

Lemma calls_wait_free_witness : exists s' rd',
  step popping_ring s' /\ w_readers s' !! 0%nat = Some rd' /\ (reader_moves_left rd' < 3)%nat.
Proof.
  destruct (calls_wait_free 1 1 popping_ring ltac:(lia) ltac:(lia) popping_ring_reachable)
    as (_ & _ & _ & Hr).
  destruct (w_readers popping_ring !! 0%nat) as [rd|] eqn:E; [|vm_compute in E; discriminate].
  destruct (Hr 0%nat rd E) as (Hm & Hb & Hsp).
  assert (Hpc : r_pc rd <> RIdle) by (vm_compute in E; injection E as <-; discriminate).
  destruct (Hm Hpc) as (s' & rd' & Hs & Hr' & Hne). exists s', rd'.
  split; [exact Hs|split; [exact Hr'|]].
  destruct (Hsp s' rd' Hs Hr') as [|[|]]; [contradiction|contradiction|lia].
Defined.

(** ** Calls run alone to their return *)

Definition silent (s s' : weak) : Prop := lstep s Silent s'.

Lemma silent_inv s s' : inv s -> rtc silent s s' -> inv s'.
Proof. intros I Hs. induction Hs; [done|]. apply IHHs. by eapply lstep_inv. Qed.

Lemma silent_then s s1 P : lstep s Silent s1 -> (exists s2, rtc silent s1 s2 /\ P s2) ->
  exists s2, rtc silent s s2 /\ P s2.
Proof. intros H (s2 & Hs & HP). exists s2. split; [by eapply rtc_l|done]. Qed.

Lemma with_reader_at s i rd x : w_readers s !! i = Some rd -> <[i := x]> (w_readers s) !! i = Some x.
Proof. intros. by eapply list_lookup_insert_eq, lookup_lt_Some. Qed.

Lemma pop_returns_got s i rd w r :
  inv s -> w_readers s !! i = Some rd -> r_pc rd = RGot w r ->
  exists s1, rtc silent s s1 /\ exists s2 x, lstep s1 (PopRet i x) s2.
Proof.
  intros I Hr E. destruct (decide (r = w)) as [->|Hne].
  - exists s. split; [done|]. eexists _, _. by eapply r_empty.
  - destruct (slot_exists s r I) as (c & Hc).
    eapply silent_then; [by eapply r_read|]. eexists. split; [done|].
    eexists _, _. eapply r_bump; [by eapply with_reader_at|done].
Qed.

(** A pop in progress returns. *)
Lemma pop_returns s i rd :
  inv s -> w_readers s !! i = Some rd -> popping (r_pc rd) = true ->
  exists s1, rtc silent s s1 /\ exists s2 x, lstep s1 (PopRet i x) s2.
Proof.
  intros I Hr Hp. destruct (r_pc rd) as [|w|w r|r v|w|w] eqn:E; try discriminate Hp.
  - destruct (newest_cursor s (r_view rd) i rd I Hr) as (k & m & Hm & _).
    assert (Hl : lstep s Silent _) by (by eapply r_cursor).
    eapply silent_then; [exact Hl|]. eapply pop_returns_got; [by eapply lstep_inv|by eapply with_reader_at|done].
  - by eapply pop_returns_got.
  - exists s. split; [done|]. eexists _, _. by eapply r_bump.
Qed.

(** The scan, with every load the newest: the minimum it finds is not below
    any bound on the cursors. *)
Lemma scan_newest s w v i lo z :
  inv s -> scan_in_range s -> w_pc s = PScan w v i lo -> z <= lo ->
  (forall j rd, w_readers s !! j = Some rd -> z <= cursor rd) ->
  exists s1, rtc silent s s1 /\ exists lo', w_pc s1 = PScan w v (length (w_readers s1)) lo' /\
    z <= lo' /\ cap s1 = cap s.
Proof.
  intros I Hi E Hlo Hz. unfold scan_in_range in Hi. rewrite E in Hi.
  remember (length (w_readers s) - i)%nat as n eqn:En. revert s i lo I Hi E Hlo Hz En.
  induction n as [|n IH]; intros s i lo I Hi E Hlo Hz En.
  - exists s. split; [done|]. exists lo. split; [|done]. rewrite E. f_equal. lia.
  - destruct (lookup_lt_is_Some_2 (w_readers s) i) as [rd Hr]; [lia|].
    destruct (newest_cursor s (w_view s) i rd I Hr) as (k & m & Hm & Ev).
    assert (Hl : lstep s Silent _) by (by eapply p_scan). eapply silent_then; [exact Hl|].
    pose proof (Hz i rd Hr).
    apply (IH _ (S i) (Z.min lo (m_val m)) (lstep_inv _ _ _ I Hl)); cbn; (done || lia).
Qed.

Lemma push_stores s w v :
  inv s -> w_pc s = PWrite w v ->
  exists s1, rtc silent s s1 /\ exists s2, lstep s1 (PushRet true) s2.
Proof.
  intros I E. destruct (slot_exists s w I) as [c Hc].
  eapply silent_then; [by eapply p_write|].
  eexists. split; [done|]. eexists. by eapply p_store.
Qed.

Lemma push_decides s w v lo :
  inv s -> w_pc s = PScan w v (length (w_readers s)) lo ->
  exists s1, rtc silent s s1 /\ exists s2 b, lstep s1 (PushRet b) s2 /\ (w - lo < cap s -> b = true).
Proof.
  intros I E. destruct (Z.lt_ge_cases (w - lo) (cap s)) as [Hlt|Hge].
  - assert (Hl : lstep s Silent _) by (by eapply p_room). eapply silent_then; [exact Hl|].
    destruct (push_stores _ w v (lstep_inv _ _ _ I Hl) eq_refl) as (s1 & Hs & s2 & H).
    exists s1. split; [done|]. by exists s2, true.
  - exists s. split; [done|]. eexists _, false. split; [by eapply p_full|lia].
Qed.

(** A push in progress returns. *)
Lemma push_returns s :
  inv s -> scan_in_range s ->
  match w_pc s with PScan _ _ _ _ | PWrite _ _ | PStore _ _ => true | _ => false end = true ->
  exists s1, rtc silent s s1 /\ exists s2 b, lstep s1 (PushRet b) s2.
Proof.
  intros I Hi Hp. destruct (w_pc s) as [|w v i lo|w i lo|w v|w v|] eqn:E; try discriminate Hp.
  - destruct (scan_newest s w v i lo (Z.min lo 0)) as (s1 & Hs & lo' & E1 & _); try done; try lia.
    { intros j rd Hr. pose proof (cursor_bound _ _ _ I Hr). lia. }
    destruct (push_decides s1 w v lo' (silent_inv _ _ I Hs) E1) as (s2 & Hs' & s3 & b & H & _).
    exists s2. split; [by etrans|eauto].
  - destruct (push_stores s w v I E) as (s1 & Hs & s2 & H). eauto.
  - exists s. split; [done|]. eexists _, _. by eapply p_store.
Qed.

(** A push that has been settled is counted. *)
Lemma push_tallied s :
  match w_pc s with PIdle | PCount => true | _ => false end = true ->
  exists s1, rtc silent s s1 /\ w_pc s1 = PIdle.
Proof.
  destruct (w_pc s) eqn:E; intros; try done; [by exists s|].
  exists (count_push s). split; [by apply rtc_once, p_count|done].
Qed.

(** A push to readers that have all caught up is accepted. *)
Lemma push_accepted s v :
  inv s -> w_pc s = PIdle -> widx s < 2 ^ 64 ->
  (forall i rd, w_readers s !! i = Some rd -> cursor rd = widx s) ->
  exists s1 s2 s3, lstep s (PushCall v) s1 /\ rtc silent s1 s2 /\ lstep s2 (PushRet true) s3.
Proof.
  intros I E Hw Hcur. destruct (newest_widx s (w_view s) I) as (k & m & Hm & Ev).
  assert (Hl : lstep s (PushCall v) (with_producer s (PScan (m_val m) v 0 u64_max) (w_view s)))
    by (by apply (p_load s v k m)).
  set (s0 := with_producer s _ _) in Hl. pose proof (lstep_inv _ _ _ I Hl) as I0.
  destruct (scan_newest s0 (m_val m) v 0 u64_max (widx s)) as (s1 & Hs & lo' & E1 & Hlo & Ec);
    [done|cbn; lia|done|unfold u64_max; lia| |].
  { intros j rd Hr. rewrite (Hcur j rd Hr). done. }
  destruct (push_decides s1 (m_val m) v lo' (silent_inv _ _ I0 Hs) E1) as (s2 & Hs' & s3 & b & H & Hb).
  exists s0, s2, s3. split; [done|]. split; [by etrans|].
  rewrite Hb in H; [done|]. pose proof (i_cap _ I0). lia.
Qed.

(** A pop that loads the newest [write_idx] with a record unread takes it. *)
Lemma pop_delivers s i rd :
  inv s -> w_readers s !! i = Some rd -> r_pc rd = RIdle -> cursor rd < widx s ->
  exists s1 s2 s3 v, lstep s (PopCall i) s1 /\ rtc silent s1 s2 /\ lstep s2 (PopRet i (Some v)) s3.
Proof.
  intros I Hr Hpc Hlt. destruct (newest_widx s (r_view rd) I) as (k & m & Hm & Ev).
  assert (H1 : lstep s (PopCall i) (with_reader s i (at_pc rd (RGotW (m_val m)) (clock_join (r_view rd) (m_view m)))))
    by (by apply (r_load s i rd k m)).
  pose proof (lstep_inv _ _ _ I H1) as I1. remember (with_reader _ _ _) as s1 eqn:Es1.
  set (rd1 := at_pc _ _ _) in Es1.
  assert (Hr1 : w_readers s1 !! i = Some rd1) by (subst s1; by eapply with_reader_at).
  destruct (newest_cursor s1 (r_view rd1) i rd1 I1 Hr1) as (k' & m' & Hm' & Ev').
  assert (H2 : lstep s1 Silent (with_reader s1 i (at_pc rd1 (RGot (m_val m) (m_val m')) (clock_join (r_view rd1) (m_view m')))))
    by (by apply (r_cursor s1 i rd1 (m_val m) k' m')).
  pose proof (lstep_inv _ _ _ I1 H2) as I2. set (s2 := with_reader s1 _ _) in *. set (rd2 := at_pc rd1 _ _) in *.
  assert (Hr2 : w_readers s2 !! i = Some rd2) by (by eapply with_reader_at).
  assert (Hne : m_val m' <> m_val m).
  { rewrite Ev, Ev'. change (cursor rd1) with (cursor rd). lia. }
  destruct (slot_exists s2 (m_val m') I2) as (c & Hc).
  eexists s1, _, _, _. split; [exact H1|]. split.
  - eapply rtc_l; [exact H2|]. apply rtc_once. by eapply r_read.
  - eapply r_bump; [by eapply with_reader_at|done].
Qed.
