(* ===== verification/Wakeup.v ===== *)
(** Wakeup: [push_notified] and [pop_blocking] of [src/src/notify.rs] at the
    granularity of single accesses.

    The producer pushes a list of messages with [push_notified], each until it
    is accepted; one reader takes them with [pop_blocking] and is the only
    thread that waits on the descriptor; the other readers poll with [try_pop].
    The descriptor's counter is the notify word of [Weak]: a unit per [signal],
    and a [wait] that has already consumed [c_drained] units returns once it
    sees more than that (a read of an eventfd takes all units, so the real one
    sees the newest count, which is among those the word may return).  The
    programs run over the release/acquire machine and are verified against the
    contract of [WeakCalls]. *)

From S2P Require Import Prelude.
From S2P Require Import Weak.
From S2P Require Import WeakInv.
From S2P Require Import WeakSteps.
From S2P Require Import WeakExec.
From S2P Require Import WeakCalls.
From S2P Require Import Client.
From S2P Require Import Loom.
From S2P Require Import WeakProgress.
From stdpp Require Import relations.
Set Default Goal Selector "!".
Open Scope Z_scope.

(** ** The programs *)

(** The producer: about to push the head of its list, inside [try_push], or
    past an accepted one and about to [signal]. *)
Inductive sender :=
  | Sending (todo : list Z)
  | InPush (v : Z) (todo : list Z)
  | ToSignal (todo : list Z).

Definition push_loop (p : sender) (e : event) : option sender :=
  match p, e with
  | Sending (v :: todo), PushCall v' => if v' =? v then Some (InPush v todo) else None
  | InPush v todo, PushRet true => Some (ToSignal todo)
  | InPush v todo, PushRet false => Some (Sending (v :: todo))
  | ToSignal todo, Signal => Some (Sending todo)
  | _, _ => None
  end.

(** A reader: about to call [try_pop], inside it, or in [wait]. *)
Inductive place := AtCheck | AtTake | AtWait.

#[export] Instance place_eq_dec : EqDecision place.
Proof. solve_decision. Defined.

Record receiver := mkReceiver {
  c_blocking : bool;
  c_at : place;
  c_drained : nat;
  c_got : list Z;
}.

Definition going (r : receiver) (a : place) : receiver :=
  mkReceiver (c_blocking r) a (c_drained r) (c_got r).

Definition pop_loop (r : receiver) (e : event) : option receiver :=
  match c_at r, e with
  | AtCheck, PopCall _ => Some (going r AtTake)
  | AtTake, PopRet _ (Some v) =>
      Some (mkReceiver (c_blocking r) AtCheck (c_drained r) (c_got r ++ [v]))
  | AtTake, PopRet _ None => Some (going r (if c_blocking r then AtWait else AtCheck))
  | AtWait, NotifyLoad _ n =>
      if Nat.ltb (c_drained r) n then Some (mkReceiver (c_blocking r) AtCheck n (c_got r)) else None
  | _, _ => None
  end.

(** Reader 0 blocks, the others poll. *)
Definition receivers (num_readers : nat) : list receiver :=
  mkReceiver true AtCheck 0 [] :: replicate (pred num_readers) (mkReceiver false AtCheck 0 []).

Definition pipeline (capacity num_readers : nat) (msgs : list Z) : sys sender receiver :=
  mkSys (with_readers capacity num_readers) (Sending msgs) (receivers num_readers).

(** Messages not yet published. *)
Definition unsent (p : sender) : list Z :=
  match p with Sending todo | ToSignal todo => todo | InPush v todo => v :: todo end.

(** ** Invariant *)

Section invariant.
Context (msgs : list Z).

(** Signal [n] follows the publish of record [n]. *)
Definition sender_ok (b : board) (p : sender) : Prop :=
  b_log b ++ unsent p = msgs /\
  b_phase b = (match p with InPush v _ => Pushing v | _ => Free end) /\
  b_signals b = seqZ 0 (published_len b + match p with ToSignal _ => 0 | _ => 1 end).

Definition receiver_ok (log : list Z) (p0 : port) (r : receiver) : Prop :=
  p_loans p0 = [] /\ p_phase p0 = (match c_at r with AtTake => Popping | _ => Resting end) /\
  p_cursor p0 = Z.of_nat (length (c_got r)) /\ p_woken p0 = Z.of_nat (c_drained r) /\
  c_got r `prefix_of` log /\
  (c_at r = AtWait -> c_blocking r = true /\ (c_drained r <= length (c_got r))%nat).

Definition flow_ok (b : board) (p : sender) (rs : list receiver) : Prop :=
  sender_ok b p /\ each (receiver_ok (b_log b)) b rs.

Lemma receiver_ok_grows log log' p0 r : log `prefix_of` log' -> receiver_ok log p0 r -> receiver_ok log' p0 r.
Proof. intros Hl (? & ? & ? & ? & Hg & ?). split_and!; try done. by etrans. Qed.

Lemma push_loop_keeps capacity b e b' p p' rs :
  flow_ok b p rs -> call capacity b e b' -> reader_of e = None -> e <> Silent ->
  push_loop p e = Some p' -> flow_ok b' p' rs.
Proof.
  intros [(Hm & Hph & Hs) Hr] Hc _ _ Hp.
  assert (E : b_ports b' = b_ports b /\ b_log b `prefix_of` b_log b' /\ sender_ok b' p').
  - destruct p as [[|v todo]|v todo|todo], e; try discriminate Hp; cbn in Hp, Hc, Hm, Hph, Hs.
    + destruct (Z.eqb_spec v0 v) as [->|]; [|done]. simplify_eq. destruct Hc as [_ ->]. done.
    + destruct Hc as (v' & Hv & Hc). rewrite Hph in Hv. simplify_eq.
      destruct accepted; simplify_eq; [destruct Hc as [-> _]|by destruct Hc as [-> _]].
      split; [done|split; [by apply prefix_app_r|]]. split_and!; cbn.
      * by rewrite <- app_assoc.
      * done.
      * rewrite Hs. unfold published_len; cbn. rewrite length_app; simpl. f_equal. lia.
    + simplify_eq. destruct Hc as [_ ->]. split; [done|split; [done|]]. split_and!; [done..|].
      cbn. unfold published_len in *; cbn. rewrite Hs, Z.add_0_r, (seqZ_app 0 _ 1) by lia. done.
  - destruct E as (Eb & Hl & Hp'). split; [done|]. intros i r Hi.
    destruct (Hr i r Hi) as (p0 & Hp0 & Hok). exists p0. rewrite Eb. split; [done|].
    by eapply receiver_ok_grows.
Qed.

Lemma pop_loop_keeps b e i p0 p0' p rs r r' :
  flow_ok b p rs -> reader_of e = Some i -> b_ports b !! i = Some p0 -> port_call b e i p0 p0' ->
  rs !! i = Some r -> pop_loop r e = Some r' -> flow_ok (set_port b i p0') p (<[i := r']> rs).
Proof.
  intros [Hp Hr] Hi Hp0 Hc Hri Hl. split; [done|].
  change (b_log (set_port b i p0')) with (b_log b). eapply each_set; [done..|].
  destruct r as [bl at_ n got]. intros (Hlo & Hph & Hcur & Hw & Hpre & Hwait).
  destruct at_, e; try discriminate Hl; cbn in Hl, Hc, Hph, Hcur, Hw, Hpre, Hwait.
  - destruct Hc as (_ & ->). by simplify_eq.
  - destruct r as [v|]; simplify_eq; cbn.
    + destruct Hc as (_ & Hv & ->). unfold receiver_ok; cbn. rewrite length_app; simpl.
      split_and!; [done|done|lia|done| |done].
      rewrite Hcur, Nat2Z.id in Hv. destruct Hpre as [rest E]. rewrite E in Hv.
      rewrite lookup_app_r, Nat.sub_diag in Hv by lia. destruct rest as [|v' rest]; [done|].
      cbn in Hv. simplify_eq. exists rest. by rewrite E, <- app_assoc.
    + destruct Hc as (_ & Hle & ->). unfold receiver_ok; cbn. split_and!; [done|by destruct bl|done|done|done|].
      destruct bl; [|done]. intros _. split; [done|]. lia.
  - case_match eqn:Hlt; [|done]. simplify_eq. apply Nat.ltb_lt in Hlt.
    destruct Hc as (_ & z & Hz & ->). unfold receiver_ok; cbn. split_and!; try done.
    destruct Hp as (_ & _ & Hs). rewrite Hs in Hz. apply lookup_seqZ in Hz. lia.
Qed.
End invariant.

(** ** The stream arrives *)

Section pipeline.
Context (capacity num_readers : nat) (Hcap : (0 < capacity)%nat) (Hreaders : (0 < num_readers)%nat).
Context (msgs : list Z).
Implicit Types (s : weak) (r : receiver) (p : sender) (rs : list receiver).

Notation runs := (rtc (sys_step push_loop pop_loop)).
Notation start := (pipeline capacity num_readers msgs).

Lemma pipeline_start_ok : flow_ok msgs (board_of (y_ring start)) (y_prod start) (y_cons start).
Proof.
  split; [split_and!; done|]. intros i r Hi. exists (port_of new_reader).
  assert (Hlt : (i < num_readers)%nat).
  { apply lookup_lt_Some in Hi. unfold pipeline, receivers in Hi; simpl in Hi.
    rewrite length_replicate in Hi. lia. }
  split; [cbn; by rewrite list_lookup_fmap, lookup_replicate_2 by done|].
  assert (exists bl, r = mkReceiver bl AtCheck 0%nat []) as [bl ->].
  { destruct i as [|i]; [exists true; cbn in Hi; by simplify_eq|].
    cbn in Hi. apply lookup_replicate in Hi as [-> _]. by exists false. }
  split_and!; done.
Qed.

Lemma pipeline_ok y :
  runs start y -> flow_ok msgs (board_of (y_ring y)) (y_prod y) (y_cons y) /\ inv (y_ring y) /\
  scan_in_range (y_ring y).
Proof.
  intros Hy. pose proof (sys_ring_steps _ _ _ _ Hy) as Hs. change (y_ring start) with (with_readers capacity num_readers) in Hs.
  split; [|split; [exact (reachable_inv _ _ _ Hcap Hreaders Hs)|exact (reachable_in_range _ _ _ Hs)]].
  eapply (sys_invariant push_loop pop_loop capacity num_readers Hcap Hreaders (flow_ok msgs));
    [intros *; apply push_loop_keeps|intros *; apply pop_loop_keeps|apply pipeline_start_ok|exact Hy].
Qed.

(** A reader thread and its machine state. *)
Lemma receiver_port y i r :
  flow_ok msgs (board_of (y_ring y)) (y_prod y) (y_cons y) -> y_cons y !! i = Some r ->
  exists rd, w_readers (y_ring y) !! i = Some rd /\ receiver_ok (w_log (y_ring y)) (port_of rd) r.
Proof.
  intros [_ He] Hi. destruct (He i r Hi) as (p0 & Hp0 & Hok). cbn in Hp0.
  apply list_lookup_fmap_Some in Hp0 as (rd & -> & Hr). by exists rd.
Qed.

Lemma signalling_dec p : (exists todo, p = ToSignal todo) \/ (forall todo, p <> ToSignal todo).
Proof. destruct p; [by right..|left; by eexists]. Qed.

Lemma unread_shorter (got log : list Z) :
  got `prefix_of` log -> got <> log -> (length got < length log)%nat.
Proof.
  intros [rest ->] Hne. rewrite length_app. destruct rest; [by rewrite app_nil_r in Hne|simpl; lia].
Qed.

(** The newest unit can be taken by whoever has not drained it. *)
Lemma wait_returns y i r :
  flow_ok msgs (board_of (y_ring y)) (y_prod y) (y_cons y) ->
  y_cons y !! i = Some r -> c_at r = AtWait ->
  (c_drained r < length (w_log (y_ring y)))%nat -> (forall todo, y_prod y <> ToSignal todo) ->
  exists s' n, sys_step push_loop pop_loop y
    (mkSys s' (y_prod y) (<[i := mkReceiver (c_blocking r) AtCheck n (c_got r)]> (y_cons y))).
Proof.
  intros Hok Hr Hat Hlt Hp. destruct (receiver_port y i r Hok Hr) as (rd & Hrd & _ & Hph & _).
  destruct Hok as [(_ & _ & Hs) _]. destruct y as [s p rs]; cbn [y_ring y_prod y_cons] in *.
  set (k := length (w_log s)) in *.
  assert (Hk : length (w_notify s) = S k).
  { cbn in Hs. apply (f_equal length) in Hs. rewrite length_fmap, length_seqZ in Hs.
    unfold published_len in Hs; cbn in Hs. fold k in Hs. destruct p; [lia..|by destruct (Hp todo)]. }
  destruct (lookup_lt_is_Some_2 (w_notify s) k) as [m Hm]; [lia|].
  exists (with_reader s i (woken rd m)), k. eapply (sys_reader _ _ _ (NotifyLoad i k)); [|done|exact Hr|].
  - apply r_wake; [done| |split; [done|]].
    + cbn in Hph. rewrite Hat in Hph. by destruct (r_pc rd).
    + intros k' m' Hk' Hm'%lookup_lt_Some. lia.
  - unfold pop_loop. rewrite Hat. by rewrite (proj2 (Nat.ltb_lt _ _) Hlt).
Qed.

(** C11: [push_notified] and [pop_blocking] over release/acquire memory lose
    nothing and lose no wakeup: in every execution the messages published and
    those left are the messages given, in order; what each reader has received
    is a prefix of what is published; and when the blocking reader is in its
    wait with a record unread, the producer is between that publish and its
    signal or the wait can return now.  It never sleeps on units it has
    already consumed for records it has not taken. *)
Theorem notified_stream_delivered y :
  rtc (sys_step push_loop pop_loop) (pipeline capacity num_readers msgs) y ->
  w_log (y_ring y) ++ unsent (y_prod y) = msgs /\
  (forall i r, y_cons y !! i = Some r ->
    c_got r `prefix_of` w_log (y_ring y) /\
    (c_at r = AtWait -> (c_drained r <= length (c_got r))%nat)) /\
  forall r, y_cons y !! 0%nat = Some r -> c_at r = AtWait -> c_got r <> w_log (y_ring y) ->
    (exists todo, y_prod y = ToSignal todo) \/
    exists s' r', sys_step push_loop pop_loop y (mkSys s' (y_prod y) (<[0%nat := r']> (y_cons y))) /\
      c_at r' = AtCheck /\ c_got r' = c_got r.
Proof.
  intros Hy. destruct (pipeline_ok y Hy) as (Hok & _). pose proof Hok as [(Hm & _) _]. split_and!.
  - exact Hm.
  - intros i r Hr. destruct (receiver_port y i r Hok Hr) as (rd & _ & _ & _ & _ & _ & Hg & Hw).
    split; [done|]. intros Hat. by apply Hw.
  - intros r Hr Hat Hne. destruct (receiver_port y 0 r Hok Hr) as (rd & _ & _ & _ & _ & _ & Hg & Hw).
    destruct (Hw Hat) as [_ Hd]. destruct (signalling_dec (y_prod y)) as [|Hp]; [by left|right].
    destruct (wait_returns y 0 r Hok Hr Hat) as (s' & n & Hs); [|done|by eauto].
    pose proof (unread_shorter _ _ Hg Hne). lia.
Qed.

(** ** And it can always arrive *)

Definition due (r : receiver) : nat := length msgs - length (c_got r).
Definition outstanding (y : sys sender receiver) : nat :=
  2 * length (unsent (y_prod y)) + (match y_prod y with ToSignal _ => 1 | _ => 0 end) +
  sum_list_with due (y_cons y).

Lemma due_insert rs i r r' :
  rs !! i = Some r -> (sum_list_with due (<[i := r']> rs) + due r = sum_list_with due rs + due r')%nat.
Proof.
  revert i. induction rs as [|r0 rs IH]; intros [|i] Hi; simplify_eq/=; [lia|].
  specialize (IH i Hi). lia.
Qed.

(** A reader's progress pays. *)
Lemma outstanding_reader y s' i r r' :
  y_cons y !! i = Some r ->
  (outstanding (mkSys s' (y_prod y) (<[i := r']> (y_cons y))) + due r = outstanding y + due r')%nat.
Proof. intros Hr. unfold outstanding; cbn. pose proof (due_insert _ i r r' Hr). lia. Qed.

Lemma due_snoc y i r v :
  runs start y -> y_cons y !! i = Some r -> (length (c_got r) < length (w_log (y_ring y)))%nat ->
  (S (due (mkReceiver (c_blocking r) AtCheck (c_drained r) (c_got r ++ [v]))) = due r)%nat.
Proof.
  intros Hy Hr Hlt. destruct (pipeline_ok y Hy) as ([(Hm & _) _] & _). unfold due; cbn.
  rewrite length_app; simpl. apply (f_equal length) in Hm. rewrite length_app in Hm. cbn in Hm. lia.
Qed.

(** The ring counts the push that was settled last. *)
Lemma count_runs s p rs :
  match w_pc s with PIdle | PCount => true | _ => false end = true ->
  exists s', runs (mkSys s p rs) (mkSys s' p rs) /\ w_pc s' = PIdle.
Proof.
  intros Hpc. destruct (push_tallied s Hpc) as (s' & Hs & E). exists s'. split; [by apply sys_silently|done].
Qed.

(** A push in progress is settled. *)
Lemma settle_push y :
  runs start y -> exists y', runs y y' /\ (outstanding y' <= outstanding y)%nat /\
    (exists todo, y_prod y' = Sending todo \/ y_prod y' = ToSignal todo) /\ y_cons y' = y_cons y.
Proof.
  intros Hy. destruct (pipeline_ok y Hy) as ([(_ & Hph & _) _] & I & Hi).
  destruct y as [s p rs]; cbn in *. destruct p as [todo|v todo|todo].
  1, 3: eexists; split; [apply rtc_refl|]; split_and!; [done|by eexists; auto|done].
  destruct (push_returns s I Hi) as (s1 & Hs & s2 & b & Hret); [by destruct (w_pc s)|].
  exists (mkSys s2 (if b then ToSignal todo else Sending (v :: todo)) rs). split.
  - etrans; [by apply sys_silently|]. apply rtc_once.
    eapply (sys_producer _ _ _ (PushRet b)); [done..|by destruct b].
  - unfold outstanding; cbn. destruct b; cbn; split_and!; try lia; try done; eexists; auto.
Qed.

(** The producer settles: its push returns and is signalled. *)
Lemma settle_producer y :
  runs start y -> exists y' todo, runs y y' /\ (outstanding y' <= outstanding y)%nat /\
    y_prod y' = Sending todo /\ y_cons y' = y_cons y /\ w_pc (y_ring y') = PIdle.
Proof.
  intros Hy. destruct (settle_push y Hy) as (y1 & H1 & Hle & (todo & Hp) & Ec).
  assert (Hy1 : runs start y1) by (by etrans). destruct (pipeline_ok y1 Hy1) as ([(_ & Hph & _) _] & _).
  destruct y1 as [s p rs]; cbn in *.
  destruct (count_runs s p rs) as (s' & H2 & E); [by destruct Hp as [-> | ->], (w_pc s)|].
  destruct Hp as [-> | ->].
  - exists (mkSys s' (Sending todo) rs), todo. split; [by etrans|]. by split_and!.
  - exists (mkSys (signalled s') (Sending todo) rs), todo. split.
    + etrans; [exact H1|]. etrans; [exact H2|]. apply rtc_once.
      eapply (sys_producer _ _ _ Signal); [by apply p_signal|done..].
    + unfold outstanding in *; cbn in *. split_and!; [lia|done..].
Qed.

Lemma same_log y y' :
  runs start y -> runs start y' -> y_prod y' = y_prod y -> w_log (y_ring y') = w_log (y_ring y).
Proof.
  intros Hy Hy' E. destruct (pipeline_ok y Hy) as ([(Hm & _) _] & _).
  destruct (pipeline_ok y' Hy') as ([(Hm' & _) _] & _). rewrite E in Hm'. cbn in Hm, Hm'.
  rewrite <- Hm in Hm'. by apply app_inv_tail in Hm'.
Qed.

Lemma pop_ret_runs s s1 s2 p rs i r x r' :
  rtc silent s s1 -> lstep s1 (PopRet i x) s2 -> rs !! i = Some r -> pop_loop r (PopRet i x) = Some r' ->
  runs (mkSys s p rs) (mkSys s2 p (<[i := r']> rs)).
Proof.
  intros Hs Hret Hr Hl. etrans; [by apply sys_silently|]. apply rtc_once. by eapply (sys_reader _ _ _ (PopRet i x)).
Qed.

(** Less is outstanding. *)
Definition advances (y : sys sender receiver) : Prop :=
  exists y', runs y y' /\ (outstanding y' < outstanding y)%nat.

Lemma received_advances y s' i r v :
  runs start y -> y_cons y !! i = Some r -> (length (c_got r) < length (w_log (y_ring y)))%nat ->
  runs y (mkSys s' (y_prod y)
    (<[i := mkReceiver (c_blocking r) AtCheck (c_drained r) (c_got r ++ [v])]> (y_cons y))) ->
  advances y.
Proof.
  intros Hy Hr Hlt Hruns. eexists. split; [exact Hruns|].
  pose proof (due_snoc y i r v Hy Hr Hlt).
  pose proof (outstanding_reader y s' i r (mkReceiver (c_blocking r) AtCheck (c_drained r) (c_got r ++ [v])) Hr). lia.
Qed.

(** A reader with a record unread and about to call [try_pop] gets one. *)
Lemma check_advances y i r :
  runs start y -> y_cons y !! i = Some r -> (length (c_got r) < length (w_log (y_ring y)))%nat ->
  c_at r = AtCheck -> advances y.
Proof.
  intros Hy Hr Hlt Hat. destruct (pipeline_ok y Hy) as (Hok & I & _).
  destruct (receiver_port y i r Hok Hr) as (rd & Hrd & Hl & Hph & Hcur & _). rewrite Hat in Hph. cbn in Hl, Hph, Hcur.
  pose proof (i_log _ I) as Hlog.
  destruct (pop_delivers _ i rd I Hrd) as (s1 & s2 & s3 & v & Hcall & Hs & Hret); [by destruct (r_pc rd)|lia|].
  eapply received_advances with (v := v); [done..|]. destruct y as [s p rs]. cbn in *.
  eapply rtc_l; [eapply (sys_reader _ _ _ (PopCall i)); [exact Hcall|done|exact Hr|]|].
  { unfold pop_loop. by rewrite Hat. }
  assert (Hg : <[i := going r AtTake]> rs !! i = Some (going r AtTake))
    by (eapply list_lookup_insert_eq, lookup_lt_Some, Hr).
  pose proof (pop_ret_runs s1 s2 s3 p _ i _ (Some v) _ Hs Hret Hg eq_refl) as Hruns.
  by rewrite list_insert_insert_eq in Hruns.
Qed.

Lemma replaced_advances y s' i r r' :
  y_cons y !! i = Some r -> c_got r' = c_got r ->
  runs y (mkSys s' (y_prod y) (<[i := r']> (y_cons y))) ->
  advances (mkSys s' (y_prod y) (<[i := r']> (y_cons y))) -> advances y.
Proof.
  intros Hr Hg Hruns (y' & Hs & Hlt). exists y'. split; [by etrans|].
  pose proof (outstanding_reader y s' i r r' Hr). unfold due in *. rewrite Hg in *. lia.
Qed.

Lemma resting_advances y i r :
  runs start y -> y_cons y !! i = Some r -> (length (c_got r) < length (w_log (y_ring y)))%nat ->
  c_at r <> AtTake -> (forall todo, y_prod y <> ToSignal todo) -> advances y.
Proof.
  intros Hy Hr Hlt Hat Hp. destruct (c_at r) eqn:E; [by eapply check_advances|done|].
  destruct (pipeline_ok y Hy) as (Hok & I & _).
  destruct (receiver_port y i r Hok Hr) as (rd & _ & _ & _ & _ & _ & _ & Hw).
  destruct (wait_returns y i r Hok Hr E) as (s' & n & Hs); [destruct (Hw E); lia|done|].
  apply rtc_once in Hs. eapply replaced_advances; [exact Hr| |exact Hs|]; [done|].
  assert (Hy' : runs start _) by (etrans; [exact Hy|exact Hs]).
  eapply (check_advances _ i); [exact Hy'|eapply list_lookup_insert_eq, lookup_lt_Some, Hr| |done].
  by rewrite (same_log y _ Hy Hy' eq_refl).
Qed.

Lemma reader_advances y i r :
  runs start y -> y_cons y !! i = Some r -> (length (c_got r) < length (w_log (y_ring y)))%nat ->
  (forall todo, y_prod y <> ToSignal todo) -> advances y.
Proof.
  intros Hy Hr Hlt Hp. destruct (decide (c_at r = AtTake)) as [E|Hne]; [|by eapply resting_advances].
  destruct (pipeline_ok y Hy) as (Hok & I & _).
  destruct (receiver_port y i r Hok Hr) as (rd & Hrd & _ & Hph & _). rewrite E in Hph. cbn in Hph.
  destruct (pop_returns _ i rd I Hrd) as (s1 & Hs & s2 & x & Hret); [by destruct (r_pc rd)|].
  assert (Hl : exists r', pop_loop r (PopRet i x) = Some r' /\
    match x with Some v => r' = mkReceiver (c_blocking r) AtCheck (c_drained r) (c_got r ++ [v])
    | None => c_got r' = c_got r /\ c_at r' <> AtTake end).
  { unfold pop_loop. rewrite E. destruct x; eexists; (split; [done|]); [done|]. by destruct (c_blocking r). }
  destruct Hl as (r' & Hl & Hx). pose proof (pop_ret_runs _ _ _ (y_prod y) _ i r x r' Hs Hret Hr Hl) as Hruns.
  assert (Hruns' : runs y (mkSys s2 (y_prod y) (<[i := r']> (y_cons y)))) by (by destruct y).
  destruct x as [v|]; [subst r'; by eapply received_advances|]. destruct Hx as [Hg Hne].
  eapply replaced_advances; [exact Hr|exact Hg|exact Hruns'|].
  assert (Hy' : runs start _) by (etrans; [exact Hy|exact Hruns']).
  eapply (resting_advances _ i r'); [exact Hy'|eapply list_lookup_insert_eq, lookup_lt_Some, Hr| |done|done].
  by rewrite (same_log y _ Hy Hy' eq_refl), Hg.
Qed.

(** A push to readers that have all caught up. *)
Lemma push_advances y v todo :
  runs start y -> y_prod y = Sending (v :: todo) -> w_pc (y_ring y) = PIdle -> Z.of_nat (length msgs) < 2 ^ 64 ->
  (forall i rd, w_readers (y_ring y) !! i = Some rd -> cursor rd = widx (y_ring y)) -> advances y.
Proof.
  intros Hy Ep Hpc Hmsgs Hcur. destruct (pipeline_ok y Hy) as ([(Hm & Hph & _) _] & I & _).
  rewrite Ep in Hm, Hph. cbn in Hm, Hph. pose proof (i_log _ I) as Hl.
  apply (f_equal length) in Hm. rewrite length_app in Hm. simpl in Hm.
  destruct (push_accepted _ v I Hpc) as (s1 & s2 & s3 & Hcall & Hs & Hret); [lia|done|].
  exists (mkSys s3 (ToSignal todo) (y_cons y)). split.
  - destruct y as [s p rs]; cbn in *; subst p. eapply rtc_l.
    { eapply (sys_producer _ _ _ (PushCall v)); [exact Hcall|done..|]. cbn. by rewrite Z.eqb_refl. }
    etrans; [by apply sys_silently|]. apply rtc_once. by eapply (sys_producer _ _ _ (PushRet true)).
  - unfold outstanding; cbn. rewrite Ep; cbn. lia.
Qed.

(** Everything is published, signalled and received. *)
Definition complete (y : sys sender receiver) : Prop :=
  y_prod y = Sending [] /\ forall i r, y_cons y !! i = Some r -> c_got r = msgs.

Lemma sending_advances y todo :
  runs start y -> y_prod y = Sending todo -> w_pc (y_ring y) = PIdle -> Z.of_nat (length msgs) < 2 ^ 64 ->
  length (y_cons y) = length (w_readers (y_ring y)) -> complete y \/ advances y.
Proof.
  intros Hy Ep Hpc Hmsgs Hlen. destruct (pipeline_ok y Hy) as (Hok & I & _).
  destruct (decide (Exists (fun r => length (c_got r) < length (w_log (y_ring y)))%nat (y_cons y))) as [Hex|Hall].
  - right. apply Exists_exists in Hex as (r & (i & Hr)%list_elem_of_lookup & Hlt).
    eapply reader_advances; [done..|]. by rewrite Ep.
  - assert (Hgot : forall i r, y_cons y !! i = Some r -> c_got r = w_log (y_ring y)).
    { intros i r Hr. destruct (receiver_port y i r Hok Hr) as (rd & _ & _ & _ & _ & _ & Hg & _).
      destruct (decide (c_got r = w_log (y_ring y))) as [|Hne]; [done|]. destruct Hall.
      apply Exists_exists. exists r. split; [by eapply list_elem_of_lookup_2|by apply unread_shorter]. }
    pose proof Hok as [(Hm & _) _]. rewrite Ep in Hm; cbn in Hm.
    destruct todo as [|v todo].
    + left. split; [done|]. intros i r Hr. by rewrite (Hgot i r Hr), <- Hm, app_nil_r.
    + right. eapply push_advances; [done..|]. intros i rd Hrd.
      destruct (lookup_lt_is_Some_2 (y_cons y) i) as [r Hr]; [rewrite Hlen; by eapply lookup_lt_Some|].
      destruct (receiver_port y i r Hok Hr) as (rd' & Hrd' & _ & _ & Hcur & _). simplify_eq.
      cbn in Hcur. rewrite Hcur, (Hgot i r Hr). apply I.
Qed.

Lemma runs_readers y y' :
  runs y y' -> length (y_cons y') = length (y_cons y) /\ length (w_readers (y_ring y')) = length (w_readers (y_ring y)).
Proof.
  intros Hs. induction Hs as [|y1 y2 y3 H12 _ [IH1 IH2]]; [done|]. rewrite IH1, IH2.
  destruct H12 as [s s' p rs H|s e s' p p' rs H|s e s' p rs i r r' H]; cbn;
    rewrite ?length_insert; (split; [done|]); apply (step_shape s s'); by eexists.
Qed.

Lemma pipeline_advances y :
  runs start y -> Z.of_nat (length msgs) < 2 ^ 64 -> complete y \/ advances y \/
  exists y', runs y y' /\ complete y'.
Proof.
  intros Hy Hmsgs. destruct (settle_producer y Hy) as (y' & todo & Hs & Hle & Ep & Ec & Hpc).
  assert (Hy' : runs start y') by (by etrans).
  destruct (runs_readers _ _ Hy') as [E1 E2]. cbn in E1, E2. rewrite !length_replicate in *.
  destruct (sending_advances y' todo Hy' Ep Hpc Hmsgs) as [Hc|(y2 & Hs2 & Hlt)]; [lia|right; right; by exists y'|].
  right; left. exists y2. split; [by etrans|lia].
Qed.

(** C12: From every state of the notified pipeline, in the middle of whatever
    calls and waits, there is a continuation in which every message has been
    accepted and signalled and every reader has received them all: no
    interleaving leads to a deadlock or loses a message for good. *)
Theorem notified_stream_completes y :
  rtc (sys_step push_loop pop_loop) (pipeline capacity num_readers msgs) y -> Z.of_nat (length msgs) < 2 ^ 64 ->
  exists y', rtc (sys_step push_loop pop_loop) y y' /\ y_prod y' = Sending [] /\
    forall i r, y_cons y' !! i = Some r -> c_got r = msgs.
Proof.
  intros Hy Hmsgs. remember (outstanding y) as n eqn:En. revert y Hy En.
  induction (lt_wf n) as [n _ IH]; intros y Hy ->.
  destruct (pipeline_advances y Hy Hmsgs) as [Hc|[(y1 & Hs & Hlt)|Hd]]; [by exists y| |done].
  destruct (IH _ Hlt y1) as (y2 & Hs2 & Hd); [by etrans|done|].
  exists y2. split; [by etrans|done].
Qed.
End pipeline.

(** ** A run *)

(** A capacity of one, two readers, two messages: the blocking reader finds the
    ring empty and goes to its wait, then the first message is pushed and
    signalled. *)
Definition waiting_acts : list act :=
  [APop 0 0; ANext 0 0; ANext 0 0] ++ push_acts 5 0 [0%nat; 0%nat] ++ [ASignal].
Definition waiting_pipeline : sys sender receiver :=
  sys_run push_loop pop_loop waiting_acts (pipeline 1 2 [5; 6]).

Lemma notified_stream_delivered_witness :
  (exists r, y_cons waiting_pipeline !! 0%nat = Some r /\ c_at r = AtWait /\ c_got r = []) /\
  exists s' r', sys_step push_loop pop_loop waiting_pipeline
    (mkSys s' (Sending [6]) (<[0%nat := r']> (y_cons waiting_pipeline))) /\ c_at r' = AtCheck.
Proof.
  assert (Hr : y_cons waiting_pipeline !! 0%nat = Some (mkReceiver true AtWait 0 []))
    by (vm_compute; reflexivity).
  assert (Ep : y_prod waiting_pipeline = Sending [6]) by (vm_compute; reflexivity).
  split; [eexists; split; [exact Hr|done]|].
  assert (Hs : rtc (sys_step push_loop pop_loop) (pipeline 1 2 [5; 6]) waiting_pipeline)
    by (apply sys_run_reaches; vm_compute; reflexivity).
  destruct (notified_stream_delivered 1 2 ltac:(lia) ltac:(lia) [5; 6] waiting_pipeline Hs) as (_ & _ & H).
  destruct (H _ Hr eq_refl) as [[todo Ht]|(s' & r' & Hstep & Ha & _)].
  - vm_compute. discriminate.
  - rewrite Ep in Ht. discriminate.
  - exists s', r'. rewrite <- Ep. split; [exact Hstep|exact Ha].
Defined.

Lemma notified_stream_completes_witness :
  (exists r, y_cons waiting_pipeline !! 0%nat = Some r /\ c_got r = []) /\
  exists y', rtc (sys_step push_loop pop_loop) waiting_pipeline y' /\ y_prod y' = Sending [] /\
    forall i r, y_cons y' !! i = Some r -> c_got r = [5; 6].
Proof.
  split; [eexists; split; vm_compute; reflexivity|].
  apply (notified_stream_completes 1 2 ltac:(lia) ltac:(lia) [5; 6] waiting_pipeline).
  - apply sys_run_reaches; vm_compute; reflexivity.
  - vm_compute. reflexivity.
Defined.
