(* ===== verification/Pool.v ===== *)
(** Pool: several threads of one handle on one reader id.

    [SpmcRingBuffer] is [Sync] and [claim], [try_pop] and the methods of
    [Loan] take [&self] or a [Loan] that is [Send]: threads that share a handle
    race on its claim pipeline ([claim_base]) and loan gate ([loan_depth]) with
    [Relaxed] read-modify-writes, and on the reader's shared cursor.  This is
    [claim], [commit], [abort] and [drop] of [src/src/loan.rs] and [try_pop] and
    [try_push] of [src/src/ring.rs], one atomic access per step, for any number
    of threads and one reader.  [Loan] is [Sync] too: a thread may lend an open
    loan to others by reference ([&Loan]), which read through it until they
    return it; the borrow checker keeps a lent loan from being resolved or
    handed over.

    Memory is a history of messages per word, with the view (how far into each
    word, and into each thread's slot accesses) its writer published: a load
    may return any message at or past the thread's own view of the word, an
    [Acquire] load joins the message's view, a [Release] store publishes the
    thread's, a [Relaxed] read-modify-write extends the newest message and
    publishes nothing of its own.  A slot access not ordered after the
    conflicting ones sets [g_race].

    The machine is executable: [exec a s] is the step that action [a] asks
    for, and an action carries the choices that are not the program's (which
    message a load returns, whether a weak exchange fails spuriously, how far
    the other participating readers are).  Indices are unbounded integers:
    2^64 messages are out of reach. *)

From S2P Require Import Prelude.
Set Default Goal Selector "!".
Open Scope Z_scope.

(** ** Views and messages *)

Inductive word := Widx | Cursor | Base | Depth.

#[export] Instance word_eq_dec : EqDecision word.
Proof. solve_decision. Defined.

(** Thread 0 is the producer, thread [S i] worker [i]. *)
Record view := mkView {
  ts : word -> nat;
  clk : nat -> nat;
}.

Definition vbot : view := mkView (fun _ => O) (fun _ => O).
Definition vjoin (V W : view) : view :=
  mkView (fun l => Nat.max (ts V l) (ts W l)) (fun t => Nat.max (clk V t) (clk W t)).
(** The thread has seen message [k] of word [l]. *)
Definition seen (l : word) (k : nat) (V : view) : view :=
  mkView (fun l' => if decide (l' = l) then k else ts V l') (clk V).
(** Thread [t] accesses a slot. *)
Definition tick (t : nat) (V : view) : view :=
  mkView (ts V) (fun u => if Nat.eqb u t then S (clk V u) else clk V u).

Record msg := mkMsg {
  m_val : Z;
  m_view : view;
}.

(** A slot: its value, the producer's clock at the last write, and each
    worker's clock at its last read since. *)
Record cell := mkCell {
  c_val : Z;
  c_write : nat;
  c_read : nat -> nat;
}.

(** ** Threads *)

Inductive ppc :=
  | PIdle
  | PScan (w v : Z)
  | PWrite (w v : Z)
  | PStore (w v : Z).

Inductive wpc :=
  | WIdle
  (** [claim] *)
  | CLoop
  | CGotW (w : Z)
  | CGotC (w c : Z)
  | CGotB (w c b : Z)
  | CNone
  (** [commit] and [drop] at the cursor; [resolve] *)
  | MStore (j : Z)
  | MResolve
  (** [try_pop] *)
  | QLoad
  | QGotW (w : Z)
  | QRead (r : Z)
  | QBump (r : Z).

Record worker := mkWorker {
  k_pc : wpc;
  k_view : view;
  k_held : list Z;
}.

Record pool := mkPool {
  g_pc : ppc;
  g_view : view;
  g_mem : word -> list msg;
  g_log : list Z;
  g_cells : list cell;
  g_workers : list worker;
  (** loans lent by reference: the owner, the borrower and the index *)
  g_lent : list (nat * nat * Z);
  g_race : bool;
}.

Definition cap (s : pool) : Z := Z.of_nat (length (g_cells s)).
Definition slot (s : pool) (j : Z) : nat := Z.to_nat (j mod cap s).

Definition with_producer (s : pool) (pc : ppc) (V : view) : pool :=
  mkPool pc V (g_mem s) (g_log s) (g_cells s) (g_workers s) (g_lent s) (g_race s).
Definition with_worker (s : pool) (i : nat) (wk : worker) : pool :=
  mkPool (g_pc s) (g_view s) (g_mem s) (g_log s) (g_cells s) (<[i := wk]> (g_workers s)) (g_lent s) (g_race s).
Definition with_cell (s : pool) (k : nat) (c : cell) : pool :=
  mkPool (g_pc s) (g_view s) (g_mem s) (g_log s) (<[k := c]> (g_cells s)) (g_workers s) (g_lent s) (g_race s).
Definition append (s : pool) (l : word) (m : msg) : pool :=
  mkPool (g_pc s) (g_view s) (fun l' => if decide (l' = l) then g_mem s l ++ [m] else g_mem s l')
    (g_log s) (g_cells s) (g_workers s) (g_lent s) (g_race s).
Definition with_lent (s : pool) (lent : list (nat * nat * Z)) : pool :=
  mkPool (g_pc s) (g_view s) (g_mem s) (g_log s) (g_cells s) (g_workers s) lent (g_race s).
Definition raced (s : pool) : pool :=
  mkPool (g_pc s) (g_view s) (g_mem s) (g_log s) (g_cells s) (g_workers s) (g_lent s) true.

(** ** Accesses *)

(** Message [k] of word [l], if a thread with view [V] may still read it. *)
Definition load (s : pool) (V : view) (l : word) (k : nat) : option msg :=
  if (ts V l <=? k)%nat then g_mem s l !! k else None.
Definition acquire (l : word) (k : nat) (m : msg) (V : view) : view := vjoin (seen l k V) (m_view m).

(** [store(z, Release)] *)
Definition store_view (s : pool) (l : word) (V : view) : view := seen l (length (g_mem s l)) V.
Definition release (s : pool) (l : word) (z : Z) (V : view) : pool :=
  append s l (mkMsg z (store_view s l V)).

(** A [Relaxed] read-modify-write of the newest message. *)
Definition newest (s : pool) (l : word) : msg := default (mkMsg 0 vbot) (g_mem s l !! pred (length (g_mem s l))).
Definition rmw (s : pool) (l : word) (z : Z) : pool := append s l (mkMsg z (m_view (newest s l))).

(** ** Races *)

Definition reads_ordered (s : pool) (c : cell) : bool :=
  forallb (fun i => (c_read c i <=? clk (g_view s) (S i))%nat) (seq 0 (length (g_workers s))).
Definition write_ordered (V : view) (c : cell) : bool := (c_write c <=? clk V O)%nat.
Definition read_cell (i : nat) (V : view) (c : cell) : cell :=
  mkCell (c_val c) (c_write c) (fun u => if Nat.eqb u i then clk (tick (S i) V) (S i) else c_read c u).

(** ** Loans by reference *)

(** Worker [i] has lent its loan [j]; worker [i] has borrowed loan [j]. *)
Definition lends (s : pool) (i : nat) (j : Z) : bool := existsb (fun e => bool_decide (e.1.1 = i /\ e.2 = j)) (g_lent s).
Definition borrows (s : pool) (i : nat) (j : Z) : bool := existsb (fun e => bool_decide (e.1.2 = i /\ e.2 = j)) (g_lent s).

(** ** Actions *)

Inductive act :=
  (** the producer *)
  | Push (v : Z) (k : nat)
  | Scan (others : Z) (k : nat)
  | PGo
  (** worker [i] *)
  | Claim (i : nat)
  | Load (i k : nat)
  | Go (i : nat)
  | Spurious (i : nat)
  | Deref (i : nat) (j : Z)
  | Commit (i : nat) (j : Z) (k : nat)
  | Drop (i : nat) (j : Z) (k : nat)
  | Abort (i : nat) (j : Z)
  | Pop (i k : nat)
  (** worker [i] hands an open loan to worker [i'] *)
  | Move (i i' : nat) (j : Z)
  (** worker [i] lends an open loan to worker [i'], or gets it back *)
  | Lend (i i' : nat) (j : Z)
  | Return (i i' : nat) (j : Z).

Definition exec_producer (s : pool) (a : act) : option pool :=
  let V := g_view s in
  match g_pc s, a with
  | PIdle, Push v k =>
      m ← load s V Widx k; Some (with_producer s (PScan (m_val m) v) (seen Widx k V))
  | PScan w v, Scan others k =>
      m ← load s V Cursor k;
      let min_read := Z.min others (m_val m) in
      Some (with_producer s (if cap s <=? w - min_read then PIdle else PWrite w v) (acquire Cursor k m V))
  | PWrite w v, PGo =>
      c ← g_cells s !! slot s w;
      Some (if reads_ordered s c
            then with_cell (with_producer s (PStore w v) (tick 0 V)) (slot s w)
                   (mkCell v (clk (tick 0 V) O) (fun _ => O))
            else raced s)
  | PStore w v, PGo =>
      let s' := release s Widx (w + 1) V in
      Some (mkPool PIdle (store_view s Widx V) (g_mem s') (g_log s ++ [v]) (g_cells s) (g_workers s) (g_lent s) (g_race s))
  | _, _ => None
  end.

Definition take_loan (j : Z) (l : list Z) : list Z := filter (fun j' => j' <> j) l.

(** Worker [i] reads the slot of index [j] and goes to [pc]. *)
Definition read_slot (s : pool) (i : nat) (wk : worker) (j : Z) (pc : wpc) : option pool :=
  c ← g_cells s !! slot s j;
  Some (if write_ordered (k_view wk) c
        then with_worker (with_cell s (slot s j) (read_cell i (k_view wk) c)) i
               (mkWorker pc (tick (S i) (k_view wk)) (k_held wk))
        else raced s).

(** [resolve]: the gate goes down. *)
Definition lower_gate (s : pool) (i : nat) (wk : worker) : pool :=
  with_worker (rmw s Depth (m_val (newest s Depth) - 1)) i
    (mkWorker WIdle (store_view s Depth (k_view wk)) (k_held wk)).

(** [try_pop]: refused while the gate is up. *)
Definition exec_pop (s : pool) (i : nat) (wk : worker) (a : act) : option pool :=
  let V := k_view wk in
  let held := k_held wk in
  match k_pc wk, a with
  | WIdle, Pop _ k =>
      m ← load s V Depth k;
      Some (with_worker s i (mkWorker (if m_val m =? 0 then QLoad else WIdle) (seen Depth k V) held))
  | QLoad, Load _ k =>
      m ← load s V Widx k; Some (with_worker s i (mkWorker (QGotW (m_val m)) (acquire Widx k m V) held))
  | QGotW w, Load _ k =>
      m ← load s V Cursor k;
      Some (with_worker s i (mkWorker (if m_val m =? w then WIdle else QRead (m_val m)) (acquire Cursor k m V) held))
  | QRead r, Go _ => read_slot s i wk r (QBump r)
  | QBump r, Go _ =>
      Some (with_worker (release s Cursor (r + 1) V) i (mkWorker WIdle (store_view s Cursor V) held))
  | _, _ => None
  end.

Definition exec_worker (s : pool) (i : nat) (wk : worker) (a : act) : option pool :=
  let V := k_view wk in
  let held := k_held wk in
  match k_pc wk, a with
  (** [claim]: the gate, then the loop *)
  | WIdle, Claim _ =>
      Some (with_worker (rmw s Depth (m_val (newest s Depth) + 1)) i
              (mkWorker CLoop (store_view s Depth V) held))
  | CLoop, Load _ k =>
      m ← load s V Widx k; Some (with_worker s i (mkWorker (CGotW (m_val m)) (acquire Widx k m V) held))
  | CGotW w, Load _ k =>
      m ← load s V Cursor k; Some (with_worker s i (mkWorker (CGotC w (m_val m)) (acquire Cursor k m V) held))
  | CGotC w c, Load _ k =>
      m ← load s V Base k; Some (with_worker s i (mkWorker (CGotB w c (m_val m)) (seen Base k V) held))
  | CGotB w c b, Go _ =>
      let idx := Z.max b c in
      Some (if w <=? idx then with_worker s i (mkWorker CNone V held)
            else if m_val (newest s Base) =? b
            then with_worker (rmw s Base (idx + 1)) i (mkWorker WIdle (store_view s Base V) (idx :: held))
            else with_worker s i (mkWorker CLoop V held))
  | CGotB w c b, Spurious _ =>
      Some (with_worker s i (mkWorker (if w <=? Z.max b c then CNone else CLoop) V held))
  | CNone, Go _ => Some (lower_gate s i wk)
  (** [deref] of an open loan, one's own or borrowed *)
  | WIdle, Deref _ j => if decide (j ∈ held \/ borrows s i j = true) then read_slot s i wk j WIdle else None
  (** [commit] *)
  | WIdle, Commit _ j k =>
      if decide (j ∈ held /\ lends s i j = false) then
        m ← load s V Cursor k;
        Some (with_worker s i (mkWorker (if m_val m =? j then MStore j else WIdle) (acquire Cursor k m V) held))
      else None
  (** [drop] *)
  | WIdle, Drop _ j k =>
      if decide (j ∈ held /\ lends s i j = false) then
        m ← load s V Cursor k;
        Some (with_worker s i
                (if m_val m =? j then mkWorker (MStore j) (acquire Cursor k m V) held
                 else mkWorker MResolve (acquire Cursor k m V) (take_loan j held)))
      else None
  | MStore j, Go _ =>
      Some (with_worker (release s Cursor (j + 1) V) i
              (mkWorker MResolve (store_view s Cursor V) (take_loan j held)))
  | MResolve, Go _ => Some (lower_gate s i wk)
  (** [abort] *)
  | WIdle, Abort _ j =>
      if decide (j ∈ held /\ lends s i j = false) then
        Some (with_worker (rmw s Base (Z.min (m_val (newest s Base)) j)) i
                (mkWorker MResolve (store_view s Base V) (take_loan j held)))
      else None
  | _, _ => exec_pop s i wk a
  end.

(** The worker an action is by. *)
Definition actor (a : act) : option nat :=
  match a with
  | Push _ _ | Scan _ _ | PGo | Move _ _ _ | Lend _ _ _ | Return _ _ _ => None
  | Claim i | Load i _ | Go i | Spurious i | Deref i _ | Commit i _ _ | Drop i _ _ | Abort i _ | Pop i _ => Some i
  end.

(** Handing a loan over orders the receiver after the sender. *)
Definition exec_move (s : pool) (i i' : nat) (j : Z) : option pool :=
  wk ← g_workers s !! i; wk' ← g_workers s !! i';
  match k_pc wk, k_pc wk' with
  | WIdle, WIdle =>
      if decide (i <> i' /\ j ∈ k_held wk /\ lends s i j = false) then
        Some (with_worker (with_worker s i (mkWorker WIdle (k_view wk) (take_loan j (k_held wk)))) i'
                (mkWorker WIdle (vjoin (k_view wk') (k_view wk)) (j :: k_held wk')))
      else None
  | _, _ => None
  end.

(** Lending a loan orders the borrower after the owner; getting it back orders
    the owner after the borrower (a scope or a join in the program). *)
Definition exec_lend (s : pool) (i i' : nat) (j : Z) : option pool :=
  wk ← g_workers s !! i; wk' ← g_workers s !! i';
  match k_pc wk, k_pc wk' with
  | WIdle, WIdle =>
      if decide (i <> i' /\ j ∈ k_held wk) then
        Some (with_lent (with_worker s i' (mkWorker WIdle (vjoin (k_view wk') (k_view wk)) (k_held wk')))
                ((i, i', j) :: g_lent s))
      else None
  | _, _ => None
  end.
Definition exec_return (s : pool) (i i' : nat) (j : Z) : option pool :=
  wk ← g_workers s !! i; wk' ← g_workers s !! i';
  match k_pc wk, k_pc wk' with
  | WIdle, WIdle =>
      if decide ((i, i', j) ∈ g_lent s) then
        Some (with_lent (with_worker s i (mkWorker WIdle (vjoin (k_view wk) (k_view wk')) (k_held wk)))
                (filter (fun e => e <> (i, i', j)) (g_lent s)))
      else None
  | _, _ => None
  end.

Definition exec (s : pool) (a : act) : option pool :=
  match actor a with
  | Some i => wk ← g_workers s !! i; exec_worker s i wk a
  | None =>
      match a with
      | Move i i' j => exec_move s i i' j
      | Lend i i' j => exec_lend s i i' j
      | Return i i' j => exec_return s i i' j
      | _ => exec_producer s a
      end
  end.

Definition step (s s' : pool) : Prop := exists a, exec s a = Some s'.

Fixpoint schedule (acts : list act) (s : pool) : option pool :=
  match acts with [] => Some s | a :: acts => s' ← exec s a; schedule acts s' end.

(** ** The initial state *)

(** A handle opened on a ring whose producer has published [log] and whose
    reader has consumed the first [c0] records. *)
Definition start_cell (capacity : nat) (log : list Z) (k : nat) : cell :=
  let j := Z.of_nat (length log) - 1 - (Z.of_nat (length log) - 1 - Z.of_nat k) mod Z.of_nat capacity in
  mkCell (if j <? 0 then 0 else default 0 (log !! Z.to_nat j)) O (fun _ => O).
Definition start_mem (log : list Z) (c0 : Z) (l : word) : list msg :=
  match l with
  | Widx => [mkMsg (Z.of_nat (length log)) vbot]
  | Cursor => [mkMsg c0 vbot]
  | Base | Depth => [mkMsg 0 vbot]
  end.
Definition shared_handle (capacity : nat) (log : list Z) (c0 : Z) (workers : nat) : pool :=
  mkPool PIdle vbot (start_mem log c0) log (start_cell capacity log <$> seq 0 capacity)
    (replicate workers (mkWorker WIdle vbot [])) [] false.
