(* ===== verification/PoolInv.v ===== *)
(** PoolInv: the invariant of threads that share a handle and resolve their
    loans by committing or dropping them, or abort the newest one unread.

    A view that has seen [write_idx] message [k] is ordered after the writes of
    the slots published up to it ([published_known]); a view that has seen
    cursor message [k] is ordered after every worker's reads of the records the
    cursor has passed ([consumed_known]): each commit acquires the cursor the
    previous one released, so the last one speaks for all of them.  What a
    borrower of a loan reads the owner does not know until it gets the loan
    back, which it must before it can commit ([l_reads]). *)

From S2P Require Import Prelude.
From S2P Require Import Pool.
Set Default Goal Selector "!".
Open Scope Z_scope.

(** ** Views *)

Lemma ts_seen l k V : ts (seen l k V) l = k.
Proof. cbn. by rewrite decide_True. Qed.
Lemma ts_seen_ne l l' k V : l' <> l -> ts (seen l k V) l' = ts V l'.
Proof. intros H. cbn. by rewrite decide_False. Qed.
Lemma ts_store s l V : ts (store_view s l V) l = length (g_mem s l).
Proof. apply ts_seen. Qed.
Lemma ts_store_ne s l l' V : l' <> l -> ts (store_view s l V) l' = ts V l'.
Proof. apply ts_seen_ne. Qed.
Lemma ts_acquire l k m V : ts (acquire l k m V) l = Nat.max k (ts (m_view m) l).
Proof. unfold acquire. cbn. by rewrite decide_True. Qed.
Lemma ts_acquire_ne l l' k m V :
  l' <> l -> ts (acquire l k m V) l' = Nat.max (ts V l') (ts (m_view m) l').
Proof. intros H. unfold acquire. cbn. by rewrite decide_False. Qed.
Lemma clk_acquire l k m V t : clk (acquire l k m V) t = Nat.max (clk V t) (clk (m_view m) t).
Proof. done. Qed.

Section invariant.
(** The handle was opened with [w0] records published and [c0] consumed. *)
Context (w0 c0 : Z).

Definition widx (s : pool) : Z := w0 + Z.of_nat (length (g_mem s Widx)) - 1.
Definition cursor (s : pool) : Z := c0 + Z.of_nat (length (g_mem s Cursor)) - 1.
Definition base (s : pool) : Z := m_val (newest s Base).
Definition depth (s : pool) : Z := m_val (newest s Depth).
(** The number of indices whose slot has been written. *)
Definition written (s : pool) : Z :=
  match g_pc s with PStore w _ => w + 1 | _ => widx s end.

(** [c] is the slot of record [j], still holding it. *)
Definition holds (s : pool) (j : Z) (c : cell) : Prop :=
  written s - cap s <= j < written s /\ g_cells s !! slot s j = Some c.

Definition published_known (s : pool) (V : view) : Prop := forall j c,
  holds s j c -> j < w0 + Z.of_nat (ts V Widx) -> (c_write c <= clk V O)%nat.
Definition consumed_known (s : pool) (V : view) : Prop := forall j c i,
  holds s j c -> j < c0 + Z.of_nat (ts V Cursor) -> (c_read c i <= clk V (S i))%nat.

Record view_ok (s : pool) (V : view) : Prop := mkViewOk {
  v_ts l : (ts V l < length (g_mem s l))%nat;
  v_published : published_known s V;
  v_consumed : consumed_known s V;
}.

Record msg_ok (s : pool) (l : word) (k : nat) (m : msg) : Prop := mkMsgOk {
  m_ok : view_ok s (m_view m);
  m_widx : l = Widx -> (k <= ts (m_view m) Widx)%nat;
  m_cursor : l = Cursor -> (k <= ts (m_view m) Cursor)%nat;
}.

(** A worker's share of the gate. *)
Definition claims (wk : worker) : nat :=
  length (k_held wk) +
  match k_pc wk with CLoop | CGotW _ | CGotC _ _ | CGotB _ _ _ | CNone | MResolve => 1 | _ => 0 end.

(** Its share as far as gate message [k] must count it. *)
Definition gated (k : nat) (wk : worker) : nat :=
  if (ts (k_view wk) Depth <=? k)%nat then claims wk else O.

Definition pc_ok (s : pool) (i : nat) (wk : worker) : Prop :=
  match k_pc wk with
  | WIdle | CLoop | CNone | MResolve => True
  | CGotW w => w <= w0 + Z.of_nat (ts (k_view wk) Widx)
  | CGotC w c | CGotB w c _ => w <= w0 + Z.of_nat (ts (k_view wk) Widx) /\ c0 <= c <= cursor s
  | MStore j => j ∈ k_held wk /\ lends s i j = false /\ j <= c0 + Z.of_nat (ts (k_view wk) Cursor)
  | QLoad | QGotW _ | QRead _ | QBump _ => False
  end.

(** Worker [i] with view [V] owns loan [j]. *)
Record loan_ok (s : pool) (i : nat) (V : view) (j : Z) : Prop := mkLoanOk {
  l_cursor : cursor s <= j < base s;
  l_seen : j < w0 + Z.of_nat (ts V Widx);
  l_reads c u : g_cells s !! slot s j = Some c ->
    (c_read c u <= clk V (S u))%nat \/ (i, u, j) ∈ g_lent s;
}.

Record worker_ok (s : pool) (i : nat) (wk : worker) : Prop := mkWorkerOk {
  k_view_ok : view_ok s (k_view wk);
  k_nodup : NoDup (k_held wk);
  k_loans j : j ∈ k_held wk -> loan_ok s i (k_view wk) j;
  (** it knows its own reads *)
  k_own k c : g_cells s !! k = Some c -> (c_read c i <= clk (k_view wk) (S i))%nat;
  k_lent u j : (i, u, j) ∈ g_lent s -> j ∈ k_held wk;
  k_borrowed o j : (o, i, j) ∈ g_lent s -> j < w0 + Z.of_nat (ts (k_view wk) Widx);
  k_pc_ok : pc_ok s i wk;
}.

Definition ppc_ok (s : pool) : Prop :=
  match g_pc s with
  | PIdle => True
  | PScan w _ => w = widx s
  | PWrite w _ => w = widx s /\ w < cursor s + cap s /\ w - cap s < c0 + Z.of_nat (ts (g_view s) Cursor)
  | PStore w v => w = widx s /\ w < cursor s + cap s /\
      forall c, g_cells s !! slot s w = Some c -> c_val c = v
  end.

Record pool_inv (s : pool) : Prop := mkPoolInv {
  i_race : g_race s = false;
  i_cap : 0 < cap s;
  i_nonempty l : g_mem s l <> [];
  i_widx k m : g_mem s Widx !! k = Some m -> m_val m = w0 + Z.of_nat k;
  i_cursor k m : g_mem s Cursor !! k = Some m -> m_val m = c0 + Z.of_nat k;
  i_window : 0 <= cursor s <= widx s /\ widx s <= cursor s + cap s;
  (** the pipeline lags the cursor only before the first claim *)
  i_realign : base s < cursor s -> length (g_mem s Cursor) = 1%nat;
  i_log : Z.of_nat (length (g_log s)) = widx s;
  i_vals j c : holds s j c -> 0 <= j < widx s -> g_log s !! Z.to_nat j = Some (c_val c);
  i_unread j c i : holds s j c -> Z.max (base s) (cursor s) <= j -> c_read c i = O;
  i_msgs l k m : g_mem s l !! k = Some m -> msg_ok s l k m;
  i_prod : view_ok s (g_view s);
  i_own : S (ts (g_view s) Widx) = length (g_mem s Widx);
  i_writes k c : g_cells s !! k = Some c -> (c_write c <= clk (g_view s) O)%nat;
  i_ppc : ppc_ok s;
  i_workers i wk : g_workers s !! i = Some wk -> worker_ok s i wk;
  i_lenders o u j : (o, u, j) ∈ g_lent s -> is_Some (g_workers s !! o);
  i_distinct i i' wk wk' j : g_workers s !! i = Some wk -> g_workers s !! i' = Some wk' ->
    j ∈ k_held wk -> j ∈ k_held wk' -> i = i';
  i_depth : depth s = Z.of_nat (sum_list_with claims (g_workers s));
  i_gate k m : g_mem s Depth !! k = Some m -> Z.of_nat (sum_list_with (gated k) (g_workers s)) <= m_val m;
}.

(** ** Basic facts *)

Lemma last_lookup (h : list msg) : h <> [] -> exists m, h !! pred (length h) = Some m.
Proof. intros Hne. apply lookup_lt_is_Some_2. destruct h; [done|simpl; lia]. Qed.

Lemma newest_append s l m : newest (append s l m) l = m.
Proof.
  unfold newest, append; cbn. rewrite decide_True by done. rewrite length_app, Nat.add_1_r. simpl.
  by rewrite list_lookup_middle.
Qed.

Lemma newest_append_ne s l l' m : l' <> l -> newest (append s l m) l' = newest s l'.
Proof. intros Hne. unfold newest, append; cbn. by rewrite !decide_False. Qed.

Lemma mem_append s l m l' k m' :
  g_mem (append s l m) l' !! k = Some m' ->
  g_mem s l' !! k = Some m' \/ l' = l /\ k = length (g_mem s l) /\ m' = m.
Proof.
  cbn. destruct (decide (l' = l)) as [->|]; [|by left].
  intros [Hk|[Hk Hm]]%lookup_app_Some; [by left|right].
  apply list_lookup_singleton_Some in Hm as [? <-]. split; [done|split; [lia|done]].
Qed.

Lemma newest_lookup s l : pool_inv s -> g_mem s l !! pred (length (g_mem s l)) = Some (newest s l).
Proof.
  intros I. destruct (last_lookup _ (i_nonempty _ I l)) as [m Hm]. unfold newest. by rewrite Hm.
Qed.

Lemma pool_slot_inj s j j' :
  0 < cap s -> slot s j = slot s j' -> j - cap s < j' < j + cap s -> j = j'.
Proof.
  intros Hc E Hw. unfold slot in E. pose proof (Z.mod_pos_bound j (cap s) Hc).
  pose proof (Z.mod_pos_bound j' (cap s) Hc). apply (mod_window_inj j j' (cap s)); lia.
Qed.

Lemma slot_cell s j : 0 < cap s -> exists c, g_cells s !! slot s j = Some c.
Proof.
  intros Hc. apply lookup_lt_is_Some_2. unfold slot. pose proof (Z.mod_pos_bound j (cap s) Hc).
  unfold cap in *. lia.
Qed.

Lemma written_window s : pool_inv s -> widx s <= written s <= cursor s + cap s.
Proof.
  intros I. pose proof (i_window _ I). pose proof (i_ppc _ I) as Hp. unfold ppc_ok, written in *.
  destruct (g_pc s); lia.
Qed.

(** A record from the cursor on is still in its slot. *)
Lemma holds_from_cursor s j c :
  pool_inv s -> cursor s <= j < written s -> g_cells s !! slot s j = Some c -> holds s j c.
Proof. intros I Hj Hc. pose proof (written_window _ I). split; [lia|done]. Qed.

Lemma loan_holds s i V j c :
  pool_inv s -> view_ok s V -> loan_ok s i V j -> g_cells s !! slot s j = Some c -> holds s j c.
Proof.
  intros I Hv Hl Hc. apply holds_from_cursor; [done| |done]. pose proof (l_cursor _ _ _ _ Hl).
  pose proof (l_seen _ _ _ _ Hl). pose proof (v_ts _ _ Hv Widx). pose proof (written_window _ I).
  unfold widx in *. lia.
Qed.

(** ** Loans lent *)

Lemma lends_false s i j u : lends s i j = false -> (i, u, j) ∉ g_lent s.
Proof.
  intros Hf Hin. assert (lends s i j = true); [|congruence].
  apply existsb_exists. exists (i, u, j). split; [by apply list_elem_of_In|]. by apply bool_decide_eq_true.
Qed.

Lemma lends_true s i j : lends s i j = true -> exists u, (i, u, j) ∈ g_lent s.
Proof.
  intros ([[o u] j'] & Hin & [<- <-]%bool_decide_eq_true)%existsb_exists. exists u.
  by apply list_elem_of_In.
Qed.

Lemma borrows_true s i j : borrows s i j = true -> exists o, (o, i, j) ∈ g_lent s.
Proof.
  intros ([[o u] j'] & Hin & [<- <-]%bool_decide_eq_true)%existsb_exists. exists o.
  by apply list_elem_of_In.
Qed.

(** ** Loads *)

Lemma load_inv s V l k m :
  load s V l k = Some m -> (ts V l <= k)%nat /\ g_mem s l !! k = Some m.
Proof. unfold load. destruct (Nat.leb_spec (ts V l) k); [done|discriminate]. Qed.

Lemma view_ok_join s V W : view_ok s V -> view_ok s W -> view_ok s (vjoin V W).
Proof.
  intros [] []. split; [intros l; specialize (v_ts0 l); specialize (v_ts1 l); cbn; lia| |].
  - intros j c Hh Hj. cbn in Hj |- *. destruct (Nat.le_ge_cases (ts V Widx) (ts W Widx)).
    + pose proof (v_published1 j c Hh). lia.
    + pose proof (v_published0 j c Hh). lia.
  - intros j c i Hh Hj. cbn in Hj |- *. destruct (Nat.le_ge_cases (ts V Cursor) (ts W Cursor)).
    + pose proof (v_consumed1 j c i Hh). lia.
    + pose proof (v_consumed0 j c i Hh). lia.
Qed.

(** Only the two index words carry knowledge. *)
Lemma view_ok_seen s V l k :
  l = Base \/ l = Depth -> (k < length (g_mem s l))%nat -> view_ok s V -> view_ok s (seen l k V).
Proof.
  intros Hl Hk []. assert (Ht : forall l', (ts (seen l k V) l' < length (g_mem s l'))%nat).
  { intros l'. destruct (decide (l' = l)) as [->|]; [by rewrite ts_seen|by rewrite ts_seen_ne]. }
  destruct Hl as [-> | ->]; by split.
Qed.

Lemma view_ok_acquire s V l k m :
  pool_inv s -> l = Widx \/ l = Cursor -> view_ok s V -> load s V l k = Some m ->
  view_ok s (acquire l k m V).
Proof.
  intros I Hl HV [Hk Hm]%load_inv. destruct (i_msgs _ I _ _ _ Hm) as [HW Hw Hc].
  apply lookup_lt_Some in Hm. pose proof (view_ok_join s V (m_view m) HV HW) as [].
  assert (Ht : forall l', (ts (acquire l k m V) l' < length (g_mem s l'))%nat).
  { intros l'. specialize (v_ts0 l'). cbn in v_ts0. destruct (decide (l' = l)) as [->|];
      [rewrite ts_acquire; lia|rewrite ts_acquire_ne by done; lia]. }
  destruct Hl as [-> | ->]; [specialize (Hw eq_refl)|specialize (Hc eq_refl)]; (split; [done| |]);
    first [intros j c Hh; rewrite ?ts_acquire, ?ts_acquire_ne by done; intros Hj; apply (v_published0 j c Hh)
          |intros j c i Hh; rewrite ?ts_acquire, ?ts_acquire_ne by done; intros Hj; apply (v_consumed0 j c i Hh)];
    cbn; lia.
Qed.
End invariant.
