(* ===== verification/PoolSteps.v ===== *)
(** PoolSteps: every step that neither aborts a loan nor pops keeps the
    invariant of [PoolInv]. *)

From S2P Require Import Prelude.
From S2P Require Import Pool.
From S2P Require Import PoolInv.
Set Default Goal Selector "!".
Open Scope Z_scope.

(** ** Lists *)

Lemma sum_list_with_insert {A} (f : A -> nat) l i x y :
  l !! i = Some y -> (sum_list_with f (<[i := x]> l) + f y = sum_list_with f l + f x)%nat.
Proof.
  revert i. induction l as [|z l IH]; intros [|i] H; simplify_eq/=; [lia|]. specialize (IH i H). lia.
Qed.

Lemma sum_list_with_le {A} (f g : A -> nat) l :
  (forall x, f x <= g x)%nat -> (sum_list_with f l <= sum_list_with g l)%nat.
Proof. intros H. induction l as [|x l IH]; simpl; [done|]. specialize (H x). lia. Qed.

Lemma elem_of_take_loan j j' l : j' ∈ take_loan j l <-> j' <> j /\ j' ∈ l.
Proof. unfold take_loan. by rewrite list_elem_of_filter. Qed.

Lemma length_take_loan j l : NoDup l -> j ∈ l -> length l = S (length (take_loan j l)).
Proof.
  unfold take_loan. induction 1 as [|x l Hx Hn IH]; intros Hj; [by apply not_elem_of_nil in Hj|].
  rewrite filter_cons. case_decide as Hd.
  - apply elem_of_cons in Hj as [->|Hj]; [done|]. simpl. by rewrite <- IH.
  - assert (x = j) as -> by (by destruct (decide (x = j))). simpl. f_equal.
    clear -Hx. induction l as [|y l IH]; [done|]. apply not_elem_of_cons in Hx as [Hy Hx].
    rewrite filter_cons, decide_True by done. simpl. by rewrite <- IH.
Qed.

(** ** Views *)

Definition view_le (V W : view) : Prop :=
  (forall l, (ts V l <= ts W l)%nat) /\ (forall t, (clk V t <= clk W t)%nat).

Lemma view_le_refl V : view_le V V.
Proof. by split. Qed.
Lemma view_le_seen V l k : (ts V l <= k)%nat -> view_le V (seen l k V).
Proof.
  intros H. split; [|done]. intros l'. destruct (decide (l' = l)) as [->|]; [by rewrite ts_seen|].
  by rewrite ts_seen_ne.
Qed.
Lemma view_le_join V W : view_le V (vjoin V W).
Proof. split; intros ?; cbn; lia. Qed.
Lemma view_le_trans V W X : view_le V W -> view_le W X -> view_le V X.
Proof. intros [H1 H2] [H3 H4]. split; intros ?; etransitivity; eauto. Qed.
Lemma view_le_acquire s V l k m : load s V l k = Some m -> view_le V (acquire l k m V).
Proof. intros [H _]%load_inv. eapply view_le_trans; [by apply view_le_seen|apply view_le_join]. Qed.
Lemma view_le_tick V t : view_le V (tick t V).
Proof. split; [done|]. intros u. cbn. destruct (Nat.eqb u t); lia. Qed.

Section steps.
Context (w0 c0 : Z).
Local Abbreviation pool_inv := (pool_inv w0 c0).
Local Abbreviation view_ok := (view_ok w0 c0).
Local Abbreviation worker_ok := (worker_ok w0 c0).
Local Abbreviation pc_ok := (pc_ok w0 c0).
Local Abbreviation loan_ok := (loan_ok w0 c0).

Lemma loan_ok_le s i V W j : view_le V W -> loan_ok s i V j -> loan_ok s i W j.
Proof.
  intros [H1 H2] []. split; [done|specialize (H1 Widx); lia|].
  intros c u Hc. destruct (l_reads c u Hc) as [Hr|]; [left|by right]. etransitivity; [exact Hr|apply H2].
Qed.

(** ** What carries over to the next state *)

(** [V] says as much of [s'] as of [s]. *)
Lemma view_ok_carries s s' V :
  (forall l, (length (g_mem s l) <= length (g_mem s' l))%nat) ->
  (forall j c, holds w0 s' j c -> j < w0 + Z.of_nat (ts V Widx) ->
    exists c', holds w0 s j c' /\ c_write c = c_write c') ->
  (forall j c, holds w0 s' j c -> j < c0 + Z.of_nat (ts V Cursor) ->
    exists c', holds w0 s j c' /\ c_read c = c_read c') ->
  view_ok s V -> view_ok s' V.
Proof.
  intros Hlen Hpub Hcon []. split; [intros l; specialize (v_ts l); specialize (Hlen l); lia| |].
  - intros j c Hh Hj. destruct (Hpub j c Hh Hj) as (c' & Hh' & ->). by eapply v_published.
  - intros j c i Hh Hj. destruct (Hcon j c Hh Hj) as (c' & Hh' & ->). by eapply v_consumed.
Qed.

(** The slots and the records in them stay. *)
Lemma view_ok_mem s s' V :
  (forall l, (length (g_mem s l) <= length (g_mem s' l))%nat) ->
  g_cells s' = g_cells s -> written w0 s' = written w0 s -> view_ok s V -> view_ok s' V.
Proof.
  intros Hlen Ec Ew. apply view_ok_carries; [done| |];
    intros j c Hh _; exists c; unfold holds, slot, cap in *; by rewrite Ec, Ew in Hh.
Qed.

Lemma msg_ok_carries s s' l k m :
  (forall V, view_ok s V -> view_ok s' V) -> msg_ok w0 c0 s l k m -> msg_ok w0 c0 s' l k m.
Proof. intros HV []. split; auto. Qed.

(** Worker [i] has not read the slots since. *)
Definition no_reads (i : nat) (s s' : pool) : Prop := forall k c',
  g_cells s' !! k = Some c' -> exists k0 c, g_cells s !! k0 = Some c /\ (c_read c' i <= c_read c i)%nat.

Lemma no_reads_same i s s' : g_cells s' = g_cells s -> no_reads i s s'.
Proof. intros E k c. rewrite E. intros Hk. by exists k, c. Qed.

Lemma worker_ok_carries s s' i wk :
  (forall V, view_ok s V -> view_ok s' V) -> cursor c0 s <= cursor c0 s' ->
  g_lent s' = g_lent s -> no_reads i s s' ->
  (forall j, j ∈ k_held wk -> loan_ok s i (k_view wk) j -> loan_ok s' i (k_view wk) j) ->
  worker_ok s i wk -> worker_ok s' i wk.
Proof.
  intros HV Hcur El Hown Hl []. split; rewrite ?El; auto.
  - intros k c (k0 & c1 & Hc1 & Hle)%Hown. etransitivity; [exact Hle|by eapply k_own].
  - unfold PoolInv.pc_ok, lends in *. rewrite El. destruct (k_pc wk); try done; lia.
Qed.

Lemma loan_ok_below s s' i V j :
  g_cells s' = g_cells s -> g_lent s' = g_lent s -> cursor c0 s' = cursor c0 s -> j < base s' ->
  loan_ok s i V j -> loan_ok s' i V j.
Proof.
  intros Ec El Ecur Hb []. split; [lia|done|]. intros c u. unfold slot, cap. rewrite Ec, El. apply l_reads.
Qed.

Lemma loan_ok_same s s' i V j :
  g_cells s' = g_cells s -> g_lent s' = g_lent s -> cursor c0 s' = cursor c0 s -> base s <= base s' ->
  loan_ok s i V j -> loan_ok s' i V j.
Proof. intros Ec El Ecur Hb Hl. apply (loan_ok_below s); try done. pose proof (l_cursor _ _ _ _ _ _ Hl). lia. Qed.

(** The loans a worker keeps when it gives up one it has not lent. *)
Lemma still_lending s i wk j : worker_ok s i wk -> lends s i j = false ->
  forall u j', (i, u, j') ∈ g_lent s -> j' ∈ take_loan j (k_held wk).
Proof.
  intros Hwk Hf u j' Hin. apply elem_of_take_loan. split; [intros ->; by eapply lends_false|].
  by eapply (k_lent _ _ _ _ _ Hwk).
Qed.

(** A worker that goes on with more knowledge and other loans. *)
Lemma worker_ok_next s s' i wk pc W held :
  worker_ok s i wk -> view_le (k_view wk) W -> view_ok s' W ->
  g_cells s' = g_cells s -> g_lent s' = g_lent s -> NoDup held ->
  (forall j, j ∈ held -> loan_ok s' i W j) -> (forall u j, (i, u, j) ∈ g_lent s -> j ∈ held) ->
  pc_ok s' i (mkWorker pc W held) -> worker_ok s' i (mkWorker pc W held).
Proof.
  intros [] [Ht Hc] HW Ecells El Hn Hl Hlent Hp. split; cbn [k_view k_held]; rewrite ?El, ?Ecells; try done.
  - intros k c Hk. etransitivity; [by eapply k_own|apply Hc].
  - intros o j Hj. specialize (k_borrowed o j Hj). specialize (Ht Widx). lia.
Qed.

(** A worker that keeps (some of) its loans and learns more. *)
Lemma worker_learns s i wk pc W held :
  worker_ok s i wk -> view_le (k_view wk) W -> view_ok s W ->
  NoDup held -> (forall j, j ∈ held -> j ∈ k_held wk) ->
  (forall u j, (i, u, j) ∈ g_lent s -> j ∈ held) ->
  pc_ok s i (mkWorker pc W held) -> worker_ok s i (mkWorker pc W held).
Proof.
  intros Hwk Hle HW Hn Hh Hlent Hp. eapply worker_ok_next; try done.
  intros j Hj. eapply loan_ok_le; [done|by apply Hwk, Hh].
Qed.

Lemma gated_le k wk wk' :
  (claims wk' <= claims wk)%nat -> (ts (k_view wk) Depth <= ts (k_view wk') Depth)%nat ->
  (gated k wk' <= gated k wk)%nat.
Proof. intros Hc Ht. unfold gated. destruct (Nat.leb_spec (ts (k_view wk') Depth) k), (Nat.leb_spec (ts (k_view wk) Depth) k); lia. Qed.

Lemma gated_claims k wk : (gated k wk <= claims wk)%nat.
Proof. unfold gated. case_match; lia. Qed.

(** A step that changes only what workers know, hold and lend. *)
Lemma inv_workers s ws lent :
  pool_inv s -> length ws = length (g_workers s) ->
  (forall o u j, (o, u, j) ∈ lent -> is_Some (g_workers s !! o)) ->
  (forall i wk, ws !! i = Some wk -> worker_ok (with_lent s lent) i wk) ->
  (forall i i' wk wk' j, ws !! i = Some wk -> ws !! i' = Some wk' ->
    j ∈ k_held wk -> j ∈ k_held wk' -> i = i') ->
  sum_list_with claims ws = sum_list_with claims (g_workers s) ->
  (forall k, sum_list_with (gated k) ws <= sum_list_with (gated k) (g_workers s))%nat ->
  pool_inv (mkPool (g_pc s) (g_view s) (g_mem s) (g_log s) (g_cells s) ws lent (g_race s)).
Proof.
  intros I Hlen Hlent Hws Hd Hsum Hgate. set (s' := mkPool _ _ _ _ _ _ _ _).
  assert (HV : forall V, view_ok s V -> view_ok s' V) by (intros V; by apply view_ok_mem).
  destruct I. split; try done.
  - intros l k m Hm. apply (msg_ok_carries s); [done|]. by apply i_msgs.
  - by apply HV.
  - intros i wk Hi. apply (worker_ok_carries (with_lent s lent)); [|done|done|by apply no_reads_same| |by apply Hws].
    + intros V. by apply view_ok_mem.
    + intros j _. by apply loan_ok_same.
  - intros o u j Hin. cbn. apply lookup_lt_is_Some_2. rewrite Hlen. by eapply lookup_lt_is_Some_1, Hlent.
  - unfold depth in *. change (newest s' Depth) with (newest s Depth). by rewrite i_depth, <- Hsum.
  - intros k m Hk. specialize (i_gate k m Hk). specialize (Hgate k). cbn. lia.
Qed.

Lemma worker_ok_lent s i wk : worker_ok s i wk -> worker_ok (with_lent s (g_lent s)) i wk.
Proof. by destruct s. Qed.

(** A step of one worker that writes nothing. *)
Lemma inv_worker s i wk wk' :
  pool_inv s -> g_workers s !! i = Some wk -> worker_ok s i wk' ->
  (forall j, j ∈ k_held wk' -> j ∈ k_held wk) -> claims wk' = claims wk ->
  (ts (k_view wk) Depth <= ts (k_view wk') Depth)%nat ->
  pool_inv (with_worker s i wk').
Proof.
  intros I Hi Hwk Hh Hc Ht. pose proof (lookup_lt_Some _ _ _ Hi) as Hlt.
  assert (Hl : forall k wk0, <[i := wk']> (g_workers s) !! k = Some wk0 ->
    exists wk1, g_workers s !! k = Some wk1 /\ worker_ok s k wk0 /\ forall j, j ∈ k_held wk0 -> j ∈ k_held wk1).
  { intros k wk0 Hk. destruct (decide (k = i)) as [->|Hne].
    - rewrite list_lookup_insert_eq in Hk by done. simplify_eq. by exists wk.
    - rewrite list_lookup_insert_ne in Hk by done. exists wk0. split_and!; [done| |done].
      by eapply (i_workers _ _ _ I). }
  apply (inv_workers s); [done|by rewrite length_insert|apply I|..].
  - intros k wk0 Hk. apply Hl in Hk as (_ & _ & Hk & _). by apply (worker_ok_lent s).
  - intros k k' wk1 wk2 j (wk3 & Hk1 & _ & Hh1)%Hl (wk4 & Hk2 & _ & Hh2)%Hl Hj1 Hj2.
    by eapply (i_distinct _ _ _ I); [exact Hk1|exact Hk2|apply Hh1|apply Hh2].
  - pose proof (sum_list_with_insert claims (g_workers s) i wk' wk Hi). lia.
  - intros k. pose proof (sum_list_with_insert (gated k) (g_workers s) i wk' wk Hi).
    pose proof (gated_le k wk wk' ltac:(lia) Ht). lia.
Qed.

(** The same for a worker that learns by a load, and may drop loans. *)
Lemma inv_learn s i wk pc W held :
  pool_inv s -> g_workers s !! i = Some wk -> view_le (k_view wk) W -> view_ok s W ->
  NoDup held -> (forall j, j ∈ held -> j ∈ k_held wk) -> (forall u j, (i, u, j) ∈ g_lent s -> j ∈ held) ->
  claims (mkWorker pc W held) = claims wk -> pc_ok s i (mkWorker pc W held) ->
  pool_inv (with_worker s i (mkWorker pc W held)).
Proof.
  intros I Hi Hle HW Hn Hh Hlent Hc Hp. pose proof (i_workers _ _ _ I _ _ Hi) as Hwk.
  eapply inv_worker; [done|done| |done|done|apply Hle]. by apply (worker_learns s i wk).
Qed.

(** ** A message appended by a worker *)

Lemma length_append s l m l' :
  length (g_mem (append s l m) l') = (length (g_mem s l') + if decide (l' = l) then 1 else 0)%nat.
Proof. cbn. destruct (decide (l' = l)) as [->|]; [by rewrite length_app|lia]. Qed.

Lemma view_ok_append s l m i wk V :
  l <> Widx -> view_ok s V -> view_ok (with_worker (append s l m) i wk) V.
Proof.
  intros Hl. assert (E : g_mem (append s l m) Widx = g_mem s Widx) by (cbn; by rewrite decide_False).
  apply view_ok_mem; try done.
  - intros l'. change (g_mem (with_worker (append s l m) i wk)) with (g_mem (append s l m)). rewrite length_append. lia.
  - unfold written, widx. change (g_mem (with_worker (append s l m) i wk)) with (g_mem (append s l m)).
    by rewrite E.
Qed.

(** The published records stay where they are. *)
Lemma append_window s l m i wk :
  l <> Widx -> let s' := with_worker (append s l m) i wk in
  g_mem s' Widx = g_mem s Widx /\ widx w0 s' = widx w0 s /\ written w0 s' = written w0 s /\
  (forall j c, holds w0 s' j c -> holds w0 s j c).
Proof.
  intros Hl s'. assert (E : g_mem s' Widx = g_mem s Widx) by (cbn; by rewrite decide_False).
  assert (Ew : widx w0 s' = widx w0 s) by (unfold widx; by rewrite E).
  assert (Ewr : written w0 s' = written w0 s) by (unfold written; by rewrite Ew).
  split_and!; [done..|]. intros j c. unfold holds, slot, cap. by rewrite Ewr.
Qed.

Lemma append_workers s l m i wk' k wk0 :
  g_workers (with_worker (append s l m) i wk') !! k = Some wk0 ->
  k = i /\ wk0 = wk' \/ k <> i /\ g_workers s !! k = Some wk0.
Proof. intros [(-> & <- & _)|[Hne Hk]]%list_lookup_insert_Some; [by left|by right]. Qed.

(** Where the pipeline is rewound, the records it gives back are unread. *)
Lemma inv_append s i wk wk' l m :
  let s' := with_worker (append s l m) i wk' in
  pool_inv s -> g_workers s !! i = Some wk -> l <> Widx ->
  msg_ok w0 c0 s' l (length (g_mem s l)) m ->
  (l = Cursor -> m_val m = c0 + Z.of_nat (length (g_mem s Cursor))) ->
  cursor c0 s' <= widx w0 s ->
  base s <= base s' \/
    (forall j c k, holds w0 s j c -> base s' <= j < base s -> c_read c k = O) ->
  cursor c0 s' <= base s' \/ base s' = base s /\ cursor c0 s' = cursor c0 s ->
  depth s' + Z.of_nat (claims wk) = depth s + Z.of_nat (claims wk') ->
  (forall k, (k < length (g_mem s Depth))%nat -> (gated k wk' <= gated k wk)%nat) ->
  worker_ok s' i wk' ->
  (forall k wk0, k <> i -> g_workers s !! k = Some wk0 ->
    worker_ok s' k wk0 /\ forall j, j ∈ k_held wk0 -> j ∉ k_held wk') ->
  pool_inv s'.
Proof.
  intros s' I Hi Hl Hm Hmc Hcw Hb Hre Hd Hgate Hwk Hothers. pose proof (lookup_lt_Some _ _ _ Hi) as Hlt.
  assert (HV : forall V, view_ok s V -> view_ok s' V) by (intros V; by apply view_ok_append).
  destruct (append_window s l m i wk' Hl) as (E & Ew & Ewr & Hh). fold s' in E, Ew, Ewr, Hh.
  assert (Ec : length (g_mem s' Cursor) = (length (g_mem s Cursor) + if decide (Cursor = l) then 1 else 0)%nat)
    by apply length_append.
  assert (Hcur : cursor c0 s <= cursor c0 s') by (unfold cursor; lia).
  assert (Hsum : depth s' = Z.of_nat (sum_list_with claims (g_workers s'))).
  { pose proof (sum_list_with_insert claims (g_workers s) i wk' wk Hi). pose proof (i_depth _ _ _ I). cbn. lia. }
  destruct I. split; try done.
  - intros l'. cbn. destruct (decide (l' = l)) as [->|]; [by destruct (g_mem s l)|done].
  - rewrite E. apply i_widx.
  - intros k m' [Hk|(<- & -> & ->)]%mem_append; [by apply i_cursor|]. by apply Hmc.
  - rewrite Ew. change (cap s') with (cap s). lia.
  - intros Hlt'. destruct Hre as [|[Eb Ecur]]; [lia|]. rewrite Eb, Ecur in Hlt'.
    specialize (i_realign Hlt'). unfold cursor in Ecur. lia.
  - by rewrite Ew.
  - intros j c Hj. rewrite Ew. by apply i_vals, Hh.
  - intros j c k Hj Hjb. apply Hh in Hj. destruct (Z.lt_ge_cases j (base s)) as [Hjs|Hjs].
    + destruct Hb as [Hb|Hb]; [lia|]. apply (Hb j c k Hj). lia.
    + apply (i_unread j c k Hj). lia.
  - intros l' k m' [Hk|(-> & -> & ->)]%mem_append; [|done]. apply (msg_ok_carries s); [done|by apply i_msgs].
  - by apply HV.
  - by rewrite E.
  - unfold ppc_ok in *. change (g_pc s') with (g_pc s). change (cap s') with (cap s).
    change (g_view s') with (g_view s). rewrite Ew. destruct (g_pc s); try done.
    + destruct i_ppc as (? & ? & ?). split; [done|lia].
    + destruct i_ppc as (? & ? & Hc). split_and!; [done|lia|exact Hc].
  - intros k wk0 [[-> ->]|[Hne Hk]]%append_workers; [done|]. by apply (Hothers k).
  - intros o u j Hin. cbn. apply lookup_lt_is_Some_2. rewrite length_insert. by eapply lookup_lt_is_Some_1, i_lenders.
  - intros k k' wk1 wk2 j [[-> ->]|[Hne Hk]]%append_workers [[-> ->]|[Hne' Hk']]%append_workers Hj Hj'; try done.
    + by destruct (Hothers _ _ Hne' Hk') as [_ []%(fun H => H j Hj')].
    + by destruct (Hothers _ _ Hne Hk) as [_ []%(fun H => H j Hj)].
    + by eapply i_distinct.
  - intros k m' [Hk|(<- & -> & ->)]%mem_append.
    + specialize (i_gate k m' Hk). cbn. apply lookup_lt_Some, Hgate in Hk.
      pose proof (sum_list_with_insert (gated k) (g_workers s) i wk' wk Hi). lia.
    + assert (Em : m_val m = depth s') by exact (eq_sym (f_equal m_val (newest_append s Depth m))).
      rewrite Em, Hsum. apply Nat2Z.inj_le, sum_list_with_le. intros wk0. apply gated_claims.
Qed.

(** ** The gate *)

Lemma rmw_msg_ok s l z :
  pool_inv s -> l = Base \/ l = Depth -> msg_ok w0 c0 s l (length (g_mem s l)) (mkMsg z (m_view (newest s l))).
Proof.
  intros I Hl. destruct (i_msgs _ _ _ I _ _ _ (newest_lookup _ _ s l I)) as [HV _ _].
  split; [done|..]; intros ->; by destruct Hl.
Qed.

Lemma claims_le s k wk : g_workers s !! k = Some wk -> (claims wk <= sum_list_with claims (g_workers s))%nat.
Proof. intros Hk. apply sum_list_with_in. by eapply list_elem_of_lookup_2. Qed.

(** A worker raises or lowers the gate by its own share. *)
Lemma inv_gate s i wk pc z :
  let wk' := mkWorker pc (store_view s Depth (k_view wk)) (k_held wk) in
  pool_inv s -> g_workers s !! i = Some wk -> pc = CLoop \/ pc = WIdle ->
  z + Z.of_nat (claims wk) = depth s + Z.of_nat (claims wk') ->
  pool_inv (with_worker (rmw s Depth z) i wk').
Proof.
  intros wk' I Hi Hpc Hz. pose proof (i_workers _ _ _ I _ _ Hi) as Hwk.
  pose proof (i_depth _ _ _ I) as Hd. pose proof (lookup_lt_Some _ _ _ Hi) as Hlt.
  set (s' := with_worker _ i wk').
  assert (Ez : depth s' = z) by (unfold depth, s', rmw; change (newest (with_worker ?x i wk')) with (newest x); by rewrite newest_append).
  assert (HV : forall V, view_ok s V -> view_ok s' V) by (intros V; by apply view_ok_append).
  apply (inv_append s i wk); try done.
  - apply (msg_ok_carries s); [done|]. apply rmw_msg_ok; [done|by right].
  - apply I.
  - left. by change (base s <= base s).
  - by right.
  - change (depth s' + Z.of_nat (claims wk) = depth s + Z.of_nat (claims wk')). lia.
  - intros k Hk. unfold gated. cbn [k_view wk']. rewrite ts_store.
    destruct (Nat.leb_spec (length (g_mem s Depth)) k); lia.
  - assert (Hle : view_le (k_view wk) (store_view s Depth (k_view wk)))
      by (apply view_le_seen; pose proof (v_ts _ _ _ _ (k_view_ok _ _ _ _ _ Hwk) Depth); lia).
    apply (worker_ok_next s s' i wk); try done.
    + apply view_ok_seen; [by right|cbn; rewrite decide_True, length_app by done; simpl; lia|apply HV, Hwk].
    + apply Hwk.
    + intros j Hj. apply (loan_ok_same s); [done..|]. by eapply loan_ok_le, Hwk.
    + apply Hwk.
    + unfold PoolInv.pc_ok. by destruct Hpc as [-> | ->].
  - intros k wk0 Hne Hk. pose proof (i_workers _ _ _ I _ _ Hk) as Hwk0. split.
    + apply (worker_ok_carries s); [done|done|done|by apply no_reads_same|intros j _; by apply loan_ok_same|done].
    + intros j Hj Hj'. apply Hne. by eapply (i_distinct _ _ _ I).
Qed.

(** ** A loan issued *)

Lemma loan_below_base s i wk j : pool_inv s -> g_workers s !! i = Some wk -> j ∈ k_held wk -> j < base s.
Proof. intros I Hi Hj. apply (k_loans _ _ _ _ _ (i_workers _ _ _ I _ _ Hi) j Hj). Qed.

(** A claim takes the first index nobody has claimed. *)
Lemma claim_index s i wk w c b :
  pool_inv s -> worker_ok s i wk -> k_pc wk = CGotB w c b -> base s = b ->
  Z.max b c = Z.max (base s) (cursor c0 s).
Proof.
  intros I Hwk Hpc <-. pose proof (k_pc_ok _ _ _ _ _ Hwk) as Hp. unfold PoolInv.pc_ok in Hp.
  rewrite Hpc in Hp. destruct Hp as [_ Hc]. destruct (Z.le_gt_cases (cursor c0 s) (base s)); [lia|].
  pose proof (i_realign _ _ _ I ltac:(lia)). unfold cursor in *. lia.
Qed.

Lemma inv_claim s i wk w c b :
  pool_inv s -> g_workers s !! i = Some wk -> k_pc wk = CGotB w c b -> base s = b -> Z.max b c < w ->
  pool_inv (with_worker (rmw s Base (Z.max b c + 1)) i
    (mkWorker WIdle (store_view s Base (k_view wk)) (Z.max b c :: k_held wk))).
Proof.
  intros I Hi Hpc Eb Hlt. pose proof (i_workers _ _ _ I _ _ Hi) as Hwk.
  rewrite (claim_index s i wk w c b I Hwk Hpc Eb) in *. clear Eb.
  set (idx := Z.max (base s) (cursor c0 s)) in *. set (wk' := mkWorker _ _ _).
  set (s' := with_worker _ i wk').
  pose proof (k_pc_ok _ _ _ _ _ Hwk) as Hp. unfold PoolInv.pc_ok in Hp. rewrite Hpc in Hp.
  destruct Hp as [Hw _]. pose proof (v_ts _ _ _ _ (k_view_ok _ _ _ _ _ Hwk)) as Hts.
  assert (Hwi : w <= widx w0 s) by (specialize (Hts Widx); unfold widx; lia).
  assert (Ebase : base s' = idx + 1) by exact (f_equal m_val (newest_append s Base _)).
  assert (HV : forall V, view_ok s V -> view_ok s' V) by (intros V; by apply view_ok_append).
  assert (Hclaims : claims wk' = claims wk).
  { unfold claims. rewrite Hpc. cbn. lia. }
  assert (Hbelow : forall k wk0, g_workers s !! k = Some wk0 -> idx ∉ k_held wk0).
  { intros k wk0 Hk Hj. pose proof (loan_below_base s k wk0 idx I Hk Hj). lia. }
  assert (Hle : view_le (k_view wk) (store_view s Base (k_view wk)))
    by (apply view_le_seen; specialize (Hts Base); lia).
  apply (inv_append s i wk); try done.
  - apply (msg_ok_carries s); [done|]. apply rmw_msg_ok; [done|by left].
  - apply I.
  - left. change (base s <= base s'). lia.
  - left. change (cursor c0 s <= base s'). lia.
  - change (depth s + Z.of_nat (claims wk) = depth s + Z.of_nat (claims wk')). lia.
  - intros k _. apply gated_le; [lia|apply Hle].
  - apply (worker_ok_next s s' i wk); try done.
    + apply view_ok_seen; [by left| |apply HV, Hwk]. cbn. rewrite decide_True, length_app by done. simpl. lia.
    + constructor; [by eapply Hbelow|apply Hwk].
    + intros j [->|Hj]%elem_of_cons.
      * split; [change (cursor c0 s <= idx < base s'); lia|rewrite ts_store_ne by done; lia|].
        intros ce k Hce. left. rewrite (i_unread _ _ _ I idx ce k); [lia| |lia].
        pose proof (written_window _ _ s I). apply (holds_from_cursor w0 c0 s idx ce I); [lia|exact Hce].
      * apply (loan_ok_same s); [done|done|done|change (base s <= base s'); lia|].
        eapply loan_ok_le; [exact Hle|by apply Hwk].
    + intros u j Hj. right. by apply Hwk in Hj.
  - intros k wk0 Hne Hk. pose proof (i_workers _ _ _ I _ _ Hk) as Hwk0. split.
    + apply (worker_ok_carries s); [done|done|done|by apply no_reads_same| |done].
      intros j Hj. apply loan_ok_same; [done|done|done|]. change (base s <= base s'). lia.
    + intros j Hj [->|Hj']%elem_of_cons; [by eapply Hbelow|].
      apply Hne. by eapply (i_distinct _ _ _ I).
Qed.

(** ** A loan given back *)

(** The newest loan, before anyone has read its record: the pipeline goes back
    by one, and whoever claims the record next is its first reader. *)
Lemma inv_abort s i wk j :
  pool_inv s -> g_workers s !! i = Some wk -> k_pc wk = WIdle ->
  j ∈ k_held wk -> lends s i j = false -> base s = j + 1 ->
  (forall c u, g_cells s !! slot s j = Some c -> c_read c u = O) ->
  pool_inv (with_worker (rmw s Base (Z.min (base s) j)) i
    (mkWorker MResolve (store_view s Base (k_view wk)) (take_loan j (k_held wk)))).
Proof.
  intros I Hi Hpc Hj Hf Eb Hun. pose proof (i_workers _ _ _ I _ _ Hi) as Hwk.
  set (wk' := mkWorker _ _ _). set (s' := with_worker _ i wk').
  pose proof (v_ts _ _ _ _ (k_view_ok _ _ _ _ _ Hwk)) as Hts.
  pose proof (l_cursor _ _ _ _ _ _ (k_loans _ _ _ _ _ Hwk j Hj)) as Hc.
  assert (Ebase : base s' = j) by (etrans; [exact (f_equal m_val (newest_append s Base _))|cbn; lia]).
  assert (HV : forall V, view_ok s V -> view_ok s' V) by (intros V; by apply view_ok_append).
  assert (Hclaims : claims wk' = claims wk).
  { unfold claims. rewrite Hpc. cbn. rewrite (length_take_loan j (k_held wk)); [lia|apply Hwk|done]. }
  assert (Hle : view_le (k_view wk) (store_view s Base (k_view wk)))
    by (apply view_le_seen; specialize (Hts Base); lia).
  assert (Hkeep : forall u V j', j' <> j -> loan_ok s u V j' -> loan_ok s' u V j').
  { intros u V j' Hne Hl. apply (loan_ok_below s); try done. pose proof (l_cursor _ _ _ _ _ _ Hl). lia. }
  apply (inv_append s i wk); try done.
  - apply (msg_ok_carries s); [done|]. apply rmw_msg_ok; [done|by left].
  - apply I.
  - right. intros j' c k [_ Hce] Hj'. change (base s' <= j' < base s) in Hj'. apply (Hun c k).
    by replace j with j' by lia.
  - left. change (cursor c0 s <= base s'). lia.
  - change (depth s + Z.of_nat (claims wk) = depth s + Z.of_nat (claims wk')). lia.
  - intros k _. apply gated_le; [lia|apply Hle].
  - apply (worker_ok_next s s' i wk); try done; [|by apply list.NoDup_filter, Hwk| |by apply still_lending].
    + apply view_ok_seen; [by left| |apply HV, Hwk]. cbn. rewrite decide_True, length_app by done. simpl. lia.
    + intros j' [Hne Hj']%elem_of_take_loan. apply Hkeep; [done|]. eapply loan_ok_le; [exact Hle|by apply Hwk].
  - intros k wk0 Hne Hk. pose proof (i_workers _ _ _ I _ _ Hk) as Hwk0.
    assert (Hd : forall j', j' ∈ k_held wk0 -> j' ∉ k_held wk).
    { intros j' Hj0 Hj1. apply Hne. by eapply (i_distinct _ _ _ I). }
    split.
    + apply (worker_ok_carries s); [done|done|done|by apply no_reads_same| |done].
      intros j' Hj'. apply Hkeep. intros ->. by eapply Hd.
    + intros j' Hj' [_ Hj1]%elem_of_take_loan. by eapply Hd.
Qed.

(** ** A loan committed *)

Lemma commit_at_cursor s i wk j :
  worker_ok s i wk -> k_pc wk = MStore j ->
  j ∈ k_held wk /\ lends s i j = false /\ cursor c0 s = j /\ j <= c0 + Z.of_nat (ts (k_view wk) Cursor).
Proof.
  intros Hwk Hpc. pose proof (k_pc_ok _ _ _ _ _ Hwk) as Hp. unfold PoolInv.pc_ok in Hp.
  rewrite Hpc in Hp. destruct Hp as (Hj & Hf & Hle). split; [done|split; [done|split; [|done]]].
  pose proof (l_cursor _ _ _ _ _ _ (k_loans _ _ _ _ _ Hwk j Hj)).
  pose proof (v_ts _ _ _ _ (k_view_ok _ _ _ _ _ Hwk) Cursor). unfold cursor in *. lia.
Qed.

(** The committer speaks for every read of the records up to its own. *)
Lemma commit_view_ok s i wk wk' j m :
  worker_ok s i wk -> k_pc wk = MStore j ->
  let s' := with_worker (append s Cursor m) i wk' in
  view_ok s' (k_view wk) -> view_ok s' (store_view s Cursor (k_view wk)).
Proof.
  intros Hwk Hpc s' []. destruct (commit_at_cursor s i wk j Hwk Hpc) as (Hj & Hf & Hcur & Hts). split.
  - intros l. destruct (decide (l = Cursor)) as [->|].
    + rewrite ts_store. change (g_mem s' Cursor) with (g_mem (append s Cursor m) Cursor).
      rewrite length_append, decide_True by done. lia.
    + by rewrite ts_store_ne.
  - intros j' ce Hh. rewrite ts_store_ne by done. by apply v_published.
  - intros j' ce k Hh Hj'. rewrite ts_store in Hj'. unfold cursor in Hcur.
    destruct (decide (j' = j)) as [->|].
    + destruct Hh as [_ Hce]. destruct (l_reads _ _ _ _ _ _ (k_loans _ _ _ _ _ Hwk j Hj) ce k Hce) as [|Hl]; [done|].
      by destruct (lends_false _ _ _ _ Hf Hl).
    + apply (v_consumed j' ce k Hh). lia.
Qed.

Lemma inv_commit s i wk j :
  pool_inv s -> g_workers s !! i = Some wk -> k_pc wk = MStore j ->
  pool_inv (with_worker (release s Cursor (j + 1) (k_view wk)) i
    (mkWorker MResolve (store_view s Cursor (k_view wk)) (take_loan j (k_held wk)))).
Proof.
  intros I Hi Hpc. pose proof (i_workers _ _ _ I _ _ Hi) as Hwk.
  destruct (commit_at_cursor s i wk j Hwk Hpc) as (Hj & Hf & Hcur & Hts). unfold release.
  set (wk' := mkWorker MResolve _ _). set (m := mkMsg _ _). set (s' := with_worker _ i wk').
  pose proof (v_ts _ _ _ _ (k_view_ok _ _ _ _ _ Hwk)) as Hl.
  assert (HV : forall V, view_ok s V -> view_ok s' V) by (intros V; by apply view_ok_append).
  assert (HV' : view_ok s' (store_view s Cursor (k_view wk)))
    by (eapply (commit_view_ok s i wk); [done|done|apply HV, Hwk]).
  assert (Ecur : cursor c0 s' = j + 1).
  { unfold cursor in *. change (g_mem s' Cursor) with (g_mem (append s Cursor m) Cursor).
    rewrite length_append, decide_True by done. lia. }
  assert (Hclaims : claims wk' = claims wk).
  { unfold claims. rewrite Hpc. cbn. rewrite (length_take_loan j (k_held wk)); [lia|apply Hwk|done]. }
  assert (Hle : view_le (k_view wk) (store_view s Cursor (k_view wk)))
    by (apply view_le_seen; specialize (Hl Cursor); lia).
  assert (Hkeep : forall u V j', j' <> j -> loan_ok s u V j' -> loan_ok s' u V j').
  { intros u V j' Hne []. split; [change (base s') with (base s); lia|done|exact l_reads]. }
  pose proof (k_loans _ _ _ _ _ Hwk j Hj) as Hjl. pose proof (l_cursor _ _ _ _ _ _ Hjl).
  apply (inv_append s i wk); try done.
  - intros _. change (j + 1 = c0 + Z.of_nat (length (g_mem s Cursor))). unfold cursor in Hcur. lia.
  - change (cursor c0 s' <= widx w0 s). pose proof (l_seen _ _ _ _ _ _ Hjl).
    specialize (Hl Widx). unfold widx. lia.
  - left. by change (base s <= base s).
  - left. change (cursor c0 s' <= base s). lia.
  - change (depth s + Z.of_nat (claims wk) = depth s + Z.of_nat (claims wk')). lia.
  - intros k _. apply gated_le; [lia|apply Hle].
  - apply (worker_ok_next s s' i wk); try done; [by apply list.NoDup_filter, Hwk| |by apply still_lending].
    + intros j' [Hne Hj']%elem_of_take_loan. apply Hkeep; [done|]. eapply loan_ok_le; [exact Hle|by apply Hwk].
  - intros k wk0 Hne Hk. pose proof (i_workers _ _ _ I _ _ Hk) as Hwk0.
    assert (Hd : forall j', j' ∈ k_held wk0 -> j' ∉ k_held wk).
    { intros j' Hj0 Hj1. apply Hne. by eapply (i_distinct _ _ _ I). }
    split.
    + apply (worker_ok_carries s); [done|change (cursor c0 s <= cursor c0 s'); lia|done|by apply no_reads_same| |done].
      intros j' Hj'. apply Hkeep. intros ->. by eapply Hd.
    + intros j' Hj' [_ Hj1]%elem_of_take_loan. by eapply Hd.
Qed.

(** ** A slot read *)

Lemma view_ok_tick s V t : view_ok s V -> view_ok s (tick t V).
Proof.
  intros []. pose proof (view_le_tick V t) as [_ Hc]. split; [done| |].
  - intros j c Hh Hj. etransitivity; [by eapply v_published|apply Hc].
  - intros j c i Hh Hj. etransitivity; [by eapply v_consumed|apply Hc].
Qed.

Lemma view_cursor s V : view_ok s V -> c0 + Z.of_nat (ts V Cursor) <= cursor c0 s.
Proof. intros HV. pose proof (v_ts _ _ _ _ HV Cursor). unfold cursor. lia. Qed.
Lemma view_widx s V : view_ok s V -> w0 + Z.of_nat (ts V Widx) <= widx w0 s.
Proof. intros HV. pose proof (v_ts _ _ _ _ HV Widx). unfold widx. lia. Qed.

Lemma pool_slot_with_cell s k c j : slot (with_cell s k c) j = slot s j.
Proof. unfold slot, cap; cbn. by rewrite length_insert. Qed.

Lemma pool_cell_cases s k c j c' :
  g_cells (with_cell s k c) !! slot s j = Some c' ->
  slot s j = k /\ c' = c \/ slot s j <> k /\ g_cells s !! slot s j = Some c'.
Proof.
  cbn. intros [(E1 & E2 & _)|[Hne Hj]]%list_lookup_insert_Some; [left|right]; done.
Qed.

Section read.
(** Worker [i] reads loan [j] of worker [o], which is itself or has lent it. *)
Context (s : pool) (i o : nat) (wk ow : worker) (j : Z) (c : cell).
Context (I : pool_inv s) (Hi : g_workers s !! i = Some wk) (Ho : g_workers s !! o = Some ow).
Context (Hj : j ∈ k_held ow) (Hb : o = i \/ (o, i, j) ∈ g_lent s).
Context (Hc : g_cells s !! slot s j = Some c).

Let c' : cell := read_cell i (k_view wk) c.
Let wk' : worker := mkWorker WIdle (tick (S i) (k_view wk)) (k_held wk).
Let s' : pool := with_worker (with_cell s (slot s j) c') i wk'.

Lemma read_loan_ok : loan_ok s o (k_view ow) j.
Proof. by apply (i_workers _ _ _ I _ _ Ho). Qed.

Lemma read_holds : holds w0 s j c.
Proof.
  eapply (loan_holds w0 c0 s o (k_view ow)); [done|apply (i_workers _ _ _ I _ _ Ho)|apply read_loan_ok|done].
Qed.

Lemma read_ordered : write_ordered (k_view wk) c = true.
Proof.
  pose proof (i_workers _ _ _ I _ _ Hi) as []. apply Nat.leb_le.
  apply (v_published _ _ _ _ k_view_ok j c read_holds). destruct Hb as [Eo|Hl]; [|by eapply k_borrowed].
  assert (Ew : ow = wk) by congruence. rewrite <- Ew. apply read_loan_ok.
Qed.

(** Another record of the window is in another slot. *)
Lemma other_slot j' : j' <> j -> written w0 s - cap s <= j' < written w0 s -> slot s j' <> slot s j.
Proof.
  intros Hne Hw E. apply Hne. destruct read_holds as [Hw' _].
  apply (pool_slot_inj s j' j); [apply I|done|lia].
Qed.

Lemma read_cells j' cc : g_cells s' !! slot s' j' = Some cc ->
  slot s j' = slot s j /\ cc = c' \/ slot s j' <> slot s j /\ g_cells s !! slot s j' = Some cc.
Proof.
  change (slot s' j') with (slot (with_cell s (slot s j) c') j'). rewrite pool_slot_with_cell.
  apply pool_cell_cases.
Qed.

Lemma read_holds_inv j' cc :
  holds w0 s' j' cc -> j' = j /\ cc = c' \/ j' <> j /\ holds w0 s j' cc.
Proof.
  intros [Hw Hcc%read_cells]. change (written w0 s') with (written w0 s) in Hw.
  assert (Ecap : cap s' = cap s) by (unfold cap; cbn; by rewrite length_insert).
  rewrite Ecap in Hw. destruct (decide (j' = j)) as [->|Hne].
  - left. split; [done|]. by destruct Hcc as [[_ ->]|[[] _]].
  - right. split; [done|split; [done|]]. destruct Hcc as [[E _]|[_ Hcc]]; [|done].
    by destruct (other_slot j' Hne Hw).
Qed.

Lemma read_view V : view_ok s V -> view_ok s' V.
Proof.
  intros HV. apply (view_ok_carries s); [done| | |done]; intros j' cc Hh%read_holds_inv Hlt.
  - destruct Hh as [[-> ->]|[_ Hh]]; [|by exists cc]. exists c. split; [apply read_holds|done].
  - destruct Hh as [[-> ->]|[_ Hh]]; [|by exists cc]. pose proof (view_cursor s V HV).
    pose proof (l_cursor _ _ _ _ _ _ read_loan_ok). lia.
Qed.

Lemma read_loan u V j' : view_ok s V -> loan_ok s u V j' -> j' <> j -> loan_ok s' u V j'.
Proof.
  intros HV Hl Hne. destruct Hl as [Hcur Hseen Hreads]. split; [done|done|].
  intros cc k [[E _]|[_ Hcc]]%read_cells; [|by apply Hreads].
  pose proof (written_window _ _ s I). pose proof (view_widx s V HV).
  by destruct (other_slot j' Hne ltac:(lia)).
Qed.

(** The owner need not know the reads of a borrower. *)
Lemma read_own_loan V : view_le (k_view ow) V -> (o = i -> (S (clk (k_view wk) (S i)) <= clk V (S i))%nat) ->
  loan_ok s' o V j.
Proof.
  intros Hle Hclk. destruct (loan_ok_le _ _ _ _ _ Hle read_loan_ok) as [Hcur Hseen Hreads].
  split; [done|done|]. intros cc k [[_ ->]|[[] _]]%read_cells; [|done]. cbn.
  destruct (Nat.eqb_spec k i) as [->|]; [|by apply Hreads].
  rewrite Nat.eqb_refl. destruct Hb as [E|Hl]; [left; by apply Hclk|by right].
Qed.

Lemma read_no_reads k : k <> i -> no_reads k s s'.
Proof.
  intros Hne k0 cc [(<- & <- & _)|[_ Hk]]%list_lookup_insert_Some; [exists (slot s j), c|by exists k0, cc].
  split; [done|]. cbn. by rewrite (proj2 (Nat.eqb_neq k i) Hne).
Qed.

Lemma reader_ok : worker_ok s' i wk'.
Proof.
  destruct (i_workers _ _ _ I _ _ Hi) as [HV Hn Hl Hown Hlent Hbor _].
  pose proof (view_le_tick (k_view wk) (S i)) as Hle. split; try done.
  - by apply read_view, view_ok_tick.
  - intros j' Hj'. destruct (decide (j' = j)) as [->|Hne].
    + assert (Eo : o = i) by (by eapply (i_distinct _ _ _ I)). assert (Ew : ow = wk) by congruence.
      pose proof (read_own_loan (k_view wk')) as Hr. rewrite Eo, Ew in Hr. apply Hr; [done|]. intros _. cbn.
      by rewrite Nat.eqb_refl.
    + apply read_loan; [by apply view_ok_tick| |done]. eapply loan_ok_le; [exact Hle|by apply Hl].
  - intros k cc [(<- & <- & _)|[_ Hk]]%list_lookup_insert_Some; [cbn; by rewrite !Nat.eqb_refl|].
    etransitivity; [by eapply Hown|apply Hle].
Qed.

Lemma read_worker k wk0 : g_workers s' !! k = Some wk0 -> exists wk1,
  g_workers s !! k = Some wk1 /\ k_held wk0 = k_held wk1 /\ worker_ok s' k wk0.
Proof.
  intros [(<- & <- & _)|[Hne Hk]]%list_lookup_insert_Some; [exists wk; split_and!; [done..|apply reader_ok]|].
  change (g_workers s !! k = Some wk0) in Hk.
  exists wk0. split_and!; [done..|]. pose proof (i_workers _ _ _ I _ _ Hk) as Hwk0.
  apply (worker_ok_carries s); [apply read_view|done|done|by apply read_no_reads| |done].
  intros j' Hj' Hl. destruct (decide (j' = j)) as [->|]; [|apply read_loan; [apply Hwk0|done..]].
  assert (Eo : o = k) by (by eapply (i_distinct _ _ _ I)). assert (Ew : ow = wk0) by congruence.
  pose proof (read_own_loan (k_view wk0)) as Hr. rewrite Eo, Ew in Hr.
  apply Hr; [apply view_le_refl|by intros ->].
Qed.

Lemma inv_read : k_pc wk = WIdle -> pool_inv s'.
Proof.
  intros Hpc. pose proof (l_cursor _ _ _ _ _ _ read_loan_ok) as Hjc.
  assert (Hclaims : claims wk' = claims wk) by (unfold claims; rewrite Hpc; done).
  assert (Ecap : cap s' = cap s) by (unfold cap; cbn; by rewrite length_insert).
  destruct I. split; try done; try (rewrite Ecap; done).
  - intros j' cc [[-> ->]|[_ Hh]]%read_holds_inv Hlt; [|by apply i_vals]. by apply (i_vals j c read_holds).
  - intros j' cc k [[-> ->]|[_ Hh]]%read_holds_inv Hlt; [|by eapply i_unread].
    change (Z.max (base s) (cursor c0 s) <= j) in Hlt. lia.
  - intros l k m Hm. apply (msg_ok_carries s); [apply read_view|by apply i_msgs].
  - by apply read_view.
  - intros k cc [(<- & <- & _)|[_ Hk]]%list_lookup_insert_Some; [by apply (i_writes (slot s j) c)|by eapply i_writes].
  - unfold ppc_ok in *. change (g_pc s') with (g_pc s). rewrite Ecap.
    destruct (g_pc s) eqn:Ep; try done. destruct i_ppc as (-> & Hlt & Hv). split_and!; [done..|].
    intros cc [[E ->]|[_ Hcc]]%read_cells; [|by apply Hv]. apply (Hv c). by rewrite E.
  - intros k wk0 (wk1 & _ & _ & Hk)%read_worker. done.
  - intros x u j' Hin. cbn. apply lookup_lt_is_Some_2. rewrite length_insert. by eapply lookup_lt_is_Some_1, i_lenders.
  - intros k k' wk1 wk2 j' (wk3 & Hk1 & -> & _)%read_worker (wk4 & Hk2 & -> & _)%read_worker. by apply i_distinct.
  - change (depth s' ) with (depth s). rewrite i_depth. cbn.
    pose proof (sum_list_with_insert claims (g_workers s) i wk' wk Hi). lia.
  - intros k m Hm. specialize (i_gate k m Hm). cbn.
    pose proof (sum_list_with_insert (gated k) (g_workers s) i wk' wk Hi).
    pose proof (gated_le k wk wk' ltac:(lia) ltac:(done)). lia.
Qed.
End read.

(** ** The producer *)

(** A producer's step that writes nothing. *)
Lemma pool_producer s pc W :
  let s' := with_producer s pc W in
  pool_inv s -> view_le (g_view s) W -> view_ok s W -> written w0 s' = written w0 s ->
  ppc_ok w0 c0 s' -> pool_inv s'.
Proof.
  intros s' I [Hts Hclk] HW Hwr Hp. assert (HV : forall V, view_ok s V -> view_ok s' V)
    by (intros V; by apply view_ok_mem).
  assert (Hh : forall j c, holds w0 s' j c -> holds w0 s j c) by (intros j c; unfold holds; by rewrite Hwr).
  destruct I. split; try done.
  - intros j c Hj. by apply i_vals, Hh.
  - intros j c k Hj. by apply (i_unread j c k), Hh.
  - intros l k m Hm. apply (msg_ok_carries s); [done|by apply i_msgs].
  - by apply HV.
  - pose proof (v_ts _ _ _ _ HW Widx). specialize (Hts Widx). cbn. lia.
  - intros k c Hk. etransitivity; [by eapply i_writes|apply Hclk].
  - intros k wk Hk. apply (worker_ok_carries s); [done|done|done|by apply no_reads_same|intros j _; by apply loan_ok_same|by eapply i_workers].
Qed.

Lemma inv_push s v k m :
  pool_inv s -> g_pc s = PIdle -> load s (g_view s) Widx k = Some m ->
  pool_inv (with_producer s (PScan (m_val m) v) (seen Widx k (g_view s))).
Proof.
  intros I Hpc [Hk Hm]%load_inv. pose proof (i_own _ _ _ I). pose proof (lookup_lt_Some _ _ _ Hm).
  assert (k = ts (g_view s) Widx) as -> by lia.
  apply pool_producer; [done|by apply view_le_seen| |unfold written; by rewrite Hpc|].
  - destruct (i_prod _ _ _ I) as [Ht Hp Hc]. split; [|intros j c Hh; rewrite ts_seen; by apply Hp|done].
    intros l. destruct (decide (l = Widx)) as [->|]; [by rewrite ts_seen|by rewrite ts_seen_ne].
  - unfold ppc_ok; cbn. rewrite (i_widx _ _ _ I _ _ Hm).
    change (w0 + Z.of_nat (ts (g_view s) Widx) = widx w0 s). unfold widx. lia.
Qed.

Lemma inv_scan s w v others k m :
  pool_inv s -> g_pc s = PScan w v -> load s (g_view s) Cursor k = Some m ->
  pool_inv (with_producer s (if cap s <=? w - Z.min others (m_val m) then PIdle else PWrite w v)
    (acquire Cursor k m (g_view s))).
Proof.
  intros I Hpc Hld. pose proof (load_inv _ _ _ _ _ Hld) as [Hk Hm].
  pose proof (i_ppc _ _ _ I) as Hp. unfold ppc_ok in Hp. rewrite Hpc in Hp.
  apply pool_producer; [done|by eapply view_le_acquire| | |].
  - apply view_ok_acquire; [done|by right|apply I|done].
  - unfold written; cbn. rewrite Hpc. by destruct (_ <=? _).
  - unfold ppc_ok; cbn. destruct (Z.leb_spec (cap s) (w - Z.min others (m_val m))); [done|].
    rewrite (i_cursor _ _ _ I _ _ Hm) in *. apply lookup_lt_Some in Hm.
    change (cap (with_producer s (PWrite w v) (acquire Cursor k m (g_view s)))) with (cap s).
    change (cursor c0 (with_producer s (PWrite w v) (acquire Cursor k m (g_view s)))) with (cursor c0 s).
    split_and!; [done|unfold cursor; lia|].
    change (w - cap s < c0 + Z.of_nat (ts (acquire Cursor k m (g_view s)) Cursor)). rewrite ts_acquire. lia.
Qed.

(** The slot about to be written is free of unordered reads. *)
Lemma write_reads_ordered s w v c :
  pool_inv s -> g_pc s = PWrite w v -> g_cells s !! slot s w = Some c -> reads_ordered s c = true.
Proof.
  intros I Hpc Hc. pose proof (i_ppc _ _ _ I) as Hp. unfold ppc_ok in Hp. rewrite Hpc in Hp.
  destruct Hp as (Hw & _ & Hlo). pose proof (i_cap _ _ _ I).
  apply forallb_forall. intros k _. apply Nat.leb_le. apply (v_consumed _ _ _ _ (i_prod _ _ _ I) (w - cap s)); [|done].
  split; [unfold written; rewrite Hpc; lia|]. unfold slot in *.
  replace (w - cap s) with (w + -1 * cap s) by lia. by rewrite Z_mod_plus_full.
Qed.

Section write.
Context (s : pool) (w v : Z) (c : cell).
Context (I : pool_inv s) (Hpc : g_pc s = PWrite w v) (Hc : g_cells s !! slot s w = Some c).

Let V' : view := tick 0 (g_view s).
Let c' : cell := mkCell v (clk V' O) (fun _ => O).
Let s' : pool := with_cell (with_producer s (PStore w v) V') (slot s w) c'.

Lemma write_facts : w = widx w0 s /\ written w0 s = w /\ w < cursor c0 s + cap s /\ cap s' = cap s /\ 0 < cap s.
Proof.
  pose proof (i_ppc _ _ _ I) as Hp. unfold ppc_ok in Hp. rewrite Hpc in Hp. destruct Hp as (Hw & Hlt & _).
  split_and!; [done|unfold written; by rewrite Hpc|done|unfold cap; cbn; by rewrite length_insert|apply I].
Qed.

Lemma write_holds_inv j cc : holds w0 s' j cc -> j = w /\ cc = c' \/ j < w /\ holds w0 s j cc.
Proof.
  destruct write_facts as (Ew & Ewr & Hlt & Ecap & Hcap). intros [Hw Hcc].
  change (written w0 s') with (w + 1) in Hw. rewrite Ecap in Hw.
  assert (Es : slot s' j = slot s j) by (unfold slot; by rewrite Ecap). rewrite Es in Hcc.
  change (g_cells s') with (<[slot s w := c']> (g_cells s)) in Hcc.
  destruct (decide (j = w)) as [->|Hne].
  - left. split; [done|]. rewrite list_lookup_insert_eq in Hcc by (by eapply lookup_lt_Some). by injection Hcc.
  - right. split; [lia|]. split; [lia|]. rewrite list_lookup_insert_ne in Hcc; [done|].
    intros E. apply Hne. symmetry. apply (pool_slot_inj s); [done|done|lia].
Qed.

Lemma write_view V : view_ok s V -> view_ok s' V.
Proof.
  intros HV. destruct write_facts as (Ew & _). pose proof (view_widx s V HV). pose proof (view_cursor s V HV).
  pose proof (i_window _ _ _ I).
  apply (view_ok_carries s); [done| | |done]; intros j cc [[-> _]|[_ Hh]]%write_holds_inv Hj; [lia|by exists cc|lia|by exists cc].
Qed.

Lemma write_loan i V j : view_ok s V -> loan_ok s i V j -> loan_ok s' i V j.
Proof.
  intros HV [Hcur Hseen Hreads]. destruct write_facts as (Ew & _ & Hlt & Ecap & Hcap).
  pose proof (view_widx s V HV). split; [done|done|]. intros cc k Hcc.
  assert (Es : slot s' j = slot s j) by (unfold slot; by rewrite Ecap). rewrite Es in Hcc.
  change (g_cells s') with (<[slot s w := c']> (g_cells s)) in Hcc.
  rewrite list_lookup_insert_ne in Hcc; [by apply Hreads|].
  intros E. assert (w = j); [|lia]. apply (pool_slot_inj s); [done|done|lia].
Qed.

Lemma pool_write : pool_inv s'.
Proof.
  destruct write_facts as (Ew & Ewr & Hlt & Ecap & Hcap). pose proof (i_writes _ _ _ I) as Hwrites.
  destruct I. split; try done; try (rewrite Ecap; done).
  - intros j cc [[-> _]|[_ Hh]]%write_holds_inv Hj; [change (widx w0 s') with (widx w0 s) in Hj; lia|by apply i_vals].
  - intros j cc k [[_ ->]|[_ Hh]]%write_holds_inv Hj; [done|by eapply i_unread].
  - intros l k m Hm. apply (msg_ok_carries s); [apply write_view|by apply i_msgs].
  - by apply write_view, view_ok_tick.
  - intros k cc [(_ & <- & _)|[_ Hk]]%list_lookup_insert_Some; [done|].
    etransitivity; [by eapply Hwrites|apply view_le_tick].
  - unfold ppc_ok. change (g_pc s') with (PStore w v). rewrite Ecap. split_and!; [done|done|].
    intros cc Hcc. assert (Es : slot s' w = slot s w) by (unfold slot; by rewrite Ecap). rewrite Es in Hcc.
    change (g_cells s') with (<[slot s w := c']> (g_cells s)) in Hcc.
    rewrite list_lookup_insert_eq in Hcc by (by eapply lookup_lt_Some). by injection Hcc as <-.
  - intros k wk Hk. specialize (i_workers k wk Hk).
    apply (worker_ok_carries s); [apply write_view|done|done| | |done].
    + intros k0 cc [(_ & <- & _)|[_ Hk0]]%list_lookup_insert_Some; [|by exists k0, cc].
      exists (slot s w), c. split; [done|cbn; lia].
    + intros j _. apply write_loan, i_workers.
Qed.
End write.

Section publish.
Context (s : pool) (w v : Z) (I : pool_inv s) (Hpc : g_pc s = PStore w v).

Let V' : view := store_view s Widx (g_view s).
Let s' : pool := mkPool PIdle V' (g_mem (release s Widx (w + 1) (g_view s))) (g_log s ++ [v])
  (g_cells s) (g_workers s) (g_lent s) (g_race s).

Lemma publish_facts : w = widx w0 s /\ widx w0 s' = w + 1 /\ written w0 s' = written w0 s.
Proof.
  pose proof (i_ppc _ _ _ I) as Hp. unfold ppc_ok in Hp. rewrite Hpc in Hp. destruct Hp as (Hw & _ & _).
  assert (E : widx w0 s' = w + 1).
  { unfold widx in *. change (g_mem s' Widx) with (g_mem (append s Widx (mkMsg (w + 1) V')) Widx).
    rewrite length_append, decide_True by done. lia. }
  split_and!; [done|done|]. unfold written. rewrite Hpc. exact E.
Qed.

Lemma publish_view V : view_ok s V -> view_ok s' V.
Proof.
  destruct publish_facts as (_ & _ & Ewr). apply view_ok_mem; [|done|done].
  intros l. change (g_mem s' l) with (g_mem (append s Widx (mkMsg (w + 1) V')) l). rewrite length_append. lia.
Qed.

Lemma publish_own_view : view_ok s' V'.
Proof.
  destruct publish_facts as (_ & _ & Ewr). pose proof (i_writes _ _ _ I) as Hwrites.
  destruct (publish_view _ (i_prod _ _ _ I)) as [Ht _ Hcon]. split.
  - intros l. unfold V'. destruct (decide (l = Widx)) as [->|]; [|by rewrite ts_store_ne].
    rewrite ts_store. change (g_mem s' Widx) with (g_mem (append s Widx (mkMsg (w + 1) V')) Widx).
    rewrite length_append, decide_True by done. lia.
  - intros j c [_ Hc] _. by apply (Hwrites (slot s j)).
  - intros j c k Hh. unfold V'. rewrite ts_store_ne by done. by apply Hcon.
Qed.

Lemma inv_publish : pool_inv s'.
Proof.
  destruct publish_facts as (Ew & Ew' & Ewr). pose proof (i_ppc _ _ _ I) as Hp.
  unfold ppc_ok in Hp. rewrite Hpc in Hp. destruct Hp as (_ & Hlt & Hval).
  assert (Hh : forall j c, holds w0 s' j c -> holds w0 s j c) by (intros j c; unfold holds; by rewrite Ewr).
  destruct I. split; try done.
  - intros [] ; cbn; try apply i_nonempty. by destruct (g_mem s Widx).
  - intros k m [Hk|(_ & -> & ->)]%mem_append; [by apply i_widx|]. cbn. unfold widx in Ew. lia.
  - rewrite Ew'. change (cursor c0 s') with (cursor c0 s). change (cap s') with (cap s). lia.
  - rewrite Ew'. cbn. rewrite length_app. simpl. lia.
  - intros j c Hj. rewrite Ew'. intros Hjw. cbn. pose proof (Hh j c Hj) as Hj0.
    destruct (decide (j = w)) as [->|Hne].
    + rewrite (Hval c) by apply Hj0. rewrite lookup_app_r by lia.
      replace (Z.to_nat w - length (g_log s))%nat with O by lia. done.
    + rewrite lookup_app_l by lia. apply i_vals; [done|lia].
  - intros j c k Hj. by apply (i_unread j c k), Hh.
  - intros l k m [Hk|(-> & -> & ->)]%mem_append.
    + apply (msg_ok_carries s); [apply publish_view|by apply i_msgs].
    + split; [apply publish_own_view| |done]. intros _. cbn [m_view]. by rewrite ts_store.
  - apply publish_own_view.
  - cbn. rewrite !decide_True, length_app by done. simpl. lia.
  - intros k wk Hk. apply (worker_ok_carries s); [apply publish_view|done|done|by apply no_reads_same|intros j _; by apply loan_ok_same|by eapply i_workers].
Qed.
End publish.

(** ** A loan handed over *)

(** A loan that nobody has borrowed is anybody's who knows as much. *)
Lemma loan_ok_moves s i i' V W j :
  loan_ok s i V j -> lends s i j = false -> view_le V W -> loan_ok s i' W j.
Proof.
  intros [Hc Hs Hr] Hf [Ht Hk]. split; [done|specialize (Ht Widx); lia|]. intros c u Hcu. left.
  destruct (Hr c u Hcu) as [Hle|Hl]; [etransitivity; [exact Hle|apply Hk]|by destruct (lends_false _ _ _ _ Hf Hl)].
Qed.

Lemma view_le_join_r V W : view_le W (vjoin V W).
Proof. split; intros ?; cbn; lia. Qed.

(** A worker that has learnt by joining another one's view is as well off. *)
Lemma gated_join k wk V held : k_held wk = held -> k_pc wk = WIdle ->
  (gated k (mkWorker WIdle (vjoin (k_view wk) V) held) <= gated k wk)%nat.
Proof. intros <- Hpc. apply gated_le; [unfold claims; by rewrite Hpc|cbn; lia]. Qed.

Lemma inv_move s i i' wk wk' j :
  pool_inv s -> g_workers s !! i = Some wk -> g_workers s !! i' = Some wk' ->
  k_pc wk = WIdle -> k_pc wk' = WIdle -> i <> i' -> j ∈ k_held wk -> lends s i j = false ->
  pool_inv (with_worker (with_worker s i (mkWorker WIdle (k_view wk) (take_loan j (k_held wk)))) i'
    (mkWorker WIdle (vjoin (k_view wk') (k_view wk)) (j :: k_held wk'))).
Proof.
  intros I Hi Hi' Hpc Hpc' Hne Hj Hf. set (a := mkWorker WIdle (k_view wk) _). set (b := mkWorker WIdle (vjoin _ _) _).
  pose proof (i_workers _ _ _ I _ _ Hi) as Hwk. pose proof (i_workers _ _ _ I _ _ Hi') as Hwk'.
  assert (Hi2 : <[i := a]> (g_workers s) !! i' = Some wk') by (by rewrite list_lookup_insert_ne).
  assert (Hjn : j ∉ k_held wk') by (intros Hj'; apply Hne; by eapply (i_distinct _ _ _ I)).
  assert (Hlen : length (k_held wk) = S (length (take_loan j (k_held wk))))
    by (apply length_take_loan; [apply Hwk|done]).
  assert (Hwl : forall k wk0, <[i' := b]> (<[i := a]> (g_workers s)) !! k = Some wk0 ->
    k = i' /\ wk0 = b \/ k = i /\ wk0 = a \/ k <> i /\ k <> i' /\ g_workers s !! k = Some wk0).
  { intros k wk0 [(-> & <- & _)|[Hk [(-> & <- & _)|[Hk' H]]%list_lookup_insert_Some]]%list_lookup_insert_Some; auto. }
  apply (inv_workers s (<[i' := b]> (<[i := a]> (g_workers s))) (g_lent s)); [done|by rewrite !length_insert|apply I|..].
  - intros k wk0 Hk. apply worker_ok_lent. revert Hk.
    intros [[-> ->]|[[-> ->]|(_ & _ & Hk)]]%Hwl; [| |by eapply (i_workers _ _ _ I)].
    + apply (worker_ok_next s s i' wk'); try done; [apply view_le_join|apply view_ok_join; [apply Hwk'|apply Hwk]| | |].
      * constructor; [done|apply Hwk'].
      * intros j' [->|Hj']%elem_of_cons; [|apply (loan_ok_le _ _ (k_view wk')); [apply view_le_join|by apply Hwk']].
        eapply loan_ok_moves; [by apply Hwk|done|apply view_le_join_r].
      * intros u j' Hl. right. by apply Hwk' in Hl.
    + apply (worker_learns s i wk); try done; [apply Hwk|apply list.NoDup_filter, Hwk| |by apply still_lending].
      by intros j' [_ ?]%elem_of_take_loan.
  - assert (Hsrc : forall k wk0 j', <[i' := b]> (<[i := a]> (g_workers s)) !! k = Some wk0 -> j' ∈ k_held wk0 ->
      k = i' /\ j' = j \/ j' <> j /\ exists wk1, g_workers s !! k = Some wk1 /\ j' ∈ k_held wk1).
    { intros k wk0 j' [[-> ->]|[[-> ->]|(Hk1 & _ & Hk)]]%Hwl Hj'.
      - apply elem_of_cons in Hj' as [->|Hj']; [by left|right]. split; [by intros ->|by exists wk'].
      - apply elem_of_take_loan in Hj' as [? ?]. right. split; [done|by exists wk].
      - right. split; [|by exists wk0]. intros ->. apply Hk1. by eapply (i_distinct _ _ _ I). }
    intros k k' wk1 wk2 j' Hk Hk' Hj1 Hj2.
    destruct (Hsrc _ _ _ Hk Hj1) as [[-> ->]|(Hn1 & x & Hx & Hjx)], (Hsrc _ _ _ Hk' Hj2) as [[-> E]|(Hn2 & y & Hy & Hjy)];
      try done. by eapply (i_distinct _ _ _ I).
  - pose proof (sum_list_with_insert claims (g_workers s) i a wk Hi).
    pose proof (sum_list_with_insert claims (<[i := a]> (g_workers s)) i' b wk' Hi2).
    unfold claims in *. rewrite Hpc, Hpc' in *. cbn in *. lia.
  - intros k. pose proof (sum_list_with_insert (gated k) (g_workers s) i a wk Hi).
    pose proof (sum_list_with_insert (gated k) (<[i := a]> (g_workers s)) i' b wk' Hi2).
    unfold gated in *. cbn [a b k_view ts vjoin] in *. unfold claims in *. rewrite Hpc, Hpc' in *. cbn in *.
    destruct (Nat.leb_spec (ts (k_view wk) Depth) k), (Nat.leb_spec (ts (k_view wk') Depth) k),
      (Nat.leb_spec (Nat.max (ts (k_view wk') Depth) (ts (k_view wk) Depth)) k); lia.
Qed.
(** ** A loan lent and got back *)

(** Worker [i] learns what [V] knows, and the loans lent change: a new loan is
    lent to it, one got back is its own and read by a thread [V] speaks for. *)
Section lent.
Context (s : pool) (i : nat) (wk : worker) (V : view) (lent : list (nat * nat * Z)).
Context (I : pool_inv s) (Hi : g_workers s !! i = Some wk) (Hpc : k_pc wk = WIdle) (HV : view_ok s V).
Context (Hnew : forall o u j, (o, u, j) ∈ lent -> (o, u, j) ∈ g_lent s \/
  u = i /\ j < w0 + Z.of_nat (ts V Widx) /\
  exists ow, g_workers s !! o = Some ow /\ k_pc ow = WIdle /\ j ∈ k_held ow).
Context (Hold : forall o u j, (o, u, j) ∈ g_lent s -> (o, u, j) ∈ lent \/
  o = i /\ forall k c, g_cells s !! k = Some c -> (c_read c u <= clk V (S u))%nat).

Let s' : pool := with_lent s lent.

Lemma lent_worker k wk0 W :
  g_workers s !! k = Some wk0 -> view_le (k_view wk0) W -> view_ok s W ->
  (k = i -> view_le V W) -> W = k_view wk0 \/ k_pc wk0 = WIdle ->
  worker_ok s' k (mkWorker (k_pc wk0) W (k_held wk0)).
Proof.
  intros Hk [Ht Hc] HW HVW Hw. destruct (i_workers _ _ _ I _ _ Hk) as [_ Hn Hl Hown Hlent Hbor Hp].
  split; cbn [k_view k_held]; [by apply (view_ok_mem s)|done| | | | |].
  - intros j Hj. destruct (loan_ok_le _ _ _ _ _ (conj Ht Hc) (Hl j Hj)) as [Hcur Hseen Hreads].
    split; [done|done|]. intros c u Hcu. destruct (Hreads c u Hcu) as [|[|[-> Hr]]%Hold]; [by left|by right|left].
    etransitivity; [by eapply Hr|by apply HVW].
  - intros k0 c Hk0. etransitivity; [by eapply Hown|apply Hc].
  - intros u j [Hin|(_ & _ & ow & Ho & _ & Hj)]%Hnew; [by eapply Hlent|]. congruence.
  - intros o j [Hin|(-> & Hj & _)]%Hnew.
    + specialize (Hbor o j Hin). specialize (Ht Widx). lia.
    + destruct (HVW eq_refl) as [HVt _]. specialize (HVt Widx). lia.
  - destruct Hw as [-> | ->]; [|done]. unfold PoolInv.pc_ok in *. cbn. destruct (k_pc wk0) eqn:Ep; try done.
    destruct Hp as (Hj & Hf & Hle). split_and!; [done| |done].
    destruct (lends s' k j) eqn:El; [|done]. apply lends_true in El as (u & [Hin|(_ & _ & ow & Ho & Ep' & _)]%Hnew).
    + by destruct (lends_false _ _ _ _ Hf Hin).
    + congruence.
Qed.

Lemma inv_lent : pool_inv (with_lent (with_worker s i (mkWorker WIdle (vjoin (k_view wk) V) (k_held wk))) lent).
Proof.
  pose proof (i_workers _ _ _ I _ _ Hi) as Hwk. set (wk' := mkWorker _ _ _).
  assert (Hwl : forall k wk0, <[i := wk']> (g_workers s) !! k = Some wk0 ->
    exists wk1, g_workers s !! k = Some wk1 /\ k_held wk0 = k_held wk1 /\ worker_ok s' k wk0).
  { intros k wk0 [(<- & <- & _)|[Hne Hk]]%list_lookup_insert_Some.
    - exists wk. split_and!; [done..|]. unfold wk'. rewrite <- Hpc.
      apply lent_worker; [done|apply view_le_join|apply view_ok_join; [apply Hwk|done]|intros _; apply view_le_join_r|by right].
    - exists wk0. split_and!; [done..|].
      pose proof (lent_worker k wk0 (k_view wk0) Hk (view_le_refl _)) as H. destruct wk0.
      apply H; [by apply (i_workers _ _ _ I _ _ Hk)|by intros ->|by left]. }
  apply (inv_workers s (<[i := wk']> (g_workers s)) lent); [done|by rewrite length_insert|..].
  - intros o u j [Hl|(_ & _ & ow & Ho & _)]%Hnew; [by eapply (i_lenders _ _ _ I)|by exists ow].
  - by intros k wk0 (wk1 & _ & _ & Hk)%Hwl.
  - intros k k' wk1 wk2 j (wk3 & Hk1 & -> & _)%Hwl (wk4 & Hk2 & -> & _)%Hwl. by apply (i_distinct _ _ _ I).
  - pose proof (sum_list_with_insert claims (g_workers s) i wk' wk Hi).
    assert (claims wk' = claims wk) by (unfold claims; by rewrite Hpc). lia.
  - intros k. pose proof (sum_list_with_insert (gated k) (g_workers s) i wk' wk Hi).
    pose proof (gated_join k wk V (k_held wk) eq_refl Hpc). unfold wk' in *. lia.
Qed.
End lent.

Lemma inv_lend s i i' wk wk' j :
  pool_inv s -> g_workers s !! i = Some wk -> g_workers s !! i' = Some wk' ->
  k_pc wk = WIdle -> k_pc wk' = WIdle -> j ∈ k_held wk ->
  pool_inv (with_lent (with_worker s i' (mkWorker WIdle (vjoin (k_view wk') (k_view wk)) (k_held wk')))
    ((i, i', j) :: g_lent s)).
Proof.
  intros I Hi Hi' Hpc Hpc' Hj. pose proof (i_workers _ _ _ I _ _ Hi) as Hwk.
  apply inv_lent; [done..|apply Hwk| |].
  - intros o u j' [[= -> -> ->]|Hin]%elem_of_cons; [right|by left].
    split; [done|split; [by apply Hwk|by exists wk]].
  - intros o u j' Hin. left. by right.
Qed.

Lemma inv_return s i i' wk wk' j :
  pool_inv s -> g_workers s !! i = Some wk -> g_workers s !! i' = Some wk' ->
  k_pc wk = WIdle -> k_pc wk' = WIdle ->
  pool_inv (with_lent (with_worker s i (mkWorker WIdle (vjoin (k_view wk) (k_view wk')) (k_held wk)))
    (filter (fun e => e <> (i, i', j)) (g_lent s))).
Proof.
  intros I Hi Hi' Hpc Hpc'. pose proof (i_workers _ _ _ I _ _ Hi') as Hwk'.
  apply inv_lent; [done..|apply Hwk'| |].
  - intros o u j' [_ Hin]%list_elem_of_filter. by left.
  - intros o u j' Hin. destruct (decide ((o, u, j') = (i, i', j))) as [[= -> -> ->]|Hne]; [right|left].
    + split; [done|apply Hwk'].
    + by apply list_elem_of_filter.
Qed.
End steps.
