(* ===== verification/PoolProps.v ===== *)
(** PoolProps: what threads that share a handle may rely on.

    When every loan is committed, dropped, or aborted as the newest before
    anyone has read it, claims and resolutions of any number of threads are
    exclusive, pinned, gated and race-free.  A loan aborted after a read breaks
    the last of these: the release of [abort] is [Relaxed], so the reads made
    through it are not ordered before the overwriting of its slot. *)

From S2P Require Import Prelude.
From S2P Require Import Pool.
From S2P Require Import PoolInv.
From S2P Require Import PoolSteps.
From stdpp Require Import relations.
Set Default Goal Selector "!".
Open Scope Z_scope.

(** ** Executions *)

(** The discipline: no pops, and a loan is aborted only while it is the newest
    and nobody has read its record.  [claim], [deref], [commit], [drop], loans
    handed over or lent, and the producer's pushes are free. *)
Definition unread (s : pool) (j : Z) : Prop := forall c u, g_cells s !! slot s j = Some c -> c_read c u = O.
Definition careful (s : pool) (a : act) : Prop :=
  match a with
  | Pop _ _ => False
  | Abort _ j => m_val (newest s Base) = j + 1 /\ unread s j
  | _ => True
  end.
Definition loan_step (s s' : pool) : Prop := exists a, careful s a /\ exec s a = Some s'.

(** Actions that are careful in every state. *)
Definition keeps_loans (a : act) : bool :=
  match a with Abort _ _ | Pop _ _ => false | _ => true end.

Lemma keeps_loans_careful s a : keeps_loans a = true -> careful s a.
Proof. by destruct a. Qed.

Section steps.
Context (w0 c0 : Z).
Local Abbreviation pool_inv := (pool_inv w0 c0).

(** A worker that has loaded an index word. *)
Lemma inv_acquire s i wk l k m pc held :
  pool_inv s -> g_workers s !! i = Some wk -> l = Widx \/ l = Cursor ->
  load s (k_view wk) l k = Some m ->
  NoDup held -> (forall j, j ∈ held -> j ∈ k_held wk) -> (forall u j, (i, u, j) ∈ g_lent s -> j ∈ held) ->
  claims (mkWorker pc (acquire l k m (k_view wk)) held) = claims wk ->
  pc_ok w0 c0 s i (mkWorker pc (acquire l k m (k_view wk)) held) ->
  pool_inv (with_worker s i (mkWorker pc (acquire l k m (k_view wk)) held)).
Proof.
  intros I Hi Hl Hld Hn Hh Hlent Hc Hp. pose proof (i_workers _ _ _ I _ _ Hi) as Hwk.
  apply (inv_learn w0 c0 s i wk); try done; [by eapply view_le_acquire|].
  apply view_ok_acquire; [done|done|apply Hwk|done].
Qed.

(** The value of an index word is how far the view has got. *)
Lemma acquired_widx s V k m :
  pool_inv s -> load s V Widx k = Some m -> m_val m <= w0 + Z.of_nat (ts (acquire Widx k m V) Widx).
Proof. intros I [_ Hm]%load_inv. rewrite (i_widx _ _ _ I _ _ Hm), ts_acquire. lia. Qed.

Lemma acquired_cursor s V k m :
  pool_inv s -> load s V Cursor k = Some m ->
  c0 <= m_val m <= cursor c0 s /\ m_val m <= c0 + Z.of_nat (ts (acquire Cursor k m V) Cursor).
Proof.
  intros I [_ Hm]%load_inv. rewrite (i_cursor _ _ _ I _ _ Hm), ts_acquire.
  apply lookup_lt_Some in Hm. unfold cursor. lia.
Qed.

Lemma inv_same_view s i wk pc :
  pool_inv s -> g_workers s !! i = Some wk ->
  claims (mkWorker pc (k_view wk) (k_held wk)) = claims wk ->
  pc_ok w0 c0 s i (mkWorker pc (k_view wk) (k_held wk)) ->
  pool_inv (with_worker s i (mkWorker pc (k_view wk) (k_held wk))).
Proof.
  intros I Hi Hc Hp. pose proof (i_workers _ _ _ I _ _ Hi) as Hwk.
  apply (inv_learn w0 c0 s i wk); try done; apply Hwk.
Qed.

Lemma claim_phase_inv s i wk a s' :
  pool_inv s -> g_workers s !! i = Some wk ->
  (exists w, k_pc wk = CGotW w) \/ (exists w c, k_pc wk = CGotC w c) \/ (exists w c b, k_pc wk = CGotB w c b) \/
    k_pc wk = CLoop ->
  exec_worker s i wk a = Some s' -> pool_inv s'.
Proof.
  intros I Hi Hpc E. pose proof (i_workers _ _ _ I _ _ Hi) as Hwk.
  pose proof (k_pc_ok _ _ _ _ _ Hwk) as Hp. unfold pc_ok in Hp.
  destruct Hpc as [[w Hpc]|[(w & c & Hpc)|[(w & c & b & Hpc)|Hpc]]]; unfold exec_worker, exec_pop in E; rewrite Hpc in E, Hp;
    destruct a; try discriminate E.
  - apply bind_Some in E as (m & Hm & [= <-]). pose proof (acquired_cursor s _ _ _ I Hm) as [Hc _].
    apply inv_acquire; try done; [by right|apply Hwk|apply Hwk|unfold claims; by rewrite Hpc|].
    split; [|done]. cbn [k_view]. rewrite ts_acquire_ne by done. lia.
  - apply bind_Some in E as (m & Hm & [= <-]). pose proof (load_inv _ _ _ _ _ Hm) as [Hk Hl].
    apply (inv_learn w0 c0 s i wk); try done.
    + by apply view_le_seen.
    + apply view_ok_seen; [by left|by eapply lookup_lt_Some|apply Hwk].
    + apply Hwk.
    + apply Hwk.
    + unfold claims. by rewrite Hpc.
  - injection E as <-. destruct (Z.leb_spec w (Z.max b c)).
    + apply inv_same_view; try done. unfold claims; by rewrite Hpc.
    + destruct (Z.eqb_spec (m_val (newest s Base)) b) as [Eb|Eb].
      * by eapply inv_claim.
      * apply inv_same_view; try done. unfold claims; by rewrite Hpc.
  - injection E as <-. destruct (w <=? Z.max b c); (apply inv_same_view; try done; unfold claims; by rewrite Hpc).
  - apply bind_Some in E as (m & Hm & [= <-]).
    apply inv_acquire; try done; [by left|apply Hwk|apply Hwk|unfold claims; by rewrite Hpc|].
    by eapply acquired_widx.
Qed.

(** [commit] and [drop], up to the store. *)
Lemma resolve_phase_inv s i wk j k m :
  pool_inv s -> g_workers s !! i = Some wk -> k_pc wk = WIdle -> j ∈ k_held wk -> lends s i j = false ->
  load s (k_view wk) Cursor k = Some m ->
  let W := acquire Cursor k m (k_view wk) in
  (m_val m = j -> pool_inv (with_worker s i (mkWorker (MStore j) W (k_held wk)))) /\
  pool_inv (with_worker s i (mkWorker WIdle W (k_held wk))) /\
  pool_inv (with_worker s i (mkWorker MResolve W (take_loan j (k_held wk)))).
Proof.
  intros I Hi Hpc Hj Hf Hm W. pose proof (i_workers _ _ _ I _ _ Hi) as Hwk.
  pose proof (acquired_cursor s _ _ _ I Hm) as [_ Hc].
  split_and!; [intros <-| |]; apply inv_acquire; try done; try (by right); try (by apply Hwk);
    try (unfold claims; by rewrite Hpc).
  - apply list.NoDup_filter, Hwk.
  - by intros j' [_ ?]%elem_of_take_loan.
  - by eapply still_lending.
  - unfold claims. rewrite Hpc, (length_take_loan j (k_held wk)); [cbn; lia|apply Hwk|done].
Qed.

(** A loan a worker may read is its own or lent to it by a worker that has it. *)
Lemma readable s i wk j :
  pool_inv s -> g_workers s !! i = Some wk -> j ∈ k_held wk \/ borrows s i j = true ->
  exists o ow, g_workers s !! o = Some ow /\ j ∈ k_held ow /\ (o = i \/ (o, i, j) ∈ g_lent s).
Proof.
  intros I Hi [Hj|[o Hb]%borrows_true]; [exists i, wk; auto|].
  destruct (i_lenders _ _ _ I _ _ _ Hb) as [ow Ho]. exists o, ow. split; [done|split; [|by right]].
  by apply (k_lent _ _ _ _ _ (i_workers _ _ _ I _ _ Ho) i).
Qed.

Lemma exec_worker_inv s i wk a s' :
  pool_inv s -> g_workers s !! i = Some wk -> careful s a ->
  exec_worker s i wk a = Some s' -> pool_inv s'.
Proof.
  intros I Hi Ha E. pose proof (i_workers _ _ _ I _ _ Hi) as Hwk.
  pose proof (k_pc_ok _ _ _ _ _ Hwk) as Hp. unfold pc_ok in Hp.
  destruct (k_pc wk) as [| |w|w c|w c b| |j| | |w|r|r] eqn:Hpc; try done;
    try solve [eapply claim_phase_inv; [exact I|exact Hi|rewrite Hpc; eauto 7|exact E]];
    unfold exec_worker, exec_pop in E; rewrite Hpc in E; destruct a; try discriminate E; try (by destruct Ha).
  - injection E as <-. apply inv_gate; [done|done|by left|]. unfold claims, depth. rewrite Hpc. cbn. lia.
  - destruct (decide (_ \/ _)) as [Hj|]; [|discriminate E].
    apply bind_Some in E as (c & Hc & [= <-]). destruct (readable s i wk j I Hi Hj) as (o & ow & Ho & Hjo & Hb).
    rewrite (read_ordered w0 c0 s i o wk ow j c I Hi Ho Hjo Hb Hc).
    by apply (inv_read w0 c0 s i o wk ow j c I Hi Ho Hjo Hb Hc).
  - destruct (decide (_ /\ _)) as [[Hj Hf]|]; [|discriminate E].
    apply bind_Some in E as (m & Hm & [= <-]).
    destruct (resolve_phase_inv s i wk j k m I Hi Hpc Hj Hf Hm) as (H1 & H2 & _).
    destruct (Z.eqb_spec (m_val m) j); auto.
  - destruct (decide (_ /\ _)) as [[Hj Hf]|]; [|discriminate E].
    apply bind_Some in E as (m & Hm & [= <-]).
    destruct (resolve_phase_inv s i wk j k m I Hi Hpc Hj Hf Hm) as (H1 & _ & H2).
    destruct (Z.eqb_spec (m_val m) j); auto.
  - destruct (decide (_ /\ _)) as [[Hj Hf]|]; [|discriminate E]. injection E as <-.
    destruct Ha as [Hb Hun]. by apply inv_abort.
  - injection E as <-. apply inv_gate; [done|done|by right|]. unfold claims, depth. rewrite Hpc. cbn. lia.
  - injection E as <-. by apply inv_commit.
  - injection E as <-. apply inv_gate; [done|done|by right|]. unfold claims, depth. rewrite Hpc. cbn. lia.
Qed.

Lemma exec_producer_inv s a s' : pool_inv s -> exec_producer s a = Some s' -> pool_inv s'.
Proof.
  intros I E. unfold exec_producer in E. destruct (g_pc s) eqn:Hpc, a; try discriminate E.
  - apply bind_Some in E as (m & Hm & [= <-]). by apply inv_push.
  - apply bind_Some in E as (m & Hm & [= <-]). by apply inv_scan.
  - apply bind_Some in E as (c & Hc & [= <-]). rewrite (write_reads_ordered w0 c0 s w v c I Hpc Hc).
    by apply (pool_write w0 c0 s w v c I Hpc).
  - injection E as <-. by apply (inv_publish w0 c0 s w v I).
Qed.

Lemma loan_step_inv s s' : pool_inv s -> loan_step s s' -> pool_inv s'.
Proof.
  intros I (a & Ha & E). unfold exec in E. destruct (actor a) as [i|] eqn:Hact.
  - apply bind_Some in E as (wk & Hi & E). by eapply exec_worker_inv.
  - destruct a; try discriminate Hact; try (by eapply exec_producer_inv);
      apply bind_Some in E as (wk & Hi & E); apply bind_Some in E as (wk' & Hi' & E);
      destruct (k_pc wk) eqn:Hpc; try discriminate E; destruct (k_pc wk') eqn:Hpc'; try discriminate E;
      destruct (decide _) as [Hd|]; try discriminate E; injection E as <-.
    + destruct Hd as (Hne & Hj & Hf). by apply inv_move.
    + destruct Hd as [_ Hj]. by apply inv_lend.
    + by apply inv_return.
Qed.
End steps.

(** ** A handle just opened *)

Section start.
Context (capacity workers : nat) (log : list Z) (c0 : Z).
Let w0 : Z := Z.of_nat (length log).
Let s : pool := shared_handle capacity log c0 workers.
Context (Hcap : (0 < capacity)%nat) (Hc0 : 0 <= c0 <= w0) (Hw0 : w0 <= c0 + Z.of_nat capacity).

Lemma start_cells k c : g_cells s !! k = Some c -> c = start_cell capacity log k /\ (k < capacity)%nat.
Proof.
  intros (x & -> & Hx)%list_lookup_fmap_Some. apply lookup_seq in Hx as [-> Hlt]. by rewrite Nat.add_0_l.
Qed.

Lemma start_cap : cap s = Z.of_nat capacity.
Proof. unfold cap; cbn. by rewrite length_fmap, length_seq. Qed.

Lemma start_words l k m : g_mem s l !! k = Some m ->
  k = O /\ m_view m = vbot /\
  m_val m = match l with Widx => w0 | Cursor => c0 | Base | Depth => 0 end.
Proof. destruct l; cbn; intros [-> <-]%list_lookup_singleton_Some; done. Qed.

Lemma start_view V : (forall l, ts V l = O) -> view_ok w0 c0 s V.
Proof.
  intros H. split; [intros []; rewrite H; cbn; lia| |].
  - intros j c [_ [-> _]%start_cells] _. cbn. lia.
  - intros j c i [_ [-> _]%start_cells] _. cbn. lia.
Qed.

Lemma start_record j c : holds w0 s j c -> 0 <= j -> log !! Z.to_nat j = Some (c_val c).
Proof.
  intros [Hw [-> _]%start_cells] Hj. rewrite start_cap in Hw. unfold written in Hw; cbn in Hw.
  unfold widx in Hw; cbn in Hw. unfold start_cell, slot; cbn. rewrite start_cap. fold w0.
  set (n := Z.of_nat capacity) in *. assert (Hn : 0 < n) by lia.
  rewrite Z2Nat.id by (apply Z.mod_pos_bound; lia).
  assert (E : (w0 - 1 - j mod n) mod n = (w0 - 1 - j) mod n) by apply Zminus_mod_idemp_r.
  rewrite E, (Z.mod_small (w0 - 1 - j)) by lia. replace (w0 - 1 - (w0 - 1 - j)) with j by lia.
  destruct (Z.ltb_spec j 0); [lia|]. destruct (lookup_lt_is_Some_2 log (Z.to_nat j)) as [v Hv]; [lia|].
  by rewrite Hv.
Qed.

Lemma start_inv : pool_inv w0 c0 s.
Proof.
  assert (Hworker : forall i wk, g_workers s !! i = Some wk -> wk = mkWorker WIdle vbot []).
  { intros i wk Hi. by apply lookup_replicate in Hi as [-> _]. }
  split; try done.
  - rewrite start_cap. lia.
  - by intros [].
  - intros k m (-> & _ & ->)%start_words. lia.
  - intros k m (-> & _ & ->)%start_words. lia.
  - rewrite start_cap. unfold widx, cursor; cbn. lia.
  - unfold widx; cbn. fold w0. lia.
  - intros j c Hh [Hj _]. by apply start_record.
  - by intros j c i [_ [-> _]%start_cells].
  - intros l k m (-> & HV & _)%start_words. split; [apply start_view; intros l'; by rewrite HV|lia|lia].
  - by apply start_view.
  - by intros k c [-> _]%start_cells.
  - intros i wk ->%Hworker. split; [by apply start_view|constructor| | | | |done].
    + intros j Hj. by apply not_elem_of_nil in Hj.
    + intros k c [-> _]%start_cells. cbn. lia.
    + by intros u j Hj%not_elem_of_nil.
    + by intros o j Hj%not_elem_of_nil.
  - by intros o u j Hj%not_elem_of_nil.
  - intros i i' wk wk' j ->%Hworker _ Hj. by apply not_elem_of_nil in Hj.
  - cbn. unfold depth; cbn. clear. induction workers as [|n IH]; [done|]. cbn. lia.
  - intros k m (-> & _ & ->)%start_words. cbn. clear. induction workers as [|n IH]; [done|]. cbn. lia.
Qed.

Lemma reachable_pool s' : rtc loan_step s s' -> pool_inv w0 c0 s'.
Proof.
  revert s'. apply rtc_ind_r; [exact start_inv|]. intros s1 s2 _ Hs I. by eapply loan_step_inv.
Qed.
End start.

(** The newest messages of the index words. *)
Lemma newest_index w0 c0 s : pool_inv w0 c0 s ->
  m_val (newest s Widx) = widx w0 s /\ m_val (newest s Cursor) = cursor c0 s.
Proof.
  intros I. pose proof (newest_lookup w0 c0 s Widx I) as Hw. pose proof (newest_lookup w0 c0 s Cursor I) as Hc.
  rewrite (i_widx _ _ _ I _ _ Hw), (i_cursor _ _ _ I _ _ Hc).
  pose proof (i_nonempty _ _ _ I Widx). pose proof (i_nonempty _ _ _ I Cursor).
  unfold widx, cursor. destruct (g_mem s Widx), (g_mem s Cursor); try done. simpl. lia.
Qed.

(** ** Theorems *)


(** C16: Under the same discipline concurrent claims are exclusive and pinned: an
    open loan is held once, by one thread, at an index from the cursor up to [write_idx]; its slot holds
    the record published there, ordered before the holder and every thread the
    holder has lent it to; and the cursor has gone through every index in turn,
    no record skipped. *)
Theorem shared_loans_exclusive (capacity workers : nat) log c0 s i wk j c :
  (0 < capacity)%nat -> 0 <= c0 <= Z.of_nat (length log) -> Z.of_nat (length log) <= c0 + Z.of_nat capacity ->
  rtc loan_step (shared_handle capacity log c0 workers) s ->
  g_workers s !! i = Some wk -> j ∈ k_held wk -> g_cells s !! slot s j = Some c ->
  m_val (newest s Cursor) <= j < m_val (newest s Widx) /\
  g_log s !! Z.to_nat j = Some (c_val c) /\
  (forall u wku, g_workers s !! u = Some wku -> u = i \/ (i, u, j) ∈ g_lent s ->
    write_ordered (k_view wku) c = true) /\
  NoDup (k_held wk) /\ (forall o u, (o, u, j) ∈ g_lent s -> o = i) /\
  (forall i' wk', g_workers s !! i' = Some wk' -> j ∈ k_held wk' -> i' = i) /\
  (forall k m, g_mem s Cursor !! k = Some m -> m_val m = c0 + Z.of_nat k).
Proof.
  intros H1 H2 H3 Hs Hi Hj Hc. pose proof (reachable_pool capacity workers log c0 H1 H2 H3 s Hs) as I.
  destruct (newest_index _ _ s I) as [-> ->]. pose proof (i_workers _ _ _ I _ _ Hi) as Hwk.
  pose proof (k_loans _ _ _ _ _ Hwk j Hj) as Hl. pose proof (l_cursor _ _ _ _ _ _ Hl).
  pose proof (l_seen _ _ _ _ _ _ Hl). pose proof (view_widx _ _ s _ (k_view_ok _ _ _ _ _ Hwk)).
  pose proof (i_window _ _ _ I). split_and!; [lia|lia| | |apply Hwk| | |apply I].
  - apply (i_vals _ _ _ I); [|lia]. by apply (read_holds _ _ s i wk j c I).
  - intros u wku Hu Hr. apply (read_ordered _ _ s u i wku wk j c I); try done.
    destruct Hr as [->|Hr]; [by left|by right].
  - intros o u Ho. destruct (i_lenders _ _ _ I _ _ _ Ho) as [ow Hw]. eapply (i_distinct _ _ _ I); [exact Hw|exact Hi| |exact Hj].
    by apply (k_lent _ _ _ _ _ (i_workers _ _ _ I _ _ Hw) u).
  - intros i' wk' Hi' Hj'. by eapply (i_distinct _ _ _ I).
Qed.

(** The gate holds against the claimer itself: the newest gate value is the
    number of open loans and of claims and resolutions in flight, and a thread
    that holds a loan is refused by [try_pop] whichever gate message its
    [Relaxed] load returns. *)
Theorem shared_gate_refuses_holder (capacity workers : nat) log c0 s i wk k s' :
  (0 < capacity)%nat -> 0 <= c0 <= Z.of_nat (length log) -> Z.of_nat (length log) <= c0 + Z.of_nat capacity ->
  rtc loan_step (shared_handle capacity log c0 workers) s ->
  g_workers s !! i = Some wk -> k_held wk <> [] -> exec s (Pop i k) = Some s' ->
  m_val (newest s Depth) = Z.of_nat (sum_list_with claims (g_workers s)) /\
  g_mem s' = g_mem s /\ exists wk', g_workers s' !! i = Some wk' /\ k_pc wk' = WIdle.
Proof.
  intros H1 H2 H3 Hs Hi Hh E. pose proof (reachable_pool capacity workers log c0 H1 H2 H3 s Hs) as I.
  split; [apply (i_depth _ _ _ I)|]. unfold exec in E; cbn [actor] in E. rewrite Hi in E. cbn in E.
  unfold exec_worker, exec_pop in E. destruct (k_pc wk) eqn:Hpc; try discriminate E.
  apply bind_Some in E as (m & [Hk Hm]%load_inv & [= <-]). split; [done|].
  assert (Hpos : 1 <= m_val m).
  { pose proof (i_gate _ _ _ I k m Hm) as Hg.
    pose proof (sum_list_with_in wk (gated k) (g_workers s) (list_elem_of_lookup_2 _ _ _ Hi)) as Hle.
    unfold gated at 1 in Hle. rewrite (proj2 (Nat.leb_le _ _) Hk) in Hle. unfold claims in Hle.
    destruct (k_held wk); [done|]. simpl in Hle. lia. }
  destruct (Z.eqb_spec (m_val m) 0); [lia|].
  exists (mkWorker WIdle (seen Depth k (k_view wk)) (k_held wk)).
  split; [apply list_lookup_insert_eq; by eapply lookup_lt_Some|done].
Qed.

(** ** A claim left alone *)

Definition newest_k (s : pool) (l : word) : nat := pred (length (g_mem s l)).

Lemma load_newest w0 c0 s V l :
  pool_inv w0 c0 s -> (ts V l < length (g_mem s l))%nat -> load s V l (newest_k s l) = Some (newest s l).
Proof.
  intros I Ht. unfold load, newest_k. rewrite (proj2 (Nat.leb_le _ _)) by lia. by apply (newest_lookup w0 c0).
Qed.

Lemma exec_worker_run s i wk a :
  actor a = Some i -> g_workers s !! i = Some wk -> exec s a = exec_worker s i wk a.
Proof. intros Ha Hi. unfold exec. by rewrite Ha, Hi. Qed.

Lemma with_worker_lookup s i wk wk' :
  g_workers s !! i = Some wk -> g_workers (with_worker s i wk') !! i = Some wk'.
Proof. intros Hi. apply list_lookup_insert_eq. by eapply lookup_lt_Some. Qed.

(** The loop of [claim], by a worker no other step interrupts. *)
Definition claim_alone (s : pool) (i : nat) : list act :=
  [Load i (newest_k s Widx); Load i (newest_k s Cursor); Load i (newest_k s Base); Go i].

(** The claim loop makes progress: from any reachable state a claimer that
    runs alone and reads the newest messages leaves the loop in one turn, with
    the first unclaimed index if it is published and with nothing otherwise;
    no loan, stale reading or failed exchange of another thread can trap it. *)
Theorem claim_alone_completes (capacity workers : nat) log c0 s i wk :
  (0 < capacity)%nat -> 0 <= c0 <= Z.of_nat (length log) -> Z.of_nat (length log) <= c0 + Z.of_nat capacity ->
  rtc loan_step (shared_handle capacity log c0 workers) s ->
  g_workers s !! i = Some wk -> k_pc wk = CLoop ->
  let idx := Z.max (m_val (newest s Base)) (m_val (newest s Cursor)) in
  exists s' wk', schedule (claim_alone s i) s = Some s' /\ g_workers s' !! i = Some wk' /\
    if idx <? m_val (newest s Widx) then k_pc wk' = WIdle /\ k_held wk' = idx :: k_held wk
    else k_pc wk' = CNone /\ k_held wk' = k_held wk.
Proof.
  intros H1 H2 H3 Hs Hi Hpc idx. pose proof (reachable_pool capacity workers log c0 H1 H2 H3 s Hs) as I.
  pose proof (i_workers _ _ _ I _ _ Hi) as Hwk. pose proof (k_view_ok _ _ _ _ _ Hwk) as HV.
  set (V := k_view wk) in *. set (V1 := acquire Widx (newest_k s Widx) (newest s Widx) V).
  pose proof (load_newest _ _ s V Widx I (v_ts _ _ _ _ HV Widx)) as L1.
  pose proof (view_ok_acquire _ _ s V Widx _ _ I (or_introl eq_refl) HV L1) as HV1. fold V1 in HV1.
  pose proof (load_newest _ _ s V1 Cursor I (v_ts _ _ _ _ HV1 Cursor)) as L2.
  set (V2 := acquire Cursor (newest_k s Cursor) (newest s Cursor) V1).
  pose proof (view_ok_acquire _ _ s V1 Cursor _ _ I (or_intror eq_refl) HV1 L2) as HV2. fold V2 in HV2.
  pose proof (load_newest _ _ s V2 Base I (v_ts _ _ _ _ HV2 Base)) as L3.
  set (V3 := seen Base (newest_k s Base) V2).
  set (k1 := mkWorker (CGotW (m_val (newest s Widx))) V1 (k_held wk)).
  set (k2 := mkWorker (CGotC (m_val (newest s Widx)) (m_val (newest s Cursor))) V2 (k_held wk)).
  set (k3 := mkWorker (CGotB (m_val (newest s Widx)) (m_val (newest s Cursor)) (m_val (newest s Base))) V3 (k_held wk)).
  pose proof (with_worker_lookup s i wk k1 Hi) as Hk1.
  pose proof (with_worker_lookup _ i k1 k2 Hk1) as Hk2. pose proof (with_worker_lookup _ i k2 k3 Hk2) as Hk3.
  unfold claim_alone. cbn [schedule].
  rewrite (exec_worker_run s i wk) by done. unfold exec_worker at 1. rewrite Hpc. fold V. rewrite L1. cbn [mbind option_bind].
  fold V1 k1. rewrite (exec_worker_run _ i k1) by done. cbn [exec_worker k1 k_pc k_view k_held].
  change (load (with_worker s i k1) V1 Cursor) with (load s V1 Cursor). rewrite L2. cbn [mbind option_bind].
  fold V2 k2. rewrite (exec_worker_run _ i k2) by done. cbn [exec_worker k2 k_pc k_view k_held].
  change (load (with_worker (with_worker s i k1) i k2) V2 Base) with (load s V2 Base). rewrite L3. cbn [mbind option_bind].
  fold V3 k3. rewrite (exec_worker_run _ i k3) by done. cbn [exec_worker k3 k_pc k_view k_held].
  fold idx. rewrite Z.eqb_refl. cbn [mbind option_bind].
  destruct (Z.leb_spec (m_val (newest s Widx)) idx), (Z.ltb_spec idx (m_val (newest s Widx))); try lia;
    (eexists _, _; split; [reflexivity|split; [by eapply with_worker_lookup|done]]).
Qed.

(** ** Schedules *)

Lemma pool_schedule_reaches acts s s' :
  forallb keeps_loans acts = true -> schedule acts s = Some s' -> rtc loan_step s s'.
Proof.
  revert s. induction acts as [|a acts IH]; simpl; intros s Ha E; [by simplify_eq|].
  apply andb_prop in Ha as [Ha Hacts]. apply bind_Some in E as (s1 & E1 & E).
  eapply rtc_l; [by exists a; split; [apply keeps_loans_careful|]|by apply IH].
Qed.

Definition run_of (s : pool) (acts : list act) : pool := default s (schedule acts s).

Lemma run_of_reaches acts s :
  forallb keeps_loans acts && (if schedule acts s then true else false) = true ->
  rtc loan_step s (run_of s acts).
Proof.
  intros [Ha E]%andb_prop. unfold run_of. destruct (schedule acts s) eqn:E'; [|done].
  by eapply pool_schedule_reaches.
Qed.

(** A push by the producer with both loads, and a whole claim by worker [i]. *)
Definition push_acts (v : Z) (w c : nat) : list act := [Push v w; Scan (2 ^ 63) c; PGo; PGo].
Definition claim_acts (i w c b : nat) : list act := [Claim i; Load i w; Load i c; Load i b; Go i].

(** Two workers claim both records of a full ring concurrently: the second
    one's exchange fails once and its loop goes round.  The first loan is
    handed to the second worker, which reads it too and lends it to the first. *)
Definition shared_acts : list act :=
  push_acts 7 0 0 ++ push_acts 8 1 0 ++
  [Claim 0; Claim 1; Load 0 2; Load 1 1; Load 1 0; Load 1 0; Load 0 0; Load 0 0; Go 0; Go 1;
   Load 1 2; Load 1 0; Load 1 1; Go 1; Deref 0 0; Deref 1 1; Move 0 1 0; Deref 1 0;
   Lend 1 0 0; Deref 0 0].
Definition shared_pool : pool := run_of (shared_handle 2 [] 0 2) shared_acts.

Lemma shared_pool_reachable : rtc loan_step (shared_handle 2 [] 0 2) shared_pool.
Proof. apply run_of_reaches. vm_compute. reflexivity. Qed.

Lemma shared_pool_workers : k_held <$> g_workers shared_pool = [[]; [0; 1]].
Proof. vm_compute. reflexivity. Qed.






Lemma shared_loans_exclusive_witness : exists wk c,
  g_workers shared_pool !! 1%nat = Some wk /\ k_held wk = [0; 1] /\ c_val c = 7 /\
  g_log shared_pool !! 0%nat = Some (c_val c) /\ write_ordered (k_view wk) c = true /\
  exists wk0, g_workers shared_pool !! 0%nat = Some wk0 /\ write_ordered (k_view wk0) c = true.
Proof.
  eexists _, _. split; [vm_compute; reflexivity|]. split; [reflexivity|].
  match goal with |- context [write_ordered (k_view ?w)] => set (wk := w) end.
  destruct (shared_loans_exclusive 2 2 [] 0 shared_pool 1 wk 0
    (mkCell 7 1 (fun u => if Nat.eqb u 0 then 2%nat else if Nat.eqb u 1 then 2%nat else
      if Nat.eqb u 0 then 1%nat else O)))
    as (_ & H1 & H2 & _).
  - lia.
  - simpl; lia.
  - simpl; lia.
  - apply shared_pool_reachable.
  - vm_compute. reflexivity.
  - left.
  - vm_compute. reflexivity.
  - pose proof (H2 1%nat wk) as Hown. destruct (g_workers shared_pool !! 0%nat) as [wk0|] eqn:E0; [|vm_compute in E0; discriminate E0].
    split; [|split; [exact H1|split]]; [reflexivity| |].
    + apply Hown; [|left; reflexivity]. vm_compute. reflexivity.
    + exists wk0. split; [reflexivity|]. apply (H2 0%nat wk0); [exact E0|right].
      replace (g_lent shared_pool) with [(1%nat, 0%nat, 0)] by (vm_compute; reflexivity). left.
Defined.

(** The worker that was handed both loans asks for a pop. *)
Lemma shared_gate_refuses_holder_witness : exists s' wk',
  exec shared_pool (Pop 1 2) = Some s' /\ m_val (newest shared_pool Depth) = 2 /\
  g_workers s' !! 1%nat = Some wk' /\ k_pc wk' = WIdle.
Proof.
  destruct (exec shared_pool (Pop 1 2)) as [s'|] eqn:E; [|vm_compute in E; discriminate E].
  destruct (g_workers shared_pool !! 1%nat) as [wk|] eqn:Hw; [|vm_compute in Hw; discriminate Hw].
  destruct (shared_gate_refuses_holder 2 2 [] 0 shared_pool 1 wk 2 s') as (Hd & _ & wk' & Hk & Hp).
  - lia.
  - simpl; lia.
  - simpl; lia.
  - apply shared_pool_reachable.
  - exact Hw.
  - pose proof shared_pool_workers as Hh. intros Hn.
    apply (f_equal (fun l => l !! 1%nat)) in Hh. rewrite list_lookup_fmap, Hw in Hh. cbn in Hh.
    rewrite Hn in Hh. discriminate Hh.
  - exact E.
  - exists s', wk'. split; [reflexivity|split; [vm_compute; reflexivity|split; [exact Hk|exact Hp]]].
Defined.

(** A claimer at its loop, another one's loan open. *)
Definition waiting_pool : pool :=
  run_of (shared_handle 2 [5; 6; 7] 1 2) (Claim 1 :: claim_acts 0 0 0 0).

Lemma claim_alone_completes_witness : exists s' wk',
  schedule (claim_alone waiting_pool 1) waiting_pool = Some s' /\
  g_workers s' !! 1%nat = Some wk' /\ k_held wk' = [2].
Proof.
  destruct (g_workers waiting_pool !! 1%nat) as [wk|] eqn:Hw; [|vm_compute in Hw; discriminate Hw].
  destruct (claim_alone_completes 2 2 [5; 6; 7] 1 waiting_pool 1 wk) as (s' & wk' & H1 & H2 & H3).
  - lia.
  - simpl; lia.
  - simpl; lia.
  - apply run_of_reaches. vm_compute. reflexivity.
  - exact Hw.
  - assert (E : k_pc <$> g_workers waiting_pool !! 1%nat = Some CLoop) by (vm_compute; reflexivity).
    rewrite Hw in E. by injection E.
  - exists s', wk'. split; [exact H1|split; [exact H2|]].
    replace (_ <? _) with true in H3 by (vm_compute; reflexivity). destruct H3 as [_ ->].
    assert (E : k_held <$> g_workers waiting_pool !! 1%nat = Some []) by (vm_compute; reflexivity).
    rewrite Hw in E. injection E as ->. vm_compute. reflexivity.
Defined.

(** ** Hazards *)

(** Worker 0 claims, reads and aborts; worker 1 claims the same record, reads
    and commits it; the producer, having acquired that commit, writes the slot
    again. *)
Definition abort_acts : list act :=
  push_acts 7 0 0 ++ claim_acts 0 1 0 0 ++ [Deref 0 0; Abort 0 0; Go 0] ++
  claim_acts 1 1 0 2 ++ [Deref 1 0; Commit 1 0 0; Go 1; Go 1] ++ [Push 8 1; Scan (2 ^ 63) 1; PGo].

(** Releasing a loan with [abort] after reading it loses its reads: [fetch_min] and
    [fetch_sub] are [Relaxed], so when another thread of the same handle claims
    the record again and commits it, the producer that overwrites the slot is
    not ordered after what was read through the aborted loan: a data race on
    the slot, in an execution where every call keeps the documented contract. *)
Theorem aborted_loan_reads_race :
  exists s, schedule abort_acts (shared_handle 1 [] 0 2) = Some s /\ g_race s = true.
Proof. eexists. split; [vm_compute; reflexivity|reflexivity]. Qed.

(** [try_pop] of another thread can miss the gate: its [Relaxed] load may
    return the value from before the claim, and the pop un-pins the loan, whose
    next read races (the documentation puts this outside the contract). *)
Definition gate_missed_acts : list act :=
  push_acts 7 0 0 ++ claim_acts 0 1 0 0 ++ [Pop 1 0; Load 1 1; Load 1 0; Go 1; Go 1] ++
  push_acts 8 1 1 ++ [Deref 0 0].

Lemma stale_gate_unpins_loan :
  exists s, schedule gate_missed_acts (shared_handle 1 [] 0 2) = Some s /\ g_race s = true.
Proof. eexists. split; [vm_compute; reflexivity|reflexivity]. Qed.
