(* ===== verification/Handles.v ===== *)
(** Handles: one ring file, the handles of several processes.

    Every process that opens the file has a handle of its own: the capacity it
    read from the header, the path, and its claim and loan counters.  [Host]
    is the shared mapping under a list of handles; any of them may perform any
    operation, and new processes may open the file at any time.  Together they
    implement one broadcast log. *)

From S2P Require Import Prelude.
From S2P Require Import Error.
From S2P Require Import Header.
From S2P Require Import Pod.
From S2P Require Import Shm.
From S2P Require Import Fs.
From S2P Require Import Ring.
From S2P Require Import Spec.
From S2P Require Import Create.
From S2P Require Import Hostile.
From S2P Require Import RingProps.
From S2P Require Import Witnesses.
Set Default Goal Selector "!".
Open Scope Z_scope.
Open Scope shm_scope.

(** ** Handles of one mapping *)

Section handles.
Context `{Profile} {T : Type} `{Pod T} `{!PodLaws T}.

(** Another handle with the same capacity and gates sees the same log. *)
Lemma rep_handle m r r' (sp : spec T) :
  rep (mkSt m r) sp -> r_capacity r' = r_capacity r -> loan_depth r' = loan_depth r ->
  Forall u64 (claim_base r') -> length (claim_base r') = 8%nat -> rep (mkSt m r') sp.
Proof.
  intros R Ec Ed Hb Hl. destruct R as [[] ? ? ? ? ? ? ? ? Hslots]; cbn [ring shm] in *.
  assert (Eoff : forall j, slot_off T (mkSt m r') j = slot_off T (mkSt m r) j)
    by (intros j; unfold slot_off; cbn [ring]; by rewrite Ec).
  split; cbn [ring shm]; rewrite ?Ec, ?Ed; try done.
  - split; cbn [ring shm]; rewrite ?Ec, ?Ed; done.
  - intros j v Hj Hw Hv. rewrite <- (Hslots j v Hj Hw Hv). unfold slot_value. by rewrite Eoff.
Qed.

(** Pushes and pops of a ring in use, handle included. *)
Lemma wp_push s (sp : spec T) v :
  rep s sp -> pod_ok v -> u64 (produced sp + 1) ->
  wp (try_push v) (fun b s' => b = (spec_push v sp).1 /\ rep s' (spec_push v sp).2 /\ ring s' = ring s) s.
Proof.
  intros R Hv Hw. destruct (push_refines s sp v R Hv Hw) as (s' & E & R').
  pose proof (no_ub_try_push s v (rep_layout _ _ R)) as Hu. unfold no_ub, wp in *. rewrite E in *.
  by destruct Hu.
Qed.

Lemma wp_pop s (sp : spec T) i :
  rep s sp -> 0 <= i -> u64 (produced sp + 1) ->
  wp (try_pop i) (fun r s' => r = (spec_pop i sp).1 /\ rep s' (spec_pop i sp).2 /\ ring s' = ring s) s.
Proof.
  intros R Hi Hw. destruct (pop_refines s sp i R Hi Hw) as (s' & E & R').
  pose proof (no_ub_try_pop s i (rep_layout _ _ R)) as Hu. unfold no_ub, wp in *. rewrite E in *.
  by destruct Hu.
Qed.

Lemma wp_lag s (sp : spec T) :
  rep s sp -> wp slowest_lag (fun n s' => n = produced sp - spec_slowest sp /\ s' = s) s.
Proof.
  intros R. unfold wp. rewrite (slowest_lag_run s (rep_layout _ _ R) (rep_proto _ _ R)).
  by rewrite (rep_slowest _ _ R), (rep_write_idx _ _ R).
Qed.
End handles.


(** ** The processes *)

Record Host := mkHost {
  host_shm : Shm;
  host_handles : list SpmcRingBuffer;
}.

(** Handle [k] performs an operation, or another process opens the file. *)
Inductive hop (T : Type) :=
  | HOp (k : nat) (o : op T)
  | HOpen.
Arguments HOp {T}.
Arguments HOpen {T}.

Inductive hresp (T : Type) :=
  | HAnswer (r : resp T)
  | HOpened (r : result ShmRingError unit)
  | HNone.
Arguments HAnswer {T}.
Arguments HOpened {T}.
Arguments HNone {T}.

Section hosts.
Context `{Profile} `{Os} `{Memmap2} {T : Type} `{Pod T}.

(** An operation through handle [k]: on the shared mapping, with the handle's
    own fields. *)
Definition via {A} (k : nat) (m : M St A) : M Host (option A) := fun w =>
  match host_handles w !! k with
  | None => Ret (None, w)
  | Some h =>
      match m (mkSt (host_shm w) h) with
      | Ret (a, s) => Ret (Some a, mkHost (shm s) (<[k := ring s]> (host_handles w)))
      | Panic => Panic
      | Ub => Ub
      end
  end.

(** [open_existing] by another process, on the file as the mapping has it. *)
Definition another_opens (path : string) : M Host (result ShmRingError unit) := fun w =>
  match open_existing T path {[ path := shm_bytes (host_shm w) ]} with
  | Ret (Ok s, _) => Ret (Ok tt, mkHost (shm s) (host_handles w ++ [ring s]))
  | Ret (Err e, _) => Ret (Err e, w)
  | Panic => Panic
  | Ub => Ub
  end.

Definition host_exec (path : string) (a : hop T) : M Host (hresp T) :=
  match a with
  | HOp k o => let! r := via k (exec o) in ret (match r with Some r => HAnswer r | None => HNone end)
  | HOpen => let! r := another_opens path in ret (HOpened r)
  end.

Fixpoint host_run (path : string) (l : list (hop T)) : M Host (list (hresp T)) :=
  match l with
  | [] => ret []
  | a :: l => let! r := host_exec path a in let! rs := host_run path l in ret (r :: rs)
  end.

(** The abstract processes: one log, and how many handles there are. *)
Definition spec_host_exec (a : hop T) (n : nat) (sp : spec T) : hresp T * (nat * spec T) :=
  match a with
  | HOp k o =>
      if Nat.ltb k n then let '(r, sp') := spec_exec o sp in (HAnswer r, (n, sp')) else (HNone, (n, sp))
  | HOpen => (HOpened (Ok tt), (S n, sp))
  end.

Fixpoint spec_host_run (l : list (hop T)) (n : nat) (sp : spec T) : list (hresp T) * (nat * spec T) :=
  match l with
  | [] => ([], (n, sp))
  | a :: l =>
      let '(r, (n1, sp1)) := spec_host_exec a n sp in
      let '(rs, w) := spec_host_run l n1 sp1 in (r :: rs, w)
  end.

Definition hop_ok (a : hop T) : Prop := match a with HOp _ o => op_ok o | HOpen => True end.
End hosts.

(** ** One log *)

Section one_log.
Context `{Profile} `{Os} `{Memmap2} `{!Memmap2Laws} {T : Type} `{Pod T} `{!PodLaws T}.
Implicit Types (s : St) (sp : spec T) (w : Host).

(** What an operation leaves alone: the handle, the header's identity and
    capacity, the length of the mapping. *)
Definition kin s s' : Prop :=
  ring s' = ring s /\ mapping_len (shm s') = mapping_len (shm s) /\
  h_magic (hdr (shm s')) = h_magic (hdr (shm s)) /\ h_version (hdr (shm s')) = h_version (hdr (shm s)) /\
  h_capacity_mask (hdr (shm s')) = h_capacity_mask (hdr (shm s)).

Lemma kin_refl s : kin s s.
Proof. done. Qed.

Lemma kin_pushed s v : layout_ok T s -> kin s (pushed s v).
Proof.
  intros Hs. split_and!; try done. exact (slot_set_len s _ v Hs).
Qed.

Lemma try_push_kin s sp v b s' :
  rep s sp -> u64 (produced sp + 1) -> try_push v s = Ret (b, s') -> kin s s'.
Proof.
  intros R Hw E. rewrite try_push_run in E
    by (first [apply R|by eapply rep_proto|by rewrite (rep_write_idx _ _ R)]).
  destruct (_ <=? _); simplify_eq; [apply kin_refl|by apply kin_pushed, R].
Qed.

Lemma try_pop_kin s sp i r s' :
  rep s sp -> 0 <= i -> u64 (produced sp + 1) -> try_pop (T := T) i s = Ret (r, s') -> kin s s'.
Proof.
  intros R Hi Hw E. pose proof (rep_layout _ _ R) as Hs.
  destruct (Z.lt_ge_cases i (n_readers sp)) as [Hlt|Hge].
  - destruct (rep_cursor s sp i R ltac:(lia)) as (c & Hc & _ & Hr & _).
    destruct (rep_gate s sp i R ltac:(lia)) as (d & Hd & _).
    rewrite (try_pop_run s i c d) in E by
      (first [done|by eapply rep_proto|unfold u64 in *; lia|rewrite (rep_readers _ _ R); lia
             |by rewrite (rep_cursors _ _ R)]).
    destruct (negb _); simplify_eq; [done|]. by destruct (_ =? _); simplify_eq.
  - rewrite try_pop_bad_reader in E by (rewrite (rep_readers _ _ R); first [apply R|lia]). by simplify_eq.
Qed.

(** Queries leave the state as it is. *)
Lemma exec_kin s sp o r s' :
  rep s sp -> op_ok o -> u64 (produced sp + 1) -> exec o s = Ret (r, s') -> kin s s'.
Proof.
  intros R Ho Hw E. destruct (exec_refines s sp o R Ho Hw) as (s1 & E1 & R1).
  destruct o as [v|i|i|i|i| | | |]; simpl in E, Ho.
  - apply bind_inv in E as (b & s2 & E2 & [= <- <-]). by eapply try_push_kin.
  - apply bind_inv in E as (b & s2 & E2 & [= <- <-]). by eapply try_pop_kin.
  - rewrite (bind_run _ _ _ _ _ (peek_refines s sp i R Ho)) in E. by injection E as <- <-.
  - rewrite (bind_run _ _ _ _ _ (len_refines s sp i R Ho)) in E. by injection E as <- <-.
  - unfold is_empty in E. pose proof (len_refines s sp i R Ho) as El. destruct (spec_len i sp).
    + erewrite bind_run in E; [|by erewrite bind_ok_run]. by injection E as <- <-.
    + erewrite bind_run in E; [|by eapply bind_err_run]. by injection E as <- <-.
  - rewrite (bind_run _ _ _ _ _ (slowest_lag_run s (rep_layout _ _ R) (rep_proto _ _ R))) in E.
    by injection E as <- <-.
  - erewrite bind_run in E by reflexivity. by injection E as <- <-.
  - erewrite bind_run in E by reflexivity. by injection E as <- <-.
  - erewrite bind_run in E by reflexivity. by injection E as <- <-.
Qed.

(** A handle without open loans. *)
Definition fresh_handle (capacity : Z) (h : SpmcRingBuffer) : Prop :=
  r_capacity h = capacity /\ loan_depth h = replicate 8 0 /\
  Forall u64 (claim_base h) /\ length (claim_base h) = 8%nat.

Record host_ok (w : Host) (sp : spec T) : Prop := mkHostOk {
  ho_some : (0 < length (host_handles w))%nat;
  ho_handles : Forall (fresh_handle (cap sp)) (host_handles w);
  ho_rep h : fresh_handle (cap sp) h -> rep (mkSt (host_shm w) h) sp;
  ho_valid : header_valid (hdr (host_shm w)) (cap sp);
  ho_len : mapping_len (host_shm w) < 2 ^ 63;
}.

Lemma fresh_handle_rep m h h' sp :
  rep (mkSt m h) sp -> fresh_handle (cap sp) h -> fresh_handle (cap sp) h' -> rep (mkSt m h') sp.
Proof. intros R (E1 & E2 & _) (E3 & E4 & E5 & E6). eapply rep_handle; [exact R|congruence..|done|done]. Qed.

Lemma spec_exec_cap o sp : cap (spec_exec o sp).2 = cap sp.
Proof. by destruct (spec_exec_shape sp o). Qed.

Lemma via_keeps w sp k o h :
  host_ok w sp -> host_handles w !! k = Some h -> op_ok o -> u64 (produced sp + 1) ->
  exists w', via k (exec o) w = Ret (Some (spec_exec o sp).1, w') /\ host_ok w' (spec_exec o sp).2 /\
    length (host_handles w') = length (host_handles w).
Proof.
  intros [Hn Hh Hr Hv Hl] Hk Ho Hw. pose proof (Forall_lookup_1 _ _ _ _ Hh Hk) as Hf.
  destruct (exec_refines _ _ o (Hr h Hf) Ho Hw) as (s' & E & R').
  destruct (exec_kin _ _ o _ _ (Hr h Hf) Ho Hw E) as (Eh & El & Em & Ev & Ec).
  cbn [ring shm] in Eh, El, Em, Ev, Ec. destruct s' as [m h']; cbn [ring shm] in *. subst h'.
  exists (mkHost m (<[k := h]> (host_handles w))). unfold via. rewrite Hk, E.
  cbn [ring shm]. rewrite list_insert_id by done. split; [done|split; [|done]].
  split; cbn [host_handles host_shm]; rewrite ?spec_exec_cap; try done.
  - intros h' Hf'. rewrite <- (spec_exec_cap o) in Hf, Hf'. by apply (fresh_handle_rep m h).
  - unfold header_valid. by rewrite Em, Ev, Ec.
  - by rewrite El.
Qed.

Lemma open_keeps w sp path :
  quiet path -> host_ok w sp ->
  exists w', another_opens (T := T) path w = Ret (Ok tt, w') /\ host_ok w' sp /\
    length (host_handles w') = S (length (host_handles w)).
Proof.
  intros Hq I. pose proof I as [Hn Hh Hr Hv Hl].
  destruct (lookup_lt_is_Some_2 (host_handles w) 0 Hn) as [h Hk].
  pose proof (Forall_lookup_1 _ _ _ _ Hh Hk) as Hf. pose proof Hf as [Ec _].
  pose proof (open_run path (mkSt (host_shm w) h) {[ path := shm_bytes (host_shm w) ]} Hq) as E.
  cbn [shm ring] in E. unfold another_opens. rewrite E; clear E;
    [|apply (rep_layout _ _ (Hr h Hf))|done|by rewrite Ec|by rewrite lookup_singleton_eq].
  eexists. split; [done|]. cbn [shm ring host_handles]. split; [|rewrite length_app; simpl; lia].
  split; cbn [host_handles host_shm]; try done; [rewrite length_app; simpl; lia|].
  apply Forall_app. split; [done|]. apply Forall_singleton. rewrite Ec.
  split_and!; [done..|apply Forall_replicate; unfold u64; lia|done].
Qed.

Lemma host_exec_refines path w sp a :
  quiet path -> host_ok w sp -> hop_ok a -> u64 (produced sp + 1) ->
  let '(r, (n, sp')) := spec_host_exec a (length (host_handles w)) sp in
  exists w', host_exec path a w = Ret (r, w') /\ host_ok w' sp' /\ length (host_handles w') = n.
Proof.
  intros Hq I Ha Hw. destruct a as [k o|]; cbn [spec_host_exec host_exec].
  - destruct (Nat.ltb_spec k (length (host_handles w))) as [Hlt|Hge].
    + destruct (lookup_lt_is_Some_2 _ _ Hlt) as [h Hk].
      destruct (via_keeps w sp k o h I Hk Ha Hw) as (w' & E & I' & El).
      destruct (spec_exec o sp) as [r sp']; cbn [fst snd] in *. exists w'. by rewrite (bind_run _ _ _ _ _ E).
    + exists w. erewrite bind_run by (unfold via; by rewrite (lookup_ge_None_2 _ _ Hge)). done.
  - destruct (open_keeps w sp path Hq I) as (w' & E & I' & El). exists w'.
    by rewrite (bind_run _ _ _ _ _ E).
Qed.

Lemma spec_host_exec_produced a n sp : produced (spec_host_exec a n sp).2.2 <= produced sp + 1.
Proof.
  destruct a as [k o|]; cbn [spec_host_exec fst snd]; [|lia].
  destruct (Nat.ltb k n); cbn [fst snd]; [|lia].
  pose proof (spec_exec_produced sp o). by destruct (spec_exec o sp).
Qed.

Lemma host_run_refines path l w sp :
  quiet path -> host_ok w sp -> Forall hop_ok l -> produced sp + Z.of_nat (length l) < 2 ^ 64 ->
  let '(rs, (n, sp')) := spec_host_run l (length (host_handles w)) sp in
  exists w', host_run path l w = Ret (rs, w') /\ host_ok w' sp' /\ length (host_handles w') = n.
Proof.
  intros Hq I Hl. revert w sp I. induction Hl as [|a l Ha _ IH]; intros w sp I Hw; [by exists w|].
  cbn [length] in Hw. assert (0 <= produced sp) by (unfold produced; lia).
  pose proof (host_exec_refines path w sp a Hq I Ha ltac:(unfold u64; lia)) as E1.
  pose proof (spec_host_exec_produced a (length (host_handles w)) sp) as Hp.
  cbn [spec_host_run host_run]. destruct (spec_host_exec a _ sp) as [r [n1 sp1]]; cbn [snd] in Hp.
  destruct E1 as (w1 & E1 & I1 & <-). specialize (IH w1 sp1 I1 ltac:(lia)).
  destruct (spec_host_run l _ sp1) as [rs [n2 sp2]]. destruct IH as (w2 & E2 & I2 & El2).
  exists w2. by rewrite (bind_run _ _ _ _ _ E1), (bind_run _ _ _ _ _ E2).
Qed.

(** C9: Processes share one log: a ring of two or more slots is created (of a
    one-slot ring no other process can open the file), and any number of processes
    open its file at any time and push, pop, peek and query through their own
    handles in any order; the answers are those of a single broadcast log, an
    opening never fails and sees the log as it is, and every handle, present
    or future, represents the same log afterwards. *)
Theorem processes_share_one_log path capacity n fs l :
  quiet path -> create_args T capacity n -> 2 <= capacity ->
  fs !! path = None -> others fs !! path = None ->
  Forall hop_ok l -> Z.of_nat (length l) < 2 ^ 64 ->
  exists s fs', create_new_with_readers T path capacity n fs = Ret (Ok s, fs') /\
    let '(rs, (k, sp)) := spec_host_run l 1 (empty_log T capacity n) in
    exists w, host_run path l (mkHost (shm s) [ring s]) = Ret (rs, w) /\
      length (host_handles w) = k /\
      forall h, h ∈ host_handles w -> rep (mkSt (host_shm w) h) sp.
Proof.
  intros Hq Ha Hc2 Hn Ho Hl Hlen. pose proof (create_args_pos _ _ Ha). pose proof (ca_fits _ _ Ha).
  eexists _, _. split; [by apply create_run|].
  set (s := fresh_st T path capacity n). pose proof (fresh_rep path capacity n Ha) as R.
  assert (Hf : fresh_handle capacity (ring s)).
  { split_and!; [done..|apply Forall_replicate; unfold u64; lia|done]. }
  assert (I : host_ok (mkHost (shm s) [ring s]) (empty_log T capacity n)).
  { split; cbn [host_handles host_shm]; [simpl; lia|by apply Forall_singleton| |done|].
    - intros h Hh. by apply (fresh_handle_rep (shm s) (ring s)).
    - unfold s. rewrite fresh_len by done. lia. }
  pose proof (host_run_refines path l _ _ Hq I Hl ltac:(unfold produced; cbn; lia)) as E.
  cbn [host_handles length] in E. destruct (spec_host_run l 1 _) as [rs [k sp]].
  destruct E as (w & E & I' & Ek). exists w. split; [exact E|split; [exact Ek|]].
  intros h (j & Hj)%list_elem_of_lookup. apply (ho_rep _ _ I').
  exact (Forall_lookup_1 _ _ _ _ (ho_handles _ _ I') Hj).
Qed.
End one_log.

(** ** A run *)

Section run.
#[local] Existing Instance dev_profile.
#[local] Existing Instance quiet_os.
#[local] Existing Instance plain_memmap2.
#[local] Existing Instance plain_memmap2_laws.

(** The producer's process, and two that open the file: one before the first
    push and one after. *)
Definition two_processes : list (hop Z) :=
  [HOpen; HOp 0 (OPush 5); HOp 1 (OPop 0); HOpen; HOp 2 (OPop 1); HOp 1 (OPop 0); HOp 2 (OLen 2);
   HOp 0 OSlowestLag].

Lemma processes_share_one_log_witness : exists s fs',
  create_new_with_readers Z demo_path 4 2 (∅ : files) = Ret (Ok s, fs') /\
  exists w, host_run demo_path two_processes (mkHost (shm s) [ring s]) =
    Ret ([HOpened (Ok tt); HAnswer (RPush true); HAnswer (RRecord (Ok (Some 5))); HOpened (Ok tt);
          HAnswer (RRecord (Ok (Some 5))); HAnswer (RRecord (Ok None));
          HAnswer (RLen (Err (InvalidReaderId 2 1))); HAnswer (RNum 0)], w) /\
    length (host_handles w) = 3%nat.
Proof.
  destruct (processes_share_one_log (T := Z) demo_path 4 2 ∅ two_processes (quiet_demo _) args_4_2)
    as (s & fs' & E & Hrun).
  - lia.
  - reflexivity.
  - reflexivity.
  - repeat constructor; vm_compute; first [reflexivity|discriminate|split; discriminate].
  - reflexivity.
  - exists s, fs'. split; [exact E|]. destruct (spec_host_run _ _ _) as [rs [k sp]] eqn:Es.
    destruct Hrun as (w & Hw & Hn & _). exists w. vm_compute in Es. injection Es as <- <- _.
    split; [exact Hw|exact Hn].
Defined.
End run.
