(* ===== verification/Crash.v ===== *)
(** Crash: a process killed in the middle of a call.

    What a killed process leaves behind is the mapping: the slot bytes and the
    header words it had written so far; its handle, with its loans and gates,
    is gone.  [try_push] of [src/src/ring.rs] is the only call with more than
    one access that writes: the bytes of a slot, then [write_idx], then
    [total_written].  ([try_pop], [commit] and [drop] publish with a single
    store, [claim] and [abort] write nothing shared: a process killed in them
    leaves the ring before or after the call.)  Another process opens the file
    and carries on. *)

From S2P Require Import Prelude.
From S2P Require Import Error.
From S2P Require Import Header.
From S2P Require Import Pod.
From S2P Require Import Shm.
From S2P Require Import Fs.
From S2P Require Import Ring.
From S2P Require Import Spec.
From S2P Require Import Create.
From S2P Require Import Hostile.
From S2P Require Import RingProps.
From S2P Require Import LoanInv.
From S2P Require Import LoanProcs.
From S2P Require Import Witnesses.
From S2P Require Import Handles.
Set Default Goal Selector "!".
Open Scope Z_scope.
Open Scope shm_scope.

(** ** A push cut short *)

(** Where the process dies: before the slot, with some bytes of the slot
    written, with all of them, past the store of [write_idx], or past
    [total_written]. *)
Inductive kill :=
  | BeforeSlot
  | InSlot (done : nat -> bool)
  | AfterSlot
  | AfterIndex
  | AfterCount.

Definition published (k : kill) : bool :=
  match k with AfterIndex | AfterCount => true | _ => false end.
(** The record is published, and not counted. *)
Definition uncounted (k : kill) : bool := match k with AfterIndex => true | _ => false end.

(** The bytes of a slot when those at the offsets of [done] are the new ones. *)
Definition torn (done : nat -> bool) (old new : list byte) : list byte :=
  imap (fun i p => if done i then p.2 else p.1) (zip old new).

Section push.
Context `{Profile} {T : Type} `{Pod T}.

Definition write_some (done : nat -> bool) (off : Z) (v : T) : M St unit := fun s =>
  if accessible (shm s) off (size_of T) (align_of T)
  then Ret (tt, with_shm s (shm_of_bytes (splice (shm_bytes (shm s)) (Z.to_nat off)
         (torn done (bytes_at T (shm s) off) (to_bytes v)))))
  else Ub.

(** [try_push] up to the kill. *)
Definition try_push_killed (k : kill) (value : T) : M St unit :=
  let! hdr := hdr_ in
  let w := write_idx hdr Relaxed in
  let num_readers := num_readers hdr Acquire in
  let! min_read := lift (slowest_read_idx hdr num_readers Acquire) in
  let! lag := sub64 w min_read in
  let! s := get in
  if r_capacity (ring s) <=? lag then ret tt else
  let! slot := slot_ptr T w in
  match k with
  | BeforeSlot => ret tt
  | InSlot done => write_some done slot value
  | _ =>
    write_volatile slot value ;!
    let! w1 := add64 w 1 in
    match k with
    | AfterIndex | AfterCount =>
      let! hdr := hdr_ in
      put_hdr (set_write_idx hdr w1 Release) ;!
      match k with
      | AfterCount => let! hdr := hdr_ in put_hdr (bump_total_written hdr Relaxed)
      | _ => ret tt
      end
    | _ => ret tt
    end
  end.

(** A push that is not cut short. *)
Lemma killed_late (v : T) s : try_push_killed AfterCount v s = (try_push v ;! ret tt) s.
Proof.
  unfold try_push, try_push_killed, bind, ret, hdr_, put_hdr, get.
  by repeat case_match; simplify_eq.
Qed.
End push.

(** ** The counter no branch reads *)

Section counted.
Context `{Profile} {T : Type} `{Pod T} `{!PodLaws T}.
Implicit Types (s : St) (sp : spec T).

(** The same ring with [total_written] at [t]. *)
Definition counted s (t : Z) : St := with_hdr s (with_total_written (hdr (shm s)) t).
(** The answer when the counter is [d] short. *)
Definition tally (d : Z) (o : op T) (r : resp T) : resp T :=
  match o, r with OTotalWritten, RNum n => RNum (n - d) | _, _ => r end.

Lemma counted_header s t : header_ok (hdr (shm s)) -> u64 t -> header_ok (with_total_written (hdr (shm s)) t).
Proof. intros [] Ht. by split. Qed.

Lemma counted_layout s t : layout_ok T s -> u64 t -> layout_ok T (counted s t).
Proof. intros Hs Ht. apply layout_ok_hdr; [done|]. apply counted_header; [apply Hs|done]. Qed.

Lemma counted_proto s t : proto_ok s -> proto_ok (counted s t).
Proof. intros []. by split. Qed.

Lemma counted_slot s t j : layout_ok T s -> u64 t -> slot_value (counted s t) j = slot_value (T := T) s j.
Proof. intros Hs Ht. apply slot_value_hdr; [done|]. apply counted_header; [apply Hs|done]. Qed.

Lemma push_counted s sp v t b s' :
  rep s sp -> u64 (produced sp + 1) -> u64 t -> try_push v s = Ret (b, s') ->
  try_push v (counted s t) = Ret (b, counted s' (if b then wrap64 (t + 1) else t)).
Proof.
  intros R Hw Ht E. pose proof (rep_layout _ _ R) as Hs. pose proof (rep_proto _ _ R) as Hp.
  rewrite <- (rep_write_idx _ _ R) in Hw. rewrite try_push_run in E by done.
  rewrite try_push_run by (first [by apply counted_layout|by apply counted_proto|done]).
  change (slowest (counted s t)) with (slowest s). cbn [counted with_hdr ring shm hdr with_total_written].
  cbn in *. by destruct (_ <=? _); injection E as <- <-.
Qed.

Lemma pop_counted s sp i t r s' :
  rep s sp -> 0 <= i -> u64 (produced sp + 1) -> u64 t -> try_pop (T := T) i s = Ret (r, s') ->
  try_pop i (counted s t) = Ret (r, counted s' t).
Proof.
  intros R Hi Hw Ht E. pose proof (rep_layout _ _ R) as Hs. pose proof (rep_proto _ _ R) as Hp.
  pose proof (counted_layout s t Hs Ht) as Hs'. pose proof (counted_proto s t Hp) as Hp'.
  destruct (Z.lt_ge_cases i (n_readers sp)) as [Hlt|Hge].
  - destruct (rep_cursor s sp i R ltac:(lia)) as (c & Hc & _ & Hr & _).
    destruct (rep_gate s sp i R ltac:(lia)) as (d & Hd & _).
    rewrite <- (rep_cursors _ _ R) in Hc. rewrite <- (rep_readers _ _ R) in Hlt.
    rewrite (try_pop_run s i c d) in E by (first [done|unfold u64 in *; lia]).
    rewrite (try_pop_run (counted s t) i c d) by (first [done|unfold u64 in *; lia]).
    rewrite counted_slot by done. cbn in *. destruct (negb _); [by injection E as <- <-|].
    by destruct (c =? _); injection E as <- <-.
  - rewrite <- (rep_readers _ _ R) in Hge. pose proof (po_readers _ Hp).
    rewrite try_pop_bad_reader in E by done. rewrite try_pop_bad_reader by done. by injection E as <- <-.
Qed.

Lemma peek_counted s sp i t : rep s sp -> 0 <= i -> u64 t ->
  peek_read (T := T) i (counted s t) = Ret (spec_peek i sp, counted s t).
Proof.
  intros R Hi Ht. pose proof (peek_refines s sp i R Hi) as E. unfold peek_read in E |- *.
  pose proof (rep_layout _ _ R) as Hs. pose proof (rep_proto _ _ R) as Hp.
  pose proof (counted_layout s t Hs Ht) as Hs'. pose proof (counted_proto s t Hp) as Hp'.
  destruct (Z.lt_ge_cases i (n_readers sp)) as [Hlt|Hge].
  - destruct (rep_cursor s sp i R ltac:(lia)) as (c & Hc & _).
    rewrite <- (rep_cursors _ _ R) in Hc. rewrite <- (rep_readers _ _ R) in Hlt.
    rewrite (bind_ok_run _ _ _ _ _ (peek_run s i c Hs Hp ltac:(lia) Hc)) in E.
    rewrite (bind_ok_run _ _ _ _ _ (peek_run (counted s t) i c Hs' Hp' ltac:(done) Hc)).
    cbn [counted with_hdr ring shm hdr with_total_written h_write_idx] in *.
    destruct (c =? _); [by injection E as <-|].
    change (slot_off T (counted s t) c) with (slot_off T s c).
    rewrite (bind_run _ _ _ _ _ (read_volatile_run s c Hs)) in E.
    rewrite (bind_run _ _ _ _ _ (read_volatile_run (counted s t) c Hs')).
    injection E as <-. by rewrite counted_slot.
  - rewrite <- (rep_readers _ _ R) in Hge. pose proof (po_readers _ Hp) as Hn.
    unfold spec_peek. rewrite spec_check_err by (by rewrite <- (rep_readers _ _ R)).
    eapply bind_err_run. unfold peek. eapply bind_err_run.
    rewrite check_reader_run by done. rewrite <- (rep_readers _ _ R).
    cbn. by destruct (Z.leb_spec (h_num_readers (hdr (shm s))) i); [|lia].
Qed.

Lemma len_counted s sp i t : rep s sp -> 0 <= i -> u64 t ->
  len i (counted s t) = Ret (spec_len i sp, counted s t).
Proof.
  intros R Hi Ht. pose proof (len_refines s sp i R Hi) as E.
  pose proof (rep_layout _ _ R) as Hs. pose proof (rep_proto _ _ R) as Hp.
  destruct (Z.lt_ge_cases i (n_readers sp)) as [Hlt|Hge].
  - destruct (rep_cursor s sp i R ltac:(lia)) as (c & Hc & _).
    rewrite <- (rep_cursors _ _ R) in Hc. rewrite <- (rep_readers _ _ R) in Hlt.
    rewrite (len_run s i c) in E by (first [done|lia]). injection E as <-.
    exact (len_run (counted s t) i c (counted_layout s t Hs Ht) (counted_proto s t Hp) ltac:(done) Hc).
  - unfold spec_len. rewrite spec_check_err by done. rewrite <- (rep_readers _ _ R) in *.
    unfold len. eapply bind_err_run. rewrite check_reader_run by apply Hp. cbn.
    by destruct (Z.leb_spec (h_num_readers (hdr (shm s))) i); [|lia].
Qed.

(** No answer but [total_written]'s own depends on the counter, and what it is
    short of stays the same. *)
Lemma exec_counted s sp (o : op T) d r s' :
  rep s sp -> op_ok o -> u64 (produced sp + 1) -> 0 <= d -> u64 (produced sp - d) -> exec o s = Ret (r, s') ->
  exec o (counted s (produced sp - d)) =
    Ret (tally d o r, counted s' (produced sp - d + Z.of_nat (length (accepted o r)))).
Proof.
  intros R Ho Hw Hd Ht E. set (t := produced sp - d) in *. rewrite <- (Z.add_0_r t) in Ht.
  destruct o as [v|i|i|i|i| | | |]; simpl in E, Ho |- *; rewrite ?Z.add_0_r in *.
  - apply bind_inv in E as (b & s1 & E1 & [= <- <-]).
    rewrite (bind_run _ _ _ _ _ (push_counted s sp v t b s1 R Hw Ht E1)). destruct b; cbn; [|by rewrite Z.add_0_r].
    by rewrite wrap64_small by (unfold u64 in *; lia).
  - apply bind_inv in E as (b & s1 & E1 & [= <- <-]).
    by rewrite (bind_run _ _ _ _ _ (pop_counted s sp i t b s1 R Ho Hw Ht E1)).
  - rewrite (bind_run _ _ _ _ _ (peek_refines s sp i R Ho)) in E. injection E as <- <-.
    by rewrite (bind_run _ _ _ _ _ (peek_counted s sp i t R Ho Ht)).
  - rewrite (bind_run _ _ _ _ _ (len_refines s sp i R Ho)) in E. injection E as <- <-.
    by rewrite (bind_run _ _ _ _ _ (len_counted s sp i t R Ho Ht)).
  - unfold is_empty in E |- *. pose proof (len_refines s sp i R Ho) as El.
    pose proof (len_counted s sp i t R Ho Ht) as El'. destruct (spec_len i sp).
    + erewrite bind_run in E; [|by erewrite bind_ok_run]. injection E as <- <-.
      by erewrite bind_run; [|by erewrite bind_ok_run].
    + erewrite bind_run in E; [|by eapply bind_err_run]. injection E as <- <-.
      by erewrite bind_run; [|by eapply bind_err_run].
  - pose proof (rep_layout _ _ R) as Hs. pose proof (rep_proto _ _ R) as Hp.
    rewrite (bind_run _ _ _ _ _ (slowest_lag_run s Hs Hp)) in E. injection E as <- <-.
    by rewrite (bind_run _ _ _ _ _ (slowest_lag_run (counted s t) (counted_layout s t Hs Ht) (counted_proto s t Hp))).
  - erewrite bind_run in E by reflexivity. injection E as <- <-. erewrite bind_run by reflexivity.
    unfold total_written. by rewrite (rep_total _ _ R).
  - erewrite bind_run in E by reflexivity. injection E as <- <-. reflexivity.
  - erewrite bind_run in E by reflexivity. injection E as <- <-. reflexivity.
Qed.

Lemma run_counted os s sp d :
  rep s sp -> Forall op_ok os -> produced sp + Z.of_nat (length os) < 2 ^ 64 -> 0 <= d <= produced sp ->
  exists s', run os (counted s (produced sp - d)) = Ret (zip_with (tally d) os (spec_run os sp).1, s').
Proof.
  intros R Hos. revert s sp R. induction Hos as [|o os Ho _ IH]; intros s sp R Hw Hd; [by eexists|].
  cbn [length] in Hw.
  destruct (exec_refines s sp o R Ho) as (s1 & E1 & R1); [unfold u64; lia|].
  pose proof (exec_counted s sp o d _ _ R Ho ltac:(unfold u64; lia) ltac:(lia) ltac:(unfold u64; lia) E1) as E1'.
  pose proof (spec_exec_produced sp o) as Hle. pose proof (spec_exec_log sp o) as Hlog. cbn [run spec_run].
  destruct (spec_exec o sp) as [r sp1]; simpl in *.
  assert (Ep : produced sp - d + Z.of_nat (length (accepted o r)) = produced sp1 - d).
  { unfold produced. rewrite Hlog, length_app. lia. }
  rewrite Ep in E1'. destruct (IH s1 sp1 R1 ltac:(lia) ltac:(lia)) as (s2 & E2). exists s2.
  destruct (spec_run os sp1) as [rs sp2]; simpl in *.
  by rewrite (bind_run _ _ _ _ _ E1'), (bind_run _ _ _ _ _ E2).
Qed.
End counted.

(** ** What a killed push leaves *)

Section killed.
Context `{Profile} {T : Type} `{Pod T} `{!PodLaws T}.
Implicit Types (s : St) (sp : spec T).

(** [sp'] is [sp] with [l] appended, as far as any reader can still tell: the
    cursors are the same, and so is every record from the slowest one on. *)
Record log_kept sp sp' (l : list T) : Prop := mkLogKept {
  kept_len : produced sp' = produced sp + Z.of_nat (length l);
  kept_log j : spec_slowest sp <= j -> log sp' !! Z.to_nat j = (log sp ++ l) !! Z.to_nat j;
  kept_cursors : cursors sp' = cursors sp;
  kept_readers : n_readers sp' = n_readers sp;
  kept_cap : cap sp' = cap sp;
}.

Lemma log_kept_refl sp : log_kept sp sp [].
Proof. split; rewrite ?app_nil_r; try done. cbn. lia. Qed.

Lemma torn_length done (old new : list byte) : length old = length new -> length (torn done old new) = length new.
Proof. intros E. unfold torn. rewrite length_imap, length_zip_with. lia. Qed.

Lemma slot_bytes_length s idx : layout_ok T s -> Z.of_nat (length (bytes_at T (shm s) (slot_off T s idx))) = size_of T.
Proof.
  intros Hs. destruct (slot_off_bounds s idx Hs) as (H1 & H2 & _). pose proof (size_of_range (T := T)).
  pose proof (shm_bytes_length _ (lo_hdr s Hs)). unfold DATA_OFFSET, HEADER_SIZE in *.
  unfold bytes_at. rewrite length_take, length_drop. lia.
Qed.

Lemma write_some_run done s idx v :
  layout_ok T s ->
  write_some done (slot_off T s idx) v s =
    Ret (tt, slot_put (T := T) s idx (torn done (bytes_at T (shm s) (slot_off T s idx)) (to_bytes v))).
Proof.
  intros Hs. unfold write_some. rewrite slot_accessible by done.
  destruct (slot_off_bounds s idx Hs) as (H1 & _). unfold DATA_OFFSET, HEADER_SIZE in H1.
  rewrite splice_app_data; [done|apply Hs|lia].
Qed.

(** Overwriting the slot the next push is due to write changes the log at an
    index every reader has passed, if at one at all. *)
Definition overwritten sp (u : T) : spec T :=
  mkSpec (if cap sp <=? produced sp then <[Z.to_nat (produced sp - cap sp) := u]> (log sp) else log sp)
    (cursors sp) (n_readers sp) (cap sp) (gates sp).

Lemma overwritten_produced sp u : produced (overwritten sp u) = produced sp.
Proof. unfold produced, overwritten; cbn. destruct (_ <=? _); [by rewrite length_insert|done]. Qed.

Lemma overwritten_kept sp u : produced sp - spec_slowest sp < cap sp -> log_kept sp (overwritten sp u) [].
Proof.
  intros Hroom. split; try done; [rewrite overwritten_produced; cbn; lia|].
  intros j Hj. rewrite app_nil_r. cbn. destruct (Z.leb_spec (cap sp) (produced sp)); [|done].
  rewrite list_lookup_insert_ne; [done|lia].
Qed.

Lemma rep_overwritten s sp bs :
  rep s sp -> Z.of_nat (length bs) = size_of T ->
  rep (slot_put (T := T) s (produced sp) bs) (overwritten sp (from_bytes bs)).
Proof.
  intros R Hbs. pose proof (rep_layout _ _ R) as Hs. pose proof (rep_cap _ _ R) as Ec.
  pose proof (capacity_pos s Hs) as Hcap. pose proof (size_of_range (T := T)).
  assert (Hok : pod_ok (from_bytes bs : T)) by (apply from_bytes_ok; lia).
  split; cbn [overwritten cursors n_readers cap gates slot_put with_shm shm hdr ring];
    rewrite ?overwritten_produced; try apply R.
  - by apply slot_put_layout.
  - intros j v Hj Hw Hv. destruct (Z.eq_dec j (produced sp - cap sp)) as [->|Hne].
    + rewrite slot_value_put_eq; [|done..|].
      * cbn in Hv. rewrite (proj2 (Z.leb_le _ _)) in Hv by lia.
        rewrite list_lookup_insert_eq in Hv by (unfold produced in *; lia). by injection Hv.
      * rewrite Ec. replace (produced sp) with (produced sp - cap sp + 1 * cap sp) at 2 by lia.
        by rewrite Z_mod_plus_full.
    + assert (Hv' : log sp !! Z.to_nat j = Some v).
      { cbn in Hv. destruct (Z.leb_spec (cap sp) (produced sp)); [|done].
        by rewrite list_lookup_insert_ne in Hv by lia. }
      pose proof (lookup_lt_Some _ _ _ Hv') as Hlt.
      rewrite slot_value_put_ne; [by apply R|done..|]. rewrite Ec. intros E.
      apply mod_window_inj in E; unfold produced in *; lia.
  - cbn. destruct (_ <=? _); [|apply R]. apply Forall_insert; [apply R|done].
Qed.

Lemma try_push_killed_run k s v :
  layout_ok T s -> proto_ok s -> u64 (h_write_idx (hdr (shm s)) + 1) ->
  let w := h_write_idx (hdr (shm s)) in
  try_push_killed k v s =
    Ret (tt, if r_capacity (ring s) <=? w - slowest s then s else
      match k with
      | BeforeSlot => s
      | InSlot done => slot_put (T := T) s w (torn done (bytes_at T (shm s) (slot_off T s w)) (to_bytes v))
      | AfterSlot => slot_set s w v
      | AfterIndex => counted (pushed s v) (h_total_written (hdr (shm s)))
      | AfterCount => pushed s v
      end).
Proof.
  intros Hs Hp Hw w. pose proof (lo_hdr s Hs) as Hok. pose proof (slowest_window s Hok Hp) as Hwin.
  pose proof (capacity_pos s Hs). unfold u64 in Hw.
  pose proof (lo_fits s Hs). pose proof (lo_len s Hs). pose proof (lo_size s Hs).
  unfold HEADER_SIZE in *. unfold try_push_killed.
  erewrite bind_run by reflexivity. cbn beta zeta.
  erewrite bind_run by (apply lift_run, slowest_read_idx_run; [done|apply Hp]).
  erewrite bind_run by (apply arith_run; unfold u64, write_idx; nia).
  erewrite bind_run by reflexivity. unfold write_idx at 1. fold w. destruct (_ <=? _); [done|].
  erewrite bind_run by (by apply slot_ptr_run). change (write_idx (hdr (shm s)) Relaxed) with w.
  destruct k; [done|by apply write_some_run|..];
    erewrite bind_run by (by apply write_volatile_run);
    by erewrite bind_run by (by apply arith_run).
Qed.

(** Wherever the process dies, the mapping is that of a ring in use, its
    counter exact but for a record just published. *)
Lemma killed_rep k s sp v :
  rep s sp -> pod_ok v -> u64 (produced sp + 1) ->
  let d := if (spec_push v sp).1 && uncounted k then 1 else 0 in
  exists s1 sp1, try_push_killed k v s = Ret (tt, counted s1 (produced sp1 - d)) /\ d <= produced sp1 /\
    rep s1 sp1 /\ kin s s1 /\ log_kept sp sp1 (if (spec_push v sp).1 && published k then [v] else []).
Proof.
  intros R Hv Hw. pose proof (rep_layout _ _ R) as Hs.
  assert (Eself : forall s1 sp1, rep s1 sp1 -> counted s1 (produced sp1 - 0) = s1).
  { intros s1 sp1 R1. rewrite Z.sub_0_r, <- (rep_total _ _ R1). by destruct s1 as [[[] ?] ?]. }
  assert (Hp0 : forall sp1 : spec T, 0 <= produced sp1) by (intros; unfold produced; lia).
  rewrite try_push_killed_run by (first [done|by eapply rep_proto|by rewrite (rep_write_idx _ _ R)]).
  rewrite (rep_write_idx _ _ R), (rep_cap _ _ R), (rep_slowest _ _ R). unfold spec_push.
  destruct (Z.leb_spec (cap sp) (produced sp - spec_slowest sp)) as [|Hroom]; cbn [fst andb].
  { exists s, sp. rewrite Eself by done. split_and!; [done..|apply kin_refl|apply log_kept_refl]. }
  assert (Hput : forall bs, Z.of_nat (length bs) = size_of T -> exists s1 sp1,
    Ret (tt, slot_put (T := T) s (produced sp) bs) = Ret (tt, counted s1 (produced sp1 - 0)) /\ 0 <= produced sp1 /\
    rep s1 sp1 /\ kin s s1 /\ log_kept sp sp1 []).
  { intros bs Hbs. exists (slot_put (T := T) s (produced sp) bs), (overwritten sp (from_bytes bs)).
    pose proof (rep_overwritten s sp bs R Hbs) as R1. rewrite (Eself _ _ R1).
    split_and!; [done|done|done| |by apply overwritten_kept]. split_and!; try done. by apply slot_put_len. }
  set (sp1 := mkSpec (log sp ++ [v]) (cursors sp) (n_readers sp) (cap sp) (gates sp)).
  assert (Epr : produced sp1 = produced sp + 1)
    by (unfold produced, sp1; cbn; rewrite length_app; simpl; lia).
  assert (Hpushed : rep (pushed s v) sp1 /\ kin s (pushed s v) /\ log_kept sp sp1 [v]).
  { split_and!; [by apply rep_pushed|by apply kin_pushed|by split]. }
  destruct k as [|done| | |]; cbn [published uncounted].
  - exists s, sp. rewrite Eself by done. split_and!; [done..|apply kin_refl|apply log_kept_refl].
  - apply Hput. pose proof (slot_bytes_length s (produced sp) Hs) as Hl. pose proof (to_bytes_size v) as Hl'.
    rewrite torn_length; [done|lia].
  - apply Hput, to_bytes_size.
  - exists (pushed s v), sp1. rewrite (rep_total _ _ R), Epr. specialize (Hp0 sp).
    split_and!; [do 3 f_equal; lia|lia|apply Hpushed..].
  - exists (pushed s v), sp1. rewrite Eself by apply Hpushed. split_and!; [done|done|apply Hpushed..].
Qed.
End killed.

(** ** Another process carries on *)

Section recovery.
Context `{Profile} `{Os} `{Memmap2} `{!Memmap2Laws} {T : Type} `{Pod T} `{!PodLaws T}.
Implicit Types (s : St) (sp : spec T).

Lemma reopened path s1 sp1 t fs :
  quiet path -> rep s1 sp1 -> u64 t -> header_valid (hdr (shm s1)) (cap sp1) -> mapping_len (shm s1) < 2 ^ 63 ->
  exists s2, open_existing T path (<[path := shm_bytes (shm (counted s1 t))]> fs) =
      Ret (Ok (counted s2 t), <[path := shm_bytes (shm (counted s1 t))]> fs) /\
    rep s2 (with_gates sp1 (replicate 8 0)).
Proof.
  intros Hq R Ht Hv Hlen. exists (mkSt (shm s1) (fresh_ring (cap sp1) path)). split.
  - assert (Ec : r_capacity (ring (counted s1 t)) = cap sp1) by apply (rep_cap _ _ R).
    rewrite (open_run path (counted s1 t)); rewrite ?Ec; [done|done| | | |].
    + apply counted_layout; [apply R|done].
    + exact Hlen.
    + exact Hv.
    + by rewrite lookup_insert_eq.
  - apply (rep_regate (shm s1) (ring s1) (fresh_ring (cap sp1) path)); [by destruct s1| |..|].
    + symmetry. apply (rep_cap _ _ R).
    + apply Forall_replicate. unfold u64. lia.
    + done.
    + apply Forall_replicate. unfold u64. lia.
    + done.
Qed.

(** C8: A push is atomic against the death of the process: whatever access of
    [try_push] it is killed at, however many bytes of the slot it had written,
    another process that opens the file finds the ring with the record or,
    short of the [write_idx] store, without it, and never torn: every push,
    pop, peek and query then answers as the log with or without the record,
    from the cursors as they were.  Only [total_written] can differ: it is one
    short for good exactly if the record was published and not yet counted.
    Loans of the dead process are released unconsumed. *)
Theorem killed_push_is_atomic path k s sp v fs os :
  quiet path -> rep s sp -> header_valid (hdr (shm s)) (cap sp) -> mapping_len (shm s) < 2 ^ 63 ->
  pod_ok v -> Forall op_ok os -> produced sp + 1 + Z.of_nat (length os) < 2 ^ 64 ->
  exists dead sp1 s2 s3,
    try_push_killed k v s = Ret (tt, dead) /\
    log_kept sp sp1 (if (spec_push v sp).1 && published k then [v] else []) /\ gates sp1 = replicate 8 0 /\
    open_existing T path (<[path := shm_bytes (shm dead)]> fs) =
      Ret (Ok s2, <[path := shm_bytes (shm dead)]> fs) /\
    run os s2 = Ret (zip_with (tally (if (spec_push v sp).1 && uncounted k then 1 else 0)) os
                       (spec_run os sp1).1, s3).
Proof.
  intros Hq R Hv Hlen Hpv Hos Hw. set (d := if _ && uncounted k then 1 else 0).
  assert (Hd : 0 <= d) by (unfold d; by destruct (_ && _)). assert (0 <= produced sp) by (unfold produced; lia).
  destruct (killed_rep k s sp v R Hpv ltac:(unfold u64; lia))
    as (s1 & sp1 & E & Hd1 & R1 & (_ & El & Em & Ev & Ec) & Hk). fold d in E, Hd1.
  assert (Hp1 : produced sp1 <= produced sp + 1)
    by (rewrite (kept_len _ _ _ Hk); destruct (_ && published k); simpl; lia).
  destruct (reopened path s1 sp1 (produced sp1 - d) fs Hq R1) as (s2 & Eo & R2); [unfold u64; lia| | |].
  { unfold header_valid in *. rewrite Em, Ev, Ec, (kept_cap _ _ _ Hk). exact Hv. }
  { by rewrite El. }
  destruct (run_counted os s2 _ d R2 Hos) as (s3 & E3); [change (produced (with_gates sp1 _)) with (produced sp1); lia|done|].
  exists (counted s1 (produced sp1 - d)), (with_gates sp1 (replicate 8 0)), (counted s2 (produced sp1 - d)), s3.
  split_and!; [exact E| |done|exact Eo|exact E3]. destruct Hk. by split.
Qed.
End recovery.

(** ** A run *)

Section run.
#[local] Existing Instance dev_profile.
#[local] Existing Instance quiet_os.
#[local] Existing Instance plain_memmap2.
#[local] Existing Instance plain_memmap2_laws.

(** A ring of four slots that has gone round, its last message unread. *)
Definition lapped_ops : list (op Z) :=
  (v ← [1; 2; 3; 4; 5]; [OPush v; OPop 0; OPop 1]) ++ [OPush 6].
Definition lapped : St := match run lapped_ops demo_st with Ret (_, s) => s | _ => demo_st end.
Definition lapped_log : spec Z := (spec_run lapped_ops (empty_log Z 4 2)).2.

Lemma lapped_rep : rep lapped lapped_log.
Proof.
  destruct (run_refines lapped_ops demo_st (empty_log Z 4 2) demo_rep) as (s & E & R).
  - repeat (apply Forall_cons_2; [cbn; unfold u64; first [done|lia]|]). done.
  - vm_compute. reflexivity.
  - unfold lapped. rewrite E. exact R.
Qed.

(** The producer dies with every other byte of message [2^64 - 1] written over
    message 3; the next process sees message 6, then its own. *)
Lemma killed_push_is_atomic_witness : exists dead s2 s3,
  try_push_killed (InSlot Nat.even) (2 ^ 64 - 1) lapped = Ret (tt, dead) /\
  open_existing Z demo_path (<[demo_path := shm_bytes (shm dead)]> ∅) =
    Ret (Ok s2, <[demo_path := shm_bytes (shm dead)]> ∅) /\
  run [OLen 0; OPop 0; OPush 9; OPop 0; OTotalWritten] s2 =
    Ret ([RLen (Ok 1); RRecord (Ok (Some 6)); RPush true; RRecord (Ok (Some 9)); RNum 7], s3).
Proof.
  destruct (killed_push_is_atomic demo_path (InSlot Nat.even) lapped lapped_log (2 ^ 64 - 1) ∅
    [OLen 0; OPop 0; OPush 9; OPop 0; OTotalWritten] (quiet_demo _) lapped_rep)
    as (dead & sp1 & s2 & s3 & E & [Hl Hlog Hc Hn Hcap] & Hg & Eo & Er).
  - split_and!; vm_compute; first [reflexivity|discriminate].
  - vm_compute. reflexivity.
  - cbn. unfold u64. lia.
  - repeat (apply Forall_cons_2; [cbn; unfold u64; first [done|lia]|]). done.
  - vm_compute. reflexivity.
  - exists dead, s2, s3. split; [exact E|split; [exact Eo|]].
    destruct sp1 as [l cs n c g]; cbn [log cursors n_readers cap gates] in *. subst cs n c g.
    assert (H5 : l !! 5%nat = Some 6).
    { etransitivity; [exact (Hlog 5 ltac:(vm_compute; discriminate))|vm_compute; reflexivity]. }
    assert (H6 : Z.of_nat (length l) = 6) by (etransitivity; [exact Hl|vm_compute; reflexivity]).
    apply (Nat2Z.inj _ 6) in H6.
    destruct l as [|a [|b [|c [|d [|e [|f [|]]]]]]]; try discriminate H6. injection H5 as ->.
    rewrite Er. vm_compute. reflexivity.
Defined.
End run.
