(* ===== verification/CreateRace.v ===== *)
(** CreateRace: a ring file opened while it is being created.

    [create_new_with_readers] makes the file, extends it, maps it and writes
    the header with one plain write of 256 bytes; [open_existing] of another
    process may come at any moment: after the exclusive open, after [set_len],
    in the middle of the header.  ([src/src/ring.rs] reasons that nobody can
    have mapped the file yet.)  Here the creator writes a byte per step, in
    whatever order, and the opener performs one call or one atomic load per
    step; what it reads is the file as it is then.  The operating system
    raises no faults.  The opener is never led outside the file
    ([open_during_create]), but it can get a ring whose header is half there
    ([half_made_ring_opens]). *)

From S2P Require Import Prelude.
From S2P Require Import Error.
From S2P Require Import Header.
From S2P Require Import Pod.
From S2P Require Import Shm.
From S2P Require Import Fs.
From S2P Require Import Ring.
From S2P Require Import Spec.
From S2P Require Import Create.
From S2P Require Import Witnesses.
From coqutil Require LittleEndianList.
Set Default Goal Selector "!".
Open Scope Z_scope.
Open Scope shm_scope.

(** ** The two processes *)

(** Past its checks: about to create the file, to extend it, to write the
    bytes of the header at the offsets left, or back with its handle. *)
Inductive creator :=
  | CCreate
  | CSetLen
  | CWrite (todo : list nat)
  | CDone.

(** [open_existing]: before its calls ([open], [metadata], the mapping) and its
    loads (the magic, the version and the mask in [validate], then the mask
    again), or finished with the capacity its handle caches. *)
Inductive opener :=
  | OOpen
  | OLength
  | OMagic (file_len : Z)
  | OVersion (file_len : Z)
  | OMask (file_len : Z)
  | OCapacity' (file_len : Z)
  | ODone (r : outcome (result ShmRingError Z)).

Record race := mkRace {
  rc_file : option (list byte);
  rc_creator : creator;
  rc_opener : opener;
}.

Inductive turn := TCreator | TByte (k : nat) | TOpener.

#[export] Instance turn_eq_dec : EqDecision turn.
Proof. solve_decision. Defined.

(** The header page, byte by byte. *)
Definition header_offsets : list nat := seq 0 256.

Section machine.
Context `{Profile} (T : Type) `{Pod T} (capacity num_readers : Z).

(** The length of the file, and the file once created. *)
Definition file_size : Z := HEADER_SIZE + capacity * size_of T.
Definition created : list byte := shm_bytes (shm (fresh_st T "" capacity num_readers)).

Definition creator_step (s : race) (a : turn) : option race :=
  match rc_creator s, a with
  | CCreate, TCreator => Some (mkRace (Some []) CSetLen (rc_opener s))
  | CSetLen, TCreator =>
      Some (mkRace (Some (replicate (Z.to_nat file_size) Byte.x00))
              (CWrite header_offsets) (rc_opener s))
  | CWrite todo, TByte k =>
      if decide (k ∈ todo) then
        c ← rc_file s; b ← created !! k;
        Some (mkRace (Some (<[k := b]> c)) (CWrite (filter (fun j => j <> k) todo)) (rc_opener s))
      else None
  | CWrite [], TCreator => Some (mkRace (rc_file s) CDone (rc_opener s))
  | _, _ => None
  end.

(** The word at an offset of the mapping: a load past the end of the file
    would be outside it. *)
Definition load_word (c : list byte) (off n : nat) : option Z :=
  if Nat.leb (off + n) (length c) then Some (word_at c off n) else None.

(** The mask check of [validate]. *)
Definition mask_gate (mask : Z) : outcome (result ShmRingError unit) :=
  let bad := Ret (Err (HeaderCorruption "capacity_mask" 0 mask)) in
  if mask =? 0 then bad else
  match add64 mask 1 tt with
  | Ret (m1, _) => if is_power_of_two m1 then Ret (Ok tt) else bad
  | Panic => Panic
  | Ub => Ub
  end.

(** The end of [open_existing]. *)
Definition size_gate (file_len mask : Z) : M unit (result ShmRingError Z) :=
  let! capacity := add64 mask 1 in
  let! slots := mul64 capacity (size_of T) in
  let! expected := add64 HEADER_SIZE slots in
  if file_len <? expected then ret (Err (FileTooShort expected file_len)) else ret (Ok capacity).

Definition answer (r : outcome (result ShmRingError Z * unit)) : outcome (result ShmRingError Z) :=
  match r with Ret (r, _) => Ret r | Panic => Panic | Ub => Ub end.

Definition open_step (file : option (list byte)) (p : opener) : opener :=
  let c := default [] file in
  let load off n k := match load_word c off n with Some w => k w | None => ODone Ub end in
  match p with
  | OOpen => match file with None => ODone (Ret (Err (Io ErrorKind.NotFound))) | Some _ => OLength end
  | OLength =>
      let file_len := Z.of_nat (length c) in
      if file_len <? HEADER_SIZE then ODone (Ret (Err (FileTooShort HEADER_SIZE file_len))) else OMagic file_len
  | OMagic l => load 0%nat 8%nat (fun magic =>
      if negb (magic =? MAGIC) then ODone (Ret (Err (HeaderCorruption "magic" MAGIC magic))) else OVersion l)
  | OVersion l => load 8%nat 4%nat (fun version =>
      if negb (version =? VERSION) then ODone (Ret (Err (VersionMismatch VERSION version))) else OMask l)
  | OMask l => load 96%nat 8%nat (fun mask =>
      match mask_gate mask with
      | Ret (Ok _) => OCapacity' l
      | Ret (Err e) => ODone (Ret (Err e))
      | Panic => ODone Panic
      | Ub => ODone Ub
      end)
  | OCapacity' l => load 96%nat 8%nat (fun mask => ODone (answer (size_gate l mask tt)))
  | ODone r => ODone r
  end.

Definition race_step (s : race) (a : turn) : option race :=
  match a with
  | TOpener => Some (mkRace (rc_file s) (rc_creator s) (open_step (rc_file s) (rc_opener s)))
  | _ => creator_step s a
  end.

Fixpoint turns (l : list turn) (s : race) : option race :=
  match l with [] => Some s | a :: l => s' ← race_step s a; turns l s' end.

(** Steps the opener took in a schedule, and has left to take. *)
Definition openings (l : list turn) : nat := length (filter (fun a => a = TOpener) l).

Definition calls_left (p : opener) : nat :=
  match p with
  | OOpen => 6 | OLength => 5 | OMagic _ => 4 | OVersion _ => 3 | OMask _ => 2 | OCapacity' _ => 1
  | ODone _ => 0
  end.

Definition unborn : race := mkRace None CCreate OOpen.
End machine.

(** ** The opener is [open_existing] *)

Section alone.
Context `{Profile} `{Os} `{Memmap2} `{!Memmap2Laws} {T : Type} `{Pod T} `{!PodLaws T}.

Definition cached (r : outcome (result ShmRingError St * files)) : outcome (result ShmRingError Z) :=
  match r with
  | Ret (Ok s, _) => Ret (Ok (r_capacity (ring s)))
  | Ret (Err e, _) => Ret (Err e)
  | Panic => Panic
  | Ub => Ub
  end.

Lemma load_word_in c off n : (off + n <= length c)%nat -> load_word c off n = Some (word_at c off n).
Proof. intros Hl. unfold load_word. by rewrite (proj2 (Nat.leb_le _ _) Hl). Qed.

(** The opener's loads, once the file has its header page. *)
Lemma open_magic c l :
  (256 <= length c)%nat ->
  open_step T (Some c) (OMagic l) =
    (if word_at c 0 8 =? MAGIC then OVersion l
     else ODone (Ret (Err (HeaderCorruption "magic" MAGIC (word_at c 0 8))))).
Proof. intros Hl. unfold open_step. simpl. rewrite load_word_in by lia. by destruct (_ =? _). Qed.

Lemma open_version c l :
  (256 <= length c)%nat ->
  open_step T (Some c) (OVersion l) =
    (if word_at c 8 4 =? VERSION then OMask l
     else ODone (Ret (Err (VersionMismatch VERSION (word_at c 8 4))))).
Proof. intros Hl. unfold open_step. simpl. rewrite load_word_in by lia. by destruct (_ =? _). Qed.

Lemma open_mask c l :
  (256 <= length c)%nat ->
  open_step T (Some c) (OMask l) =
    match mask_gate (word_at c 96 8) with
    | Ret (Ok _) => OCapacity' l
    | Ret (Err e) => ODone (Ret (Err e))
    | Panic => ODone Panic
    | Ub => ODone Ub
    end.
Proof. intros Hl. unfold open_step. simpl. by rewrite load_word_in by lia. Qed.

Lemma open_capacity c l :
  (256 <= length c)%nat ->
  open_step T (Some c) (OCapacity' l) = ODone (answer (size_gate T l (word_at c 96 8) tt)).
Proof. intros Hl. unfold open_step. simpl. by rewrite load_word_in by lia. Qed.

(** On a file nobody changes the six steps are the call. *)
Lemma opener_alone path fs :
  quiet path -> align_of T <= 64 -> 0 < size_of T ->
  Nat.iter 6 (open_step T (fs !! path)) OOpen = ODone (cached (open_existing T path fs)).
Proof.
  intros Hq Hal Hsz. destruct (fs !! path) as [c|] eqn:Hf.
  2: { by rewrite (proj1 (open_rejects path fs Hq Hal Hsz) Hf). }
  rewrite (open_to_header path c fs) by done. rewrite !Nat.iter_succ_r.
  change (open_step T (Some c) OOpen) with OLength. cbn [open_step default from_option id].
  destruct (Z.ltb_spec (Z.of_nat (length c)) HEADER_SIZE) as [|Hl]; [done|].
  assert (Hl' : (256 <= length c)%nat) by (unfold HEADER_SIZE in Hl; lia). rewrite open_magic by done.
  unfold bind_ok, bind at 1, lift, validate. cbn [h_magic h_version h_capacity_mask header_of_bytes].
  destruct (word_at c 0 8 =? MAGIC); [cbn [negb]|done]. rewrite open_version by done.
  destruct (word_at c 8 4 =? VERSION); [cbn [negb]|done]. rewrite open_mask by done.
  unfold mask_gate. destruct (word_at c 96 8 =? 0); [done|].
  destruct (add64 (word_at c 96 8) 1 tt) as [[m1 []]| |]; [|done..].
  destruct (is_power_of_two m1); [|done]. rewrite open_capacity by done. cbn [Nat.iter nat_rect].
  change (capacity_mask (header_of_bytes c) Acquire) with (word_at c 96 8).
  f_equal. unfold size_gate, bind, add64, mul64, arith, ret, panic.
  destruct overflow_checks; do 3 (destruct (_ && _); try done).
  all: by destruct (_ <? _).
Qed.
End alone.

(** ** An opener that comes early *)

(** The creator writes some bytes of the header, then the opener runs. *)
Definition peeking (written : list nat) : list turn :=
  [TCreator; TCreator] ++ (TByte <$> written) ++ replicate 6 TOpener.

(** The bytes of a word; those [open_existing] looks at: the magic, the
    version and the mask; and the rest of the page. *)
Definition bytes_of (off w : nat) : list nat := seq off w.
Definition gate_bytes : list nat := seq 0 12 ++ seq 96 8.
Definition rest_bytes : list nat := seq 12 84 ++ seq 104 152.

(** ** The file while it is created *)

Section file.
Context `{Profile} {T : Type} `{Pod T} `{!PodLaws T} (capacity n : Z).
Hypothesis (Ha : create_args T capacity n).

#[local] Notation total := (file_size T capacity).

(** The file with some bytes of the header to go. *)
Definition partial (todo : list nat) : list byte :=
  imap (fun k b => if decide (k ∈ todo) then Byte.x00 else b) (created T capacity n).

Lemma created_length : Z.of_nat (length (created T capacity n)) = total.
Proof.
  unfold created. rewrite shm_bytes_length by (apply (lo_hdr (T := T)), fresh_layout, Ha).
  by apply fresh_len.
Qed.

Lemma partial_length todo : Z.of_nat (length (partial todo)) = total.
Proof. unfold partial. by rewrite length_imap, created_length. Qed.

Lemma partial_page todo : (256 <= length (partial todo))%nat.
Proof.
  pose proof (partial_length todo). pose proof (create_args_pos _ _ Ha). pose proof (ca_size _ _ Ha).
  unfold file_size, HEADER_SIZE in *. nia.
Qed.

Lemma partial_nil : partial [] = created T capacity n.
Proof. unfold partial. apply list_eq. intros k. rewrite list_lookup_imap. by destruct (_ !! k). Qed.

Lemma partial_zeros : partial header_offsets = replicate (Z.to_nat total) Byte.x00.
Proof.
  apply list_eq. intros k. unfold partial. rewrite list_lookup_imap.
  pose proof created_length as Hl. destruct (created T capacity n !! k) as [b|] eqn:E; simpl.
  - pose proof (lookup_lt_Some _ _ _ E). rewrite lookup_replicate_2 by lia. f_equal.
    destruct (decide (k ∈ header_offsets)) as [|Hk]; [done|].
    assert (256 <= k)%nat by (unfold header_offsets in Hk; rewrite elem_of_seq in Hk; lia).
    assert (Hh : length (header_bytes (hdr (shm (fresh_st T "" capacity n)))) = 256%nat)
      by apply header_bytes_length, (lo_hdr (T := T)), fresh_layout, Ha.
    unfold created, shm_bytes in E. rewrite lookup_app_r in E by lia.
    by apply lookup_replicate_1 in E as [-> _].
  - apply lookup_ge_None in E. symmetry. apply lookup_replicate_None. lia.
Qed.

Lemma partial_write todo k b :
  k ∈ todo -> created T capacity n !! k = Some b ->
  <[k := b]> (partial todo) = partial (filter (fun j => j <> k) todo).
Proof.
  intros Hk Hb. apply list_eq. intros j. unfold partial. destruct (decide (j = k)) as [->|Hj].
  - rewrite list_lookup_insert_eq by (rewrite length_imap; by eapply lookup_lt_Some).
    rewrite list_lookup_imap, Hb. simpl. rewrite decide_False; [done|].
    rewrite list_elem_of_filter. naive_solver.
  - rewrite list_lookup_insert_ne, !list_lookup_imap by done. destruct (_ !! j) as [x|]; [simpl|done].
    f_equal. apply decide_ext. rewrite list_elem_of_filter. naive_solver.
Qed.

(** No word of it exceeds the word to be. *)
Lemma partial_word todo off w :
  word_at (partial todo) off w <= word_at (created T capacity n) off w.
Proof.
  apply le_word_mono, Forall2_take, Forall2_drop, Forall2_lookup. intros k. unfold partial.
  rewrite list_lookup_imap. destruct (_ !! k) as [b|]; simpl; constructor.
  destruct (decide _); auto.
Qed.

Lemma created_words :
  word_at (created T capacity n) 0 8 = MAGIC /\ word_at (created T capacity n) 8 4 = VERSION /\
  word_at (created T capacity n) 96 8 = capacity - 1.
Proof.
  pose proof (lo_hdr (T := T) _ (fresh_layout "" _ _ Ha)) as Hh.
  pose proof (header_of_header_bytes _ (data (shm (fresh_st T "" capacity n))) Hh) as E.
  split_and!; [exact (f_equal h_magic E)|exact (f_equal h_version E)|exact (f_equal h_capacity_mask E)].
Qed.

Lemma partial_version todo : word_at (partial todo) 8 4 <> VERSION -> word_at (partial todo) 8 4 = 0.
Proof.
  pose proof (partial_word todo 8 4) as Hw. pose proof (word_at_range (partial todo) 8 4).
  destruct created_words as (_ & Ev & _). rewrite Ev in Hw. unfold VERSION in *. lia.
Qed.

Lemma partial_mask todo : 0 <= word_at (partial todo) 96 8 < capacity.
Proof.
  pose proof (partial_word todo 96 8) as Hw. pose proof (word_at_range (partial todo) 96 8).
  destruct created_words as (_ & _ & Em). rewrite Em in Hw. lia.
Qed.

(** ** What an early opener can be told *)

Inductive early : outcome (result ShmRingError Z) -> Prop :=
  | early_absent : early (Ret (Err (Io ErrorKind.NotFound)))
  | early_empty : early (Ret (Err (FileTooShort HEADER_SIZE 0)))
  | early_magic got : got <> MAGIC -> early (Ret (Err (HeaderCorruption "magic" MAGIC got)))
  | early_version : early (Ret (Err (VersionMismatch VERSION 0)))
  | early_mask got : 0 <= got < capacity -> early (Ret (Err (HeaderCorruption "capacity_mask" 0 got)))
  | early_ok c : 1 <= c <= capacity -> early (Ret (Ok c)).

Lemma mask_gate_early mask :
  0 <= mask < capacity ->
  mask_gate mask = Ret (Ok tt) \/ exists e, mask_gate mask = Ret (Err e) /\ early (Ret (Err e)).
Proof.
  intros Hm. pose proof (create_args_pos _ _ Ha). unfold mask_gate.
  destruct (mask =? 0); [by right; eexists; split; [|constructor]|].
  unfold add64. rewrite arith_run by (unfold u64; lia).
  destruct (is_power_of_two _); [by left|right]. eexists. by split; [|constructor].
Qed.

Lemma size_gate_early mask :
  0 <= mask < capacity -> size_gate T total mask tt = Ret (Ok (mask + 1), tt).
Proof.
  intros Hm. pose proof (create_args_pos _ _ Ha). pose proof (ca_fits _ _ Ha). pose proof (ca_size _ _ Ha).
  unfold file_size. unfold size_gate, HEADER_SIZE in *.
  assert ((mask + 1) * size_of T <= capacity * size_of T) by nia.
  erewrite bind_run by (apply arith_run; unfold u64; lia).
  erewrite bind_run by (apply arith_run; unfold u64; nia).
  erewrite bind_run by (apply arith_run; unfold u64; nia).
  by rewrite (proj2 (Z.ltb_ge _ _)) by lia.
Qed.

(** ** The invariant of the race *)

Definition file_of (p : creator) : option (list byte) :=
  match p with
  | CCreate => None
  | CSetLen => Some []
  | CWrite todo => Some (partial todo)
  | CDone => Some (created T capacity n)
  end.

Definition opener_ok (file : option (list byte)) (p : opener) : Prop :=
  match p with
  | OOpen => True
  | OLength => is_Some file
  | OMagic l | OVersion l | OMask l | OCapacity' l => l = total /\ exists todo, file = Some (partial todo)
  | ODone r => early r
  end.

Definition race_inv (s : race) : Prop :=
  rc_file s = file_of (rc_creator s) /\ opener_ok (rc_file s) (rc_opener s).

Lemma file_of_cases p : file_of p = None \/ file_of p = Some [] \/ exists todo, file_of p = Some (partial todo).
Proof. destruct p; simpl; [auto|auto|eauto|]. rewrite <- partial_nil. eauto. Qed.

Lemma open_step_ok p o : opener_ok (file_of p) o -> opener_ok (file_of p) (open_step T (file_of p) o).
Proof.
  intros Ho. destruct o as [| |l|l|l|l|r]; [| |destruct Ho as (-> & todo & ->)..|exact Ho].
  - destruct (file_of p); [by eexists|constructor].
  - destruct (file_of_cases p) as [E|[E|[todo E]]]; rewrite E in *; [by destruct Ho|constructor|].
    cbn [open_step default from_option id]. rewrite partial_length.
    destruct (Z.ltb_spec total HEADER_SIZE); [|simpl; eauto].
    pose proof (create_args_pos _ _ Ha). pose proof (ca_size _ _ Ha). unfold file_size in *. nia.
  - rewrite open_magic by by apply partial_page.
    destruct (Z.eqb_spec (word_at (partial todo) 0 8) MAGIC); [simpl; eauto|by constructor].
  - rewrite open_version by by apply partial_page.
    destruct (Z.eqb_spec (word_at (partial todo) 8 4) VERSION); [simpl; eauto|].
    rewrite partial_version by done. constructor.
  - rewrite open_mask by by apply partial_page.
    destruct (mask_gate_early _ (partial_mask todo)) as [->|(e & -> & He)]; [simpl; eauto|done].
  - rewrite open_capacity, size_gate_early by first [apply partial_page|apply partial_mask].
    pose proof (partial_mask todo). constructor. lia.
Qed.

(** A step of the creator: the file is there from then on, and once it has
    its length it keeps it. *)
Lemma creator_step_inv s a s' :
  rc_file s = file_of (rc_creator s) -> creator_step T capacity n s a = Some s' ->
  rc_file s' = file_of (rc_creator s') /\ rc_opener s' = rc_opener s /\ is_Some (rc_file s') /\
  ((exists todo, rc_file s = Some (partial todo)) -> exists todo, rc_file s' = Some (partial todo)).
Proof.
  destruct s as [f p o]. cbn [rc_file rc_creator rc_opener]. intros -> E. unfold creator_step in E.
  destruct p as [| |todo|], a as [|k|]; try destruct todo as [|j todo];
    cbn [rc_file rc_creator rc_opener file_of] in *; simplify_eq;
    cbn [rc_file rc_creator rc_opener file_of] in *.
  - split_and!; [done|done|by eexists|by intros [? ?]].
  - rewrite <- partial_zeros. split_and!; [done|done|by eexists|by eexists].
  - rewrite partial_nil. split_and!; [done|done|by eexists|exists []; by rewrite partial_nil].
  - destruct (decide (k ∈ _)) as [Hk|]; [|done]. simpl in E.
    destruct (created T capacity n !! k) as [b|] eqn:Eb; [|done]. simpl in E. simplify_eq.
    cbn [rc_file rc_creator rc_opener file_of] in *. rewrite partial_write by done.
    split_and!; [done|done|by eexists|by eexists].
Qed.

Lemma race_step_inv s a s' : race_inv s -> race_step T capacity n s a = Some s' -> race_inv s'.
Proof.
  intros [Hf Ho] E. destruct (decide (a = TOpener)) as [->|Ha'].
  { simpl in E. simplify_eq. split; [done|]. cbn [rc_file rc_opener]. rewrite Hf in *. by apply open_step_ok. }
  destruct (creator_step_inv s a s' Hf) as (Hf' & Eo & Hs & Hl); [by destruct a|].
  split; [done|]. rewrite Eo. destruct (rc_opener s); simpl in *; naive_solver.
Qed.

Lemma turns_inv l s s' : race_inv s -> turns T capacity n l s = Some s' -> race_inv s'.
Proof.
  revert s. induction l as [|a l IH]; simpl; intros s Hs E; [by simplify_eq|].
  destruct (race_step T capacity n s a) eqn:E1; [|done]. eapply IH; [|exact E]. by eapply race_step_inv.
Qed.

Lemma open_step_left file p : (calls_left (open_step T file p) <= pred (calls_left p))%nat.
Proof.
  destruct p; unfold open_step; cbn zeta; repeat case_match; simpl; lia.
Qed.

Lemma turns_left l s s' :
  turns T capacity n l s = Some s' ->
  (calls_left (rc_opener s') <= calls_left (rc_opener s) - openings l)%nat.
Proof.
  revert s. induction l as [|a l IH]; simpl; intros s E; [injection E as <-; unfold openings; simpl; lia|].
  destruct (race_step T capacity n s a) as [s1|] eqn:E1; [|done]. apply IH in E.
  unfold openings. rewrite filter_cons. destruct (decide (a = TOpener)) as [->|Ha'].
  - simpl in E1. simplify_eq. pose proof (open_step_left (rc_file s) (rc_opener s)).
    unfold openings in E. simpl in *. lia.
  - replace (rc_opener s1) with (rc_opener s) in E; [exact E|].
    destruct s as [f p o], a; unfold race_step, creator_step in E1; simpl in E1; try done;
      destruct p as [| |[|j todo]|]; by simplify_option_eq.
Qed.

(** After the creation every opener sees the same: the ring, or, of a ring of
    one slot, a mask of zero. *)
Definition settled_answer : result ShmRingError Z :=
  if capacity =? 1 then Err (HeaderCorruption "capacity_mask" 0 0) else Ok capacity.

Lemma gate_answer c l :
  (256 <= length c)%nat -> word_at c 0 8 = MAGIC -> word_at c 8 4 = VERSION ->
  word_at c 96 8 = capacity - 1 -> l = total ->
  Nat.iter 4 (open_step T (Some c)) (OMagic l) = ODone (Ret settled_answer).
Proof.
  intros Hp Em Ev Ek ->. rewrite !Nat.iter_succ_r. pose proof (create_args_pos _ _ Ha).
  rewrite open_magic, Em, Z.eqb_refl, open_version, Ev, Z.eqb_refl, open_mask, Ek by done.
  unfold settled_answer. destruct (Z.eqb_spec capacity 1) as [->|Hc]; [done|].
  replace (mask_gate (capacity - 1)) with (Ret (Ok (E := ShmRingError) tt)).
  - rewrite open_capacity, Ek, size_gate_early by (done || lia). simpl. do 3 f_equal. lia.
  - unfold mask_gate. rewrite (proj2 (Z.eqb_neq _ _)) by lia.
    unfold add64. rewrite arith_run by (unfold u64; lia).
    replace (is_power_of_two (capacity - 1 + 1)) with true; [done|].
    symmetry. apply is_power_of_two_spec. replace (capacity - 1 + 1) with capacity by lia. apply Ha.
Qed.

(** The whole call on a file with its length and the checked words. *)
Lemma open_answer c :
  (256 <= length c)%nat -> Z.of_nat (length c) = total ->
  word_at c 0 8 = MAGIC -> word_at c 8 4 = VERSION -> word_at c 96 8 = capacity - 1 ->
  Nat.iter 6 (open_step T (Some c)) OOpen = ODone (Ret settled_answer).
Proof.
  intros Hp Hl Em Ev Ek. change 6%nat with (4 + 2)%nat. rewrite Nat.iter_add.
  change (Nat.iter 2 (open_step T (Some c)) OOpen) with (open_step T (Some c) OLength).
  cbn [open_step default from_option id]. rewrite (proj2 (Z.ltb_ge _ _)) by (unfold HEADER_SIZE; lia).
  by apply gate_answer.
Qed.

Lemma open_created :
  Nat.iter 6 (open_step T (Some (created T capacity n))) OOpen = ODone (Ret settled_answer).
Proof.
  pose proof (partial_page []) as Hp. rewrite partial_nil in Hp.
  destruct created_words as (Em & Ev & Ek). apply open_answer; [done|apply created_length|done..].
Qed.

Lemma turns_created l o s :
  turns T capacity n l (mkRace (Some (created T capacity n)) CDone o) = Some s ->
  rc_opener s = Nat.iter (openings l) (open_step T (Some (created T capacity n))) o.
Proof.
  revert o. induction l as [|a l IH]; simpl; intros o E; [by simplify_eq|].
  destruct a; [done..|]. apply IH in E. rewrite E. unfold openings. by rewrite <- Nat.iter_succ_r.
Qed.

Lemma land_le a b : 0 <= b -> Z.land a b <= b.
Proof.
  intros Hb. enough (0 <= b - Z.land a b) by lia. rewrite Z.sub_nocarry_ldiff.
  - apply Z.ldiff_nonneg. by left.
  - apply Z.bits_inj'. intros k _. rewrite Z.ldiff_spec, Z.land_spec, Z.bits_0.
    by destruct (Z.testbit a k), (Z.testbit b k).
Qed.

(** C19: Opening a ring while it is being created, whatever part of the file is
    written and in whatever order its bytes arrive: after six steps the
    opener has its answer, one of a missing file, an empty file, a magic, a
    version or a mask still in parts, or a handle, never a panic; and the
    capacity of the handle is at most that of the ring, so every slot it
    computes lies inside the file.  Once the creation is over, the answer
    is the ring, or, if it has a single slot, a corrupt mask of zero. *)
Theorem open_during_create l s :
  (6 <= openings l)%nat ->
  (turns T capacity n l unborn = Some s ->
   exists r, rc_opener s = ODone r /\ early r /\
     forall c idx, r = Ret (Ok c) -> 0 <= idx ->
       DATA_OFFSET + Z.land idx (c - 1) * size_of T + size_of T <= file_size T capacity) /\
  (turns T capacity n l (mkRace (Some (created T capacity n)) CDone OOpen) = Some s ->
   rc_opener s = ODone (Ret settled_answer)).
Proof.
  intros Hl. split.
  - intros E. pose proof (turns_left _ _ _ E) as Hleft. simpl in Hleft.
    apply turns_inv in E as [_ Ho]; [|by split].
    destruct (rc_opener s) as [| |?|?|?|?|r]; simpl in Hleft, Ho; try lia.
    exists r. split_and!; [done..|]. intros c idx -> Hi. inversion Ho as [| | | | |c' Hc]; subst.
    pose proof (land_le idx (c - 1) ltac:(lia)). pose proof (ca_size _ _ Ha).
    unfold file_size, DATA_OFFSET. nia.
  - intros E. rewrite (turns_created _ _ _ E).
    replace (openings l) with (openings l - 6 + 6)%nat by lia. rewrite Nat.iter_add, open_created.
    induction (openings l - 6)%nat as [|k IH]; [done|]. rewrite Nat.iter_succ. by rewrite IH.
Qed.
(** ** A ring opened half made *)

(** The bytes of the header to come once those at [ks] are written. *)
Definition unwritten (ks : list nat) : list nat := filter (fun j => j ∉ ks) header_offsets.

Lemma unwritten_in ks k : k ∈ unwritten ks <-> k ∉ ks /\ (k < 256)%nat.
Proof. unfold unwritten, header_offsets. rewrite list_elem_of_filter, elem_of_seq. naive_solver lia. Qed.

(** The creator writes [ks], in that order. *)
Lemma writes_run ks todo o :
  NoDup ks -> (forall k, k ∈ ks -> k ∈ todo) -> (forall k, k ∈ todo -> (k < 256)%nat) ->
  turns T capacity n (TByte <$> ks) (mkRace (Some (partial todo)) (CWrite todo) o) =
    Some (mkRace (Some (partial (filter (fun j => j ∉ ks) todo))) (CWrite (filter (fun j => j ∉ ks) todo)) o).
Proof.
  intros Hnd. revert todo. induction Hnd as [|k ks Hk Hnd IH]; intros todo Hin Hpage.
  { assert (E : filter (fun j => j ∉ @nil nat) todo = todo); [|by rewrite E].
    clear. induction todo as [|j todo IH]; [done|].
    by rewrite filter_cons_True, IH by apply not_elem_of_nil. }
  assert (E : race_step T capacity n (mkRace (Some (partial todo)) (CWrite todo) o) (TByte k) =
    Some (mkRace (Some (partial (filter (fun j => j <> k) todo))) (CWrite (filter (fun j => j <> k) todo)) o)).
  { cbn [race_step creator_step rc_creator rc_file rc_opener].
    destruct (lookup_lt_is_Some_2 (created T capacity n) k) as [b Hb].
    { pose proof (partial_page []) as Hp. rewrite partial_nil in Hp.
      pose proof (Hpage k (Hin k ltac:(by left))). lia. }
    destruct todo as [|j todo]; [by destruct (not_elem_of_nil k); apply Hin; left|].
    rewrite decide_True by (apply Hin; by left). cbn [mbind option_bind]. rewrite Hb. cbn [mbind option_bind].
    by rewrite partial_write by (done || (apply Hin; by left)). }
  cbn [fmap list_fmap turns]. rewrite E. cbn [mbind option_bind]. rewrite IH.
  - rewrite list_filter_filter. do 2 f_equal; [f_equal; f_equal|f_equal]; apply list_filter_iff;
      intros j; rewrite not_elem_of_cons; naive_solver.
  - intros j Hj. apply list_elem_of_filter. split; [by intros ->|apply Hin; by right].
  - intros j [_ Hj]%list_elem_of_filter. by apply Hpage.
Qed.

(** A word whose bytes are all there, and one none of whose bytes is. *)
Lemma word_at_ext (c c' : list byte) off w :
  (forall k, k ∈ bytes_of off w -> c !! k = c' !! k) -> word_at c off w = word_at c' off w.
Proof.
  intros Hk. unfold word_at. f_equal. apply list_eq. intros j.
  destruct (decide (j < w)%nat); [|by rewrite !lookup_take_ge by lia].
  rewrite !lookup_take_lt, !lookup_drop by done. apply Hk, elem_of_seq. lia.
Qed.

Lemma partial_word_there todo off w :
  (forall k, k ∈ todo -> k ∉ bytes_of off w) ->
  word_at (partial todo) off w = word_at (created T capacity n) off w.
Proof.
  intros Hk. apply word_at_ext. intros k Hin. unfold partial. rewrite list_lookup_imap.
  destruct (created T capacity n !! k); [simpl|done]. rewrite decide_False; [done|].
  intros Ht. by apply (Hk k Ht).
Qed.

Lemma le_word_zeros k : le_word (replicate k Byte.x00) = 0.
Proof. induction k as [|k IH]; [done|]. cbn [replicate]. rewrite le_word_cons, IH. done. Qed.

Lemma partial_word_absent todo off w :
  (off + w <= 256)%nat -> (forall k, k ∈ bytes_of off w -> k ∈ todo) -> word_at (partial todo) off w = 0.
Proof.
  intros Hp Hk. pose proof (partial_page todo) as Hl. unfold word_at.
  replace (take w (drop off (partial todo))) with (replicate w Byte.x00); [apply le_word_zeros|].
  symmetry. apply list_eq. intros j. destruct (decide (j < w)%nat) as [Hj|Hj].
  - rewrite lookup_take_lt, lookup_drop, lookup_replicate_2 by done. unfold partial in *.
    rewrite length_imap in Hl. rewrite list_lookup_imap.
    destruct (lookup_lt_is_Some_2 (created T capacity n) (off + j)) as [b ->]; [lia|]. simpl.
    rewrite decide_True; [done|]. apply Hk, elem_of_seq. lia.
  - rewrite lookup_take_ge by lia. symmetry. apply lookup_replicate_None. lia.
Qed.

Lemma created_write_idx : word_at (created T capacity n) 24 8 = 0.
Proof.
  pose proof (lo_hdr (T := T) _ (fresh_layout "" _ _ Ha)) as Hh.
  pose proof (header_of_header_bytes _ (data (shm (fresh_st T "" capacity n))) Hh) as E.
  exact (f_equal h_write_idx E).
Qed.

Lemma partial_write_idx todo : word_at (partial todo) 24 8 = 0.
Proof.
  pose proof (partial_word todo 24 8) as Hw. pose proof (word_at_range (partial todo) 24 8).
  rewrite created_write_idx in Hw. lia.
Qed.

(** The handle an opener has on the half-made file. *)
Definition half_made (path : string) (todo : list nat) : St :=
  mkSt (shm_of_bytes (partial todo)) (fresh_ring capacity path).

Lemma half_made_len path todo : mapping_len (shm (half_made path todo)) = total.
Proof.
  pose proof (partial_length todo). pose proof (partial_page todo).
  unfold mapping_len, half_made, shm_of_bytes, HEADER_SIZE; cbn [shm data]. rewrite length_drop. lia.
Qed.

Lemma half_made_layout path todo : layout_ok T (half_made path todo).
Proof.
  pose proof (fresh_layout path _ _ Ha) as []. pose proof (ca_fits _ _ Ha).
  split; try done; rewrite ?half_made_len; try done; [apply header_of_bytes_ok|unfold file_size; lia].
Qed.

(** Calls on a ring whose header has no readers yet. *)
Lemma pop_no_readers (s : St) i :
  h_num_readers (hdr (shm s)) = 0 -> 0 <= i ->
  try_pop (T := T) i s =
    if overflow_checks then Panic else Ret (Err (InvalidReaderId i (2 ^ 64 - 1)), s).
Proof.
  intros En Hi. unfold try_pop, check_reader, bind_ok. unfold bind at 1. unfold bind at 1. cbn [hdr_].
  unfold num_readers. rewrite En, (proj2 (Z.leb_le _ _) Hi). unfold bind at 1, sub64.
  destruct overflow_checks eqn:Ho.
  - by rewrite arith_overflows by (first [exact Ho|unfold u64; lia]).
  - by rewrite arith_unchecked by exact Ho.
Qed.

Lemma push_no_readers (s : St) (v : T) :
  layout_ok T s -> h_num_readers (hdr (shm s)) = 0 -> h_write_idx (hdr (shm s)) = 0 ->
  2 <= r_capacity (ring s) ->
  try_push v s = if overflow_checks then Panic else Ret (true, pushed s v).
Proof.
  intros Hs En Ei Hc. unfold try_push. erewrite bind_run by reflexivity. cbn beta zeta.
  unfold num_readers. rewrite En.
  assert (Esl : slowest_read_idx (hdr (shm s)) 0 Acquire = Ret u64_MAX)
    by (unfold slowest_read_idx; by rewrite (proj2 (Z.leb_le _ _)) by lia).
  erewrite bind_run by (by apply lift_run). clear Esl.
  unfold write_idx at 1. rewrite Ei. unfold bind at 1, sub64. destruct overflow_checks eqn:Ho.
  { by rewrite arith_overflows by (first [exact Ho|unfold u64, u64_MAX; lia]). }
  rewrite arith_unchecked by exact Ho. change (wrap64 (0 - u64_MAX)) with 1.
  erewrite bind_run by reflexivity. rewrite (proj2 (Z.leb_gt _ _)) by lia. unfold write_idx. rewrite Ei.
  erewrite bind_run by (by apply slot_ptr_run). erewrite bind_run by (by apply write_volatile_run).
  erewrite bind_run by (apply arith_run; unfold u64; lia). unfold pushed. by rewrite Ei.
Qed.

Lemma half_made_counted path todo v :
  h_write_idx (hdr (shm (pushed (half_made path todo) v))) = 1.
Proof.
  transitivity (word_at (partial todo) 24 8 + 1); [reflexivity|]. rewrite partial_write_idx. reflexivity.
Qed.

Lemma half_made_pushed_length path todo v :
  length (shm_bytes (shm (pushed (half_made path todo) v))) = length (created T capacity n).
Proof.
  pose proof (half_made_layout path todo) as Hs. apply Nat2Z.inj.
  rewrite created_length, shm_bytes_length.
  - unfold pushed, mapping_len; cbn [with_hdr shm data]. 
    pose proof (slot_set_len _ (h_write_idx (hdr (shm (half_made path todo)))) v Hs) as El.
    rewrite half_made_len in El. exact El.
  - unfold pushed; cbn [with_hdr shm hdr]. apply bump_total_written_ok, set_write_idx_ok; [apply Hs|].
    change (h_write_idx _) with (word_at (partial todo) 24 8). rewrite partial_write_idx. unfold u64; lia.
Qed.

Lemma turns_app l1 l2 s :
  turns T capacity n (l1 ++ l2) s = s' ← turns T capacity n l1 s; turns T capacity n l2 s'.
Proof.
  revert s. induction l1 as [|a l1 IH]; intros s; [done|]. simpl.
  destruct (race_step T capacity n s a); [apply IH|done].
Qed.

Lemma turns_openers k c p o :
  turns T capacity n (replicate k TOpener) (mkRace c p o) = Some (mkRace c p (Nat.iter k (open_step T c) o)).
Proof.
  revert o. induction k as [|k IH]; intros o; [done|]. cbn [replicate turns race_step rc_file rc_creator rc_opener mbind option_bind].
  by rewrite IH, Nat.iter_succ_r.
Qed.

(** The rest of the header arriving on a file in use. *)
Definition arrived (todo0 : list nat) (s : race) : Prop :=
  exists c, rc_file s = Some c /\ length c = length (created T capacity n) /\
    forall k, k ∈ todo0 -> match rc_creator s with
      | CWrite todo => k ∉ todo -> c !! k = created T capacity n !! k
      | CDone => c !! k = created T capacity n !! k
      | _ => False
      end.

Lemma arrived_step todo0 s a s' :
  rc_creator s <> CCreate -> rc_creator s <> CSetLen ->
  arrived todo0 s -> race_step T capacity n s a = Some s' ->
  arrived todo0 s' /\ rc_creator s' <> CCreate /\ rc_creator s' <> CSetLen.
Proof.
  destruct s as [f p o]. intros H1 H2 (c & Ec & Hl & Hk) E. cbn [rc_file rc_creator rc_opener] in *.
  subst f. destruct p as [| |todo|]; try done; destruct a as [|k|];
    unfold race_step, creator_step in E; cbn [rc_file rc_creator rc_opener mbind option_bind] in E; try done.
  - destruct todo as [|j todo]; [|done]. simplify_eq. split; [|done]. exists c. split_and!; [done..|].
    intros k Hin. by apply (Hk k Hin), not_elem_of_nil.
  - assert (E' : (if decide (k ∈ todo) then b ← created T capacity n !! k;
      Some (mkRace (Some (<[k:=b]> c)) (CWrite (filter (fun j => j <> k) todo)) o) else None) = Some s')
      by (by destruct todo). clear E.
    destruct (decide (k ∈ todo)); [|done]. apply bind_Some in E' as (b & Eb & [= <-]). split; [|done].
    exists (<[k := b]> c). split_and!; [done|by rewrite length_insert|]. cbn [rc_creator]. intros j Hin Hj.
    destruct (decide (j = k)) as [->|Hne].
    + rewrite list_lookup_insert_eq by (rewrite Hl; by eapply lookup_lt_Some). done.
    + rewrite list_lookup_insert_ne by done. apply (Hk j Hin). intros Ht. by apply Hj, list_elem_of_filter.
  - simplify_eq. split; [|done]. by exists c.
  - simplify_eq. split; [|done]. by exists c.
Qed.

Lemma arrived_turns todo0 l s s' :
  rc_creator s <> CCreate -> rc_creator s <> CSetLen ->
  arrived todo0 s -> turns T capacity n l s = Some s' -> arrived todo0 s'.
Proof.
  revert s. induction l as [|a l IH]; intros s H1 H2 Hs E; simpl in E; [by simplify_eq|].
  apply bind_Some in E as (s1 & E1 & E). destruct (arrived_step _ _ _ _ H1 H2 Hs E1) as (Hs1 & H1' & H2').
  by eapply IH.
Qed.

(** The words an opener checks there, the rest not: it succeeds. *)
Lemma half_made_opens ks :
  NoDup ks -> (forall k, k ∈ ks -> (k < 256)%nat) -> (forall k, k ∈ gate_bytes -> k ∈ ks) ->
  2 <= capacity ->
  turns T capacity n (peeking ks) unborn =
    Some (mkRace (Some (partial (unwritten ks))) (CWrite (unwritten ks)) (ODone (Ret (Ok capacity)))).
Proof.
  intros Hnd Hpage Hgate Hc.
  assert (Hthere : forall off w, (forall k, k ∈ bytes_of off w -> k ∈ gate_bytes) ->
    word_at (partial (unwritten ks)) off w = word_at (created T capacity n) off w).
  { intros off w Hin. apply partial_word_there. intros k [Hk _]%unwritten_in Hb. by apply Hk, Hgate, Hin. }
  assert (Hopen : Nat.iter 6 (open_step T (Some (partial (unwritten ks)))) OOpen = ODone (Ret (Ok capacity))).
  { replace (Ok capacity) with settled_answer by (unfold settled_answer; by rewrite (proj2 (Z.eqb_neq _ _)) by lia).
    destruct created_words as (Em & Ev & Ek).
    apply open_answer; [apply partial_page|apply partial_length|rewrite Hthere..]; try done;
      intros k Hk; unfold gate_bytes; rewrite elem_of_app; unfold bytes_of in Hk; rewrite !elem_of_seq in *; lia. }
  unfold peeking. cbn [app turns race_step creator_step unborn rc_creator rc_opener mbind option_bind].
  rewrite <- partial_zeros. rewrite turns_app, writes_run;
    [|done|intros k Hk; apply elem_of_seq; specialize (Hpage k Hk); lia|intros k Hk%elem_of_seq; lia].
  cbn [mbind option_bind]. fold (unwritten ks). by rewrite turns_openers, Hopen.
Qed.

(** C20: Nothing marks a header as complete, so a ring can be opened half made.
    For every ring of two or more slots, whatever bytes of the header are
    written and in whatever order, provided the magic, the version and the
    mask are and the count of readers is not: [open_existing] succeeds; then
    every pop panics where overflow is checked and elsewhere reports an
    invalid reader whose largest valid id is [u64::MAX]; a push panics, or
    returns [true] with [write_idx] at 1, and if [write_idx] was among the
    bytes to come, the rest of the header sets it back to 0 in every
    completion of the creation: the accepted message is lost. *)
Theorem half_made_ring_opens ks path v :
  NoDup ks -> (forall k, k ∈ ks -> (k < 256)%nat) -> (forall k, k ∈ gate_bytes -> k ∈ ks) ->
  (forall k, k ∈ bytes_of 12 4 -> k ∉ ks) -> 2 <= capacity ->
  exists s, turns T capacity n (peeking ks) unborn = Some s /\
    rc_opener s = ODone (Ret (Ok capacity)) /\
    let st := mkSt (shm_of_bytes (default [] (rc_file s))) (fresh_ring capacity path) in
    (forall i, 0 <= i -> try_pop (T := T) i st =
       if overflow_checks then Panic else Ret (Err (InvalidReaderId i (2 ^ 64 - 1)), st)) /\
    try_push v st = (if overflow_checks then Panic else Ret (true, pushed st v)) /\
    h_write_idx (hdr (shm (pushed st v))) = 1 /\
    ((forall k, k ∈ bytes_of 24 8 -> k ∉ ks) -> forall l o s',
      turns T capacity n l (mkRace (Some (shm_bytes (shm (pushed st v)))) (rc_creator s) o) = Some s' ->
      rc_creator s' = CDone -> exists c, rc_file s' = Some c /\ h_write_idx (header_of_bytes c) = 0).
Proof.
  intros Hnd Hpage Hgate Hcount Hc. set (todo := unwritten ks).
  assert (Hlate : forall off w, (off + w <= 256)%nat -> (forall k, k ∈ bytes_of off w -> k ∉ ks) ->
    forall k, k ∈ bytes_of off w -> k ∈ todo).
  { intros off w Hw Hk k Hin. apply unwritten_in. split; [by apply Hk|].
    unfold bytes_of in Hin. rewrite elem_of_seq in Hin. lia. }
  eexists. split; [by apply half_made_opens|]. split; [done|]. cbn zeta.
  cbn [rc_file rc_creator default from_option id]. fold todo. fold (half_made path todo). split_and!.
  - intros i Hi. apply pop_no_readers; [|done].
    apply (partial_word_absent todo 12 4); [lia|]. apply Hlate; [lia|done].
  - apply push_no_readers; [apply half_made_layout| |apply partial_write_idx|done].
    apply (partial_word_absent todo 12 4); [lia|]. apply Hlate; [lia|done].
  - by apply half_made_counted.
  - intros Hw l o s' E Hdone.
    assert (Harr : arrived todo s').
    { eapply arrived_turns; [| | |exact E]; [discriminate..|]. eexists. split_and!; [done| |by intros k ? []].
      apply half_made_pushed_length. }
    destruct Harr as (c & Ec & _ & Hk). exists c. split; [done|]. rewrite Hdone in Hk.
    transitivity (word_at (created T capacity n) 24 8); [|apply created_write_idx].
    apply (word_at_ext c _ 24 8). intros k Hin. apply Hk. by apply (Hlate 24%nat 8%nat); [lia| |].
Qed.
End file.

(** With only the low byte of the mask there, a ring of 1024 one-byte slots
    opens with 256. *)
Lemma partial_mask_opens :
  (rc_opener <$> @turns dev_profile _ (bytes_pod 1) 1024 2 (peeking (seq 0 12 ++ [96%nat])) unborn)
    = Some (ODone (Ret (Ok 256))).
Proof. by vm_compute. Qed.

(** ** Witnesses *)

Section witness.
#[local] Existing Instance dev_profile.

(** The creation finished, after a push through the early handle. *)
Definition finish : option race :=
  match @turns release_profile Z u64_pod 4 2 (peeking gate_bytes) unborn with
  | Some s =>
      @turns release_profile Z u64_pod 4 2 ((TByte <$> rest_bytes) ++ [TCreator])
        (mkRace (Some (shm_bytes (shm (pushed (mkSt (shm_of_bytes (default [] (rc_file s)))
           (fresh_ring 4 "demo.ring")) 7)))) (rc_creator s) OOpen)
  | None => None
  end.

Lemma finishes : rc_creator <$> finish = Some CDone.
Proof. vm_compute. reflexivity. Qed.

(** Only the words an opener checks are there: in an unchecked build a pop
    reports a bogus bound, and the push that succeeds is then forgotten by the
    rest of the header. *)
Lemma half_made_ring_opens_witness :
  exists s st', @turns release_profile Z u64_pod 4 2 (peeking gate_bytes) unborn = Some s /\
    rc_opener s = ODone (Ret (Ok 4)) /\
    let st := mkSt (shm_of_bytes (default [] (rc_file s))) (fresh_ring 4 "demo.ring") in
    @try_pop release_profile Z u64_pod 0 st = Ret (Err (InvalidReaderId 0 (2 ^ 64 - 1)), st) /\
    @try_push release_profile Z u64_pod 7 st = Ret (true, st') /\ h_write_idx (hdr (shm st')) = 1 /\
    exists s' c, @turns release_profile Z u64_pod 4 2 ((TByte <$> rest_bytes) ++ [TCreator])
        (mkRace (Some (shm_bytes (shm st'))) (rc_creator s) OOpen) = Some s' /\
      rc_file s' = Some c /\ h_write_idx (header_of_bytes c) = 0.
Proof.
  destruct (@half_made_ring_opens release_profile Z u64_pod _ 4 2 args_4_2 gate_bytes "demo.ring" 7)
    as (s & E & Eo & Hcalls).
  - apply (bool_decide_unpack (NoDup gate_bytes)). vm_compute. exact I.
  - intros k Hk. unfold gate_bytes in Hk. rewrite elem_of_app, !elem_of_seq in Hk. lia.
  - done.
  - intros k Hk. unfold bytes_of, gate_bytes in *. rewrite elem_of_app, !elem_of_seq in *. lia.
  - lia.
  - cbn zeta in Hcalls. set (st := mkSt _ _) in Hcalls.
    destruct Hcalls as (Hpop & Hpush & Hw & Hrest). specialize (Hpop 0 ltac:(lia)).
    change (@overflow_checks release_profile) with false in Hpop, Hpush. cbv iota in Hpop, Hpush.
    exists s, (pushed st 7). split; [exact E|split; [exact Eo|]]. cbn zeta. fold st.
    split; [exact Hpop|split; [exact Hpush|split; [exact Hw|]]]. unfold st.
    assert (Hlate : forall k, k ∈ bytes_of 24 8 -> k ∉ gate_bytes).
    { intros k Hk. unfold bytes_of, gate_bytes in *. rewrite elem_of_app, !elem_of_seq in *. lia. }
    pose proof finishes as Hf. unfold finish in Hf. rewrite E in Hf. cbv beta iota in Hf.
    apply fmap_Some in Hf as (s' & Es & Hd).
    destruct (Hrest Hlate _ _ _ Es (eq_sym Hd)) as (c & Ec & Hc). exists s', c. split; [done|by split].
Defined.

Definition demo_turns : list turn := peeking (seq 0 8).

(** Only the magic is there: version 0 is reported. *)
Lemma open_during_create_witness :
  exists s r, turns Z 4 2 demo_turns unborn = Some s /\ rc_opener s = ODone r /\
    early 4 r /\ r = Ret (Err (VersionMismatch VERSION 0)).
Proof.
  destruct (turns Z 4 2 demo_turns unborn) as [s|] eqn:E; [|by vm_compute in E].
  destruct (proj1 (open_during_create (T := Z) 4 2 args_4_2 demo_turns s ltac:(vm_compute; lia)) E)
    as (r & Hr & He & _).
  exists s, r. split_and!; [done..|].
  assert (rc_opener <$> Some s = Some (ODone (Ret (Err (VersionMismatch VERSION 0))))) as Es
    by (rewrite <- E; by vm_compute).
  simpl in Es. congruence.
Defined.
End witness.
