(* ===== verification/DoubleFetch.v ===== *)
(** DoubleFetch: a ring file that changes while it is opened.

    The threat model of the crate takes the shared memory itself as hostile.
    [open_existing] of [src/src/ring.rs] looks at the mapping several times:
    the magic, the version and the mask in [validate], then the mask again,
    from which it takes the capacity.  Here every look sees other contents,
    chosen by whoever else has the file mapped (it may not truncate it). *)

From S2P Require Import Prelude.
From S2P Require Import Error.
From S2P Require Import Header.
From S2P Require Import Pod.
From S2P Require Import Shm.
From S2P Require Import Ring.
From S2P Require Import Create.
From S2P Require Import CreateRace.
Set Default Goal Selector "!".
Open Scope Z_scope.
Open Scope shm_scope.

(** [open_existing], each step on the next contents of the file. *)
Definition attacked `{Profile} (T : Type) `{Pod T} (seen : list (list byte)) : opener :=
  foldl (fun p c => open_step T (Some c) p) OOpen seen.

Section attack.
Context `{Profile} {T : Type} `{Pod T} `{!PodLaws T}.

(** What is known of the length after each step. *)
Definition mapped (len : nat) (p : opener) : Prop :=
  match p with
  | OOpen | OLength => True
  | OMagic l | OVersion l | OMask l | OCapacity' l => (256 <= len)%nat /\ l = Z.of_nat len
  | ODone r => r <> Ub /\
      forall c, r = Ret (Ok c) -> overflow_checks = true ->
        1 <= c /\ HEADER_SIZE + c * size_of T <= Z.of_nat len
  end.

Lemma mask_gate_no_ub mask : mask_gate mask <> Ub.
Proof. unfold mask_gate, add64, arith. by repeat (case_match; simplify_eq). Qed.

(** Where overflow is checked, arithmetic that returns is exact. *)
Lemma checked_exact z a (u u' : unit) :
  overflow_checks = true -> arith z u = Ret (a, u') -> a = z /\ u64 z.
Proof. intros Ho (_ & Hu & [[? ->]|(? & E & ?)])%arith_inv; [done|congruence]. Qed.

Lemma size_gate_fits l mask c :
  0 <= mask -> overflow_checks = true -> answer (size_gate T l mask tt) = Ret (Ok c) ->
  1 <= c /\ HEADER_SIZE + c * size_of T <= l.
Proof.
  intros Hm Ho E. destruct (size_gate T l mask tt) as [[r []]| |] eqn:Eg; [|done..]. injection E as ->.
  unfold size_gate in Eg.
  apply bind_inv in Eg as (c1 & ? & [-> _]%checked_exact & Eg); [|done].
  apply bind_inv in Eg as (c2 & ? & [-> _]%checked_exact & Eg); [|done].
  apply bind_inv in Eg as (c3 & ? & [-> _]%checked_exact & Eg); [|done].
  destruct (Z.ltb_spec l (HEADER_SIZE + (mask + 1) * size_of T)); [done|].
  injection Eg as <-. lia.
Qed.

Lemma size_gate_no_ub l mask : answer (size_gate T l mask tt) <> Ub.
Proof.
  unfold size_gate, bind, add64, mul64, arith, ret, panic.
  destruct overflow_checks; do 3 (destruct (_ && _); try done); by destruct (_ <? _).
Qed.

Lemma attacked_step c p : mapped (length c) p -> mapped (length c) (open_step T (Some c) p).
Proof.
  intros Hp. destruct p as [| |l|l|l|l|r]; [done| |destruct Hp as [Hl ->]..|done].
  - cbn [open_step default from_option id]. unfold HEADER_SIZE.
    destruct (Z.ltb_spec (Z.of_nat (length c)) 256); [split; [done|by intros]|split; [lia|done]].
  - rewrite open_magic by done. destruct (_ =? _); [done|]. split; [done|by intros].
  - rewrite open_version by done. destruct (_ =? _); [done|]. split; [done|by intros].
  - rewrite open_mask by done. pose proof (mask_gate_no_ub (word_at c 96 8)).
    destruct (mask_gate _) as [[]| |]; [done|split; [done|by intros]..|done].
  - rewrite open_capacity by done. split; [apply size_gate_no_ub|].
    intros c0 E Ho. eapply size_gate_fits; [|done|exact E]. apply word_at_range.
Qed.

Lemma attacked_mapped len seen :
  Forall (fun c => length c = len) seen -> mapped len (attacked T seen).
Proof.
  intros Hs. unfold attacked. cut (mapped len OOpen); [|done]. generalize OOpen.
  induction Hs as [|c seen <- _ IH]; simpl; intros p Hp; [done|]. by apply IH, attacked_step.
Qed.

Lemma attacked_left seen : (calls_left (attacked T seen) <= 6 - length seen)%nat.
Proof.
  unfold attacked. change 6%nat with (calls_left OOpen). generalize OOpen.
  induction seen as [|c seen IH]; simpl; intros p; [lia|].
  pose proof (open_step_left (T := T) (Some c) p). specialize (IH (open_step T (Some c) p)). lia.
Qed.

(** The honest file, a ring of four slots; and the same file with a mask that
    no check would pass, message 100 published and message 50 due to reader 0. *)
Definition honest : list byte := shm_bytes (shm (fresh_st Z "demo.ring" 4 2)).
Definition hostile : list byte :=
  header_bytes (mkHeader MAGIC VERSION 2 0 100 (50 :: replicate 7 50) u64_MAX 100 (replicate 18 0)) ++
  drop 256 honest.

(** C24: Opening a file whose contents change under every look, at an unchanged
    length: after six steps there is an answer, never undefined behaviour, and
    with overflow checks a handle is only given out when every slot it will
    ever compute lies inside the file, since the length check uses the
    capacity of the second look.  Without them that look can be a mask of
    [u64::MAX], which the first one would have refused: the capacity wraps to
    0, passes the length check, and a pop reads outside the mapping. *)
Theorem open_under_attack len seen :
  Forall (fun c => length c = len) seen -> (6 <= length seen)%nat ->
  (exists r, attacked T seen = ODone r /\ r <> Ub /\
    forall c idx, r = Ret (Ok c) -> overflow_checks = true -> 0 <= idx ->
      DATA_OFFSET + Z.land idx (c - 1) * size_of T + size_of T <= Z.of_nat len) /\
  (@validate release_profile (header_of_bytes hostile) =
     Ret (Err (HeaderCorruption "capacity_mask" 0 u64_MAX)) /\
   attacked (H := release_profile) Z (replicate 5 honest ++ [hostile]) = ODone (Ret (Ok 0)) /\
   try_pop (H := release_profile) (T := Z) 0 (mkSt (shm_of_bytes hostile) (fresh_ring 0 "demo.ring")) = Ub).
Proof.
  intros Hlen Hn. split; [|split_and!; vm_compute; reflexivity].
  pose proof (attacked_mapped len seen Hlen) as Hm. pose proof (attacked_left seen) as Hleft.
  destruct (attacked T seen) as [| |?|?|?|?|r]; simpl in Hleft; try lia.
  destruct Hm as [Hub Hok]. exists r. split_and!; [done..|]. intros c idx -> Ho Hi.
  destruct (Hok c eq_refl Ho) as [Hc Hfit]. pose proof (land_le idx (c - 1) ltac:(lia)).
  pose proof (size_of_range (T := T)). unfold DATA_OFFSET. nia.
Qed.
End attack.

(** ** Witness *)

Section witness.
#[local] Existing Instance dev_profile.

(** The second look finds a smaller mask than the one that was validated. *)
Definition shrunk : list byte :=
  header_bytes (mkHeader MAGIC VERSION 2 0 0 (replicate 8 0) 1 0 (replicate 18 0)) ++ drop 256 honest.

Lemma open_under_attack_witness :
  exists r, attacked Z (replicate 5 honest ++ [shrunk]) = ODone r /\ r = Ret (Ok 2) /\
    DATA_OFFSET + Z.land 7 (2 - 1) * 8 + 8 <= 288.
Proof.
  destruct (open_under_attack (T := Z) 288 (replicate 5 honest ++ [shrunk])) as [(r & E & _ & Hr) _].
  - repeat (apply Forall_cons_2; [vm_compute; reflexivity|]). apply Forall_nil_2.
  - vm_compute. lia.
  - assert (E2 : attacked Z (replicate 5 honest ++ [shrunk]) = ODone (Ret (Ok 2))) by (vm_compute; reflexivity).
    exists r. split; [exact E|]. assert (Er : r = Ret (Ok 2)) by congruence. split; [exact Er|].
    exact (Hr 2 7 Er eq_refl ltac:(lia)).
Defined.
End witness.
