(* ===== verification/HostilePeer.v ===== *)
(** HostilePeer: a process that rewrites the mapping at every moment.

    Whoever has the file mapped can store to it between any two accesses of a
    call.  Here the calls of [src/src/ring.rs] and [src/src/loan.rs] are cut at
    their accesses to the mapping: before each of them the peer replaces the
    whole of it, header and slots, by what it likes ([peer]).  Only the length
    of the file is out of its reach.  With a peer that does nothing they are
    the calls of [Ring] and [Loan] ([quiet_push] to [quiet_drop]).  The copy of
    a value is one access: the peer does not cut it in two. *)

From S2P Require Import Prelude.
From S2P Require Import Error.
From S2P Require Import Header.
From S2P Require Import Pod.
From S2P Require Import Shm.
From S2P Require Import Ring.
From S2P Require Import Spec.
From S2P Require Import Create.
From S2P Require Import Loan.
From S2P Require Import LoanClient.
From S2P Require Import Witnesses.
Set Default Goal Selector "!".
Open Scope Z_scope.
Open Scope shm_scope.

(** What the peer makes of the mapping before access [k] of a call. *)
Class Peer := peer : nat -> Shm -> Shm.

Definition unresized `{Peer} : Prop := forall k m,
  header_ok (hdr m) -> header_ok (hdr (peer k m)) /\ mapping_len (peer k m) = mapping_len m.

(** ** The calls, cut at their accesses *)

Section calls.
Context `{Profile} `{Peer} {T : Type} `{Pod T}.

Definition meddle (k : nat) : M St unit := modify (fun s => with_shm s (peer k (shm s))).
Definition look (k : nat) : M St RingHeader := meddle k ;! hdr_.

Definition check_reader_among (reader_id : Z) : M St (result ShmRingError unit) :=
  let! hdr := look 0 in
  let num_readers := num_readers hdr Acquire in
  if num_readers <=? reader_id then
    let! max := sub64 num_readers 1 in
    ret (Err (InvalidReaderId reader_id max))
  else ret (Ok tt).

(** The scan of [slowest_read_idx]: one load per cursor of the slice. *)
Fixpoint scan_among (i n : nat) (acc : Z) : M St Z :=
  match n with
  | O => ret acc
  | S n =>
      let! hdr := look (10 + i) in
      let! r := lift (read_idx hdr (Z.of_nat i) Acquire) in
      scan_among (S i) n (Z.min acc r)
  end.
Definition slowest_among (num_readers : Z) : M St Z :=
  if num_readers <=? MAX_READERS then scan_among 0 (Z.to_nat num_readers) u64_MAX else panic.

Definition try_push_among (value : T) : M St bool :=
  let! hdr := look 0 in
  let w := write_idx hdr Relaxed in
  let! hdr := look 1 in
  let num_readers := num_readers hdr Acquire in
  let! min_read := slowest_among num_readers in
  let! lag := sub64 w min_read in
  let! s := get in
  if r_capacity (ring s) <=? lag then ret false else
  let! slot := slot_ptr T w in
  meddle 2 ;!
  write_volatile slot value ;!
  let! w1 := add64 w 1 in
  let! hdr := look 3 in
  put_hdr (set_write_idx hdr w1 Release) ;!
  let! hdr := look 4 in
  put_hdr (bump_total_written hdr Relaxed) ;!
  ret true.

Definition try_pop_among (reader_id : Z) : M St (result ShmRingError (option T)) :=
  let? _ := check_reader_among reader_id in
  let! s := get in
  let! depth := lift (index (loan_depth (ring s)) reader_id) in
  if negb (depth =? 0) then ret (Err (LoanOutstanding reader_id)) else
  let! hdr := look 1 in
  let w := write_idx hdr Acquire in
  let! hdr := look 2 in
  let! r := lift (read_idx hdr reader_id Acquire) in
  if r =? w then ret (Ok None) else
  let! slot := slot_ptr T r in
  meddle 3 ;!
  let! value := read_volatile slot in
  let! r1 := add64 r 1 in
  let! hdr := look 4 in
  let! hdr := lift (set_read_idx hdr reader_id r1 Release) in
  put_hdr hdr ;!
  ret (Ok (Some value)).

Definition peek_among (reader_id : Z) : M St (result ShmRingError (option Z)) :=
  let? _ := check_reader_among reader_id in
  let! hdr := look 1 in
  let w := write_idx hdr Acquire in
  let! hdr := look 2 in
  let! r := lift (read_idx hdr reader_id Acquire) in
  if r =? w then ret (Ok None) else
  let! p := slot_ptr T r in
  ret (Ok (Some p)).

Definition len_among (reader_id : Z) : M St (result ShmRingError Z) :=
  let? _ := check_reader_among reader_id in
  let! hdr := look 1 in
  let w := write_idx hdr Acquire in
  let! hdr := look 2 in
  let! r := lift (read_idx hdr reader_id Acquire) in
  ret (Ok (wrap64 (w - r))).

Definition slowest_lag_among : M St Z :=
  let! hdr := look 0 in
  let num_readers := num_readers hdr Acquire in
  let! hdr := look 1 in
  let w := write_idx hdr Acquire in
  let! min_read := slowest_among num_readers in
  ret (wrap64 (w - min_read)).

(** [claim]: the exchanges fail spuriously as the list says. *)
Fixpoint claim_loop_among (spurious : list bool) (reader_id : Z) : M St (option (option Loan)) :=
  match spurious with
  | [] => ret None
  | b :: spurious =>
      let! hdr := look 1 in
      let w := write_idx hdr Acquire in
      let! hdr := look 2 in
      let! cursor := lift (read_idx hdr reader_id Acquire) in
      let! base := claim_base_load reader_id in
      let idx := Z.max base cursor in
      if w <=? idx then ret (Some None) else
      let! new := add64 idx 1 in
      let! swapped := claim_base_cas_weak b reader_id base new in
      if (swapped : bool) then
        let! ptr := slot_ptr T idx in
        ret (Some (Some (mkLoan reader_id idx ptr false)))
      else claim_loop_among spurious reader_id
  end.

Definition claim_among (spurious : list bool) (reader_id : Z) :
    M St (option (result ShmRingError (option Loan))) :=
  let! checked := check_reader_among reader_id in
  match checked with
  | Err e => ret (Some (Err e))
  | Ok _ =>
      depth_fetch_add reader_id 1 ;!
      let! loan := claim_loop_among spurious reader_id in
      match loan with
      | None => ret None
      | Some None => depth_fetch_add reader_id (-1) ;! ret (Some (Ok None))
      | Some (Some l) => ret (Some (Ok (Some l)))
      end
  end.

Definition commit_among (l : Loan) : M St (result ShmRingError unit * Loan) :=
  if l_resolved l then ret (Ok tt, l) else
  let! hdr := look 0 in
  let! cursor := lift (read_idx hdr (l_reader_id l) Acquire) in
  if negb (cursor =? l_index l) then ret (Err (LoanNotAtCursor (l_index l) cursor), l) else
  let! i1 := add64 (l_index l) 1 in
  let! hdr := look 1 in
  let! hdr := lift (set_read_idx hdr (l_reader_id l) i1 Release) in
  put_hdr hdr ;!
  let! l := resolve l in
  ret (Ok tt, l).

Definition drop_among (l : Loan) : M St unit :=
  if l_resolved l then ret tt else
  let! hdr := look 0 in
  let! cursor := lift (read_idx hdr (l_reader_id l) Acquire) in
  (if cursor =? l_index l then
     let! i1 := add64 (l_index l) 1 in
     let! hdr := look 1 in
     let! hdr := lift (set_read_idx hdr (l_reader_id l) i1 Release) in
     put_hdr hdr
   else ret tt) ;!
  resolve l ;! ret tt.

Definition deref_among (l : Loan) : M St T := meddle 0 ;! deref T l.
End calls.

(** ** Programs *)

Inductive call (T : Type) :=
  | APush (v : T)
  | APop (reader_id : Z)
  | APeek (reader_id : Z)
  | ALen (reader_id : Z)
  | ALag
  | AClaim (spurious : list bool) (reader_id : Z)
  | ACommit (k : nat)
  | AAbort (k : nat)
  | ADrop (k : nat)
  | ADeref (k : nat).
Arguments APush {T}.
Arguments APop {T}.
Arguments APeek {T}.
Arguments ALen {T}.
Arguments ALag {T}.
Arguments AClaim {T}.
Arguments ACommit {T}.
Arguments AAbort {T}.
Arguments ADrop {T}.
Arguments ADeref {T}.

Section programs.
Context `{Profile} {T : Type} `{Pod T}.

Definition loan_at (k : nat) (f : Loan -> M LS unit) : M LS unit :=
  let! ls := get in match ls_held ls !! k with None => ret tt | Some l => f l end.

(** A call of a program that holds loans ([abort] has no access to the
    mapping).  A committed loan stays with the program, and can be
    dereferenced. *)
Definition call_among `{Peer} (c : call T) : M LS unit :=
  match c with
  | APush v => on_st (try_push_among v) ;! ret tt
  | APop i => on_st (try_pop_among (T := T) i) ;! ret tt
  | APeek i => on_st (peek_among (T := T) i) ;! ret tt
  | ALen i => on_st (len_among i) ;! ret tt
  | ALag => on_st slowest_lag_among ;! ret tt
  | AClaim bs i =>
      let! r := on_st (claim_among (T := T) bs i) in
      match r with Some (Ok (Some l)) => set_held (fun held => held ++ [l]) | _ => ret tt end
  | ACommit k => loan_at k (fun l => let! r := on_st (commit_among l) in set_held (fun held => <[k := r.2]> held))
  | AAbort k => loan_at k (fun l => on_st (abort l) ;! set_held (delete k))
  | ADrop k => loan_at k (fun l => on_st (drop_among l) ;! set_held (delete k))
  | ADeref k => loan_at k (fun l => on_st (deref_among (T := T) l) ;! ret tt)
  end.

(** Every call with a peer of its own. *)
Fixpoint run_among (l : list (Peer * call T)) : M LS unit :=
  match l with
  | [] => ret tt
  | (p, c) :: l => call_among (H1 := p) c ;! run_among l
  end.
End programs.

(** ** Each access *)

Section safe.
Context `{Profile} `{Peer} {T : Type} `{Pod T} `{!PodLaws T} (Hpeer : unresized).
Implicit Types s : St.

(** What every access keeps: the layout, and the capacity the handle goes by. *)
Record kept s s' : Prop := mkKept {
  kept_layout : layout_ok T s';
  kept_capacity : r_capacity (ring s') = r_capacity (ring s);
}.

Lemma meddled_layout k s : layout_ok T s -> layout_ok T (with_shm s (peer k (shm s))).
Proof.
  intros Hs. destruct (Hpeer k (shm s) (lo_hdr s Hs)) as [Hh Hl]. destruct Hs.
  split; cbn [with_shm shm ring]; rewrite ?Hl; done.
Qed.

Lemma no_ub_meddle k (Q : unit -> St -> Prop) s :
  layout_ok T s -> (forall s', layout_ok T s' -> ring s' = ring s -> Q tt s') -> no_ub (meddle k) Q s.
Proof. intros Hs HQ. apply no_ub_modify, HQ; [by apply meddled_layout|done]. Qed.

Lemma no_ub_look k (Q : RingHeader -> St -> Prop) s :
  layout_ok T s -> (forall s', layout_ok T s' -> ring s' = ring s -> Q (hdr (shm s')) s') ->
  no_ub (look k) Q s.
Proof. intros Hs HQ. unfold look. apply no_ub_bind, no_ub_meddle; [done|]. intros s' Hs' Er. by apply HQ. Qed.

Lemma no_ub_store h (Q : unit -> St -> Prop) s :
  layout_ok T s -> header_ok h -> (forall s', layout_ok T s' -> ring s' = ring s -> Q tt s') ->
  no_ub (put_hdr h) Q s.
Proof. intros Hs Hh HQ. apply HQ; [by apply layout_ok_hdr|done]. Qed.

Lemma slot_off_handle s s' idx : ring s' = ring s -> slot_off T s' idx = slot_off T s idx.
Proof. intros E. unfold slot_off. by rewrite E. Qed.

Lemma no_ub_check_among i (Q : result ShmRingError unit -> St -> Prop) s :
  layout_ok T s -> (forall r s', layout_ok T s' -> ring s' = ring s -> Q r s') ->
  no_ub (check_reader_among i) Q s.
Proof.
  intros Hs HQ. unfold check_reader_among. apply no_ub_bind, no_ub_look; [done|]. intros s' Hs' Er.
  destruct (_ <=? _); [|by apply HQ]. wp_steps. apply arith_result. intros m _. by apply HQ.
Qed.

Lemma no_ub_scan_among i n acc (Q : Z -> St -> Prop) s :
  layout_ok T s -> (forall r s', layout_ok T s' -> ring s' = ring s -> Q r s') ->
  no_ub (scan_among i n acc) Q s.
Proof.
  revert i acc s. induction n as [|n IH]; intros i acc s Hs HQ; [by apply HQ|].
  cbn [scan_among]. apply no_ub_bind, no_ub_look; [done|]. intros s' Hs' Er.
  apply no_ub_bind, no_ub_lift; [apply index_not_ub|]. intros r _.
  apply IH; [done|]. intros r' s'' Hs'' Er'. apply HQ; [done|congruence].
Qed.

Lemma no_ub_slowest_among n (Q : Z -> St -> Prop) s :
  layout_ok T s -> (forall r s', layout_ok T s' -> ring s' = ring s -> Q r s') ->
  no_ub (slowest_among n) Q s.
Proof. intros Hs HQ. unfold slowest_among. destruct (_ <=? _); [by apply no_ub_scan_among|done]. Qed.

(** The handle's own counters. *)
Lemma no_ub_index_set (l : list Z) i z (Q : list Z -> St -> Prop) s :
  Forall u64 l /\ length l = 8%nat -> u64 z ->
  (forall l', Forall u64 l' /\ length l' = 8%nat -> Q l' s) -> no_ub (lift (index_set l i z)) Q s.
Proof.
  intros [Hl Hn] Hz HQ. unfold index_set. destruct (_ && _); [|done].
  apply HQ. rewrite length_insert. split; [by apply Forall_insert|done].
Qed.

Lemma no_ub_depth_add i d (Q : unit -> St -> Prop) s :
  layout_ok T s -> (forall s', kept s s' -> Q tt s') -> no_ub (depth_fetch_add i d) Q s.
Proof.
  intros Hs HQ. unfold depth_fetch_add. wp_steps. apply no_ub_lift; [apply index_not_ub|intros n _].
  wp_steps. apply no_ub_index_set; [apply Hs|apply wrap64_range|]. intros l Hl. wp_steps.
  apply HQ. split; [|done]. destruct Hs. by split.
Qed.

Lemma no_ub_cas b i old new (Q : bool -> St -> Prop) s :
  layout_ok T s -> u64 new -> (forall r s', kept s s' -> Q r s') ->
  no_ub (claim_base_cas_weak b i old new) Q s.
Proof.
  intros Hs Hu HQ. unfold claim_base_cas_weak, claim_base_load. wp_steps.
  apply no_ub_lift; [apply index_not_ub|intros n _]. destruct (_ || _); [by apply HQ|]. wp_steps.
  apply no_ub_index_set; [apply Hs|done|]. intros l Hl. wp_steps. apply HQ. split; [|done]. destruct Hs. by split.
Qed.

(** ** Each call *)

Lemma kept_refl s : layout_ok T s -> kept s s.
Proof. by split. Qed.

Lemma push_among_safe s (v : T) :
  layout_ok T s -> no_ub (try_push_among v) (fun _ s' => layout_ok T s' /\ ring s' = ring s) s.
Proof.
  intros Hs. unfold try_push_among.
  apply no_ub_bind, no_ub_look; [done|]. intros s1 Hs1 E1.
  apply no_ub_bind, no_ub_look; [done|]. intros s2 Hs2 E2.
  apply no_ub_bind, no_ub_slowest_among; [done|]. intros m s3 Hs3 E3. wp_steps.
  apply arith_result. intros lag _. wp_steps. destruct (_ <=? _); [by wp_steps; split; [|congruence]|].
  apply no_ub_bind, no_ub_slot_ptr; [done|]. set (idx := write_idx _ _).
  apply no_ub_bind, no_ub_meddle; [done|]. intros s4 Hs4 E4.
  rewrite <- (slot_off_handle s3 s4 idx E4).
  apply no_ub_bind, no_ub_write_volatile; [done|]. wp_steps. apply arith_result. intros w1 Hw1.
  apply no_ub_bind, no_ub_look; [by apply slot_set_layout|]. intros s5 Hs5 E5.
  apply no_ub_bind, no_ub_store; [done|apply set_write_idx_ok; [apply Hs5|done]|]. intros s6 Hs6 E6.
  apply no_ub_bind, no_ub_look; [done|]. intros s7 Hs7 E7.
  apply no_ub_bind, no_ub_store; [done|apply bump_total_written_ok, Hs7|]. intros s8 Hs8 E8.
  wp_steps. split; [done|]. rewrite E8, E7, E6, E5. cbn [slot_set slot_put with_shm ring]. congruence.
Qed.

(** The store to a cursor that pops, commits and drops end with. *)
Lemma no_ub_cursor_store {A} k i (r : Z) (m : M St A) (Q : A -> St -> Prop) s :
  layout_ok T s -> (forall s', layout_ok T s' -> ring s' = ring s -> no_ub m Q s') ->
  no_ub (let! i1 := add64 r 1 in
         let! hdr := look k in
         let! hdr := lift (set_read_idx hdr i i1 Release) in
         put_hdr hdr ;! m) Q s.
Proof.
  intros Hs HQ. wp_steps. apply arith_result. intros r1 Hr1.
  apply no_ub_bind, no_ub_look; [done|]. intros s1 Hs1 E1.
  apply no_ub_bind, no_ub_lift; [apply set_read_idx_not_ub|]. intros h Hh.
  apply set_read_idx_ok in Hh; [|apply Hs1|done].
  apply no_ub_bind, no_ub_store; [done|done|]. intros s2 Hs2 E2. apply HQ; [done|congruence].
Qed.

Lemma pop_among_safe s i :
  layout_ok T s -> no_ub (try_pop_among (T := T) i) (fun _ s' => layout_ok T s' /\ ring s' = ring s) s.
Proof.
  intros Hs. unfold try_pop_among. apply no_ub_bind_ok, no_ub_check_among; [done|].
  intros [u|e] s1 Hs1 E1; [|done]. wp_steps. apply no_ub_lift; [apply index_not_ub|intros d _].
  destruct (negb _); [done|].
  apply no_ub_bind, no_ub_look; [done|]. intros s2 Hs2 E2.
  apply no_ub_bind, no_ub_look; [done|]. intros s3 Hs3 E3. wp_steps.
  apply no_ub_lift; [apply index_not_ub|intros r _].
  destruct (_ =? _); [by wp_steps; split; [|congruence]|].
  apply no_ub_bind, no_ub_slot_ptr; [done|].
  apply no_ub_bind, no_ub_meddle; [done|]. intros s4 Hs4 E4. rewrite <- (slot_off_handle s3 s4 r E4).
  apply no_ub_bind, no_ub_read_volatile; [done|].
  apply no_ub_cursor_store; [done|]. intros s5 Hs5 E5. wp_steps. split; [done|congruence].
Qed.

Lemma peek_among_safe s i :
  layout_ok T s ->
  no_ub (peek_among (T := T) i) (fun r s' => layout_ok T s' /\ ring s' = ring s /\
    forall p, r = Ok (Some p) -> exists idx, p = slot_off T s' idx) s.
Proof.
  intros Hs. unfold peek_among. apply no_ub_bind_ok, no_ub_check_among; [done|].
  intros [u|e] s1 Hs1 E1; [|by split_and!].
  apply no_ub_bind, no_ub_look; [done|]. intros s2 Hs2 E2.
  apply no_ub_bind, no_ub_look; [done|]. intros s3 Hs3 E3. wp_steps.
  apply no_ub_lift; [apply index_not_ub|intros r _].
  destruct (_ =? _); [by wp_steps; split_and!; [|congruence|]|].
  apply no_ub_bind, no_ub_slot_ptr; [done|]. wp_steps. split_and!; [done|congruence|].
  intros p [= <-]. by exists r.
Qed.

Lemma len_among_safe s i :
  layout_ok T s -> no_ub (len_among i) (fun _ s' => layout_ok T s' /\ ring s' = ring s) s.
Proof.
  intros Hs. unfold len_among. apply no_ub_bind_ok, no_ub_check_among; [done|].
  intros [u|e] s1 Hs1 E1; [|done].
  apply no_ub_bind, no_ub_look; [done|]. intros s2 Hs2 E2.
  apply no_ub_bind, no_ub_look; [done|]. intros s3 Hs3 E3. wp_steps.
  apply no_ub_lift; [apply index_not_ub|intros r _]. wp_steps. split; [done|congruence].
Qed.

Lemma lag_among_safe s :
  layout_ok T s -> no_ub slowest_lag_among (fun _ s' => layout_ok T s' /\ ring s' = ring s) s.
Proof.
  intros Hs. unfold slowest_lag_among.
  apply no_ub_bind, no_ub_look; [done|]. intros s1 Hs1 E1.
  apply no_ub_bind, no_ub_look; [done|]. intros s2 Hs2 E2.
  apply no_ub_bind, no_ub_slowest_among; [done|]. intros m s3 Hs3 E3. wp_steps. split; [done|congruence].
Qed.

(** A loan is a view of a slot. *)
Definition loan_in s (l : Loan) : Prop := 0 <= l_index l /\ exists idx, l_ptr l = slot_off T s idx.

Lemma loan_in_kept s s' l : r_capacity (ring s') = r_capacity (ring s) -> loan_in s l -> loan_in s' l.
Proof. intros E [Hi [idx El]]. split; [done|]. exists idx. rewrite El. unfold slot_off. by rewrite E. Qed.

Lemma claim_loop_among_safe bs s i :
  layout_ok T s ->
  no_ub (claim_loop_among (T := T) bs i)
    (fun r s' => kept s s' /\ forall l, r = Some (Some l) -> loan_in s' l) s.
Proof.
  revert s. induction bs as [|b bs IH]; intros s Hs; [by split; [apply kept_refl|]|].
  cbn [claim_loop_among].
  apply no_ub_bind, no_ub_look; [done|]. intros s1 Hs1 E1.
  apply no_ub_bind, no_ub_look; [done|]. intros s2 Hs2 E2.
  assert (Ek : r_capacity (ring s2) = r_capacity (ring s)) by congruence. wp_steps.
  apply no_ub_lift; [apply index_not_ub|intros c _]. unfold claim_base_load. wp_steps.
  apply no_ub_lift; [apply index_not_ub|intros n Hn].
  assert (Hn0 : 0 <= n).
  { apply index_ret in Hn as [_ Hn]. by apply (Forall_lookup_1 _ _ _ _ (proj1 (lo_claim_base s2 Hs2)) Hn). }
  destruct (_ <=? _); [by split; [split|]|]. wp_steps. apply arith_result. intros z Hz.
  apply no_ub_bind, no_ub_cas; [done|done|]. intros [] s3 [Hs3 E3].
  - apply no_ub_bind, no_ub_slot_ptr; [done|]. wp_steps. split; [split; [done|congruence]|].
    intros l [= <-]. split; [cbn [l_index]; lia|by eexists].
  - eapply no_ub_mono; [by apply IH|]. intros r s4 [[Hs4 E4] Hl]. split; [split; [done|congruence]|done].
Qed.

Lemma claim_among_safe bs s i :
  layout_ok T s ->
  no_ub (claim_among (T := T) bs i)
    (fun r s' => kept s s' /\ forall l, r = Some (Ok (Some l)) -> loan_in s' l) s.
Proof.
  intros Hs. unfold claim_among. apply no_ub_bind, no_ub_check_among; [done|].
  intros [u|e] s1 Hs1 E1; [|by wp_steps; split; [split; [|congruence]|]].
  apply no_ub_bind, no_ub_depth_add; [done|]. intros s2 [Hs2 E2]. apply no_ub_bind.
  eapply no_ub_mono; [by apply claim_loop_among_safe|]. intros r s3 [[Hs3 E3] Hl].
  assert (E : r_capacity (ring s3) = r_capacity (ring s)) by congruence.
  destruct r as [[l|]|].
  - wp_steps. split; [by split|]. intros l' [= <-]. by apply Hl.
  - apply no_ub_bind, no_ub_depth_add; [done|]. intros s4 [Hs4 E4]. wp_steps.
    split; [split; [done|congruence]|done].
  - wp_steps. by split; [split|].
Qed.

Lemma no_ub_resolve l (Q : Loan -> St -> Prop) s :
  layout_ok T s -> (forall l' s', kept s s' -> l_ptr l' = l_ptr l -> l_index l' = l_index l -> Q l' s') -> no_ub (resolve l) Q s.
Proof.
  intros Hs HQ. unfold resolve. apply no_ub_bind, no_ub_depth_add; [done|]. intros s' Hk. wp_steps. by apply HQ.
Qed.

Lemma commit_among_safe s l :
  layout_ok T s ->
  no_ub (commit_among l) (fun r s' => kept s s' /\ l_ptr r.2 = l_ptr l /\ l_index r.2 = l_index l) s.
Proof.
  intros Hs. unfold commit_among. destruct (l_resolved l); [by split; [apply kept_refl|]|].
  apply no_ub_bind, no_ub_look; [done|]. intros s1 Hs1 E1. wp_steps.
  apply no_ub_lift; [apply index_not_ub|intros c _].
  destruct (negb _); [by wp_steps; split; [split; [|congruence]|]|].
  apply no_ub_cursor_store; [done|]. intros s2 Hs2 E2.
  apply no_ub_bind, no_ub_resolve; [done|]. intros l' s3 [Hs3 E3] El Ei. wp_steps.
  split; [split; [done|congruence]|done].
Qed.

Lemma drop_among_safe s l : layout_ok T s -> no_ub (drop_among l) (fun _ s' => kept s s') s.
Proof.
  intros Hs. unfold drop_among. destruct (l_resolved l); [by apply kept_refl|].
  apply no_ub_bind, no_ub_look; [done|]. intros s1 Hs1 E1. wp_steps.
  apply no_ub_lift; [apply index_not_ub|intros c _].
  assert (Hend : forall s2, layout_ok T s2 -> ring s2 = ring s1 ->
    no_ub (resolve l ;! ret tt) (fun _ s' => kept s s') s2).
  { intros s2 Hs2 E2. apply no_ub_bind, no_ub_resolve; [done|]. intros l' s3 [Hs3 E3] _ _. split; [done|congruence]. }
  apply no_ub_bind. destruct (_ =? _); [|by apply Hend].
  wp_steps. apply arith_result. intros r1 Hr1.
  apply no_ub_bind, no_ub_look; [done|]. intros s2 Hs2 E2.
  apply no_ub_bind, no_ub_lift; [apply set_read_idx_not_ub|]. intros h Hh.
  apply set_read_idx_ok in Hh; [|apply Hs2|done].
  apply no_ub_store; [done|done|]. intros s3 Hs3 E3. apply Hend; [done|congruence].
Qed.

Lemma deref_among_safe s l :
  layout_ok T s -> loan_in s l ->
  no_ub (deref_among (T := T) l) (fun _ s' => layout_ok T s' /\ ring s' = ring s) s.
Proof.
  intros Hs [_ [idx Hl]]. unfold deref_among. apply no_ub_bind, no_ub_meddle; [done|]. intros s1 Hs1 E1.
  unfold deref. rewrite Hl, <- (slot_off_handle s s1 idx E1). by apply no_ub_read_volatile.
Qed.

Lemma abort_safe s l : layout_ok T s -> loan_in s l -> no_ub (abort l) (fun _ s' => kept s s') s.
Proof.
  intros Hs [Hl _]. unfold abort, claim_base_fetch_min, claim_base_load.
  destruct (l_resolved l) eqn:El; cbn [negb]; wp_steps.
  - unfold drop_. rewrite El. by apply kept_refl.
  - apply no_ub_lift; [apply index_not_ub|intros b Hb]. wp_steps.
    apply no_ub_index_set; [apply Hs| |].
    + apply index_ret in Hb as [_ Hb].
      pose proof (Forall_lookup_1 _ _ _ _ (proj1 (lo_claim_base s Hs)) Hb) as Hu. unfold u64 in *. lia.
    + intros bs Hbs. wp_steps. unfold resolve.
      assert (Hs1 : layout_ok T (with_claim_base s bs)) by (destruct Hs; by split).
      apply no_ub_bind, no_ub_depth_add; [done|]. intros s2 [Hs2 E2]. wp_steps.
      unfold drop_. cbn [l_resolved]. wp_steps. split; [done|]. by rewrite E2.
Qed.

(** ** Each call of a program *)

Definition program_ok (ls : LS) : Prop := layout_ok T (ls_st ls) /\ Forall (loan_in (ls_st ls)) (ls_held ls).

Lemma no_ub_on_st {A} (m : M St A) (Q : A -> LS -> Prop) ls :
  no_ub m (fun a s => Q a (mkLS s (ls_held ls))) (ls_st ls) -> no_ub (on_st m) Q ls.
Proof. unfold no_ub, on_st. by destruct (m _) as [[a s]| |]. Qed.

Lemma held_kept s s' held : kept s s' -> Forall (loan_in s) held -> Forall (loan_in s') held.
Proof. intros [_ E]. apply Forall_impl. intros l. by apply loan_in_kept. Qed.

Lemma kept_ring s s' : layout_ok T s' -> ring s' = ring s -> kept s s'.
Proof. intros Hs E. split; [done|by rewrite E]. Qed.

(** A call that leaves the program its loans. *)
Lemma no_ub_plain {A} (m : M St A) ls :
  program_ok ls -> no_ub m (fun _ s' => kept (ls_st ls) s') (ls_st ls) ->
  no_ub (on_st m ;! ret tt) (fun _ => program_ok) ls.
Proof.
  intros [Hs Hh] Hm. apply no_ub_bind, no_ub_on_st. eapply no_ub_mono; [exact Hm|].
  intros a s' Hk. split; [apply Hk|exact (held_kept _ _ _ Hk Hh)].
Qed.

Lemma no_ub_loan_at k (f : Loan -> M LS unit) ls :
  program_ok ls -> (forall l, loan_in (ls_st ls) l -> no_ub (f l) (fun _ => program_ok) ls) ->
  no_ub (loan_at k f) (fun _ => program_ok) ls.
Proof.
  intros Hp Hf. unfold loan_at. wp_steps. destruct (ls_held ls !! k) as [l|] eqn:E; [|done].
  apply Hf. by apply (Forall_lookup_1 _ _ _ _ (proj2 Hp) E).
Qed.

(** A call on loan [k], after which it is taken from the program. *)
Lemma no_ub_taken {A} (m : M St A) k ls :
  program_ok ls -> no_ub m (fun _ s' => kept (ls_st ls) s') (ls_st ls) ->
  no_ub (on_st m ;! set_held (delete k)) (fun _ => program_ok) ls.
Proof.
  intros [Hs Hh] Hm. apply no_ub_bind, no_ub_on_st. eapply no_ub_mono; [exact Hm|].
  intros a s' Hk. unfold set_held. wp_steps. split; [apply Hk|].
  apply Forall_delete. exact (held_kept _ _ _ Hk Hh).
Qed.

Lemma call_among_safe (c : call T) ls :
  program_ok ls -> no_ub (call_among c) (fun _ => program_ok) ls.
Proof.
  intros Hp. destruct c as [v|i|i|i| |bs i|k|k|k|k]; cbn [call_among];
    try (apply no_ub_loan_at; [done|intros l Hl]).
  - apply no_ub_plain; [done|]. eapply no_ub_mono; [by apply push_among_safe, Hp|].
    intros ? ? [? ?]. by apply kept_ring.
  - apply no_ub_plain; [done|]. eapply no_ub_mono; [by apply pop_among_safe, Hp|].
    intros ? ? [? ?]. by apply kept_ring.
  - apply no_ub_plain; [done|]. eapply no_ub_mono; [by apply peek_among_safe, Hp|].
    intros ? ? (? & ? & _). by apply kept_ring.
  - apply no_ub_plain; [done|]. eapply no_ub_mono; [by apply len_among_safe, Hp|].
    intros ? ? [? ?]. by apply kept_ring.
  - apply no_ub_plain; [done|]. eapply no_ub_mono; [by apply lag_among_safe, Hp|].
    intros ? ? [? ?]. by apply kept_ring.
  - destruct Hp as [Hs Hh]. apply no_ub_bind, no_ub_on_st. eapply no_ub_mono; [by apply claim_among_safe|].
    intros r s' [Hk Hl]. pose proof (held_kept _ _ _ Hk Hh) as Hh'.
    destruct r as [[[l|]|]|]; try (split; [apply Hk|exact Hh']).
    unfold set_held. wp_steps. split; [apply Hk|]. apply Forall_app. split; [exact Hh'|].
    apply Forall_singleton. by apply Hl.
  - destruct Hp as [Hs Hh]. apply no_ub_bind, no_ub_on_st. eapply no_ub_mono; [by apply commit_among_safe|].
    intros r s' (Hk & Ep & Ei). unfold set_held. wp_steps. split; [apply Hk|].
    apply Forall_insert; [exact (held_kept _ _ _ Hk Hh)|].
    apply (loan_in_kept (ls_st ls)); [apply Hk|]. unfold loan_in. by rewrite Ep, Ei.
  - apply no_ub_taken; [done|]. by apply abort_safe; [apply Hp|].
  - apply no_ub_taken; [done|]. by apply drop_among_safe, Hp.
  - apply no_ub_plain; [done|]. eapply no_ub_mono; [by apply deref_among_safe; [apply Hp|]|].
    intros ? ? [? ?]. by apply kept_ring.
Qed.
End safe.

(** C23: The shared memory is hostile and no call reaches outside the mapping: in
    any program of pushes, pops, peeks, queries and loans on a mapped ring,
    with a peer that before every single access replaces the header words and
    the slots by anything it likes, and with another one for every call, each
    call returns or panics; the layout the handle was opened with holds
    throughout, and every loan held keeps pointing to a slot. *)
Theorem hostile_peer_memory_safe `{Profile} {T : Type} `{Pod T} `{!PodLaws T} l (ls : LS) :
  Forall (fun x : Peer * call T => @unresized x.1) l ->
  layout_ok T (ls_st ls) -> Forall (loan_in (T := T) (ls_st ls)) (ls_held ls) ->
  no_ub (run_among l) (fun _ ls' =>
    layout_ok T (ls_st ls') /\ Forall (loan_in (T := T) (ls_st ls')) (ls_held ls')) ls.
Proof.
  intros Hl Hs Hh. assert (Hp : program_ok (T := T) ls) by done. clear Hs Hh.
  revert ls Hp. induction Hl as [|[p c] l Hpc _ IH]; intros ls Hp; [exact Hp|].
  cbn [run_among]. apply no_ub_bind. eapply no_ub_mono; [by apply (call_among_safe (H0 := p))|].
  intros u ls' Hp'. by apply IH.
Qed.

(** ** A peer that does nothing *)

Section quiet.
Context `{Profile} {T : Type} `{Pod T} `{!PodLaws T}.
#[local] Instance idle : Peer := fun _ m => m.

Lemma idle_look k s : look k s = Ret (hdr (shm s), s).
Proof. by destruct s. Qed.

Lemma idle_scan i n acc s :
  (i + n <= length (h_read_indices (hdr (shm s))))%nat ->
  scan_among i n acc s = Ret (foldl Z.min acc (take n (drop i (h_read_indices (hdr (shm s))))), s).
Proof.
  revert i acc. induction n as [|n IH]; intros i acc Hn; [done|]. cbn [scan_among].
  destruct (lookup_lt_is_Some_2 (h_read_indices (hdr (shm s))) i) as [r Hr]; [lia|].
  erewrite bind_run by apply idle_look.
  erewrite bind_run by (apply lift_run, index_ret; rewrite Nat2Z.id; split; [lia|exact Hr]).
  rewrite IH by lia. rewrite (drop_S _ _ _ Hr). done.
Qed.

Lemma idle_slowest n s :
  header_ok (hdr (shm s)) -> 0 <= n ->
  slowest_among n s = lift (slowest_read_idx (hdr (shm s)) n Acquire) s.
Proof.
  intros Hh Hn. unfold slowest_among, slowest_read_idx, MAX_READERS. pose proof (ok_read_indices_len _ Hh) as El.
  rewrite El. change (Z.of_nat 8) with 8. destruct (Z.leb_spec n 8); [|done].
  rewrite idle_scan by lia. done.
Qed.

Lemma idle_meddle k s : meddle k s = Ret (tt, s).
Proof. by destruct s. Qed.

(** Rewrites the accesses of a call whose peer is idle. *)
Ltac idle_steps :=
  repeat first
    [ erewrite (bind_run (look _)) by apply idle_look
    | erewrite (bind_run (meddle _)) by apply idle_meddle
    | erewrite (bind_run hdr_) by reflexivity
    | erewrite (bind_run get) by reflexivity ].

Lemma bind_ext {S A B} (m m' : M S A) (k k' : A -> M S B) s :
  m s = m' s -> (forall a s', m' s = Ret (a, s') -> k a s' = k' a s') -> bind m k s = bind m' k' s.
Proof. intros E Hk. unfold bind. rewrite E. destruct (m' s) as [[a s']| |]; [by apply Hk|done..]. Qed.

Lemma quiet_push s (v : T) : header_ok (hdr (shm s)) -> try_push_among v s = try_push v s.
Proof.
  intros Hh. unfold try_push_among, try_push. idle_steps. cbn zeta.
  apply bind_ext; [apply idle_slowest; [done|apply (ok_num_readers _ Hh)]|]. intros m s1 [_ ->]%lift_inv.
  apply bind_ext; [done|]. intros lag s1 (-> & _)%arith_inv. idle_steps. destruct (_ <=? _); [done|].
  apply bind_ext; [done|]. intros slot s1 _. idle_steps.
  apply bind_ext; [done|]. intros u s2 _.
  apply bind_ext; [done|]. intros w1 s3 _. idle_steps.
  apply bind_ext; [done|]. intros u' s4 _. idle_steps. done.
Qed.

Lemma slot_ptr_pure idx s p s' : slot_ptr T idx s = Ret (p, s') -> s' = s.
Proof.
  unfold slot_ptr, byte_add. rewrite (bind_run get _ s s s eq_refl).
  intros (m & s1 & [-> _]%arith_inv & E)%bind_inv.
  apply bind_inv in E as (o & s2 & [-> _]%arith_inv & E).
  apply bind_inv in E as (o' & s3 & [-> _]%arith_inv & E). destruct (_ <=? _); by simplify_eq.
Qed.

Lemma read_volatile_pure off s (v : T) s' : read_volatile off s = Ret (v, s') -> s' = s.
Proof. unfold read_volatile. destruct (accessible _ _ _ _); intros; by simplify_eq. Qed.

Lemma quiet_check_reader i s : check_reader_among i s = check_reader i s.
Proof. unfold check_reader_among, check_reader. by idle_steps. Qed.

Lemma quiet_pop s i : try_pop_among (T := T) i s = try_pop i s.
Proof.
  unfold try_pop_among, try_pop. apply bind_ext; [apply quiet_check_reader|]. intros [u|e] s1 _; [|done].
  idle_steps. apply bind_ext; [done|]. intros d s2 [_ ->]%lift_inv. destruct (negb _); [done|].
  idle_steps. cbn zeta. apply bind_ext; [done|]. intros r s2 [_ ->]%lift_inv. destruct (_ =? _); [done|].
  apply bind_ext; [done|]. intros slot s2 E2. idle_steps.
  apply bind_ext; [done|]. intros x s3 E3.
  apply bind_ext; [done|]. intros r1 s4 E4. idle_steps.
  apply arith_inv in E4 as [-> _]. apply read_volatile_pure in E3 as ->. by apply slot_ptr_pure in E2 as ->.
Qed.

Lemma quiet_peek s i : peek_among (T := T) i s = peek T i s.
Proof.
  unfold peek_among, peek. apply bind_ext; [apply quiet_check_reader|]. intros [u|e] s1 _; [|done].
  by idle_steps.
Qed.

Lemma quiet_len s i : len_among i s = len i s.
Proof.
  unfold len_among, len. apply bind_ext; [apply quiet_check_reader|]. intros [u|e] s1 _; [|done].
  by idle_steps.
Qed.

Lemma quiet_lag s : header_ok (hdr (shm s)) -> slowest_lag_among s = slowest_lag s.
Proof.
  intros Hh. unfold slowest_lag_among, slowest_lag. idle_steps. cbn zeta.
  apply bind_ext; [apply idle_slowest; [done|apply (ok_num_readers _ Hh)]|done].
Qed.

Lemma quiet_claim_loop bs s i :
  claim_loop_among (T := T) bs i s = claim_loop T (map (fun b => mkAttempt id b) bs) i s.
Proof.
  revert s. induction bs as [|b bs IH]; intros s; [done|]. cbn [claim_loop_among claim_loop map].
  idle_steps. cbn zeta. apply bind_ext; [done|]. intros c s1 [_ ->]%lift_inv.
  apply bind_ext; [done|]. intros base s2 _. destruct (_ <=? _); [done|].
  apply bind_ext; [done|]. intros new s3 _. erewrite (bind_run (modify _)) by reflexivity.
  apply bind_ext; [done|]. intros [] s4 _; [done|apply IH].
Qed.

Lemma quiet_claim bs s i :
  claim_among (T := T) bs i s = claim T (map (fun b => mkAttempt id b) bs) i s.
Proof.
  unfold claim_among, claim. apply bind_ext; [apply quiet_check_reader|]. intros [u|e] s1 _; [|done].
  apply bind_ext; [done|]. intros u' s2 _. apply bind_ext; [apply quiet_claim_loop|done].
Qed.

Lemma quiet_commit s l : commit_among l s = commit l s.
Proof.
  unfold commit_among, commit. destruct (l_resolved l); [done|]. idle_steps.
  apply bind_ext; [done|]. intros c s1 [_ ->]%lift_inv. destruct (negb _); [done|].
  apply bind_ext; [done|]. intros i1 s1 [-> _]%arith_inv. by idle_steps.
Qed.

Lemma quiet_drop s l : drop_among l s = drop_ l s.
Proof.
  unfold drop_among, drop_. destruct (l_resolved l); [done|]. idle_steps.
  apply bind_ext; [done|]. intros c s1 [_ ->]%lift_inv. apply bind_ext; [|done].
  destruct (_ =? _); [|done]. apply bind_ext; [done|]. intros i1 s1 [-> _]%arith_inv. by idle_steps.
Qed.
End quiet.

(** ** Witness *)

Section witness.
#[local] Existing Instance dev_profile.

(** Poisons the header at one access, and the slots at every one. *)
Definition scribbler (at_ : nat) : Peer := fun k m =>
  mkShm (if k =? at_ then poisoned else hdr m)%nat (replicate (length (data m)) Byte.xff).

Lemma poisoned_ok : header_ok poisoned.
Proof.
  split; cbn [poisoned h_magic h_version h_num_readers h_pad1 h_write_idx h_read_indices
    h_capacity_mask h_total_written h_pad_to_256];
    first [by apply Forall_replicate; unfold u64, u64_MAX; lia|reflexivity|unfold u64, u32; lia].
Qed.

Lemma scribbler_unresized n : unresized (H := scribbler n).
Proof.
  intros k m Hm. unfold peer, scribbler, mapping_len. cbn [hdr data]. rewrite length_replicate.
  split; [|done]. destruct (_ =? _)%nat; [apply poisoned_ok|done].
Qed.

Definition attacked_program : list (Peer * call Z) :=
  [(scribbler 9, APush 7); (scribbler 9, AClaim [true; false] 0); (scribbler 3, APush 8);
   (scribbler 0, ADeref 0); (scribbler 1, ACommit 0); (scribbler 4, APop 1)].

Lemma hostile_peer_memory_safe_witness :
  no_ub (run_among attacked_program) (fun _ ls' =>
    layout_ok Z (ls_st ls') /\ Forall (loan_in (T := Z) (ls_st ls')) (ls_held ls')) (mkLS demo_st []).
Proof.
  apply (hostile_peer_memory_safe attacked_program (mkLS demo_st [])).
  - repeat (apply Forall_cons_2; [apply scribbler_unresized|]). apply Forall_nil_2.
  - exact demo_layout.
  - apply Forall_nil_2.
Defined.

(** The first five calls return, the loan still pointing to its slot; the pop
    panics, since a cursor of [u64::MAX] has no successor. *)
Lemma attacked_program_run :
  (exists s, run_among (take 5 attacked_program) (mkLS demo_st []) =
    Ret (tt, mkLS s [mkLoan 0 0 256 false])) /\
  run_among attacked_program (mkLS demo_st []) = Panic.
Proof. split; [eexists|]; vm_compute; reflexivity. Qed.
End witness.
