(* ===== verification/Examples.v ===== *)
(** Examples: the programs of the documentation, as programs.

    The doc tests of [src/src/lib.rs], [src/src/loan.rs] and
    [src/src/status.rs] are marked [no_run]: they are compiled and never
    executed.  Here each is translated, handles and files included, and proved
    to return [Ok] with its assertions holding, on a system that raises no
    faults and whatever else the file system holds. *)

From S2P Require Import Prelude.
From S2P Require Import Error.
From S2P Require Import Header.
From S2P Require Import Pod.
From S2P Require Import Shm.
From S2P Require Import Fs.
From S2P Require Import Ring.
From S2P Require Import Spec.
From S2P Require Import Create.
From S2P Require Import Loan.
From S2P Require Import LoanInv.
From S2P Require Import LoanOps.
From S2P Require Import Status.
From S2P Require Import StatusProps.
From S2P Require Import StatusExample.
Set Default Goal Selector "!".
Open Scope Z_scope.
Open Scope shm_scope.

(** An operation through a handle: on the file as every mapping of it sees it,
    with the handle's own fields. *)
Definition on_handle {A} (r : SpmcRingBuffer) (m : M St A) : M files (A * SpmcRingBuffer) := fun fs =>
  match m (mkSt (shm_of_bytes (default [] (fs !! r_path r))) r) with
  | Ret (a, s) => Ret ((a, ring s), <[r_path r := shm_bytes (shm s)]> fs)
  | Panic => Panic
  | Ub => Ub
  end.

Section programs.
Context `{Profile} `{Os} `{Memmap2}.

(** [assert_eq!] in the body of an [if let Some]. *)
Definition expect (got : option Z) (v : Z) : M files unit :=
  match got with Some w => assert_ (w =? v) | None => ret tt end.

(** The quickstart of the crate; [attempts] are those of the claim's
    exchange, [None] that they did not suffice. *)
Definition quickstart (attempts : list attempt) (path : string) :
    M files (result ShmRingError (option unit)) :=
  let? made := create_new Z path 1024 in
  let! pushed := on_handle (ring made) (try_push 42) in
  let? opened := open_existing Z path in
  let! popped := on_handle (ring opened) (try_pop (T := Z) 0) in
  match popped.1 with
  | Err e => ret (Err e)
  | Ok got =>
      expect got 42 ;!
      let! claimed := on_handle popped.2 (claim Z attempts 0) in
      match claimed.1 with
      | None => ret (Ok None)
      | Some (Err e) => ret (Err e)
      | Some (Ok None) => ret (Ok (Some tt))
      | Some (Ok (Some loan)) =>
          let! v := on_handle claimed.2 (deref Z loan) in
          assert_ (v.1 =? 42) ;!
          let! committed := on_handle v.2 (commit loan) in
          let! dropped := on_handle committed.2 (drop_ committed.1.2) in
          match committed.1.1 with Err e => ret (Err e) | Ok _ => ret (Ok (Some tt)) end
      end
  end.

(** The example of the loans. *)
Definition loan_example (attempts : list attempt) (path : string) :
    M files (result ShmRingError (option unit)) :=
  let? made := create_new Z path 1024 in
  let! pushed := on_handle (ring made) (try_push 42) in
  let? opened := open_existing Z path in
  let! claimed := on_handle (ring opened) (claim Z attempts 0) in
  match claimed.1 with
  | None => ret (Ok None)
  | Some (Err e) => ret (Err e)
  | Some (Ok None) => ret (Ok (Some tt))
  | Some (Ok (Some loan)) =>
      let! v := on_handle claimed.2 (deref Z loan) in
      if v.1 =? 42 then
        let! committed := on_handle v.2 (commit loan) in
        let! dropped := on_handle committed.2 (drop_ committed.1.2) in
        match committed.1.1 with Err e => ret (Err e) | Ok _ => ret (Ok (Some tt)) end
      else
        let! dropped := on_handle v.2 (drop_ loan) in ret (Ok (Some tt))
  end.
End programs.

(** ** They run *)

Section run.
Context `{Profile} `{Os} `{Memmap2} `{!Memmap2Laws}.
Implicit Types fs : files.

Lemma on_handle_run {A} (r : SpmcRingBuffer) (m : M St A) s a s' fs :
  ring s = r -> header_ok (hdr (shm s)) -> fs !! r_path r = Some (shm_bytes (shm s)) ->
  m s = Ret (a, s') ->
  on_handle r m fs = Ret ((a, ring s'), <[r_path r := shm_bytes (shm s')]> fs).
Proof.
  intros <- Hh Hf E. unfold on_handle. rewrite Hf. cbn [default from_option id].
  rewrite shm_of_shm_bytes by done. destruct s as [m0 r0]. cbn [shm ring] in *. by rewrite E.
Qed.

(** The ring of the examples with one message, nobody past it; and reader 0
    past it. *)
Definition one_message : spec Z := mkSpec [42] (replicate 8 0) 8 1024 (replicate 8 0).
Definition consumed_message : spec Z := mkSpec [42] (1 :: replicate 7 0) 8 1024 (replicate 8 0).

Lemma args_1024 : create_args Z 1024 8.
Proof.
  split; [by exists 10|..]; vm_compute; first [reflexivity|discriminate|split; discriminate].
Qed.

Definition with_message (path : string) : St := pushed (fresh_st Z path 1024 8) 42.

Lemma with_message_rep path : rep (with_message path) one_message.
Proof.
  apply (rep_pushed _ _ 42 (fresh_rep path 1024 8 args_1024)); vm_compute;
    first [done|split; congruence].
Qed.

(** A ring under a fresh handle has no loans. *)
Lemma no_loans s (sp : spec Z) path c : rep s sp -> ring s = fresh_ring c path -> loans_ok s sp [].
Proof.
  intros R E. split; [done| |by intros l ?%not_elem_of_nil|constructor|].
  - intros i Hi. unfold base, MAX_READERS in *. rewrite E. cbn [fresh_ring claim_base].
    rewrite lookup_total_replicate_2 by lia. unfold produced. lia.
  - intros i Hi. unfold depth, MAX_READERS in *. rewrite E. cbn [fresh_ring loan_depth].
    by rewrite lookup_total_replicate_2 by lia.
Qed.

Lemma push_42 path : try_push 42 (fresh_st Z path 1024 8) = Ret (true, with_message path).
Proof.
  rewrite try_push_run; [|by apply fresh_layout, args_1024|eapply rep_proto, fresh_rep, args_1024|by vm_compute].
  assert (E : (1024 <=? 0 - slowest (fresh_st Z path 1024 8)) = false) by by vm_compute.
  cbn [fresh_st fresh_ring ring r_capacity shm hdr fresh_header h_write_idx] in *. by rewrite E.
Qed.

(** Both programs: the ring made, one message pushed, opened again. *)
Lemma opening {B} path fs (k : St -> M files (result ShmRingError B)) :
  quiet path -> fs !! path = None -> others fs !! path = None ->
  (let? made := create_new Z path 1024 in
   let! pushed := on_handle (ring made) (try_push 42) in
   let? opened := open_existing Z path in k opened) fs =
  k (with_message path) (<[path := shm_bytes (shm (with_message path))]> (others fs)).
Proof.
  intros Hq Hn Ho. pose proof args_1024 as Ha. pose proof (with_message_rep path) as R.
  pose proof (rep_layout _ _ R) as Hs.
  erewrite bind_ok_run by (by apply create_run).
  erewrite bind_run.
  2: { eapply on_handle_run; [done| |by rewrite lookup_insert_eq|apply push_42].
       by apply (lo_hdr (T := Z)), fresh_layout. }
  change (r_path (ring (fresh_st Z path 1024 8))) with path. rewrite insert_insert_eq.
  erewrite bind_ok_run; [reflexivity|].
  apply (open_run path (with_message path)); [done..| | |by rewrite lookup_insert_eq].
  - unfold mapping_len. by vm_compute.
  - by vm_compute.
Qed.

Lemma reopen_refused path c fs : fs !! path = Some c ->
  create_new Z path 1024 fs = Ret (Err AlreadyExists, fs).
Proof. intros Hc. apply create_exists; [apply args_1024|by exists c]. Qed.

(** The ring with its message taken by reader 0. *)
Definition taken (path : string) : St := advanced (with_message path) 0 0.

Lemma taken_rep path : rep (taken path) consumed_message.
Proof. by apply (rep_advanced _ _ 0 0 (with_message_rep path)). Qed.

Lemma pop_42 path : try_pop (T := Z) 0 (with_message path) = Ret (Ok (Some 42), taken path).
Proof.
  pose proof (with_message_rep path) as R.
  rewrite (try_pop_run _ 0 0 0); [|by apply R|by eapply rep_proto|by vm_compute..].
  change (negb (0 =? 0)) with false. change (0 =? h_write_idx (hdr (shm (with_message path)))) with false.
  assert (E : slot_value (with_message path) 0 = 42) by by vm_compute. by rewrite E.
Qed.

Lemma claim_nothing path n rest :
  claim Z (replicate n spurious_failure ++ clean :: rest) 0 (taken path) = Ret (Some (Ok None), taken path).
Proof. by rewrite (claim_run _ consumed_message []) by first [done|eapply no_loans; [apply taken_rep|done]]. Qed.

(** The loan of the message: the claim, what it shows, the commit. *)
Definition the_loan (path : string) : Loan := mkLoan 0 0 (slot_off Z (with_message path) 0) false.
Definition loaned (path : string) : St := claimed (with_message path) [] 0 0.

Lemma message_idle path : loans_ok (with_message path) one_message [].
Proof. eapply no_loans; [apply with_message_rep|done]. Qed.

Lemma loaned_ok path :
  loans_ok (loaned path) (with_gates one_message (1 :: replicate 7 0)) [the_loan path].
Proof. by apply (claimed_ok _ one_message [] 0 (message_idle path)). Qed.

Lemma claim_42 path n rest :
  claim Z (replicate n spurious_failure ++ clean :: rest) 0 (with_message path) =
    Ret (Some (Ok (Some (the_loan path))), loaned path).
Proof. by rewrite (claim_run _ one_message [] 0 n rest (message_idle path)). Qed.

Lemma deref_42 path : deref Z (the_loan path) (loaned path) = Ret (42, loaned path).
Proof.
  pose proof (rep_layout _ _ (lk_rep _ _ _ (loaned_ok path))) as Hs.
  etrans; [exact (read_volatile_run (loaned path) 0 Hs)|].
  assert (E : slot_value (loaned path) 0 = 42) by by vm_compute. by rewrite E.
Qed.

Lemma commit_42 path :
  exists s, commit (the_loan path) (loaned path) =
    Ret ((Ok tt, mkLoan 0 0 (slot_off Z (with_message path) 0) true), s) /\
    shm s = shm (taken path) /\ r_path (ring s) = path.
Proof.
  eexists. split; [exact (commit_run _ _ (the_loan path) [] (loaned_ok path))|done].
Qed.

(** The step of a program on the file of its ring. *)
Lemma step {A} path (m : M St A) s a s' fs :
  r_path (ring s) = path -> header_ok (hdr (shm s)) -> m s = Ret (a, s') ->
  on_handle (ring s) m (<[path := shm_bytes (shm s)]> fs) =
    Ret ((a, ring s'), <[path := shm_bytes (shm s')]> fs).
Proof.
  intros <- Hh E. rewrite (on_handle_run (ring s) m s a s') by first [done|by rewrite lookup_insert_eq].
  by rewrite insert_insert_eq.
Qed.

Lemma message_hdr path : header_ok (hdr (shm (with_message path))).
Proof. apply (lo_hdr (T := Z)), (rep_layout _ _ (with_message_rep path)). Qed.
Lemma taken_hdr path : header_ok (hdr (shm (taken path))).
Proof. apply (lo_hdr (T := Z)), (rep_layout _ _ (taken_rep path)). Qed.

Lemma quickstart_run n rest path fs :
  quiet path -> fs !! path = None -> others fs !! path = None ->
  quickstart (replicate n spurious_failure ++ clean :: rest) path fs =
    Ret (Ok (Some tt), <[path := shm_bytes (shm (taken path))]> (others fs)).
Proof.
  intros Hq Hn Ho. unfold quickstart. rewrite opening by done.
  erewrite bind_run by (apply step; [done|apply message_hdr|apply pop_42]). cbn [fst snd expect].
  erewrite bind_run by reflexivity.
  by erewrite bind_run by (apply step; [done|apply taken_hdr|apply claim_nothing]).
Qed.

Lemma loan_example_run n rest path fs :
  quiet path -> fs !! path = None -> others fs !! path = None ->
  loan_example (replicate n spurious_failure ++ clean :: rest) path fs =
    Ret (Ok (Some tt), <[path := shm_bytes (shm (taken path))]> (others fs)).
Proof.
  intros Hq Hn Ho. unfold loan_example. rewrite opening by done.
  destruct (commit_42 path) as (s & E & Es & Ep).
  erewrite bind_run by (apply step; [done|apply message_hdr|apply claim_42]). cbn [fst snd].
  erewrite bind_run by (apply step; [done|apply message_hdr|apply deref_42]). cbn [fst snd].
  change (42 =? 42) with true. cbn match.
  erewrite bind_run by (apply step; [done|apply message_hdr|exact E]). cbn [fst snd].
  erewrite bind_run by (apply step; [done|rewrite Es; apply taken_hdr|reflexivity]). cbn [fst snd].
  by rewrite Es.
Qed.

(** C26: The programs of the documentation that use a ring, which the test
    suite only compiles, run: on a path that is free the quickstart and the
    loan example return [Ok] with every assertion holding, however often the
    claim's exchange fails first, and both leave the same file, a ring of
    one message that reader 0 has taken; the quickstart's loan block is not
    entered.  They share their path, so whichever runs second is refused with
    [AlreadyExists] and touches nothing. *)
Theorem doc_examples_run n rest path fs :
  quiet path -> fs !! path = None -> others fs !! path = None ->
  let attempts := replicate n spurious_failure ++ clean :: rest in
  exists m, let fs' := <[path := shm_bytes m]> (others fs) in
    quickstart attempts path fs = Ret (Ok (Some tt), fs') /\
    loan_example attempts path fs = Ret (Ok (Some tt), fs') /\
    rep (mkSt m (fresh_ring 1024 path)) consumed_message /\
    claim Z attempts 0 (mkSt m (fresh_ring 1024 path)) =
      Ret (Some (Ok None), mkSt m (fresh_ring 1024 path)) /\
    quickstart attempts path fs' = Ret (Err AlreadyExists, fs') /\
    loan_example attempts path fs' = Ret (Err AlreadyExists, fs').
Proof.
  intros Hq Hn Ho attempts. exists (shm (taken path)). cbn zeta.
  split; [by apply quickstart_run|]. split; [by apply loan_example_run|].
  split; [apply taken_rep|]. split; [apply claim_nothing|].
  split; eapply bind_err_run, reopen_refused; by rewrite lookup_insert_eq.
Qed.
End run.

(** ** The status example *)

Section status.
Import StatusExample.
Context `{Os} `{Memmap2} `{!Memmap2Laws}.

Definition status_example (path : string) : M files (result ShmRingError unit) :=
  let initial := mkMount (Status.MAGIC MountStatus)
    (Status.VERSION MountStatus) 0 in
  let? _ := Status.create path initial in
  let? st := Status.read path in
  let st := mkMount (ms_magic st) (ms_version st) 1 in
  let? _ := Status.update path st in
  let? again := Status.read path in
  assert_ (is_mounted again =? 1) ;!
  Status.cleanup path.


(** It runs, and leaves the files as they were but for its own. *)
Lemma status_example_run path fs :
  StatusProps.calm path -> others (<[path := to_bytes (mounted 1)]> fs) = <[path := to_bytes (mounted 1)]> fs ->
  status_example path fs = Ret (Ok tt, delete path fs).
Proof.
  intros Hq Ho. unfold status_example.
  assert (H0' : pod_ok (mounted 0) /\ pod_ok (mounted 1))
    by (split; apply mounted_ok; unfold u32; lia). destruct H0'.
  erewrite bind_ok_run by (by apply StatusProps.create_status_run).
  erewrite bind_ok_run by (apply (StatusProps.read_own path _ (mounted 0)); first [done|apply lookup_insert_eq]).
  erewrite bind_ok_run by (by apply (StatusProps.update_own path fs (mounted 0) (mounted 1))).
  erewrite bind_ok_run by (apply (StatusProps.read_own path _ (mounted 1)); first [done|apply lookup_insert_eq]).
  erewrite bind_run by reflexivity. erewrite StatusProps.cleanup_run by first [done|apply lookup_insert_eq].
  by rewrite delete_insert_eq.
Qed.
End status.

(** ** Witness *)

Section witness.
#[local] Existing Instance dev_profile.
#[local] Existing Instance quiet_os.
#[local] Existing Instance plain_memmap2.
#[local] Existing Instance plain_memmap2_laws.

Definition doc_path : string := "/dev/shm/demo.ring".

Lemma quiet_doc : quiet doc_path.
Proof. split; try done. intros c. by exists c. Qed.

(** The claim's exchange fails twice before it succeeds. *)
Lemma doc_examples_run_witness :
  exists m, quickstart [spurious_failure; spurious_failure; clean] doc_path ∅ =
    Ret (Ok (Some tt), {[ doc_path := shm_bytes m ]}) /\ h_read_indices (hdr m) !! 0%nat = Some 1.
Proof.
  destruct (doc_examples_run 2 [] doc_path ∅ quiet_doc) as (m & Hq & _ & R & _).
  - reflexivity.
  - reflexivity.
  - exists m. split; [exact Hq|]. exact (f_equal (fun l => l !! 0%nat) (rep_cursors _ _ R)).
Defined.
End witness.
