(* ===== verification/Exhaustion.v ===== *)
(** Exhaustion: the end of the index space.

    The indices of a ring count messages since its creation and are never
    reduced; every theorem on the log assumes fewer than [2^64] of them.  Here
    is what the operations of [src/src/ring.rs] do at that bound. *)

From S2P Require Import Prelude.
From S2P Require Import Error.
From S2P Require Import Header.
From S2P Require Import Pod.
From S2P Require Import Shm.
From S2P Require Import Ring.
From S2P Require Import Spec.
From S2P Require Import Create.
Set Default Goal Selector "!".
Open Scope Z_scope.
Open Scope shm_scope.

Section last.
Context `{Profile} {T : Type} `{Pod T} `{!PodLaws T}.

(** The state after the push of message [2^64 - 1], where the index wraps. *)
Definition rolled (s : St) (v : T) : St :=
  with_hdr (slot_set s (h_write_idx (hdr (shm s))) v)
    (bump_total_written (set_write_idx (hdr (shm s)) 0 Release) Relaxed).

Lemma last_push_run s v :
  layout_ok T s -> proto_ok s -> h_write_idx (hdr (shm s)) = u64_MAX ->
  try_push v s =
    if r_capacity (ring s) <=? u64_MAX - slowest s then Ret (false, s)
    else if overflow_checks then Panic else Ret (true, rolled s v).
Proof.
  intros Hs Hp Ew. pose proof (lo_hdr s Hs) as Hok. pose proof (slowest_window s Hok Hp) as Hwin.
  pose proof (capacity_pos s Hs). unfold u64_MAX in *.
  pose proof (lo_fits s Hs). pose proof (lo_len s Hs). pose proof (lo_size s Hs).
  unfold HEADER_SIZE in *. unfold try_push.
  erewrite bind_run by reflexivity. cbn beta zeta.
  erewrite bind_run by (apply lift_run, slowest_read_idx_run; [done|apply Hp]).
  erewrite bind_run by (apply arith_run; unfold u64, write_idx; nia).
  erewrite bind_run by reflexivity. unfold write_idx. rewrite !Ew. destruct (_ <=? _); [done|].
  erewrite bind_run by (by apply slot_ptr_run).
  erewrite bind_run by (by apply write_volatile_run).
  unfold bind at 1, add64, arith. change (0 <=? _) with true. change (_ <? 2 ^ 64) with false. cbn [andb].
  destruct overflow_checks; [done|]. unfold rolled. by rewrite Ew.
Qed.

(** A ring of two slots for two readers, both up to date, one message short of
    the bound. *)
Definition brink : St :=
  mkSt (mkShm (mkHeader MAGIC VERSION 2 0 u64_MAX (u64_MAX :: u64_MAX :: replicate 6 0) 1 u64_MAX
                 (replicate 18 0)) (replicate 16 Byte.x00))
    (fresh_ring 2 "demo.ring").

(** Three pushes and two pops across the bound, where overflow wraps. *)
Definition across : M St (list bool * list (result ShmRingError (option Z))) :=
  let! b1 := try_push (H := release_profile) 10 in
  let! r1 := try_pop (H := release_profile) (T := Z) 0 in
  let! b2 := try_push (H := release_profile) 20 in
  let! b3 := try_push (H := release_profile) 30 in
  let! r2 := try_pop (H := release_profile) (T := Z) 1 in
  ret ([b1; b2; b3], [r1; r2]).

(** The bound of [2^64] messages under the theorems is the code's own.
    At it a push with room panics after its record is in the slot, or, where
    overflow wraps, publishes index 0.  From there backpressure is lost: the
    minimum over the cursors is that of the readers that have wrapped, so a
    producer laps a reader that has not, and this reader takes a later
    message in place of its own. *)
Theorem index_space_exhausted s (v : T) :
  layout_ok T s -> proto_ok s -> h_write_idx (hdr (shm s)) = u64_MAX ->
  u64_MAX - slowest s < r_capacity (ring s) ->
  try_push v s = (if overflow_checks then Panic else Ret (true, rolled s v)) /\
  h_write_idx (hdr (shm (rolled s v))) = 0 /\
  match across brink with
  | Ret (r, s') => r = ([true; true; true], [Ok (Some 10); Ok (Some 30)])
  | _ => False
  end.
Proof.
  intros Hs Hp Ew Hroom. split; [|split; [done|by vm_compute]].
  rewrite last_push_run by done. by rewrite (proj2 (Z.leb_gt _ _)).
Qed.
End last.

(** ** Witness *)

Lemma brink_layout : layout_ok Z brink.
Proof.
  assert (H0 : u64 0) by (unfold u64; lia). assert (Hm : u64 u64_MAX) by (unfold u64, u64_MAX; lia).
  assert (Hz : forall n, Forall u64 (replicate n 0)) by (intros; by apply Forall_replicate).
  split; try done.
  - split; try done; unfold u64, u32; cbn; try lia; [|by apply (Hz 18%nat)].
    do 2 (constructor; [done|]). by apply (Hz 6%nat).
  - by exists 1.
  - split; [apply (Hz 8%nat)|done].
  - split; [apply (Hz 8%nat)|done].
Qed.

Lemma index_space_exhausted_witness :
  try_push (H := dev_profile) 10 brink = Panic /\
  try_push (H := release_profile) 10 brink = Ret (true, rolled brink 10).
Proof.
  assert (Hp : proto_ok brink).
  { split; [by vm_compute|]. intros c Hc. vm_compute in Hc.
    repeat (apply elem_of_cons in Hc as [->|Hc]; [by vm_compute|]). by apply not_elem_of_nil in Hc. }
  assert (Hroom : u64_MAX - slowest brink < r_capacity (ring brink)) by by vm_compute.
  destruct (index_space_exhausted (H := dev_profile) brink 10 brink_layout Hp eq_refl Hroom) as [E1 _].
  destruct (index_space_exhausted (H := release_profile) brink 10 brink_layout Hp eq_refl Hroom) as [E2 _].
  split; [exact E1|exact E2].
Defined.
