(* ===== verification/Fuzz.v ===== *)
(** Fuzz: the two fuzz targets, [src/fuzz/fuzz_targets/fuzz_open.rs] and
    [src/fuzz/fuzz_targets/fuzz_ring.rs].

    Each target is a function of the input bytes over the file system of [Fs];
    a failed [assert!], [expect] or [panic!] is [Panic].  The temporary
    directory comes from the crate tempfile: [dir] is its path, and it starts
    out empty.  [fuzz_ring] holds two handles of one file: [Duo] is the shared
    mapping under a producer's and a reader's handle. *)

From S2P Require Import Prelude.
From S2P Require Import Error.
From S2P Require Import Header.
From S2P Require Import Pod.
From S2P Require Import Shm.
From S2P Require Import Fs.
From S2P Require Import Ring.
From S2P Require Import Create.
From stdpp Require Import strings.
From Stdlib Require Strings.Byte.
Set Default Goal Selector "!".
Open Scope Z_scope.
Open Scope shm_scope.

Definition byte_val (b : byte) : Z := Z.of_N (Strings.Byte.to_N b).
(** [data.get(i).copied().unwrap_or(0)] *)
Definition byte_at (data : list byte) (i : nat) : byte := default Byte.x00 (data !! i).

(** [dir.path().join(name)] *)
Definition path_join (dir name : string) : string := (dir +:+ "/" +:+ name)%string.

(** ** [fuzz_open] *)

(** [format!("{b:02x}")] *)
Definition hex_digit (d : Z) : string := String.substring (Z.to_nat d) 1 "0123456789abcdef".
Definition hex_byte (b : byte) : string :=
  (hex_digit (byte_val b / 16) +:+ hex_digit (byte_val b mod 16))%string.
Definition file_name (data : list byte) : string :=
  match String.concat "" (hex_byte <$> take 4 data) with
  | EmptyString => "empty"
  | name => name
  end.

Section fuzz_open.
Context `{Profile} `{Os} `{Memmap2}.

Definition raw_capacity (data : list byte) : Z := le_word (byte_at data <$> seq 0 4).
Definition pow2_capacity (data : list byte) : Z := Z.shiftl 1 (byte_val (byte_at data 0) mod 12).

(** A query of a handle the function holds. *)
Definition ask {A} (s : St) (m : M St A) : M files A :=
  lift (match m s with Ret (a, _) => Ret a | Panic => Panic | Ub => Ub end).

(** The ring just created: its accessors, a second creation, a clean open. *)
Definition check_created (path : string) (pow2 : Z) (s : St) : M files unit :=
  let! cap := ask s capacity in
  assert_ (cap =? pow2) ;!
  let! p := ask s Ring.path in
  assert_ (String.eqb p path) ;!
  let! again := create_new Z path pow2 in
  match again with
  | Err AlreadyExists =>
      let! opened := open_existing Z path in
      match opened with
      | Ok s' => let! cap := ask s' capacity in assert_ (cap =? pow2)
      | Err _ => panic
      end
  | _ => panic
  end.

Definition fuzz_open (dir : string) (data : list byte) : M files unit :=
  let path := path_join dir (file_name data) in
  let pow2 := pow2_capacity data in
  let! created := create_new Z path pow2 in
  match created with
  | Ok s => check_created path pow2 s
  | Err AlreadyExists | Err (Io _) => ret tt
  | Err _ => panic
  end ;!
  let! r := create_new Z path (raw_capacity data) in
  match r with
  | Err (InvalidCapacity _) | Err AlreadyExists | Err (Io _) | Ok _ => ret tt
  | Err _ => panic
  end ;!
  let! missing := open_existing Z (path_join dir "does-not-exist") in
  match missing with
  | Err (Io _) => ret tt
  | _ => panic
  end.
End fuzz_open.

(** ** [fuzz_ring] *)

Definition CAPACITY : Z := 4.
Definition READERS : Z := 3.

(** One mapping, two handles, and the oracle. *)
Record Duo := mkDuo {
  d_shm : Shm;
  d_ring : SpmcRingBuffer;
  d_reader : SpmcRingBuffer;
  pushed : list Z;
  next : list Z;
  prev_total : Z;
}.

Definition on_ring {A} (m : M St A) : M Duo A := fun d =>
  match m (mkSt (d_shm d) (d_ring d)) with
  | Ret (a, s) => Ret (a, mkDuo (shm s) (ring s) (d_reader d) (pushed d) (next d) (prev_total d))
  | Panic => Panic
  | Ub => Ub
  end.
Definition on_reader {A} (m : M St A) : M Duo A := fun d =>
  match m (mkSt (d_shm d) (d_reader d)) with
  | Ret (a, s) => Ret (a, mkDuo (shm s) (d_ring d) (ring s) (pushed d) (next d) (prev_total d))
  | Panic => Panic
  | Ub => Ub
  end.

Definition push_oracle (v : Z) : M Duo unit := modify (fun d =>
  mkDuo (d_shm d) (d_ring d) (d_reader d) (pushed d ++ [v]) (next d) (prev_total d)).
(** [next[id] += 1], where [next[id]] is [n] *)
Definition advance_oracle (id n : Z) : M Duo unit := modify (fun d =>
  mkDuo (d_shm d) (d_ring d) (d_reader d) (pushed d)
    (<[Z.to_nat id := n + 1]> (next d)) (prev_total d)).
Definition set_prev_total (n : Z) : M Duo unit := modify (fun d =>
  mkDuo (d_shm d) (d_ring d) (d_reader d) (pushed d) (next d) n).

Section fuzz_ring.
Context `{Profile} `{Os} `{Memmap2}.

Definition fuzz_push (v : Z) : M Duo unit :=
  let! accepted := on_ring (try_push v) in
  if (accepted : bool) then push_oracle v
  else let! lag := on_ring slowest_lag in assert_ (lag <=? CAPACITY).

Definition fuzz_pop (id : Z) : M Duo unit :=
  let! got := on_reader (try_pop (T := Z) id) in
  match got with
  | Err _ => panic
  | Ok got =>
      let! d := get in
      let! n := lift (index (next d) id) in
      if n <? Z.of_nat (length (pushed d)) then
        let! expected := lift (index (pushed d) n) in
        assert_ (bool_decide (got = Some expected)) ;! advance_oracle id n
      else assert_ (bool_decide (got = None))
  end.

(** The checks after every operation. *)
Definition fuzz_check : M Duo unit :=
  let! d := get in
  let! total := on_ring total_written_ in
  assert_ (prev_total d <=? total) ;!
  set_prev_total total ;!
  let! lag := on_ring slowest_lag in
  assert_ (lag <=? CAPACITY).

(** One operation of the input, with the byte that follows it. *)
Definition fuzz_op (op arg : Z) : M Duo unit :=
  if op mod 4 <? 2 then fuzz_push arg
  else if op mod 4 =? 2 then fuzz_pop (arg mod READERS)
  else ret tt.

(** [while let Some(op) = it.next()]: pushes and pops take a second byte. *)
Fixpoint fuzz_loop (data : list byte) : M Duo unit :=
  match data with
  | [] => ret tt
  | op :: rest =>
      let op := byte_val op in
      if op mod 4 =? 3 then fuzz_check ;! fuzz_loop rest
      else
        match rest with
        | [] => fuzz_op op 0 ;! fuzz_check
        | arg :: rest => fuzz_op op (byte_val arg) ;! fuzz_check ;! fuzz_loop rest
        end
  end.

Definition fuzz_ring (dir : string) (data : list byte) (fs : files) : outcome Duo :=
  let path := path_join dir "fuzz.ring" in
  match (let! created := create_new Z path CAPACITY in
         let! opened := open_existing Z path in ret (created, opened)) fs with
  | Ret ((Ok s, Ok s'), _) =>
      match fuzz_loop data (mkDuo (shm s) (ring s) (ring s') [] (replicate 3 0) 0) with
      | Ret (_, d) => Ret d
      | Panic => Panic
      | Ub => Ub
      end
  | Ret _ => Panic
  | Panic => Panic
  | Ub => Ub
  end.
End fuzz_ring.
