(* ===== verification/FuzzProps.v ===== *)
(** FuzzProps: what the fuzz targets can and cannot find.

    [fuzz_ring] returns on every input: two handles of a created file behave
    as its oracle says.  [fuzz_open] panics exactly on the inputs that make it
    ask for capacity 1. *)

From S2P Require Import Prelude.
From S2P Require Import Error.
From S2P Require Import Header.
From S2P Require Import Pod.
From S2P Require Import Shm.
From S2P Require Import Fs.
From S2P Require Import Ring.
From S2P Require Import Spec.
From S2P Require Import Create.
From S2P Require Import Hostile.
From S2P Require Import Handles.
From S2P Require Import Fuzz.
From stdpp Require Import strings.
Set Default Goal Selector "!".
Open Scope Z_scope.
Open Scope shm_scope.

(** ** [fuzz_ring] *)

Section fuzz_ring_props.
Context `{Profile}.

Lemma wp_on_ring {A} (m : M St A) Q d :
  wp m (fun a s => Q a (mkDuo (shm s) (ring s) (d_reader d) (pushed d) (next d) (prev_total d)))
    (mkSt (d_shm d) (d_ring d)) -> wp (on_ring m) Q d.
Proof. unfold wp, on_ring. by destruct (m _) as [[a s]| |]. Qed.

Lemma wp_on_reader {A} (m : M St A) Q d :
  wp m (fun a s => Q a (mkDuo (shm s) (d_ring d) (ring s) (pushed d) (next d) (prev_total d)))
    (mkSt (d_shm d) (d_reader d)) -> wp (on_reader m) Q d.
Proof. unfold wp, on_reader. by destruct (m _) as [[a s]| |]. Qed.

(** The log both handles see: what the oracle recorded, five of the eight
    participating cursors never moving. *)
Definition oracle_log (d : Duo) : spec Z :=
  mkSpec (pushed d) (next d ++ replicate 5 0) 8 CAPACITY (replicate 8 0).

Definition handle_ok (r : SpmcRingBuffer) : Prop :=
  r_capacity r = CAPACITY /\ loan_depth r = replicate 8 0 /\ claim_base r = replicate 8 0.

Record duo_ok (d : Duo) : Prop := mkDuoOk {
  do_rep : rep (mkSt (d_shm d) (d_ring d)) (oracle_log d);
  do_ring : handle_ok (d_ring d);
  do_reader : handle_ok (d_reader d);
  do_next : length (next d) = 3%nat;
  do_total : 0 <= prev_total d <= Z.of_nat (length (pushed d));
}.

Lemma duo_rep_reader d : duo_ok d -> rep (mkSt (d_shm d) (d_reader d)) (oracle_log d).
Proof.
  intros I. destruct (do_ring _ I) as (H1 & H2 & _), (do_reader _ I) as (H3 & H4 & H5).
  eapply rep_handle; [apply I|congruence|congruence|rewrite H5|by rewrite H5].
  apply Forall_replicate. unfold u64. lia.
Qed.

(** The ring of the target fills after four pushes and stays full. *)
Lemma duo_bound d : duo_ok d -> Z.of_nat (length (pushed d)) <= CAPACITY.
Proof.
  intros I. pose proof (rep_window _ _ (do_rep _ I) 7 0) as Hw.
  cbn [oracle_log cursors n_readers cap produced log] in Hw. unfold produced in Hw; cbn [oracle_log log] in Hw.
  assert (Hc : (next d ++ replicate 5 0) !! Z.to_nat 7 = Some 0)
    by (rewrite lookup_app_r, (do_next _ I) by (rewrite (do_next _ I); lia); done).
  specialize (Hw ltac:(lia) Hc). lia.
Qed.

Lemma duo_room d : duo_ok d -> u64 (produced (oracle_log d) + 1).
Proof.
  intros I. pose proof (duo_bound d I). unfold produced, u64, CAPACITY in *; cbn [oracle_log log]. lia.
Qed.

Lemma duo_lag d : duo_ok d -> produced (oracle_log d) - spec_slowest (oracle_log d) <= CAPACITY.
Proof.
  intros I. pose proof (duo_bound d I). unfold produced; cbn [oracle_log log].
  assert (0 <= spec_slowest (oracle_log d)); [|lia].
  apply fold_min_glb; [unfold u64_MAX; lia|]. intros c Hc.
  pose proof (rep_cursors_ok _ _ (do_rep _ I)) as [_ Hpos].
  apply elem_of_take_lookup in Hc as (i & _ & Hi). by apply (Forall_lookup_1 _ _ _ _ Hpos Hi).
Qed.

Lemma fuzz_push_ok v d : duo_ok d -> u64 v -> wp (fuzz_push v) (fun _ => duo_ok) d.
Proof.
  intros I Hv. unfold fuzz_push. apply wp_bind, wp_on_ring.
  eapply wp_mono; [by apply (wp_push _ _ v (do_rep _ I) Hv (duo_room _ I))|].
  intros b s' (Eb & R & Er). cbn beta. destruct I as [_ Hr Hd Hn Ht].
  unfold spec_push in Eb, R. destruct (_ <=? _); cbn [fst snd] in Eb, R; subst b.
  - assert (I' : duo_ok (mkDuo (shm s') (ring s') (d_reader d) (pushed d) (next d) (prev_total d))).
    { split; [by destruct s'|by rewrite Er|done..]. }
    apply wp_bind, wp_on_ring. eapply wp_mono; [by apply wp_lag, (do_rep _ I')|].
    intros n s1 [-> ->]. apply wp_assert; [|done]. apply Z.leb_le. exact (duo_lag _ I').
  - apply wp_modify. split; cbn [d_shm d_ring d_reader pushed next prev_total];
      [by destruct s'|by rewrite Er|done..|]. rewrite length_app. cbn. lia.
Qed.

Lemma fuzz_pop_ok id d : duo_ok d -> 0 <= id < READERS -> wp (fuzz_pop id) (fun _ => duo_ok) d.
Proof.
  intros I Hid. unfold READERS in Hid. unfold fuzz_pop. apply wp_bind, wp_on_reader.
  eapply wp_mono; [apply (wp_pop _ _ id (duo_rep_reader _ I) (proj1 Hid) (duo_room _ I))|].
  intros r s' (Er & R & Eh). cbn beta. pose proof (do_next _ I) as Hn.
  destruct (lookup_lt_is_Some_2 (next d) (Z.to_nat id)) as [c Hc]; [lia|].
  pose proof (rep_cursor _ _ id (do_rep _ I)) as Hcur.
  cbn [oracle_log cursors n_readers] in Hcur. destruct (Hcur ltac:(lia)) as (c' & Hc' & Ht & Hb & _).
  rewrite lookup_app_l in Hc' by lia. assert (c' = c) as -> by congruence.
  unfold spec_pop in Er, R. rewrite (spec_check_ok _ id c) in Er, R by (cbn; lia || done).
  cbn [oracle_log gates log cursors n_readers Spec.cap] in Er, R.
  rewrite (lookup_total_replicate_2 8 0 (Z.to_nat id)) in Er, R by lia. cbn [negb Z.eqb] in Er, R.
  assert (Hi : index (next d) id = Ret c).
  { unfold index. destruct (Z.ltb_spec id 0); [lia|]. by rewrite Hc. }
  assert (Hg : index (pushed d) c = match pushed d !! Z.to_nat c with Some v => Ret v | None => Panic end).
  { unfold index. destruct (Z.ltb_spec c 0); [lia|done]. }
  assert (Hback : forall sp, rep s' sp -> rep (mkSt (shm s') (d_ring d)) sp).
  { intros sp R'. destruct (do_ring _ I) as (H1 & H2 & H3), (do_reader _ I) as (H4 & H5 & _).
    destruct s' as [m g]. cbn in Eh. subst g.
    eapply rep_handle; [exact R'|congruence|congruence|rewrite H3|by rewrite H3].
    apply Forall_replicate. unfold u64. lia. }
  destruct I as [_ Hr Hd _ Htot]. cbn [shm ring] in Eh.
  destruct (pushed d !! Z.to_nat c) as [v|] eqn:Hv; cbn [fst snd] in Er, R; subst r; cbn beta iota;
    apply wp_bind, wp_get; apply wp_bind; eapply wp_lift; try exact Hi; cbn [pushed].
  - apply lookup_lt_Some in Hv as Hlt. destruct (Z.ltb_spec c (Z.of_nat (length (pushed d)))); [|lia].
    apply wp_bind; eapply wp_lift; [by rewrite Hg|].
    apply wp_bind, wp_assert; [by apply bool_decide_eq_true|]. apply wp_modify.
    rewrite insert_app_l in R by lia.
    split; cbn [d_shm d_ring d_reader pushed next prev_total]; [by apply Hback|done|by rewrite Eh|
      by rewrite length_insert|done].
  - apply lookup_ge_None in Hv. destruct (Z.ltb_spec c (Z.of_nat (length (pushed d)))); [lia|].
    apply wp_assert; [done|].
    split; cbn [d_shm d_ring d_reader pushed next prev_total]; [by apply Hback|done|by rewrite Eh|done|done].
Qed.

Lemma fuzz_check_ok d : duo_ok d -> wp fuzz_check (fun _ => duo_ok) d.
Proof.
  intros I. unfold fuzz_check. apply wp_bind, wp_get. apply wp_bind, wp_on_ring.
  eapply wp_of_run; [reflexivity|]. cbn beta.
  assert (Et : h_total_written (hdr (d_shm d)) = Z.of_nat (length (pushed d)))
    by exact (rep_total _ _ (do_rep _ I)).
  unfold total_written; cbn [shm]. rewrite Et. pose proof (do_total _ I) as Ht.
  apply wp_bind, wp_assert; [apply Z.leb_le; cbn; lia|]. apply wp_bind, wp_modify.
  set (d' := mkDuo _ _ _ _ _ _). assert (I' : duo_ok d') by (destruct I; split; try done; cbn; lia).
  apply wp_bind, wp_on_ring. eapply wp_mono; [by apply wp_lag, (do_rep _ I')|].
  intros n s1 [-> ->]. apply wp_assert; [|done]. apply Z.leb_le. exact (duo_lag _ I').
Qed.

Lemma byte_val_range b : 0 <= byte_val b < 256.
Proof. unfold byte_val. pose proof (Byte.to_N_bounded b). lia. Qed.

Lemma fuzz_op_ok op arg d : duo_ok d -> 0 <= arg < 256 -> wp (fuzz_op op arg) (fun _ => duo_ok) d.
Proof.
  intros I Ha. unfold fuzz_op. destruct (_ <? 2).
  - apply fuzz_push_ok; [done|unfold u64; lia].
  - destruct (_ =? 2); [|done]. apply fuzz_pop_ok; [done|]. by apply Z.mod_pos_bound.
Qed.

Lemma fuzz_loop_ok data d : duo_ok d -> wp (fuzz_loop data) (fun _ => duo_ok) d.
Proof.
  revert d. induction data as [data IH] using (induction_ltof1 _ (@length byte)). intros d I.
  unfold ltof in IH. destruct data as [|op rest]; [done|]. cbn [fuzz_loop].
  assert (Hcheck : forall (m : M Duo unit) d, duo_ok d -> (forall d, duo_ok d -> wp m (fun _ => duo_ok) d) ->
    wp (fuzz_check ;! m) (fun _ => duo_ok) d).
  { intros m d0 I0 Hm. apply wp_bind. eapply wp_mono; [by apply fuzz_check_ok|]. intros ? d1. apply Hm. }
  destruct (_ =? 3).
  - apply Hcheck; [done|]. intros d1 I1. apply IH; [simpl; lia|done].
  - destruct rest as [|arg rest]; apply wp_bind; (eapply wp_mono; [apply fuzz_op_ok; [done|]|]);
      [lia| |apply byte_val_range|].
    + intros ? d1 I1. by apply fuzz_check_ok.
    + intros ? d1 I1. apply Hcheck; [done|]. intros d2 I2. apply IH; [simpl; lia|done].
Qed.
End fuzz_ring_props.

(** ** The path of [fuzz_open] *)

Lemma substring_length n m s : (String.length (String.substring n m s) <= m)%nat.
Proof. revert n m. induction s as [|a s IH]; intros [|n] [|m]; simpl; try lia; [specialize (IH 0%nat m)|specialize (IH n 0%nat)|specialize (IH n (S m))]; lia. Qed.

Lemma string_app_length s1 s2 :
  String.length (s1 +:+ s2)%string = (String.length s1 + String.length s2)%nat.
Proof. induction s1 as [|a s1 IH]; simpl; [done|]. by rewrite IH. Qed.

Lemma hex_byte_length b : (String.length (hex_byte b) <= 2)%nat.
Proof.
  unfold hex_byte. rewrite string_app_length.
  pose proof (fun d => substring_length (Z.to_nat d) 1 "0123456789abcdef") as Hd.
  pose proof (Hd (byte_val b / 16)). pose proof (Hd (byte_val b mod 16)). unfold hex_digit. lia.
Qed.

Lemma concat_length n l :
  Forall (fun s => String.length s <= n)%nat l ->
  (String.length (String.concat "" l) <= length l * n)%nat.
Proof.
  induction 1 as [|s l Hs Hl IH]; [simpl; lia|]. destruct l as [|s' l]; [simpl; lia|].
  change (String.concat "" (s :: s' :: l)) with (s +:+ String.concat "" (s' :: l))%string.
  rewrite string_app_length. simpl in *. lia.
Qed.

Lemma file_name_length data : (String.length (file_name data) <= 8)%nat.
Proof.
  unfold file_name. pose proof (concat_length 2 (hex_byte <$> take 4 data)) as Hc.
  destruct (String.concat _ _) as [|a s]; [simpl; lia|].
  rewrite length_fmap, length_take in Hc. etransitivity; [apply Hc|lia].
  apply Forall_fmap, Forall_forall. intros b _. apply hex_byte_length.
Qed.

Lemma path_not_missing dir data : path_join dir (file_name data) <> path_join dir "does-not-exist".
Proof.
  unfold path_join. intros E%(f_equal String.length). rewrite !string_app_length in E.
  pose proof (file_name_length data). simpl in E. lia.
Qed.

(** ** Both targets on a system without faults *)

Section targets.
Context `{Profile} `{Os} `{Memmap2} `{!Memmap2Laws}.
Context (Hquiet : forall path, quiet path) (Halone : forall fs, others fs = fs).

Lemma u64_args k n : 0 <= k <= 31 -> 1 <= n <= MAX_READERS -> create_args Z (2 ^ k) n.
Proof.
  intros Hk Hn. pose proof (Z.pow_le_mono_r 2 k 31 ltac:(lia) ltac:(lia)) as Hle.
  assert (2 ^ 31 = 2147483648) as E by done. split; [by exists k; split; [lia|]|done|done|done|].
  cbn [size_of u64_pod]. unfold HEADER_SIZE. rewrite E in Hle. nia.
Qed.

(** C32: The protocol fuzz target returns on every input: through two handles of
    the file it creates, pushes, pops by any of its readers and queries agree
    with its oracle, [total_written] never falls and the lag never exceeds the
    capacity.  At most four records are ever accepted, as only three of the
    eight participating readers pop. *)
Theorem fuzz_ring_returns dir data (fs : files) :
  fs !! path_join dir "fuzz.ring" = None ->
  exists d, fuzz_ring dir data fs = Ret d /\ Z.of_nat (length (pushed d)) <= CAPACITY.
Proof.
  intros Hfree. set (path := path_join dir "fuzz.ring"). pose proof (u64_args 2 8 ltac:(lia) ltac:(unfold MAX_READERS; lia)) as Ha.
  change (2 ^ 2) with CAPACITY in Ha. set (s := fresh_st Z path CAPACITY 8).
  pose proof (fresh_layout path CAPACITY 8 Ha) as Hs. fold s in Hs.
  pose proof (create_run path CAPACITY 8 fs (Hquiet path) Ha Hfree) as Ec. rewrite Halone in Ec.
  specialize (Ec Hfree). fold s in Ec. unfold fuzz_ring. fold path.
  assert (Eo : open_existing Z path (<[path := shm_bytes (shm s)]> fs) =
    Ret (Ok s, <[path := shm_bytes (shm s)]> fs)).
  { apply (open_run path s); [done|done| | |by rewrite lookup_insert_eq].
    - unfold s. rewrite fresh_len by done. done.
    - split; [done|split; [done|split; done]]. }
  erewrite bind_run by exact Ec. erewrite bind_run by exact Eo. cbn beta iota.
  assert (I : duo_ok (mkDuo (shm s) (ring s) (ring s) [] (replicate 3 0) 0)).
  { split; [|done..|done]. exact (fresh_rep path CAPACITY 8 Ha). }
  destruct (wp_run _ _ _ (fuzz_loop_ok data _ I)) as ([] & d & E & I'). unfold ret; cbn beta iota.
  rewrite E. exists d. split; [done|by apply duo_bound].
Qed.

(** The raw capacity meets a file that is there: it is refused, whatever it is. *)
Lemma raw_refused path data (fs : files) :
  is_Some (fs !! path) ->
  exists e, create_new Z path (raw_capacity data) fs = Ret (Err e, fs) /\
    (e = AlreadyExists \/ e = InvalidCapacity (raw_capacity data)).
Proof.
  intros Hf. unfold create_new.
  assert (Hr : 0 <= raw_capacity data < 2 ^ 32)
    by exact (le_word_range (byte_at data <$> seq 0 4)).
  destruct (is_power_of_two (raw_capacity data)) eqn:Hp.
  - apply is_power_of_two_spec in Hp as (k & Hk & E). exists AlreadyExists. split; [|by left].
    apply create_exists; [|done]. rewrite E in *. apply u64_args; [|unfold MAX_READERS; lia].
    split; [done|]. destruct (Z.le_gt_cases 32 k); [|lia].
    pose proof (Z.pow_le_mono_r 2 32 k ltac:(lia) ltac:(lia)). lia.
  - exists (InvalidCapacity (raw_capacity data)). split; [|by right].
    unfold create_new_with_readers. rewrite Hp, orb_true_r. done.
Qed.

Lemma ask_run {A} (s s' : St) (m : M St A) a (fs : files) : m s = Ret (a, s') -> ask s m fs = Ret (a, fs).
Proof. intros E. unfold ask. by rewrite E. Qed.

Lemma check_created_run path k (fs : files) :
  0 <= k <= 31 -> let s := fresh_st Z path (2 ^ k) 8 in
  fs !! path = Some (shm_bytes (shm s)) ->
  check_created path (2 ^ k) s fs = if k =? 0 then Panic else Ret (tt, fs).
Proof.
  intros Hk s Hf. assert (Ha : create_args Z (2 ^ k) 8) by (apply u64_args; unfold MAX_READERS; lia).
  unfold check_created.
  erewrite bind_run by (by eapply (ask_run s s)). change (r_capacity (ring s)) with (2 ^ k).
  rewrite Z.eqb_refl. erewrite bind_run by reflexivity.
  erewrite bind_run by (by eapply (ask_run s s)). change (r_path (ring s)) with path.
  rewrite String.eqb_refl. erewrite bind_run by reflexivity.
  erewrite bind_run by (apply create_exists; [done|by rewrite Hf]). cbn beta iota.
  destruct (Z.eqb_spec k 0) as [->|E0].
  - unfold bind at 1. by rewrite (open_capacity_one path 8).
  - pose proof (Z.pow_le_mono_r 2 1 k ltac:(lia) ltac:(lia)). pose proof (create_args_pos _ _ Ha).
    pose proof (ca_fits _ _ Ha).
    erewrite bind_run by (apply (open_run path s); [done|by apply fresh_layout| | |done];
      [unfold s; by rewrite fresh_len|by split_and!]).
    cbn beta iota. erewrite bind_run by (by eapply (ask_run _ _)). cbn. by rewrite Z.eqb_refl.
Qed.

(** C38: On an empty directory the constructor fuzz target panics exactly on the
    inputs whose first byte is a multiple of 12, the empty input included:
    they make it create a ring of one slot, which does not open.  On every
    other input its invariant holds: what [create_new] writes opens with the
    same capacity, the second creation is refused, and the raw capacity and
    the missing path get typed errors. *)
Theorem fuzz_open_verdict dir data (fs : files) :
  fs !! path_join dir (file_name data) = None -> fs !! path_join dir "does-not-exist" = None ->
  if byte_val (byte_at data 0) mod 12 =? 0 then fuzz_open dir data fs = Panic
  else exists fs', fuzz_open dir data fs = Ret (tt, fs').
Proof.
  intros Hfree Hmiss. pose proof (path_not_missing dir data) as Hne.
  unfold fuzz_open. set (path := path_join dir (file_name data)) in *.
  pose proof (Z.mod_pos_bound (byte_val (byte_at data 0)) 12 ltac:(lia)) as Hk.
  unfold pow2_capacity. set (k := byte_val (byte_at data 0) mod 12) in *. rewrite Z.shiftl_1_l.
  assert (Ha : create_args Z (2 ^ k) 8) by (apply u64_args; unfold MAX_READERS; lia).
  pose proof (create_run path (2 ^ k) 8 fs (Hquiet path) Ha Hfree) as Ec. rewrite Halone in Ec.
  specialize (Ec Hfree). set (s := fresh_st Z path (2 ^ k) 8) in *. set (fs' := <[path := _]> fs) in Ec.
  assert (Hf : fs' !! path = Some (shm_bytes (shm s))) by (unfold fs'; by rewrite lookup_insert_eq).
  pose proof (check_created_run path k fs' ltac:(lia) Hf) as Ek. fold s in Ek.
  erewrite bind_run by exact Ec. cbn beta iota.
  destruct (k =? 0); [unfold bind at 1; by rewrite Ek|].
  exists fs'. erewrite bind_run by exact Ek.
  destruct (raw_refused path data fs') as (e & Er & He); [by rewrite Hf|].
  erewrite bind_run by exact Er. cbn beta iota.
  destruct (open_rejects (T := Z) (path_join dir "does-not-exist") fs' (Hquiet _)) as [Hn _]; [done..|].
  assert (Hm : fs' !! path_join dir "does-not-exist" = None)
    by (unfold fs'; by rewrite lookup_insert_ne).
  destruct He as [-> | ->]; cbn beta iota; (erewrite bind_run by reflexivity);
    (erewrite bind_run by exact (Hn Hm)); done.
Qed.
End targets.

(** ** Witnesses *)

#[local] Existing Instance dev_profile.
#[local] Existing Instance quiet_os.
#[local] Existing Instance plain_memmap2.
#[local] Existing Instance plain_memmap2_laws.

Lemma no_faults path : quiet path.
Proof. split; try done. intros c. by exists c. Qed.

(** Four pushes, a fifth refused, pops by three readers, a trailing opcode. *)
Definition ring_input : list byte :=
  [Byte.x00; Byte.x0a; Byte.x01; Byte.x0b; Byte.x04; Byte.x0c; Byte.x00; Byte.x0d; Byte.x00; Byte.x0e;
   Byte.x02; Byte.x00; Byte.x02; Byte.x01; Byte.x03; Byte.x06; Byte.x00; Byte.x02].

Lemma fuzz_ring_returns_witness :
  (exists d, fuzz_ring "/tmp/fuzz" ring_input ∅ = Ret d /\ Z.of_nat (length (pushed d)) <= CAPACITY) /\
  match fuzz_ring "/tmp/fuzz" ring_input ∅ with
  | Ret d => pushed d = [10; 11; 12; 13] /\ next d = [3; 1; 0]
  | _ => False
  end.
Proof.
  split; [|by vm_compute].
  exact (fuzz_ring_returns no_faults (fun fs => eq_refl) "/tmp/fuzz" ring_input ∅ eq_refl).
Defined.

Lemma fuzz_open_verdict_witness :
  fuzz_open "/tmp/fuzz" [] ∅ = Panic /\ fuzz_open "/tmp/fuzz" [Byte.x18] ∅ = Panic /\
  exists fs', fuzz_open "/tmp/fuzz" [Byte.x02; Byte.xff] ∅ = Ret (tt, fs').
Proof.
  split; [|split].
  - exact (fuzz_open_verdict no_faults (fun fs => eq_refl) "/tmp/fuzz" [] ∅ eq_refl eq_refl).
  - exact (fuzz_open_verdict no_faults (fun fs => eq_refl) "/tmp/fuzz" [Byte.x18] ∅ eq_refl eq_refl).
  - exact (fuzz_open_verdict no_faults (fun fs => eq_refl) "/tmp/fuzz" [Byte.x02; Byte.xff] ∅ eq_refl eq_refl).
Defined.
