(* ===== verification/Format.v ===== *)
(** Format: how errors, handles, loans and descriptors show themselves.

    [display] is the [Display] that thiserror derives from the [#[error]]
    attributes of [src/src/error.rs]; an [io::Error] shows itself
    ([transparent]), so its text is a parameter.  [Debug] is written with
    [debug_struct]: its result here is the name and the fields in order, the
    layout of the text being the formatter's. *)

From S2P Require Import Prelude.
From S2P Require Import Error.
From S2P Require Import Header.
From S2P Require Import Pod.
From S2P Require Import Shm.
From S2P Require Import Ring.
From S2P Require Import Spec.
From S2P Require Import Fs.
From S2P Require Import Create.
From S2P Require Import Loan.
From S2P Require Import LoanInv.
From S2P Require Import LoanOps.
From S2P Require Import LoanClient.
From S2P Require Import LoanProps.
From S2P Require Import Notify.
From stdpp Require Import strings pretty.
From Stdlib Require Import Strings.Ascii.
Set Default Goal Selector "!".
Open Scope string_scope.
Open Scope Z_scope.

(** ** Numbers *)

(** [{}] of an unsigned integer. *)
Definition dec (n : Z) : string := pretty (Z.to_N n).

Definition hex_char (d : Z) : Ascii.ascii := default "0"%char (String.get (Z.to_nat d) "0123456789abcdef").

(** [{:x}] of a [u64]: at most 16 digits. *)
Fixpoint hex_digits (fuel : nat) (n : Z) (acc : string) : string :=
  match fuel with
  | O => acc
  | S fuel =>
      let acc := String (hex_char (n mod 16)) acc in
      if n / 16 =? 0 then acc else hex_digits fuel (n / 16) acc
  end.
(** [{:#x}] *)
Definition hex (n : Z) : string := "0x" +:+ hex_digits 16 n "".

(** ** [Display] *)

Definition display (io : ErrorKind.t -> string) (e : ShmRingError) : string :=
  match e with
  | InvalidCapacity got => "invalid capacity " +:+ dec got +:+ ": must be a non-zero power of two"
  | AlreadyExists => "ring file already exists: refusing to overwrite"
  | FileTooShort expected got =>
      "file too short: expected at least " +:+ dec expected +:+ " bytes, got " +:+ dec got
  | HeaderCorruption field expected got =>
      "header corruption in `" +:+ field +:+ "`: expected " +:+ hex expected +:+ ", got " +:+ hex got
  | VersionMismatch expected got =>
      "format version mismatch: file has " +:+ dec got +:+ ", this build expects " +:+ dec expected
  | Io e => io e
  | InvalidReaderId id max => "invalid reader id " +:+ dec id +:+ ": max valid id is " +:+ dec max
  | LoanOutstanding reader_id =>
      "reader " +:+ dec reader_id +:+ " has an outstanding loan; commit or abort it before popping"
  | LoanNotAtCursor index cursor =>
      "loan at index " +:+ dec index +:+ " cannot commit: reader cursor is at " +:+ dec cursor +:+
      " (commit earlier loans first, or abort to rewind the claim pipeline)"
  end.

(** ** Errors can be told apart by their text *)

Fixpoint all (P : ascii -> bool) (s : string) : bool :=
  match s with EmptyString => true | String c s => P c && all P s end.

Definition digit (c : ascii) : bool := Nat.leb 48 (nat_of_ascii c) && Nat.leb (nat_of_ascii c) 57.
Definition xdigit (c : ascii) : bool := digit c || (Nat.leb 97 (nat_of_ascii c) && Nat.leb (nat_of_ascii c) 102).
Definition unquoted (c : ascii) : bool := negb (Ascii.eqb c "`").

(** A run of characters of a class is delimited by the first that is not. *)
Lemma span_inj P a b c c' s s' :
  all P a = true -> all P b = true -> P c = false -> P c' = false ->
  a +:+ String c s = b +:+ String c' s' -> a = b /\ String c s = String c' s'.
Proof.
  revert b. induction a as [|x a IH]; intros [|y b] Ha Hb Hc Hc' E; simpl in *; simplify_eq; try done.
  - apply andb_prop in Hb as [Hy _]. congruence.
  - apply andb_prop in Ha as [Hx _]. congruence.
  - apply andb_prop in Ha as [_ Ha]. apply andb_prop in Hb as [_ Hb].
    destruct (IH b Ha Hb Hc Hc') as [-> ?]; done.
Qed.

Lemma digit_char x : digit (pretty_N_char x) = true.
Proof. unfold pretty_N_char. by repeat case_match. Qed.

Lemma pretty_go_digits x s : all digit s = true -> all digit (pretty_N_go x s) = true.
Proof.
  revert s. induction (N.lt_wf_0 x) as [x _ IH]; intros s Hs.
  destruct (decide (x = 0)%N) as [->|Hx]; [by rewrite pretty_N_go_0|].
  rewrite pretty_N_go_step by lia. apply IH; [apply N.div_lt; lia|]. simpl. by rewrite digit_char.
Qed.

Lemma dec_digits n : all digit (dec n) = true.
Proof. unfold dec, pretty, pretty_N. case_decide; [done|by apply pretty_go_digits]. Qed.

Lemma dec_inj n m : 0 <= n -> 0 <= m -> dec n = dec m -> n = m.
Proof. intros Hn Hm E%pretty_N_inj. lia. Qed.

Definition digit_value (c : ascii) : Z :=
  let n := Z.of_nat (nat_of_ascii c) in if n <? 58 then n - 48 else n - 87.
Fixpoint parse (a : Z) (s : string) : Z :=
  match s with EmptyString => a | String c s => parse (a * 16 + digit_value c) s end.

Lemma hex_char_value d : 0 <= d < 16 -> digit_value (hex_char d) = d /\ xdigit (hex_char d) = true.
Proof.
  intros Hd. assert (H : forall k, (k < 16)%nat ->
    digit_value (hex_char (Z.of_nat k)) = Z.of_nat k /\ xdigit (hex_char (Z.of_nat k)) = true).
  { intros k Hk. do 16 (destruct k as [|k]; [by vm_compute|]). lia. }
  specialize (H (Z.to_nat d)). rewrite Z2Nat.id in H by lia. apply H. lia.
Qed.

(** Parsing the printed digits gives the number back. *)
Lemma parse_hex_digits fuel n acc :
  0 <= n < 16 ^ Z.of_nat fuel -> parse 0 (hex_digits fuel n acc) = parse n acc.
Proof.
  revert n acc. induction fuel as [|fuel IH]; intros n acc Hn; simpl.
  - by replace n with 0 by (change (16 ^ Z.of_nat 0) with 1 in Hn; lia).
  - pose proof (Z.mod_pos_bound n 16 ltac:(lia)) as Hm. pose proof (Z.div_mod n 16 ltac:(lia)) as E.
    destruct (Z.eqb_spec (n / 16) 0) as [Ez|Ez].
    + simpl. rewrite (proj1 (hex_char_value _ Hm)). f_equal. lia.
    + rewrite Nat2Z.inj_succ, Z.pow_succ_r in Hn by lia.
      rewrite IH by (split; [apply Z.div_pos; lia|apply Z.div_lt_upper_bound; lia]).
      simpl. rewrite (proj1 (hex_char_value _ Hm)). f_equal. lia.
Qed.

Lemma hex_digits_class fuel n acc :
  0 <= n -> all xdigit acc = true -> all xdigit (hex_digits fuel n acc) = true.
Proof.
  revert n acc. induction fuel as [|fuel IH]; intros n acc Hn Hacc; simpl; [done|].
  assert (Hs : all xdigit (String (hex_char (n mod 16)) acc) = true).
  { simpl. by rewrite (proj2 (hex_char_value _ (Z.mod_pos_bound n 16 ltac:(lia)))). }
  destruct (_ =? 0); [done|]. apply IH; [apply Z.div_pos; lia|done].
Qed.

Lemma hex_inj n m : u64 n -> u64 m -> hex n = hex m -> n = m.
Proof.
  unfold u64, hex. intros Hn Hm E%(inj _)%(f_equal (parse 0)).
  by rewrite !parse_hex_digits in E by (change (16 ^ Z.of_nat 16) with (2 ^ 64); lia).
Qed.

Definition fields_ok (e : ShmRingError) : Prop :=
  match e with
  | InvalidCapacity a | LoanOutstanding a => u64 a
  | FileTooShort a b | VersionMismatch a b | InvalidReaderId a b | LoanNotAtCursor a b => u64 a /\ u64 b
  | HeaderCorruption f a b => all unquoted f = true /\ u64 a /\ u64 b
  | AlreadyExists => True
  | Io _ => False
  end.

(** Splits [E : a +:+ s = b +:+ s'] where the class [P] ends. *)
Ltac split_span P E :=
  match type of E with String.append ?a ?s = String.append ?b ?s' =>
    let t := eval hnf in s in let t' := eval hnf in s' in
    change (a +:+ t = b +:+ t') in E;
    let Eq := fresh "Eq" in
    apply (span_inj P) in E as [Eq E]; [|auto using dec_digits..]
  end.

Lemma hex_span n m s s' c t :
  u64 n -> u64 m -> xdigit c = false ->
  hex n +:+ (String c t +:+ s) = hex m +:+ (String c t +:+ s') -> n = m /\ s = s'.
Proof.
  intros Hn Hm Hc E.
  assert (E' : hex_digits 16 n "" +:+ String c (t +:+ s) = hex_digits 16 m "" +:+ String c (t +:+ s')).
  { revert E. unfold hex. generalize (hex_digits 16 n "") (hex_digits 16 m ""). intros x y E.
    apply (inj (String.append "0x")). exact E. }
  assert (Hx : forall z, 0 <= z -> all xdigit (hex_digits 16 z "") = true)
    by (intros; by apply hex_digits_class).
  unfold u64 in Hn, Hm. apply (span_inj xdigit) in E' as [Eq E']; [|apply Hx; lia|apply Hx; lia|done|done].
  split; [|by apply (inj (String.append (String c t)))]. apply hex_inj; [done..|]. unfold hex. by rewrite Eq.
Qed.

(** The messages tell the errors apart: two errors with the same [Display]
    text are the same error with the same fields (an [io::Error] shows itself
    and is left out; a header field's name has no quote). *)
Theorem display_distinguishes io e e' :
  fields_ok e -> fields_ok e' -> display io e = display io e' -> e = e'.
Proof.
  intros He He' E. unfold u64 in *.
  destruct e, e'; try done; try discriminate E; cbn [fields_ok display] in *; unfold u64 in *;
    apply (inj (String.append _)) in E.
  - split_span digit E. f_equal. apply dec_inj; (lia || done).
  - split_span digit E. apply (inj (String.append " bytes, got ")) in E.
    f_equal; apply dec_inj; (lia || done).
  - split_span unquoted E; [|tauto..].
    apply (inj (String.append "`: expected ")) in E.
    apply hex_span in E as [-> E]; [|unfold u64; lia..|done].
    apply hex_inj in E as ->; [|unfold u64; lia..]. by subst.
  - split_span digit E. apply (inj (String.append ", this build expects ")) in E.
    f_equal; apply dec_inj; (lia || done).
  - split_span digit E. apply (inj (String.append ": max valid id is ")) in E.
    f_equal; apply dec_inj; (lia || done).
  - split_span digit E. f_equal. apply dec_inj; (lia || done).
  - split_span digit E. apply (inj (String.append " cannot commit: reader cursor is at ")) in E.
    split_span digit E. f_equal; apply dec_inj; (lia || done).
Qed.

(** ** [Debug], [AsFd] and [AsRawFd] *)

Inductive shown (T : Type) :=
  | SPath (p : string)
  | SNum (n : Z)
  | SRecord (v : T).
Arguments SPath {T}.
Arguments SNum {T}.
Arguments SRecord {T}.

(** [f.debug_struct(name).field(...)...finish()] *)
Record debug_struct (T : Type) := mkDebug {
  d_name : string;
  d_fields : list (string * shown T);
}.
Arguments mkDebug {T}.
Arguments d_name {T}.
Arguments d_fields {T}.

(** The number of the descriptor an [OwnedFd] holds, which no system call on
    it changes. *)
Class RawFd (K : Type) := raw_fd : K -> Z.
Class RawFdLaws (K : Type) `{EventFd K} `{!RawFd K} := {
  read_keeps_fd k : raw_fd (efd_read k).2 = raw_fd k;
  write_keeps_fd n k : raw_fd (efd_write n k).2 = raw_fd k;
}.

Section debug.
Context `{Profile} {T : Type} `{Pod T}.

Definition debug_ring : M St (debug_struct T) :=
  let! p := path in
  let! c := capacity in
  let! hdr := hdr_ in
  let w := write_idx hdr Acquire in
  let! hdr := hdr_ in
  let t := total_written hdr Acquire in
  ret (mkDebug "SpmcRingBuffer"
    [("path", SPath p); ("capacity", SNum c); ("write_idx", SNum w); ("total_written", SNum t)]).

(** [&**self]: the record through the loan's [Deref]. *)
Definition debug_loan (l : Loan) : M St (debug_struct T) :=
  let! v := deref T l in
  ret (mkDebug "Loan"
    [("reader_id", SNum (l_reader_id l)); ("index", SNum (l_index l)); ("record", SRecord v)]).

Context {K : Type} `{EventFd K} `{!RawFd K}.

Definition as_raw_fd : M (World K) Z := fun w => Ret (raw_fd (w_fd w), w).
Definition as_fd : M (World K) Z := as_raw_fd.
Definition debug_notify : M (World K) (debug_struct T) :=
  let! fd := as_raw_fd in ret (mkDebug "EventNotify" [("fd", SNum fd)]).
End debug.

Section debug_props.
Context `{Profile} {T : Type} `{Pod T} `{!PodLaws T} {K : Type} `{EventFd K} `{!RawFd K} `{!RawFdLaws K}.

Lemma signal_keeps_fd (w w' : World K) r : signal w = Ret (r, w') -> raw_fd (w_fd w') = raw_fd (w_fd w).
Proof.
  unfold signal, bind, efd. intros E. pose proof (write_keeps_fd 1 (w_fd w)) as Hk.
  destruct (efd_write 1 (w_fd w)) as [[|[]] k]; unfold ret in E; simplify_eq/=; done.
Qed.

Lemma try_wait_keeps_fd (w w' : World K) r : try_wait w = Ret (r, w') -> raw_fd (w_fd w') = raw_fd (w_fd w).
Proof.
  unfold try_wait, bind, efd. intros E. pose proof (read_keeps_fd (w_fd w)) as Hk.
  destruct (efd_read (w_fd w)) as [[|[]] k]; unfold ret in E; simplify_eq/=; done.
Qed.

(** Formatting only looks: [Debug] of a handle reports the published and
    the counted length of its log and leaves the ring as it is; [Debug] of an
    open loan reads inside the mapping and shows the record of its index; the
    descriptor [Debug], [as_fd] and [as_raw_fd] report stays the same through
    signals and drains. *)
Theorem debug_only_looks s (sp : spec T) L :
  loans_ok s sp L ->
  debug_ring (T := T) s = Ret (mkDebug "SpmcRingBuffer"
    [("path", SPath (r_path (ring s))); ("capacity", SNum (cap sp));
     ("write_idx", SNum (produced sp)); ("total_written", SNum (produced sp))], s) /\
  (forall l, l ∈ L -> exists v, log sp !! Z.to_nat (l_index l) = Some v /\
    debug_loan l s = Ret (mkDebug "Loan"
      [("reader_id", SNum (l_reader_id l)); ("index", SNum (l_index l)); ("record", SRecord v)], s)) /\
  (forall (w w' : World K), (exists r, signal w = Ret (r, w')) \/ (exists r, try_wait w = Ret (r, w')) ->
    exists fd, as_raw_fd w = Ret (fd, w) /\ as_fd w' = Ret (fd, w') /\
      debug_notify (T := T) w' = Ret (mkDebug "EventNotify" [("fd", SNum fd)], w')).
Proof.
  intros Hok. pose proof (lk_rep _ _ _ Hok) as R. split_and!.
  - unfold debug_ring. do 4 (erewrite bind_run by reflexivity). unfold ret.
    change (write_idx (hdr (shm s)) Acquire) with (h_write_idx (hdr (shm s))).
    change (total_written (hdr (shm s)) Acquire) with (h_total_written (hdr (shm s))).
    by rewrite (rep_write_idx _ _ R), (rep_total _ _ R), (rep_cap _ _ R).
  - intros l Hl. destruct (deref_run s sp L l Hok Hl) as (v & Hv & E). exists v. split; [done|].
    unfold debug_loan. by rewrite (bind_run _ _ _ _ _ E).
  - intros w w' Hw. assert (E : raw_fd (w_fd w') = raw_fd (w_fd w)).
    { destruct Hw as [[r E]|[r E]]; [by eapply signal_keeps_fd|by eapply try_wait_keeps_fd]. }
    exists (raw_fd (w_fd w)). unfold debug_notify, as_fd, as_raw_fd, bind, ret. by rewrite E.
Qed.
End debug_props.

(** ** Examples *)

Definition no_text (e : ErrorKind.t) : string := "".

Lemma display_distinguishes_witness :
  display no_text (HeaderCorruption "magic" 0x52 0xff) = "header corruption in `magic`: expected 0x52, got 0xff" /\
  forall e, fields_ok e ->
    display no_text e = "header corruption in `magic`: expected 0x52, got 0xff" ->
    HeaderCorruption "magic" 0x52 0xff = e.
Proof.
  assert (E : display no_text (HeaderCorruption "magic" 0x52 0xff) =
    "header corruption in `magic`: expected 0x52, got 0xff") by reflexivity.
  split; [exact E|]. intros e He Ee. rewrite <- Ee in E.
  apply (display_distinguishes no_text); [|exact He|exact E].
  split; [reflexivity|]. unfold u64. lia.
Defined.

#[local] Instance third_fd : RawFd Z := fun _ => 3.
#[local] Instance third_fd_laws : RawFdLaws Z.
Proof. by split. Qed.

Lemma debug_only_looks_witness :
  exists rs ls, lrun (H := dev_profile) [LPush 7; LClaim 1] loan_demo = Ret (rs, ls) /\
    debug_ring (T := Z) (ls_st ls) = Ret (mkDebug "SpmcRingBuffer"
      [("path", SPath "demo.ring"); ("capacity", SNum 4); ("write_idx", SNum 1);
       ("total_written", SNum 1)], ls_st ls) /\
    exists v, debug_loan (mkLoan 1 0 256 false) (ls_st ls) = Ret (mkDebug "Loan"
      [("reader_id", SNum 1); ("index", SNum 0); ("record", SRecord v)], ls_st ls).
Proof.
  destruct (loan_demo_reach [LPush 7; LClaim 1]) as (rs & ls & sp & E & I & _);
    [run_disciplined|cbn; lia|].
  exists rs, ls. split; [exact E|].
  destruct (debug_only_looks (K := Z) (ls_st ls) sp (live (ls_held ls)) I) as (Hr & Hl & _).
  split.
  - assert (Ep : r_path (ring (ls_st ls)) = "demo.ring") by from_run E.
    assert (Ec : r_capacity (ring (ls_st ls)) = 4) by from_run E.
    assert (Ew : h_write_idx (hdr (shm (ls_st ls))) = 1) by from_run E.
    pose proof (lk_rep _ _ _ I) as R. rewrite (rep_cap _ _ R) in Ec. rewrite (rep_write_idx _ _ R) in Ew.
    rewrite Ep, Ec, Ew in Hr. exact Hr.
  - destruct (Hl (mkLoan 1 0 256 false)) as (v & _ & Hv).
    + apply (live_elem (ls_held ls) 0%nat); [from_run E|reflexivity].
    + exists v. exact Hv.
Defined.
